(* ===== verification/_CoqProject ===== *)
-Q . S2P
Prelude.v
Changeset.v
Overlay.v
Allocator.v
ForkTree.v
System.v
Balances.v
Supply.v
Conservation.v
Holds.v
Locks.v
Ledger.v
Arith128.v
BigUint.v
LongDivision.v
Normalize.v
Rational.v
PerThings.v
NonCanonical.v
MetaKeys.v
Discard.v
NonCanonicalInv.v
NonCanonicalOps.v
Canonicalize.v
Journal.v
OverlaySteps.v
OverlayExamples.v
Pruning.v
StateDb.v
Window.v
Backed.v
StateDbSteps.v
StateDbOps.v
StateDbExamples.v
BagsList.v
BagsSeg.v
BagsRepr.v
BagsOps.v
BagsMoves.v
BagsSpec.v
BagsThresholds.v
BagsRun.v
BagsIter.v
BagsCheck.v
BagsDropped.v
BagsMigrate.v
BagsEquiv.v
BagsProps.v
BagsClaims.v
BagsExamples.v
