(* ===== verification/Prelude.v ===== *)
(** Substrate: a verification library for parts of the client, the runtime and
    the arithmetic of the repository.

    * The program and what is modelled

    Substrate is a framework for blockchains.  A node keeps the blocks it has not
    finalized in a tree and the changes they make to the state in a database of
    their own, which prunes old states, runs the runtime (a state transition function
    compiled to wasm) on top of a storage overlay, and gives the runtime a heap.  The
    runtime is made of pallets; the balances pallet keeps the native currency on top of
    the account records of the system pallet, and computes with the numbers of
    sp-arithmetic; the bags-list pallet keeps accounts roughly sorted by a score.  The files follow that structure, each after those it uses; the
    paths below are relative to src/.

    - Prelude (this file): the outcome of a Rust call, the state monad, integers of
      a machine width, vectors.
    - Changeset: primitives/state-machine/src/overlayed_changes/changeset.rs.
      [OverlayedMap] is the struct of that name, [OverlayedEntry] its versioned
      values; start_transaction, rollback_transaction, commit_transaction,
      enter_runtime, exit_runtime, set, modify, clear_where and changes_after are
      the methods.
    - Overlay: overlayed_changes/mod.rs and offchain.rs, with backend.rs and
      stats.rs where they are called.  [OverlayedChanges] holds the top, child and
      offchain change sets; the trie that computes roots is a parameter.
    - Allocator: client/allocator/src/freeing_bump.rs.  [FreeingBumpHeapAllocator]
      over any [Memory]; the class [MemoryLaws] states what the code expects of
      the memory of the wasm instance, and a sparse memory is an instance.
    - ForkTree: utils/fork-tree/src/lib.rs.  The ancestry of blocks is the function
      the callers pass in; the class [Blocks] states that it is the ancestry of
      numbered blocks, and paths of a tree are an instance.
    - System: frame/system/src/lib.rs, account records with their provider,
      consumer and sufficient counters, and the StoredMap other pallets use.
    - Balances: frame/balances/src/lib.rs, types.rs, impl_fungible.rs and
      impl_currency.rs with the provided methods of the token traits
      (frame/support/src/traits/tokens).  Calls and trait methods are definitions in
      the state monad over [Runtime], the storage of the two pallets and the events.
    - Supply, Conservation: the lemmas on the accounts and on each operation.
      Ledger: sequences of operations from genesis on.  Holds, Locks: these two
      parts of the pallet.
    - Arith128, BigUint, Normalize, Rational, PerThings: the files helpers_128bit.rs,
      biguint.rs, lib.rs, rational.rs and per_things.rs of primitives/arithmetic/src.
      LongDivision: the proofs on BigUint::div.
    - NonCanonical: client/state-db/src/noncanonical.rs.  [NonCanonicalOverlay] is the
      struct of that name, with insert, canonicalize, revert_one, remove, pin, unpin,
      sync and new.  MetaKeys: the bytes of the keys of its journal.  Discard,
      NonCanonicalInv, NonCanonicalOps, Canonicalize: the invariant [overlay_ok] and
      what each operation does to it.  Journal: [apply_state_commit] of
      client/db/src/lib.rs, the columns it writes, and reading them back.
      OverlaySteps: the operations and restarts as a step relation.
    - Pruning: client/state-db/src/pruning.rs.  [RefWindow] over a queue [Mem] in memory
      or [DbBacked] on the database.  Window and Backed: the two queues against the
      list of the records of the blocks in the window.
    - StateDb: client/state-db/src/lib.rs.  [StateDbSync] puts the overlay, the window
      and the pins together; [open_statedb] and [reset] are open and reset of StateDb.
      StateDbSteps: its operations as a step relation over the database, with the
      history of the canonical blocks.  StateDbOps: single operations, the archive
      modes, opening.  OverlayExamples, StateDbExamples: concrete runs.
    - BagsList: frame/bags-list/src/list/mod.rs and lib.rs.  [Node] and
      [Bag] are the structs of these names, linked by ids through the maps of
      [Storage].  BagsSeg and
      BagsRepr: linked segments and what it is for the storage to represent a list of
      ids for each bag.  BagsSpec: the operations on plain lists.  BagsOps, BagsMoves,
      BagsRun: each operation, and sequences of the calls and the methods of the list
      provider ([BagsRun.Op]), against the plain lists.
      BagsThresholds: the bag of a score.  BagsIter, BagsCheck, BagsMigrate, BagsEquiv,
      BagsProps: iteration, the state check, migration to other thresholds, and the
      routines that agree with simpler ones.  BagsDropped: a list whose last bag was
      deleted.  BagsClaims, BagsExamples: the properties and concrete runs.

    * How code becomes definitions

    A function that can fail returns [res]: [Ok], [Err] or [Panic]; a method that
    changes its object is in [M], and what it wrote before an error stays written.
    [expect], [unwrap], an index out of range, a division by zero and a failed assert
    are panics, so a theorem that a call returns [Ok] or [Err] also says that it
    cannot panic.  In the arithmetic files, where nothing but a panic can go wrong,
    [None] is the panic.  Integers are of type [Z] in the range of their type;
    [wadd], [wsub] and [wmul] wrap around as in a release build, in which
    debug_assert does nothing.

    Loops that are not over a list take fuel, and a lemma for each shows that the
    fuel the caller passes is enough: the number of nodes for the searches of the
    fork tree (twice, each node is visited on the way down and up), the number of
    open transactions for exit_runtime, 257 rounds for the division of a 256-bit
    number (each round halves it), 64 rounds for the square root of a 128-bit
    number, 2 tests of an estimated quotient limb (each raises its remainder by half
    the base), a turn over the elements for every unit normalize takes, and the bits
    of the exponent for a power.  In the state database it is the number of levels for
    discarding descendants, the number of retained blocks for the walk of unpin, the
    size of the window for the loop of prune; reading a journal takes at least as much
    as there are levels and records.  A walk over a bag takes one more than there are
    nodes.  gcd is defined by well-founded recursion.

    * What the theorems show

    - The overlay: the versioned change sets implement a stack of snapshots
      ([overlay_implements_snapshots], [changes_implement_views]) with rollback,
      commit and protected runtime transactions; no expect fires in writes, clears,
      root computations and transaction operations; the cached storage root is the root of what the overlay shows
      ([storage_root_coherent]), apart from the case [exit_runtime_stale_root].
    - The allocator: the blocks handed out and the free ones are disjoint and tile
      the heap whatever the guest writes into its blocks or outside the heap
      ([heap_safe]), as long as the memory cannot grow to the full 4 GiB; allocation and
      deallocation on every branch, with the exact conditions of each error
      ([allocate_correct]); every error poisons the allocator.
    - The fork tree: import, prune, finalize and its variants, drain_filter and the
      searches keep the tree well-formed, keep exactly the nodes they should and
      report exactly the others.
    - The accounts: the counters refine numbers of references within the range of u32
      ([reference_counting]); [inc_sufficients_forgets] is what happens beyond it.
    - The balances: no sequence of the operations of [Ledger.Op] without a transfer of
      an account to itself changes the difference between the total issuance and what
      the accounts hold ([supply_conserved]; holds, locks and named reserves are not
      among these operations); what a transfer,
      a hold with its release, a lock and genesis do; and the cases in which funds go
      missing or limits are not enforced, as theorems of their own.
    - The state database: in every configuration that can be reached the column of the
      trie nodes holds exactly the nodes of the states in the pruning window
      ([database_exact]), every node of a state above can be read ([states_readable]);
      canonicalizing a block keeps exactly what descends from it, prunes down to the
      limit or a pinned block and keeps what pinned blocks need
      ([canonicalize_correct], [canonicalize_block_correct], [pinned_state_kept],
      [canonicalize_keeps_pinned]); a restart reads the same back where the pruning
      journal can be found ([reset_correct]).  [insert_block_correct] leaves out the two
      situations in which insert does not check the position of a block ([unchecked]),
      and [overlay_progress] says exactly when it panics.  They assume that keys are hashes of their values, that a block deletes only
      nodes of its parent's state and none it inserts, and that counters of pins and
      values do not overflow 32 bits.  The theorems on the exact content are for the
      queue in memory; for the one on the database, whose store counts references,
      [backed_window_correct] shows which records are handed out.  A node that starts
      with a later block loses its window at a restart before the first pruning
      ([restart_forgets_window], [late_start_never_prunes]); unpinning a discarded child
      drops values of its canonical parent ([unpin_child_drops_canonical]); other flaws
      are theorems of their own.
    - The bags list: whatever the calls, the outcomes are those of plain lists and
      nothing panics ([bags_list_refines]), the state check passes
      ([bags_list_try_state]), iteration ends and is ordered by bags
      ([bags_list_iter]); remove_many and the two ways of writing the thresholds agree
      with the simpler ones; a migration moves exactly the ids it has to
      ([migrate_correct]), unless the old thresholds list the greatest score and the new
      ones do not ([migrate_loses_last_bag]).  Fewer than 2^32 ids are assumed.
    - The arithmetic: multiplication by a rational, square root, gcd, arithmetic and
      long division on big integers, sums and order of rationals, products, quotients
      and powers of per-things, and normalize compute the mathematical result, end,
      and fail exactly when the result does not fit.

    * What is not modelled

    Networking, the key-value stores and RPC are input and output; of the client
    database only the writing of state commits is modelled, and decoded values stand
    for the SCALE encodings in its metadata column.  Consensus engines, the
    transaction pool, the executors and the trie are not modelled yet; they rest on
    third-party crates (libp2p, wasmtime, trie-db, parity-scale-codec) that are not in
    the repository.  Macros that generate code (frame/support/procedural) work on
    syntax.  Of the system pallet only accounts are modelled; of sp-arithmetic the
    fixed-point types and the traits are left out, of the per-things the conversion
    from floating point.  Weights, metadata and the SCALE codec derives are left out
    everywhere. *)

From stdpp Require Import base numbers list option gmap sets fin_maps.

Declare Scope rust_scope.
Delimit Scope rust_scope with rust.

(** * Outcomes

    A Rust function returns a value, returns [Err], or unwinds: [expect],
    [unwrap], slice indexing and [assert!] are modelled by [Panic], so that a
    theorem that a call returns [Ok] or [Err] also says that it cannot panic. *)

Inductive res (E A : Type) : Type :=
| Ok (a : A)
| Err (e : E)
| Panic.
Arguments Ok {E A} a.
Arguments Err {E A} e.
Arguments Panic {E A}.

Definition res_bind {E A B} (c : res E A) (k : A -> res E B) : res E B :=
  match c with
  | Ok a => k a
  | Err e => Err e
  | Panic => Panic
  end.

Definition is_ok {E A} (r : res E A) : bool :=
  match r with Ok _ => true | _ => false end.

Definition is_err {E A} (r : res E A) : bool :=
  match r with Err _ => true | _ => false end.

(** [Option::expect] *)
Definition expect {E A} (o : option A) : res E A :=
  match o with Some a => Ok a | None => Panic end.

(** [Option::ok_or] *)
Definition ok_or {E A} (o : option A) (e : E) : res E A :=
  match o with Some a => Ok a | None => Err e end.

(** * Stateful computations

    [M S E A]: a method taking [&mut self] with [self : S] and returning
    [Result<A, E>].  The state survives an error: what a method wrote before
    [?] returned early stays written. *)

Definition M (S E A : Type) : Type := S -> S * res E A.

Definition retM {S E A} (a : A) : M S E A := fun s => (s, Ok a).
Definition errM {S E A} (e : E) : M S E A := fun s => (s, Err e).
Definition panicM {S E A} : M S E A := fun s => (s, Panic).

Definition bindM {S E A B} (c : M S E A) (k : A -> M S E B) : M S E B :=
  fun s =>
    match c s with
    | (s', Ok a) => k a s'
    | (s', Err e) => (s', Err e)
    | (s', Panic) => (s', Panic)
    end.

Definition liftM {S E A} (r : res E A) : M S E A := fun s => (s, r).
Definition getM {S E} : M S E S := fun s => (s, Ok s).
Definition putM {S E} (s' : S) : M S E unit := fun _ => (s', Ok tt).
Definition modifyM {S E} (f : S -> S) : M S E unit := fun s => (f s, Ok tt).

Lemma bindM_ok {S E A B} (c : M S E A) (k : A -> M S E B) s s' a r :
  c s = (s', Ok a) -> k a s' = r -> bindM c k s = r.
Proof. intros Hc Hk. unfold bindM. by rewrite Hc. Qed.

Lemma bindM_err {S E A B} (c : M S E A) (k : A -> M S E B) s s' e :
  c s = (s', Err e) -> bindM c k s = (s', Err e).
Proof. intros Hc. unfold bindM. by rewrite Hc. Qed.

Notation "'let*' x ':=' c 'in' k" := (bindM c (fun x => k))
  (at level 10, x pattern, c at level 200, k at level 200) : rust_scope.
Notation "c ;;; k" := (bindM c (fun _ => k))
  (at level 100, k at level 200, right associativity) : rust_scope.
Notation "'let?' x ':=' c 'in' k" := (res_bind c (fun x => k))
  (at level 10, x pattern, c at level 200, k at level 200) : rust_scope.

(** [for x in l { body }], the body stopping the loop on error or panic. *)
Fixpoint for_each {S E A} (l : list A) (body : A -> M S E unit) : M S E unit :=
  match l with
  | [] => retM tt
  | x :: l' => fun s =>
      match body x s with
      | (s', Ok _) => for_each l' body s'
      | (s', Err e) => (s', Err e)
      | (s', Panic) => (s', Panic)
      end
  end.

(** * Machine integers

    A [uN] value is a [Z] in [0, 2^N).  The release profile of the workspace
    keeps Rust's default of wrapping on overflow, so a plain [+], [-] or [*] of
    the source is the wrapped operation. *)

Definition umax (w : Z) : Z := (2 ^ w - 1)%Z.
Definition wrap (w z : Z) : Z := (z mod 2 ^ w)%Z.
Definition in_range (w z : Z) : Prop := (0 <= z < 2 ^ w)%Z.
Definition wadd (w a b : Z) : Z := wrap w (a + b).
Definition wsub (w a b : Z) : Z := wrap w (a - b).
Definition wmul (w a b : Z) : Z := wrap w (a * b).

Definition checked_add (w a b : Z) : option Z :=
  if (a + b <? 2 ^ w)%Z then Some (a + b)%Z else None.
Definition checked_sub (a b : Z) : option Z :=
  if (b <=? a)%Z then Some (a - b)%Z else None.
Definition saturating_add (w a b : Z) : Z := Z.min (umax w) (a + b).
Definition saturating_sub (a b : Z) : Z := Z.max 0 (a - b).

Lemma wrap_small w z : in_range w z -> wrap w z = z.
Proof. intros ?. by apply Z.mod_small. Qed.

Lemma wadd_small w a b : in_range w (a + b)%Z -> wadd w a b = (a + b)%Z.
Proof. apply wrap_small. Qed.

Lemma wsub_small w a b : in_range w (a - b)%Z -> wsub w a b = (a - b)%Z.
Proof. apply wrap_small. Qed.

Lemma wadd_in_range w a b : (0 <= w)%Z -> in_range w (wadd w a b).
Proof. intros. apply Z.mod_pos_bound. by apply Z.pow_pos_nonneg. Qed.

Lemma wrap_wadd_l w a b c : wrap w (wadd w a b + c) = wrap w (a + b + c)%Z.
Proof. unfold wadd, wrap. apply Zplus_mod_idemp_l. Qed.

Lemma wsub_wadd w a b c : wsub w (wadd w a b) c = wrap w (a + b - c)%Z.
Proof. unfold wsub, wadd, wrap. apply Zminus_mod_idemp_l. Qed.

Lemma checked_sub_Some a b c :
  checked_sub a b = Some c <-> (b <= a /\ c = a - b)%Z.
Proof.
  unfold checked_sub. destruct (Z.leb_spec b a); split; intros; simplify_eq; naive_solver lia.
Qed.

Lemma checked_add_Some w a b c :
  checked_add w a b = Some c <-> (a + b < 2 ^ w /\ c = a + b)%Z.
Proof.
  unfold checked_add. destruct (Z.ltb_spec (a + b) (2 ^ w)); split; intros; simplify_eq;
    naive_solver lia.
Qed.

(** * Vectors: [Vec], [SmallVec] in their own order, the last element on top. *)

Definition vec_pop {A} (l : list A) : option (A * list A) :=
  match rev l with
  | [] => None
  | x :: l' => Some (x, rev l')
  end.

(** [*v.last_mut() = f(..)]; [None] when the vector is empty. *)
Definition vec_update_last {A} (f : A -> A) (l : list A) : option (list A) :=
  match vec_pop l with
  | None => None
  | Some (x, l') => Some (l' ++ [f x])
  end.

Lemma vec_pop_nil {A} : vec_pop (@nil A) = None.
Proof. done. Qed.

Lemma vec_pop_snoc {A} (l : list A) x : vec_pop (l ++ [x]) = Some (x, l).
Proof. unfold vec_pop. rewrite rev_app_distr. simpl. by rewrite rev_involutive. Qed.

Lemma vec_update_last_snoc {A} (f : A -> A) l x :
  vec_update_last f (l ++ [x]) = Some (l ++ [f x]).
Proof. unfold vec_update_last. by rewrite vec_pop_snoc. Qed.

Lemma snoc_cases {A} (l : list A) : l = [] \/ exists l' x, l = l' ++ [x].
Proof. destruct l using rev_ind; eauto. Qed.

Lemma vec_pop_Some {A} (l : list A) x l' : vec_pop l = Some (x, l') <-> l = l' ++ [x].
Proof.
  destruct (snoc_cases l) as [->|(l0 & y & ->)].
  - split; [done|]. intros H. by destruct l'.
  - rewrite vec_pop_snoc. split; intros H; simplify_list_eq; done.
Qed.

Lemma vec_pop_None {A} (l : list A) : vec_pop l = None <-> l = [].
Proof.
  destruct (snoc_cases l) as [->|(l0 & y & ->)]; [done|].
  rewrite vec_pop_snoc. split; [done|]. by destruct l0.
Qed.

Lemma omap_cons {A B} (f : A -> option B) x l :
  omap f (x :: l) = match f x with Some y => y :: omap f l | None => omap f l end.
Proof. done. Qed.

Lemma omap_cons_app {A B} (f : A -> option B) x l : omap f (x :: l) = option_list (f x) ++ omap f l.
Proof. rewrite omap_cons. by destruct (f x). Qed.

(** Regrouping four lists. *)
Lemma app_interleave {A} (l1 l2 l3 l4 : list A) :
  (l1 ++ l2) ++ (l3 ++ l4) ≡ₚ (l1 ++ l3) ++ (l2 ++ l4).
Proof.
  rewrite <- !(assoc_L (++)). f_equiv. rewrite !(assoc_L (++)). f_equiv. apply (comm (++)).
Qed.

Lemma drop_nil_inv {A} (l : list A) i : drop i l = [] -> l !! i = None.
Proof.
  intros Hd. apply lookup_ge_None. apply (f_equal length) in Hd. rewrite length_drop in Hd.
  simpl in Hd. lia.
Qed.

Lemma drop_cons_inv {A} (l : list A) i x l' :
  drop i l = x :: l' -> l !! i = Some x /\ drop (S i) l = l'.
Proof.
  intros Hd. split; [by rewrite <- (Nat.add_0_r i), <- lookup_drop, Hd|].
  by rewrite <- Nat.add_1_r, <- drop_drop, Hd.
Qed.

(** A list around one of its elements. *)
Lemma lookup_split {A} (l : list A) i x :
  l !! i = Some x ->
  exists l1 l2, l = l1 ++ x :: l2 /\ (forall y, <[i := y]> l = l1 ++ y :: l2) /\ delete i l = l1 ++ l2.
Proof.
  intros Hi. exists (take i l), (drop (S i) l). rewrite take_drop_middle by done.
  pose proof (lookup_lt_Some _ _ _ Hi). split_and!; [done| |apply delete_take_drop].
  intros y. rewrite <- (take_drop_middle l i x) at 1 by done.
  rewrite insert_app_r_alt; rewrite length_take_le by lia; [|lia]. by rewrite Nat.sub_diag.
Qed.

Lemma filter_all {A} (P : A -> Prop) `{forall x, Decision (P x)} (l : list A) :
  (forall x, x ∈ l -> P x) -> filter P l = l.
Proof.
  induction l as [|x l IH]; [done|]. intros Hl. rewrite filter_cons_True by (apply Hl; by left).
  f_equal. apply IH. intros y Hy. apply Hl. by right.
Qed.

Lemma filter_none {A} (P : A -> Prop) `{forall x, Decision (P x)} (l : list A) :
  (forall x, x ∈ l -> ~ P x) -> filter P l = [].
Proof.
  induction l as [|x l IH]; [done|]. intros Hl. rewrite filter_cons_False by (apply Hl; by left).
  apply IH. intros y Hy. apply Hl. by right.
Qed.

Lemma filter_ext_elem {A} (P Q : A -> Prop) `{forall x, Decision (P x), forall x, Decision (Q x)}
    (l : list A) :
  (forall x, x ∈ l -> P x <-> Q x) -> filter P l = filter Q l.
Proof.
  induction l as [|x l IH]; [done|]. intros Hl. rewrite !filter_cons.
  rewrite (decide_ext (P x) (Q x)) by (apply Hl; by left).
  rewrite IH; [done|]. intros y Hy. apply Hl. by right.
Qed.

Lemma mapM_cons {A B} (f : A -> option B) x l :
  mapM f (x :: l) = (y ← f x; ys ← mapM f l; Some (y :: ys)).
Proof. done. Qed.

(** * Automation *)

Create HintDb rust.
Create Rewrite HintDb rust_rw.
#[export] Hint Rewrite @vec_pop_snoc @vec_update_last_snoc @last_snoc : rust_rw.

(** Splits a conjunction-heavy goal and closes the leaves. *)
Ltac split_all := repeat match goal with |- _ /\ _ => split end.

(** Destructs the scrutinee of the innermost [match] of the goal. *)
Ltac case_goal :=
  match goal with
  | |- context [match ?x with _ => _ end] =>
      lazymatch x with
      | context [match _ with _ => _ end] => fail
      | _ => destruct x eqn:?
      end
  end.

(** The same for a hypothesis. *)
Ltac case_in H :=
  match type of H with
  | context [match ?x with _ => _ end] =>
      lazymatch x with
      | context [match _ with _ => _ end] => fail
      | _ => destruct x eqn:?
      end
  end.
