(* ===== verification/Changeset.v ===== *)
(** The transactional overlay: nested storage transactions over a map of
    versioned values (primitives/state-machine/src/overlayed_changes/changeset.rs).

    [OverlayedMap] keeps, per key, one version per transaction that wrote it,
    and per open transaction the set of keys it wrote.  [SnapshotStack] below is
    the contract the doc comments promise: a stack of plain maps, pushed by
    [start_transaction], dropped by a rollback and merged by a commit.  The
    refinement theorems show that the versioned representation implements it,
    that no [expect] of the file can fire, and that a close is refused exactly
    when the documentation says so. *)

From stdpp Require Import base numbers list option gmap sets fin_maps sorting.
From S2P Require Import Prelude.

Local Open Scope rust_scope.

(** * Data *)

Inductive NoOpenTransaction := noOpenTransaction.
Inductive AlreadyInRuntime := alreadyInRuntime.
Inductive NotInRuntime := notInRuntime.

Inductive ExecutionMode := Client | Runtime.

#[export] Instance ExecutionMode_eq_dec : EqDecision ExecutionMode.
Proof. solve_decision. Defined.

(** [Extrinsics(Vec<u32>)] *)
Definition Extrinsics : Type := list Z.

Definition Extrinsics_copy_extrinsics_into (self : Extrinsics) (dest : gset Z) : gset Z :=
  dest ∪ list_to_set self.

Definition Extrinsics_insert (self : Extrinsics) (ext : Z) : Extrinsics :=
  if decide (Some ext = last self) then self else self ++ [ext].

Definition Extrinsics_extend (self other : Extrinsics) : Extrinsics := self ++ other.

Record InnerValue (V : Type) := mkInner { value : V; extrinsics : Extrinsics }.
Arguments mkInner {V} _ _.
Arguments value {V} _.
Arguments extrinsics {V} _.

Record OverlayedEntry (V : Type) := mkEntry { transactions : list (InnerValue V) }.
Arguments mkEntry {V} _.
Arguments transactions {V} _.

Record OverlayedMap (K V : Type) `{Countable K} := mkOverlay {
  changes : gmap K (OverlayedEntry V);
  dirty_keys : list (gset K);
  num_client_transactions : nat;
  execution_mode : ExecutionMode;
}.
Arguments mkOverlay {K V _ _} _ _ _ _.
Arguments changes {K V _ _} _.
Arguments dirty_keys {K V _ _} _.
Arguments num_client_transactions {K V _ _} _.
Arguments execution_mode {K V _ _} _.

(** * Entries: the versions of one value *)

Section entry.
Context {V : Type}.
Implicit Types (e : OverlayedEntry V) (v : V).

Definition OverlayedEntry_default : OverlayedEntry V := mkEntry [].

(** [value_ref]: [None] is the [expect] panic on an entry without versions. *)
Definition value_ref e : option V := value <$> last (transactions e).

Definition into_value e : option V :=
  '(t, _) ← vec_pop (transactions e); Some (value t).

Definition entry_extrinsics e : gset Z :=
  foldl (λ set t, Extrinsics_copy_extrinsics_into (extrinsics t) set) ∅ (transactions e).

(** A write through [value_mut]. *)
Definition value_mut (f : V -> V) e : option (OverlayedEntry V) :=
  mkEntry <$> vec_update_last (λ t, mkInner (f (value t)) (extrinsics t)) (transactions e).

Definition pop_transaction e : option (InnerValue V * OverlayedEntry V) :=
  '(t, ts) ← vec_pop (transactions e); Some (t, mkEntry ts).

(** A write through [transaction_extrinsics_mut]. *)
Definition transaction_extrinsics_mut (f : Extrinsics -> Extrinsics) e
    : option (OverlayedEntry V) :=
  mkEntry <$> vec_update_last (λ t, mkInner (value t) (f (extrinsics t))) (transactions e).

Definition entry_set e v (first_write_in_tx : bool) (at_extrinsic : option Z)
    : option (OverlayedEntry V) :=
  e' ← (if first_write_in_tx || bool_decide (transactions e = [])
        then Some (mkEntry (transactions e ++ [mkInner v []]))
        else value_mut (λ _, v) e);
  match at_extrinsic with
  | Some ext => transaction_extrinsics_mut (λ x, Extrinsics_insert x ext) e'
  | None => Some e'
  end.

End entry.

(** * The overlay *)

(** [map.into_iter().map(|(k, v)| (k, f(v)))] collected, where [f] may panic. *)
Definition map_values {E K A B : Type} `{Countable K} (f : A -> option B) (m : gmap K A)
    : res E (gmap K B) :=
  if decide (map_Forall (λ _ a, is_Some (f a)) m) then Ok (omap f m) else Panic.

Section overlay.
Context {K V : Type} `{Countable K}.
Implicit Types (m : OverlayedMap K V) (k : K) (v : V).

(** [insert_dirty]: the new dirty sets, and whether this is the first write of
    the key in the innermost open transaction. *)
Definition insert_dirty (ds : list (gset K)) k : list (gset K) * bool :=
  match vec_pop ds with
  | Some (d, ds') => (ds' ++ [{[k]} ∪ d], negb (bool_decide (k ∈ d)))
  | None => (ds, false)
  end.

Definition with_changes m c : OverlayedMap K V :=
  mkOverlay c (dirty_keys m) (num_client_transactions m) (execution_mode m).
Definition with_dirty m ds : OverlayedMap K V :=
  mkOverlay (changes m) ds (num_client_transactions m) (execution_mode m).

Definition OverlayedMap_default : OverlayedMap K V := mkOverlay ∅ [] 0 Client.

Definition transaction_depth m : nat := length (dirty_keys m).

Definition has_open_runtime_transactions m : bool :=
  bool_decide (num_client_transactions m < transaction_depth m).

Definition spawn_child m : OverlayedMap K V :=
  mkOverlay ∅ (replicate (transaction_depth m) ∅) (num_client_transactions m)
    (execution_mode m).

Definition is_empty m : bool := bool_decide (changes m = ∅).

Definition get m k : option (OverlayedEntry V) := changes m !! k.

Definition set {E} k v (at_extrinsic : option Z) : M (OverlayedMap K V) E unit := λ m,
  let overlayed := default OverlayedEntry_default (changes m !! k) in
  let '(ds, first) := insert_dirty (dirty_keys m) k in
  match entry_set overlayed v first at_extrinsic with
  | Some e => (with_dirty (with_changes m (<[k := e]> (changes m))) ds, Ok tt)
  | None => (m, Panic)
  end.

(** [drain_commited]: the committed values; [assert!] on open transactions. *)
Definition drain_commited {E} m : res E (gmap K V) :=
  if decide (transaction_depth m = 0) then
    map_values (λ e, '(t, _) ← pop_transaction e; Some (value t)) (changes m)
  else Panic.

Definition start_transaction m : OverlayedMap K V := with_dirty m (dirty_keys m ++ [∅]).

(** The body of the loop of [close_transaction] for one dirty key; [None] is
    a failed [expect]. *)
Definition close_key (rollback : bool) k m : option (OverlayedMap K V) :=
  overlayed ← changes m !! k;
  if rollback then
    '(_, e) ← pop_transaction overlayed;
    Some (with_changes m
            (if bool_decide (transactions e = []) then delete k (changes m)
             else <[k := e]> (changes m)))
  else
    let '(ds, has_predecessor) :=
      match vec_pop (dirty_keys m) with
      | Some (d, ds) => (ds ++ [{[k]} ∪ d], bool_decide (k ∈ d))
      | None => (dirty_keys m, bool_decide (1 < length (transactions overlayed)))
      end in
    let m := with_dirty m ds in
    if has_predecessor then
      '(dropped_tx, e) ← pop_transaction overlayed;
      e ← value_mut (λ _, value dropped_tx) e;
      e ← transaction_extrinsics_mut (λ x, Extrinsics_extend x (extrinsics dropped_tx)) e;
      Some (with_changes m (<[k := e]> (changes m)))
    else Some m.

Definition close_keys {E} (rollback : bool) (ks : list K) : M (OverlayedMap K V) E unit :=
  for_each ks (λ k m,
    match close_key rollback k m with
    | Some m' => (m', Ok tt)
    | None => (m, Panic)
    end).

Definition close_transaction (rollback : bool) : M (OverlayedMap K V) NoOpenTransaction unit :=
  λ m,
    if bool_decide (execution_mode m = Runtime) && negb (has_open_runtime_transactions m)
    then (m, Err noOpenTransaction)
    else
      match vec_pop (dirty_keys m) with
      | None => (m, Err noOpenTransaction)
      | Some (d, ds) => close_keys rollback (elements d) (with_dirty m ds)
      end.

Definition rollback_transaction : M (OverlayedMap K V) NoOpenTransaction unit :=
  close_transaction true.
Definition commit_transaction : M (OverlayedMap K V) NoOpenTransaction unit :=
  close_transaction false.

Definition enter_runtime : M (OverlayedMap K V) AlreadyInRuntime unit := λ m,
  match execution_mode m with
  | Runtime => (m, Err alreadyInRuntime)
  | Client =>
      (mkOverlay (changes m) (dirty_keys m) (transaction_depth m) Runtime, Ok tt)
  end.

(** The [while] loop of [exit_runtime]; it needs no more turns than there are
    open transactions, and running out of [fuel] counts as a panic. *)
Fixpoint rollback_open {E} (fuel : nat) : M (OverlayedMap K V) E unit := λ m,
  if has_open_runtime_transactions m then
    match fuel with
    | 0 => (m, Panic)
    | S fuel =>
        match rollback_transaction m with
        | (m', Ok _) => rollback_open fuel m'
        | (m', _) => (m', Panic)
        end
    end
  else (m, Ok tt).

Definition exit_runtime : M (OverlayedMap K V) NotInRuntime unit := λ m,
  match execution_mode m with
  | Client => (m, Err notInRuntime)
  | Runtime =>
      rollback_open (transaction_depth m)
        (mkOverlay (changes m) (dirty_keys m) (num_client_transactions m) Client)
  end.

End overlay.

(** * Change sets: overlays with removal support *)

Abbreviation StorageKey := (list Z).
Abbreviation StorageValue := (list Z).
Abbreviation OverlayedValue := (OverlayedEntry (option StorageValue)).
Abbreviation OverlayedChangeSet := (OverlayedMap StorageKey (option StorageValue)).

(** [OverlayedEntry::value]: the value as seen by the current transaction. *)
Definition entry_value (e : OverlayedValue) : option (option StorageValue) := value_ref e.

Definition OverlayedChangeSet_from (storage : gmap StorageKey StorageValue) : OverlayedChangeSet :=
  mkOverlay ((λ v, mkEntry [mkInner (Some v) []]) <$> storage) [] 0 Client.

(** [modify]: returns a mutable reference; [f] is what the caller does through it. *)
Definition modify {E} (key : StorageKey) (init : unit -> StorageValue)
    (at_extrinsic : option Z) (f : option StorageValue -> option StorageValue)
    : M OverlayedChangeSet E unit := λ m,
  let overlayed := default OverlayedEntry_default (changes m !! key) in
  let '(ds, first_write_in_tx) := insert_dirty (dirty_keys m) key in
  let clone_into_new_tx :=
    match last (transactions overlayed) with
    | Some tx => if first_write_in_tx : bool then Some (value tx) else None
    | None => Some (Some (init ()))
    end in
  match
    (e ← match clone_into_new_tx with
         | Some cloned => entry_set overlayed cloned first_write_in_tx at_extrinsic
         | None => Some overlayed
         end;
     value_mut f e)
  with
  | Some e => (with_dirty (with_changes m (<[key := e]> (changes m))) ds, Ok tt)
  | None => (m, Panic)
  end.

(** The body of the loop of [clear_where]; the counter is a [u32]. *)
Definition clear_one {E} (at_extrinsic : option Z) (kv : StorageKey * OverlayedValue)
    : M (OverlayedChangeSet * Z) E unit := λ '(m, count),
  match value_ref kv.2 with
  | None => ((m, count), Panic)
  | Some v =>
      let count := if v is Some _ then wadd 32 count 1 else count in
      match set kv.1 None at_extrinsic m with
      | (m', Ok _) => ((m', count), Ok tt)
      | (m', Err e) => ((m', count), Err e)
      | (m', Panic) => ((m', count), Panic)
      end
  end.

Definition clear_where {E} (predicate : StorageKey -> OverlayedValue -> bool)
    (at_extrinsic : option Z) : M OverlayedChangeSet E Z := λ m,
  match
    for_each (List.filter (λ kv, predicate kv.1 kv.2) (map_to_list (changes m)))
      (clear_one at_extrinsic) (m, 0%Z)
  with
  | ((m', count), Ok _) => (m', Ok count)
  | ((m', _), Err e) => (m', Err e)
  | ((m', _), Panic) => (m', Panic)
  end.

(** Lexicographic order on byte strings, the [Ord] of [Vec<u8>]. *)
Fixpoint key_ltb (a b : StorageKey) : bool :=
  match a, b with
  | [], [] => false
  | [], _ :: _ => true
  | _ :: _, [] => false
  | x :: a', y :: b' =>
      (x <? y)%Z || ((x =? y)%Z && key_ltb a' b')
  end.

Definition key_le (a b : StorageKey) : Prop := key_ltb b a = false.

#[export] Instance key_le_dec : RelDecision key_le.
Proof. intros a b. unfold key_le. apply _. Defined.

(** [changes_after]: the entries after [key] in key order. *)
Definition changes_after (m : OverlayedChangeSet) (key : StorageKey)
    : list (StorageKey * OverlayedValue) :=
  omap (λ k, (k,.) <$> changes m !! k)
    (merge_sort key_le (List.filter (key_ltb key) (elements (dom (changes m))))).

(** * The contract: a stack of snapshots

    The bottom map holds the changes committed with no transaction open, the
    last one what the innermost open transaction sees. *)

Section snapshot_stack.
Context {A : Type}.
Implicit Types (ss : list A).

(** Changes the topmost snapshot. *)
Definition snap_update (f : A -> A) ss : list A := default ss (vec_update_last f ss).

Definition snap_start ss : list A :=
  match last ss with Some s => ss ++ [s] | None => ss end.

Definition snap_rollback ss : list A :=
  match vec_pop ss with Some (_, ss') => ss' | None => ss end.

Definition snap_commit ss : list A :=
  match vec_pop ss with
  | Some (s, ss') =>
      match vec_pop ss' with Some (_, ss'') => ss'' ++ [s] | None => ss end
  | None => ss
  end.

(** Snapshots given by a function of the number of transactions left open. *)
Definition levels (d : nat) (f : nat -> A) : list A := f <$> seq 0 (S d).

End snapshot_stack.

Definition snap_set {K V : Type} `{Countable K} (k : K) (v : V)
    : list (gmap K V) -> list (gmap K V) := snap_update (<[k := v]>).

Definition snap_top {K V : Type} `{Countable K} (ss : list (gmap K V)) : gmap K V :=
  default ∅ (last ss).

(** ** Transaction operations

    The contract of the operations that open, close and protect transactions,
    on a stack of snapshots of any kind.  Beyond the stack it keeps only the
    number of transactions the client protects and the mode. *)

Inductive op_error := ENoOpenTransaction | EAlreadyInRuntime | ENotInRuntime.

Inductive tx_op := TxStart | TxCommit | TxRollback | TxEnterRuntime | TxExitRuntime.

#[export] Instance tx_op_eq_dec : EqDecision tx_op.
Proof. solve_decision. Defined.

Record tx_state := mkTx {
  tx_depth : nat;
  tx_client : nat;
  tx_mode : ExecutionMode;
}.

Record snap_state (A : Type) := mkSnap {
  stack : list A;
  client_depth : nat;
  snap_mode : ExecutionMode;
}.
Arguments mkSnap {A} _ _ _.
Arguments stack {A} _.
Arguments client_depth {A} _.
Arguments snap_mode {A} _.

Definition tx_may_close (t : tx_state) : bool :=
  bool_decide (0 < tx_depth t) &&
  match tx_mode t with
  | Client => true
  | Runtime => bool_decide (tx_client t < tx_depth t)
  end.

Definition spec_depth {A} (s : snap_state A) : nat := pred (length (stack s)).

Definition spec_tx_of {A} (s : snap_state A) : tx_state :=
  mkTx (spec_depth s) (client_depth s) (snap_mode s).

Definition spec_tx {A} (op : tx_op) : M (snap_state A) op_error unit := λ s,
  match op with
  | TxStart => (mkSnap (snap_start (stack s)) (client_depth s) (snap_mode s), Ok tt)
  | TxCommit =>
      if tx_may_close (spec_tx_of s)
      then (mkSnap (snap_commit (stack s)) (client_depth s) (snap_mode s), Ok tt)
      else (s, Err ENoOpenTransaction)
  | TxRollback =>
      if tx_may_close (spec_tx_of s)
      then (mkSnap (snap_rollback (stack s)) (client_depth s) (snap_mode s), Ok tt)
      else (s, Err ENoOpenTransaction)
  | TxEnterRuntime =>
      match snap_mode s with
      | Client => (mkSnap (stack s) (spec_depth s) Runtime, Ok tt)
      | Runtime => (s, Err EAlreadyInRuntime)
      end
  | TxExitRuntime =>
      match snap_mode s with
      | Client => (s, Err ENotInRuntime)
      | Runtime => (mkSnap (take (S (client_depth s)) (stack s)) (client_depth s) Client, Ok tt)
      end
  end.

(** A write to the topmost snapshot. *)
Definition spec_write {A} (u : A -> A) : M (snap_state A) op_error unit := λ s,
  (mkSnap (snap_update u (stack s)) (client_depth s) (snap_mode s), Ok tt).

(** The same contract level by level: the transaction state after the operation
    and its result, and the level that level [j] of the result comes from. *)
Definition tx_next (op : tx_op) (t : tx_state) : tx_state * res op_error unit :=
  match op with
  | TxStart => (mkTx (S (tx_depth t)) (tx_client t) (tx_mode t), Ok tt)
  | TxCommit | TxRollback =>
      if tx_may_close t then (mkTx (pred (tx_depth t)) (tx_client t) (tx_mode t), Ok tt)
      else (t, Err ENoOpenTransaction)
  | TxEnterRuntime =>
      match tx_mode t with
      | Client => (mkTx (tx_depth t) (tx_depth t) Runtime, Ok tt)
      | Runtime => (t, Err EAlreadyInRuntime)
      end
  | TxExitRuntime =>
      match tx_mode t with
      | Client => (t, Err ENotInRuntime)
      | Runtime => (mkTx (min (tx_client t) (tx_depth t)) (tx_client t) Client, Ok tt)
      end
  end.

Definition tx_level (op : tx_op) (t : tx_state) (j : nat) : nat :=
  match op with
  | TxStart => min j (tx_depth t)
  | TxCommit =>
      if tx_may_close t && bool_decide (j = pred (tx_depth t)) then tx_depth t else j
  | _ => j
  end.

Definition map_err {S E E' A} (f : E -> E') (c : M S E A) : M S E' A := λ s,
  match c s with
  | (s', Ok a) => (s', Ok a)
  | (s', Err e) => (s', Err (f e))
  | (s', Panic) => (s', Panic)
  end.

(** Runs a sequence of operations, each error reported and survived. *)
Fixpoint run_ops {S E} (ops : list (M S E unit)) (s : S) : S * list (res E unit) :=
  match ops with
  | [] => (s, [])
  | op :: ops =>
      let '(s', r) := op s in
      let '(s'', rs) := run_ops ops s' in (s'', r :: rs)
  end.

(** ** Snapshots by level *)

Section levels.
Context {A : Type}.
Implicit Types (f g : nat -> A) (d j : nat).

Lemma levels_snoc d f : levels d f = (f <$> seq 0 d) ++ [f d].
Proof. unfold levels. by rewrite seq_S, fmap_app. Qed.

Lemma levels_ext d f g : levels d f = levels d g ↔ ∀ j, j ≤ d → f j = g j.
Proof.
  unfold levels. split.
  - intros Heq j Hj. assert (Hl := f_equal (lookup j) Heq).
    rewrite !list_lookup_fmap, !lookup_seq_lt in Hl by lia. by injection Hl.
  - intros Hj. apply list_fmap_ext. intros i j Hl. apply lookup_seq in Hl as [-> Hl].
    apply Hj. lia.
Qed.

Lemma length_levels d f : length (levels d f) = S d.
Proof. unfold levels. by rewrite length_fmap, length_seq. Qed.

Lemma last_levels d f : last (levels d f) = Some (f d).
Proof. by rewrite levels_snoc, last_snoc. Qed.

Lemma levels_update d f (u : A → A) :
  snap_update u (levels d f) = levels d (λ j, if decide (j = d) then u (f j) else f j).
Proof.
  unfold snap_update. rewrite !levels_snoc, vec_update_last_snoc, decide_True by done; simpl.
  f_equal. apply list_fmap_ext. intros i j Hl. apply lookup_seq in Hl as [-> Hl].
  by rewrite decide_False by lia.
Qed.

Lemma levels_start d f : snap_start (levels d f) = levels (S d) (λ j, f (min j d)).
Proof.
  unfold snap_start. rewrite last_levels, (levels_snoc (S d)), Nat.min_r by lia. f_equal.
  apply list_fmap_ext. intros i j Hl. apply lookup_seq in Hl as [-> Hl]. f_equal. lia.
Qed.

Lemma levels_rollback d f : snap_rollback (levels (S d) f) = levels d f.
Proof. unfold snap_rollback. by rewrite levels_snoc, vec_pop_snoc. Qed.

Lemma levels_commit d f :
  snap_commit (levels (S d) f) = levels d (λ j, if decide (j = d) then f (S d) else f j).
Proof.
  unfold snap_commit. rewrite !levels_snoc, vec_pop_snoc, seq_S, fmap_app; simpl.
  rewrite vec_pop_snoc, decide_True by done. f_equal.
  apply list_fmap_ext. intros i j Hl. apply lookup_seq in Hl as [-> Hl].
  by rewrite decide_False by lia.
Qed.

Lemma levels_take n d f : take (S n) (levels d f) = levels (min n d) f.
Proof. unfold levels. rewrite <- fmap_take, take_seq. f_equal. Qed.

Lemma tx_may_close_depth t : tx_may_close t = true → ∃ d, tx_depth t = S d.
Proof.
  unfold tx_may_close. intros [Hd%bool_decide_eq_true _]%andb_true_iff.
  destruct (tx_depth t); [lia|eauto].
Qed.

Lemma spec_tx_levels op t f :
  spec_tx op (mkSnap (levels (tx_depth t) f) (tx_client t) (tx_mode t)) =
  (mkSnap (levels (tx_depth (fst (tx_next op t))) (λ j, f (tx_level op t j)))
     (tx_client (fst (tx_next op t))) (tx_mode (fst (tx_next op t))), snd (tx_next op t)).
Proof.
  destruct t as [d c md].
  assert (Hd : spec_tx_of (mkSnap (levels d f) c md) = mkTx d c md)
    by (unfold spec_tx_of, spec_depth; cbn [stack]; by rewrite length_levels).
  unfold spec_tx; cbn [tx_depth tx_client tx_mode stack client_depth snap_mode].
  rewrite Hd. injection Hd as ->. destruct op; cbn [tx_next tx_level fst snd tx_depth tx_client tx_mode].
  - by rewrite levels_start.
  - destruct (tx_may_close (mkTx d c md)) eqn:Hm; simpl; [|done].
    apply tx_may_close_depth in Hm as [d' Hd]; simpl in Hd; subst.
    rewrite levels_commit; simpl. do 2 f_equal. apply levels_ext. intros j _.
    case_decide; [by rewrite bool_decide_eq_true_2|by rewrite bool_decide_eq_false_2].
  - destruct (tx_may_close (mkTx d c md)) eqn:Hm; simpl; [|done].
    apply tx_may_close_depth in Hm as [d' Hd]; simpl in Hd; subst.
    by rewrite levels_rollback.
  - by destruct md.
  - destruct md; [done|]. by rewrite levels_take.
Qed.

Lemma spec_write_levels t f u :
  spec_write u (mkSnap (levels (tx_depth t) f) (tx_client t) (tx_mode t)) =
  (mkSnap (levels (tx_depth t) (λ j, if decide (j = tx_depth t) then u (f j) else f j))
     (tx_client t) (tx_mode t), Ok tt).
Proof. unfold spec_write; simpl. by rewrite levels_update. Qed.

End levels.

(** * Abstraction and invariant *)

Section abstraction.
Context {K V : Type} `{Countable K}.
Implicit Types (m : OverlayedMap K V) (k : K) (e : OverlayedEntry V).

(** In how many of the transactions [ds] the key was written. *)
Definition dirty_count k (ds : list (gset K)) : nat := length (filter (λ d, k ∈ d) ds).

(** The version of an entry that is current once the innermost [hidden]
    writes are undone. *)
Definition version_at (hidden : nat) e : option V :=
  value <$> last (take (length (transactions e) - hidden) (transactions e)).

(** What is seen with only the outermost [j] transactions left open. *)
Definition visible m (j : nat) : gmap K V :=
  map_imap (λ k e, version_at (dirty_count k (drop j (dirty_keys m))) e) (changes m).

Definition snapshots m : list (gmap K V) := levels (transaction_depth m) (visible m).

(** One version per dirty set that holds the key, plus at most one committed. *)
Definition entry_ok m k : Prop :=
  match changes m !! k with
  | None => dirty_count k (dirty_keys m) = 0
  | Some e =>
      1 ≤ length (transactions e) ∧
      dirty_count k (dirty_keys m) ≤ length (transactions e)
        ≤ S (dirty_count k (dirty_keys m))
  end.

Definition overlay_wf m : Prop :=
  (∀ k, entry_ok m k) ∧
  (execution_mode m = Runtime → num_client_transactions m ≤ transaction_depth m).

Definition tx_of m : tx_state :=
  mkTx (transaction_depth m) (num_client_transactions m) (execution_mode m).

(** [m'] differs from [m] by the update [u] of what the innermost transaction
    sees. *)
Definition updates (u : gmap K V -> gmap K V) m m' : Prop :=
  overlay_wf m' ∧ tx_of m' = tx_of m ∧
  (∀ j, j < transaction_depth m → visible m' j = visible m j) ∧
  visible m' (transaction_depth m) = u (visible m (transaction_depth m)).

(** Reference semantics of closing a transaction that wrote the keys [d]:
    each key on its own, in no particular order. *)
Definition rolled_entry e : option (OverlayedEntry V) :=
  match vec_pop (transactions e) with
  | Some (_, (_ :: _) as ts) => Some (mkEntry ts)
  | _ => None
  end.

Definition merged_entry e : option (OverlayedEntry V) :=
  '(t, ts) ← vec_pop (transactions e);
  '(u, us) ← vec_pop ts;
  Some (mkEntry (us ++ [mkInner (value t) (Extrinsics_extend (extrinsics u) (extrinsics t))])).

Definition has_pred m k e : bool :=
  match last (dirty_keys m) with
  | Some d => bool_decide (k ∈ d)
  | None => bool_decide (1 < length (transactions e))
  end.

Definition closed_entry (rollback : bool) m k e : option (OverlayedEntry V) :=
  if rollback then rolled_entry e else if has_pred m k e then merged_entry e else Some e.

Definition closed (rollback : bool) (d : gset K) m : OverlayedMap K V :=
  mkOverlay
    (map_imap (λ k e, if decide (k ∈ d) then closed_entry rollback m k e else Some e) (changes m))
    (if rollback then dirty_keys m
     else default (dirty_keys m) (vec_update_last (d ∪.) (dirty_keys m)))
    (num_client_transactions m) (execution_mode m).

(** The versions a write keeps below the version it leaves on top. *)
Definition kept_versions (first : bool) (e : OverlayedEntry V) : list (InnerValue V) :=
  if first || bool_decide (transactions e = []) then transactions e
  else default [] (snd <$> vec_pop (transactions e)).

(** The overlay after the version [t] was written to [k]. *)
Definition written m k (t : InnerValue V) : OverlayedMap K V :=
  let e := default OverlayedEntry_default (changes m !! k) in
  let '(ds, first) := insert_dirty (dirty_keys m) k in
  with_dirty (with_changes m (<[k := mkEntry (kept_versions first e ++ [t])]> (changes m))) ds.

(** What an entry needs for the loop body not to panic. *)
Definition closable (rollback : bool) m k : Prop :=
  ∃ e, changes m !! k = Some e ∧
    (if rollback then 1 else if has_pred m k e then 2 else 0) ≤ length (transactions e).

(** When a commit or rollback is accepted. *)
Definition may_close m : Prop :=
  0 < transaction_depth m ∧
  (execution_mode m = Runtime → num_client_transactions m < transaction_depth m).

#[global] Instance may_close_dec m : Decision (may_close m).
Proof. unfold may_close. apply _. Defined.

End abstraction.

(** * Operation sequences

    [overlay_op] is the mutating interface of the overlay; [run_op] runs it on
    the implementation and [spec_op] on the contract. *)

Inductive overlay_op (K V : Type) :=
| OpSet (k : K) (v : V) (at_extrinsic : option Z)
| OpTx (op : tx_op).
Arguments OpSet {K V} _ _ _.
Arguments OpTx {K V} _.

Section traces.
Context {K V : Type} `{Countable K}.

Definition run_tx (op : tx_op) : M (OverlayedMap K V) op_error unit :=
  match op with
  | TxStart => λ m, (start_transaction m, Ok tt)
  | TxCommit => map_err (λ _, ENoOpenTransaction) commit_transaction
  | TxRollback => map_err (λ _, ENoOpenTransaction) rollback_transaction
  | TxEnterRuntime => map_err (λ _, EAlreadyInRuntime) enter_runtime
  | TxExitRuntime => map_err (λ _, ENotInRuntime) exit_runtime
  end.

Definition run_op (op : overlay_op K V) : M (OverlayedMap K V) op_error unit :=
  match op with
  | OpSet k v x => set k v x
  | OpTx op => run_tx op
  end.

Definition spec_op (op : overlay_op K V) : M (snap_state (gmap K V)) op_error unit :=
  match op with
  | OpSet k v _ => spec_write (<[k := v]>)
  | OpTx op => spec_tx op
  end.

(** The contract state an overlay stands for. *)
Definition snap_of (m : OverlayedMap K V) : snap_state (gmap K V) :=
  mkSnap (snapshots m) (num_client_transactions m) (execution_mode m).

(** Writing a list of keys in order. *)
Definition write_all {E} (ws : list (K * V * option Z)) : M (OverlayedMap K V) E unit :=
  for_each ws (λ '(k, v, x), set k v x).

(** [m'] is [m] with one more transaction open, which wrote some keys. *)
Definition extends (m m' : OverlayedMap K V) : Prop :=
  ∃ d, dirty_keys m' = dirty_keys m ++ [d] ∧
    num_client_transactions m' = num_client_transactions m ∧
    execution_mode m' = execution_mode m ∧
    ∀ k, if decide (k ∈ d)
         then ∃ e t, changes m' !! k = Some (mkEntry (transactions e ++ [t])) ∧
                changes m !! k = (if decide (transactions e = []) then None else Some e)
         else changes m' !! k = changes m !! k.

End traces.

(** * Lemmas *)

Section lemmas.
Context {K V : Type} `{Countable K}.
Implicit Types (m : OverlayedMap K V) (k : K) (e : OverlayedEntry V) (d : gset K).

Lemma overlay_eq m1 m2 :
  changes m1 = changes m2 → dirty_keys m1 = dirty_keys m2 →
  num_client_transactions m1 = num_client_transactions m2 →
  execution_mode m1 = execution_mode m2 → m1 = m2.
Proof. destruct m1, m2; simpl; by intros -> -> -> ->. Qed.

Lemma dirty_count_app k ds1 ds2 :
  dirty_count k (ds1 ++ ds2) = dirty_count k ds1 + dirty_count k ds2.
Proof. unfold dirty_count. by rewrite filter_app, length_app. Qed.

Lemma dirty_count_nil k : dirty_count k [] = 0.
Proof. done. Qed.

Lemma dirty_count_one k d : dirty_count k [d] = if decide (k ∈ d) then 1 else 0.
Proof.
  unfold dirty_count. case_decide.
  - by rewrite filter_cons_True.
  - by rewrite filter_cons_False.
Qed.

Lemma dirty_count_drop_le k ds j : dirty_count k (drop j ds) ≤ dirty_count k ds.
Proof.
  rewrite <- (take_drop j ds) at 2. rewrite dirty_count_app. lia.
Qed.

Lemma drop_snoc_le {A} (l : list A) x j :
  j ≤ length l → drop j (l ++ [x]) = drop j l ++ [x].
Proof. intros. by rewrite drop_app_le. Qed.

Lemma visible_lookup m j k :
  visible m j !! k =
    (changes m !! k ≫= version_at (dirty_count k (drop j (dirty_keys m)))).
Proof. unfold visible. by rewrite map_lookup_imap. Qed.

Lemma version_at_snoc_hidden ts t n :
  version_at (S n) (mkEntry (ts ++ [t])) = version_at (V:=V) n (mkEntry ts).
Proof.
  unfold version_at; simpl. rewrite length_app; simpl.
  replace (length ts + 1 - S n) with (length ts - n) by lia.
  rewrite take_app_le; [done|lia].
Qed.

Lemma version_at_snoc_0 ts t :
  version_at 0 (mkEntry (ts ++ [t])) = Some (value (V:=V) t).
Proof.
  unfold version_at; simpl. rewrite Nat.sub_0_r, firstn_all, last_snoc. done.
Qed.

Lemma version_at_nil n : version_at n (mkEntry (V:=V) []) = None.
Proof. done. Qed.

(** ** Closing a key, and the loop *)

Lemma closed_changes_lookup rollback d m k :
  changes (closed rollback d m) !! k =
    (changes m !! k ≫= λ e, if decide (k ∈ d) then closed_entry rollback m k e else Some e).
Proof. simpl. by rewrite map_lookup_imap. Qed.

Lemma closed_single_changes rollback m k e :
  changes m !! k = Some e →
  changes (closed rollback {[k]} m) =
    partial_alter (λ _, closed_entry rollback m k e) k (changes m).
Proof.
  intros Hk. apply map_eq. intros j. rewrite closed_changes_lookup.
  destruct (decide (j = k)) as [->|Hne].
  - rewrite Hk, lookup_partial_alter_eq; simpl. rewrite decide_True; [done|set_solver].
  - rewrite lookup_partial_alter_ne by done.
    destruct (changes m !! j); simpl; [|done]. rewrite decide_False; [done|set_solver].
Qed.

Lemma close_key_rollback k m :
  closable true m k → close_key true k m = Some (closed true {[k]} m).
Proof.
  intros ([ts] & Hk & Hlen). unfold close_key. rewrite Hk; simpl in *.
  destruct (snoc_cases ts) as [->|(ts' & t & ->)]; [simpl in Hlen; lia|].
  unfold pop_transaction; simpl. rewrite vec_pop_snoc; simpl.
  f_equal. apply overlay_eq; [|done..].
  rewrite (closed_single_changes _ _ _ _ Hk); simpl. unfold rolled_entry; simpl.
  rewrite vec_pop_snoc. destruct ts' as [|u us].
  - rewrite bool_decide_eq_true_2 by done. reflexivity.
  - rewrite bool_decide_eq_false_2 by done. reflexivity.
Qed.

(** The dirty sets and the predecessor flag computed by the commit branch. *)
Lemma close_key_dirty k m e :
  match vec_pop (dirty_keys m) with
  | Some (d, ds) => (ds ++ [{[k]} ∪ d], bool_decide (k ∈ d))
  | None => (dirty_keys m, bool_decide (1 < length (transactions e)))
  end = (dirty_keys (closed false {[k]} m), has_pred m k e).
Proof.
  unfold has_pred; simpl. unfold vec_update_last.
  destruct (snoc_cases (dirty_keys m)) as [->|(ds' & d & ->)]; simpl; [done|].
  by rewrite vec_pop_snoc, last_snoc.
Qed.

Lemma close_key_commit k m :
  closable false m k → close_key false k m = Some (closed false {[k]} m).
Proof.
  intros (e & Hk & Hlen). unfold close_key. rewrite Hk; simpl.
  rewrite close_key_dirty. simpl in Hlen.
  destruct e as [ts]. destruct (has_pred m k (mkEntry ts)) eqn:Hp; simpl in *.
  - destruct (snoc_cases ts) as [->|(ts' & t & ->)]; [simpl in Hlen; lia|].
    rewrite length_app in Hlen; simpl in Hlen.
    destruct (snoc_cases ts') as [->|(us & u & ->)]; [simpl in Hlen; lia|].
    unfold pop_transaction, value_mut, transaction_extrinsics_mut; simpl.
    rewrite vec_pop_snoc; simpl. rewrite vec_update_last_snoc; simpl.
    rewrite vec_update_last_snoc; simpl. f_equal. apply overlay_eq; [|done..].
    rewrite (closed_single_changes _ _ _ _ Hk); simpl.
    rewrite Hp. unfold merged_entry; simpl. by do 2 (rewrite vec_pop_snoc; simpl).
  - f_equal. apply overlay_eq; [|done..].
    rewrite (closed_single_changes _ _ _ _ Hk); simpl. rewrite Hp.
    symmetry. exact (insert_id _ _ _ Hk).
Qed.

Lemma close_key_closed rollback k m :
  closable rollback m k → close_key rollback k m = Some (closed rollback {[k]} m).
Proof. destruct rollback; [apply close_key_rollback|apply close_key_commit]. Qed.

Lemma has_pred_closed rollback m j k e :
  j ≠ k → has_pred (closed rollback {[k]} m) j e = has_pred m j e.
Proof.
  intros Hne. unfold has_pred. destruct rollback; simpl; [done|]. unfold vec_update_last.
  destruct (snoc_cases (dirty_keys m)) as [->|(ds' & d & ->)]; simpl; [done|].
  rewrite vec_pop_snoc, !last_snoc; simpl. rewrite last_snoc.
  apply bool_decide_ext. set_solver.
Qed.

Lemma closed_union rollback k d m :
  k ∉ d → closed rollback d (closed rollback {[k]} m) = closed rollback ({[k]} ∪ d) m.
Proof.
  intros Hk. apply overlay_eq; [| |done..].
  - apply map_eq. intros j. rewrite !closed_changes_lookup.
    destruct (changes m !! j) as [e|]; simpl; [|done].
    destruct (decide (j = k)) as [->|Hne].
    + rewrite !decide_True by set_solver.
      destruct (closed_entry rollback m k e); simpl; [|done].
      by rewrite decide_False by set_solver.
    + rewrite (decide_False (P := j ∈ {[k]})) by set_solver; simpl.
      unfold closed_entry. rewrite has_pred_closed by done.
      destruct (decide (j ∈ d)); [rewrite decide_True by set_solver|rewrite decide_False by set_solver]; done.
  - simpl. destruct rollback; [done|]. unfold vec_update_last.
    destruct (snoc_cases (dirty_keys m)) as [->|(ds' & d' & ->)]; simpl; [done|].
    rewrite vec_pop_snoc; simpl. rewrite vec_pop_snoc; simpl.
    do 2 f_equal. set_solver.
Qed.

Lemma closable_closed rollback m j k :
  j ≠ k → closable rollback m j → closable rollback (closed rollback {[k]} m) j.
Proof.
  intros Hne (e & Hj & Hlen). exists e. split.
  - rewrite closed_changes_lookup, Hj; simpl. by rewrite decide_False by set_solver.
  - by rewrite has_pred_closed.
Qed.

(** The loop of [close_transaction] over any enumeration of the dirty keys
    computes the order-free reference. *)
Lemma close_keys_closed {E} rollback ks m :
  NoDup ks → (∀ k, k ∈ ks → closable rollback m k) →
  close_keys (E:=E) rollback ks m = (closed rollback (list_to_set ks) m, Ok tt).
Proof.
  revert m. induction ks as [|k ks IH]; intros m Hnd Hok.
  - unfold close_keys; simpl. unfold retM. f_equal. apply overlay_eq; [| |done..].
    + apply map_eq. intros j. rewrite closed_changes_lookup.
      destruct (changes m !! j); simpl; [|done]. by rewrite decide_False by set_solver.
    + simpl. destruct rollback; [done|]. unfold vec_update_last.
      destruct (snoc_cases (dirty_keys m)) as [->|(ds' & d' & ->)]; simpl; [done|].
      rewrite vec_pop_snoc; simpl. do 2 f_equal. set_solver.
  - apply NoDup_cons in Hnd as [Hk Hnd].
    unfold close_keys; simpl. rewrite close_key_closed by (apply Hok; set_solver).
    change (close_keys rollback ks (closed rollback {[k]} m) =
      (closed rollback ({[k]} ∪ list_to_set ks) m, @Ok E unit tt)).
    rewrite IH; [|done|].
    + by rewrite closed_union by set_solver.
    + intros j Hj. apply closable_closed; [set_solver|]. apply Hok. set_solver.
Qed.

(** ** Views of a closed overlay *)

Lemma wf_closable rollback m ds d k :
  overlay_wf m → dirty_keys m = ds ++ [d] → k ∈ d → closable rollback (with_dirty m ds) k.
Proof.
  intros [Hwf _] Hds Hk. specialize (Hwf k). unfold entry_ok in Hwf.
  rewrite Hds, dirty_count_app, dirty_count_one, decide_True in Hwf by done.
  unfold closable; simpl. destruct (changes m !! k) as [e|] eqn:Hc; [|lia].
  exists e. split; [done|]. destruct rollback; [lia|].
  unfold has_pred; simpl. destruct (snoc_cases ds) as [->|(ds' & d' & ->)].
  - simpl. case_bool_decide; lia.
  - rewrite last_snoc. case_bool_decide; [|lia].
    rewrite dirty_count_app, dirty_count_one, decide_True in Hwf by done. lia.
Qed.

Lemma visible_rollback m ds d j :
  overlay_wf m → dirty_keys m = ds ++ [d] → j ≤ length ds →
  visible (closed true d (with_dirty m ds)) j = visible m j.
Proof.
  intros [Hwf _] Hds Hj. apply map_eq. intros k. specialize (Hwf k). unfold entry_ok in Hwf.
  rewrite !visible_lookup, closed_changes_lookup, Hds, drop_snoc_le by done; simpl.
  rewrite dirty_count_app, dirty_count_one.
  destruct (changes m !! k) as [[ts]|]; simpl in *; [|done].
  case_decide; simpl; [|by rewrite Nat.add_0_r].
  destruct (snoc_cases ts) as [->|(ts' & t & ->)]; [simpl in Hwf; lia|].
  rewrite Nat.add_1_r, version_at_snoc_hidden. unfold rolled_entry; simpl.
  rewrite vec_pop_snoc. by destruct ts'.
Qed.

Lemma closed_commit_dirty ds d m :
  dirty_keys (closed false d (with_dirty m ds)) =
    match vec_pop ds with Some (d', ds') => ds' ++ [d ∪ d'] | None => ds end.
Proof.
  simpl. unfold vec_update_last. destruct (vec_pop ds) as [[? ?]|]; done.
Qed.

(** Below the transaction that receives the changes nothing is seen to change. *)
Lemma visible_commit_below m ds d j :
  overlay_wf m → dirty_keys m = ds ++ [d] → j < length ds →
  visible (closed false d (with_dirty m ds)) j = visible m j.
Proof.
  intros [Hwf _] Hds Hj. apply map_eq. intros k. specialize (Hwf k). unfold entry_ok in Hwf.
  rewrite !visible_lookup, closed_changes_lookup, closed_commit_dirty, Hds.
  destruct (snoc_cases ds) as [->|(ds' & d' & ->)]; [simpl in Hj; lia|].
  rewrite length_app in Hj; simpl in Hj.
  rewrite vec_pop_snoc, Hds, !dirty_count_app, !dirty_count_one in *; simpl.
  rewrite !drop_snoc_le by (rewrite ?length_app; simpl; lia).
  rewrite !dirty_count_app, !dirty_count_one.
  destruct (changes m !! k) as [[ts]|]; simpl in *; [|done].
  unfold has_pred; simpl. rewrite last_snoc.
  destruct (decide (k ∈ d)) as [Hd|Hd]; simpl.
  - rewrite (decide_True (P := k ∈ d ∪ d')) by set_solver.
    destruct (decide (k ∈ d')) as [Hd'|Hd']; simpl.
    + rewrite bool_decide_eq_true_2 by done.
      destruct (snoc_cases ts) as [->|(ts' & t & ->)]; [simpl in Hwf; lia|].
      rewrite length_app in Hwf; simpl in Hwf.
      destruct (snoc_cases ts') as [->|(us & u & ->)]; [simpl in Hwf; lia|].
      unfold merged_entry; simpl. do 2 (rewrite vec_pop_snoc; simpl).
      rewrite !Nat.add_1_r. by rewrite !version_at_snoc_hidden.
    + rewrite bool_decide_eq_false_2 by done; simpl. by rewrite Nat.add_0_r.
  - rewrite Nat.add_0_r. destruct (decide (k ∈ d')).
    + by rewrite decide_True by set_solver.
    + by rewrite decide_False by set_solver.
Qed.

(** ... and the receiving transaction sees what the closed one saw. *)
Lemma visible_commit_top m ds d :
  overlay_wf m → dirty_keys m = ds ++ [d] →
  visible (closed false d (with_dirty m ds)) (length ds) = visible m (S (length ds)).
Proof.
  intros [Hwf _] Hds. apply map_eq. intros k. specialize (Hwf k). unfold entry_ok in Hwf.
  rewrite !visible_lookup, closed_changes_lookup, Hds.
  rewrite (drop_ge (ds ++ [d])) by (rewrite length_app; simpl; lia).
  assert (Hlen : length (dirty_keys (closed false d (with_dirty m ds))) = length ds).
  { rewrite closed_commit_dirty. destruct (snoc_cases ds) as [->|(ds' & d' & ->)]; [done|].
    rewrite vec_pop_snoc, !length_app. done. }
  rewrite drop_ge by lia. rewrite dirty_count_nil; simpl.
  destruct (changes m !! k) as [[ts]|]; simpl in *; [|done].
  case_decide; simpl; [|done]. case_match eqn:Hp; simpl; [|done].
  assert (2 ≤ length ts) as Hts.
  { rewrite Hds, dirty_count_app, dirty_count_one, decide_True in Hwf by done.
    unfold has_pred in Hp; simpl in Hp.
    destruct (snoc_cases ds) as [->|(ds' & d' & ->)]; simpl in Hp.
    - apply bool_decide_eq_true in Hp. lia.
    - rewrite last_snoc in Hp. apply bool_decide_eq_true in Hp.
      rewrite dirty_count_app, dirty_count_one, decide_True in Hwf by done. lia. }
  destruct (snoc_cases ts) as [->|(ts' & t & ->)]; [simpl in Hts; lia|].
  rewrite length_app in Hts; simpl in Hts.
  destruct (snoc_cases ts') as [->|(us & u & ->)]; [simpl in Hts; lia|].
  unfold merged_entry; simpl. do 2 (rewrite vec_pop_snoc; simpl).
  by rewrite !version_at_snoc_0.
Qed.

(** ** The invariant *)

Lemma closed_length rollback ds d m :
  transaction_depth (closed rollback d (with_dirty m ds)) = length ds.
Proof.
  unfold transaction_depth. destruct rollback; [done|]. rewrite closed_commit_dirty.
  destruct (snoc_cases ds) as [->|(ds' & d' & ->)]; [done|].
  by rewrite vec_pop_snoc, !length_app.
Qed.

Lemma entry_ok_rolled m ds d k :
  entry_ok m k → dirty_keys m = ds ++ [d] → entry_ok (closed true d (with_dirty m ds)) k.
Proof.
  unfold entry_ok. rewrite closed_changes_lookup; simpl. intros Hwf Hds.
  rewrite Hds, dirty_count_app, dirty_count_one in Hwf.
  destruct (changes m !! k) as [[ts]|]; simpl in *; [|case_decide; lia].
  case_decide; simpl; [|lia]. unfold rolled_entry; simpl.
  destruct (snoc_cases ts) as [->|(ts' & t & ->)]; [simpl in Hwf; lia|].
  rewrite vec_pop_snoc. rewrite length_app in Hwf; simpl in Hwf.
  destruct ts'; simpl in *; lia.
Qed.

Lemma merged_length e e' :
  merged_entry e = Some e' → length (transactions (V:=V) e) = S (length (transactions e')).
Proof.
  destruct e as [ts]. unfold merged_entry; simpl.
  destruct (snoc_cases ts) as [->|(ts' & t & ->)]; [done|].
  rewrite vec_pop_snoc; simpl. destruct (snoc_cases ts') as [->|(us & u & ->)]; [done|].
  rewrite vec_pop_snoc; simpl. intros [= <-]. simpl. rewrite !length_app; simpl. lia.
Qed.

Lemma merged_is_Some e :
  2 ≤ length (transactions e) → is_Some (merged_entry (V:=V) e).
Proof.
  destruct e as [ts]; simpl. intros Hlen. unfold merged_entry; simpl.
  destruct (snoc_cases ts) as [->|(ts' & t & ->)]; [simpl in Hlen; lia|].
  rewrite vec_pop_snoc; simpl. rewrite length_app in Hlen; simpl in Hlen.
  destruct (snoc_cases ts') as [->|(us & u & ->)]; [simpl in Hlen; lia|].
  rewrite vec_pop_snoc; simpl. eauto.
Qed.

Lemma entry_ok_merged m ds d k :
  entry_ok m k → dirty_keys m = ds ++ [d] → entry_ok (closed false d (with_dirty m ds)) k.
Proof.
  unfold entry_ok. rewrite closed_changes_lookup, closed_commit_dirty; simpl. intros Hwf Hds.
  rewrite Hds, dirty_count_app, dirty_count_one in Hwf.
  assert (Hcount : dirty_count k match vec_pop ds with
    | Some (d', ds') => ds' ++ [d ∪ d'] | None => ds end =
    match last ds with
    | Some d' => dirty_count k ds + (if decide (k ∈ d ∧ k ∉ d') then 1 else 0)
    | None => 0 end).
  { destruct (snoc_cases ds) as [->|(ds' & d' & ->)]; [done|].
    rewrite vec_pop_snoc, last_snoc, !dirty_count_app, !dirty_count_one.
    repeat case_decide; set_solver by lia. }
  rewrite Hcount; clear Hcount.
  destruct (changes m !! k) as [e|]; simpl in *;
    [|destruct (last ds); repeat case_decide; set_solver by lia].
  unfold has_pred; simpl. destruct (snoc_cases ds) as [->|(ds' & d' & ->)]; simpl.
  - rewrite dirty_count_nil in Hwf. case_decide; simpl; [|lia].
    case_bool_decide; simpl; [|lia].
    destruct (merged_is_Some e) as [e' He']; [lia|].
    rewrite He'. apply merged_length in He'. lia.
  - rewrite last_snoc, dirty_count_app, dirty_count_one in *.
    destruct (decide (k ∈ d)); simpl; [|rewrite (decide_False (P := k ∈ d ∧ k ∉ d')) by tauto; lia].
    destruct (decide (k ∈ d')).
    + rewrite bool_decide_eq_true_2, (decide_False (P := k ∈ d ∧ k ∉ d')) by tauto.
      destruct (merged_is_Some e) as [e' He']; [lia|].
      rewrite He'. apply merged_length in He'. lia.
    + rewrite bool_decide_eq_false_2, (decide_True (P := k ∈ d ∧ k ∉ d')) by tauto. lia.
Qed.

Lemma closed_wf rollback m ds d :
  overlay_wf m → dirty_keys m = ds ++ [d] →
  (execution_mode m = Runtime → num_client_transactions m < transaction_depth m) →
  overlay_wf (closed rollback d (with_dirty m ds)).
Proof.
  intros [Hwf _] Hds Hmode. split.
  - intros k. destruct rollback; [eapply entry_ok_rolled|eapply entry_ok_merged]; eauto.
  - rewrite closed_length; simpl. intros Hm. specialize (Hmode Hm).
    unfold transaction_depth in Hmode. rewrite Hds, length_app in Hmode; simpl in Hmode. lia.
Qed.

Lemma overlay_wf_default : overlay_wf (OverlayedMap_default (K:=K) (V:=V)).
Proof. split; [|done]. intros k. unfold entry_ok; simpl. by rewrite lookup_empty. Qed.

Lemma start_transaction_wf m : overlay_wf m → overlay_wf (start_transaction m).
Proof.
  intros [Hwf Hm]. split.
  - intros k. specialize (Hwf k). unfold entry_ok in *; simpl.
    rewrite dirty_count_app, dirty_count_one, decide_False by set_solver.
    by rewrite Nat.add_0_r.
  - unfold transaction_depth in *; simpl. rewrite length_app; simpl. naive_solver lia.
Qed.

(** ** Writing *)

Lemma entry_set_spec e v first at_ext :
  ∃ t, value t = v ∧
    entry_set e v first at_ext =
      Some (mkEntry ((if first || bool_decide (transactions e = [])
                      then transactions e else default [] (snd <$> vec_pop (transactions e)))
                     ++ [t])).
Proof.
  destruct e as [ts]. unfold entry_set, value_mut, transaction_extrinsics_mut; simpl.
  destruct (first || bool_decide (ts = [])) eqn:Hf; simpl.
  - destruct at_ext as [x|]; simpl; [rewrite vec_update_last_snoc; simpl|];
      by eexists; split; [|reflexivity].
  - apply orb_false_iff in Hf as [_ Hts]. apply bool_decide_eq_false in Hts.
    destruct (snoc_cases ts) as [->|(ts' & t & ->)]; [done|].
    rewrite vec_pop_snoc, vec_update_last_snoc; simpl.
    destruct at_ext as [x|]; simpl; [rewrite vec_update_last_snoc; simpl|];
      by eexists; split; [|reflexivity].
Qed.

Lemma set_written {E} k v at_ext m :
  ∃ t, value t = v ∧ set (E:=E) k v at_ext m = (written m k t, Ok tt).
Proof.
  unfold set, written. destruct (insert_dirty (dirty_keys m) k) as [ds first].
  destruct (entry_set_spec (default OverlayedEntry_default (changes m !! k)) v first at_ext)
    as (t & Ht & ->).
  by exists t.
Qed.

Lemma insert_dirty_length ds k : length (fst (insert_dirty ds k)) = length ds.
Proof.
  unfold insert_dirty. destruct (snoc_cases ds) as [->|(ds' & d & ->)]; [done|].
  rewrite vec_pop_snoc; simpl. by rewrite !length_app.
Qed.

Lemma written_depth m k t : transaction_depth (written m k t) = transaction_depth m.
Proof.
  unfold transaction_depth, written.
  pose proof (insert_dirty_length (dirty_keys m) k) as Hlen.
  by destruct (insert_dirty (dirty_keys m) k).
Qed.

Lemma dirty_count_insert_dirty_ne ds j i k :
  i ≠ k → dirty_count i (drop j (fst (insert_dirty ds k))) = dirty_count i (drop j ds).
Proof.
  intros Hne. unfold insert_dirty. destruct (snoc_cases ds) as [->|(ds' & d & ->)]; [done|].
  rewrite vec_pop_snoc; simpl.
  destruct (decide (j ≤ length ds')).
  - rewrite !drop_snoc_le, !dirty_count_app, !dirty_count_one by done.
    repeat case_decide; set_solver by lia.
  - by rewrite !drop_ge by (rewrite length_app; simpl; lia).
Qed.

Lemma written_lookup_ne m k t i :
  i ≠ k → changes (written m k t) !! i = changes m !! i.
Proof.
  intros Hne. unfold written. destruct (insert_dirty (dirty_keys m) k); simpl.
  by rewrite lookup_insert_ne.
Qed.

Lemma written_dirty m k t : dirty_keys (written m k t) = fst (insert_dirty (dirty_keys m) k).
Proof. unfold written. by destruct (insert_dirty (dirty_keys m) k). Qed.

Lemma written_lookup m k t :
  changes (written m k t) !! k =
    Some (mkEntry (kept_versions (snd (insert_dirty (dirty_keys m) k))
                     (default OverlayedEntry_default (changes m !! k)) ++ [t])).
Proof.
  unfold written. destruct (insert_dirty (dirty_keys m) k); simpl.
  by rewrite lookup_insert_eq.
Qed.

Lemma visible_written_top m k t :
  visible (written m k t) (transaction_depth m) =
    <[k := value t]> (visible m (transaction_depth m)).
Proof.
  apply map_eq. intros i. rewrite visible_lookup, written_dirty.
  rewrite drop_ge by (rewrite insert_dirty_length; done). rewrite dirty_count_nil.
  destruct (decide (i = k)) as [->|Hne].
  - rewrite written_lookup, lookup_insert_eq; simpl. apply version_at_snoc_0.
  - rewrite written_lookup_ne, lookup_insert_ne, visible_lookup by done.
    by rewrite drop_ge.
Qed.

Lemma visible_written_below m k t j :
  overlay_wf m → j < transaction_depth m → visible (written m k t) j = visible m j.
Proof.
  intros [Hwf _] Hj. apply map_eq. intros i. rewrite !visible_lookup, written_dirty.
  destruct (decide (i = k)) as [->|Hne];
    [|by rewrite written_lookup_ne, dirty_count_insert_dirty_ne by done].
  rewrite written_lookup; simpl. specialize (Hwf k). unfold entry_ok, transaction_depth in *.
  destruct (snoc_cases (dirty_keys m)) as [Hds|(ds & d & Hds)]; rewrite Hds in *; simpl in *; [lia|].
  rewrite length_app in Hj; simpl in Hj.
  unfold insert_dirty. rewrite vec_pop_snoc; simpl.
  rewrite !drop_snoc_le, !dirty_count_app, !dirty_count_one by lia.
  rewrite (decide_True (P := k ∈ {[k]} ∪ d)) by set_solver.
  rewrite dirty_count_app, dirty_count_one in Hwf.
  rewrite Nat.add_1_r, version_at_snoc_hidden. unfold kept_versions.
  destruct (changes m !! k) as [[ts]|]; simpl in *.
  - case_decide.
    + rewrite bool_decide_eq_true_2 by done; simpl.
      rewrite bool_decide_eq_false_2 by (intros ->; simpl in *; lia).
      destruct (snoc_cases ts) as [->|(ts' & t' & ->)]; [simpl in *; lia|].
      by rewrite vec_pop_snoc, Nat.add_1_r, version_at_snoc_hidden.
    + rewrite bool_decide_eq_false_2 by done; simpl. by rewrite Nat.add_0_r.
  - case_decide; [lia|]. rewrite bool_decide_eq_false_2 by done; simpl. done.
Qed.

Lemma written_wf m k t : overlay_wf m → overlay_wf (written m k t).
Proof.
  intros [Hwf Hm]. split.
  - intros i. unfold entry_ok. rewrite written_dirty. destruct (decide (i = k)) as [->|Hne].
    + rewrite written_lookup; simpl. specialize (Hwf k). unfold entry_ok in Hwf.
      rewrite length_app; simpl. unfold insert_dirty, kept_versions.
      destruct (snoc_cases (dirty_keys m)) as [Hds|(ds & d & Hds)]; rewrite Hds in *.
      * simpl in *. destruct (changes m !! k) as [[ts]|]; simpl in *; [|lia].
        rewrite bool_decide_eq_false_2 by (intros ->; simpl in *; lia).
        destruct (snoc_cases ts) as [->|(ts' & t' & ->)]; [simpl in *; lia|].
        rewrite vec_pop_snoc; simpl. rewrite length_app in Hwf; simpl in Hwf. lia.
      * rewrite vec_pop_snoc; simpl.
        rewrite !dirty_count_app, !dirty_count_one in *.
        rewrite (decide_True (P := k ∈ {[k]} ∪ d)) by set_solver.
        destruct (changes m !! k) as [[ts]|]; simpl in *.
        -- case_decide; [rewrite bool_decide_eq_true_2 by done|rewrite bool_decide_eq_false_2 by done; simpl; lia].
           simpl. rewrite bool_decide_eq_false_2 by (intros ->; simpl in *; lia).
           destruct (snoc_cases ts) as [->|(ts' & t' & ->)]; [simpl in *; lia|].
           rewrite vec_pop_snoc; simpl. rewrite length_app in Hwf; simpl in Hwf. lia.
        -- case_decide; [lia|]. rewrite bool_decide_eq_false_2 by done; simpl. lia.
    + rewrite written_lookup_ne by done. specialize (Hwf i). unfold entry_ok in Hwf.
      change (fst (insert_dirty (dirty_keys m) k)) with (drop 0 (fst (insert_dirty (dirty_keys m) k))).
      by rewrite dirty_count_insert_dirty_ne by done.
  - rewrite written_depth. unfold written. by destruct (insert_dirty (dirty_keys m) k).
Qed.

Lemma written_updates m k t : overlay_wf m → updates (<[k := value t]>) m (written m k t).
Proof.
  intros Hwf. split; [by apply written_wf|]. split_all.
  - unfold tx_of. rewrite written_depth. unfold written.
    by destruct (insert_dirty (dirty_keys m) k).
  - intros. by apply visible_written_below.
  - apply visible_written_top.
Qed.

(** ** Snapshots *)

Lemma snapshots_snoc m :
  snapshots m = (visible m <$> seq 0 (transaction_depth m)) ++ [visible m (transaction_depth m)].
Proof. apply levels_snoc. Qed.

Lemma snap_set_snoc k v (ss : list (gmap K V)) s :
  snap_set k v (ss ++ [s]) = ss ++ [<[k := v]> s].
Proof. unfold snap_set, snap_update. by rewrite vec_update_last_snoc. Qed.

Lemma snapshots_updates u m m' : updates u m m' → snapshots m' = snap_update u (snapshots m).
Proof.
  intros (_ & Hst & Hb & Ht). injection Hst as Hd _ _. unfold snapshots.
  rewrite levels_update, Hd. apply levels_ext. intros j Hj. case_decide; subst; [done|].
  apply Hb. lia.
Qed.

Lemma snapshots_written m k t :
  overlay_wf m → snapshots (written m k t) = snap_set k (value t) (snapshots m).
Proof. intros. by apply snapshots_updates, written_updates. Qed.

Lemma set_updates {E} k v x m :
  overlay_wf m → ∃ m', set (E:=E) k v x m = (m', Ok tt) ∧ updates (<[k := v]>) m m'.
Proof.
  intros Hwf. destruct (set_written (E:=E) k v x m) as (t & <- & ->).
  eauto using written_updates.
Qed.

Lemma start_transaction_depth m :
  transaction_depth (start_transaction m) = S (transaction_depth m).
Proof. unfold transaction_depth, start_transaction; simpl. rewrite length_app; simpl. lia. Qed.

Lemma visible_start m j :
  visible (start_transaction m) j = visible m (min j (transaction_depth m)).
Proof.
  apply map_eq. intros k. rewrite !visible_lookup; simpl. unfold transaction_depth.
  destruct (decide (j ≤ length (dirty_keys m))).
  - rewrite Nat.min_l, drop_snoc_le, dirty_count_app, dirty_count_one, decide_False by set_solver.
    by rewrite Nat.add_0_r.
  - rewrite Nat.min_r, !drop_ge; [done|done|rewrite length_app; simpl; lia|lia].
Qed.

Lemma snapshots_start m : snapshots (start_transaction m) = snap_start (snapshots m).
Proof.
  unfold snapshots. rewrite levels_start, start_transaction_depth.
  apply levels_ext. intros. apply visible_start.
Qed.

Lemma snapshots_rollback m ds d :
  overlay_wf m → dirty_keys m = ds ++ [d] →
  snapshots (closed true d (with_dirty m ds)) = snap_rollback (snapshots m).
Proof.
  intros Hwf Hds. unfold snapshots. rewrite closed_length. unfold transaction_depth.
  rewrite Hds, length_app, Nat.add_1_r; simpl. rewrite levels_rollback.
  apply levels_ext. intros. by apply visible_rollback.
Qed.

Lemma snapshots_commit m ds d :
  overlay_wf m → dirty_keys m = ds ++ [d] →
  snapshots (closed false d (with_dirty m ds)) = snap_commit (snapshots m).
Proof.
  intros Hwf Hds. unfold snapshots. rewrite closed_length. unfold transaction_depth.
  rewrite Hds, length_app, Nat.add_1_r; simpl. rewrite levels_commit.
  apply levels_ext. intros j Hj. case_decide; subst.
  - by apply visible_commit_top.
  - apply visible_commit_below; auto; lia.
Qed.

(** ** Closing *)

Lemma may_close_snoc m : may_close m → ∃ ds d, dirty_keys m = ds ++ [d].
Proof.
  intros [Hd _]. unfold transaction_depth in Hd.
  destruct (snoc_cases (dirty_keys m)) as [Hds|]; [|done]. rewrite Hds in Hd; simpl in Hd. lia.
Qed.

Lemma close_transaction_closed rollback m ds d :
  overlay_wf m → may_close m → dirty_keys m = ds ++ [d] →
  close_transaction rollback m = (closed rollback d (with_dirty m ds), Ok tt).
Proof.
  intros Hwf [_ Hrt] Hds. unfold close_transaction, has_open_runtime_transactions.
  destruct (bool_decide (execution_mode m = Runtime)) eqn:Hm; simpl.
  - apply bool_decide_eq_true in Hm. rewrite bool_decide_eq_true_2 by auto; simpl.
    rewrite Hds, vec_pop_snoc, close_keys_closed;
      [by rewrite list_to_set_elements_L|apply NoDup_elements|].
    intros k Hk. apply elem_of_elements in Hk. eauto using wf_closable.
  - rewrite Hds, vec_pop_snoc, close_keys_closed;
      [by rewrite list_to_set_elements_L|apply NoDup_elements|].
    intros k Hk. apply elem_of_elements in Hk. eauto using wf_closable.
Qed.

Lemma close_transaction_refused rollback m :
  ¬ may_close m → close_transaction rollback m = (m, Err noOpenTransaction).
Proof.
  intros Hno. unfold close_transaction, has_open_runtime_transactions.
  destruct (execution_mode m) eqn:Hm; simpl.
  - destruct (vec_pop (dirty_keys m)) as [[d ds]|] eqn:Hp; [|done].
    apply vec_pop_Some in Hp. destruct Hno. split; [|by rewrite Hm].
    unfold transaction_depth. rewrite Hp, length_app; simpl. lia.
  - case_bool_decide; simpl; [|done].
    destruct Hno. split; [lia|done].
Qed.

Lemma close_transaction_ok rollback m :
  overlay_wf m → may_close m →
  ∃ m', close_transaction rollback m = (m', Ok tt) ∧ overlay_wf m' ∧
    snapshots m' = (if rollback then snap_rollback else snap_commit) (snapshots m) ∧
    transaction_depth m' = pred (transaction_depth m) ∧
    num_client_transactions m' = num_client_transactions m ∧
    execution_mode m' = execution_mode m.
Proof.
  intros Hwf Hmay. destruct (may_close_snoc m Hmay) as (ds & d & Hds).
  eexists. split; [by apply close_transaction_closed|].
  split_all; [apply closed_wf; [done..|apply Hmay]| | |done..].
  - destruct rollback; [by apply snapshots_rollback|by apply snapshots_commit].
  - rewrite closed_length. unfold transaction_depth. rewrite Hds, length_app; simpl. lia.
Qed.

(** ** Leaving the runtime *)

Lemma length_snapshots m : length (snapshots m) = S (transaction_depth m).
Proof. apply length_levels. Qed.

Lemma snap_rollback_take (ss : list (gmap K V)) : snap_rollback ss = take (pred (length ss)) ss.
Proof.
  unfold snap_rollback. destruct (snoc_cases ss) as [->|(ss' & s & ->)]; [done|].
  rewrite vec_pop_snoc, length_app; simpl. rewrite Nat.add_1_r; simpl.
  by rewrite take_app_length.
Qed.

Lemma rollback_open_ok {E} fuel m :
  overlay_wf m → execution_mode m = Client →
  num_client_transactions m ≤ transaction_depth m ≤ num_client_transactions m + fuel →
  ∃ m', rollback_open (E:=E) fuel m = (m', Ok tt) ∧ overlay_wf m' ∧
    snapshots m' = take (S (num_client_transactions m)) (snapshots m) ∧
    num_client_transactions m' = num_client_transactions m ∧ execution_mode m' = Client.
Proof.
  revert m. induction fuel as [|fuel IH]; intros m Hwf Hm Hd; cbn [rollback_open];
    unfold has_open_runtime_transactions; case_bool_decide as Hopen; try lia.
  1, 3: exists m; rewrite take_ge by (rewrite length_snapshots; lia); done.
  unfold rollback_transaction.
  destruct (close_transaction_ok true m) as (m' & -> & Hwf' & Hs & Hd' & Hn & Hm');
    [done|split; [lia|congruence]|].
  destruct (IH m') as (m'' & -> & Hwf'' & Hs'' & Hn'' & Hm''); [done|congruence|lia|].
  exists m''. split_all; try done; [|congruence].
  rewrite Hs'', Hs, Hn, snap_rollback_take, length_snapshots, take_take. f_equal. lia.
Qed.

Lemma exit_runtime_ok m :
  overlay_wf m → execution_mode m = Runtime →
  ∃ m', exit_runtime m = (m', Ok tt) ∧ overlay_wf m' ∧
    snapshots m' = take (S (num_client_transactions m)) (snapshots m) ∧
    num_client_transactions m' = num_client_transactions m ∧ execution_mode m' = Client.
Proof.
  intros [Hwf Hrt] Hm. unfold exit_runtime. rewrite Hm. specialize (Hrt Hm).
  apply (rollback_open_ok (transaction_depth m) (mkOverlay _ _ _ _)); simpl; [|done|].
  - split; [exact Hwf|done].
  - unfold transaction_depth in *; simpl. lia.
Qed.

(** ** Simulation *)

Lemma tx_may_close_of m : tx_may_close (tx_of m) = bool_decide (may_close m).
Proof.
  unfold tx_may_close; simpl.
  destruct (execution_mode m) eqn:Hmode; [rewrite andb_true_r|rewrite <- bool_decide_and];
    apply bool_decide_ext; unfold may_close; rewrite Hmode; naive_solver.
Qed.

Lemma spec_tx_of_snap m : spec_tx_of (snap_of m) = tx_of m.
Proof. unfold spec_tx_of, spec_depth, snap_of; cbn [stack]. by rewrite length_snapshots. Qed.

(** What an accepted or refused transaction operation does to an overlay. *)
Definition tx_done (op : tx_op) m m' : Prop :=
  overlay_wf m' ∧ tx_of m' = fst (tx_next op (tx_of m)) ∧
  ∀ j, j ≤ transaction_depth m' → visible m' j = visible m (tx_level op (tx_of m) j).

Lemma tx_done_snapshots op m m' :
  overlay_wf m' → tx_of m' = fst (tx_next op (tx_of m)) →
  snapshots m' = stack (fst (spec_tx op (snap_of m))) → tx_done op m m'.
Proof.
  intros Hwf Htx Hs. split; [done|]. split; [done|]. apply levels_ext.
  change (snap_of m) with (mkSnap (levels (tx_depth (tx_of m)) (visible m))
    (tx_client (tx_of m)) (tx_mode (tx_of m))) in Hs.
  rewrite spec_tx_levels, <- Htx in Hs. exact Hs.
Qed.

Lemma close_done rollback m :
  overlay_wf m →
  ∃ m', map_err (λ _, ENoOpenTransaction) (close_transaction rollback) m =
      (m', snd (tx_next (if rollback then TxRollback else TxCommit) (tx_of m))) ∧
    tx_done (if rollback then TxRollback else TxCommit) m m'.
Proof.
  intros Hwf. unfold map_err. destruct (decide (may_close m)) as [Hmay|Hno].
  - destruct (close_transaction_ok rollback m Hwf Hmay) as (m' & -> & Hwf' & Hs & Hd & Hn & Hm).
    exists m'. assert (Ht : tx_may_close (tx_of m) = true)
      by (rewrite tx_may_close_of; by apply bool_decide_eq_true).
    split; [destruct rollback; simpl; by rewrite Ht|]. apply tx_done_snapshots; [done|..].
    + unfold tx_of at 1. rewrite Hd, Hn, Hm. destruct rollback; simpl; by rewrite Ht.
    + unfold spec_tx. rewrite spec_tx_of_snap. destruct rollback; by rewrite Ht.
  - rewrite close_transaction_refused by done. exists m.
    assert (Ht : tx_may_close (tx_of m) = false)
      by (rewrite tx_may_close_of; by apply bool_decide_eq_false).
    unfold tx_done. destruct rollback; simpl; rewrite Ht; simpl; auto.
Qed.

Lemma exit_done m :
  overlay_wf m →
  ∃ m', map_err (λ _, ENotInRuntime) exit_runtime m =
      (m', snd (tx_next TxExitRuntime (tx_of m))) ∧ tx_done TxExitRuntime m m'.
Proof.
  intros Hwf. unfold map_err. destruct (execution_mode m) eqn:Hmode.
  - exists m. unfold exit_runtime, tx_done; simpl. rewrite Hmode; simpl.
    split_all; try done.
  - destruct (exit_runtime_ok m Hwf Hmode) as (m' & -> & Hwf' & Hs & Hn & Hm).
    exists m'. simpl. rewrite Hmode. split; [done|]. apply tx_done_snapshots; [done|..].
    + simpl. rewrite Hmode; simpl. unfold tx_of. rewrite Hn, Hm.
      apply (f_equal length) in Hs. rewrite length_take, !length_snapshots in Hs. f_equal. lia.
    + simpl. rewrite Hmode; simpl. done.
Qed.

Lemma run_tx_done op m :
  overlay_wf m → ∃ m', run_tx op m = (m', snd (tx_next op (tx_of m))) ∧ tx_done op m m'.
Proof.
  intros Hwf. destruct op.
  - exists (start_transaction m). unfold tx_done. split_all; [done|..].
    + by apply start_transaction_wf.
    + unfold tx_of. by rewrite start_transaction_depth.
    + intros j _. apply visible_start.
  - by apply (close_done false).
  - by apply (close_done true).
  - unfold run_tx, map_err, enter_runtime, tx_done; simpl.
    destruct (execution_mode m) eqn:Hmode; eexists; (split; [done|]).
    + split_all; [split; [apply Hwf|done]|done..].
    + split_all; [done| |done]. unfold tx_of. by rewrite Hmode.
  - by apply exit_done.
Qed.

Lemma simulation_op m op :
  overlay_wf m →
  ∃ m' r, run_op op m = (m', r) ∧ spec_op op (snap_of m) = (snap_of m', r) ∧ overlay_wf m'.
Proof.
  intros Hwf. destruct op as [k v x|op]; cbn [run_op spec_op].
  - destruct (set_updates (E:=op_error) k v x m Hwf) as (m' & -> & Hu).
    do 2 eexists. split; [done|]. split; [|apply Hu]. unfold spec_write, snap_of; simpl.
    rewrite (snapshots_updates _ _ _ Hu). destruct Hu as (_ & Htx & _). by injection Htx as _ -> ->.
  - destruct (run_tx_done op m Hwf) as (m' & -> & Hwf' & Htx & Hv).
    do 2 eexists. split; [done|]. split; [|done].
    change (snap_of m) with (mkSnap (levels (tx_depth (tx_of m)) (visible m))
      (tx_client (tx_of m)) (tx_mode (tx_of m))).
    rewrite spec_tx_levels, <- Htx; simpl. unfold snap_of. do 2 f_equal.
    apply levels_ext. intros j Hj. symmetry. by apply Hv.
Qed.

Lemma simulation_ops ops m :
  overlay_wf m →
  snd (run_ops (run_op <$> ops) m) = snd (run_ops (spec_op <$> ops) (snap_of m)) ∧
  snap_of (fst (run_ops (run_op <$> ops) m)) = fst (run_ops (spec_op <$> ops) (snap_of m)) ∧
  overlay_wf (fst (run_ops (run_op <$> ops) m)).
Proof.
  revert m. induction ops as [|op ops IH]; intros m Hwf; [done|].
  destruct (simulation_op m op Hwf) as (m' & r & Hr & Hs & Hwf').
  rewrite !fmap_cons; cbn [run_ops]. rewrite Hr, Hs.
  destruct (IH m' Hwf') as (Hrs & Hi & Hw).
  destruct (run_ops (run_op <$> ops) m'), (run_ops (spec_op <$> ops) (snap_of m')); simpl in *.
  by subst.
Qed.

Lemma spec_tx_no_panic {A} op (s : snap_state A) : snd (spec_tx op s) ≠ Panic.
Proof. destruct op; simpl; repeat case_goal; done. Qed.

Lemma spec_never_panics ops s : Panic ∉ snd (run_ops (spec_op (K:=K) (V:=V) <$> ops) s).
Proof.
  revert s. induction ops as [|op ops IH]; intros s; [set_solver|].
  rewrite fmap_cons; cbn [run_ops]. destruct (spec_op op s) as [s' r] eqn:Hop.
  specialize (IH s'). destruct (run_ops (spec_op <$> ops) s') as [s'' rs]; simpl in *.
  apply not_elem_of_cons. split; [|done]. intros <-. destruct op as [|op]; [done|].
  apply (spec_tx_no_panic op s). simpl in Hop. by rewrite Hop.
Qed.

(** Reading through [get] and [value_ref] sees the topmost snapshot. *)
Lemma get_visible m k : (get m k ≫= value_ref) = visible m (transaction_depth m) !! k.
Proof.
  rewrite visible_lookup. unfold get. rewrite drop_ge by done. rewrite dirty_count_nil.
  destruct (changes m !! k) as [[ts]|]; simpl; [|done].
  unfold value_ref, version_at; simpl. by rewrite Nat.sub_0_r, firstn_all.
Qed.

Lemma snap_top_snapshots m : snap_top (snapshots m) = visible m (transaction_depth m).
Proof. unfold snap_top. by rewrite snapshots_snoc, last_snoc. Qed.

(** ** Undoing a transaction *)

Lemma extends_start m : extends m (start_transaction m).
Proof.
  exists ∅. split_all; [done..|]. intros k. by rewrite decide_False by set_solver.
Qed.

Lemma extends_written m m' k t :
  overlay_wf m → extends m m' → extends m (written m' k t).
Proof.
  intros [Hwf _] (d & Hds & Hn & Hm & Hc). exists ({[k]} ∪ d).
  assert (Hi : insert_dirty (dirty_keys m') k =
    (dirty_keys m ++ [{[k]} ∪ d], negb (bool_decide (k ∈ d)))).
  { unfold insert_dirty. by rewrite Hds, vec_pop_snoc. }
  split_all.
  1-3: unfold written; rewrite Hi; simpl; done.
  intros i. destruct (decide (i = k)) as [->|Hne].
  - rewrite decide_True by set_solver. rewrite written_lookup, Hi; simpl.
    specialize (Hc k). unfold kept_versions. destruct (decide (k ∈ d)).
    + destruct Hc as ([ts] & u & Hk' & Hk). rewrite bool_decide_eq_true_2 by done.
      rewrite Hk'; simpl. rewrite bool_decide_eq_false_2 by (by destruct ts).
      rewrite vec_pop_snoc; simpl. by exists (mkEntry ts), t.
    + rewrite bool_decide_eq_false_2 by done; simpl. rewrite Hc.
      specialize (Hwf k). unfold entry_ok in Hwf.
      destruct (changes m !! k) as [e|]; simpl; [exists e, t|exists OverlayedEntry_default, t];
        split; [done| |done|done].
      rewrite decide_False; [done|]. intros He. rewrite He in Hwf. simpl in Hwf. lia.
  - rewrite written_lookup_ne by done. specialize (Hc i).
    destruct (decide (i ∈ d)); [rewrite decide_True by set_solver|rewrite decide_False by set_solver];
      done.
Qed.

Lemma extends_rollback m m' ds d :
  extends m m' → dirty_keys m' = ds ++ [d] → closed true d (with_dirty m' ds) = m.
Proof.
  intros (d' & Hds' & Hn & Hm & Hc) Hds. rewrite Hds' in Hds. simplify_list_eq.
  apply overlay_eq; [|done..]. apply map_eq. intros k. rewrite closed_changes_lookup; simpl.
  specialize (Hc k). destruct (decide (k ∈ d)).
  - destruct Hc as ([ts] & t & -> & ->); simpl. unfold rolled_entry; simpl.
    rewrite vec_pop_snoc. by destruct ts.
  - rewrite Hc. by destruct (changes m !! k).
Qed.

Lemma write_all_extends {E} ws m m' :
  overlay_wf m → overlay_wf m' → extends m m' →
  ∃ m'', write_all (E:=E) ws m' = (m'', Ok tt) ∧ overlay_wf m'' ∧ extends m m''.
Proof.
  intros Hwf. revert m'. induction ws as [|[[k v] x] ws IH]; intros m' Hwf' Hext.
  - by exists m'.
  - unfold write_all; cbn [for_each].
    destruct (set_written (E:=E) k v x m') as (t & _ & ->).
    apply IH; [by apply written_wf|by apply extends_written].
Qed.
End lemmas.

(** * Change sets *)

(** How many of the entries still had a value. *)
Definition live_count (kvs : list (StorageKey * OverlayedValue)) : nat :=
  length (List.filter (λ kv, if value_ref kv.2 is Some (Some _) then true else false) kvs).

(** The view after the keys of [kvs] are deleted. *)
Definition clear_keys (kvs : list (StorageKey * OverlayedValue))
    (view : gmap StorageKey (option StorageValue)) : gmap StorageKey (option StorageValue) :=
  foldl (λ view kv, <[kv.1 := None]> view) view kvs.

(** The view after the keys that satisfy [p] are deleted. *)
Definition clear_view (p : StorageKey -> bool) (view : gmap StorageKey (option StorageValue))
    : gmap StorageKey (option StorageValue) :=
  map_imap (λ k v, Some (if p k then None else v)) view.

Section changeset_lemmas.
Implicit Types (m : OverlayedChangeSet) (k : StorageKey).

Lemma modify_written {E} k init x f m :
  overlay_wf m →
  ∃ t, value t = f (default (Some (init ())) (snap_top (snapshots m) !! k)) ∧
    modify (E:=E) k init x f m = (written m k t, Ok tt).
Proof.
  intros [Hwf _]. specialize (Hwf k). unfold entry_ok in Hwf.
  rewrite snap_top_snapshots, <- get_visible. unfold get, modify, written.
  destruct (insert_dirty (dirty_keys m) k) as [ds first] eqn:Hi.
  destruct (changes m !! k) as [[ts]|]; simpl.
  - destruct (snoc_cases ts) as [->|(ts' & u & ->)]; [simpl in Hwf; lia|].
    unfold value_ref; simpl. rewrite last_snoc; simpl.
    destruct first; simpl.
    + destruct (entry_set_spec (mkEntry (ts' ++ [u])) (value u) true x) as (t & Ht & ->); simpl.
      unfold value_mut; simpl. rewrite vec_update_last_snoc; simpl.
      eexists (mkInner _ _). split; [|reflexivity]. simpl. by rewrite Ht.
    + unfold value_mut, kept_versions; simpl. rewrite vec_update_last_snoc; simpl.
      rewrite bool_decide_eq_false_2 by (by destruct ts'). rewrite vec_pop_snoc; simpl.
      by eexists (mkInner _ _).
  - destruct (entry_set_spec OverlayedEntry_default (Some (init ())) first x) as (t & Ht & ->).
    simpl. unfold value_mut; simpl. rewrite vec_update_last_snoc; simpl.
    eexists (mkInner _ _). split; [|reflexivity]. simpl. by rewrite Ht.
Qed.

Lemma updates_refl m : overlay_wf m → updates (λ v, v) m m.
Proof. by intros. Qed.

Lemma updates_trans u1 u2 m1 m2 m3 :
  updates u1 m1 m2 → updates u2 m2 m3 → updates (λ v, u2 (u1 v)) m1 m3.
Proof.
  intros (Hwf2 & Hst2 & Hb2 & Ht2) (Hwf3 & Hst3 & Hb3 & Ht3).
  injection Hst2 as Hd2 ? ?. injection Hst3 as Hd3 ? ?. rewrite Hd2 in *.
  split; [done|]. unfold tx_of. split_all; [congruence| |].
  - intros j Hj. by rewrite Hb3, Hb2.
  - by rewrite Ht3, Ht2.
Qed.

Lemma clear_loop {E} x kvs m c :
  overlay_wf m → in_range 32 c → (∀ kv, kv ∈ kvs → is_Some (value_ref kv.2)) →
  ∃ m', for_each kvs (clear_one (E:=E) x) (m, c) =
      ((m', wrap 32 (c + Z.of_nat (live_count kvs))), Ok tt) ∧ updates (clear_keys kvs) m m'.
Proof.
  revert m c. induction kvs as [|[k e] kvs IH]; intros m c Hwf Hc Hv.
  - exists m. unfold live_count; simpl. rewrite Z.add_0_r, wrap_small by done.
    split; [done|]. by apply updates_refl.
  - destruct (Hv (k, e)) as [v Hve]; [set_solver|]. simpl in Hve.
    destruct (set_updates (E:=E) k None x m Hwf) as (m1 & Hset & Hu).
    cbn [for_each]. unfold clear_one at 1; simpl. rewrite Hve, Hset.
    destruct (IH m1 (if v is Some _ then wadd 32 c 1 else c)) as (m' & Hl & Hu');
      [apply Hu|destruct v; [apply wadd_in_range; lia|done]|set_solver|].
    exists m'. split; [|exact (updates_trans _ _ _ _ _ Hu Hu')].
    rewrite Hl. unfold live_count; simpl. rewrite Hve. destruct v; [|done].
    cbn [length]. by rewrite wrap_wadd_l, Nat2Z.inj_succ, <- Z.add_1_l, Z.add_assoc.
Qed.

Lemma clear_keys_lookup kvs view k :
  clear_keys kvs view !! k = if decide (k ∈ kvs.*1) then Some None else view !! k.
Proof.
  revert view. induction kvs as [|[i e] kvs IH]; intros view.
  - rewrite decide_False; [done|apply not_elem_of_nil].
  - unfold clear_keys; cbn [foldl fst]. change (clear_keys kvs (<[i := None]> view) !! k =
      if decide (k ∈ ((i, e) :: kvs).*1) then Some None else view !! k).
    rewrite IH. destruct (decide (k = i)) as [->|Hne].
    + rewrite lookup_insert_eq, (decide_True (P := i ∈ ((i, e) :: kvs).*1)) by set_solver.
      by case_decide.
    + rewrite lookup_insert_ne by done. repeat case_decide; set_solver.
Qed.

Lemma wf_value_ref m k e : overlay_wf m → changes m !! k = Some e → is_Some (value_ref e).
Proof.
  intros [Hwf _] Hk. specialize (Hwf k). unfold entry_ok in Hwf. rewrite Hk in Hwf.
  unfold value_ref. destruct (snoc_cases (transactions e)) as [Hts|(ts & t & Hts)];
    rewrite Hts in *; [simpl in Hwf; lia|]. rewrite last_snoc. by eexists.
Qed.

Lemma elem_of_list_filter_b {A} (p : A → bool) l x : x ∈ List.filter p l ↔ x ∈ l ∧ p x = true.
Proof. rewrite !list_elem_of_In. apply filter_In. Qed.

Lemma elem_of_matched p m k :
  k ∈ (List.filter (λ kv, p kv.1 kv.2) (map_to_list (changes m))).*1 ↔
    ∃ e, changes m !! k = Some e ∧ p k e = true.
Proof.
  rewrite list_elem_of_fmap. split.
  - intros ([k' e] & -> & Hin). apply elem_of_list_filter_b in Hin as [Hin Hp].
    apply elem_of_map_to_list in Hin. eauto.
  - intros (e & Hk & Hp). exists (k, e). split; [done|].
    apply elem_of_list_filter_b. by rewrite elem_of_map_to_list.
Qed.

Lemma clear_where_ok {E} (p : StorageKey → OverlayedValue → bool) x m :
  overlay_wf m →
  let kvs := List.filter (λ kv, p kv.1 kv.2) (map_to_list (changes m)) in
  ∃ m', clear_where (E:=E) p x m = (m', Ok (wrap 32 (Z.of_nat (live_count kvs)))) ∧
    updates (clear_keys kvs) m m'.
Proof.
  intros Hwf kvs.
  destruct (clear_loop (E:=E) x kvs m 0) as (m' & Hl & Hu); [done|done| |].
  { intros [k e] Hin. apply elem_of_list_filter_b in Hin as [Hin _].
    apply elem_of_map_to_list in Hin. eauto using wf_value_ref. }
  exists m'. split; [|done]. unfold clear_where. fold kvs. by rewrite Hl.
Qed.

(** When the predicate looks at the key alone. *)
Lemma clear_where_key_ok {E} (p : StorageKey → bool) x m :
  overlay_wf m →
  ∃ m' c, clear_where (E:=E) (λ k _, p k) x m = (m', Ok c) ∧ updates (clear_view p) m m'.
Proof.
  intros Hwf. destruct (clear_where_ok (E:=E) (λ k _, p k) x m Hwf) as (m' & Hc & Hu).
  exists m'. eexists. split; [exact Hc|]. destruct Hu as (Hwf' & Hst & Hb & Ht).
  split; [done|]. split_all; [done..|]. rewrite Ht. apply map_eq. intros k.
  rewrite clear_keys_lookup. unfold clear_view. rewrite map_lookup_imap, <- get_visible.
  unfold get. destruct (changes m !! k) as [e|] eqn:Hk; simpl.
  - destruct (wf_value_ref m k e Hwf Hk) as [v Hv]. rewrite Hv; simpl.
    destruct (p k) eqn:Hp; [rewrite decide_True|rewrite decide_False]; try done;
      rewrite (elem_of_matched (λ k _, p k)); naive_solver congruence.
  - rewrite decide_False; [done|]. rewrite (elem_of_matched (λ k _, p k)). naive_solver.
Qed.

Lemma key_ltb_irrefl k : key_ltb k k = false.
Proof. induction k as [|x k IH]; simpl; [done|]. by rewrite Z.ltb_irrefl, IH, andb_false_r. Qed.

#[export] Instance key_le_total : Total key_le.
Proof.
  unfold key_le. intros a. induction a as [|x a IH]; intros [|y b]; simpl; auto.
  destruct (IH b) as [Hb|Hb].
  - destruct (Z.lt_trichotomy x y) as [?|[->|?]].
    + left. destruct (Z.ltb_spec y x), (Z.eqb_spec y x); simpl; lia || done.
    + left. by rewrite Z.ltb_irrefl, Hb, andb_false_r.
    + right. destruct (Z.ltb_spec x y), (Z.eqb_spec x y); simpl; lia || done.
  - destruct (Z.lt_trichotomy x y) as [?|[->|?]].
    + left. destruct (Z.ltb_spec y x), (Z.eqb_spec y x); simpl; lia || done.
    + right. by rewrite Z.ltb_irrefl, Hb, andb_false_r.
    + right. destruct (Z.ltb_spec x y), (Z.eqb_spec x y); simpl; lia || done.
Qed.

Lemma changes_after_keys m key :
  (changes_after m key).*1 =
    merge_sort key_le (List.filter (key_ltb key) (elements (dom (changes m)))).
Proof.
  unfold changes_after. set (ks := merge_sort _ _).
  assert (Hks : ∀ k, k ∈ ks → is_Some (changes m !! k)).
  { intros k Hk. unfold ks in Hk. rewrite merge_sort_Permutation in Hk.
    apply elem_of_list_filter_b in Hk as [Hk _]. by apply elem_of_elements, elem_of_dom in Hk. }
  clearbody ks. induction ks as [|k ks IH]; [done|].
  destruct (Hks k) as [e He]; [set_solver|]. simpl. rewrite He; simpl. f_equal.
  apply IH. set_solver.
Qed.

Lemma elem_of_changes_after m key k e :
  (k, e) ∈ changes_after m key ↔ changes m !! k = Some e ∧ key_ltb key k = true.
Proof.
  unfold changes_after. rewrite list_elem_of_omap. setoid_rewrite merge_sort_Permutation.
  setoid_rewrite elem_of_list_filter_b. setoid_rewrite elem_of_elements.
  setoid_rewrite elem_of_dom. split.
  - intros (k' & [_ Hlt] & Hk). destruct (changes m !! k') eqn:Hc; naive_solver.
  - intros [Hk Hlt]. exists k. rewrite Hk. split; [split; [by eexists|done]|done].
Qed.
End changeset_lemmas.

(** * Properties *)

Section properties.
Context {K V : Type} `{Countable K}.
Implicit Types (m : OverlayedMap K V) (k : K).

(** [C3] Any sequence of writes, transaction
    operations and runtime entries and exits, run on any well-formed overlay,
    reports exactly the results of the snapshot stack, never panics, and ends in
    a well-formed overlay whose views are the stack's maps; reading a key
    yields the value of the topmost map. *)
Theorem overlay_implements_snapshots m ops :
  overlay_wf m →
  let '(m', rs) := run_ops (run_op <$> ops) m in
  let '(s', rs') := run_ops (spec_op <$> ops) (snap_of m) in
  rs = rs' ∧ (Panic ∉ rs) ∧ overlay_wf m' ∧ snap_of m' = s' ∧
  ∀ k, (get m' k ≫= value_ref) = snap_top (stack s') !! k.
Proof.
  intros Hwf. destruct (simulation_ops ops m Hwf) as (Hrs & Hs & Hwf').
  pose proof (spec_never_panics ops (snap_of m)) as Hp.
  destruct (run_ops (run_op <$> ops) m) as [m' rs].
  destruct (run_ops (spec_op <$> ops) (snap_of m)) as [s' rs']; simpl in *.
  subst rs' s'. split_all; try done.
  intros k. by rewrite get_visible, <- snap_top_snapshots.
Qed.

(** Opening a transaction, writing any keys in it
    and rolling it back yields the very overlay one started from: no version, no
    dirty mark and no empty entry stays behind. *)
Theorem rollback_restores_overlay m ws :
  overlay_wf m →
  ∃ m', write_all (E:=NoOpenTransaction) ws (start_transaction m) = (m', Ok tt) ∧
    rollback_transaction m' = (m, Ok tt).
Proof.
  intros Hwf.
  destruct (write_all_extends (E:=NoOpenTransaction) ws m (start_transaction m))
    as (m' & Hw & Hwf' & Hext); auto using start_transaction_wf, extends_start.
  exists m'. split; [done|]. pose proof Hext as (d & Hds & Hn & Hm & _).
  unfold rollback_transaction. rewrite (close_transaction_closed true m' (dirty_keys m) d); auto.
  - by rewrite (extends_rollback m m').
  - split; unfold transaction_depth; rewrite Hds, length_app; simpl; [lia|].
    rewrite Hn, Hm. intros Hrt. destruct Hwf as [_ Hle]. specialize (Hle Hrt).
    unfold transaction_depth in Hle. lia.
Qed.

(** The dirty keys of a transaction live in a hash set,
    whose iteration order is arbitrary: a commit or rollback gives the same
    result in whatever order the loop visits them. *)
Theorem close_order_irrelevant m rollback ds d ks :
  overlay_wf m → may_close m → dirty_keys m = ds ++ [d] → (ks ≡ₚ elements d) →
  close_keys rollback ks (with_dirty m ds) = close_transaction rollback m.
Proof.
  intros Hwf Hmay Hds Hks. rewrite (close_transaction_closed rollback m ds d) by done.
  rewrite close_keys_closed.
  - do 2 f_equal. rewrite <- (list_to_set_elements_L d). apply set_eq. intros k.
    by rewrite !elem_of_list_to_set, Hks.
  - rewrite Hks. apply NoDup_elements.
  - intros k Hk. rewrite Hks in Hk. apply elem_of_elements in Hk. eauto using wf_closable.
Qed.

(** Leaving the runtime with transactions still open
    discards what they wrote: the client sees exactly what it saw when it
    called into the runtime.  (The doc comment of [exit_runtime] says the
    dangling transactions are committed.) *)
Theorem exit_runtime_rolls_back m m1 ws :
  overlay_wf m → execution_mode m = Client →
  enter_runtime m = (m1, Ok tt) →
  ∃ m2 m3, write_all (E:=NotInRuntime) ws (start_transaction m1) = (m2, Ok tt) ∧
    exit_runtime m2 = (m3, Ok tt) ∧ snapshots m3 = snapshots m.
Proof.
  intros Hwf Hc Hin. unfold enter_runtime in Hin. rewrite Hc in Hin. injection Hin as <-.
  set (m1 := mkOverlay _ _ _ _).
  assert (Hwf1 : overlay_wf m1) by (split; [apply Hwf|done]).
  destruct (write_all_extends (E:=NotInRuntime) ws m1 (start_transaction m1))
    as (m2 & Hw & Hwf2 & Hext); auto using start_transaction_wf, extends_start.
  pose proof Hext as (d & Hds & Hn & Hm & _).
  destruct (exit_runtime_ok m2 Hwf2) as (m3 & Hx & _ & Hs & _); [by rewrite Hm|].
  exists m2, m3. split_all; [done..|].
  assert (Hmay : may_close m2)
    by (split; [unfold transaction_depth; rewrite Hds, length_app; simpl; lia|];
        intros _; rewrite Hn; unfold transaction_depth; rewrite Hds, length_app; simpl;
        unfold transaction_depth; lia).
  rewrite Hs, Hn. transitivity (snapshots m1); [|done].
  rewrite <- (extends_rollback m1 m2 (dirty_keys m1) d) by done.
  rewrite snapshots_rollback, snap_rollback_take, length_snapshots by done. f_equal.
  unfold transaction_depth. rewrite Hds, length_app; simpl.
  rewrite Hn; simpl. unfold transaction_depth. lia.
Qed.

Lemma entry_extrinsics_list (e : OverlayedEntry V) :
  entry_extrinsics e = list_to_set (concat (extrinsics <$> transactions e)).
Proof.
  destruct e as [ts]. unfold entry_extrinsics; simpl.
  assert (Hf : ∀ s : gset Z, foldl (λ set t, Extrinsics_copy_extrinsics_into (extrinsics t) set) s ts =
    s ∪ list_to_set (concat (extrinsics <$> ts))).
  { induction ts as [|t ts IH]; intros s; simpl; [set_solver|].
    rewrite IH. unfold Extrinsics_copy_extrinsics_into. rewrite list_to_set_app_L. set_solver. }
  rewrite Hf. set_solver.
Qed.

(** A commit merges versions without forgetting which
    extrinsics changed a key. *)
Theorem commit_keeps_extrinsics m m' k :
  overlay_wf m → commit_transaction m = (m', Ok tt) →
  entry_extrinsics <$> changes m' !! k = entry_extrinsics <$> changes m !! k.
Proof.
  intros Hwf Hc. unfold commit_transaction in Hc.
  destruct (decide (may_close m)) as [Hmay|Hno];
    [|rewrite close_transaction_refused in Hc by done; done].
  destruct (may_close_snoc m Hmay) as (ds & d & Hds).
  rewrite (close_transaction_closed false m ds d) in Hc by done. injection Hc as <-.
  rewrite closed_changes_lookup; simpl.
  destruct (changes m !! k) as [e|] eqn:Hk; simpl; [|done].
  case_decide as Hd; [|done].
  destruct (wf_closable false m ds d k Hwf Hds Hd) as (e' & He' & Hlen). simpl in He'.
  rewrite Hk in He'; injection He' as <-. case_match eqn:Hp; [|done].
  destruct (merged_is_Some e) as [e' He]; [done|]. rewrite He; simpl.
  destruct e as [ts]. unfold merged_entry in He; simpl in He.
  destruct (snoc_cases ts) as [->|(ts' & t & ->)]; [done|]. rewrite vec_pop_snoc in He; simpl in He.
  destruct (snoc_cases ts') as [->|(us & u & ->)]; [done|]. rewrite vec_pop_snoc in He; simpl in He.
  injection He as <-. f_equal. rewrite !entry_extrinsics_list; simpl.
  rewrite !fmap_app, !concat_app; simpl. unfold Extrinsics_extend.
  by rewrite !app_nil_r, app_assoc.
Qed.

End properties.

(** [modify] shows its caller the current value of the key, or
    the initial one when the overlay has none, and what the caller writes
    through the reference becomes the value in the innermost transaction only. *)
Theorem modify_refines (m : OverlayedChangeSet) key init x f :
  overlay_wf m →
  ∃ m', modify (E:=NoOpenTransaction) key init x f m = (m', Ok tt) ∧ overlay_wf m' ∧
    snapshots m' =
      snap_set key (f (default (Some (init ())) (snap_top (snapshots m) !! key))) (snapshots m).
Proof.
  intros Hwf. destruct (modify_written (E:=NoOpenTransaction) key init x f m Hwf)
    as (t & Ht & Hm).
  exists (written m key t). rewrite Hm, <- Ht. auto using written_wf, snapshots_written.
Qed.

(** [clear_where] deletes exactly the matched keys, in the
    innermost transaction only, and returns how many of them had a value, as a
    [u32]. *)
Theorem clear_where_refines (m : OverlayedChangeSet) p x :
  overlay_wf m →
  ∃ m', clear_where (E:=NoOpenTransaction) p x m =
      (m', Ok (wrap 32 (Z.of_nat
        (live_count (List.filter (λ kv, p kv.1 kv.2) (map_to_list (changes m))))))) ∧
    overlay_wf m' ∧ snap_rollback (snapshots m') = snap_rollback (snapshots m) ∧
    ∀ k, snap_top (snapshots m') !! k =
      match changes m !! k with
      | Some e => if p k e then Some None else value_ref e
      | None => None
      end.
Proof.
  intros Hwf. destruct (clear_where_ok (E:=NoOpenTransaction) p x m Hwf) as (m' & Hc & Hu).
  exists m'. split; [done|]. split; [apply Hu|].
  rewrite (snapshots_updates _ _ _ Hu), (snapshots_snoc m).
  unfold snap_update, snap_rollback, snap_top.
  rewrite vec_update_last_snoc; simpl. rewrite !vec_pop_snoc, last_snoc. split; [done|].
  intros k; simpl. rewrite clear_keys_lookup, <- get_visible. unfold get.
  destruct (changes m !! k) as [e|] eqn:He; simpl.
  - destruct (p k e) eqn:Hp; [rewrite decide_True|rewrite decide_False]; try done;
      rewrite elem_of_matched; naive_solver congruence.
  - rewrite decide_False; [done|]. rewrite elem_of_matched. naive_solver.
Qed.

(** [changes_after] enumerates exactly the entries whose
    key follows the given one, once each and in ascending byte order. *)
Theorem changes_after_sorted (m : OverlayedChangeSet) key :
  Sorted key_le (changes_after m key).*1 ∧ NoDup (changes_after m key).*1 ∧
  ∀ k e, (k, e) ∈ changes_after m key ↔ changes m !! k = Some e ∧ key_ltb key k = true.
Proof.
  rewrite changes_after_keys. split_all.
  - apply Sorted_merge_sort, _.
  - rewrite merge_sort_Permutation. apply NoDup_ListNoDup, List.NoDup_filter, NoDup_ListNoDup.
    apply NoDup_elements.
  - apply elem_of_changes_after.
Qed.

(** * Witnesses *)

(** An overlay with one committed value and one open transaction. *)
Definition demo_overlay : OverlayedMap Z Z :=
  written (start_transaction (written OverlayedMap_default 1%Z (mkInner 10%Z []))) 1%Z
    (mkInner 11%Z []).

Lemma demo_overlay_wf : overlay_wf demo_overlay.
Proof. apply written_wf, start_transaction_wf, written_wf, overlay_wf_default. Qed.

Definition demo_ops : list (overlay_op Z Z) :=
  [OpSet 2%Z 20%Z None; OpTx TxEnterRuntime; OpTx TxRollback; OpTx TxStart;
   OpSet 1%Z 12%Z None; OpTx TxExitRuntime; OpTx TxCommit].

Lemma overlay_implements_snapshots_witness :
  snd (run_ops (run_op <$> demo_ops) demo_overlay) =
    [Ok tt; Ok tt; Err ENoOpenTransaction; Ok tt; Ok tt; Ok tt; Ok tt] ∧
  (get (fst (run_ops (run_op <$> demo_ops) demo_overlay)) 1%Z ≫= value_ref) = Some 11%Z ∧
  overlay_wf (fst (run_ops (run_op <$> demo_ops) demo_overlay)).
Proof.
  split; [vm_compute; reflexivity|]. split; [vm_compute; reflexivity|].
  pose proof (overlay_implements_snapshots demo_overlay demo_ops demo_overlay_wf) as Hr.
  destruct (run_ops (run_op <$> demo_ops) demo_overlay).
  destruct (run_ops (spec_op <$> demo_ops) _) in Hr. apply Hr.
Defined.

Lemma rollback_restores_overlay_witness :
  ∃ m', write_all (E:=NoOpenTransaction) [(1%Z, 5%Z, None); (7%Z, 8%Z, Some 3%Z)]
      (start_transaction demo_overlay) = (m', Ok tt) ∧
    rollback_transaction m' = (demo_overlay, Ok tt).
Proof. exact (rollback_restores_overlay demo_overlay _ demo_overlay_wf). Defined.

Lemma close_order_irrelevant_witness :
  close_keys true [1%Z] (with_dirty demo_overlay []) = close_transaction true demo_overlay.
Proof.
  apply (close_order_irrelevant demo_overlay true [] {[1%Z]} [1%Z]).
  - exact demo_overlay_wf.
  - split; [vm_compute; lia|discriminate].
  - vm_compute. reflexivity.
  - by rewrite elements_singleton.
Defined.

Lemma exit_runtime_rolls_back_witness :
  ∃ m2 m3, write_all (E:=NotInRuntime) [(1%Z, 99%Z, None)]
      (start_transaction (fst (enter_runtime demo_overlay))) = (m2, Ok tt) ∧
    exit_runtime m2 = (m3, Ok tt) ∧ snapshots m3 = snapshots demo_overlay.
Proof.
  apply (exit_runtime_rolls_back demo_overlay); [exact demo_overlay_wf|reflexivity|].
  vm_compute. reflexivity.
Defined.

Lemma commit_keeps_extrinsics_witness :
  entry_extrinsics <$> changes (fst (commit_transaction demo_overlay)) !! 1%Z =
  entry_extrinsics <$> changes demo_overlay !! 1%Z.
Proof.
  apply commit_keeps_extrinsics; [exact demo_overlay_wf|]. vm_compute. reflexivity.
Defined.

(** A change set with a deleted and a live key. *)
Definition demo_changeset : OverlayedChangeSet :=
  written (written OverlayedMap_default [1%Z] (mkInner None [])) [1%Z; 2%Z]
    (mkInner (Some [7%Z]) []).

Lemma demo_changeset_wf : overlay_wf demo_changeset.
Proof. apply written_wf, written_wf, overlay_wf_default. Qed.

Lemma modify_refines_witness :
  ∃ m', modify (E:=NoOpenTransaction) [3%Z] (λ _, [0%Z]) None (λ v, v) demo_changeset = (m', Ok tt) ∧
    overlay_wf m' ∧ snapshots m' =
      snap_set [3%Z] (default (Some [0%Z]) (snap_top (snapshots demo_changeset) !! [3%Z]))
        (snapshots demo_changeset).
Proof.
  exact (modify_refines demo_changeset [3%Z] (λ _, [0%Z]) None (λ v, v) demo_changeset_wf).
Defined.

Lemma clear_where_refines_witness :
  ∃ m', clear_where (E:=NoOpenTransaction) (λ _ _, true) None demo_changeset = (m', Ok 1%Z) ∧
    ∀ k, snap_top (snapshots m') !! k = (λ _, None) <$> changes demo_changeset !! k.
Proof.
  destruct (clear_where_refines demo_changeset (λ _ _, true) None demo_changeset_wf)
    as (m' & Hm & _ & _ & Hk).
  exists m'. split; [rewrite Hm; vm_compute; reflexivity|].
  intros k. rewrite Hk. destruct (changes demo_changeset !! k); reflexivity.
Defined.
