(* ===== verification/Overlay.v ===== *)
(** The overlay the runtime executes on: top storage, child storages and
    offchain changes moving through nested transactions in lockstep
    (primitives/state-machine/src/overlayed_changes/mod.rs and offchain.rs).

    Every [expect] of mod.rs rests on the three kinds of change set being at the
    same transaction depth and in the same mode; [lockstep] states that
    invariant, and the theorems show that all operations keep it, that the
    whole overlay refines a stack of storage views, and when the cached storage
    root is the root of what the overlay shows. *)

From stdpp Require Import base numbers list option gmap sets fin_maps sorting.
From S2P Require Import Prelude Changeset.

Local Open Scope rust_scope.

(** * Data *)

(** [ChildInfo::ParentKeyId(ChildTrieParentKeyId { data })]: data is the storage
    key without prefix. *)
Inductive ChildInfo := ParentKeyId (data : StorageKey).

Definition storage_key (c : ChildInfo) : StorageKey :=
  match c with ParentKeyId data => data end.

(** [:child_storage:default:] *)
Definition DEFAULT_CHILD_STORAGE_KEY_PREFIX : StorageKey :=
  [58; 99; 104; 105; 108; 100; 95; 115; 116; 111; 114; 97; 103; 101; 58;
   100; 101; 102; 97; 117; 108; 116; 58]%Z.

Definition prefixed_storage_key (c : ChildInfo) : StorageKey :=
  DEFAULT_CHILD_STORAGE_KEY_PREFIX ++ storage_key c.

(** [:extrinsic_index] *)
Definition EXTRINSIC_INDEX : StorageKey :=
  [58; 101; 120; 116; 114; 105; 110; 115; 105; 99; 95; 105; 110; 100; 101; 120]%Z.

(** The [STORAGE_PREFIX] of the offchain database, [storage]. *)
Definition STORAGE_PREFIX : StorageKey := [115; 116; 111; 114; 97; 103; 101]%Z.

Definition NO_EXTRINSIC_INDEX : Z := 4294967295.

Inductive StateVersion := V0 | V1.

#[export] Instance StateVersion_eq_dec : EqDecision StateVersion.
Proof. solve_decision. Defined.

Inductive OffchainOverlayedChange := Remove | SetValue (v : StorageValue).

Inductive IndexOperation :=
| IndexInsert (extrinsic : Z) (hash : list Z) (size : Z)
| IndexRenew (extrinsic : Z) (hash : list Z).

(** The counters of [StateMachineStats]; each is a [RefCell<u64>]. *)
Record StateMachineStats := mkStats {
  reads_modified : Z;
  bytes_read_modified : Z;
  writes_overlay : Z;
  bytes_writes_overlay : Z;
}.

Definition StateMachineStats_default : StateMachineStats := mkStats 0 0 0 0.

Definition tally_read_modified (data_bytes : Z) (s : StateMachineStats) : StateMachineStats :=
  mkStats (wadd 64 (reads_modified s) 1) (wadd 64 (bytes_read_modified s) data_bytes)
    (writes_overlay s) (bytes_writes_overlay s).

Definition tally_write_overlay (data_bytes : Z) (s : StateMachineStats) : StateMachineStats :=
  mkStats (reads_modified s) (bytes_read_modified s)
    (wadd 64 (writes_overlay s) 1) (wadd 64 (bytes_writes_overlay s) data_bytes).

Definition value_size (v : option StorageValue) : Z :=
  match v with Some v => Z.of_nat (length v) | None => 0%Z end.

Abbreviation OffchainMap :=
  (OverlayedMap (StorageKey * StorageKey) OffchainOverlayedChange).

Abbreviation Delta := (list (StorageKey * option StorageValue)).

(** What the overlay uses of a state backend: the trie computations and the
    codec are not part of this file. *)
Record Backend (Root Tx BErr : Type) := mkBackend {
  be_storage : StorageKey -> res BErr (option StorageValue);
  be_storage_root : Delta -> StateVersion -> Root * Tx;
  be_child_storage_root : ChildInfo -> Delta -> StateVersion -> Root * bool * Tx;
  tx_default : Tx;
  tx_consolidate : Tx -> Tx -> Tx;
  root_encode : Root -> list Z;
  root_decode : list Z -> option Root;
  empty_child_trie_root : Root;
}.
Arguments mkBackend {Root Tx BErr} _ _ _ _ _ _ _ _.
Arguments be_storage {Root Tx BErr} _ _.
Arguments be_storage_root {Root Tx BErr} _ _ _.
Arguments be_child_storage_root {Root Tx BErr} _ _ _ _.
Arguments tx_default {Root Tx BErr} _.
Arguments tx_consolidate {Root Tx BErr} _ _ _.
Arguments root_encode {Root Tx BErr} _ _.
Arguments root_decode {Root Tx BErr} _ _.
Arguments empty_child_trie_root {Root Tx BErr} _.

(** [Backend::full_storage_root], the default method: child roots first, then
    the top trie with the child roots appended to its delta. *)
Definition full_storage_root {Root Tx BErr} (b : Backend Root Tx BErr) (delta : Delta)
    (child_deltas : list (ChildInfo * Delta)) (sv : StateVersion) : Root * Tx :=
  let '(txs, child_roots) :=
    foldl (λ '(txs, roots) '(info, child_delta),
      let '(child_root, empty, child_txs) := be_child_storage_root b info child_delta sv in
      (tx_consolidate b txs child_txs,
       roots ++ [(prefixed_storage_key info,
                  if empty : bool then None else Some (root_encode b child_root))]))
      (tx_default b, []) child_deltas in
  let '(root, parent_txs) := be_storage_root b (delta ++ child_roots) sv in
  (root, tx_consolidate b txs parent_txs).

Record OverlayedChanges (Root Tx : Type) := mkChanges {
  top : OverlayedChangeSet;
  children : gmap StorageKey (OverlayedChangeSet * ChildInfo);
  offchain : OffchainMap;
  transaction_index_ops : list IndexOperation;
  collect_extrinsics : bool;
  stats : StateMachineStats;
  storage_transaction_cache : option (Tx * Root);
}.
Arguments mkChanges {Root Tx} _ _ _ _ _ _ _.
Arguments top {Root Tx} _.
Arguments children {Root Tx} _.
Arguments offchain {Root Tx} _.
Arguments transaction_index_ops {Root Tx} _.
Arguments collect_extrinsics {Root Tx} _.
Arguments stats {Root Tx} _.
Arguments storage_transaction_cache {Root Tx} _.

Record StorageChanges (Root Tx : Type) := mkStorageChanges {
  main_storage_changes : gmap StorageKey (option StorageValue);
  child_storage_changes : gmap StorageKey (gmap StorageKey (option StorageValue));
  offchain_storage_changes : gmap (StorageKey * StorageKey) OffchainOverlayedChange;
  transaction : Tx;
  transaction_storage_root : Root;
  transaction_index_changes : list IndexOperation;
}.
Arguments mkStorageChanges {Root Tx} _ _ _ _ _ _.
Arguments main_storage_changes {Root Tx} _.
Arguments child_storage_changes {Root Tx} _.
Arguments offchain_storage_changes {Root Tx} _.
Arguments transaction {Root Tx} _.
Arguments transaction_storage_root {Root Tx} _.
Arguments transaction_index_changes {Root Tx} _.

(** * Helpers of the standard library the file uses *)

(** Iterating a [BTreeMap]: the entries in key order. *)
Definition changes_list (m : OverlayedChangeSet) : list (StorageKey * OverlayedValue) :=
  omap (λ k, (k,.) <$> changes m !! k) (merge_sort key_le (elements (dom (changes m)))).

(** [changes().map(|(k, v)| (k, v.value()))]; [None] when [value] panics. *)
Definition changes_delta (m : OverlayedChangeSet) : option Delta :=
  mapM (λ kv, v ← entry_value kv.2; Some (kv.1, v)) (changes_list m).

Fixpoint starts_with (key prefix : StorageKey) : bool :=
  match prefix, key with
  | [], _ => true
  | _ :: _, [] => false
  | p :: prefix', k :: key' => (k =? p)%Z && starts_with key' prefix'
  end.

(** Runs a method on a change set where the caller [expect]s success. *)
Definition expect_ok {S E} (c : M S E unit) (s : S) : option S :=
  match c s with (s', Ok _) => Some s' | _ => None end.

(** [for (_, (changeset, _)) in children.iter_mut()] with an [expect] in the
    body; the children are independent, so the order does not matter. *)
Definition for_children (f : OverlayedChangeSet -> option OverlayedChangeSet)
    (cs : gmap StorageKey (OverlayedChangeSet * ChildInfo))
    : option (gmap StorageKey (OverlayedChangeSet * ChildInfo)) :=
  if decide (map_Forall (λ _ c, is_Some (f c.1)) cs)
  then Some (omap (λ c, (λ cs, (cs, c.2)) <$> f c.1) cs)
  else None.

(** [retain_map] as used by [rollback_transaction]. *)
Definition retain_nonempty (cs : gmap StorageKey (OverlayedChangeSet * ChildInfo))
    : gmap StorageKey (OverlayedChangeSet * ChildInfo) :=
  filter (λ kc, is_empty kc.2.1 = false) cs.

(** * The overlay *)

Section overlayed_changes.
Context {Root Tx : Type}.
Implicit Types (o : OverlayedChanges Root Tx).

(** The SCALE decoding of a [u32] ([Decode::decode(..).ok()]). *)
Variable decode_u32 : list Z -> option Z.

Definition with_top o t : OverlayedChanges Root Tx :=
  mkChanges t (children o) (offchain o) (transaction_index_ops o) (collect_extrinsics o)
    (stats o) (storage_transaction_cache o).
Definition with_children o cs : OverlayedChanges Root Tx :=
  mkChanges (top o) cs (offchain o) (transaction_index_ops o) (collect_extrinsics o)
    (stats o) (storage_transaction_cache o).
Definition with_offchain o off : OverlayedChanges Root Tx :=
  mkChanges (top o) (children o) off (transaction_index_ops o) (collect_extrinsics o)
    (stats o) (storage_transaction_cache o).
Definition with_stats o st : OverlayedChanges Root Tx :=
  mkChanges (top o) (children o) (offchain o) (transaction_index_ops o) (collect_extrinsics o)
    st (storage_transaction_cache o).
Definition with_cache o (c : option (Tx * Root)) : OverlayedChanges Root Tx :=
  mkChanges (top o) (children o) (offchain o) (transaction_index_ops o) (collect_extrinsics o)
    (stats o) c.

Definition OverlayedChanges_default : OverlayedChanges Root Tx :=
  mkChanges OverlayedMap_default ∅ OverlayedMap_default [] false StateMachineStats_default None.

Definition changes_is_empty o : bool := is_empty (top o) && bool_decide (children o = ∅).

Definition set_collect_extrinsics (b : bool) o : OverlayedChanges Root Tx :=
  mkChanges (top o) (children o) (offchain o) (transaction_index_ops o) b (stats o)
    (storage_transaction_cache o).

Definition mark_dirty o : OverlayedChanges Root Tx := with_cache o None.

(** [storage]: [None] when the overlay does not know the key, [Some None] when it
    was deleted.  A hit is tallied in the stats. *)
Definition storage {E} (key : StorageKey)
    : M (OverlayedChanges Root Tx) E (option (option StorageValue)) := λ o,
  match get (top o) key with
  | None => (o, Ok None)
  | Some e =>
      match entry_value e with
      | None => (o, Panic)
      | Some v => (with_stats o (tally_read_modified (value_size v) (stats o)), Ok (Some v))
      end
  end.

Definition child_storage {E} (child_info : ChildInfo) (key : StorageKey)
    : M (OverlayedChanges Root Tx) E (option (option StorageValue)) := λ o,
  match (c ← children o !! storage_key child_info; get c.1 key) with
  | None => (o, Ok None)
  | Some e =>
      match entry_value e with
      | None => (o, Panic)
      | Some v => (with_stats o (tally_read_modified (value_size v) (stats o)), Ok (Some v))
      end
  end.

Definition extrinsic_index {E} : M (OverlayedChanges Root Tx) E (option Z) := λ o,
  if collect_extrinsics o then
    match storage (E:=E) EXTRINSIC_INDEX o with
    | (o', Ok r) =>
        (o', Ok (Some (default NO_EXTRINSIC_INDEX (idx ← r; idx ← idx; decode_u32 idx))))
    | (o', Err e) => (o', Err e)
    | (o', Panic) => (o', Panic)
    end
  else (o, Ok None).

(** Runs a change-set method on [top]. *)
Definition on_top {E A} (c : M OverlayedChangeSet E A) : M (OverlayedChanges Root Tx) E A := λ o,
  let '(t, r) := c (top o) in (with_top o t, r).

Definition value_mut_or_insert_with {E : Type} (key : StorageKey) (init : unit -> StorageValue)
    (f : StorageValue -> StorageValue) : M (OverlayedChanges Root Tx) E unit :=
  modifyM mark_dirty;;;
  let* idx := extrinsic_index in
  on_top (modify key init idx (λ v, Some (f (default [] v)))).

Definition set_storage {E : Type} (key : StorageKey) (val : option StorageValue)
    : M (OverlayedChanges Root Tx) E unit :=
  modifyM mark_dirty;;;
  modifyM (λ o, with_stats o (tally_write_overlay (value_size val) (stats o)));;;
  let* idx := extrinsic_index in
  on_top (set key val idx).

(** [children.entry(storage_key).or_insert_with(|| (top.spawn_child(), ..))],
    then the method [c] on the child's change set. *)
Definition on_child {E A} (child_info : ChildInfo) (c : M OverlayedChangeSet E A)
    : M (OverlayedChanges Root Tx) E A := λ o,
  let '(cs, info) :=
    default (spawn_child (top o), child_info) (children o !! storage_key child_info) in
  let '(cs', r) := c cs in
  (with_children o (<[storage_key child_info := (cs', info)]> (children o)), r).

Definition set_child_storage {E} (child_info : ChildInfo) (key : StorageKey)
    (val : option StorageValue) : M (OverlayedChanges Root Tx) E unit :=
  modifyM mark_dirty;;;
  let* idx := extrinsic_index in
  modifyM (λ o, with_stats o (tally_write_overlay (value_size val) (stats o)));;;
  on_child child_info (set key val idx).

Definition clear_child_storage {E} (child_info : ChildInfo)
    : M (OverlayedChanges Root Tx) E Z :=
  modifyM mark_dirty;;;
  let* idx := extrinsic_index in
  on_child child_info (clear_where (λ _ _, true) idx).

Definition clear_prefix {E} (prefix : StorageKey) : M (OverlayedChanges Root Tx) E Z :=
  modifyM mark_dirty;;;
  let* idx := extrinsic_index in
  on_top (clear_where (λ key _, starts_with key prefix) idx).

Definition clear_child_prefix {E} (child_info : ChildInfo) (prefix : StorageKey)
    : M (OverlayedChanges Root Tx) E Z :=
  modifyM mark_dirty;;;
  let* idx := extrinsic_index in
  on_child child_info (clear_where (λ key _, starts_with key prefix) idx).

Definition changes_depth o : nat := transaction_depth (top o).

Definition changes_start_transaction o : OverlayedChanges Root Tx :=
  mkChanges (start_transaction (top o))
    ((λ c, (start_transaction c.1, c.2)) <$> children o)
    (start_transaction (offchain o)) (transaction_index_ops o) (collect_extrinsics o) (stats o)
    (storage_transaction_cache o).

(** The shared shape of [rollback_transaction], [commit_transaction],
    [enter_runtime] and [exit_runtime]: the top change set first, with [?]; then
    every child and the offchain overlay, with [expect]. *)
Definition lockstep_call {E} (ct : M OverlayedChangeSet E unit) (co : M OffchainMap E unit)
    (keep : gmap StorageKey (OverlayedChangeSet * ChildInfo) ->
            gmap StorageKey (OverlayedChangeSet * ChildInfo))
    : M (OverlayedChanges Root Tx) E unit := λ o,
  match ct (top o) with
  | (t, Ok _) =>
      match for_children (expect_ok ct) (children o), expect_ok co (offchain o) with
      | Some cs, Some off => (with_offchain (with_children (with_top o t) (keep cs)) off, Ok tt)
      | _, _ => (with_top o t, Panic)
      end
  | (t, Err e) => (with_top o t, Err e)
  | (t, Panic) => (with_top o t, Panic)
  end.

Definition changes_rollback_transaction : M (OverlayedChanges Root Tx) NoOpenTransaction unit :=
  modifyM mark_dirty;;;
  lockstep_call rollback_transaction rollback_transaction retain_nonempty.

Definition changes_commit_transaction : M (OverlayedChanges Root Tx) NoOpenTransaction unit :=
  lockstep_call commit_transaction commit_transaction (λ cs, cs).

Definition changes_enter_runtime : M (OverlayedChanges Root Tx) AlreadyInRuntime unit :=
  lockstep_call enter_runtime enter_runtime (λ cs, cs).

Definition changes_exit_runtime : M (OverlayedChanges Root Tx) NotInRuntime unit :=
  lockstep_call exit_runtime exit_runtime (λ cs, cs).

(** [OffchainOverlayedChanges]: [set], [remove], [get], [into_iter] and [drain]. *)
Definition offchain_set {E : Type} (prefix key value : list Z) : M OffchainMap E unit :=
  set (prefix, key) (SetValue value) None.

Definition offchain_remove {E : Type} (prefix key : list Z) : M OffchainMap E unit :=
  set (prefix, key) Remove None.

(** [None] outside is the panic of [value_ref]. *)
Definition offchain_get (prefix key : list Z) (off : OffchainMap)
    : option (option OffchainOverlayedChange) :=
  match get off (prefix, key) with
  | Some e => Some <$> value_ref e
  | None => Some None
  end.

Definition offchain_into_iter {E : Type} (off : OffchainMap)
    : res E (gmap (StorageKey * StorageKey) OffchainOverlayedChange) :=
  map_values into_value (changes off).

Definition offchain_drain {E : Type}
    : M OffchainMap E (gmap (StorageKey * StorageKey) OffchainOverlayedChange) := λ off,
  (OverlayedMap_default, offchain_into_iter off).

(** Runs a method on the offchain overlay. *)
Definition on_offchain {E A : Type} (c : M OffchainMap E A) : M (OverlayedChanges Root Tx) E A := λ o,
  let '(off, r) := c (offchain o) in (with_offchain o off, r).

Definition set_offchain_storage {E} (key : StorageKey) (val : option StorageValue)
    : M (OverlayedChanges Root Tx) E unit :=
  match val with
  | Some value => on_offchain (offchain_set STORAGE_PREFIX key value)
  | None => on_offchain (offchain_remove STORAGE_PREFIX key)
  end.

Definition add_transaction_index (op : IndexOperation) o : OverlayedChanges Root Tx :=
  mkChanges (top o) (children o) (offchain o) (transaction_index_ops o ++ [op])
    (collect_extrinsics o) (stats o) (storage_transaction_cache o).

Definition offchain_drain_committed {E : Type}
    : M (OverlayedChanges Root Tx) E (gmap (StorageKey * StorageKey) OffchainOverlayedChange) :=
  on_offchain offchain_drain.

Definition iter_after o (key : StorageKey) : list (StorageKey * OverlayedValue) :=
  changes_after (top o) key.

Definition child_iter_after o (sk key : StorageKey) : list (StorageKey * OverlayedValue) :=
  match children o !! sk with
  | Some (overlay, _) => changes_after overlay key
  | None => []
  end.

(** ** Storage roots *)

Context {BErr : Type} (backend : Backend Root Tx BErr).

(** [children.values()] of a hash map: an order that depends on the keys alone. *)
Definition children_values o : list (OverlayedChangeSet * ChildInfo) :=
  omap (children o !!.) (elements (dom (children o))).

(** The deltas [storage_root] hands to the backend; [None] when [value] panics. *)
Definition child_deltas o : option (list (ChildInfo * Delta)) :=
  mapM (λ c, d ← changes_delta c.1; Some (c.2, d)) (children_values o).

(** The root and the backend transaction of what the overlay shows. *)
Definition compute_root o (sv : StateVersion) : option (Root * Tx) :=
  delta ← changes_delta (top o);
  deltas ← child_deltas o;
  Some (full_storage_root backend delta deltas sv).

Definition storage_root {E} (sv : StateVersion) : M (OverlayedChanges Root Tx) E (Root * bool) := λ o,
  match storage_transaction_cache o with
  | Some (_, root) => (o, Ok (root, true))
  | None =>
      match compute_root o sv with
      | Some (root, tx) => (with_cache o (Some (tx, root)), Ok (root, false))
      | None => (o, Panic)
      end
  end.

Definition child_storage_root (child_info : ChildInfo) (sv : StateVersion)
    : M (OverlayedChanges Root Tx) BErr (Root * bool) := λ o,
  let prefixed := prefixed_storage_key child_info in
  match storage_transaction_cache o with
  | Some _ =>
      (let* v := storage prefixed in
       let* v := match v with
                 | Some v => retM v
                 | None => liftM (be_storage backend prefixed)
                 end in
       retM (default (empty_child_trie_root backend) (k ← v; root_decode backend k), true)) o
  | None =>
      match children o !! storage_key child_info with
      | Some (changes, info) =>
          match changes_delta changes with
          | None => (o, Panic)
          | Some delta =>
              let '(root, is_empty, _) := be_child_storage_root backend info delta sv in
              (set_storage prefixed
                 (if is_empty : bool then None else Some (root_encode backend root));;;
               modifyM mark_dirty;;;
               retM (root, false)) o
          end
      | None =>
          (let* v := liftM (be_storage backend prefixed) in
           retM (default (empty_child_trie_root backend) (k ← v; root_decode backend k), false)) o
      end
  end.

(** [drain_storage_changes]: the committed changes with the transaction that
    applies them, leaving an empty overlay in place. *)
Definition drain_storage_changes {E} (sv : StateVersion)
    : M (OverlayedChanges Root Tx) E (StorageChanges Root Tx) :=
  let* o := getM in
  match storage_transaction_cache o with
  | Some _ => retM tt
  | None => let* _ := storage_root sv in retM tt
  end;;;
  let* o := getM in
  let* cache := liftM (expect (storage_transaction_cache o)) in
  modifyM (λ o, with_cache o None);;;
  let* main := liftM (drain_commited (top o)) in
  modifyM (λ o, with_top o OverlayedMap_default);;;
  modifyM (λ o, with_children o ∅);;;
  let* child :=
    liftM (map_values (λ c, match drain_commited (E:=E) c.1 with Ok m => Some m | _ => None end)
             (children o)) in
  let* off := offchain_drain_committed in
  modifyM (λ o, mkChanges (top o) (children o) (offchain o) [] (collect_extrinsics o) (stats o)
                  (storage_transaction_cache o));;;
  retM (mkStorageChanges main child off cache.1 cache.2 (transaction_index_ops o)).

End overlayed_changes.

(** [From<Storage>]: an overlay holding a genesis storage as committed changes. *)
Definition OverlayedChanges_from {Root Tx : Type} (top : gmap StorageKey StorageValue)
    (children_default : gmap StorageKey (gmap StorageKey StorageValue * ChildInfo))
    : OverlayedChanges Root Tx :=
  mkChanges (OverlayedChangeSet_from top)
    ((λ c, (OverlayedChangeSet_from c.1, c.2)) <$> children_default)
    OverlayedMap_default [] false StateMachineStats_default None.

(** * The contract: a stack of storage views *)

Abbreviation TopMap := (gmap StorageKey (option StorageValue)).
Abbreviation ChildMap := (gmap (StorageKey * StorageKey) (option StorageValue)).
Abbreviation OffMap := (gmap (StorageKey * StorageKey) OffchainOverlayedChange).

(** What one transaction level sees: the top changes, the changes of every child
    by child key and key, and the offchain changes. *)
Record view := mkView {
  v_top : TopMap;
  v_child : ChildMap;
  v_off : OffMap;
}.

Definition on_v_top (u : TopMap -> TopMap) (v : view) : view :=
  mkView (u (v_top v)) (v_child v) (v_off v).
Definition on_v_child (u : ChildMap -> ChildMap) (v : view) : view :=
  mkView (v_top v) (u (v_child v)) (v_off v).
Definition on_v_off (u : OffMap -> OffMap) (v : view) : view :=
  mkView (v_top v) (v_child v) (u (v_off v)).

(** Deletes the keys of the child [sk] that satisfy [p]. *)
Definition clear_child_view (sk : StorageKey) (p : StorageKey -> bool) (v : ChildMap) : ChildMap :=
  map_imap (λ ck x, Some (if bool_decide (ck.1 = sk) && p ck.2 then None else x)) v.

(** The mutating interface of the overlay. *)
Inductive changes_op :=
| CSet (key : StorageKey) (val : option StorageValue)
| CModify (key : StorageKey) (init : unit -> StorageValue) (f : StorageValue -> StorageValue)
| CClearPrefix (prefix : StorageKey)
| CSetChild (child_info : ChildInfo) (key : StorageKey) (val : option StorageValue)
| CClearChild (child_info : ChildInfo)
| CClearChildPrefix (child_info : ChildInfo) (prefix : StorageKey)
| CSetOffchain (key : StorageKey) (val : option StorageValue)
| CStorageRoot (sv : StateVersion)
| CTx (op : tx_op).

Definition view_update (op : changes_op) : view -> view :=
  match op with
  | CSet key val => on_v_top (<[key := val]>)
  | CModify key init f =>
      on_v_top (λ m, <[key := Some (f (default [] (default (Some (init tt)) (m !! key))))]> m)
  | CClearPrefix prefix => on_v_top (clear_view (λ k, starts_with k prefix))
  | CSetChild info key val => on_v_child (<[(storage_key info, key) := val]>)
  | CClearChild info => on_v_child (clear_child_view (storage_key info) (λ _, true))
  | CClearChildPrefix info prefix =>
      on_v_child (clear_child_view (storage_key info) (λ k, starts_with k prefix))
  | CSetOffchain key val =>
      on_v_off (<[(STORAGE_PREFIX, key) := if val is Some v then SetValue v else Remove]>)
  | CStorageRoot _ | CTx _ => λ v, v
  end.

Definition spec_changes_op (op : changes_op) : M (snap_state view) op_error unit :=
  match op with
  | CTx op => spec_tx op
  | _ => spec_write (view_update op)
  end.

Section contract.
Context {Root Tx BErr : Type} (decode_u32 : list Z -> option Z) (backend : Backend Root Tx BErr).
Implicit Types (o : OverlayedChanges Root Tx).

Definition run_changes_op (op : changes_op) : M (OverlayedChanges Root Tx) op_error unit :=
  match op with
  | CSet key val => set_storage decode_u32 key val
  | CModify key init f => value_mut_or_insert_with decode_u32 key init f
  | CClearPrefix prefix => clear_prefix decode_u32 prefix;;; retM tt
  | CSetChild info key val => set_child_storage decode_u32 info key val
  | CClearChild info => clear_child_storage decode_u32 info;;; retM tt
  | CClearChildPrefix info prefix => clear_child_prefix decode_u32 info prefix;;; retM tt
  | CSetOffchain key val => set_offchain_storage key val
  | CStorageRoot sv => storage_root backend sv;;; retM tt
  | CTx TxStart => modifyM changes_start_transaction
  | CTx TxCommit => map_err (λ _, ENoOpenTransaction) changes_commit_transaction
  | CTx TxRollback => map_err (λ _, ENoOpenTransaction) changes_rollback_transaction
  | CTx TxEnterRuntime => map_err (λ _, EAlreadyInRuntime) changes_enter_runtime
  | CTx TxExitRuntime => map_err (λ _, ENotInRuntime) changes_exit_runtime
  end.

(** What is seen with only the outermost [j] transactions left open. *)
Definition full_view o (j : nat) : view :=
  mkView (visible (top o) j)
    (map_uncurry (M12:=gmap (StorageKey * StorageKey)) ((λ c, visible c.1 j) <$> children o))
    (visible (offchain o) j).

Definition views_of o : snap_state view :=
  mkSnap (levels (changes_depth o) (full_view o)) (num_client_transactions (top o))
    (execution_mode (top o)).

(** A change set in the transaction state [t]. *)
Definition synced {K V : Type} `{Countable K} (t : tx_state) (c : OverlayedMap K V) : Prop :=
  overlay_wf c ∧ tx_of c = t.

(** All change sets are well formed and transact in lockstep. *)
Definition lockstep o : Prop :=
  overlay_wf (top o) ∧
  map_Forall (λ _ c, synced (tx_of (top o)) c.1) (children o) ∧
  synced (tx_of (top o)) (offchain o).

Definition maps o := (top o, children o, offchain o).

(** The counterpart of [updates] for the whole overlay. *)
Definition changes_updates (u : view -> view) o o' : Prop :=
  lockstep o' ∧ tx_of (top o') = tx_of (top o) ∧
  (∀ j, j < changes_depth o → full_view o' j = full_view o j) ∧
  full_view o' (changes_depth o) = u (full_view o (changes_depth o)).

End contract.

(** * Lemmas *)

Section overlay_lemmas.
Context {Root Tx BErr : Type} (decode_u32 : list Z -> option Z) (backend : Backend Root Tx BErr).
Implicit Types (o : OverlayedChanges Root Tx).

Abbreviation uncurry12 := (map_uncurry (M12:=gmap (StorageKey * StorageKey))).

Lemma maps_updates u o1 o2 o' :
  maps o1 = maps o2 → changes_updates u o1 o' → changes_updates u o2 o'.
Proof.
  destruct o1, o2. intros [= -> -> ->]. done.
Qed.

Lemma maps_updates_r u o o1 o2 :
  maps o1 = maps o2 → changes_updates u o o1 → changes_updates u o o2.
Proof.
  destruct o1, o2. intros [= -> -> ->]. done.
Qed.

(** Dropping or adding empty children is invisible. *)
Lemma uncurry_default (m : gmap StorageKey TopMap) sk :
  uncurry12 (<[sk := default ∅ (m !! sk)]> m) = uncurry12 m.
Proof.
  apply map_eq. intros [i j]. rewrite !lookup_map_uncurry.
  destruct (decide (i = sk)) as [->|]; [|by rewrite lookup_insert_ne].
  rewrite lookup_insert_eq. by destruct (m !! sk).
Qed.

(** [u] on the changes of child [sk] is [u'] on the changes of all children. *)
Definition child_update (sk : StorageKey) (u : TopMap -> TopMap) (u' : ChildMap -> ChildMap)
    : Prop :=
  ∀ m : gmap StorageKey TopMap, uncurry12 (<[sk := u (default ∅ (m !! sk))]> m) = u' (uncurry12 m).

Lemma child_update_insert sk k v : child_update sk (<[k := v]>) (<[(sk, k) := v]>).
Proof.
  intros m. apply map_eq. intros [i j]. rewrite !lookup_map_uncurry.
  destruct (decide (i = sk)) as [->|]; [|by rewrite !lookup_insert_ne, lookup_map_uncurry by congruence].
  rewrite lookup_insert_eq; simpl. destruct (decide (j = k)) as [->|].
  - by rewrite !lookup_insert_eq.
  - rewrite !lookup_insert_ne, lookup_map_uncurry by congruence. by destruct (m !! sk).
Qed.

Lemma child_update_clear sk p : child_update sk (clear_view p) (clear_child_view sk p).
Proof.
  intros m. apply map_eq. intros [i j]. unfold clear_child_view.
  rewrite map_lookup_imap, !lookup_map_uncurry; simpl.
  destruct (decide (i = sk)) as [->|].
  - rewrite lookup_insert_eq, bool_decide_eq_true_2 by done; simpl. unfold clear_view.
    rewrite map_lookup_imap. by destruct (m !! sk).
  - rewrite lookup_insert_ne, bool_decide_eq_false_2 by congruence; simpl.
    by destruct (m !! i ≫= _).
Qed.

(** ** Writes *)

Lemma top_updates u o o' t' :
  lockstep o → updates u (top o) t' → maps o' = (t', children o, offchain o) →
  changes_updates (on_v_top u) o o'.
Proof.
  intros (Hwf & Hc & Ho) (Hwf' & Htx & Hb & Ht) [= Ho1 Ho2 Ho3].
  unfold changes_updates, lockstep, full_view. rewrite Ho1, Ho2, Ho3, Htx.
  split_all; try done.
  - intros j Hj. by rewrite Hb.
  - unfold on_v_top; simpl. f_equal. exact Ht.
Qed.

Lemma off_updates u o o' off' :
  lockstep o → updates u (offchain o) off' → maps o' = (top o, children o, off') →
  changes_updates (on_v_off u) o o'.
Proof.
  intros (Hwf & Hc & Ho & Htx0) (Hwf' & Htx & Hb & Ht) [= Ho1 Ho2 Ho3].
  assert (Hd : transaction_depth (offchain o) = changes_depth o) by (by injection Htx0).
  rewrite Hd in *. unfold changes_updates, lockstep, full_view. rewrite Ho1, Ho2, Ho3.
  split_all; try done.
  - split; [done|congruence].
  - intros j Hj. by rewrite Hb.
  - unfold on_v_off; simpl. f_equal. exact Ht.
Qed.

Lemma dirty_count_fresh (k : StorageKey) n : dirty_count k (replicate n ∅) = 0.
Proof.
  unfold dirty_count. induction n as [|n IH]; [done|].
  rewrite replicate_S, filter_cons_False; [done|set_solver].
Qed.

Lemma spawn_child_synced (m : OverlayedChangeSet) :
  overlay_wf m → synced (tx_of m) (spawn_child m).
Proof.
  intros [_ Hrt]. split.
  - split.
    + intros k. unfold entry_ok, spawn_child; simpl. rewrite lookup_empty.
      apply dirty_count_fresh.
    + intros Hm. unfold transaction_depth, spawn_child; simpl. rewrite length_replicate.
      by apply Hrt.
  - unfold tx_of, transaction_depth, spawn_child; simpl. by rewrite length_replicate.
Qed.

Lemma visible_spawn (m : OverlayedChangeSet) j : visible (spawn_child m) j = ∅.
Proof. apply map_eq. intros k. by rewrite visible_lookup. Qed.

Lemma child_updates info u u' o o' cs' :
  let sk := storage_key info in
  let c := default (spawn_child (top o), info) (children o !! sk) in
  lockstep o → updates u c.1 cs' → child_update sk u u' →
  maps o' = (top o, <[sk := (cs', c.2)]> (children o), offchain o) →
  changes_updates (on_v_child u') o o'.
Proof.
  intros sk c (Hwf & Hc & Ho) (Hwf' & Htx & Hb & Ht) Hu [= Ho1 Ho2 Ho3].
  assert (Hs : synced (tx_of (top o)) c.1).
  { subst c. destruct (children o !! sk) eqn:Hk; simpl; [by apply (Hc sk)|].
    by apply spawn_child_synced. }
  assert (Hv : ∀ j, visible c.1 j = default ∅ (((λ c, visible c.1 j) <$> children o) !! sk)).
  { intros j. subst c. rewrite lookup_fmap. destruct (children o !! sk); simpl; [done|].
    apply visible_spawn. }
  clearbody c. destruct Hs as [_ Htx0]. assert (Hd : transaction_depth c.1 = changes_depth o)
    by (by injection Htx0).
  rewrite Hd in *. unfold changes_updates, lockstep, full_view. rewrite Ho1, Ho2, Ho3.
  split_all; try done.
  - apply map_Forall_insert_2; [|done]. split; [done|]. simpl. congruence.
  - intros j Hj. rewrite fmap_insert; simpl. by rewrite Hb, Hv, uncurry_default.
  - unfold on_v_child; cbn [v_top v_child v_off]. f_equal. rewrite fmap_insert; cbn [fst].
    by rewrite Ht, Hv, Hu.
Qed.

Lemma storage_ok {E} key o :
  overlay_wf (top o) →
  ∃ st, storage (E:=E) key o =
    (with_stats o st, Ok (v_top (full_view o (changes_depth o)) !! key)).
Proof.
  intros Hwf. unfold storage, entry_value; simpl. unfold changes_depth. rewrite <- get_visible.
  unfold get. destruct (changes (top o) !! key) as [e|] eqn:He; simpl.
  - destruct (wf_value_ref (top o) key e Hwf He) as [v ->]. eauto.
  - exists (stats o). by destruct o.
Qed.

Lemma child_storage_ok {E : Type} (info : ChildInfo) (key : StorageKey) o :
  lockstep o →
  snd (child_storage (E:=E) info key o) =
    Ok (v_child (full_view o (changes_depth o)) !! (storage_key info, key)).
Proof.
  intros (Hwf & Hch & _). unfold child_storage, entry_value; simpl.
  rewrite lookup_map_uncurry, lookup_fmap.
  destruct (children o !! storage_key info) as [c|] eqn:Hc; simpl; [|done].
  destruct (Hch _ c Hc) as [Hwfc Htc]. apply (f_equal tx_depth) in Htc. simpl in Htc.
  unfold changes_depth. rewrite <- Htc, <- get_visible.
  destruct (get c.1 key) as [e|] eqn:He; simpl; [|done].
  by destruct (wf_value_ref c.1 key e Hwfc He) as [v ->].
Qed.

Lemma extrinsic_index_ok {E} o :
  overlay_wf (top o) → ∃ st idx, extrinsic_index decode_u32 (E:=E) o = (with_stats o st, Ok idx).
Proof.
  intros Hwf. unfold extrinsic_index. destruct (collect_extrinsics o).
  - destruct (storage_ok (E:=E) EXTRINSIC_INDEX o Hwf) as [st ->]. eauto.
  - exists (stats o), None. by destruct o.
Qed.

(** The common shape of the writes: forget the cached root, look up the extrinsic
    index, then one operation on a change set that updates its innermost view. *)
Lemma top_write_ok {E A} (c : option Z → M OverlayedChangeSet E A) u o o0 :
  lockstep o → maps o0 = maps o →
  (∀ idx, ∃ t' a, c idx (top o) = (t', Ok a) ∧ updates u (top o) t') →
  ∃ o' a, (let* idx := extrinsic_index decode_u32 in on_top (c idx)) o0 = (o', Ok a) ∧
    changes_updates (on_v_top u) o o' ∧
    storage_transaction_cache o' = storage_transaction_cache o0.
Proof.
  intros Hl [= Ht Hc Ho] Hop. unfold bindM.
  destruct (extrinsic_index_ok (E:=E) o0) as (st & idx & ->); [rewrite Ht; apply Hl|].
  destruct (Hop idx) as (t' & a & Hr & Hu). unfold on_top; simpl. rewrite Ht, Hr.
  do 2 eexists. split; [done|]. split; [|done].
  eapply top_updates; [done..|]. unfold maps; simpl. by rewrite Hc, Ho.
Qed.

Lemma child_write_ok {E A} (info : ChildInfo) (c : M OverlayedChangeSet E A) u u' o o0 :
  lockstep o → maps o0 = maps o → child_update (storage_key info) u u' →
  (∀ m, overlay_wf m → ∃ m' a, c m = (m', Ok a) ∧ updates u m m') →
  ∃ o' a, on_child info c o0 = (o', Ok a) ∧ changes_updates (on_v_child u') o o' ∧
    storage_transaction_cache o' = storage_transaction_cache o0.
Proof.
  intros Hl [= Ht Hc Ho] Hu Hop. unfold on_child. rewrite Ht, Hc.
  destruct (default (spawn_child (top o), info) (children o !! storage_key info))
    as [cs inf] eqn:Hcs.
  assert (Hwf : overlay_wf cs).
  { destruct Hl as (Hwf & Hch & _). destruct (children o !! storage_key info) eqn:Hk;
      simplify_eq/=; [by apply (Hch _ _ Hk)|by apply spawn_child_synced]. }
  destruct (Hop cs Hwf) as (m' & a & -> & Hupd). do 2 eexists. split; [done|]. split; [|done].
  eapply (child_updates info u); [done|rewrite Hcs; done|done|].
  rewrite Hcs. unfold maps; simpl. by rewrite Ht, Ho.
Qed.

Lemma modify_updates {E : Type} (key : StorageKey) (init : unit → StorageValue) (idx : option Z)
    (f : option StorageValue → option StorageValue) (m : OverlayedChangeSet) :
  overlay_wf m →
  ∃ m' a, modify (E:=E) key init idx f m = (m', Ok a) ∧
    updates (λ v : TopMap, <[key := f (default (Some (init tt)) (v !! key))]> v) m m'.
Proof.
  intros Hwf. destruct (modify_written (E:=E) key init idx f m Hwf) as (t & Ht & ->).
  do 2 eexists. split; [done|]. destruct (written_updates m key t Hwf) as (H1 & H2 & H3 & H4).
  split; [done|]. split_all; [done..|]. by rewrite H4, Ht, snap_top_snapshots.
Qed.

Lemma set_ok {E : Type} (key : StorageKey) (val : option StorageValue) (idx : option Z)
    (m : OverlayedChangeSet) :
  overlay_wf m →
  ∃ m' a, set (E:=E) key val idx m = (m', Ok a) ∧ updates (<[key := val]>) m m'.
Proof. intros Hwf. destruct (set_updates (E:=E) key val idx m Hwf) as (m' & ? & ?). eauto. Qed.

Lemma clear_child_ok (child_info : ChildInfo) (p : StorageKey → bool) o :
  lockstep o →
  ∃ o', ((modifyM mark_dirty;;;
          let* idx := extrinsic_index decode_u32 in
          on_child child_info (clear_where (λ k _, p k) idx));;; retM tt) o =
      (o', Ok (E:=op_error) tt) ∧
    changes_updates (on_v_child (clear_child_view (storage_key child_info) p)) o o' ∧
    storage_transaction_cache o' = None.
Proof.
  intros Hl. pose proof Hl as [Hwf _].
  destruct (extrinsic_index_ok (E:=op_error) (mark_dirty o) Hwf) as (st & idx & Hi).
  destruct (child_write_ok child_info (clear_where (E:=op_error) (λ k _, p k) idx) _ _ o
    (with_stats (mark_dirty o) st) Hl eq_refl (child_update_clear _ p)) as (o' & a & Hr & Hu);
    [intros; by apply clear_where_key_ok|].
  exists o'. split; [|exact Hu]. unfold bindM, modifyM. by rewrite Hi, Hr.
Qed.

Definition is_write (op : changes_op) : bool :=
  match op with CTx _ | CStorageRoot _ => false | _ => true end.

Lemma changes_op_cases op :
  is_write op = true ∨ (∃ sv, op = CStorageRoot sv) ∨ ∃ tx, op = CTx tx.
Proof. destruct op; eauto. Qed.

(** Every write succeeds, changes the innermost view as specified, and leaves no
    cached root behind, unless it is an offchain write, which no root covers. *)
Lemma write_ok op o :
  lockstep o →
  is_write op = true →
  ∃ o', run_changes_op decode_u32 backend op o = (o', Ok tt) ∧
    changes_updates (view_update op) o o' ∧
    storage_transaction_cache o' =
      (if op is CSetOffchain _ _ then storage_transaction_cache o else None).
Proof.
  intros Hl Hop. pose proof Hl as (Hwf & _ & Hoff & _). destruct op as [key val|key init f|pre|child_info key val|child_info|child_info pre|key val| |];
    try done; cbn [run_changes_op].
  - destruct (top_write_ok (λ idx, set (E:=op_error) key val idx) (<[key := val]>) o
      (with_stats (mark_dirty o) (tally_write_overlay (value_size val) (stats o))) Hl)
      as (o' & [] & Hr & Hu); [done|intros; by apply set_ok|]. eauto.
  - destruct (top_write_ok (λ idx, modify (E:=op_error) key init idx (λ v, Some (f (default [] v))))
      (λ m, <[key := Some (f (default [] (default (Some (init tt)) (m !! key))))]> m)
      o (mark_dirty o) Hl) as (o' & [] & Hr & Hu); [done|intros; by apply modify_updates|]. eauto.
  - destruct (top_write_ok (λ idx, clear_where (E:=op_error) (λ k _, starts_with k pre) idx)
      (clear_view (λ k, starts_with k pre)) o (mark_dirty o) Hl)
      as (o' & a & Hr & Hu); [done|intros; by apply clear_where_key_ok|].
    exists o'. split; [|exact Hu]. unfold clear_prefix, bindM, modifyM in *. by rewrite Hr.
  - destruct (extrinsic_index_ok (E:=op_error) (mark_dirty o) Hwf) as (st & idx & Hi).
    destruct (child_write_ok child_info (set (E:=op_error) key val idx) _ _ o
      (with_stats (with_stats (mark_dirty o) st) (tally_write_overlay (value_size val) st)) Hl eq_refl
      (child_update_insert _ key val)) as (o' & [] & Hr & Hu); [intros; by apply set_ok|].
    exists o'. split; [|exact Hu]. unfold set_child_storage, bindM, modifyM. by rewrite Hi.
  - destruct (clear_child_ok child_info (λ _, true) o Hl) as (o' & Hr & Hu). eauto.
  - destruct (clear_child_ok child_info (λ k, starts_with k pre) o Hl) as (o' & Hr & Hu). eauto.
  - destruct (set_updates (E:=op_error) (STORAGE_PREFIX, key)
      (match val with Some v => SetValue v | None => Remove end) None (offchain o) Hoff)
      as (off & Hr & Hu).
    exists (with_offchain o off). split; [|split; [by eapply off_updates|done]].
    unfold set_offchain_storage. destruct val; unfold on_offchain, offchain_set, offchain_remove;
      by rewrite Hr.
Qed.

(** ** Transactions *)

Abbreviation Children := (gmap StorageKey (OverlayedChangeSet * ChildInfo)).

Definition changes_tx_done (op : tx_op) o o' : Prop :=
  lockstep o' ∧ tx_of (top o') = fst (tx_next op (tx_of (top o))) ∧
  ∀ j, j ≤ changes_depth o' → full_view o' j = full_view o (tx_level op (tx_of (top o)) j).

(** A change set that is in lockstep with one whose operation succeeded makes the
    [expect] succeed. *)
Lemma expect_tx {E K V : Type} `{Countable K} op (f : E → op_error) (c : M (OverlayedMap K V) E unit)
    (m : OverlayedMap K V) t :
  (∀ m, map_err f c m = run_tx op m) → synced t m → snd (tx_next op t) = Ok tt →
  ∃ m', expect_ok c m = Some m' ∧ tx_done op m m'.
Proof.
  intros Hc [Hwf <-] Hok. destruct (run_tx_done op m Hwf) as (m' & Hr & Hd).
  rewrite <- Hc, Hok in Hr. exists m'. split; [|done]. unfold expect_ok, map_err in *.
  destruct (c m) as [? []]; by simplify_eq.
Qed.

(** [keep] drops at most empty children. *)
Definition keeps_nonempty (keep : Children → Children) : Prop :=
  ∀ cs sk, keep cs !! sk = cs !! sk ∨
    keep cs !! sk = None ∧ ∃ c, cs !! sk = Some c ∧ is_empty c.1 = true.

Lemma keeps_nonempty_id : keeps_nonempty (λ cs, cs).
Proof. intros cs sk. by left. Qed.

Lemma keeps_nonempty_retain : keeps_nonempty retain_nonempty.
Proof.
  intros cs sk. unfold retain_nonempty. destruct (cs !! sk) as [c|] eqn:Hc.
  - destruct (is_empty c.1) eqn:He.
    + right. split; [|by exists c]. apply map_lookup_filter_None. right.
      intros c' Hc'. simplify_eq. simpl. congruence.
    + left. by apply map_lookup_filter_Some.
  - left. apply map_lookup_filter_None. by left.
Qed.

Lemma visible_is_empty (m : OverlayedChangeSet) j : is_empty m = true → visible m j = ∅.
Proof.
  intros He%bool_decide_eq_true. apply map_eq. intros k. rewrite visible_lookup, He. done.
Qed.

(** The children with what they show at level [j]. *)
Definition child_views (cs : Children) (j : nat) : gmap StorageKey (TopMap * ChildInfo) :=
  (λ c, (visible c.1 j, c.2)) <$> cs.

Lemma uncurry_child_views (cs : Children) j :
  uncurry12 ((λ c, visible c.1 j) <$> cs) = uncurry12 (fst <$> child_views cs j).
Proof. unfold child_views. by rewrite <- map_fmap_compose. Qed.

(** The children after a successful lockstep operation. *)
Lemma for_children_tx {E : Type} (op : tx_op) (f : E → op_error) (c : M OverlayedChangeSet E unit)
    (t : tx_state) (cs : Children) :
  (∀ m, map_err f c m = run_tx op m) → snd (tx_next op t) = Ok tt →
  map_Forall (λ _ c, synced t c.1) cs →
  ∃ cs', for_children (expect_ok c) cs = Some cs' ∧
    map_Forall (λ _ c, synced (fst (tx_next op t)) c.1) cs' ∧
    ∀ j, j ≤ tx_depth (fst (tx_next op t)) →
      child_views cs' j = child_views cs (tx_level op t j).
Proof.
  intros Hc Hok Hs.
  assert (Hone : ∀ sk x, cs !! sk = Some x → ∃ m', expect_ok c x.1 = Some m' ∧ tx_done op x.1 m' ∧
    tx_of x.1 = t).
  { intros sk x Hx. destruct (expect_tx op f c x.1 t Hc (Hs sk x Hx) Hok) as (m' & ? & ?).
    exists m'. split_all; try done. apply (Hs sk x Hx). }
  unfold for_children. rewrite decide_True; cycle 1.
  { intros sk x Hx. destruct (Hone sk x Hx) as (m' & -> & _). done. }
  eexists. split; [done|]. split.
  - intros sk y. rewrite lookup_omap. destruct (cs !! sk) as [x|] eqn:Hx; [|done]; simpl.
    destruct (Hone sk x Hx) as (m' & -> & (Hwf & Htx & _) & Ht). intros [= <-]. by rewrite <- Ht.
  - intros j Hj. unfold child_views. apply map_eq. intros sk. rewrite !lookup_fmap, lookup_omap.
    destruct (cs !! sk) as [x|] eqn:Hx; [|done]; simpl.
    destruct (Hone sk x Hx) as (m' & -> & (_ & Htx & Hv) & Ht); simpl.
    rewrite Ht in Htx, Hv. rewrite Hv; [done|]. by rewrite <- Htx in Hj.
Qed.

Lemma keep_views (keep : Children → Children) (cs : Children) j :
  keeps_nonempty keep →
  uncurry12 ((λ c, visible c.1 j) <$> keep cs) = uncurry12 ((λ c, visible c.1 j) <$> cs).
Proof.
  intros Hkeep. apply map_eq. intros [sk k]. rewrite !lookup_map_uncurry, !lookup_fmap.
  destruct (Hkeep cs sk) as [->|(-> & c & -> & He)]; [done|]; simpl.
  by rewrite visible_is_empty.
Qed.

Lemma keep_synced (keep : Children → Children) (cs : Children) t :
  keeps_nonempty keep → map_Forall (λ _ c, synced t c.1) cs →
  map_Forall (λ _ c, synced t c.1) (keep cs).
Proof.
  intros Hkeep Hs sk c Hc. destruct (Hkeep cs sk) as [Hk|[Hk _]]; rewrite Hk in Hc; [|done].
  by apply (Hs sk).
Qed.

Lemma tx_next_err op t e j :
  snd (tx_next op t) = Err e → fst (tx_next op t) = t ∧ tx_level op t j = j.
Proof.
  destruct op; simpl; try done; repeat case_goal; try done.
Qed.

Lemma tx_next_no_panic op t : snd (tx_next op t) ≠ Panic.
Proof. destruct op; simpl; repeat case_goal; done. Qed.

Lemma lockstep_call_ok {E : Type} (op : tx_op) (f : E → op_error) (ct : M OverlayedChangeSet E unit)
    (co : M OffchainMap E unit) (keep : Children → Children) o :
  (∀ m, map_err f ct m = run_tx op m) → (∀ m, map_err f co m = run_tx op m) →
  keeps_nonempty keep → lockstep o →
  ∃ o' cs', map_err f (lockstep_call ct co keep) o = (o', snd (tx_next op (tx_of (top o)))) ∧
    changes_tx_done op o o' ∧ storage_transaction_cache o' = storage_transaction_cache o ∧
    (children o' = keep cs' ∨ children o' = cs') ∧
    child_views cs' (changes_depth o') =
      child_views (children o) (tx_level op (tx_of (top o)) (changes_depth o')).
Proof.
  intros Hct Hco Hkeep (Hwf & Hch & Hoff).
  destruct (run_tx_done op (top o) Hwf) as (t' & Hr & Hwf' & Htx & Hv).
  assert (Hd : transaction_depth t' = tx_depth (fst (tx_next op (tx_of (top o))))) by (by rewrite <- Htx).
  rewrite <- Hct in Hr. unfold map_err, lockstep_call in *.
  destruct (ct (top o)) as [t'' [[]|e|]] eqn:Hc; injection Hr as -> Hres; symmetry in Hres.
  - destruct (for_children_tx op f ct _ _ Hct Hres Hch) as (cs' & -> & Hsync & Hview).
    destruct (expect_tx op f co _ _ Hco Hoff Hres) as (off' & -> & Hwfo & Htxo & Hvo).
    destruct Hoff as [_ Hto]. rewrite Hto in Htxo, Hvo.
    eexists _, cs'. split; [by rewrite Hres|].
    split; [|split_all; [done|by left|apply Hview; unfold changes_depth; simpl; by rewrite Hd]].
    unfold changes_tx_done, lockstep; simpl. rewrite Htx.
    split_all; [done|by apply keep_synced|done..|]. unfold changes_depth; simpl. intros j Hj.
    unfold full_view; simpl. rewrite Hv, keep_views, !uncurry_child_views by done.
    rewrite Hview by lia. rewrite Hvo; [done|].
    change (j ≤ tx_depth (tx_of off')). rewrite Htxo. lia.
  - destruct (tx_next_err op _ _ (changes_depth o) Hres) as [Heq Hl]. rewrite Heq in Htx, Hd.
    eexists _, (children o). split; [by rewrite Hres|].
    split; [|split_all; [done|by right|]].
    + unfold changes_tx_done, lockstep; simpl. rewrite Heq, Htx. split_all; [done..|].
      intros j Hj. unfold full_view; simpl. rewrite Hv by done.
      by destruct (tx_next_err op _ _ j Hres) as [_ ->].
    + unfold changes_depth in *; simpl. rewrite Hd; simpl. by rewrite Hl.
  - by destruct (tx_next_no_panic op (tx_of (top o))).
Qed.

Lemma start_ok o :
  lockstep o →
  changes_tx_done TxStart o (changes_start_transaction o) ∧
  ∀ j, child_views (children (changes_start_transaction o)) j =
    child_views (children o) (tx_level TxStart (tx_of (top o)) j).
Proof.
  intros (Hwf & Hch & Hoff & Hto).
  assert (Hst : ∀ {K V : Type} `{Countable K} (m : OverlayedMap K V),
    tx_of (start_transaction m) = fst (tx_next TxStart (tx_of m))).
  { intros. unfold tx_of. by rewrite start_transaction_depth. }
  assert (Hv : ∀ j, child_views (children (changes_start_transaction o)) j =
    child_views (children o) (tx_level TxStart (tx_of (top o)) j)).
  { intros j. unfold child_views; simpl. rewrite <- map_fmap_compose.
    apply map_fmap_ext. intros sk c Hc; simpl. rewrite visible_start.
    destruct (Hch sk c Hc) as [_ Htc]. apply (f_equal tx_depth) in Htc. simpl in Htc.
    by rewrite Htc. }
  split; [|done]. unfold changes_tx_done, lockstep; split_all.
  - by apply start_transaction_wf.
  - intros sk c. simpl. rewrite lookup_fmap. intros (c0 & Hc0 & ->)%fmap_Some_1; simpl.
    destruct (Hch sk c0 Hc0) as [Hwfc Htc].
    split; [by apply start_transaction_wf|]. by rewrite !Hst, Htc.
  - split; [by apply start_transaction_wf|]. simpl. by rewrite !Hst, Hto.
  - simpl. apply Hst.
  - intros j _. unfold full_view. rewrite !uncurry_child_views, Hv; simpl.
    rewrite !visible_start. apply (f_equal tx_depth) in Hto. simpl in Hto. by rewrite Hto.
Qed.

Lemma lockstep_mark_dirty o : lockstep o → lockstep (mark_dirty o).
Proof. done. Qed.

Lemma changes_tx_ok op o :
  lockstep o →
  ∃ o', run_changes_op decode_u32 backend (CTx op) o = (o', snd (tx_next op (tx_of (top o)))) ∧
    changes_tx_done op o o' ∧
    if op is TxRollback then storage_transaction_cache o' = None else
      storage_transaction_cache o' = storage_transaction_cache o ∧
      child_views (children o') (changes_depth o') =
        child_views (children o) (tx_level op (tx_of (top o)) (changes_depth o')).
Proof.
  intros Hl. destruct op; cbn [run_changes_op].
  - destruct (start_ok o Hl) as [Hd Hv]. exists (changes_start_transaction o). eauto.
  - destruct (lockstep_call_ok TxCommit (λ _, ENoOpenTransaction) commit_transaction
      commit_transaction (λ cs, cs) o) as (o' & cs' & Hr & Hd & Hc & Hcs & Hv);
      [done|done|apply keeps_nonempty_id|done|]. assert (cs' = children o') as -> by naive_solver. eauto.
  - destruct (lockstep_call_ok TxRollback (λ _, ENoOpenTransaction) rollback_transaction
      rollback_transaction retain_nonempty (mark_dirty o)) as (o' & cs' & Hr & Hd & Hc & _);
      [done|done|apply keeps_nonempty_retain|done|]. eauto.
  - destruct (lockstep_call_ok TxEnterRuntime (λ _, EAlreadyInRuntime) enter_runtime
      enter_runtime (λ cs, cs) o) as (o' & cs' & Hr & Hd & Hc & Hcs & Hv);
      [done|done|apply keeps_nonempty_id|done|]. assert (cs' = children o') as -> by naive_solver. eauto.
  - destruct (lockstep_call_ok TxExitRuntime (λ _, ENotInRuntime) exit_runtime
      exit_runtime (λ cs, cs) o) as (o' & cs' & Hr & Hd & Hc & Hcs & Hv);
      [done|done|apply keeps_nonempty_id|done|]. assert (cs' = children o') as -> by naive_solver. eauto.
Qed.

(** ** Roots *)

(** The delta of a view: its entries in key order. *)
Definition delta_of (v : TopMap) : Delta :=
  omap (λ k, (k,.) <$> v !! k) (merge_sort key_le (elements (dom v))).

Lemma changes_list_values (m : OverlayedChangeSet) ks :
  overlay_wf m →
  mapM (λ kv, v ← entry_value kv.2; Some (kv.1, v)) (omap (λ k, (k,.) <$> changes m !! k) ks) =
  Some (omap (λ k, (k,.) <$> visible m (transaction_depth m) !! k) ks).
Proof.
  intros Hwf. induction ks as [|k ks IH]; [done|]. rewrite !omap_cons, <- get_visible.
  unfold get. destruct (changes m !! k) as [e|] eqn:He; cbn [fmap option_fmap option_map mbind option_bind];
    [|exact IH].
  destruct (wf_value_ref m k e Hwf He) as [v Hv]. rewrite Hv, mapM_cons, IH; simpl.
  unfold entry_value. by rewrite Hv.
Qed.

Lemma changes_delta_ok (m : OverlayedChangeSet) :
  overlay_wf m → changes_delta m = Some (delta_of (visible m (transaction_depth m))).
Proof.
  intros Hwf. unfold changes_delta, changes_list, delta_of. rewrite changes_list_values by done.
  do 4 f_equal. apply set_eq. intros k. rewrite !elem_of_dom, <- get_visible. unfold get.
  split; intros [e He]; rewrite ?He; [by apply (wf_value_ref m k)|].
  destruct (changes m !! k); [done|]. done.
Qed.

(** What the root is computed from. *)
Definition root_input o : TopMap * gmap StorageKey (TopMap * ChildInfo) :=
  (visible (top o) (changes_depth o), child_views (children o) (changes_depth o)).

Definition root_of_input (i : TopMap * gmap StorageKey (TopMap * ChildInfo)) (sv : StateVersion)
    : Root * Tx :=
  full_storage_root backend (delta_of i.1)
    ((λ c, (c.2, delta_of c.1)) <$> omap (i.2 !!.) (elements (dom i.2))) sv.

Lemma child_deltas_ok o sks :
  lockstep o →
  mapM (λ c, d ← changes_delta c.1; Some (c.2, d)) (omap (children o !!.) sks) =
  Some ((λ c, (c.2, delta_of c.1)) <$> omap (child_views (children o) (changes_depth o) !!.) sks).
Proof.
  intros (_ & Hch & _). induction sks as [|sk sks IH]; [done|]. rewrite !omap_cons.
  unfold child_views at 1. rewrite lookup_fmap.
  destruct (children o !! sk) as [c|] eqn:Hc; cbn [fmap option_fmap option_map]; [|exact IH].
  destruct (Hch sk c Hc) as [Hwf Ht]. rewrite mapM_cons, IH, changes_delta_ok by done; simpl.
  apply (f_equal tx_depth) in Ht. simpl in Ht. by rewrite Ht.
Qed.

Lemma compute_root_ok o sv :
  lockstep o → compute_root backend o sv = Some (root_of_input (root_input o) sv).
Proof.
  intros Hl. unfold compute_root, child_deltas, children_values, root_of_input.
  rewrite changes_delta_ok by apply Hl; simpl. rewrite child_deltas_ok by done; simpl.
  assert (Hdom : dom (child_views (children o) (changes_depth o)) = dom (children o))
    by (apply dom_fmap_L). by rewrite Hdom.
Qed.

(** The cached root and transaction are those of what the overlay shows. *)
Definition cache_coherent (sv : StateVersion) o : Prop :=
  match storage_transaction_cache o with
  | Some (tx, root) => compute_root backend o sv = Some (root, tx)
  | None => True
  end.

Lemma storage_root_ok {E : Type} sv o :
  lockstep o →
  ∃ o' r, storage_root backend sv (E:=E) o = (o', Ok r) ∧ maps o' = maps o ∧
    storage_transaction_cache o' = Some (default (prod_swap (root_of_input (root_input o) sv))
      (storage_transaction_cache o)) ∧
    r = (match storage_transaction_cache o with
         | Some (_, root) => (root, true)
         | None => (fst (root_of_input (root_input o) sv), false)
         end).
Proof.
  intros Hl. unfold storage_root. rewrite compute_root_ok by done.
  destruct (storage_transaction_cache o) as [[tx root]|] eqn:Hc.
  - exists o. eexists. by rewrite Hc.
  - destruct (root_of_input (root_input o) sv) as [root tx]. do 2 eexists. done.
Qed.

(** ** Steps *)

Lemma views_of_levels o :
  views_of o = mkSnap (levels (tx_depth (tx_of (top o))) (full_view o))
    (tx_client (tx_of (top o))) (tx_mode (tx_of (top o))).
Proof. done. Qed.

Lemma spec_write_views u o o' :
  changes_updates u o o' → spec_write u (views_of o) = (views_of o', Ok tt).
Proof.
  intros (_ & Htx & Hb & Ht). rewrite !views_of_levels, spec_write_levels, Htx.
  do 2 f_equal. apply levels_ext. intros j Hj. case_decide; subst; [done|].
  symmetry. apply Hb. unfold changes_depth. simpl in *. lia.
Qed.

Lemma changes_op_ok op o :
  lockstep o →
  ∃ o' r, run_changes_op decode_u32 backend op o = (o', r) ∧
    spec_changes_op op (views_of o) = (views_of o', r) ∧ lockstep o'.
Proof.
  intros Hl.
  destruct (changes_op_cases op) as [Hw|[[sv ->]|[tx ->]]].
  - destruct (write_ok op o Hl Hw) as (o' & Hr & Hu & _). exists o', (Ok tt).
    split; [done|]. split; [|apply Hu]. by destruct op; try apply spec_write_views.
  - destruct (storage_root_ok (E:=op_error) sv o Hl) as (o' & r & Hr & Hm & _).
    exists o', (Ok tt). cbn [run_changes_op spec_changes_op]. unfold bindM. rewrite Hr.
    split; [done|]. destruct o, o'. injection Hm as -> -> ->. split; [|done].
    by apply spec_write_views.
  - destruct (changes_tx_ok tx o Hl) as (o' & Hr & (Hl' & Htx & Hv) & _).
    exists o'. eexists. split; [exact Hr|]. split; [|done]. cbn [spec_changes_op].
    rewrite !views_of_levels, spec_tx_levels, <- Htx. do 2 f_equal.
    apply levels_ext. intros j Hj. symmetry. by apply Hv.
Qed.

Lemma changes_ops_ok ops o :
  lockstep o →
  snd (run_ops (run_changes_op decode_u32 backend <$> ops) o) =
    snd (run_ops (spec_changes_op <$> ops) (views_of o)) ∧
  views_of (fst (run_ops (run_changes_op decode_u32 backend <$> ops) o)) =
    fst (run_ops (spec_changes_op <$> ops) (views_of o)) ∧
  lockstep (fst (run_ops (run_changes_op decode_u32 backend <$> ops) o)).
Proof.
  revert o. induction ops as [|op ops IH]; intros o Hl; [done|].
  destruct (changes_op_ok op o Hl) as (o' & r & Hr & Hs & Hl').
  rewrite !fmap_cons; cbn [run_ops]. rewrite Hr, Hs.
  destruct (IH o' Hl') as (Hrs & Hi & Hw).
  destruct (run_ops (run_changes_op decode_u32 backend <$> ops) o'),
    (run_ops (spec_changes_op <$> ops) (views_of o')); simpl in *.
  by subst.
Qed.

Lemma spec_changes_never_panics ops s : Panic ∉ snd (run_ops (spec_changes_op <$> ops) s).
Proof.
  revert s. induction ops as [|op ops IH]; intros s; [set_solver|].
  rewrite fmap_cons; cbn [run_ops]. destruct (spec_changes_op op s) as [s' r] eqn:Hop.
  specialize (IH s'). destruct (run_ops (spec_changes_op <$> ops) s') as [s'' rs]; simpl in *.
  apply not_elem_of_cons. split; [|done]. intros <-.
  destruct op as [| | | | | | | |op]; try done.
  apply (spec_tx_no_panic op s). simpl in Hop. by rewrite Hop.
Qed.

(** ** Coherence of the cached root *)

(** The operations that keep the cached root right: all of them, except leaving
    the runtime while transactions it opened are still open, and computing
    roots of different state versions. *)
Definition root_safe (sv : StateVersion) (op : changes_op) o : bool :=
  match op with
  | CStorageRoot sv' => bool_decide (sv' = sv)
  | CTx TxExitRuntime =>
      match execution_mode (top o) with
      | Client => true
      | Runtime => negb (has_open_runtime_transactions (top o))
      end
  | _ => true
  end.

Lemma root_safe_level sv tx o :
  lockstep o → root_safe sv (CTx tx) o = true → tx ≠ TxRollback →
  tx_level tx (tx_of (top o)) (tx_depth (fst (tx_next tx (tx_of (top o))))) = changes_depth o.
Proof.
  intros ([_ Hrt] & _) Hsafe Hne. unfold changes_depth in *.
  destruct tx; try done; cbn [tx_next tx_level root_safe fst tx_depth tx_mode tx_of] in *.
  - lia.
  - destruct (tx_may_close (tx_of (top o))); simpl; [|done]. by rewrite bool_decide_eq_true_2.
  - by destruct (execution_mode (top o)).
  - destruct (execution_mode (top o)); cbn [fst tx_depth]; [done|]. specialize (Hrt eq_refl).
    unfold has_open_runtime_transactions in Hsafe. case_bool_decide; simpl in *; [done|lia].
Qed.

Lemma coherent_step sv op o :
  lockstep o → cache_coherent sv o → root_safe sv op o = true →
  cache_coherent sv (fst (run_changes_op decode_u32 backend op o)).
Proof.
  intros Hl Hco Hsafe. destruct (changes_op_cases op) as [Hw|[[sv' ->]|[tx ->]]].
  - destruct (write_ok op o Hl Hw) as (o' & Hr & _ & Hc). rewrite Hr; simpl.
    unfold cache_coherent. destruct op; try (by rewrite Hc). cbn [run_changes_op] in Hr.
    unfold set_offchain_storage, on_offchain in Hr.
    destruct val; case_in Hr; by simplify_eq/=.
  - destruct (storage_root_ok (E:=op_error) sv' o Hl) as (o' & r & Hr & Hm & Hc & _).
    cbn [run_changes_op]. unfold bindM. rewrite Hr; simpl. unfold cache_coherent in *. rewrite Hc.
    simpl in Hsafe. apply bool_decide_eq_true in Hsafe as ->.
    assert (compute_root backend o' sv = compute_root backend o sv) as ->.
    { destruct o, o'. by injection Hm as -> -> ->. }
    destruct (storage_transaction_cache o) as [[tx root]|]; simpl; [done|].
    rewrite compute_root_ok by done. by destruct (root_of_input _ _).
  - destruct (changes_tx_ok tx o Hl) as (o' & Hr & (Hl' & Htx & Hv) & Hc). rewrite Hr; simpl.
    destruct (decide (tx = TxRollback)) as [->|Hne]; [unfold cache_coherent; by rewrite Hc|].
    assert (Hlev := root_safe_level sv tx o Hl Hsafe Hne). rewrite <- Htx in Hlev.
    change (tx_depth (tx_of (top o'))) with (changes_depth o') in Hlev.
    assert (Hc' : storage_transaction_cache o' = storage_transaction_cache o ∧
      child_views (children o') (changes_depth o') = child_views (children o) (changes_depth o)).
    { rewrite <- Hlev. by destruct tx. }
    destruct Hc' as [Hcache Hch]. unfold cache_coherent in *. rewrite Hcache.
    rewrite compute_root_ok by done. rewrite compute_root_ok in Hco by done.
    unfold root_input in *. rewrite Hch.
    specialize (Hv (changes_depth o') (le_n _)).
    apply (f_equal v_top) in Hv. unfold full_view in Hv; simpl in Hv. rewrite Hv.
    by rewrite Hlev.
Qed.

(** The overlays that executions from the empty one reach when no runtime call
    leaves transactions open behind it. *)
Inductive reachable (sv : StateVersion) : OverlayedChanges Root Tx → Prop :=
| reach_default : reachable sv OverlayedChanges_default
| reach_step op o :
    reachable sv o → root_safe sv op o = true →
    reachable sv (fst (run_changes_op decode_u32 backend op o)).

Lemma lockstep_default : lockstep (Root:=Root) (Tx:=Tx) OverlayedChanges_default.
Proof.
  unfold lockstep, synced; simpl. split_all; [apply overlay_wf_default| |apply overlay_wf_default|done].
  apply map_Forall_empty.
Qed.

Lemma reachable_ok sv o : reachable sv o → lockstep o ∧ cache_coherent sv o.
Proof.
  induction 1 as [|op o _ [Hl Hc] Hs]; [split; [apply lockstep_default|done]|].
  split; [|by apply coherent_step].
  destruct (changes_op_ok op o Hl) as (o' & r & -> & _ & Hl'). done.
Qed.

(** ** A dangling transaction *)

Lemma set_storage_children key val o :
  lockstep o → children (fst (run_changes_op decode_u32 backend (CSet key val) o)) = children o.
Proof.
  intros [Hwf _]. cbn [run_changes_op]. unfold set_storage, bindM, modifyM.
  destruct (extrinsic_index_ok (E:=op_error)
    (with_stats (mark_dirty o) (tally_write_overlay (value_size val) (stats (mark_dirty o)))) Hwf)
    as (st & idx & ->). unfold on_top.
  destruct (set _ _ _ _) as [t r]. done.
Qed.

(** The client calls into the runtime, which opens a transaction and writes in it. *)
Lemma dangling_write key val o :
  lockstep o → execution_mode (top o) = Client →
  let o1 := fst (run_ops (run_changes_op decode_u32 backend <$>
    [CTx TxEnterRuntime; CTx TxStart; CSet key val]) o) in
  lockstep o1 ∧ tx_of (top o1) = mkTx (S (changes_depth o)) (changes_depth o) Runtime ∧
  storage_transaction_cache o1 = None ∧
  visible (top o1) (changes_depth o) = visible (top o) (changes_depth o) ∧
  child_views (children o1) (changes_depth o) = child_views (children o) (changes_depth o).
Proof.
  intros Hl Hm. cbn [fmap list_fmap run_ops].
  assert (Hmode : tx_mode (tx_of (top o)) = Client) by done.
  destruct (changes_tx_ok TxEnterRuntime o Hl) as (oa & Ha & (Hla & Hta & Hva) & _ & Hca).
  cbn [tx_next] in Ha, Hta. rewrite Hmode in Ha, Hta. rewrite Ha.
  assert (Hda : changes_depth oa = changes_depth o) by (by injection Hta).
  destruct (changes_tx_ok TxStart oa Hla) as (ob & Hb & (Hlb & Htb & Hvb) & _ & _).
  rewrite Hb. assert (Hob : ob = changes_start_transaction oa) by (by injection Hb).
  destruct (write_ok (CSet key val) ob Hlb eq_refl) as (oc & Hc & (Hlc & Htc & Hvc & _) & Hcache).
  pose proof (set_storage_children key val ob Hlb) as Hch. rewrite Hc in Hch |- *. simpl in Hch |- *.
  rewrite Hta in Htb. cbn in Htb.
  assert (Hdb : changes_depth ob = S (changes_depth o)) by (by injection Htb).
  split; [done|]. split; [by rewrite Htc, Htb|]. split; [done|]. split.
  - assert (Hv : full_view oc (changes_depth o) = full_view o (changes_depth o)).
    { rewrite Hvc, Hvb, Hva by (rewrite ?Hdb; cbn [tx_level tx_of tx_depth];
        fold (changes_depth oa); lia).
      cbn [tx_level tx_of tx_depth]. fold (changes_depth oa). by rewrite Hda, Nat.min_id. }
    by apply (f_equal v_top) in Hv.
  - rewrite Hch, Hob, (proj2 (start_ok oa Hla)). cbn [tx_level tx_of tx_depth].
    fold (changes_depth oa). rewrite Hda, Nat.min_id. rewrite Hda in Hca. exact Hca.
Qed.

(** ** Draining *)

Lemma drain_commited_ok {E K V : Type} `{Countable K} (m : OverlayedMap K V) :
  overlay_wf m → transaction_depth m = 0 →
  drain_commited (E:=E) m = Ok (visible m 0) ∧ map_values (E:=E) into_value (changes m) = Ok (visible m 0).
Proof.
  intros [Hwf _] Hd. unfold drain_commited, map_values. rewrite (decide_True (P := _ = 0)) by done.
  assert (Hpop : ∀ k e, changes m !! k = Some e → ∃ t ts, vec_pop (transactions e) = Some (t, ts) ∧
    visible m 0 !! k = Some (value t)).
  { intros k e He. specialize (Hwf k). unfold entry_ok in Hwf. rewrite He in Hwf.
    rewrite visible_lookup, He; simpl. destruct (dirty_keys m) eqn:Hds;
      [|unfold transaction_depth in Hd; by rewrite Hds in Hd].
    unfold version_at; simpl. destruct (snoc_cases (transactions e)) as [Hn|(ts & t & ->)];
      [rewrite Hn in Hwf; simpl in Hwf; lia|].
    exists t, ts. by rewrite vec_pop_snoc, dirty_count_nil, Nat.sub_0_r, firstn_all, last_snoc. }
  split; (rewrite decide_True;
    [f_equal; apply map_eq; intros k; rewrite lookup_omap; destruct (changes m !! k) as [e|] eqn:He
    |intros k e He]).
  1, 4: destruct (Hpop k e He) as (t & ts & Hp & ->); unfold pop_transaction, into_value; simpl;
    by rewrite Hp.
  1, 3: rewrite visible_lookup, He; done.
  1, 2: destruct (Hpop k e He) as (t & ts & Hp & _); unfold pop_transaction, into_value; by rewrite Hp.
Qed.

Lemma drain_children {E : Type} o :
  lockstep o → transaction_depth (top o) = 0 →
  map_values (E:=E) (λ c, match drain_commited (E:=E) c.1 with Ok m => Some m | _ => None end)
    (children o) = Ok ((λ c, visible c.1 0) <$> children o).
Proof.
  intros (_ & Hch & _) Hd. unfold map_values.
  assert (Hone : ∀ sk c, children o !! sk = Some c → drain_commited (E:=E) c.1 = Ok (visible c.1 0)).
  { intros sk c Hc. destruct (Hch sk c Hc) as [Hwf Ht]. apply (f_equal tx_depth) in Ht.
    simpl in Ht. apply (drain_commited_ok c.1); congruence. }
  rewrite decide_True; cycle 1.
  { intros sk c Hc. by rewrite (Hone sk c Hc). }
  f_equal. apply map_eq. intros sk. rewrite lookup_omap, lookup_fmap.
  destruct (children o !! sk) as [c|] eqn:Hc; simpl; [|done]. by rewrite (Hone sk c Hc).
Qed.

(** [drain_storage_changes] once the root is known. *)
Lemma drain_prefix sv o :
  lockstep o → cache_coherent sv o →
  ∃ root tx, compute_root backend o sv = Some (root, tx) ∧
  drain_storage_changes backend sv (E:=op_error) o =
    (let* main := liftM (drain_commited (top o)) in
     modifyM (λ o, with_top o OverlayedMap_default);;;
     modifyM (λ o, with_children o ∅);;;
     let* child := liftM (map_values
       (λ c, match drain_commited (E:=op_error) c.1 with Ok m => Some m | _ => None end)
       (children o)) in
     let* off := offchain_drain_committed in
     modifyM (λ o, mkChanges (top o) (children o) (offchain o) [] (collect_extrinsics o) (stats o)
                     (storage_transaction_cache o));;;
     retM (mkStorageChanges main child off tx root (transaction_index_ops o))) (with_cache o None).
Proof.
  intros Hl Hco. unfold cache_coherent in Hco. unfold drain_storage_changes. unfold bindM, getM at 1.
  destruct (storage_transaction_cache o) as [[tx root]|] eqn:Hc.
  - exists root, tx. split; [done|]. unfold retM at 1, getM, liftM at 1. by rewrite Hc.
  - rewrite compute_root_ok by done.
    destruct (root_of_input (root_input o) sv) as [root tx] eqn:Hr. exists root, tx.
    split; [done|]. unfold storage_root. by rewrite Hc, compute_root_ok, Hr.
Qed.

End overlay_lemmas.

(** * Properties *)

Section overlay_properties.
Context {Root Tx BErr : Type} (decode_u32 : list Z -> option Z) (backend : Backend Root Tx BErr).
Implicit Types (o : OverlayedChanges Root Tx).

(** [C9] Any sequence of the operations of [changes_op] (top, child and offchain writes, prefix
    and child clears, computations of the storage root, transaction operations, runtime entries
    and exits), run on an overlay in lockstep, reports exactly the results of a stack of storage
    views and ends in lockstep with the stack's views; no [expect] on the way of these
    operations fails, and reads see the topmost view.  Draining the changes or the committed
    offchain changes, and the root of a child, are not among these operations. *)
Theorem changes_implement_views o ops :
  lockstep o →
  let '(o', rs) := run_ops (run_changes_op decode_u32 backend <$> ops) o in
  let '(s', rs') := run_ops (spec_changes_op <$> ops) (views_of o) in
  rs = rs' ∧ (Panic ∉ rs) ∧ lockstep o' ∧ views_of o' = s' ∧
  ∀ v, last (stack s') = Some v →
    (∀ key, snd (storage (E:=op_error) key o') = Ok (v_top v !! key)) ∧
    (∀ info key, snd (child_storage (E:=op_error) info key o') =
       Ok (v_child v !! (storage_key info, key))).
Proof.
  intros Hl. destruct (changes_ops_ok decode_u32 backend ops o Hl) as (Hrs & Hs & Hl').
  pose proof (spec_changes_never_panics ops (views_of o)) as Hp.
  destruct (run_ops (run_changes_op decode_u32 backend <$> ops) o) as [o' rs].
  destruct (run_ops (spec_changes_op <$> ops) (views_of o)) as [s' rs']; simpl in *.
  subst rs' s'. split_all; try done. intros v. cbn [views_of stack].
  rewrite last_levels. intros [= <-]. split.
  - intros key. destruct (storage_ok (E:=op_error) key o') as [st ->]; [apply Hl'|done].
  - intros info key. by apply child_storage_ok.
Qed.

(** [C24] In every overlay an execution reaches without leaving
    the runtime in the middle of a transaction, [storage_root] returns the root
    of exactly what the overlay shows, whether it is computed or cached, and
    caches it with the transaction that produces it. *)
Theorem storage_root_coherent sv o :
  reachable decode_u32 backend sv o →
  ∃ o' root tx, storage_root backend sv (E:=op_error) o =
      (o', Ok (root, bool_decide (is_Some (storage_transaction_cache o)))) ∧
    compute_root backend o sv = Some (root, tx) ∧
    storage_transaction_cache o' = Some (tx, root) ∧ maps o' = maps o.
Proof.
  intros [Hl Hc]%reachable_ok. unfold cache_coherent in Hc.
  destruct (storage_root_ok backend (E:=op_error) sv o Hl) as (o' & r & Hr & Hm & Hca & Hres).
  destruct (storage_transaction_cache o) as [[tx root]|]; simpl in *; subst r.
  - exists o', root, tx. rewrite Hca. done.
  - rewrite compute_root_ok by done. destruct (root_of_input _ _ _) as [root tx].
    exists o', root, tx. rewrite Hca. done.
Qed.

(** Leaving the runtime with a transaction still open
    rolls back what it wrote but keeps the root that was cached inside it: the
    overlay shows what it showed before the call, and [storage_root] still
    answers with the root that includes the discarded write. *)
Theorem exit_runtime_stale_root sv key val o :
  lockstep o → execution_mode (top o) = Client →
  let run := λ ops o, fst (run_ops (run_changes_op decode_u32 backend <$> ops) o) in
  let o1 := run [CTx TxEnterRuntime; CTx TxStart; CSet key val] o in
  let o2 := run [CStorageRoot sv; CTx TxExitRuntime] o1 in
  compute_root backend o2 sv = compute_root backend o sv ∧
  ∃ root tx, compute_root backend o1 sv = Some (root, tx) ∧
    snd (storage_root backend sv (E:=op_error) o2) = Ok (root, true).
Proof.
  intros Hl Hm run o1 o2.
  destruct (dangling_write decode_u32 backend key val o Hl Hm) as (Hl1 & Ht1 & Hc1 & Hv1 & Hch1).
  change (fst (run_ops _ o)) with o1 in Hl1, Ht1, Hc1, Hv1, Hch1. clearbody o1.
  destruct (storage_root_ok backend (E:=op_error) sv o1 Hl1) as (od & r & Hd & Hmd & Hcd & _).
  rewrite Hc1 in Hcd. cbn [default] in Hcd.
  assert (Hld : lockstep od ∧ tx_of (top od) = tx_of (top o1) ∧ top od = top o1 ∧
    children od = children o1).
  { destruct o1, od. by injection Hmd as -> -> ->. }
  destruct Hld as (Hld & Htd & Htopd & Hchd). rewrite Ht1 in Htd.
  destruct (changes_tx_ok decode_u32 backend TxExitRuntime od Hld)
    as (oe & He & (Hle & Hte & Hve) & Hce & Hche).
  assert (Ho2 : o2 = oe).
  { unfold o2, run. cbn [fmap list_fmap run_ops]. cbn [run_changes_op] in He |- *.
    unfold bindM. by rewrite Hd; simpl; rewrite He. }
  clearbody o2. subst o2. rewrite Htd in Hte. cbn in Hte. rewrite Nat.min_l in Hte by lia.
  assert (Hde : changes_depth oe = changes_depth o) by (by injection Hte).
  rewrite !compute_root_ok by done. split.
  - do 2 f_equal. unfold root_input. specialize (Hve (changes_depth oe) (le_n _)).
    apply (f_equal v_top) in Hve. cbn in Hve. rewrite Hve, Hche, Hde. cbn [tx_level].
    by rewrite Htopd, Hchd, Hv1, Hch1.
  - unfold storage_root. rewrite Hce, Hcd.
    destruct (root_of_input backend (root_input o1) sv) as [root tx]. by exists root, tx.
Qed.

(** Draining an overlay with no open transaction yields
    exactly the committed top, child and offchain changes and the index
    operations, with the root and transaction of what the overlay shows, and
    leaves an empty overlay; with an open transaction it panics. *)
Theorem drain_storage_changes_ok sv o :
  lockstep o → cache_coherent backend sv o →
  (changes_depth o ≠ 0 → snd (drain_storage_changes backend sv (E:=op_error) o) = Panic) ∧
  (changes_depth o = 0 →
   ∃ sc, drain_storage_changes backend sv (E:=op_error) o =
      (mkChanges OverlayedMap_default ∅ OverlayedMap_default [] (collect_extrinsics o) (stats o) None,
       Ok sc) ∧
    main_storage_changes sc = v_top (full_view o 0) ∧
    (∀ sk key, (child_storage_changes sc !! sk ≫= lookup key) =
       v_child (full_view o 0) !! (sk, key)) ∧
    dom (child_storage_changes sc) = dom (children o) ∧
    offchain_storage_changes sc = v_off (full_view o 0) ∧
    compute_root backend o sv = Some (transaction_storage_root sc, transaction sc) ∧
    transaction_index_changes sc = transaction_index_ops o).
Proof.
  intros Hl Hco. destruct (drain_prefix backend sv o Hl Hco) as (root & tx & Hroot & Hpre).
  rewrite Hpre. split.
  - intros Hd. unfold changes_depth in Hd. unfold drain_commited at 1. by rewrite decide_False.
  - intros Hd. pose proof Hl as (Hwf & Hch & Hwfo & Hto). unfold changes_depth in Hd.
    rewrite (proj1 (drain_commited_ok (top o) Hwf Hd)).
    rewrite (drain_children o Hl Hd).
    apply (f_equal tx_depth) in Hto. simpl in Hto. rewrite Hd in Hto.
    unfold bindM, liftM, modifyM, offchain_drain_committed, on_offchain, offchain_drain, offchain_into_iter.
    cbn [offchain with_top with_children with_cache].
    rewrite (proj2 (drain_commited_ok (offchain o) Hwfo Hto)).
    eexists. split; [done|]. cbn [main_storage_changes child_storage_changes
      offchain_storage_changes transaction transaction_storage_root transaction_index_changes].
    split_all; try done.
    + intros sk key. unfold full_view; cbn [v_child]. by rewrite lookup_map_uncurry.
    + by rewrite dom_fmap_L.
Qed.

End overlay_properties.

(** * Concrete instances *)

(** A backend whose root is the change set itself. *)
Definition demo_backend : Backend Delta (list Delta) unit :=
  mkBackend (λ _, Ok None) (λ delta _, (delta, [delta]))
    (λ _ delta _, (delta, bool_decide (delta = []), [delta]))
    [] (λ a b, a ++ b) (λ r, [Z.of_nat (length r)]) (λ _, None) [].

Definition demo_decode (bytes : list Z) : option Z :=
  match bytes with [b] => Some b | _ => None end.

Definition demo_child : ChildInfo := ParentKeyId [7%Z].

Definition demo_changes_ops : list changes_op :=
  [CSet [1%Z] (Some [10%Z]); CTx TxStart; CSetChild demo_child [2%Z] (Some [20%Z]);
   CSetOffchain [3%Z] (Some [30%Z]); CTx TxStart; CClearPrefix [1%Z]; CClearChild demo_child;
   CTx TxRollback; CTx TxCommit; CTx TxCommit].

Definition demo_run (ops : list changes_op) : OverlayedChanges Delta (list Delta) :=
  fst (run_ops (run_changes_op demo_decode demo_backend <$> ops) OverlayedChanges_default).

Lemma changes_implement_views_witness :
  snd (run_ops (run_changes_op demo_decode demo_backend <$> demo_changes_ops)
         OverlayedChanges_default) =
    [Ok tt; Ok tt; Ok tt; Ok tt; Ok tt; Ok tt; Ok tt; Ok tt; Ok tt; Err ENoOpenTransaction] ∧
  snd (storage (E:=op_error) [1%Z] (demo_run demo_changes_ops)) = Ok (Some (Some [10%Z])) ∧
  lockstep (demo_run demo_changes_ops).
Proof.
  split; [vm_compute; reflexivity|]. split; [vm_compute; reflexivity|].
  pose proof (changes_implement_views demo_decode demo_backend OverlayedChanges_default
    demo_changes_ops lockstep_default) as Hr.
  unfold demo_run. destruct (run_ops (run_changes_op _ _ <$> _) _).
  destruct (run_ops (spec_changes_op <$> _) _). apply Hr.
Defined.

Lemma demo_reachable :
  reachable demo_decode demo_backend V1
    (demo_run [CSet [1%Z] (Some [10%Z]); CStorageRoot V1; CTx TxStart]).
Proof.
  change (reachable demo_decode demo_backend V1
    (fst (run_changes_op demo_decode demo_backend (CTx TxStart)
      (fst (run_changes_op demo_decode demo_backend (CStorageRoot V1)
        (fst (run_changes_op demo_decode demo_backend (CSet [1%Z] (Some [10%Z]))
          OverlayedChanges_default))))))).
  repeat (apply reach_step; [|vm_compute; reflexivity]). apply reach_default.
Qed.

Lemma storage_root_coherent_witness :
  ∃ root tx, snd (storage_root demo_backend V1 (E:=op_error)
      (demo_run [CSet [1%Z] (Some [10%Z]); CStorageRoot V1; CTx TxStart])) = Ok (root, true) ∧
    compute_root demo_backend (demo_run [CSet [1%Z] (Some [10%Z]); CStorageRoot V1; CTx TxStart]) V1
      = Some (root, tx).
Proof.
  destruct (storage_root_coherent demo_decode demo_backend V1 _ demo_reachable)
    as (o' & root & tx & Hr & Hc & _).
  exists root, tx. rewrite Hr. split; [|exact Hc]. vm_compute; reflexivity.
Defined.

Lemma exit_runtime_stale_root_witness :
  let run := λ ops o, fst (run_ops (run_changes_op demo_decode demo_backend <$> ops) o) in
  let o := run [CTx TxEnterRuntime; CTx TxStart; CSet [1%Z] (Some [10%Z])] OverlayedChanges_default in
  let o' := run [CStorageRoot V1; CTx TxExitRuntime] o in
  compute_root demo_backend o' V1 = Some ([], [[]]) ∧
  snd (storage_root demo_backend V1 (E:=op_error) o') = Ok ([([1%Z], Some [10%Z])], true).
Proof.
  intros run o o'.
  destruct (exit_runtime_stale_root demo_decode demo_backend V1 [1%Z] (Some [10%Z])
    OverlayedChanges_default lockstep_default eq_refl) as (Hc & root & tx & Hr & Hs).
  split; [rewrite <- (eq_refl : compute_root demo_backend OverlayedChanges_default V1 = Some ([], [[]]));
    exact Hc|].
  vm_compute in Hr. injection Hr as <- <-. exact Hs.
Defined.

Lemma drain_storage_changes_ok_witness :
  let o := demo_run demo_changes_ops in
  changes_depth o = 0 ∧
  ∃ sc, snd (drain_storage_changes demo_backend V1 (E:=op_error) o) = Ok sc ∧
    main_storage_changes sc !! [1%Z] = Some (Some [10%Z]).
Proof.
  split; [vm_compute; reflexivity|].
  destruct (drain_storage_changes_ok demo_backend V1 (demo_run demo_changes_ops)) as [_ Hd].
  - destruct (changes_ops_ok demo_decode demo_backend demo_changes_ops _ lockstep_default)
      as (_ & _ & Hl). exact Hl.
  - vm_compute. exact I.
  - destruct Hd as (sc & -> & Hm & _); [vm_compute; reflexivity|]. exists sc. split; [done|].
    rewrite Hm. vm_compute. reflexivity.
Defined.
