(* ===== verification/Allocator.v ===== *)
(** The freeing-bump heap allocator of the wasm executor
    (client/allocator/src/freeing_bump.rs, lib.rs and error.rs).

    The allocator hands out power-of-two blocks from a bump pointer and keeps
    freed blocks in intrusive linked lists threaded through the guest's memory,
    one per order; it is shown to keep a heap of disjoint blocks that tile the
    space between the heap base and the bumper, whatever the guest writes into
    the blocks it owns. *)

From stdpp Require Import base numbers list option gmap sets fin_maps strings.
From S2P Require Import Prelude.

Local Open Scope rust_scope.
Local Open Scope Z_scope.

(** * Memory *)

Definition PAGE_SIZE : Z := 65536.
Definition MAX_WASM_PAGES : Z := 4 * 1024 * 1024 * 1024 / PAGE_SIZE.

(** The trait [Memory]: byte access to the slice of [with_access] and
    [with_access_mut], growing, and the page counts.  [grow] reports whether it
    succeeded. *)
Class Memory (T : Type) := {
  mem_len : T -> Z;
  mem_get : T -> Z -> Z;
  mem_set : T -> Z -> Z -> T;
  grow : T -> Z -> T * bool;
  pages : T -> Z;
  max_pages : T -> option Z;
}.

(** What the trait and the wasm specification promise about an implementation:
    the slice covers exactly the pages, writes are local, growing adds the pages
    asked for and keeps the contents. *)
Class MemoryLaws (T : Type) `{Memory T} := {
  mem_ok : T -> Prop;
  len_pages m : mem_ok m -> mem_len m = pages m * PAGE_SIZE;
  pages_range m : mem_ok m -> 0 <= pages m <= MAX_WASM_PAGES;
  max_pages_range m n : mem_ok m -> max_pages m = Some n -> pages m <= n <= MAX_WASM_PAGES;
  get_byte m i : mem_ok m -> 0 <= mem_get m i < 256;
  get_set_eq m i b : mem_ok m -> 0 <= i < mem_len m -> 0 <= b < 256 -> mem_get (mem_set m i b) i = b;
  get_set_ne m i j b : i <> j -> mem_get (mem_set m i b) j = mem_get m j;
  set_ok m i b : mem_ok m -> 0 <= i < mem_len m -> 0 <= b < 256 -> mem_ok (mem_set m i b);
  set_pages m i b : pages (mem_set m i b) = pages m;
  set_max_pages m i b : max_pages (mem_set m i b) = max_pages m;
  grow_ok m n m' : mem_ok m -> 0 <= n -> grow m n = (m', true) ->
    mem_ok m' /\ pages m' = pages m + n /\ max_pages m' = max_pages m /\
    forall i, 0 <= i < mem_len m -> mem_get m' i = mem_get m i;
}.

(** * Errors *)

Inductive Error :=
| RequestedAllocationTooLarge
| AllocatorOutOfSpace
| MemoryShrinked
| Other (msg : string).

Definition error (msg : string) : Error := Other msg.

(** * Orders *)

Definition ALIGNMENT : Z := 8.
Definition HEADER_SIZE : Z := 8.
Definition N_ORDERS : Z := 23.
Definition MIN_POSSIBLE_ALLOCATION : Z := 8.
Definition MAX_POSSIBLE_ALLOCATION : Z := 33554432.

(** [u32::next_power_of_two] for values up to [2^31]. *)
Definition next_power_of_two (n : Z) : Z := 2 ^ Z.log2_up n.

Fixpoint ctz_pos (p : positive) : Z :=
  match p with
  | xO p => 1 + ctz_pos p
  | _ => 0
  end.

(** [u32::trailing_zeros] *)
Definition trailing_zeros (n : Z) : Z :=
  match n with
  | Zpos p => ctz_pos p
  | _ => 32
  end.

(** [struct Order(u32)] is its raw value. *)
Definition Order_from_raw (order : Z) : res Error Z :=
  if order <? N_ORDERS then Ok order else Err (error "invalid order").

Definition Order_from_size (size : Z) : res Error Z :=
  if MAX_POSSIBLE_ALLOCATION <? size then Err RequestedAllocationTooLarge
  else
    let clamped_size :=
      if size <? MIN_POSSIBLE_ALLOCATION then MIN_POSSIBLE_ALLOCATION else size in
    let power_of_two_size := next_power_of_two clamped_size in
    Ok (wsub 32 (trailing_zeros power_of_two_size) (trailing_zeros MIN_POSSIBLE_ALLOCATION)).

Definition Order_size (order : Z) : Z := wrap 32 (Z.shiftl MIN_POSSIBLE_ALLOCATION order).

(** * Links and headers *)

Definition NIL_MARKER : Z := umax 32.

Inductive Link := Nil | Ptr (ptr : Z).

Definition Link_from_raw (raw : Z) : Link :=
  if raw =? NIL_MARKER then Nil else Ptr raw.

Definition Link_into_raw (l : Link) : Z :=
  match l with Nil => NIL_MARKER | Ptr ptr => ptr end.

Inductive Header := Free (l : Link) | Occupied (order : Z).

Definition into_occupied (h : Header) : option Z :=
  match h with Occupied order => Some order | Free _ => None end.

Definition into_free (h : Header) : option Link :=
  match h with Free l => Some l | Occupied _ => None end.

Definition OCCUPIED_MASK : Z := 4294967296.

Section memory_ext.
Context {T : Type} `{Memory T}.

Definition heap_range (offset length heap_len : Z) : option (Z * Z) :=
  e ← checked_add 32 offset length;
  if e <=? heap_len then Some (offset, e) else None.

(** Little-endian reads and writes of [n] bytes. *)
Fixpoint le_get (m : T) (ptr : Z) (n : nat) : Z :=
  match n with
  | O => 0
  | S n => mem_get m ptr + 256 * le_get m (ptr + 1) n
  end.

Fixpoint le_set (m : T) (ptr : Z) (n : nat) (v : Z) : T :=
  match n with
  | O => m
  | S n => le_set (mem_set m ptr (v mod 256)) (ptr + 1) n (v / 256)
  end.

Definition read_le_u64 (m : T) (ptr : Z) : res Error Z :=
  match heap_range ptr 8 (mem_len m) with
  | Some (s, _) => Ok (le_get m s 8)
  | None => Err (error "read out of heap bounds")
  end.

Definition write_le_u64 (m : T) (ptr val : Z) : res Error T :=
  match heap_range ptr 8 (mem_len m) with
  | Some (s, _) => Ok (le_set m s 8 val)
  | None => Err (error "write out of heap bounds")
  end.

Definition mem_size (m : T) : Z := pages m * PAGE_SIZE.

Definition read_from (m : T) (header_ptr : Z) : res Error Header :=
  let? raw_header := read_le_u64 m header_ptr in
  let occupied := negb (Z.land raw_header OCCUPIED_MASK =? 0) in
  let header_data := wrap 32 raw_header in
  if occupied then
    let? order := Order_from_raw header_data in Ok (Occupied order)
  else Ok (Free (Link_from_raw header_data)).

Definition write_into (h : Header) (m : T) (header_ptr : Z) : res Error T :=
  let '(header_data, occupied_mask) :=
    match h with
    | Occupied order => (order, OCCUPIED_MASK)
    | Free link => (Link_into_raw link, 0)
    end in
  write_le_u64 m header_ptr (Z.lor header_data occupied_mask).

End memory_ext.

(** * The allocator *)

(** [FreeLists]: the heads, one per order. *)
Definition FreeLists_new : list Link := replicate (Z.to_nat N_ORDERS) Nil.

Record AllocationStats := mkAllocationStats {
  bytes_allocated : Z;
  bytes_allocated_peak : Z;
  bytes_allocated_sum : Z;
  address_space_used : Z;
}.

Record FreeingBumpHeapAllocator := mkAllocator {
  original_heap_base : Z;
  bumper : Z;
  free_lists : list Link;
  poisoned : bool;
  last_observed_memory_size : Z;
  stats : AllocationStats;
}.

Definition allocator_new (heap_base : Z) : FreeingBumpHeapAllocator :=
  let aligned_heap_base :=
    wmul 32 (wsub 32 (wadd 32 heap_base ALIGNMENT) 1 / ALIGNMENT) ALIGNMENT in
  mkAllocator aligned_heap_base aligned_heap_base FreeLists_new false 0
    (mkAllocationStats 0 0 0 0).

Definition pages_from_size (size : Z) : option Z :=
  let n := wsub 64 (wadd 64 size PAGE_SIZE) 1 / PAGE_SIZE in
  if n <=? umax 32 then Some n else None.

Section allocator.
Context {T : Type} `{Memory T}.

(** The allocator with the memory it is called on. *)
Abbreviation state := (FreeingBumpHeapAllocator * T)%type.
Implicit Types (a : FreeingBumpHeapAllocator) (m : T).

Definition with_bumper a b : FreeingBumpHeapAllocator :=
  mkAllocator (original_heap_base a) b (free_lists a) (poisoned a)
    (last_observed_memory_size a) (stats a).
Definition with_free_lists a fl : FreeingBumpHeapAllocator :=
  mkAllocator (original_heap_base a) (bumper a) fl (poisoned a)
    (last_observed_memory_size a) (stats a).
Definition with_poisoned a p : FreeingBumpHeapAllocator :=
  mkAllocator (original_heap_base a) (bumper a) (free_lists a) p
    (last_observed_memory_size a) (stats a).
Definition with_observed a z : FreeingBumpHeapAllocator :=
  mkAllocator (original_heap_base a) (bumper a) (free_lists a) (poisoned a) z (stats a).
Definition with_alloc_stats a st : FreeingBumpHeapAllocator :=
  mkAllocator (original_heap_base a) (bumper a) (free_lists a) (poisoned a)
    (last_observed_memory_size a) st.

(** [PoisonBomb]: unless the body gets to [disarm], the flag is raised when the
    guard is dropped. *)
Definition PoisonBomb {A} (body : M state Error A) : M state Error A := λ s,
  match body s with
  | ((a, m), Ok x) => ((a, m), Ok x)
  | ((a, m), Err e) => ((with_poisoned a true, m), Err e)
  | ((a, m), Panic) => ((with_poisoned a true, m), Panic)
  end.

Definition observe_memory_size : M state Error unit := λ '(a, m),
  if mem_size m <? last_observed_memory_size a then ((a, m), Err MemoryShrinked)
  else ((with_observed a (mem_size m), m), Ok tt).

(** The free list heads, indexed by order; an index out of range panics. *)
Definition free_list (order : Z) : M state Error Link := λ '(a, m),
  match free_lists a !! Z.to_nat order with
  | Some l => ((a, m), Ok l)
  | None => ((a, m), Panic)
  end.

Definition set_free_list (order : Z) (l : Link) : M state Error unit := λ '(a, m),
  match free_lists a !! Z.to_nat order with
  | Some _ => ((with_free_lists a (<[Z.to_nat order := l]> (free_lists a)), m), Ok tt)
  | None => ((a, m), Panic)
  end.

(** [FreeLists::replace] *)
Definition FreeLists_replace (order : Z) (new : Link) : M state Error Link :=
  let* prev := free_list order in
  set_free_list order new;;;
  retM prev.

Definition header_read (header_ptr : Z) : M state Error Header := λ '(a, m),
  ((a, m), read_from m header_ptr).

Definition header_write (h : Header) (header_ptr : Z) : M state Error unit := λ '(a, m),
  match write_into h m header_ptr with
  | Ok m' => ((a, m'), Ok tt)
  | Err e => ((a, m), Err e)
  | Panic => ((a, m), Panic)
  end.

(** Growing the memory so that [required_size] bytes fit. *)
Definition grow_for (required_size : Z) : M state Error unit := λ '(a, m),
  match pages_from_size required_size with
  | None => ((a, m), Err AllocatorOutOfSpace)
  | Some required_pages =>
      let current_pages := pages m in
      let max_pages := default MAX_WASM_PAGES (max_pages m) in
      if max_pages <=? current_pages then ((a, m), Err AllocatorOutOfSpace)
      else if max_pages <? required_pages then ((a, m), Err AllocatorOutOfSpace)
      else
        let next_pages := Z.min (wmul 32 current_pages 2) max_pages in
        let next_pages := Z.max next_pages required_pages in
        let '(m', grown) := grow m (wsub 32 next_pages current_pages) in
        if grown then ((a, m'), Ok tt) else ((a, m'), Err AllocatorOutOfSpace)
  end.

Definition bump (size : Z) : M state Error Z :=
  let* s := getM in
  let required_size := bumper s.1 + size in
  (if mem_size s.2 <? required_size then grow_for required_size else retM tt);;;
  modifyM (λ '(a, m), (with_bumper a (wadd 32 (bumper a) size), m));;;
  retM (bumper s.1).

(** The statistics after an allocation of [size] bytes. *)
Definition count_allocation (size : Z) : M state Error unit :=
  modifyM (λ '(a, m),
    let st := stats a in
    let allocated := wadd 32 (bytes_allocated st) size in
    (with_alloc_stats a
       (mkAllocationStats allocated (Z.max (bytes_allocated_peak st) allocated)
          (wadd 128 (bytes_allocated_sum st) size)
          (wsub 32 (bumper a) (original_heap_base a))), m)).

(** Taking a block from the free list of its order, or from the bump space. *)
Definition take_block (order : Z) : M state Error Z :=
  let* head := free_list order in
  match head with
  | Ptr header_ptr =>
      let* s := getM in
      (if mem_size s.2 <? header_ptr + Order_size order + HEADER_SIZE
       then errM (error "Invalid header pointer detected") else retM tt);;;
      let* h := header_read header_ptr in
      let* next_free :=
        liftM (ok_or (into_free h) (error "free list points to a occupied header")) in
      set_free_list order next_free;;;
      retM header_ptr
  | Nil => bump (wadd 32 (Order_size order) HEADER_SIZE)
  end.

Definition allocate (size : Z) : M state Error Z :=
  let* s := getM in
  if poisoned s.1 then errM (error "the allocator has been poisoned")
  else
    PoisonBomb (
      observe_memory_size;;;
      let* order := liftM (Order_from_size size) in
      let* header_ptr := take_block order in
      header_write (Occupied order) header_ptr;;;
      count_allocation (wadd 32 (Order_size order) HEADER_SIZE);;;
      retM (wadd 32 header_ptr HEADER_SIZE)).

Definition deallocate (ptr : Z) : M state Error unit :=
  let* s := getM in
  if poisoned s.1 then errM (error "the allocator has been poisoned")
  else
    PoisonBomb (
      observe_memory_size;;;
      let* header_ptr :=
        liftM (ok_or (checked_sub ptr HEADER_SIZE) (error "Invalid pointer for deallocation")) in
      let* h := header_read header_ptr in
      let* order :=
        liftM (ok_or (into_occupied h) (error "the allocation points to an empty header")) in
      let* prev_head := FreeLists_replace order (Ptr header_ptr) in
      header_write (Free prev_head) header_ptr;;;
      let* s := getM in
      let st := stats s.1 in
      let* allocated :=
        liftM (ok_or (checked_sub (bytes_allocated st) (wadd 32 (Order_size order) HEADER_SIZE))
                 (error "underflow of the currently allocated bytes count")) in
      modifyM (λ '(a, m),
        (with_alloc_stats a (mkAllocationStats allocated (bytes_allocated_peak st)
           (bytes_allocated_sum st) (address_space_used st)), m))).

End allocator.

(** * Arithmetic of orders and headers *)

Lemma ctz_pos_pow2 n : ctz_pos (Pos.pow 2 (Pos.of_succ_nat n)) = Z.of_nat (S n).
Proof.
  induction n as [|n IH]; [done|].
  change (Pos.of_succ_nat (S n)) with (Pos.succ (Pos.of_succ_nat n)).
  rewrite Pos.pow_succ_r.
  change (1 + ctz_pos (2 ^ Pos.of_succ_nat n)%positive = Z.of_nat (S (S n))). rewrite IH. lia.
Qed.

Lemma trailing_zeros_pow2 k : 0 ≤ k → trailing_zeros (2 ^ k) = k.
Proof.
  intros Hk. destruct (Z.eq_dec k 0) as [->|Hk0]; [done|].
  rewrite <- (Z2Nat.id k) by done. destruct (Z.to_nat k) as [|n] eqn:Hn; [lia|].
  replace (2 ^ Z.of_nat (S n)) with (Z.pos (Pos.pow 2 (Pos.of_succ_nat n))).
  - apply ctz_pos_pow2.
  - by rewrite Pos2Z.inj_pow.
Qed.

Lemma Order_size_pow o : 0 ≤ o < N_ORDERS → Order_size o = 2 ^ (o + 3).
Proof.
  unfold N_ORDERS, Order_size, MIN_POSSIBLE_ALLOCATION. intros Ho.
  rewrite Z.shiftl_mul_pow2 by lia. change 8 with (2 ^ 3). rewrite <- Z.pow_add_r by lia.
  rewrite (Z.add_comm 3). apply wrap_small. split; [lia|].
  apply Z.pow_lt_mono_r; lia.
Qed.

Lemma Order_size_bounds o :
  0 ≤ o < N_ORDERS → 8 ≤ Order_size o ≤ MAX_POSSIBLE_ALLOCATION ∧ Order_size o mod 8 = 0.
Proof.
  intros Ho. rewrite Order_size_pow by done. unfold N_ORDERS in Ho. split.
  - change 8 with (2 ^ 3). change MAX_POSSIBLE_ALLOCATION with (2 ^ 25).
    split; apply Z.pow_le_mono_r; lia.
  - rewrite Z.pow_add_r by lia. change (2 ^ 3) with 8. apply Z_mod_mult.
Qed.

(** The order of a size: the smallest block of at least 8 bytes that holds it. *)
Lemma Order_from_size_spec size :
  0 ≤ size ≤ MAX_POSSIBLE_ALLOCATION →
  ∃ o, Order_from_size size = Ok o ∧ 0 ≤ o < N_ORDERS ∧ size ≤ Order_size o ∧
    (0 < o → Order_size (o - 1) < size).
Proof.
  intros Hs. unfold Order_from_size. rewrite (proj2 (Z.ltb_ge _ _)) by lia.
  set (c := if size <? MIN_POSSIBLE_ALLOCATION then MIN_POSSIBLE_ALLOCATION else size).
  unfold MAX_POSSIBLE_ALLOCATION, MIN_POSSIBLE_ALLOCATION in *.
  assert (Hc : 8 ≤ c ≤ 33554432 ∧ size ≤ c ∧ (8 < c → c = size)).
  { unfold c. destruct (Z.ltb_spec size 8); lia. }
  assert (Hlog : 3 ≤ Z.log2_up c ≤ 25).
  { change 3 with (Z.log2_up 8). change 25 with (Z.log2_up 33554432).
    split; apply Z.log2_up_le_mono; lia. }
  unfold next_power_of_two. rewrite trailing_zeros_pow2 by lia.
  change (trailing_zeros 8) with 3. rewrite wsub_small by (unfold in_range; lia).
  exists (Z.log2_up c - 3). split; [done|]. unfold N_ORDERS. split; [lia|].
  rewrite Order_size_pow by (unfold N_ORDERS; lia). rewrite Z.sub_add.
  destruct (Z.log2_up_spec c) as [Hlo Hhi]; [lia|]. split; [lia|].
  intros Ho. rewrite Order_size_pow by (unfold N_ORDERS; lia).
  replace (Z.log2_up c - 3 - 1 + 3) with (Z.pred (Z.log2_up c)) by lia.
  assert (8 < c).
  { destruct (Z.eq_dec c 8) as [He|]; [|lia]. rewrite He in Ho. by vm_compute in Ho. }
  destruct Hc as (_ & _ & <-); done.
Qed.

Definition header_wf (h : Header) : Prop :=
  match h with
  | Occupied o => 0 ≤ o < N_ORDERS
  | Free Nil => True
  | Free (Ptr p) => 0 ≤ p < NIL_MARKER
  end.

(** The 64-bit word that encodes a header. *)
Definition raw_of (h : Header) : Z :=
  match h with
  | Occupied order => Z.lor order OCCUPIED_MASK
  | Free link => Z.lor (Link_into_raw link) 0
  end.

Lemma land_pow2 r k : 0 ≤ k → Z.land r (2 ^ k) = if Z.testbit r k then 2 ^ k else 0.
Proof.
  intros Hk. apply Z.bits_inj'. intros n Hn. rewrite Z.land_spec, Z.pow2_bits_eqb by done.
  destruct (Z.eqb_spec k n) as [->|Hne].
  - rewrite andb_true_r. destruct (Z.testbit r n) eqn:Hr; [|by rewrite Z.bits_0].
    by rewrite Z.pow2_bits_true.
  - rewrite andb_false_r. destruct (Z.testbit r k); [|by rewrite Z.bits_0].
    by rewrite Z.pow2_bits_false.
Qed.

Lemma lor_mask_low d b : in_range 32 d → wrap 32 (Z.lor d (if b : bool then OCCUPIED_MASK else 0)) = d.
Proof.
  intros Hd. unfold wrap. rewrite <- Z.land_ones by lia. rewrite Z.land_lor_distr_l.
  rewrite !Z.land_ones by lia. rewrite (Z.mod_small d) by done.
  by destruct b; rewrite Z.lor_0_r.
Qed.

Lemma lor_mask_high d b :
  in_range 32 d →
  negb (Z.land (Z.lor d (if b : bool then OCCUPIED_MASK else 0)) OCCUPIED_MASK =? 0) = b.
Proof.
  intros [Hd0 Hd]. change OCCUPIED_MASK with (2 ^ 32). rewrite land_pow2 by lia.
  assert (Hlow : Z.testbit d 32 = false).
  { destruct (Z.eq_dec d 0) as [->|]; [done|]. apply Z.bits_above_log2; [lia|].
    apply Z.log2_lt_pow2; lia. }
  rewrite Z.lor_spec, Hlow. by destruct b.
Qed.

(** Decoding is the inverse of encoding. *)
Lemma decode_raw h :
  header_wf h →
  in_range 64 (raw_of h) ∧
  (if negb (Z.land (raw_of h) OCCUPIED_MASK =? 0)
   then let? order := Order_from_raw (wrap 32 (raw_of h)) in Ok (Occupied order)
   else Ok (Free (Link_from_raw (wrap 32 (raw_of h))))) = Ok h.
Proof.
  intros Hwf. assert (Hr : ∃ d b, raw_of h = Z.lor d (if b : bool then OCCUPIED_MASK else 0) ∧
    in_range 32 d ∧
    h = if b then Occupied d else Free (Link_from_raw d)).
  { unfold in_range. destruct h as [[|p]|o]; simpl in Hwf.
    - exists NIL_MARKER, false. done.
    - exists p, false. unfold Link_from_raw. change NIL_MARKER with 4294967295 in *.
      destruct (Z.eqb_spec p 4294967295); [lia|]. split_all; [done|lia|lia|done].
    - exists o, true. unfold N_ORDERS in Hwf. split_all; [done|lia|lia|done]. }
  destruct Hr as (d & b & -> & Hd & Hh). rewrite lor_mask_low, lor_mask_high by done. split.
  - assert (Hm : 0 ≤ (if b then OCCUPIED_MASK else 0) < 2 ^ 33) by (by destruct b).
    unfold in_range in *. split; [apply Z.lor_nonneg; lia|].
    apply Z.lt_le_trans with (2 ^ 33); [|by vm_compute].
    destruct (Z.eq_dec (Z.lor d (if b then OCCUPIED_MASK else 0)) 0) as [->|]; [lia|].
    assert (0 ≤ Z.lor d (if b then OCCUPIED_MASK else 0)) by (apply Z.lor_nonneg; lia).
    apply Z.log2_lt_pow2; [lia|]. rewrite Z.log2_lor by lia.
    apply Z.max_lub_lt; [|destruct b; by vm_compute].
    destruct (Z.eq_dec d 0) as [->|]; [done|]. apply Z.log2_lt_pow2; lia.
  - subst h. destruct b; [|done]. simpl in Hwf. unfold Order_from_raw.
    by rewrite (proj2 (Z.ltb_lt _ _)) by lia.
Qed.

(** * Memory accesses *)

Section memory_lemmas.
Context {T : Type} `{MemoryLaws T}.
Implicit Types (m : T) (p : Z).

Lemma mem_len_set m i b : mem_ok m → 0 ≤ i < mem_len m → 0 ≤ b < 256 → mem_len (mem_set m i b) = mem_len m.
Proof. intros. rewrite !len_pages, set_pages; auto using set_ok. Qed.

Lemma le_get_ext m m' p n :
  (∀ i, p ≤ i < p + Z.of_nat n → mem_get m' i = mem_get m i) → le_get m' p n = le_get m p n.
Proof.
  revert p. induction n as [|n IH]; intros p Hi; [done|]; simpl.
  rewrite Hi by lia. rewrite IH; [done|]. intros. apply Hi. lia.
Qed.

Lemma le_set_frame m p n v i :
  i < p ∨ p + Z.of_nat n ≤ i → mem_get (le_set m p n v) i = mem_get m i.
Proof.
  revert m p v. induction n as [|n IH]; intros m p v Hi; [done|]; simpl.
  rewrite IH by lia. apply get_set_ne. lia.
Qed.

Lemma le_set_ok m p n v :
  mem_ok m → 0 ≤ p → p + Z.of_nat n ≤ mem_len m →
  mem_ok (le_set m p n v) ∧ pages (le_set m p n v) = pages m ∧
  max_pages (le_set m p n v) = max_pages m.
Proof.
  revert m p v. induction n as [|n IH]; intros m p v Hok Hp Hl; [done|]; simpl.
  assert (Hb : 0 ≤ v mod 256 < 256) by (apply Z.mod_pos_bound; lia).
  destruct (IH (mem_set m p (v mod 256)) (p + 1) (v / 256)) as (Hok' & Hpg & Hmx).
  - apply set_ok; [done|lia|done].
  - lia.
  - rewrite mem_len_set by (done || lia). lia.
  - rewrite Hpg, Hmx, set_pages, set_max_pages. done.
Qed.

Lemma le_get_set m p n v :
  mem_ok m → 0 ≤ p → p + Z.of_nat n ≤ mem_len m →
  le_get (le_set m p n v) p n = v mod 256 ^ Z.of_nat n.
Proof.
  revert m p v. induction n as [|n IH]; intros m p v Hok Hp Hl.
  - simpl. by rewrite Z.mod_1_r.
  - cbn [le_set le_get].
    assert (Hb : 0 ≤ v mod 256 < 256) by (apply Z.mod_pos_bound; lia).
    rewrite IH; [|apply set_ok; [done|lia|done]|lia|rewrite mem_len_set by (done || lia); lia].
    rewrite le_set_frame by lia. rewrite get_set_eq by (done || lia).
    rewrite Nat2Z.inj_succ, Z.pow_succ_r, Z.rem_mul_r by lia. done.
Qed.

(** A header access at [p] is within the memory and the 32-bit address space. *)
Definition header_in m p : Prop := 0 ≤ p ∧ p + 8 ≤ mem_len m ∧ p + 8 < 2 ^ 32.

Lemma heap_range_in m p : header_in m p → heap_range p 8 (mem_len m) = Some (p, p + 8).
Proof.
  intros (Hp & Hl & Hb). unfold heap_range.
  rewrite (proj2 (checked_add_Some 32 p 8 (p + 8))) by lia. simpl.
  by rewrite (proj2 (Z.leb_le _ _)) by lia.
Qed.

Lemma read_from_ext m m' p :
  header_in m p → header_in m' p → (∀ i, p ≤ i < p + 8 → mem_get m' i = mem_get m i) →
  read_from m' p = read_from m p.
Proof.
  intros Hin Hin' Hi. unfold read_from, read_le_u64. rewrite !heap_range_in by done.
  by rewrite (le_get_ext m m').
Qed.

(** Writing a header: it reads back, and nothing else changes. *)
Lemma write_into_ok h m p :
  mem_ok m → header_in m p → header_wf h →
  ∃ m', write_into h m p = Ok m' ∧ mem_ok m' ∧ read_from m' p = Ok h ∧
    pages m' = pages m ∧ max_pages m' = max_pages m ∧
    ∀ i, i < p ∨ p + 8 ≤ i → mem_get m' i = mem_get m i.
Proof.
  intros Hok Hin Hwf. pose proof Hin as (Hp & Hl & Hb).
  destruct (decode_raw h Hwf) as [Hr64 Hdec].
  exists (le_set m p 8 (raw_of h)).
  destruct (le_set_ok m p 8 (raw_of h)) as (Hok' & Hpg & Hmx); [done..|].
  assert (Hin' : header_in (le_set m p 8 (raw_of h)) p).
  { unfold header_in. rewrite len_pages, Hpg, <- len_pages by done. lia. }
  split_all; try done.
  - unfold write_into, write_le_u64. rewrite heap_range_in by done.
    by destruct h as [[|]|].
  - unfold read_from, read_le_u64. rewrite heap_range_in by done. cbn [res_bind].
    rewrite le_get_set by done. change (256 ^ Z.of_nat 8) with (2 ^ 64).
    rewrite Z.mod_small by done. exact Hdec.
  - intros i Hi. apply le_set_frame. simpl. lia.
Qed.

Lemma mem_size_len m : mem_ok m → mem_size m = mem_len m.
Proof. intros. unfold mem_size. by rewrite len_pages. Qed.

Lemma mem_size_range m : mem_ok m → 0 ≤ mem_size m ≤ 2 ^ 32.
Proof.
  intros Hok. unfold mem_size, PAGE_SIZE. apply pages_range in Hok.
  unfold MAX_WASM_PAGES, PAGE_SIZE in Hok. change (4 * 1024 * 1024 * 1024 / 65536) with 65536 in Hok.
  lia.
Qed.

End memory_lemmas.

(** * The heap invariant *)

(** A block: the address of its header and its order. *)
Abbreviation block := (Z * Z)%type.

Definition block_size (b : block) : Z := Order_size b.2 + HEADER_SIZE.
Definition block_end (b : block) : Z := b.1 + block_size b.

(** The blocks [bs] tile the space from [lo] to [hi]. *)
Fixpoint tiled (lo : Z) (bs : list block) (hi : Z) : Prop :=
  match bs with
  | [] => lo = hi
  | b :: bs => b.1 = lo ∧ 0 ≤ b.2 < N_ORDERS ∧ tiled (block_end b) bs hi
  end.

Definition total_size (bs : list block) : Z := foldr (λ b n, block_size b + n) 0 bs.

(** The free blocks, given the header addresses on the list of each order. *)
Definition free_blocks (chains : list (list Z)) : list block :=
  mjoin (imap (λ o ps, (λ p, (p, Z.of_nat o)) <$> ps) chains).

Section invariant.
Context {T : Type} `{MemoryLaws T}.
Implicit Types (a : FreeingBumpHeapAllocator) (m : T) (live : gmap Z Z).

(** The free list that starts at [l] runs through the headers [ps]. *)
Fixpoint chain m (l : Link) (ps : list Z) : Prop :=
  match ps with
  | [] => l = Nil
  | p :: ps => l = Ptr p ∧ ∃ next, read_from m p = Ok (Free next) ∧ chain m next ps
  end.

(** [live] maps the header of every block the guest owns to its order: the live
    and the free blocks together tile the heap, the live ones are marked
    occupied, and the free ones are exactly those on the lists. *)
Record heap_shape (lo hi : Z) (heads : list Link) m live
    (blocks : list block) (chains : list (list Z)) : Prop := {
  hs_tiled : tiled lo blocks hi;
  hs_inside : ∀ b, b ∈ blocks → block_end b ≤ mem_size m;
  hs_orders : length chains = Z.to_nat N_ORDERS;
  hs_chains : Forall2 (chain m) heads chains;
  hs_split : blocks ≡ₚ map_to_list live ++ free_blocks chains;
  hs_live : ∀ p o, live !! p = Some o → read_from m p = Ok (Occupied o);
}.

Record heap_inv a m live : Prop := {
  hi_mem : mem_ok m;
  hi_poisoned : poisoned a = false;
  hi_observed : last_observed_memory_size a ≤ mem_size m;
  hi_base : 0 ≤ original_heap_base a ∧ original_heap_base a mod ALIGNMENT = 0;
  hi_bumper : bumper a < 2 ^ 32;
  hi_blocks : ∃ blocks chains,
    heap_shape (original_heap_base a) (bumper a) (free_lists a) m live blocks chains;
  hi_allocated : bytes_allocated (stats a) = total_size (map_to_list live);
  hi_peak : bytes_allocated (stats a) ≤ bytes_allocated_peak (stats a);
}.

End invariant.

(** ** Tilings *)

Section tilings.
Implicit Types (bs : list block) (b : block) (lo hi : Z).

Lemma block_size_bounds b :
  0 ≤ b.2 < N_ORDERS → 16 ≤ block_size b ≤ MAX_POSSIBLE_ALLOCATION + 8 ∧ block_size b mod 8 = 0.
Proof.
  intros Ho. destruct (Order_size_bounds b.2 Ho) as [Hs Hm]. unfold block_size, HEADER_SIZE.
  split; [lia|]. rewrite Z.add_mod by lia. by rewrite Hm.
Qed.

Lemma tiled_le lo bs hi : tiled lo bs hi → lo + total_size bs = hi.
Proof.
  revert lo. induction bs as [|b bs IH]; intros lo; simpl; [intros <-; lia|].
  intros (<- & Ho & Ht). apply IH in Ht. unfold block_end in Ht. lia.
Qed.

Lemma total_size_nonneg lo bs hi : tiled lo bs hi → 0 ≤ total_size bs.
Proof.
  revert lo. induction bs as [|b bs IH]; intros lo; simpl; [lia|].
  intros (_ & Ho & Ht). apply IH in Ht. destruct (block_size_bounds b Ho). lia.
Qed.

Lemma tiled_elem lo bs hi b :
  tiled lo bs hi → b ∈ bs →
  lo ≤ b.1 ∧ block_end b ≤ hi ∧ 0 ≤ b.2 < N_ORDERS ∧ b.1 mod 8 = lo mod 8.
Proof.
  revert lo. induction bs as [|c bs IH]; intros lo; simpl; [by intros _ ?%not_elem_of_nil|].
  intros (<- & Ho & Ht) Hb. pose proof (total_size_nonneg _ _ _ Ht).
  pose proof (tiled_le _ _ _ Ht). destruct (block_size_bounds c Ho) as [Hsz Hmod].
  apply elem_of_cons in Hb as [->|Hb]; [unfold block_end in *; split_all; try done; lia|].
  destruct (IH _ Ht Hb) as (H1 & H2 & H3 & H4). unfold block_end in *. split_all; try lia.
  rewrite H4, Z.add_mod, Hmod, Z.add_0_r by lia. by rewrite Z.mod_mod.
Qed.

(** Two blocks of a tiling with the same header are the same; others are apart. *)
Lemma tiled_disjoint lo bs hi b c :
  tiled lo bs hi → b ∈ bs → c ∈ bs → b = c ∨ block_end b ≤ c.1 ∨ block_end c ≤ b.1.
Proof.
  revert lo. induction bs as [|d bs IH]; intros lo; simpl; [by intros _ ?%not_elem_of_nil|].
  intros (Hd & Ho & Ht) Hb Hc.
  apply elem_of_cons in Hb as [->|Hb]; apply elem_of_cons in Hc as [->|Hc]; [by left| | |eauto].
  - right; left. apply (tiled_elem _ _ _ _ Ht Hc).
  - right; right. apply (tiled_elem _ _ _ _ Ht Hb).
Qed.

Lemma tiled_NoDup lo bs hi : tiled lo bs hi → NoDup bs.*1.
Proof.
  revert lo. induction bs as [|d bs IH]; intros lo; simpl; [constructor|].
  intros (Hd & Ho & Ht). constructor; [|eauto]. intros (b & Heq & Hb)%list_elem_of_fmap.
  apply (tiled_elem _ _ _ _ Ht) in Hb as [Hle _]. destruct (block_size_bounds d Ho).
  unfold block_end in Hle. lia.
Qed.

Lemma tiled_snoc lo bs hi o :
  tiled lo bs hi → 0 ≤ o < N_ORDERS → tiled lo (bs ++ [(hi, o)]) (block_end (hi, o)).
Proof.
  revert lo. induction bs as [|d bs IH]; intros lo; simpl; [by intros ->|].
  intros (Hd & Ho & Ht) Hn. auto.
Qed.

#[global] Instance total_size_proper : Proper ((≡ₚ) ==> (=)) total_size.
Proof.
  induction 1; simpl; [done|congruence|lia|congruence].
Qed.

Lemma total_size_app bs cs : total_size (bs ++ cs) = total_size bs + total_size cs.
Proof. induction bs as [|b bs IH]; simpl; [done|]. rewrite IH. lia. Qed.

End tilings.

(** ** Free lists *)

Section free_lists.
Implicit Types (chains : list (list Z)).

Lemma elem_of_free_blocks chains p o :
  (p, o) ∈ free_blocks chains ↔
  0 ≤ o ∧ ∃ ps, chains !! Z.to_nat o = Some ps ∧ p ∈ ps.
Proof.
  unfold free_blocks. rewrite list_elem_of_join. split.
  - intros (bs & Hp & (i & ps & -> & Hi)%elem_of_lookup_imap_1).
    apply list_elem_of_fmap in Hp as (q & [= -> ->] & Hq). rewrite Nat2Z.id. eauto with lia.
  - intros (Ho & ps & Hi & Hp). eexists. split; [|by apply elem_of_lookup_imap_2].
    apply list_elem_of_fmap. exists p. rewrite Z2Nat.id by done. done.
Qed.

Lemma free_blocks_insert chains o ps ps' :
  chains !! o = Some ps →
  free_blocks (<[o := ps']> chains) ++ ((λ p, (p, Z.of_nat o)) <$> ps) ≡ₚ
  free_blocks chains ++ ((λ p, (p, Z.of_nat o)) <$> ps').
Proof.
  intros Ho. assert (Hlt := lookup_lt_Some _ _ _ Ho).
  rewrite <- (take_drop_middle chains o ps Ho) at 2.
  rewrite insert_take_drop by done. unfold free_blocks.
  rewrite !imap_app, !join_app; simpl. rewrite length_take, Nat.min_l, Nat.add_0_r by lia.
  rewrite <- !(assoc_L (++)). apply Permutation_app_head.
  rewrite !(assoc_L (++)). rewrite (comm (++) _ (_ <$> ps)), (comm (++) _ (_ <$> ps')).
  rewrite !(assoc_L (++)). apply Permutation_app_tail. apply (comm (++)).
Qed.

Lemma free_blocks_push chains o ps p :
  chains !! o = Some ps →
  free_blocks (<[o := p :: ps]> chains) ≡ₚ (p, Z.of_nat o) :: free_blocks chains.
Proof.
  intros Ho. assert (Hp := free_blocks_insert chains o ps (p :: ps) Ho).
  rewrite fmap_cons in Hp. rewrite <- Permutation_middle in Hp.
  by apply (Permutation_app_inv_r ((λ p, (p, Z.of_nat o)) <$> ps)).
Qed.

Lemma free_blocks_pop chains o ps p :
  chains !! o = Some (p :: ps) →
  free_blocks chains ≡ₚ (p, Z.of_nat o) :: free_blocks (<[o := ps]> chains).
Proof.
  intros Ho. assert (Hlt := lookup_lt_Some _ _ _ Ho).
  rewrite <- (free_blocks_push (<[o := ps]> chains) o ps p) by (by apply list_lookup_insert_eq).
  by rewrite list_insert_insert_eq, list_insert_id.
Qed.

End free_lists.

(** ** Changing the shape *)

Section shape.
Context {T : Type} `{MemoryLaws T}.
Implicit Types (m : T) (live : gmap Z Z) (blocks : list block) (chains : list (list Z)).

Lemma chain_ext m m' l ps :
  (∀ p, p ∈ ps → read_from m' p = read_from m p) → chain m l ps → chain m' l ps.
Proof.
  revert l. induction ps as [|p ps IH]; intros l Hext; simpl; [done|].
  intros (-> & next & Hr & Hc). split; [done|]. exists next.
  rewrite Hext by set_solver. split; [done|]. apply IH; [set_solver|done].
Qed.

Lemma chains_ext m m' heads chains :
  (∀ p o, (p, o) ∈ free_blocks chains → read_from m' p = read_from m p) →
  Forall2 (chain m) heads chains → Forall2 (chain m') heads chains.
Proof.
  intros Hext Hc. apply Forall2_lookup. intros i.
  rewrite Forall2_lookup in Hc. specialize (Hc i).
  destruct (heads !! i) as [l|], (chains !! i) as [ps|] eqn:Hi; inversion Hc; subst; constructor.
  apply (chain_ext m); [|done]. intros p Hp. apply (Hext p (Z.of_nat i)).
  apply elem_of_free_blocks. rewrite Nat2Z.id. split; [lia|eauto].
Qed.

Section with_shape.
Context {lo hi : Z} {heads : list Link} {m : T} {live : gmap Z Z} {blocks : list block}
  {chains : list (list Z)}.
Hypothesis Hmem : mem_ok m.
Hypothesis Hlo : 0 ≤ lo.
Hypothesis Hhi : hi < 2 ^ 32.
Hypothesis Hshape : heap_shape lo hi heads m live blocks chains.

Lemma shape_NoDup : NoDup ((map_to_list live ++ free_blocks chains).*1).
Proof.
  destruct Hshape as [Ht _ _ _ Hs _]. rewrite <- Hs. by eapply tiled_NoDup.
Qed.

Lemma live_block p o : live !! p = Some o → (p, o) ∈ blocks.
Proof.
  intros Hp. destruct Hshape as [_ _ _ _ Hs _]. rewrite Hs. apply elem_of_app. left.
  by apply elem_of_map_to_list.
Qed.

Lemma free_block p o : (p, o) ∈ free_blocks chains → (p, o) ∈ blocks ∧ live !! p = None.
Proof.
  intros Hf. split.
  - destruct Hshape as [_ _ _ _ Hs _]. rewrite Hs. apply elem_of_app. by right.
  - destruct (live !! p) as [o'|] eqn:Hl; [|done]. pose proof shape_NoDup as Hnd.
    rewrite fmap_app in Hnd. apply NoDup_app in Hnd as (_ & Hd & _).
    destruct (Hd p); apply list_elem_of_fmap; [exists (p, o')|exists (p, o)]; split; try done.
    by apply elem_of_map_to_list.
Qed.

Lemma block_header_in p o : (p, o) ∈ blocks → header_in m p ∧ p + 8 < 2 ^ 32.
Proof.
  intros Hb. destruct Hshape as [Ht Hin _ _ _ _].
  destruct (tiled_elem _ _ _ _ Ht Hb) as (H1 & H2 & Ho & _). specialize (Hin _ Hb).
  destruct (block_size_bounds (p, o) Ho) as [Hs _]. rewrite mem_size_len in Hin by done.
  unfold block_end, header_in in *; simpl in *. lia.
Qed.

(** A memory that differs from [m] only in the header at [p]. *)
Definition only_header m m' p : Prop :=
  mem_ok m' ∧ mem_size m ≤ mem_size m' ∧
  ∀ i, 0 ≤ i < mem_len m → i < p ∨ p + 8 ≤ i → mem_get m' i = mem_get m i.

Lemma other_header m' p q o :
  only_header m m' p → (∃ o', (p, o') ∈ blocks) ∨ hi ≤ p →
  (q, o) ∈ blocks → q ≠ p → read_from m' q = read_from m q.
Proof.
  intros (Hok & Hsz & Hm) Hp Hq Hne. destruct (block_header_in q o Hq) as [Hin _].
  pose proof Hin as (Hq0 & Hql & Hq32). apply read_from_ext; [done| |].
  - unfold header_in. rewrite <- mem_size_len in * by done. lia.
  - intros i Hi. apply Hm; [lia|].
    destruct Hshape as [Ht _ _ _ _ _]. destruct (tiled_elem _ _ _ _ Ht Hq) as (_ & Hqe & Hqo & _).
    destruct (block_size_bounds (q, o) Hqo) as [Hqs _].
    destruct Hp as [[o' Hp]|Hp]; [|unfold block_end in *; simpl in *; lia].
    destruct (tiled_elem _ _ _ _ Ht Hp) as (_ & _ & Hpo & _).
    destruct (block_size_bounds (p, o') Hpo) as [Hps _].
    destruct (tiled_disjoint _ _ _ _ _ Ht Hp Hq) as [Heq|Hdis].
    + by simplify_eq.
    + unfold block_end in *; simpl in *. lia.
Qed.

Lemma other_live m' p :
  only_header m m' p → (∃ o', (p, o') ∈ blocks) ∨ hi ≤ p →
  ∀ q o, live !! q = Some o → q ≠ p → read_from m' q = Ok (Occupied o).
Proof.
  intros Hm Hp q o Hq Hne. destruct Hshape as [_ _ _ _ _ Hlive].
  rewrite (other_header m' p q o) by eauto using live_block. by apply Hlive.
Qed.

Lemma inside_mono m' p :
  only_header m m' p → ∀ b, b ∈ blocks → block_end b ≤ mem_size m'.
Proof. intros (_ & Hsz & _) b Hb. destruct Hshape as [_ Hin _ _ _ _]. specialize (Hin b Hb). lia. Qed.

(** Taking the first block of a free list. *)
Lemma shape_take (o : nat) p ps next m' :
  chains !! o = Some (p :: ps) → read_from m p = Ok (Free next) → chain m next ps →
  only_header m m' p → read_from m' p = Ok (Occupied (Z.of_nat o)) →
  live !! p = None ∧
  heap_shape lo hi (<[o := next]> heads) m' (<[p := Z.of_nat o]> live) blocks (<[o := ps]> chains).
Proof.
  intros Ho Hr Hc Hm Hr'. pose proof Hshape as [Ht Hin Hlen Hch Hs Hlive].
  pose proof (free_blocks_pop chains o ps p Ho) as Hpop.
  assert (Hpb : (p, Z.of_nat o) ∈ free_blocks chains) by (rewrite Hpop; set_solver).
  destruct (free_block p _ Hpb) as [Hb Hnone]. split; [done|].
  assert (Hne : ∀ q o', (q, o') ∈ free_blocks (<[o := ps]> chains) → q ≠ p).
  { intros q o' Hq ->. pose proof shape_NoDup as Hnd. rewrite Hpop, fmap_app in Hnd.
    apply NoDup_app in Hnd as (_ & _ & Hnd). rewrite fmap_cons in Hnd. apply NoDup_cons in Hnd as [Hn _].
    apply Hn. apply list_elem_of_fmap. by exists (p, o'). }
  split; [done|by eapply inside_mono|by rewrite length_insert| | |].
  - apply (chains_ext m).
    + intros q o' Hq. apply (other_header m' p q o'); eauto.
      apply free_block. rewrite Hpop. set_solver.
    + by apply Forall2_insert.
  - rewrite Hs, Hpop, map_to_list_insert by done. by rewrite <- Permutation_middle.
  - intros q o' Hq. destruct (decide (q = p)) as [->|Hqp].
    + rewrite lookup_insert_eq in Hq. by simplify_eq.
    + rewrite lookup_insert_ne in Hq by done. eapply other_live; eauto.
Qed.

(** Bumping a new block. *)
Lemma shape_bump (o : Z) m' :
  0 ≤ o < N_ORDERS → block_end (hi, o) ≤ mem_size m' → only_header m m' hi →
  read_from m' hi = Ok (Occupied o) →
  live !! hi = None ∧
  heap_shape lo (block_end (hi, o)) heads m' (<[hi := o]> live) (blocks ++ [(hi, o)]) chains.
Proof.
  intros Ho Hend Hm Hr'. pose proof Hshape as [Ht Hin Hlen Hch Hs Hlive].
  assert (Hlow : ∀ q o', (q, o') ∈ blocks → q ≠ hi).
  { intros q o' Hq ->. destruct (tiled_elem _ _ _ _ Ht Hq) as (_ & He & Ho' & _).
    destruct (block_size_bounds (hi, o') Ho'). unfold block_end in He; simpl in *. lia. }
  assert (Hnone : live !! hi = None).
  { destruct (live !! hi) eqn:Hl; [|done]. by destruct (Hlow hi z (live_block _ _ Hl)). }
  split; [done|]. split; [by apply tiled_snoc| |done| | |].
  - intros b [Hb|Hb]%elem_of_app; [by eapply inside_mono|].
    apply list_elem_of_singleton in Hb as ->. done.
  - apply (chains_ext m); [|done]. intros q o' Hq. destruct (free_block q o' Hq) as [Hb _].
    apply (other_header m' hi q o'); eauto. right; lia.
  - rewrite map_to_list_insert by done. rewrite Hs. simpl. by rewrite (comm (++) _ [_]).
  - intros q o' Hq. destruct (decide (q = hi)) as [->|Hqp].
    + rewrite lookup_insert_eq in Hq. by simplify_eq.
    + rewrite lookup_insert_ne in Hq by done. eapply other_live; eauto. right; lia.
Qed.

(** Freeing a live block. *)
Lemma shape_free p (o : nat) ps l m' :
  live !! p = Some (Z.of_nat o) → chains !! o = Some ps → heads !! o = Some l →
  only_header m m' p → read_from m' p = Ok (Free l) →
  heap_shape lo hi (<[o := Ptr p]> heads) m' (delete p live) blocks (<[o := p :: ps]> chains).
Proof.
  intros Hp Ho Hl Hm Hr'. pose proof Hshape as [Ht Hin Hlen Hch Hs Hlive].
  pose proof (live_block _ _ Hp) as Hb.
  assert (Hch' : Forall2 (chain m') heads chains).
  { apply (chains_ext m); [|done]. intros q o' Hq. destruct (free_block q o' Hq) as [Hqb Hqn].
    apply (other_header m' p q o'); eauto. congruence. }
  split; [done|by eapply inside_mono|by rewrite length_insert| | |].
  - apply Forall2_insert; [done|]. simpl. split; [done|]. exists l. split; [done|].
    rewrite Forall2_lookup in Hch'. specialize (Hch' o). rewrite Hl, Ho in Hch'. by inversion Hch'.
  - rewrite (free_blocks_push chains o ps p Ho), Hs, <- Permutation_middle.
    rewrite app_comm_cons. apply Permutation_app_tail. symmetry. by apply map_to_list_delete.
  - intros q o' Hq. apply lookup_delete_Some in Hq as [Hne Hq]. eapply other_live; eauto.
Qed.

(** Any change of the memory that leaves the headers alone. *)
Lemma shape_same m' :
  mem_size m ≤ mem_size m' → (∀ b, b ∈ blocks → read_from m' b.1 = read_from m b.1) →
  heap_shape lo hi heads m' live blocks chains.
Proof.
  intros Hsz Hr. pose proof Hshape as [Ht Hin Hlen Hch Hs Hlive]. split; try done.
  - intros b Hb. specialize (Hin b Hb). lia.
  - apply (chains_ext m); [|done]. intros q o Hq. apply (Hr (q, o)). by apply free_block.
  - intros p o Hp. transitivity (read_from m p); [|by apply Hlive].
    apply (Hr (p, o)). by apply live_block.
Qed.

End with_shape.
End shape.

(** * Operations *)

Section operations.
Context {T : Type} `{MemoryLaws T}.
Implicit Types (a : FreeingBumpHeapAllocator) (m : T) (live : gmap Z Z).

(** The number of pages the memory may grow to. *)
Definition page_limit m : Z := default MAX_WASM_PAGES (max_pages m).

Lemma page_limit_range m : mem_ok m → pages m ≤ page_limit m ≤ MAX_WASM_PAGES.
Proof.
  intros Hok. unfold page_limit. destruct (max_pages m) as [n|] eqn:Hm; simpl.
  - by apply max_pages_range.
  - pose proof (pages_range m Hok). lia.
Qed.

(** The least number of pages that hold [size] bytes. *)
Definition pages_needed (size : Z) : Z := (size + PAGE_SIZE - 1) / PAGE_SIZE.

(** The pages to add: the memory is doubled within its limit, or grows by what is needed. *)
Definition growth (required : Z) m : Z :=
  Z.max (Z.min (pages m * 2) (page_limit m)) (pages_needed required) - pages m.

(** The memory cannot be made to hold [required] bytes: they are beyond its limit, or it
    refuses to grow by that many pages. *)
Definition exhausted (required : Z) m : Prop :=
  page_limit m * PAGE_SIZE < required ∨ snd (grow m (growth required m)) = false.

Lemma pages_from_size_spec size :
  0 ≤ size ≤ 2 ^ 34 →
  let n := pages_needed size in
  pages_from_size size = Some n ∧ size ≤ n * PAGE_SIZE ∧ ∀ k, size ≤ k * PAGE_SIZE → n ≤ k.
Proof.
  intros Hs n. unfold n, pages_needed, pages_from_size, PAGE_SIZE.
  rewrite wadd_small by (unfold in_range; lia). rewrite wsub_small by (unfold in_range; lia).
  assert (0 ≤ (size + 65536 - 1) / 65536 ≤ umax 32).
  { split; [apply Z.div_pos; lia|]. apply Z.div_le_upper_bound; [lia|]. unfold umax. lia. }
  pose proof (Z.div_mod (size + 65536 - 1) 65536). pose proof (Z.mod_pos_bound (size + 65536 - 1) 65536).
  rewrite (proj2 (Z.leb_le _ _)) by lia. split_all; [done|lia|].
  intros k Hk. apply Z.lt_succ_r. apply Z.div_lt_upper_bound; lia.
Qed.

(** A memory after growing: everything stays readable as it was. *)
Definition grown m m' : Prop :=
  mem_ok m' ∧ mem_size m ≤ mem_size m' ∧ max_pages m' = max_pages m ∧
  ∀ i, 0 ≤ i < mem_len m → mem_get m' i = mem_get m i.

Lemma grow_for_ok a m required :
  mem_ok m → mem_size m < required ≤ 2 ^ 34 →
  ∃ m', (grow_for required (a, m) = ((a, m'), Ok tt) ∧ grown m m' ∧
           required ≤ mem_size m' ∧ required ≤ page_limit m * PAGE_SIZE ∧ ¬ exhausted required m) ∨
        (grow_for required (a, m) = ((a, m'), Err AllocatorOutOfSpace) ∧ exhausted required m).
Proof.
  intros Hok Hreq. pose proof (mem_size_range m Hok) as Hsz.
  destruct (pages_from_size_spec required) as (Hn & Hfit & Hmin); [lia|].
  unfold exhausted, growth. set (n := pages_needed required) in *.
  pose proof (page_limit_range m Hok) as Hlim. pose proof (pages_range m Hok) as Hpg.
  unfold grow_for. rewrite Hn. fold (page_limit m). unfold mem_size in *.
  destruct (Z.leb_spec (page_limit m) (pages m)).
  { exists m. right. split; [done|]. left. unfold PAGE_SIZE in *. nia. }
  destruct (Z.ltb_spec (page_limit m) n).
  { exists m. right. split; [done|]. left. apply Z.nle_gt. intros Hle%Hmin. lia. }
  assert (Hgt : pages m < n) by (apply Z.nle_gt; intros Hle; unfold PAGE_SIZE in *; nia).
  change MAX_WASM_PAGES with 65536 in *.
  unfold wmul. rewrite (wrap_small 32 (pages m * 2)) by (unfold in_range; lia).
  set (next := Z.max (Z.min (pages m * 2) (page_limit m)) n).
  rewrite wsub_small by (unfold in_range, next; lia).
  assert (Hlimit : required ≤ page_limit m * PAGE_SIZE) by (unfold PAGE_SIZE in *; nia).
  destruct (grow m (next - pages m)) as [m' []] eqn:Hg; exists m'; [left|right; by split; [|right]].
  apply grow_ok in Hg as (Hok' & Hp' & Hmx & Hget); [|done|unfold next; lia].
  assert (n ≤ pages m') by (unfold next in *; lia).
  unfold grown, mem_size. split_all; try done; [unfold PAGE_SIZE in *; nia..|]. by intros [?|?]; [lia|].
Qed.

Lemma total_size_valid (bs : list block) :
  (∀ b, b ∈ bs → 0 ≤ b.2 < N_ORDERS) → 0 ≤ total_size bs.
Proof.
  induction bs as [|b bs IH]; intros Hv; simpl; [lia|].
  destruct (block_size_bounds b) as [Hb _]; [apply Hv; set_solver|].
  assert (0 ≤ total_size bs) by (apply IH; set_solver). lia.
Qed.

Lemma live_total lo hi heads m live blocks chains :
  heap_shape lo hi heads m live blocks chains →
  0 ≤ total_size (map_to_list live) ≤ hi - lo.
Proof.
  intros [Ht _ _ _ Hs _]. pose proof (tiled_le _ _ _ Ht) as Hle.
  assert (Hv : ∀ b, b ∈ blocks → 0 ≤ b.2 < N_ORDERS) by (intros b Hb; by apply (tiled_elem _ _ _ _ Ht)).
  rewrite Hs in Hle. rewrite total_size_app in Hle.
  assert (0 ≤ total_size (map_to_list live)).
  { apply total_size_valid. intros b Hb. apply Hv. rewrite Hs. set_solver. }
  assert (0 ≤ total_size (free_blocks chains)).
  { apply total_size_valid. intros b Hb. apply Hv. rewrite Hs. set_solver. }
  lia.
Qed.

Lemma total_size_insert live p o :
  live !! p = None →
  total_size (map_to_list (<[p := o]> live)) = block_size (p, o) + total_size (map_to_list live).
Proof. intros Hp. by rewrite map_to_list_insert. Qed.

(** The allocator after the statistics counted a block. *)
Definition counted a (size : Z) : FreeingBumpHeapAllocator :=
  let st := stats a in
  let allocated := wadd 32 (bytes_allocated st) size in
  with_alloc_stats a
    (mkAllocationStats allocated (Z.max (bytes_allocated_peak st) allocated)
       (wadd 128 (bytes_allocated_sum st) size) (wsub 32 (bumper a) (original_heap_base a))).

(** The end of [allocate], once a block was found. *)
Lemma alloc_tail_ok a m p o :
  mem_ok m → header_in m p → 0 ≤ o < N_ORDERS →
  ∃ m', (header_write (Occupied o) p;;;
         count_allocation (wadd 32 (Order_size o) HEADER_SIZE);;;
         retM (wadd 32 p HEADER_SIZE)) (a, m) = ((counted a (block_size (p, o)), m'), Ok (p + 8)) ∧
    only_header m m' p ∧ read_from m' p = Ok (Occupied o) ∧
    pages m' = pages m ∧ max_pages m' = max_pages m.
Proof.
  intros Hok Hin Ho.
  destruct (write_into_ok (Occupied o) m p Hok Hin Ho) as (m' & Hw & Hok' & Hr & Hpg & Hmx & Hfr).
  exists m'. destruct (Order_size_bounds o Ho) as [Hs _]. unfold MAX_POSSIBLE_ALLOCATION in Hs.
  assert (Hsz : wadd 32 (Order_size o) HEADER_SIZE = block_size (p, o)).
  { apply wadd_small. unfold in_range, HEADER_SIZE. lia. }
  split_all; try done.
  - unfold bindM, header_write, count_allocation, modifyM, retM. rewrite Hw, Hsz.
    destruct Hin as (? & ? & ?). rewrite (wadd_small 32 p HEADER_SIZE) by (unfold in_range, HEADER_SIZE; lia). done.
  - split; [done|]. split; [|auto]. unfold mem_size. rewrite Hpg. lia.
Qed.

(** What an allocation of order [o] leaves behind. *)
Definition allocated a m live o a' m' ptr : Prop :=
  live !! (ptr - HEADER_SIZE) = None ∧ heap_inv a' m' (<[ptr - HEADER_SIZE := o]> live) ∧
  page_limit m' = page_limit m ∧ original_heap_base a' = original_heap_base a.

(** Counting keeps the invariant in step with one more live block. *)
Lemma counted_inv a m live blocks chains p o :
  mem_ok m → poisoned a = false → last_observed_memory_size a ≤ mem_size m →
  0 ≤ original_heap_base a ∧ original_heap_base a mod ALIGNMENT = 0 → bumper a < 2 ^ 32 →
  bytes_allocated (stats a) = total_size (map_to_list live) →
  live !! p = None →
  heap_shape (original_heap_base a) (bumper a) (free_lists a) m (<[p := o]> live) blocks chains →
  heap_inv (counted a (block_size (p, o))) m (<[p := o]> live).
Proof.
  intros Hok Hp Hobs Hbase Hbump Hst Hnone Hshape.
  pose proof (live_total _ _ _ _ _ _ _ Hshape) as Htot. rewrite total_size_insert in Htot by done.
  assert (Hadd : wadd 32 (bytes_allocated (stats a)) (block_size (p, o)) =
    block_size (p, o) + total_size (map_to_list live)).
  { rewrite wadd_small, Hst by (unfold in_range; lia). lia. }
  split; simpl; try done; [by eauto| |lia]. by rewrite Hadd, total_size_insert.
Qed.

(** Why an allocation of order [o] may be refused. *)
Definition out_of_space o a m : Prop :=
  free_lists a !! Z.to_nat o = Some Nil ∧ mem_size m < bumper a + block_size (0, o) ∧
  exhausted (bumper a + block_size (0, o)) m.

Lemma take_free_ok a m live blocks chains o p ps next :
  mem_ok m → 0 ≤ original_heap_base a → bumper a < 2 ^ 32 → 0 ≤ o < N_ORDERS →
  heap_shape (original_heap_base a) (bumper a) (free_lists a) m live blocks chains →
  free_lists a !! Z.to_nat o = Some (Ptr p) → chains !! Z.to_nat o = Some (p :: ps) →
  read_from m p = Ok (Free next) →
  take_block o (a, m) =
    ((with_free_lists a (<[Z.to_nat o := next]> (free_lists a)), m), Ok p) ∧ header_in m p.
Proof.
  intros Hok Hbase Hbump Ho Hshape Hl Hc Hr.
  assert (Hf : (p, o) ∈ free_blocks chains).
  { apply elem_of_free_blocks. split; [lia|]. exists (p :: ps). split; [done|set_solver]. }
  destruct (free_block Hshape p o Hf) as [Hb _]. pose proof (hs_inside _ _ _ _ _ _ _ Hshape _ Hb) as He.
  split; [|by eapply block_header_in].
  unfold take_block, bindM, free_list, getM, header_read, set_free_list, liftM, retM.
  rewrite Hl. cbn [fst snd]. unfold block_end, block_size in He; simpl in He.
  rewrite (proj2 (Z.ltb_ge _ _)) by lia. by rewrite Hr; simpl; rewrite Hl.
Qed.

Lemma take_bump_ok a m o :
  mem_ok m → 0 ≤ bumper a < 2 ^ 32 → 0 ≤ o < N_ORDERS → page_limit m < MAX_WASM_PAGES →
  free_lists a !! Z.to_nat o = Some Nil →
  ∃ m',
    (take_block o (a, m) = ((with_bumper a (block_end (bumper a, o)), m'), Ok (bumper a)) ∧
     grown m m' ∧ block_end (bumper a, o) ≤ mem_size m' ∧ block_end (bumper a, o) < 2 ^ 32 ∧
     ¬ out_of_space o a m) ∨
    (take_block o (a, m) = ((a, m'), Err AllocatorOutOfSpace) ∧ out_of_space o a m).
Proof.
  intros Hok Hb Ho Hlim Hl. destruct (block_size_bounds (bumper a, o) Ho) as [Hs _].
  unfold MAX_POSSIBLE_ALLOCATION in Hs. pose proof (page_limit_range m Hok) as Hpl.
  change MAX_WASM_PAGES with 65536 in *.
  assert (Hsz : wadd 32 (Order_size o) HEADER_SIZE = block_size (bumper a, o)).
  { apply wadd_small. unfold block_size, in_range, HEADER_SIZE in *; simpl in *. lia. }
  assert (Htake : take_block o (a, m) = bump (block_size (bumper a, o)) (a, m)).
  { unfold take_block, bindM, free_list. by rewrite Hl, Hsz. }
  rewrite Htake. unfold bump, bindM, getM, modifyM, retM. cbn [fst snd].
  destruct (Z.ltb_spec (mem_size m) (bumper a + block_size (bumper a, o))) as [Hlt|Hge].
  - destruct (grow_for_ok a m (bumper a + block_size (bumper a, o))) as (m' & [(-> & Hg & Hfit & Hmax & Hno)|(-> & Hno)]);
      [done|lia| |]; exists m'; [left|right].
    + rewrite wadd_small by (unfold in_range, PAGE_SIZE in *; lia).
      unfold block_end; simpl. split_all; try done; [unfold PAGE_SIZE in *; lia..|]. by intros (_ & _ & ?).
    + by split.
  - exists m. left. assert (mem_size m < 2 ^ 32) by (unfold mem_size, PAGE_SIZE in *; lia).
    rewrite wadd_small by (unfold in_range; lia).
    unfold block_end, grown; simpl. split_all; try done; try lia. intros (_ & ? & _).
    change (block_size (0, o)) with (block_size (bumper a, o)) in *. lia.
Qed.

Lemma allocate_unfold a m size o :
  poisoned a = false → last_observed_memory_size a ≤ mem_size m → Order_from_size size = Ok o →
  allocate size (a, m) =
  PoisonBomb (let* p := take_block o in
              header_write (Occupied o) p;;;
              count_allocation (wadd 32 (Order_size o) HEADER_SIZE);;;
              retM (wadd 32 p HEADER_SIZE)) (with_observed a (mem_size m), m).
Proof.
  intros Hp Hobs Ho. unfold allocate, bindM at 1, getM. cbn [fst]. rewrite Hp.
  unfold PoisonBomb, bindM, observe_memory_size, liftM.
  rewrite (proj2 (Z.ltb_ge _ _)) by lia. by rewrite Ho.
Qed.

Lemma PoisonBomb_ok {A} (body : M (FreeingBumpHeapAllocator * T) Error A) s s' x :
  body s = (s', Ok x) → PoisonBomb body s = (s', Ok x).
Proof. intros Hb. unfold PoisonBomb. rewrite Hb. by destruct s'. Qed.

Lemma PoisonBomb_err {A} (body : M (FreeingBumpHeapAllocator * T) Error A) s a m e :
  body s = ((a, m), Err e) → PoisonBomb body s = ((with_poisoned a true, m), Err e).
Proof. intros Hb. unfold PoisonBomb. by rewrite Hb. Qed.

Lemma PoisonBomb_err_inv {A} (body : M (FreeingBumpHeapAllocator * T) Error A) s a m e :
  PoisonBomb body s = ((a, m), Err e) → poisoned a = true.
Proof. unfold PoisonBomb. destruct (body s) as [[] []]; intros; by simplify_eq/=. Qed.

(** The free list of an order is empty, or starts with a block that is free. *)
Lemma free_list_cases a m live blocks chains o :
  0 ≤ o < N_ORDERS →
  heap_shape (original_heap_base a) (bumper a) (free_lists a) m live blocks chains →
  free_lists a !! Z.to_nat o = Some Nil ∨
  ∃ p ps next, free_lists a !! Z.to_nat o = Some (Ptr p) ∧ chains !! Z.to_nat o = Some (p :: ps) ∧
    read_from m p = Ok (Free next) ∧ chain m next ps.
Proof.
  intros Ho [_ _ Hlen Hch _ _].
  destruct (lookup_lt_is_Some_2 chains (Z.to_nat o)) as [ps Hps]; [lia|].
  rewrite Forall2_lookup in Hch. specialize (Hch (Z.to_nat o)). rewrite Hps in Hch.
  inversion Hch as [l ps' Hc Hl|]; subst. destruct ps as [|p ps]; simpl in Hc.
  - subst l. by left.
  - destruct Hc as (-> & next & Hr & Hc). right. eauto 10.
Qed.

Lemma allocate_ok a m live size o :
  heap_inv a m live → Order_from_size size = Ok o → 0 ≤ o < N_ORDERS →
  page_limit m < MAX_WASM_PAGES →
  ∃ a' m',
    (∃ ptr, allocate size (a, m) = ((a', m'), Ok ptr) ∧ allocated a m live o a' m' ptr ∧
       ¬ out_of_space o a m) ∨
    (allocate size (a, m) = ((a', m'), Err AllocatorOutOfSpace) ∧ poisoned a' = true ∧
       out_of_space o a m).
Proof.
  intros [Hok Hp Hobs Hbase Hbump (blocks & chains & Hshape) Hst Hpk] Hsize Ho Hlim.
  rewrite (allocate_unfold a m size o) by done.
  set (a0 := with_observed a (mem_size m)). pose proof (live_total _ _ _ _ _ _ _ Hshape) as Hlt.
  destruct (free_list_cases a m live blocks chains o Ho Hshape)
    as [Hnil|(p & ps & next & Hl & Hc & Hr & Hch)].
  - destruct (take_bump_ok a0 m o) as (m1 & [(Ht & (Hok1 & Hsz1 & Hmx1 & Hget) & Hfit & H32 & Hno)|(Ht & Hno)]);
      [done|simpl; lia|done..| |].
    + destruct (alloc_tail_ok (with_bumper a0 (block_end (bumper a, o))) m1 (bumper a) o)
        as (m2 & Htail & (Hok2 & Hsz2 & Hfr2) & Hr2 & Hpg2 & Hmx2); [done| |done|].
      { unfold header_in. rewrite <- mem_size_len by done. unfold block_end in *; simpl in *.
        destruct (block_size_bounds (bumper a, o) Ho). lia. }
      assert (Honly : only_header m m2 (bumper a)).
      { split; [done|]. split; [lia|]. intros i Hi Hd. rewrite Hfr2; [by apply Hget| |done].
        rewrite <- mem_size_len in * by done. lia. }
      destruct (shape_bump (hi := bumper a) Hok (proj1 Hbase) Hbump Hshape o m2)
        as [Hnone Hshape']; [done|simpl in *; lia|done|done|].
      do 2 eexists. left. eexists.
      split; [apply PoisonBomb_ok; eapply bindM_ok; [exact Ht|exact Htail]|].
      split; [|exact Hno]. unfold allocated.
      replace (bumper a + 8 - HEADER_SIZE) with (bumper a) by (unfold HEADER_SIZE; lia).
      split_all; try done; [|unfold page_limit; congruence].
      eapply counted_inv; simpl in *; try done. lia.
    + do 2 eexists. right. split; [apply PoisonBomb_err; eapply bindM_err; exact Ht|]. done.
  - destruct (take_free_ok a0 m live blocks chains o p ps next) as [Ht Hin]; [done|apply Hbase|done..|].
    destruct (alloc_tail_ok (with_free_lists a0 (<[Z.to_nat o := next]> (free_lists a0))) m p o)
      as (m2 & Htail & Honly & Hr2 & Hpg2 & Hmx2); [done..|].
    destruct (shape_take Hok (proj1 Hbase) Hbump Hshape (Z.to_nat o) p ps next m2)
      as [Hnone Hshape']; [done..|by rewrite Z2Nat.id by lia|]. rewrite Z2Nat.id in Hshape' by lia.
    do 2 eexists. left. eexists.
    split; [apply PoisonBomb_ok; eapply bindM_ok; [exact Ht|exact Htail]|].
    split; [|intros [Hnil _]; simpl in Hl; congruence]. unfold allocated.
    replace (p + 8 - HEADER_SIZE) with p by (unfold HEADER_SIZE; lia).
    split_all; try done; [|unfold page_limit; congruence].
    eapply counted_inv; simpl in *; try done; [apply Honly|].
    unfold mem_size. rewrite Hpg2. lia.
Qed.

Lemma total_size_delete live p o :
  live !! p = Some o →
  total_size (map_to_list live) = block_size (p, o) + total_size (map_to_list (delete p live)).
Proof. intros Hp. by rewrite <- (map_to_list_delete live p o Hp). Qed.

Lemma FreeLists_replace_ok a m (o : Z) l new :
  free_lists a !! Z.to_nat o = Some l →
  FreeLists_replace o new (a, m) =
    ((with_free_lists a (<[Z.to_nat o := new]> (free_lists a)), m), Ok l).
Proof.
  intros Hl. unfold FreeLists_replace, bindM, free_list, set_free_list, retM. by rewrite !Hl.
Qed.

(** The allocator after a block of [size] bytes was counted as freed. *)
Definition uncounted a (allocated : Z) : FreeingBumpHeapAllocator :=
  with_alloc_stats a (mkAllocationStats allocated (bytes_allocated_peak (stats a))
    (bytes_allocated_sum (stats a)) (address_space_used (stats a))).

Lemma deallocate_unfold a m p o l m' :
  poisoned a = false → last_observed_memory_size a ≤ mem_size m → 0 ≤ o < N_ORDERS → 0 ≤ p →
  read_from m p = Ok (Occupied o) → free_lists a !! Z.to_nat o = Some l →
  write_into (Free l) m p = Ok m' → block_size (p, o) ≤ bytes_allocated (stats a) →
  deallocate (p + 8) (a, m) =
    ((uncounted (with_free_lists (with_observed a (mem_size m))
        (<[Z.to_nat o := Ptr p]> (free_lists a))) (bytes_allocated (stats a) - block_size (p, o)), m'),
     Ok tt).
Proof.
  intros Hp Hobs Ho Hp0 Hr Hl Hw Hst. destruct (Order_size_bounds o Ho) as [Hs _].
  unfold MAX_POSSIBLE_ALLOCATION in Hs.
  unfold deallocate. eapply bindM_ok; [done|]. cbn [fst]. rewrite Hp. apply PoisonBomb_ok.
  eapply bindM_ok; [unfold observe_memory_size; by rewrite (proj2 (Z.ltb_ge _ _)) by lia|].
  eapply bindM_ok.
  { unfold liftM. rewrite (proj2 (checked_sub_Some _ _ p)) by (unfold HEADER_SIZE; lia). done. }
  eapply bindM_ok; [unfold header_read; by rewrite Hr|]. eapply bindM_ok; [done|].
  eapply bindM_ok; [by apply FreeLists_replace_ok|].
  eapply bindM_ok; [unfold header_write; by rewrite Hw|]. eapply bindM_ok; [done|].
  assert (Hsub : checked_sub (bytes_allocated (stats a)) (wadd 32 (Order_size o) HEADER_SIZE) =
    Some (bytes_allocated (stats a) - block_size (p, o))).
  { rewrite wadd_small by (unfold in_range, HEADER_SIZE; lia). by apply checked_sub_Some. }
  eapply bindM_ok; [unfold liftM; simpl; by rewrite Hsub|done].
Qed.

Lemma head_wf a m live blocks chains o :
  mem_ok m → 0 ≤ original_heap_base a → bumper a < 2 ^ 32 → 0 ≤ o < N_ORDERS →
  heap_shape (original_heap_base a) (bumper a) (free_lists a) m live blocks chains →
  ∃ l, free_lists a !! Z.to_nat o = Some l ∧ header_wf (Free l).
Proof.
  intros Hok Hbase Hbump Ho Hshape. destruct (free_list_cases a m live blocks chains o Ho Hshape)
    as [Hnil|(q & qs & next & Hl & Hc & _)]; [by exists Nil|].
  exists (Ptr q). split; [done|]. destruct (free_block Hshape q o) as [Hq _].
  { apply elem_of_free_blocks. split; [lia|]. exists (q :: qs). split; [done|set_solver]. }
  destruct (block_header_in Hok Hbase Hbump Hshape q o Hq) as [(? & _ & ?) _]. simpl.
  change NIL_MARKER with 4294967295. lia.
Qed.

Lemma deallocate_ok a m live p o :
  heap_inv a m live → live !! p = Some o →
  ∃ a' m', deallocate (p + 8) (a, m) = ((a', m'), Ok tt) ∧ heap_inv a' m' (delete p live) ∧
    0 ≤ o < N_ORDERS ∧ free_lists a' !! Z.to_nat o = Some (Ptr p) ∧
    (∃ l, read_from m' p = Ok (Free l)) ∧ 0 ≤ p ∧
    page_limit m' = page_limit m ∧ original_heap_base a' = original_heap_base a.
Proof.
  intros [Hok Hp Hobs Hbase Hbump (blocks & chains & Hshape) Hst Hpk] Hlive.
  pose proof (live_block Hshape _ _ Hlive) as Hb.
  pose proof (tiled_elem _ _ _ _ (hs_tiled _ _ _ _ _ _ _ Hshape) Hb) as (Hlo & _ & Ho & _).
  simpl in Hlo, Ho. destruct (block_header_in Hok (proj1 Hbase) Hbump Hshape p o Hb) as [Hin _].
  pose proof (hs_live _ _ _ _ _ _ _ Hshape p o Hlive) as Hr.
  pose proof (live_total _ _ _ _ _ _ _ Hshape) as Htot.
  destruct (lookup_lt_is_Some_2 chains (Z.to_nat o)) as [ps Hps];
    [rewrite (hs_orders _ _ _ _ _ _ _ Hshape); lia|].
  pose proof (head_wf a m live blocks chains o Hok (proj1 Hbase) Hbump Ho Hshape) as Hl.
  destruct Hl as (l & Hl & Hlwf).
  destruct (write_into_ok (Free l) m p Hok Hin Hlwf) as (m' & Hw & Hok' & Hr' & Hpg & Hmx & Hfr).
  assert (Hdel := total_size_delete live p o Hlive).
  assert (Hshape' : heap_shape (original_heap_base a) (bumper a)
    (<[Z.to_nat o := Ptr p]> (free_lists a)) m' (delete p live) blocks (<[Z.to_nat o := p :: ps]> chains)).
  { apply (shape_free Hok (proj1 Hbase) Hbump Hshape p (Z.to_nat o) ps l); try done.
    - by rewrite Z2Nat.id by lia.
    - split; [done|]. split; [unfold mem_size; rewrite Hpg; lia|auto]. }
  pose proof (live_total _ _ _ _ _ _ _ Hshape') as Htot'.
  pose proof (block_size_bounds (p, o) Ho) as [Hbs _].
  do 2 eexists. split; [eapply deallocate_unfold; try done; try lia|].
  split_all; try done; try lia; [|apply list_lookup_insert_eq; by eapply lookup_lt_Some|by eauto|
    unfold page_limit; congruence].
  split; simpl; try done; [|by eauto|lia|lia]. unfold mem_size. rewrite Hpg. lia.
Qed.

(** Everything the guest may do to its memory short of calling the allocator:
    write a byte inside a block it owns or outside the heap, or grow the memory. *)
Definition guest_may_write a live (i : Z) : Prop :=
  (∃ p o, live !! p = Some o ∧ p + HEADER_SIZE ≤ i < block_end (p, o)) ∨
  i < original_heap_base a ∨ bumper a ≤ i.

Lemma guest_write_ok a m live i b :
  heap_inv a m live → guest_may_write a live i → 0 ≤ i < mem_len m → 0 ≤ b < 256 →
  heap_inv a (mem_set m i b) live.
Proof.
  intros [Hok Hp Hobs Hbase Hbump (blocks & chains & Hshape) Hst Hpk] Hmay Hi Hb.
  assert (Hsz : mem_size (mem_set m i b) = mem_size m) by (unfold mem_size; by rewrite set_pages).
  split; try done; [by apply set_ok|by rewrite Hsz|].
  exists blocks, chains. apply (shape_same Hshape); [lia|]. intros [q o] Hq; simpl.
  destruct (block_header_in Hok (proj1 Hbase) Hbump Hshape q o Hq) as [Hin _].
  pose proof (hs_tiled _ _ _ _ _ _ _ Hshape) as Ht.
  destruct (tiled_elem _ _ _ _ Ht Hq) as (Hlo & Hend & Ho & _).
  destruct (block_size_bounds (q, o) Ho) as [Hs _].
  apply read_from_ext; [done| |].
  - unfold header_in. rewrite mem_len_set by done. exact Hin.
  - intros j Hj. apply get_set_ne. intros ->. unfold HEADER_SIZE in *.
    destruct Hmay as [(p & o' & Hl & Hr)|Hout]; [|unfold block_end in *; simpl in *; lia].
    pose proof (live_block Hshape _ _ Hl) as Hpb.
    destruct (tiled_disjoint _ _ _ _ _ Ht Hq Hpb) as [Heq|Hd].
    + unfold HEADER_SIZE in *. simplify_eq. lia.
    + unfold block_end, HEADER_SIZE in *; simpl in *. lia.
Qed.

Lemma guest_grow_ok a m live n m' :
  heap_inv a m live → 0 ≤ n → grow m n = (m', true) → heap_inv a m' live.
Proof.
  intros [Hok Hp Hobs Hbase Hbump (blocks & chains & Hshape) Hst Hpk] Hn Hg.
  destruct (grow_ok m n m' Hok Hn Hg) as (Hok' & Hpg & _ & Hget).
  assert (Hsz : mem_size m ≤ mem_size m') by (unfold mem_size, PAGE_SIZE; lia).
  split; try done; [lia|]. exists blocks, chains. apply (shape_same Hshape); [lia|].
  intros [q o] Hq; simpl.
  destruct (block_header_in Hok (proj1 Hbase) Hbump Hshape q o Hq) as [Hin _].
  pose proof Hin as (H1 & H2 & H3).
  apply read_from_ext; [done| |intros; apply Hget; lia].
  unfold header_in. rewrite <- mem_size_len in * by done. lia.
Qed.

(** ** Executions *)

(** One step of a guest that plays by the rules; [live] records the blocks it
    owns. *)
Inductive heap_step :
    FreeingBumpHeapAllocator * T * gmap Z Z → FreeingBumpHeapAllocator * T * gmap Z Z → Prop :=
| step_allocate a m live size o a' m' ptr :
    0 ≤ size → Order_from_size size = Ok o → allocate size (a, m) = ((a', m'), Ok ptr) →
    heap_step (a, m, live) (a', m', <[ptr - HEADER_SIZE := o]> live)
| step_deallocate a m live p o a' m' :
    live !! p = Some o → deallocate (p + HEADER_SIZE) (a, m) = ((a', m'), Ok tt) →
    heap_step (a, m, live) (a', m', delete p live)
| step_write a m live i b :
    guest_may_write a live i → 0 ≤ i < mem_len m → 0 ≤ b < 256 →
    heap_step (a, m, live) (a, mem_set m i b, live)
| step_grow a m live n m' :
    0 ≤ n → grow m n = (m', true) → heap_step (a, m, live) (a, m', live).

Lemma Order_from_size_valid size o :
  0 ≤ size → Order_from_size size = Ok o → 0 ≤ o < N_ORDERS.
Proof.
  intros Hs Ho. destruct (Z.ltb_spec MAX_POSSIBLE_ALLOCATION size) as [Hlt|Hge].
  - unfold Order_from_size in Ho. by rewrite (proj2 (Z.ltb_lt _ _)) in Ho.
  - destruct (Order_from_size_spec size) as (o' & Ho' & Hv & _); [lia|]. congruence.
Qed.

Lemma heap_step_inv a m live a' m' live' :
  heap_step (a, m, live) (a', m', live') → heap_inv a m live → page_limit m < MAX_WASM_PAGES →
  heap_inv a' m' live' ∧ page_limit m' = page_limit m ∧ original_heap_base a' = original_heap_base a.
Proof.
  intros Hstep Hinv Hlim.
  inversion Hstep as [? ? ? size o ? ? ptr Hs Ho Hal|? ? ? p o ? ? Hl Hde| |? ? ? n ? Hn Hg]; subst.
  - destruct (allocate_ok a m live size o) as (a1 & m1 & [(ptr1 & Ha & Hres & _)|(Ha & _)]);
      [done..|by eapply Order_from_size_valid|done| |]; rewrite Ha in Hal; simplify_eq. apply Hres.
  - destruct (deallocate_ok a m live p o) as (a1 & m1 & Hd & Hi & _ & _ & _ & _ & ? & ?); [done..|].
    unfold HEADER_SIZE in *. rewrite Hd in Hde. simplify_eq. auto.
  - split_all; [by apply guest_write_ok| |done]. unfold page_limit. by rewrite set_max_pages.
  - split_all; [by eapply guest_grow_ok| |done]. destruct Hinv as [Hok _ _ _ _ _ _ _].
    unfold page_limit. by destruct (grow_ok m n m' Hok Hn Hg) as (_ & _ & -> & _).
Qed.

Lemma heap_run_inv s s' :
  rtc heap_step s s' → heap_inv s.1.1 s.1.2 s.2 → page_limit s.1.2 < MAX_WASM_PAGES →
  heap_inv s'.1.1 s'.1.2 s'.2 ∧ original_heap_base s'.1.1 = original_heap_base s.1.1.
Proof.
  induction 1 as [|[[a m] live] [[a' m'] live'] s' Hstep _ IH]; intros Hinv Hlim; [done|].
  destruct (heap_step_inv _ _ _ _ _ _ Hstep Hinv Hlim) as (Hinv' & Hl & Hb). simpl in *.
  rewrite <- Hb. apply IH; [done|lia].
Qed.

(** What the invariant says about the blocks the guest owns. *)
Lemma live_spec a m live p o :
  heap_inv a m live → live !! p = Some o →
  original_heap_base a ≤ p ∧ block_end (p, o) ≤ mem_size m ∧ (p + HEADER_SIZE) mod ALIGNMENT = 0 ∧
  0 ≤ o < N_ORDERS ∧
  ∀ q o', live !! q = Some o' → p ≠ q → block_end (p, o) ≤ q ∨ block_end (q, o') ≤ p.
Proof.
  intros [_ _ _ [_ Hal] _ (blocks & chains & Hshape) _ _] Hl.
  pose proof (hs_tiled _ _ _ _ _ _ _ Hshape) as Ht. pose proof (live_block Hshape _ _ Hl) as Hb.
  destruct (tiled_elem _ _ _ _ Ht Hb) as (Hlo & _ & Ho & Hmod). unfold ALIGNMENT, HEADER_SIZE in *.
  split_all; try done; try apply Ho.
  - by apply (hs_inside _ _ _ _ _ _ _ Hshape).
  - rewrite Z.add_mod by lia. simpl in Hmod. by rewrite Hmod, Hal.
  - intros q o' Hq Hne. pose proof (live_block Hshape _ _ Hq) as Hqb.
    destruct (tiled_disjoint _ _ _ _ _ Ht Hb Hqb) as [|]; [by simplify_eq|done].
Qed.

Lemma new_base base :
  0 ≤ base ≤ 2 ^ 32 - 8 →
  let b := original_heap_base (allocator_new base) in
  bumper (allocator_new base) = b ∧ base ≤ b < base + 8 ∧ b < 2 ^ 32 ∧ b mod ALIGNMENT = 0.
Proof.
  intros Hb. simpl. unfold ALIGNMENT. rewrite wsub_wadd, wrap_small by (unfold in_range; lia).
  pose proof (Z.div_mod (base + 8 - 1) 8). pose proof (Z.mod_pos_bound (base + 8 - 1) 8).
  unfold wmul. rewrite wrap_small by (unfold in_range; lia).
  split_all; [done|lia|lia|lia|apply Z_mod_mult].
Qed.

Lemma free_blocks_new n : free_blocks (replicate n []) = [].
Proof.
  unfold free_blocks. apply join_nil. apply Forall_forall. intros bs Hbs.
  apply elem_of_lookup_imap_1 in Hbs as (i & ps & -> & Hi).
  apply lookup_replicate in Hi as [-> _]. done.
Qed.

Lemma new_inv m base :
  mem_ok m → 0 ≤ base ≤ 2 ^ 32 - 8 → heap_inv (allocator_new base) m ∅.
Proof.
  intros Hok Hb. destruct (new_base base Hb) as (Hbump & Hle & H32 & Hal).
  pose proof (mem_size_range m Hok). split; try done.
  - simpl. lia.
  - split; [lia|done].
  - exists [], (replicate (Z.to_nat N_ORDERS) []). split.
    + by rewrite Hbump.
    + intros b []%not_elem_of_nil.
    + by rewrite length_replicate.
    + apply Forall2_replicate. done.
    + by rewrite map_to_list_empty, free_blocks_new.
    + intros p o. by rewrite lookup_empty.
Qed.

End operations.

(** * A concrete memory *)

(** A sparse memory: unwritten bytes are zero. *)
Record SparseMem := mkSparse {
  sm_data : gmap Z Z;
  sm_pages : Z;
  sm_max : option Z;
}.

#[export] Instance SparseMem_memory : Memory SparseMem := {
  mem_len m := sm_pages m * PAGE_SIZE;
  mem_get m i := default 0 (sm_data m !! i);
  mem_set m i b := mkSparse (<[i := b]> (sm_data m)) (sm_pages m) (sm_max m);
  grow m n :=
    if sm_pages m + n <=? default MAX_WASM_PAGES (sm_max m)
    then (mkSparse (sm_data m) (sm_pages m + n) (sm_max m), true) else (m, false);
  pages m := sm_pages m;
  max_pages m := sm_max m;
}.

Definition sparse_ok (m : SparseMem) : Prop :=
  0 ≤ sm_pages m ≤ default MAX_WASM_PAGES (sm_max m) ∧
  default MAX_WASM_PAGES (sm_max m) ≤ MAX_WASM_PAGES ∧
  map_Forall (λ _ b, 0 ≤ b < 256) (sm_data m).

#[export] Instance SparseMem_laws : MemoryLaws SparseMem.
Proof.
  refine {| mem_ok := sparse_ok |}; unfold sparse_ok; simpl.
  - done.
  - intros m (Hp & Hm & _). lia.
  - intros m n (Hp & Hm & _) Hn. rewrite Hn in *; simpl in *. lia.
  - intros m i (_ & _ & Hd). destruct (sm_data m !! i) as [b|] eqn:Hi; simpl; [|lia].
    by apply (Hd i).
  - intros m i b _ _ _. by rewrite lookup_insert_eq.
  - intros m i j b Hne. by rewrite lookup_insert_ne.
  - intros m i b (Hp & Hm & Hd) _ Hb. split_all; try done; try lia. by apply map_Forall_insert_2.
  - done.
  - done.
  - intros m n m' (Hp & Hm & Hd) Hn.
    destruct (Z.leb_spec (sm_pages m + n) (default MAX_WASM_PAGES (sm_max m))); [|done].
    intros [= <-]; simpl. split_all; try done; lia.
Defined.

(** * Properties *)

Section allocator_properties.
Context {T : Type} `{MemoryLaws T}.
Implicit Types (a : FreeingBumpHeapAllocator) (m : T) (live : gmap Z Z).

(** [C8] Whatever a guest does with a fresh allocator (allocations, frees of
    blocks it owns, writes into its blocks or outside the heap, memory growth),
    as long as the memory cannot grow to the full 4 GiB: every block it owns
    lies inside the memory and above the heap base, its payload is 8-aligned,
    no two blocks overlap, headers included, and the allocator's count of
    allocated bytes is the sum of their sizes. *)
Theorem heap_safe m0 base a m live :
  mem_ok m0 → 0 ≤ base ≤ 2 ^ 32 - 8 → page_limit m0 < MAX_WASM_PAGES →
  rtc heap_step (allocator_new base, m0, ∅) (a, m, live) →
  (∀ p o, live !! p = Some o →
     base ≤ p ∧ block_end (p, o) ≤ mem_size m ∧ (p + HEADER_SIZE) mod ALIGNMENT = 0 ∧
     ∀ q o', live !! q = Some o' → p ≠ q →
       block_end (p, o) ≤ q ∨ block_end (q, o') ≤ p) ∧
  bytes_allocated (stats a) = total_size (map_to_list live).
Proof.
  intros Hok Hbase Hlim Hrun.
  destruct (heap_run_inv _ _ Hrun (new_inv m0 base Hok Hbase) Hlim) as [Hinv Hb]. cbn [fst snd] in *.
  split; [|apply Hinv]. intros p o Hl.
  destruct (live_spec a m live p o Hinv Hl) as (Hlo & Hend & Hal & _ & Hd).
  destruct (new_base base Hbase) as (_ & Hle & _). split_all; try done. lia.
Qed.

(** [C26] An allocation on a consistent heap never panics.  It is
    refused with [RequestedAllocationTooLarge] exactly when the size exceeds 32
    MiB; it is refused with [AllocatorOutOfSpace] exactly when the order's free list
    is empty, the block does not fit behind the bumper, and the memory cannot be made
    large enough (its limit is too low, or it refuses to grow by the pages asked for);
    both poison the allocator.  The memory's limit is below the 4 GiB of wasm.  Otherwise
    it yields a block the guest did not own, large enough for the request and
    less than twice as large (or of the minimal 8 bytes), and the heap stays
    consistent. *)
Theorem allocate_correct a m live size :
  heap_inv a m live → 0 ≤ size < 2 ^ 32 → page_limit m < MAX_WASM_PAGES →
  ∃ a' m' r, allocate size (a, m) = ((a', m'), r) ∧
    match r with
    | Ok ptr => ∃ o, Order_from_size size = Ok o ∧ ¬ out_of_space o a m ∧
        live !! (ptr - HEADER_SIZE) = None ∧
        heap_inv a' m' (<[ptr - HEADER_SIZE := o]> live) ∧
        size ≤ Order_size o ∧ (Order_size o = 8 ∨ Order_size o < 2 * size)
    | Err RequestedAllocationTooLarge => MAX_POSSIBLE_ALLOCATION < size ∧ poisoned a' = true
    | Err AllocatorOutOfSpace => poisoned a' = true ∧
        ∃ o, Order_from_size size = Ok o ∧ out_of_space o a m
    | _ => False
    end.
Proof.
  intros Hinv Hs Hlim. destruct (Z.ltb_spec MAX_POSSIBLE_ALLOCATION size) as [Hbig|Hfit].
  - exists (with_poisoned (with_observed a (mem_size m)) true), m, (Err RequestedAllocationTooLarge).
    split; [|done]. unfold allocate. eapply bindM_ok; [done|].
    cbn [fst]. rewrite (hi_poisoned _ _ _ Hinv). apply PoisonBomb_err.
    eapply bindM_ok; [unfold observe_memory_size;
      by rewrite (proj2 (Z.ltb_ge _ _)) by (pose proof (hi_observed _ _ _ Hinv); lia)|].
    eapply bindM_err. unfold liftM, Order_from_size. by rewrite (proj2 (Z.ltb_lt _ _)) by lia.
  - destruct (Order_from_size_spec size) as (o & Ho & Hv & Hle & Hmin); [lia|].
    destruct (allocate_ok a m live size o Hinv Ho Hv Hlim)
      as (a' & m' & [(ptr & Ha & (Hnone & Hinv' & _) & Hyes)|(Ha & Hp & Hno)]).
    + exists a', m', (Ok ptr). split; [done|]. exists o. split_all; try done.
      destruct (Z.eq_dec o 0) as [->|Hne]; [by left|right].
      assert (Hm : Order_size (o - 1) < size) by (apply Hmin; lia).
      rewrite Order_size_pow in Hm |- * by lia.
      replace (o + 3) with (Z.succ (o - 1 + 3)) by lia. rewrite Z.pow_succ_r by lia. lia.
    + exists a', m', (Err AllocatorOutOfSpace). eauto.
Qed.

(** Freeing a block the guest owns succeeds and keeps the heap
    consistent without it; freeing it again is refused and poisons the
    allocator, and the next allocation of a size of the same order reuses the
    block. *)
Theorem deallocate_correct a m live p o :
  heap_inv a m live → live !! p = Some o →
  ∃ a' m', deallocate (p + HEADER_SIZE) (a, m) = ((a', m'), Ok tt) ∧
    heap_inv a' m' (delete p live) ∧
    (∃ a'', deallocate (p + HEADER_SIZE) (a', m') =
       ((a'', m'), Err (error "the allocation points to an empty header")) ∧ poisoned a'' = true) ∧
    (∀ size, 0 ≤ size → Order_from_size size = Ok o →
       snd (allocate size (a', m')) = Ok (p + HEADER_SIZE)).
Proof.
  intros Hinv Hl. unfold HEADER_SIZE.
  destruct (deallocate_ok a m live p o Hinv Hl)
    as (a' & m' & Hd & Hinv' & Ho & Hfl & [l Hr] & Hp & Hpl & _).
  exists a', m'. split; [done|]. split; [done|]. split.
  - exists (with_poisoned (with_observed a' (mem_size m')) true). split; [|done].
    unfold deallocate. eapply bindM_ok; [done|].
    cbn [fst]. rewrite (hi_poisoned _ _ _ Hinv'). apply PoisonBomb_err.
    eapply bindM_ok; [unfold observe_memory_size;
      by rewrite (proj2 (Z.ltb_ge _ _)) by (pose proof (hi_observed _ _ _ Hinv'); lia)|].
    eapply bindM_ok; [unfold liftM;
      by rewrite (proj2 (checked_sub_Some _ _ p)) by (unfold HEADER_SIZE; lia)|].
    eapply bindM_ok; [unfold header_read; by rewrite Hr|]. by eapply bindM_err.
  - intros size Hs Hsz. destruct Hinv' as [Hok Hnp Hobs Hbase Hbump (blocks & chains & Hshape) _ _].
    rewrite (allocate_unfold a' m' size o) by done.
    set (a0 := with_observed a' (mem_size m')).
    destruct (free_list_cases a' m' _ blocks chains o Ho Hshape)
      as [Hnil|(q & ps & next & Hq & Hc & Hrq & _)]; rewrite Hfl in *; simplify_eq.
    destruct (take_free_ok a0 m' (delete q live) blocks chains o q ps next) as [Ht Hin];
      [done|apply Hbase|done..|].
    destruct (alloc_tail_ok (with_free_lists a0 (<[Z.to_nat o := next]> (free_lists a0))) m' q o)
      as (m2 & Htail & _); [done..|].
    erewrite PoisonBomb_ok; [|eapply bindM_ok; [exact Ht|exact Htail]]. done.
Qed.

(** An operation that fails, on whatever heap, poisons the
    allocator, and every later operation is refused and changes nothing. *)
Theorem errors_poison a m a' m' e :
  (∃ size, allocate size (a, m) = ((a', m'), Err e)) ∨
  (∃ ptr, deallocate ptr (a, m) = ((a', m'), Err e)) →
  (∀ size, allocate size (a', m') = ((a', m'), Err (error "the allocator has been poisoned"))) ∧
  (∀ ptr, deallocate ptr (a', m') = ((a', m'), Err (error "the allocator has been poisoned"))).
Proof.
  intros Hr. assert (Hp : poisoned a' = true).
  { destruct Hr as [[x Hr]|[x Hr]]; unfold allocate, deallocate, bindM at 1, getM at 1 in Hr;
      simpl in Hr; destruct (poisoned a) eqn:Hp; (by apply PoisonBomb_err_inv in Hr) || by injection Hr as <- _ _. }
  unfold allocate, deallocate, bindM, getM; simpl. by rewrite Hp.
Qed.

End allocator_properties.

(** A header written anywhere inside the memory reads back as
    the same header, and no byte outside its eight changes. *)
Theorem header_roundtrip {T : Type} `{MemoryLaws T} (h : Header) (m : T) p :
  mem_ok m → header_in m p → header_wf h →
  ∃ m', write_into h m p = Ok m' ∧ read_from m' p = Ok h ∧ pages m' = pages m ∧
    ∀ i, i < p ∨ p + 8 ≤ i → mem_get m' i = mem_get m i.
Proof.
  intros Hok Hin Hwf. destruct (write_into_ok h m p Hok Hin Hwf) as (m' & ? & _ & ? & ? & _ & ?).
  eauto 10.
Qed.

(** A sequence of allocations. *)
Fixpoint alloc_all (sizes : list Z) (s : FreeingBumpHeapAllocator * SparseMem)
    : FreeingBumpHeapAllocator * SparseMem * list (res Error Z) :=
  match sizes with
  | [] => (s, [])
  | size :: sizes =>
      let '(s, r) := allocate size s in
      let '(s, rs) := alloc_all sizes s in (s, r :: rs)
  end.

(** 144 requests whose blocks add up to exactly 4 GiB. *)
Definition four_gib_sizes : list Z :=
  replicate 127 MAX_POSSIBLE_ALLOCATION ++
  [16777216; 8388608; 4194304; 2097152; 1048576; 524288; 262144; 131072; 65536; 32768; 16384;
   8192; 4096; 2048; 512; 256; 128].

(** Without a limit below the full address space the bound of
    [heap_safe] is needed: 144 requests that add up to exactly 4 GiB all
    succeed and wrap the 32-bit bumper around to 0, and the next request is
    given address 8, the address of the first block, which is still in use. *)
Theorem bumper_wraps :
  let '(s, rs) := alloc_all four_gib_sizes (allocator_new 0, mkSparse ∅ 1 None) in
  forallb is_ok rs = true ∧ head rs = Some (Ok 8) ∧ bumper s.1 = 0 ∧ poisoned s.1 = false ∧
  snd (allocate 8 s) = Ok 8.
Proof. vm_compute. split_all; reflexivity. Qed.

(** * Concrete instances *)

Definition demo_mem : SparseMem := mkSparse ∅ 1 (Some 4).

Lemma demo_mem_ok : mem_ok demo_mem.
Proof. split; [by vm_compute|]. split; [by vm_compute|]. apply map_Forall_empty. Qed.

Definition demo_heap : FreeingBumpHeapAllocator * SparseMem :=
  fst (allocate 100 (allocator_new 13, demo_mem)).

Lemma demo_run : rtc heap_step (allocator_new 13, demo_mem, ∅) (demo_heap.1, demo_heap.2, {[ 16 := 4 ]}).
Proof.
  apply rtc_once. apply (step_allocate _ _ ∅ 100 4 _ _ 24); [lia|by vm_compute|by vm_compute].
Qed.

Lemma demo_heap_inv : heap_inv demo_heap.1 demo_heap.2 {[ 16 := 4 ]}.
Proof.
  apply (heap_run_inv _ _ demo_run); simpl; [apply new_inv; [apply demo_mem_ok|lia]|by vm_compute].
Qed.

Lemma heap_safe_witness :
  block_end (16, 4) ≤ mem_size demo_heap.2 ∧ bytes_allocated (stats demo_heap.1) = 136.
Proof.
  destruct (heap_safe demo_mem 13 demo_heap.1 demo_heap.2 {[ 16 := 4 ]}) as [Hl Hs];
    [apply demo_mem_ok|lia|by vm_compute|apply demo_run|].
  split; [apply (Hl 16 4); by vm_compute|]. rewrite Hs. by vm_compute.
Defined.

Lemma allocate_correct_witness :
  snd (allocate 5 demo_heap) = Ok 160 ∧
  ∃ a' m' o, allocate 5 demo_heap = ((a', m'), Ok 160) ∧ heap_inv a' m' (<[152 := o]> {[ 16 := 4 ]}).
Proof.
  split; [by vm_compute|].
  destruct (allocate_correct demo_heap.1 demo_heap.2 {[ 16 := 4 ]} 5) as (a' & m' & r & Ha & Hr);
    [apply demo_heap_inv|lia|by vm_compute|].
  assert (Hr' : Ok 160 = r) by (apply (f_equal snd) in Ha; vm_compute in Ha; exact Ha).
  subst r. destruct Hr as (o & _ & _ & _ & Hi & _). exists a', m', o. split; [exact Ha|exact Hi].
Defined.

Lemma deallocate_correct_witness :
  ∃ a' m', deallocate 24 demo_heap = ((a', m'), Ok tt) ∧ heap_inv a' m' ∅ ∧
    snd (allocate 128 (a', m')) = Ok 24.
Proof.
  destruct (deallocate_correct demo_heap.1 demo_heap.2 {[ 16 := 4 ]} 16 4)
    as (a' & m' & Hd & Hi & _ & Hr); [apply demo_heap_inv|by vm_compute|].
  exists a', m'. split; [exact Hd|]. split; [exact Hi|]. apply Hr; [lia|by vm_compute].
Defined.

Lemma errors_poison_witness :
  let s := fst (allocate 33554433 demo_heap) in
  allocate 8 s = (s, Err (error "the allocator has been poisoned")).
Proof.
  destruct (errors_poison demo_heap.1 demo_heap.2 (fst (allocate 33554433 demo_heap)).1
    (fst (allocate 33554433 demo_heap)).2 RequestedAllocationTooLarge) as [Ha _].
  - left. exists 33554433. by vm_compute.
  - exact (Ha 8).
Defined.

Lemma header_roundtrip_witness :
  ∃ m', write_into (Free (Ptr 77)) demo_mem 40 = Ok m' ∧ read_from m' 40 = Ok (Free (Ptr 77)).
Proof.
  destruct (header_roundtrip (Free (Ptr 77)) demo_mem 40) as (m' & Hw & Hr & _);
    [apply demo_mem_ok|by vm_compute|by vm_compute|]. eauto.
Defined.
