(* ===== verification/ForkTree.v ===== *)
(** The fork tree (utils/fork-tree/src/lib.rs): pending blocks across several
    branches, with the searches, imports, pruning and finalization that
    consensus code runs on it.

    Every loop of the source runs over an explicit stack or queue; the theorems
    relate each of them to a structural definition on trees, and show what the
    operations keep: the order of numbers and ancestry along branches, the
    finalized number below all roots, and no node lost or invented. *)

From stdpp Require Import base numbers list option gmap sets fin_maps sorting.
From S2P Require Import Prelude.

Local Open Scope rust_scope.

(** * Data *)

(** [Error<E>] *)
Inductive Error (E : Type) :=
| Duplicate
| UnfinalizedAncestor
| Revert
| Client (e : E).
Arguments Duplicate {E}.
Arguments UnfinalizedAncestor {E}.
Arguments Revert {E}.
Arguments Client {E} e.

Inductive FinalizationResult (V : Type) :=
| Changed (data : option V)
| Unchanged.
Arguments Changed {V} data.
Arguments Unchanged {V}.

Inductive FilterAction := Remove | KeepNode | KeepTree.

(** [Node<H, N, V>]; the block numbers [N] are integers. *)
#[warnings="-register-all"]
Inductive Node (H V : Type) := mkNode {
  hash : H;
  number : Z;
  data : V;
  children : list (Node H V);
}.
Arguments mkNode {H V} _ _ _ _.
Arguments hash {H V} _.
Arguments number {H V} _.
Arguments data {H V} _.
Arguments children {H V} _.

Record ForkTree (H V : Type) := mkTree {
  roots : list (Node H V);
  best_finalized_number : option Z;
}.
Arguments mkTree {H V} _ _.
Arguments roots {H V} _.
Arguments best_finalized_number {H V} _.

(** * Traversals *)

Section node.
Context {H V : Type}.
Implicit Types (n : Node H V) (ns : list (Node H V)).

(** The number of nodes. *)
Fixpoint size n : nat :=
  match n with mkNode _ _ _ cs => S (sum_list_with size cs) end.

Definition sizes ns : nat := sum_list_with size ns.

(** [max_depth]: the loop over a stack whose head is the end of the [Vec]; a turn
    visits a node, so as many turns as there are nodes are enough.  Running
    out of fuel yields [None]. *)
Fixpoint max_depth_loop (fuel : nat) (stack : list (Node H V * nat)) (max : nat) : option nat :=
  match stack with
  | [] => Some max
  | (node, height) :: stack =>
      match fuel with
      | 0 => None
      | S fuel =>
          let max := if max <? height then height else max in
          let stack := foldl (λ st c, (c, S height) :: st) stack (children node) in
          max_depth_loop fuel stack max
      end
  end%nat.

Definition max_depth n : nat := default 0 (max_depth_loop (size n) [(n, 0)] 0).

(** [sort_by_key(|n| Reverse(n.max_depth()))]: a stable sort, deepest first. *)
Fixpoint insert_by_depth n ns : list (Node H V) :=
  match ns with
  | [] => [n]
  | m :: ns => if (max_depth m <=? max_depth n)%nat then n :: m :: ns else m :: insert_by_depth n ns
  end.

Definition sort_by_depth ns : list (Node H V) := foldr insert_by_depth [] ns.

(** [rebalance]: sorts the children of every node, parents first.  The loop visits
    each node once and touches nothing but its children, so the order of the
    visits does not matter; [fuel] bounds the depth. *)
Fixpoint rebalance_node (fuel : nat) n : Node H V :=
  match fuel with
  | 0 => n
  | S fuel =>
      mkNode (hash n) (number n) (data n) (rebalance_node fuel <$> sort_by_depth (children n))
  end.

Definition rebalance_roots ns : list (Node H V) :=
  (λ n, rebalance_node (size n) n) <$> sort_by_depth ns.

(** [ForkTreeIterator]: the items of the iterator with the given stack. *)
Fixpoint iter_loop (fuel : nat) (stack : list (Node H V)) : list (Node H V) :=
  match stack with
  | [] => []
  | node :: stack =>
      match fuel with
      | 0 => []
      | S fuel => node :: iter_loop fuel (children node ++ stack)
      end
  end.

(** [node_iter] *)
Definition node_iter (t : ForkTree H V) : list (Node H V) :=
  iter_loop (sizes (roots t)) (roots t).

Definition node_tuple n : H * Z * V := (hash n, number n, data n).

Definition iter (t : ForkTree H V) : list (H * Z * V) := node_tuple <$> node_iter t.

(** [RemovedIterator]: the same walk over owned nodes; the stack is a [Vec], so
    the last of [removed] comes first. *)
Definition removed_iter (removed : list (Node H V)) : list (H * Z * V) :=
  node_tuple <$> iter_loop (sizes removed) (rev removed).

(** The node at a path of indices, and replacing what is there; [None] is an index
    out of range. *)
Fixpoint node_at ns (path : list nat) : option (Node H V) :=
  match path with
  | [] => None
  | [i] => ns !! i
  | i :: path => n ← ns !! i; node_at (children n) path
  end.

(** Updates the list of siblings that the path leads to. *)
Fixpoint update_siblings (f : list (Node H V) -> option (list (Node H V))) ns (path : list nat)
    : option (list (Node H V)) :=
  match path with
  | [] => f ns
  | i :: path =>
      n ← ns !! i;
      cs ← update_siblings f (children n) path;
      Some (<[i := mkNode (hash n) (number n) (data n) cs]> ns)
  end.

End node.

(** * Operations *)

Section fork_tree.
Context {H V E : Type} `{EqDecision H}.
Implicit Types (n : Node H V) (t : ForkTree H V).

Definition new_tree : ForkTree H V := mkTree [] None.

Definition with_roots t rs : ForkTree H V := mkTree rs (best_finalized_number t).
Definition with_best t b : ForkTree H V := mkTree (roots t) (Some b).

Definition rebalance t : ForkTree H V := with_roots t (rebalance_roots (roots t)).

(** The closure that decides ancestry may fail; [?] turns its error into
    [Error::Client]. *)
Variable is_descendent_of : H -> H -> res E bool.

Definition descends (base target : H) : res (Error E) bool :=
  match is_descendent_of base target with
  | Ok b => Ok b
  | Err e => Err (Client e)
  | Panic => Panic
  end.

(** [a && f()?]: the call is made only when [a] holds. *)
Definition and_then (a : bool) (f : res (Error E) bool) : res (Error E) bool :=
  if a then f else Ok false.
Definition or_else (a : bool) (f : res (Error E) bool) : res (Error E) bool :=
  if a then Ok true else f.

(** ** Searching *)

(** The inner loop of [find_node_index_where]: the stack (head on top) holds the
    nodes of the current branch with the next child to search; the result says
    whether a node was found, whether an ancestor was met, and the stack left. *)
Fixpoint search_loop (fuel : nat) (h : H) (num : Z) (predicate : V -> bool)
    (stack : list (Node H V * nat)) (is_descendent : bool)
    : res (Error E) (bool * bool * list (Node H V * nat)) :=
  match stack with
  | [] => Ok (false, is_descendent, [])
  | (node, i) :: stack =>
      match fuel with
      | 0 => Panic
      | S fuel =>
          match (if is_descendent then None else children node !! i) with
          | Some c =>
              let stack := (node, S i) :: stack in
              search_loop fuel h num predicate
                (if (number c <? num)%Z then (c, 0) :: stack else stack) is_descendent
          | None =>
              let? d := or_else is_descendent (descends (hash node) h) in
              if d then
                if predicate (data node) then Ok (true, true, stack)
                else search_loop fuel h num predicate stack true
              else search_loop fuel h num predicate stack is_descendent
          end
      end
  end.

(** Enough turns of the loop: one per node and one per edge. *)
Definition search_fuel n : nat := 2 * size n.

(** The outer loop, over the roots that are left. *)
Fixpoint search_roots (h : H) (num : Z) (predicate : V -> bool) (root_idx : nat)
    (rs : list (Node H V)) : res (Error E) (option (list nat)) :=
  match rs with
  | [] => Ok None
  | root :: rs =>
      if (num <=? number root)%Z then search_roots h num predicate (S root_idx) rs
      else
        let? r := search_loop (search_fuel root) h num predicate [(root, 0)] false in
        let '(found, is_descendent, stack) := r in
        if is_descendent then
          Ok (if found then Some (root_idx :: rev ((λ e, pred e.2) <$> stack)) else None)
        else search_roots h num predicate (S root_idx) rs
  end.

Definition find_node_index_where t (h : H) (num : Z) (predicate : V -> bool)
    : res (Error E) (option (list nat)) :=
  search_roots h num predicate 0 (roots t).

(** [find_node_where] and [find_node_where_mut] index the tree with the path. *)
Definition find_node_where t (h : H) (num : Z) (predicate : V -> bool)
    : res (Error E) (option (Node H V)) :=
  let? maybe_path := find_node_index_where t h num predicate in
  match maybe_path with
  | Some path => let? n := expect (node_at (roots t) path) in Ok (Some n)
  | None => Ok None
  end.

(** ** Importing *)

(** [children.push(node)] unless the hash is already there. *)
Definition push_child n (siblings : list (Node H V)) : res (Error E) (list (Node H V)) :=
  if existsb (λ elem, bool_decide (hash elem = hash n)) siblings then Err Duplicate
  else Ok (siblings ++ [n]).

Definition check_finalized t (num : Z) : res (Error E) unit :=
  match best_finalized_number t with
  | Some best => if (num <=? best)%Z then Err Revert else Ok tt
  | None => Ok tt
  end.

Definition import (h : H) (num : Z) (d : V) : M (ForkTree H V) (Error E) bool := λ t,
  match (let? _ := check_finalized t num in find_node_index_where t h num (λ _, true)) with
  | Err e => (t, Err e)
  | Panic => (t, Panic)
  | Ok maybe_path =>
      let path := default [] maybe_path in
      let siblings :=
        match maybe_path with
        | Some path => children <$> node_at (roots t) path
        | None => Some (roots t)
        end in
      match siblings with
      | None => (t, Panic)
      | Some siblings =>
          match push_child (mkNode h num d []) siblings with
          | Err e => (t, Err e)
          | Panic => (t, Panic)
          | Ok siblings' =>
              match update_siblings (λ _, Some siblings') (roots t) path with
              | None => (t, Panic)
              | Some rs =>
                  let t := with_roots t rs in
                  ((if bool_decide (length siblings' = 1) then rebalance t else t),
                   Ok (bool_decide (maybe_path = None)))
              end
          end
      end
  end.

(** ** Finalizing *)

(** The roots a loop keeps; the state of the tree while it runs is the roots kept
    so far, the others having been taken out. *)
Fixpoint retain_roots (keep : Node H V -> res (Error E) bool) (rs : list (Node H V))
    (changed : bool) : M (ForkTree H V) (Error E) bool := λ t,
  match rs with
  | [] => (t, Ok changed)
  | root :: rs =>
      match keep root with
      | Ok true => retain_roots keep rs changed (with_roots t (roots t ++ [root]))
      | Ok false => retain_roots keep rs true t
      | Err e => (t, Err e)
      | Panic => (t, Panic)
      end
  end.

(** [roots.swap_remove(i)]: the last root takes the place of the removed one. *)
Definition swap_remove {A} (l : list A) (i : nat) : option (A * list A) :=
  x ← l !! i;
  '(y, l') ← vec_pop l;
  Some (x, if bool_decide (i = length l') then l' else <[i := y]> l').

Definition finalize_root_at (position : nat) : M (ForkTree H V) (Error E) V := λ t,
  match swap_remove (roots t) position with
  | Some (node, _) => (mkTree (children node) (Some (number node)), Ok (data node))
  | None => (t, Panic)
  end.

Definition position (h : H) (rs : list (Node H V)) : option nat :=
  fst <$> list_find (λ n, hash n = h) rs.

Definition finalize_root (h : H) : M (ForkTree H V) (Error E) (option V) := λ t,
  match position h (roots t) with
  | Some i => (let* v := finalize_root_at i in retM (Some v)) t
  | None => (t, Ok None)
  end.

(** [for x in l { if p(x)? { return Err(UnfinalizedAncestor) } }] *)
Fixpoint none_of (p : Node H V -> res (Error E) bool) (l : list (Node H V)) : res (Error E) unit :=
  match l with
  | [] => Ok tt
  | x :: l =>
      let? b := p x in
      if b then Err UnfinalizedAncestor else none_of p l
  end.

Definition finalize (h : H) (num : Z)
    : M (ForkTree H V) (Error E) (FinalizationResult V) :=
  let* t := getM in
  liftM (check_finalized t num);;;
  let* root := finalize_root h in
  match root with
  | Some root => retM (Changed (Some root))
  | None =>
      liftM (none_of (λ root, and_then (number root <? num)%Z (descends (hash root) h)) (roots t));;;
      modifyM (λ t, with_roots t []);;;
      let* changed :=
        retain_roots (λ root, and_then (num <? number root)%Z (descends h (hash root))) (roots t)
          false in
      modifyM (λ t, with_best t num);;;
      retM (if changed then Changed None else Unchanged)
  end.

(** The [while] loop of [finalize_with_ancestors]; every turn moves past a root or
    removes a node, so as many turns as there are nodes are enough. *)
Fixpoint open_ancestors (fuel : nat) (h : H) (num : Z) (idx : nat) (changed : bool)
    : M (ForkTree H V) (Error E) (option V * bool) := λ t,
  match roots t !! idx with
  | None => (t, Ok (None, changed))
  | Some root =>
      match fuel with
      | 0 => (t, Panic)
      | S fuel =>
          let is_finalized := bool_decide (hash root = h) in
          match
            (let? is_descendant :=
               and_then (negb is_finalized && (num <? number root)%Z) (descends h (hash root)) in
             let? is_ancestor :=
               and_then (negb is_finalized && negb is_descendant && (number root <? num)%Z)
                 (descends (hash root) h) in
             Ok (is_descendant, is_ancestor))
          with
          | Err e => (t, Err e)
          | Panic => (t, Panic)
          | Ok (is_descendant, is_ancestor) =>
              if is_finalized then (let* v := finalize_root_at idx in retM (Some v, changed)) t
              else if is_descendant then open_ancestors fuel h num (S idx) changed t
              else
                match swap_remove (roots t) idx with
                | None => (t, Panic)
                | Some (root, rs) =>
                    open_ancestors fuel h num idx true
                      (with_roots t (if is_ancestor then rs ++ children root else rs))
                end
          end
      end
  end.

Definition finalize_with_ancestors (h : H) (num : Z)
    : M (ForkTree H V) (Error E) (FinalizationResult V) :=
  let* t := getM in
  liftM (check_finalized t num);;;
  let* root := finalize_root h in
  match root with
  | Some root => retM (Changed (Some root))
  | None =>
      let* r := open_ancestors (sizes (roots t)) h num 0 false in
      match r with
      | (Some v, _) => retM (Changed (Some v))
      | (None, changed) =>
          modifyM (λ t, with_best t num);;;
          retM (if changed then Changed None else Unchanged)
      end
  end.

(** Whether a node (or a descendent of it outside the tree) is being finalized
    without finalizing past one of its children. *)
Definition finalizes_node (h : H) (num : Z) (predicate : V -> bool) n : res (Error E) bool :=
  let? b := and_then (predicate (data n))
              (or_else (bool_decide (hash n = h)) (descends (hash n) h)) in
  if b then
    let? _ := none_of (λ child,
      and_then (number child <=? num)%Z
        (or_else (bool_decide (hash child = h)) (descends (hash child) h))) (children n) in
    Ok true
  else Ok false.

(** The first node of the list that is being finalized. *)
Fixpoint first_finalized (h : H) (num : Z) (predicate : V -> bool) (i : nat)
    (l : list (Node H V)) : res (Error E) (option (nat * Node H V)) :=
  match l with
  | [] => Ok None
  | n :: l =>
      let? b := finalizes_node h num predicate n in
      if b then Ok (Some (i, n)) else first_finalized h num predicate (S i) l
  end.

Definition finalizes_any_with_descendent_if t (h : H) (num : Z) (predicate : V -> bool)
    : res (Error E) (option bool) :=
  let? _ := check_finalized t num in
  let? r := first_finalized h num predicate 0 (node_iter t) in
  Ok ('(_, node) ← r;
      Some (existsb (λ root, bool_decide (hash root = hash node)) (roots t))).

Definition finalize_with_descendent_if (h : H) (num : Z) (predicate : V -> bool)
    : M (ForkTree H V) (Error E) (FinalizationResult V) :=
  let* t := getM in
  liftM (check_finalized t num);;;
  let* r := liftM (first_finalized h num predicate 0 (roots t)) in
  let* node_data :=
    match r with
    | Some (i, _) => let* v := finalize_root_at i in retM (Some v)
    | None => retM None
    end in
  let* t := getM in
  modifyM (λ t, with_roots t []);;;
  let* changed :=
    retain_roots (λ root,
      let? a := and_then (num <? number root)%Z (descends h (hash root)) in
      or_else (a || (number root =? num)%Z && bool_decide (hash root = h))
        (descends (hash root) h)) (roots t) false in
  modifyM (λ t, with_best t num);;;
  retM (match node_data, changed with
        | Some d, _ => Changed (Some d)
        | None, true => Changed None
        | None, false => Unchanged
        end).

(** ** Pruning *)

(** The first child that is an ancestor of the block. *)
Fixpoint first_ancestor (h : H) (num : Z) (i : nat) (cs : list (Node H V))
    : res (Error E) (option nat) :=
  match cs with
  | [] => Ok None
  | c :: cs =>
      let? b := and_then (number c <? num)%Z (descends (hash c) h) in
      if b then Ok (Some i) else first_ancestor h num (S i) cs
  end.

(** The last loop of [prune], over the children taken from the last ancestor: those
    put back, those removed, and how the loop ended. *)
Fixpoint keep_descendents (h : H) (num : Z) (kept removed cs : list (Node H V))
    : list (Node H V) * list (Node H V) * res (Error E) unit :=
  match cs with
  | [] => (kept, removed, Ok tt)
  | c :: cs =>
      match or_else ((number c =? num)%Z && bool_decide (hash c = h))
              (and_then (num <? number c)%Z (descends h (hash c))) with
      | Ok true => keep_descendents h num (kept ++ [c]) removed cs
      | Ok false => keep_descendents h num kept (removed ++ [c]) cs
      | Err e => (kept, removed, Err e)
      | Panic => (kept, removed, Panic)
      end
  end.

(** The walk down from the new root: [n] as it is left in the tree, the nodes
    removed below it, and how the walk ended. *)
Fixpoint prune_below (fuel : nat) (h : H) (num : Z) n
    : Node H V * list (Node H V) * res (Error E) unit :=
  let with_children cs := mkNode (hash n) (number n) (data n) cs in
  match fuel with
  | 0 => (n, [], Panic)
  | S fuel =>
      match first_ancestor h num 0 (children n) with
      | Err e => (n, [], Err e)
      | Panic => (n, [], Panic)
      | Ok (Some i) =>
          match children n !! i with
          | None => (n, [], Panic)
          | Some next =>
              let '(next', removed, r) := prune_below fuel h num next in
              (with_children [next'], delete i (children n) ++ removed, r)
          end
      | Ok None =>
          let '(kept, removed, r) := keep_descendents h num [] [] (children n) in
          (with_children kept, removed, r)
      end
  end.

Definition prune (h : H) (num : Z) (predicate : V -> bool)
    : M (ForkTree H V) (Error E) (list (H * Z * V)) := λ t,
  match find_node_index_where t h num predicate with
  | Err e => (t, Err e)
  | Panic => (t, Panic)
  | Ok None => (t, Ok [])
  | Ok (Some path) =>
      match node_at (roots t) path,
            (i ← last path;
             update_siblings (λ sibs, Some (delete i sibs)) (roots t) (take (pred (length path)) path))
      with
      | Some root, Some removed =>
          let '(root', removed', r) := prune_below (size root) h num root in
          let t := with_roots t [root'] in
          match r with
          | Ok _ => (rebalance t, Ok (removed_iter (removed ++ removed')))
          | Err e => (t, Err e)
          | Panic => (t, Panic)
          end
      | _, _ => (t, Panic)
      end
  end.

End fork_tree.

(** ** Breadth-first rebuilding

    [map] and [drain_filter] take the tree apart level by level into a vector of
    nodes with the index of their parent ([usize::MAX], here [None], for a
    root), and put it together again from the end of the vector. *)

Section rebuild.
Context {H V W : Type}.

(** What becomes of a node: it is removed with its subtree, or it is kept as the
    given node and the given children are processed in turn. *)
Variable step : Node H V -> option (Node H W * list (Node H V)).

(** [for (parent_idx, node) in queue.drain(..)] *)
Fixpoint drain_queue (queue : list (option nat * Node H V))
    (out : list (option nat * Node H W)) (next_queue : list (option nat * Node H V))
    (removed : list (Node H V))
    : list (option nat * Node H W) * list (option nat * Node H V) * list (Node H V) :=
  match queue with
  | [] => (out, next_queue, removed)
  | (parent_idx, node) :: queue =>
      match step node with
      | Some (node', cs) =>
          drain_queue queue (out ++ [(parent_idx, node')])
            (next_queue ++ ((λ c, (Some (length out), c)) <$> rev cs)) removed
      | None => drain_queue queue out next_queue (removed ++ [node])
      end
  end.

(** [while !queue.is_empty()]: one turn per level, so the number of nodes is enough;
    [None] when the fuel runs out. *)
Fixpoint drain_levels (fuel : nat) (queue : list (option nat * Node H V))
    (out : list (option nat * Node H W)) (removed : list (Node H V))
    : option (list (option nat * Node H W) * list (Node H V)) :=
  match queue with
  | [] => Some (out, removed)
  | _ :: _ =>
      match fuel with
      | 0 => None
      | S fuel =>
          let '(out, next_queue, removed) := drain_queue queue out [] removed in
          drain_levels fuel next_queue out removed
      end
  end.

Definition push_onto (n : Node H W) (e : option nat * Node H W) : option nat * Node H W :=
  (e.1, mkNode (hash e.2) (number e.2) (data e.2) (children e.2 ++ [n])).

(** [while let Some((parent_idx, node)) = output.pop()]; [None] is an index out of
    range. *)
Fixpoint put_together (fuel : nat) (out : list (option nat * Node H W)) (rs : list (Node H W))
    : option (list (Node H W)) :=
  match vec_pop out with
  | None => Some rs
  | Some ((parent_idx, node), out) =>
      match fuel with
      | 0 => None
      | S fuel =>
          match parent_idx with
          | None => put_together fuel out (rs ++ [node])
          | Some i =>
              e ← out !! i;
              put_together fuel (<[i := push_onto node e]> out) rs
          end
      end
  end.

(** The rebuilt roots and the removed nodes. *)
Definition rebuild (rs : list (Node H V)) : option (list (Node H W) * list (Node H V)) :=
  '(out, removed) ← drain_levels (sizes rs) ((λ n, (None, n)) <$> rev rs) [] [];
  rs' ← put_together (length out) out [];
  Some (rs', removed).

End rebuild.

Section map_filter.
Context {H V W : Type}.

Definition map_step (f : H -> Z -> V -> W) (n : Node H V) : option (Node H W * list (Node H V)) :=
  Some (mkNode (hash n) (number n) (f (hash n) (number n) (data n)) [], children n).

(** [map]: [None] is a panic. *)
Definition map (f : H -> Z -> V -> W) (t : ForkTree H V) : option (ForkTree H W) :=
  '(rs, _) ← rebuild (map_step f) (roots t);
  Some (mkTree rs (best_finalized_number t)).

Definition filter_step (filter : H -> Z -> V -> FilterAction) (n : Node H V)
    : option (Node H V * list (Node H V)) :=
  match filter (hash n) (number n) (data n) with
  | KeepNode => Some (mkNode (hash n) (number n) (data n) [], children n)
  | KeepTree => Some (n, [])
  | Remove => None
  end.

Definition drain_filter {E} (filter : H -> Z -> V -> FilterAction)
    : M (ForkTree H V) E (list (H * Z * V)) := λ t,
  match rebuild (filter_step filter) (roots t) with
  | None => (t, Panic)
  | Some (rs, removed) =>
      let t := with_roots t rs in
      (match removed with [] => t | _ :: _ => rebalance t end, Ok (removed_iter removed))
  end.

End map_filter.

(** * Structural definitions *)

Section structure.
Context {H V : Type}.
Implicit Types (n c : Node H V) (ns cs : list (Node H V)).

(** Induction over nodes and their children. *)
Lemma node_ind (P : Node H V → Prop) :
  (∀ h num d cs, Forall P cs → P (mkNode h num d cs)) → ∀ n, P n.
Proof.
  intros Hstep. fix IH 1. intros [h num d cs]. apply Hstep.
  induction cs as [|c cs IHcs]; constructor; [apply IH|exact IHcs].
Qed.

(** All nodes in pre-order. *)
Fixpoint preorder n : list (Node H V) :=
  match n with mkNode _ _ _ cs => n :: (cs ≫= preorder) end.

Definition all_nodes ns : list (Node H V) := ns ≫= preorder.

Definition tuples ns : list (H * Z * V) := node_tuple <$> all_nodes ns.

(** The parent-child pairs: with the roots, the forest up to the order of
    siblings. *)
Fixpoint edges_of n : list ((H * Z * V) * (H * Z * V)) :=
  match n with
  | mkNode h num d cs => ((λ c, ((h, num, d), node_tuple c)) <$> cs) ++ (cs ≫= edges_of)
  end.

Definition edges ns : list ((H * Z * V) * (H * Z * V)) := ns ≫= edges_of.

(** The longest branch below a node. *)
Fixpoint height n : nat :=
  match n with mkNode _ _ _ cs => foldr (λ c k, S (height c) `max` k) 0 cs end.

Lemma size_unfold n : size n = S (sizes (children n)).
Proof. by destruct n. Qed.

Lemma preorder_unfold n : preorder n = n :: all_nodes (children n).
Proof. by destruct n. Qed.

Lemma height_unfold n : height n = foldr (λ c k, S (height c) `max` k) 0 (children n).
Proof. by destruct n. Qed.

Lemma edges_unfold n :
  edges_of n = ((λ c, (node_tuple n, node_tuple c)) <$> children n) ++ edges (children n).
Proof. by destruct n. Qed.

Lemma sizes_app ns1 ns2 : sizes (ns1 ++ ns2) = sizes ns1 + sizes ns2.
Proof. apply sum_list_with_app. Qed.

Lemma sizes_cons n ns : sizes (n :: ns) = S (sizes (children n) + sizes ns).
Proof. unfold sizes at 1. simpl. by rewrite size_unfold. Qed.

Lemma all_nodes_app ns1 ns2 : all_nodes (ns1 ++ ns2) = all_nodes ns1 ++ all_nodes ns2.
Proof. apply bind_app. Qed.

Lemma all_nodes_cons n ns : all_nodes (n :: ns) = n :: all_nodes (children n) ++ all_nodes ns.
Proof. unfold all_nodes at 1. rewrite bind_cons, preorder_unfold. done. Qed.

Lemma tuples_app ns1 ns2 : tuples (ns1 ++ ns2) = tuples ns1 ++ tuples ns2.
Proof. unfold tuples. by rewrite all_nodes_app, fmap_app. Qed.

Lemma tuples_nil : tuples [] = [].
Proof. done. Qed.

Lemma tuples_cons n ns : tuples (n :: ns) = node_tuple n :: tuples (children n) ++ tuples ns.
Proof. unfold tuples at 1. by rewrite all_nodes_cons, fmap_cons, fmap_app. Qed.

Lemma edges_app ns1 ns2 : edges (ns1 ++ ns2) = edges ns1 ++ edges ns2.
Proof. apply bind_app. Qed.

Lemma edges_cons n ns :
  edges (n :: ns) =
  ((λ c, (node_tuple n, node_tuple c)) <$> children n) ++ edges (children n) ++ edges ns.
Proof. unfold edges at 1. rewrite bind_cons, edges_unfold. by rewrite <- (assoc_L (++)). Qed.

#[global] Instance all_nodes_proper : Proper ((≡ₚ) ==> (≡ₚ)) (all_nodes).
Proof. apply bind_Permutation. Qed.

#[global] Instance tuples_proper : Proper ((≡ₚ) ==> (≡ₚ)) (tuples).
Proof. intros l l' Hl. unfold tuples. by rewrite Hl. Qed.

#[global] Instance edges_proper : Proper ((≡ₚ) ==> (≡ₚ)) (edges).
Proof. apply bind_Permutation. Qed.

#[global] Instance sizes_proper : Proper ((≡ₚ) ==> (=)) (sizes (H:=H) (V:=V)).
Proof. intros l l' Hl. unfold sizes. by rewrite Hl. Qed.

Lemma length_all_nodes ns : length (all_nodes ns) = sizes ns.
Proof.
  assert (Hn : ∀ n, length (preorder n) = size n).
  { intros n. induction n as [h num d cs IH] using node_ind. simpl. f_equal.
    induction IH as [|c cs Hc _ IHcs]; [done|]. by rewrite bind_cons, length_app, Hc, IHcs. }
  induction ns as [|n ns IH]; [done|].
  unfold all_nodes in *. by rewrite bind_cons, length_app, IH, Hn.
Qed.

(** ** The loops compute structural functions *)

(** The maximum of [g] over a list, and [m]. *)
Definition max_over {A} (g : A → nat) (l : list A) (m : nat) : nat :=
  foldr (λ e k, g e `max` k) m l.

Lemma max_over_base {A} (g : A → nat) l m : max_over g l m = max_over g l 0 `max` m.
Proof. induction l as [|x l IH]; simpl; [done|]. rewrite IH. lia. Qed.

Lemma max_over_app {A} (g : A → nat) l1 l2 m :
  max_over g (l1 ++ l2) m = max_over g l1 (max_over g l2 m).
Proof. apply foldr_app. Qed.

#[global] Instance max_over_proper {A} (g : A → nat) : Proper ((≡ₚ) ==> eq ==> eq) (max_over g).
Proof.
  intros l l' Hl m _ <-. induction Hl; simpl; [done|congruence|lia|congruence].
Qed.

Lemma max_over_children h cs :
  h `max` max_over (λ e : Node H V * nat, e.2 + height e.1) ((λ c, (c, S h)) <$> cs) 0 =
  h + max_over (λ c, S (height c)) cs 0.
Proof.
  unfold max_over in *. induction cs as [|c cs IH]; cbn [foldr fmap list_fmap fst snd] in *; lia.
Qed.

Lemma max_depth_loop_ok fuel (stack : list (Node H V * nat)) mx :
  sum_list_with (λ e, size e.1) stack ≤ fuel →
  max_depth_loop fuel stack mx = Some (max_over (λ e, e.2 + height e.1) stack mx).
Proof.
  revert stack mx. induction fuel as [|fuel IH]; intros [|[n h] stack] mx Hf; try done.
  { simpl in Hf. rewrite size_unfold in Hf. lia. }
  cbn [max_depth_loop].
  assert (Hpush : ∀ cs st, foldl (λ st c, (c, S h) :: st) st cs ≡ₚ ((λ c, (c, S h)) <$> cs) ++ st).
  { induction cs as [|c cs IHcs]; intros st; [done|]. simpl.
    by rewrite IHcs, Permutation_middle. }
  rewrite IH.
  - f_equal. rewrite Hpush, max_over_app, (max_over_base _ _ (max_over _ stack _)).
    change (max_over (λ e, e.2 + height e.1) ((n, h) :: stack) mx) with
      ((h + height n) `max` max_over (λ e, e.2 + height e.1) stack mx).
    rewrite (max_over_base _ stack mx), (max_over_base _ stack (if mx <? h then h else mx)).
    rewrite height_unfold. fold (max_over (λ c, S (height c)) (children n) 0).
    pose proof (max_over_children h (children n)). destruct (Nat.ltb_spec mx h); lia.
  - rewrite Hpush, sum_list_with_app. simpl in Hf. rewrite size_unfold in Hf.
    assert (Hs : sum_list_with (λ e : Node H V * nat, size e.1) ((λ c, (c, S h)) <$> children n) =
      sizes (children n)).
    { clear. unfold sizes. induction (children n) as [|c cs IHcs]; [done|].
      cbn [fmap list_fmap sum_list_with fst]. by rewrite IHcs. }
    lia.
Qed.

Lemma max_depth_height n : max_depth n = height n.
Proof.
  unfold max_depth. rewrite max_depth_loop_ok by (simpl; lia). simpl. lia.
Qed.

Lemma iter_loop_ok fuel ns : sizes ns ≤ fuel → iter_loop fuel ns = all_nodes ns.
Proof.
  revert ns. induction fuel as [|fuel IH]; intros [|n ns] Hf; try done.
  { rewrite sizes_cons in Hf. lia. }
  cbn [iter_loop]. rewrite all_nodes_cons, IH, all_nodes_app; [done|].
  rewrite sizes_cons in Hf. rewrite sizes_app. lia.
Qed.

Lemma removed_iter_ok ns : removed_iter ns ≡ₚ tuples ns.
Proof.
  unfold removed_iter. rewrite iter_loop_ok.
  - unfold tuples. by rewrite <- Permutation_rev.
  - by rewrite <- Permutation_rev.
Qed.

(** ** Sorting *)

Lemma insert_by_depth_perm n ns : insert_by_depth n ns ≡ₚ n :: ns.
Proof.
  induction ns as [|m ns IH]; simpl; [done|]. case_match; [done|]. by rewrite IH, perm_swap.
Qed.

Lemma sort_by_depth_perm ns : sort_by_depth ns ≡ₚ ns.
Proof.
  induction ns as [|n ns IH]; simpl; [done|]. by rewrite insert_by_depth_perm, IH.
Qed.

(** Deepest branches first. *)
Definition by_depth n m : Prop := height m ≤ height n.

Lemma sort_by_depth_sorted ns : StronglySorted by_depth (sort_by_depth ns).
Proof.
  induction ns as [|n ns IH]; simpl; [constructor|].
  induction IH as [|m l Hl IHl Hm]; simpl; [repeat constructor|].
  rewrite !max_depth_height. destruct (Nat.leb_spec (height m) (height n)).
  - constructor; [by constructor|]. constructor; [done|].
    eapply Forall_impl; [exact Hm|]. unfold by_depth. intros x ?. simpl in *. lia.
  - constructor; [done|]. rewrite insert_by_depth_perm. constructor; [unfold by_depth; lia|done].
Qed.

(** ** Rebalancing *)

(** The same forest up to the order of siblings. *)
Definition same_forest ns ns' : Prop :=
  (node_tuple <$> ns') ≡ₚ (node_tuple <$> ns) ∧ tuples ns' ≡ₚ tuples ns ∧ edges ns' ≡ₚ edges ns ∧
  (height <$> ns') ≡ₚ (height <$> ns).

Lemma same_forest_perm ns ns' : ns' ≡ₚ ns → same_forest ns ns'.
Proof. intros Hp. unfold same_forest. by rewrite Hp. Qed.

Lemma same_forest_trans ns1 ns2 ns3 :
  same_forest ns1 ns2 → same_forest ns2 ns3 → same_forest ns1 ns3.
Proof. intros (?&?&?&?) (?&?&?&?). unfold same_forest. split_all; by etrans. Qed.

Lemma same_forest_cons n n' ns ns' :
  node_tuple n' = node_tuple n → height n' = height n → same_forest (children n) (children n') →
  same_forest ns ns' → same_forest (n :: ns) (n' :: ns').
Proof.
  intros Ht Hh (Hc1 & Hc2 & Hc3 & Hc4) (Hn1 & Hn2 & Hn3 & Hn4). unfold same_forest.
  rewrite !fmap_cons, !tuples_cons, !edges_cons, Ht, Hh. split_all.
  - by rewrite Hn1.
  - by rewrite Hc2, Hn2.
  - rewrite Hc3, Hn3. apply Permutation_app_tail.
    change (λ c : Node H V, (node_tuple n, node_tuple c)) with
      (pair (node_tuple n) ∘ @node_tuple H V).
    by rewrite !list_fmap_compose, Hc1.
  - by rewrite Hn4.
Qed.

Lemma height_children cs n n' :
  children n = cs → (height <$> children n') ≡ₚ (height <$> cs) → height n' = height n.
Proof.
  intros <- Hp. rewrite !height_unfold.
  assert (Hm : ∀ l : list (Node H V), foldr (λ c k, S (height c) `max` k) 0 l =
    max_over S (height <$> l) 0).
  { induction l as [|c l IHl]; [done|]. cbn [foldr fmap list_fmap]. by rewrite IHl. }
  by rewrite !Hm, Hp.
Qed.

Lemma rebalance_node_ok fuel n :
  node_tuple (rebalance_node fuel n) = node_tuple n ∧ height (rebalance_node fuel n) = height n ∧
  same_forest (children n) (children (rebalance_node fuel n)).
Proof.
  revert n. induction fuel as [|fuel IH]; intros n; [by split_all; try apply same_forest_perm|].
  assert (Hl : ∀ l, same_forest l (rebalance_node fuel <$> l)).
  { induction l as [|c l IHl]; [by apply same_forest_perm|].
    destruct (IH c) as (? & ? & ?). by apply same_forest_cons. }
  assert (Hs : same_forest (children n) (children (rebalance_node (S fuel) n))).
  { simpl. eapply same_forest_trans; [|apply Hl]. apply same_forest_perm, sort_by_depth_perm. }
  split_all; [done| |done]. eapply height_children; [done|]. apply Hs.
Qed.

Lemma rebalance_roots_same ns : same_forest ns (rebalance_roots ns).
Proof.
  unfold rebalance_roots. eapply same_forest_trans;
    [apply same_forest_perm, sort_by_depth_perm|].
  induction (sort_by_depth ns) as [|c l IHl]; [by apply same_forest_perm|].
  destruct (rebalance_node_ok (size c) c) as (? & ? & ?). by apply same_forest_cons.
Qed.

(** Every list of siblings is sorted, deepest branch first. *)
Definition balanced ns : Prop :=
  StronglySorted by_depth ns ∧ ∀ n, n ∈ all_nodes ns → StronglySorted by_depth (children n).

Lemma sorted_fmap (f : Node H V → Node H V) l :
  (∀ c, height (f c) = height c) → StronglySorted by_depth l → StronglySorted by_depth (f <$> l).
Proof.
  intros Hf. induction 1 as [|c l _ IH Hc]; simpl; [constructor|]. constructor; [done|].
  apply Forall_fmap. eapply Forall_impl; [exact Hc|]. unfold by_depth; simpl. intros x.
  by rewrite !Hf.
Qed.

Lemma sizes_elem n ns : n ∈ ns → size n ≤ sizes ns.
Proof. apply sum_list_with_in. Qed.

Lemma rebalance_node_balanced fuel n m :
  size n ≤ fuel → m ∈ preorder (rebalance_node fuel n) → StronglySorted by_depth (children m).
Proof.
  revert n m. induction fuel as [|fuel IH]; intros n m Hf; [rewrite size_unfold in Hf; lia|].
  rewrite preorder_unfold. intros [->|Hm]%elem_of_cons.
  - simpl. apply sorted_fmap; [intros c; apply rebalance_node_ok|apply sort_by_depth_sorted].
  - simpl in Hm. apply list_elem_of_bind in Hm as (c' & Hm & Hc').
    apply list_elem_of_fmap in Hc' as (c & -> & Hc). rewrite sort_by_depth_perm in Hc.
    apply (IH c m); [|done]. apply sizes_elem in Hc. rewrite size_unfold in Hf. lia.
Qed.

Lemma rebalance_roots_balanced ns : balanced (rebalance_roots ns).
Proof.
  unfold rebalance_roots. split.
  - assert (Hg : ∀ l, StronglySorted by_depth l →
      StronglySorted by_depth ((λ n, rebalance_node (size n) n) <$> l)).
    { intros l. apply sorted_fmap. intros c. apply rebalance_node_ok. }
    apply Hg, sort_by_depth_sorted.
  - intros m Hm. apply list_elem_of_bind in Hm as (c' & Hm & Hc').
    apply list_elem_of_fmap in Hc' as (c & -> & _). by eapply rebalance_node_balanced.
Qed.

End structure.

(** * Rebuilding is structural *)

Section rebuild_lemmas.
Context {H V W : Type} (step : Node H V → option (Node H W * list (Node H V))).
Hypothesis step_smaller : ∀ n n' cs, step n = Some (n', cs) → sizes cs < size n.

Abbreviation entry := (option nat * Node H W)%type.
Abbreviation queued := (option nat * Node H V)%type.

Definition add_children (n : Node H W) (cs : list (Node H W)) : Node H W :=
  mkNode (hash n) (number n) (data n) (children n ++ cs).

(** What a node becomes, top-down. *)
Fixpoint kept (fuel : nat) (n : Node H V) : option (Node H W) :=
  match fuel with
  | 0 => None
  | S fuel => '(n', cs) ← step n; Some (add_children n' (omap (kept fuel) cs))
  end.

(** What is removed below a node. *)
Fixpoint dropped (fuel : nat) (n : Node H V) : list (Node H V) :=
  match fuel with
  | 0 => []
  | S fuel => match step n with Some (_, cs) => cs ≫= dropped fuel | None => [n] end
  end.

Lemma kept_fuel f1 f2 n : size n ≤ f1 → size n ≤ f2 → kept f1 n = kept f2 n.
Proof.
  revert f2 n. induction f1 as [|f1 IH]; intros f2 n H1 H2; [rewrite size_unfold in H1; lia|].
  destruct f2 as [|f2]; [rewrite size_unfold in H2; lia|]. simpl.
  destruct (step n) as [[n' cs]|] eqn:Hs; [|done]; simpl. do 2 f_equal.
  apply step_smaller in Hs. assert (Hall : ∀ c, c ∈ cs → kept f1 c = kept f2 c).
  { intros c Hc%sizes_elem. apply IH; lia. }
  clear -Hall. induction cs as [|c cs IHcs]; [done|]. rewrite !omap_cons, Hall by set_solver.
  destruct (kept f2 c); rewrite IHcs; set_solver.
Qed.

Lemma dropped_fuel f1 f2 n : size n ≤ f1 → size n ≤ f2 → dropped f1 n = dropped f2 n.
Proof.
  revert f2 n. induction f1 as [|f1 IH]; intros f2 n H1 H2; [rewrite size_unfold in H1; lia|].
  destruct f2 as [|f2]; [rewrite size_unfold in H2; lia|]. simpl.
  destruct (step n) as [[n' cs]|] eqn:Hs; [|done]. apply step_smaller in Hs.
  assert (Hall : ∀ c, c ∈ cs → dropped f1 c = dropped f2 c).
  { intros c Hc%sizes_elem. apply IH; lia. }
  clear -Hall. induction cs as [|c cs IHcs]; [done|]. rewrite !bind_cons, Hall by set_solver.
  rewrite IHcs; set_solver.
Qed.

Definition keep (n : Node H V) : option (Node H W) := kept (size n) n.
Definition drop_of (n : Node H V) : list (Node H V) := dropped (size n) n.

Lemma keep_unfold n :
  keep n = '(n', cs) ← step n; Some (add_children n' (omap keep cs)).
Proof.
  unfold keep at 1. rewrite size_unfold. simpl. destruct (step n) as [[n' cs]|] eqn:Hs; [|done].
  simpl. do 2 f_equal. apply step_smaller in Hs.
  assert (Hall : ∀ c, c ∈ cs → kept (sizes (children n)) c = keep c).
  { intros c Hc%sizes_elem. apply kept_fuel; [|done]. rewrite size_unfold in Hs. lia. }
  clear -Hall. induction cs as [|c cs IHcs]; [done|]. rewrite !omap_cons, Hall by set_solver.
  destruct (keep c); rewrite IHcs; set_solver.
Qed.

Lemma drop_of_unfold n :
  drop_of n = match step n with Some (_, cs) => cs ≫= drop_of | None => [n] end.
Proof.
  unfold drop_of at 1. rewrite size_unfold. simpl. destruct (step n) as [[n' cs]|] eqn:Hs; [|done].
  apply step_smaller in Hs.
  assert (Hall : ∀ c, c ∈ cs → dropped (sizes (children n)) c = drop_of c).
  { intros c Hc%sizes_elem. apply dropped_fuel; [|done]. rewrite size_unfold in Hs. lia. }
  clear -Hall. induction cs as [|c cs IHcs]; [done|]. rewrite !bind_cons, Hall by set_solver.
  rewrite IHcs; set_solver.
Qed.

(** ** One level *)

Definition level_out (q : list queued) : list entry :=
  omap (λ e, '(n', _) ← step e.2; Some (e.1, n')) q.

Fixpoint level_next (base : nat) (q : list queued) : list queued :=
  match q with
  | [] => []
  | (_, n) :: q =>
      match step n with
      | Some (_, cs) => ((λ c, (Some base, c)) <$> rev cs) ++ level_next (S base) q
      | None => level_next base q
      end
  end.

Definition level_removed (q : list queued) : list (Node H V) :=
  omap (λ e, match step e.2 with Some _ => None | None => Some e.2 end) q.

Lemma level_out_cons e q :
  level_out (e :: q) =
  match step e.2 with Some (n', _) => (e.1, n') :: level_out q | None => level_out q end.
Proof. unfold level_out. rewrite omap_cons. by destruct (step e.2) as [[]|]. Qed.

Lemma level_removed_cons e q :
  level_removed (e :: q) =
  match step e.2 with Some _ => level_removed q | None => e.2 :: level_removed q end.
Proof. unfold level_removed. rewrite omap_cons. by destruct (step e.2). Qed.

Lemma drain_queue_ok q out next removed :
  drain_queue step q out next removed =
  (out ++ level_out q, next ++ level_next (length out) q, removed ++ level_removed q).
Proof.
  revert out next removed. induction q as [|[p n] q IH]; intros out next removed.
  - cbn. by rewrite !app_nil_r.
  - rewrite level_out_cons, level_removed_cons. cbn [drain_queue level_next fst snd].
    destruct (step n) as [[n' cs]|]; rewrite IH; rewrite <- !(assoc_L (++)).
    + rewrite length_app, Nat.add_1_r. done.
    + done.
Qed.

(** ** Putting together *)

(** Popping one entry. *)
Definition attach1 (e : entry) (s : list entry * list (Node H W)) : list entry * list (Node H W) :=
  match e.1 with
  | None => (s.1, s.2 ++ [e.2])
  | Some i => (alter (push_onto e.2) i s.1, s.2)
  end.

(** Popping the entries [es] off the end, the last first. *)
Definition attach (es : list entry) (s : list entry * list (Node H W)) := foldr attach1 s es.

Lemma attach_app es1 es2 s : attach (es1 ++ es2) s = attach es1 (attach es2 s).
Proof. apply foldr_app. Qed.

Lemma length_attach es s : length (attach es s).1 = length s.1.
Proof.
  induction es as [|e es IH]; [done|]. simpl. unfold attach1. destruct e as [[i|] n]; simpl; [|done].
  by rewrite length_alter.
Qed.

Lemma alter_lookup (out : list entry) i e n :
  out !! i = Some e → alter (push_onto n) i out = <[i := push_onto n e]> out.
Proof.
  intros Hi. apply list_eq. intros j. destruct (decide (i = j)) as [<-|Hne].
  - rewrite list_lookup_alter_eq, Hi, list_lookup_insert_eq; [done|]. by eapply lookup_lt_Some.
  - by rewrite list_lookup_alter_ne, list_lookup_insert_ne.
Qed.

Lemma put_together_app (out es : list entry) rs :
  (∀ e i, e ∈ es → e.1 = Some i → i < length out) →
  put_together (length (out ++ es)) (out ++ es) rs =
  put_together (length out) (attach es (out, rs)).1 (attach es (out, rs)).2.
Proof.
  revert out rs. induction es as [|[p n] es IH] using rev_ind; intros out rs Hp.
  - by rewrite app_nil_r.
  - rewrite (assoc_L (++)), length_app, Nat.add_1_r. cbn [put_together].
    rewrite vec_pop_snoc. unfold attach. rewrite foldr_app; simpl.
    destruct p as [i|]; unfold attach1; simpl.
    + destruct (lookup_lt_is_Some_2 out i) as [e He]; [by apply (Hp (Some i, n)); [set_solver|]|].
      rewrite lookup_app_l by (by eapply lookup_lt_Some). rewrite He; simpl.
      rewrite insert_app_l by (by eapply lookup_lt_Some).
      rewrite <- (alter_lookup out i e n He).
      rewrite length_app, <- (length_alter (push_onto n) out i), <- length_app. apply IH.
      intros e' j He' Hj. rewrite length_alter. apply (Hp e'); [set_solver|done].
    + apply IH. intros e' j He' Hj. apply (Hp e'); [set_solver|done].
Qed.

(** The kept nodes of a queue, with their parents. *)
Definition kept_entries (q : list queued) : list entry :=
  omap (λ e, n ← keep e.2; Some (e.1, n)) q.

Lemma kept_entries_cons e q :
  kept_entries (e :: q) =
  match keep e.2 with Some n => (e.1, n) :: kept_entries q | None => kept_entries q end.
Proof. unfold kept_entries. rewrite omap_cons. by destruct (keep e.2). Qed.

Lemma kept_entries_app q1 q2 : kept_entries (q1 ++ q2) = kept_entries q1 ++ kept_entries q2.
Proof. apply omap_app. Qed.

Lemma attach_children out i p n cs rs :
  length out = i →
  ∀ rest, attach (kept_entries ((λ c, (Some i, c)) <$> rev cs)) (out ++ (p, n) :: rest, rs) =
    (out ++ (p, add_children n (omap keep cs)) :: rest, rs).
Proof.
  intros Hi. revert n. induction cs as [|c cs IH]; intros n rest.
  - simpl. unfold add_children. rewrite app_nil_r. by destruct n.
  - cbn [rev]. rewrite fmap_app, kept_entries_app, attach_app.
    cbn [fmap list_fmap]. rewrite kept_entries_cons, omap_cons; cbn [fst snd].
    destruct (keep c) as [c'|]; [|apply IH].
    change (attach ((Some i, c') :: kept_entries []) ?s) with (attach1 (Some i, c') s).
    unfold attach1 at 1; cbn [fst snd].
    subst i. rewrite alter_app_r_alt by lia.
    rewrite Nat.sub_diag. unfold push_onto; cbn. rewrite IH.
    unfold add_children; cbn. by rewrite <- (assoc_L (++)).
Qed.

(** Attaching the next level completes this one. *)
Lemma attach_level q out rs :
  attach (kept_entries (level_next (length out) q)) (out ++ level_out q, rs) =
  (out ++ kept_entries q, rs).
Proof.
  revert out. induction q as [|[p n] q IH]; intros out; [done|].
  rewrite kept_entries_cons, keep_unfold, level_out_cons. cbn [level_next fst snd].
  destruct (step n) as [[n' cs]|]; cbn [mbind option_bind]; [|apply IH].
  rewrite kept_entries_app, attach_app.
  specialize (IH (out ++ [(p, n')])). rewrite length_app, Nat.add_1_r, <- !(assoc_L (++)) in IH.
  simpl in IH. rewrite IH. by apply attach_children.
Qed.

Lemma level_next_parents base q e i :
  e ∈ level_next base q → e.1 = Some i → base ≤ i < base + length (level_out q).
Proof.
  revert base. induction q as [|[p n] q IH]; intros base; [by intros ?%not_elem_of_nil|].
  rewrite level_out_cons; cbn [level_next fst snd]. destruct (step n) as [[n' cs]|]; [|apply IH].
  cbn [length]. intros [He|He]%elem_of_app Hi.
  - apply list_elem_of_fmap in He as (c & -> & _). simpl in Hi. simplify_eq. lia.
  - apply IH in He; [|done]. lia.
Qed.

Lemma level_next_sizes base q :
  sum_list_with (λ e, size e.2) (level_next base q) + length q ≤ sum_list_with (λ e, size e.2) q.
Proof.
  revert base. induction q as [|[p n] q IH]; intros base; [done|].
  cbn [level_next sum_list_with length snd]. destruct (step n) as [[n' cs]|] eqn:Hs.
  - specialize (IH (S base)). apply step_smaller in Hs. rewrite sum_list_with_app.
    assert (Hc : sum_list_with (λ e : queued, size e.2) ((λ c, (Some base, c)) <$> rev cs) = sizes cs).
    { rewrite <- (Permutation_rev cs). clear. unfold sizes. induction cs as [|c cs IHcs]; [done|].
      cbn [fmap list_fmap sum_list_with snd]. by rewrite IHcs. }
    lia.
  - specialize (IH base). rewrite size_unfold. lia.
Qed.

Lemma level_dropped base q :
  (level_removed q ++ (level_next base q ≫= λ e, drop_of e.2)) ≡ₚ (q ≫= λ e, drop_of e.2).
Proof.
  revert base. induction q as [|[p n] q IH]; intros base; [done|].
  rewrite level_removed_cons, bind_cons, drop_of_unfold. cbn [level_next snd].
  destruct (step n) as [[n' cs]|].
  - rewrite bind_app, <- (IH (S base)).
    assert (Hc : (((λ c, (Some base, c)) <$> rev cs) ≫= λ e : queued, drop_of e.2) ≡ₚ (cs ≫= drop_of)).
    { rewrite <- (Permutation_rev cs). clear. induction cs as [|c cs IHcs]; [done|].
      by rewrite fmap_cons, !bind_cons, IHcs. }
    rewrite Hc, !(assoc_L (++)). f_equiv. apply (comm (++)).
  - simpl. by rewrite (IH base).
Qed.

Lemma length_kept_entries q : length (kept_entries q) = length (level_out q).
Proof.
  induction q as [|e q IH]; [done|]. rewrite kept_entries_cons, level_out_cons, keep_unfold.
  destruct (step e.2) as [[n' cs]|]; cbn; [by rewrite IH|done].
Qed.

Lemma elem_of_kept_entries e q : e ∈ kept_entries q → ∃ e', e' ∈ q ∧ e'.1 = e.1.
Proof.
  intros He. apply list_elem_of_omap in He as (e' & He' & Hk). exists e'. split; [done|].
  destruct (keep e'.2); by simplify_eq/=.
Qed.

(** Taking the levels apart and putting them together again. *)
Lemma drain_levels_ok fuel q out removed :
  sum_list_with (λ e, size e.2) q ≤ fuel →
  (∀ e i, e ∈ q → e.1 = Some i → i < length out) →
  ∃ deep gone, drain_levels step fuel q out removed = Some (out ++ deep, removed ++ gone) ∧
    gone ≡ₚ (q ≫= λ e, drop_of e.2) ∧
    ∀ rs, put_together (length (out ++ deep)) (out ++ deep) rs =
      put_together (length out) (attach (kept_entries q) (out, rs)).1
        (attach (kept_entries q) (out, rs)).2.
Proof.
  revert q out removed. induction fuel as [|fuel IH]; intros [|[p n] q] out removed Hf Hp.
  1, 3: exists [], []; rewrite !app_nil_r; split_all; [done..|]; intros rs; by rewrite ?app_nil_r.
  { cbn [sum_list_with snd] in Hf. rewrite size_unfold in Hf. lia. }
  set (q0 := (p, n) :: q) in *. cbn [drain_levels]. subst q0. set (q0 := (p, n) :: q) in *.
  rewrite drain_queue_ok. cbn [app].
  pose proof (level_next_sizes (length out) q0) as Hsz.
  destruct (IH (level_next (length out) q0) (out ++ level_out q0) (removed ++ level_removed q0))
    as (deep & gone & Hd & Hg & Hput).
  - unfold q0 in *; cbn [length] in Hsz. lia.
  - intros e i He Hi. rewrite length_app. pose proof (level_next_parents _ _ _ _ He Hi). lia.
  - exists (level_out q0 ++ deep), (level_removed q0 ++ gone). rewrite Hd, <- !(assoc_L (++)).
    split; [done|]. split; [by rewrite Hg, level_dropped|].
    intros rs. rewrite !(assoc_L (++)), Hput, attach_level. cbn [fst snd].
    rewrite length_app, <- (length_kept_entries q0), <- length_app. apply put_together_app.
    intros e i He Hi. apply elem_of_kept_entries in He as (e' & He' & Heq).
    rewrite <- Heq in Hi. eauto.
Qed.

Lemma attach_roots ns out rs :
  attach (kept_entries ((λ n, (None, n)) <$> rev ns)) (out, rs) = (out, rs ++ omap keep ns).
Proof.
  revert rs. induction ns as [|n ns IH]; intros rs; [by rewrite app_nil_r|].
  cbn [rev]. rewrite fmap_app, kept_entries_app, attach_app. cbn [fmap list_fmap].
  rewrite kept_entries_cons, omap_cons; cbn [fst snd].
  destruct (keep n) as [n'|]; [|apply IH].
  change (attach ((None, n') :: kept_entries []) (out, rs)) with (out, rs ++ [n']).
  by rewrite IH, <- (assoc_L (++)).
Qed.

Lemma rebuild_ok ns :
  ∃ gone, rebuild step ns = Some (omap keep ns, gone) ∧ gone ≡ₚ (ns ≫= drop_of).
Proof.
  destruct (drain_levels_ok (sizes ns) ((λ n, (None, n)) <$> rev ns) [] [])
    as (deep & gone & Hd & Hg & Hput).
  - rewrite <- (Permutation_rev ns). unfold sizes. clear. induction ns as [|n ns IH]; [done|].
    cbn [fmap list_fmap sum_list_with snd]. lia.
  - intros e i He Hi. apply list_elem_of_fmap in He as (n & -> & _). done.
  - exists gone. unfold rebuild. rewrite Hd. cbn [mbind option_bind app] in *.
    rewrite Hput, attach_roots. split; [done|]. rewrite Hg. rewrite <- (Permutation_rev ns).
    clear. induction ns as [|n ns IH]; [done|]. by rewrite fmap_cons, !bind_cons, IH.
Qed.

End rebuild_lemmas.

(** ** Map and filter *)

Section map_filter_lemmas.
Context {H V W : Type}.

Fixpoint map_node (f : H → Z → V → W) (n : Node H V) : Node H W :=
  match n with mkNode h num d cs => mkNode h num (f h num d) (map_node f <$> cs) end.

Lemma map_step_smaller (f : H → Z → V → W) n n' cs :
  map_step f n = Some (n', cs) → sizes cs < size n.
Proof. intros [= <- <-]. rewrite size_unfold. lia. Qed.

Lemma keep_map (f : H → Z → V → W) n : keep (map_step f) n = Some (map_node f n).
Proof.
  induction n as [h num d cs IH] using node_ind.
  rewrite (keep_unfold _ (map_step_smaller f)).
  change (map_step f (mkNode h num d cs)) with (Some (mkNode h num (f h num d) [], cs)).
  cbn [mbind option_bind map_node]. unfold add_children; cbn [hash number data children app].
  do 2 f_equal. induction IH as [|c cs Hc _ IHcs]; [done|].
  rewrite omap_cons, Hc, fmap_cons. by rewrite IHcs.
Qed.

(** What a filter keeps of a node, top-down. *)
Fixpoint filter_node (p : H → Z → V → FilterAction) (n : Node H V) : option (Node H V) :=
  match n with
  | mkNode h num d cs =>
      match p h num d with
      | KeepNode => Some (mkNode h num d (omap (filter_node p) cs))
      | KeepTree => Some n
      | Remove => None
      end
  end.

Lemma filter_step_eq (p : H → Z → V → FilterAction) h num d cs :
  filter_step p (mkNode h num d cs) =
  match p h num d with
  | KeepNode => Some (mkNode h num d [], cs)
  | KeepTree => Some (mkNode h num d cs, [])
  | Remove => None
  end.
Proof. done. Qed.

Lemma filter_step_smaller (p : H → Z → V → FilterAction) n n' cs :
  filter_step p n = Some (n', cs) → sizes cs < size n.
Proof.
  unfold filter_step. rewrite size_unfold. destruct (p _ _ _); intros; simplify_eq; [lia|].
  unfold sizes. simpl. lia.
Qed.

Lemma keep_filter (p : H → Z → V → FilterAction) n : keep (filter_step p) n = filter_node p n.
Proof.
  induction n as [h num d cs IH] using node_ind.
  rewrite (keep_unfold _ (filter_step_smaller p)), filter_step_eq. cbn [filter_node]. unfold add_children.
  destruct (p h num d); cbn [mbind option_bind hash number data children app];
    [done| |by rewrite app_nil_r].
  do 2 f_equal. induction IH as [|c cs Hc _ IHcs]; [done|].
  rewrite !omap_cons, Hc. destruct (filter_node p c); by rewrite IHcs.
Qed.

(** Kept and removed nodes are exactly the nodes there were. *)
Lemma filter_partition (p : H → Z → V → FilterAction) ns :
  tuples (omap (filter_node p) ns) ++ tuples (ns ≫= drop_of (filter_step p)) ≡ₚ tuples ns.
Proof.
  assert (Hl : ∀ ns, Forall (λ n, tuples (option_list (filter_node p n)) ++
      tuples (drop_of (filter_step p) n) ≡ₚ tuples [n]) ns →
    tuples (omap (filter_node p) ns) ++ tuples (ns ≫= drop_of (filter_step p)) ≡ₚ tuples ns).
  { induction 1 as [|c cs Hc _ IHcs]; [done|].
    rewrite omap_cons_app, bind_cons, !tuples_app, app_interleave, Hc, IHcs.
    by rewrite <- tuples_app. }
  apply Hl, Forall_forall. intros n _. clear ns.
  induction n as [h num d cs IH] using node_ind.
  rewrite (drop_of_unfold _ (filter_step_smaller p)), filter_step_eq. cbn [filter_node]. destruct (p h num d); cbn [option_list];
    [done| |by rewrite app_nil_r].
  unfold option_list. cbn [option_rect].
  rewrite !tuples_cons, tuples_nil, !app_nil_r, <- app_comm_cons. cbn [children].
  apply perm_skip. by apply Hl.
Qed.

End map_filter_lemmas.

(** * Searching is a post-order traversal *)

Section search_lemmas.
Context {H V E : Type} `{EqDecision H}.
Context (is_descendent_of : H → H → res E bool) (h : H) (num : Z) (predicate : V → bool).
Implicit Types (n : Node H V) (ns : list (Node H V)) (stack : list (Node H V * nat)).

Abbreviation descends := (descends is_descendent_of).
Abbreviation search_loop := (search_loop is_descendent_of).

(** What the search of a subtree yields: [None] when no ancestor of the block is in
    it, [Some None] when there is one but the predicate holds for none, and the
    path to the deepest one that it holds for. *)
Abbreviation found := (option (option (list nat))).

(** An ancestor is known: the node itself is the next candidate. *)
Definition candidate n : found := Some (if predicate (data n) then Some [] else None).

(** The siblings from index [i] on, with the search of one of them. *)
Fixpoint dfs_list (dfs : Node H V → res (Error E) found) (i : nat) ns : res (Error E) found :=
  match ns with
  | [] => Ok None
  | c :: cs =>
      if (number c <? num)%Z then
        let? r := dfs c in
        match r with
        | None => dfs_list dfs (S i) cs
        | Some p => Ok (Some (cons i <$> p))
        end
      else dfs_list dfs (S i) cs
  end.

(** The children first, then the node. *)
Definition dfs_node n (below : res (Error E) found) : res (Error E) found :=
  let? r := below in
  match r with
  | None => let? d := descends (hash n) h in Ok (if d then candidate n else None)
  | Some None => Ok (candidate n)
  | Some (Some p) => Ok (Some (Some p))
  end.

Fixpoint dfs n : res (Error E) found :=
  match n with mkNode _ _ _ cs => dfs_node n (dfs_list dfs 0 cs) end.

(** The turns of the loop that a subtree takes when no ancestor is in it. *)
Fixpoint turns n : nat :=
  match n with
  | mkNode _ _ _ cs => S (sum_list_with (λ c, S (if (number c <? num)%Z then turns c else 0)) cs)
  end.

Definition turns_list ns : nat :=
  sum_list_with (λ c, S (if (number c <? num)%Z then turns c else 0)) ns.

Lemma turns_bound n : turns n < 2 * size n.
Proof.
  induction n as [h' num' d cs IH] using node_ind. cbn [turns size].
  enough (sum_list_with (λ c, S (if (number c <? num)%Z then turns c else 0)) cs ≤
    2 * sum_list_with size cs) by lia.
  induction IH as [|c cs Hc _ IHcs]; cbn [sum_list_with]; [lia|]. case_match; lia.
Qed.

(** The path the stack stands for, and climbing it once an ancestor is known. *)
Definition path_of stack : list nat := rev ((λ e, pred e.2) <$> stack).

Fixpoint climb stack : bool * bool * list nat :=
  match stack with
  | [] => (false, true, [])
  | (n, _) :: stack => if predicate (data n) then (true, true, path_of stack) else climb stack
  end.

Definition outcome (r : res (Error E) (bool * bool * list (Node H V * nat)))
    : res (Error E) (bool * bool * list nat) :=
  let? r := r in Ok (r.1, path_of r.2).

Lemma search_climbs fuel stack :
  length stack ≤ fuel → outcome (search_loop fuel h num predicate stack true) = Ok (climb stack).
Proof.
  revert fuel. induction stack as [|[n i] stack IH]; intros [|fuel] Hf; try done; simpl in Hf; [lia|].
  cbn [ForkTree.search_loop or_else res_bind climb]. case_match; [done|]. apply IH. lia.
Qed.

(** How the loop goes on after a subtree. *)
Definition resume stack (k : nat) (r : res (Error E) found) : res (Error E) (bool * bool * list nat) :=
  let? r := r in
  match r with
  | None => outcome (search_loop k h num predicate stack false)
  | Some None => Ok (climb stack)
  | Some (Some p) => Ok (true, true, path_of stack ++ p)
  end.

Lemma path_of_cons n i stack : path_of ((n, S i) :: stack) = path_of stack ++ [i].
Proof. done. Qed.

(** Searching the rest of a node's children, then the node. *)
Lemma search_from n i cs stack k :
  drop i (children n) = cs → length stack ≤ k →
  Forall (λ c, ∀ stack k, length stack ≤ k →
    outcome (search_loop (turns c + k) h num predicate ((c, 0) :: stack) false) =
    resume stack k (dfs c)) cs →
  outcome (search_loop (S (turns_list cs) + k) h num predicate ((n, i) :: stack) false) =
  resume stack k (dfs_node n (dfs_list dfs i cs)).
Proof.
  intros Hcs Hk Hall. revert i Hcs. induction Hall as [|c cs Hc _ IH]; intros i Hcs.
  { rewrite Nat.add_succ_l. cbn [ForkTree.search_loop dfs_list].
    rewrite (drop_nil_inv _ _ Hcs).
    unfold dfs_node, candidate. cbn [or_else res_bind]. destruct (descends (hash n) h) as [[]|e|]; try done.
    cbn [res_bind resume]. case_match; cbn [res_bind resume]; [|by apply search_climbs].
    by rewrite app_nil_r. }
  destruct (drop_cons_inv _ _ _ _ Hcs) as [Hi Hcs'].
  rewrite Nat.add_succ_l. cbn [ForkTree.search_loop dfs_list]. rewrite Hi. unfold turns_list.
  cbn [sum_list_with]. destruct (number c <? num)%Z; [|by apply IH].
  replace (S (turns c) + sum_list_with (λ c, S (if (number c <? num)%Z then turns c else 0)) cs + k)
    with (turns c + (S (turns_list cs) + k)) by (unfold turns_list; lia).
  rewrite Hc by (simpl; lia). unfold dfs_node at 1.
  destruct (dfs c) as [[[p|]|]|e|]; cbn [res_bind resume fmap option_fmap option_map]; try done.
  - by rewrite path_of_cons, <- (assoc_L (++)).
  - cbn [climb]. unfold candidate. case_match; [|done]. by rewrite app_nil_r.
  - by rewrite IH.
Qed.

Lemma search_subtree n stack k :
  length stack ≤ k →
  outcome (search_loop (turns n + k) h num predicate ((n, 0) :: stack) false) =
  resume stack k (dfs n).
Proof.
  revert stack k. induction n as [h' num' d cs IH] using node_ind. intros stack k Hk.
  by apply (search_from (mkNode h' num' d cs) 0 cs).
Qed.

Lemma search_roots_ok i ns :
  search_roots is_descendent_of h num predicate i ns =
  (let? r := dfs_list dfs i ns in Ok (mjoin r)).
Proof.
  revert i. induction ns as [|n ns IH]; intros i; [done|]. cbn [search_roots dfs_list].
  rewrite Z.leb_antisym. destruct (number n <? num)%Z; cbn [negb]; [|apply IH].
  pose proof (turns_bound n) as Hb. unfold search_fuel.
  replace (2 * size n) with (turns n + (2 * size n - turns n)) by lia.
  pose proof (search_subtree n [] (2 * size n - turns n) ltac:(simpl; lia)) as Hs.
  destruct (search_loop _ _ _ _ _ _) as [[[f d] stack]|e|], (dfs n) as [[[p|]|]|e'|];
    cbn [outcome resume res_bind climb fst snd] in Hs; try discriminate;
    destruct (2 * size n - turns n) eqn:?; try lia; cbn in Hs; simplify_eq;
    cbn [res_bind fmap option_fmap option_map mjoin option_join]; try done.
Qed.

End search_lemmas.

(** * Trees over a chain of blocks *)

(** What the callers promise of [is_descendent_of] and of block numbers: ancestry is
    the strict order of a tree of blocks, and numbers grow along branches. *)
Class Blocks {H : Type} (ancestor : H → H → bool) (number_of : H → Z) := {
  ancestor_trans a b c : ancestor a b = true → ancestor b c = true → ancestor a c = true;
  ancestor_number a b : ancestor a b = true → (number_of a < number_of b)%Z;
  ancestor_linear a b c : ancestor a c = true → ancestor b c = true →
    a = b ∨ ancestor a b = true ∨ ancestor b a = true;
}.

Section blocks.
Context {H V E : Type} `{EqDecision H} (ancestor : H → H → bool) (number_of : H → Z).
Context `{!Blocks ancestor number_of}.
Implicit Types (n : Node H V) (ns : list (Node H V)) (t : ForkTree H V).

Abbreviation anc a b := (ancestor a b = true).
Definition is_descendent (a b : H) : res E bool := Ok (ancestor a b).

Definition below (a b : H) : Prop := a = b ∨ anc a b.

Definition related (a b : H) : Prop := below a b ∨ anc b a.

(** No two of the blocks are on one branch. *)
Definition apart (hs : list H) : Prop := StronglySorted (λ a b, ¬ related a b) hs.

Definition node_ok n : Prop :=
  number n = number_of (hash n) ∧ (∀ c, c ∈ hash <$> children n → anc (hash n) c) ∧
  apart (hash <$> children n).

Definition forest_ok ns : Prop := apart (hash <$> ns) ∧ ∀ n, n ∈ all_nodes ns → node_ok n.

Lemma anc_irrefl a : ¬ anc a a.
Proof. intros Ha%ancestor_number. lia. Qed.

Lemma below_trans a b c : below a b → below b c → below a c.
Proof. intros [->|] [->|]; unfold below; eauto using ancestor_trans. Qed.

Lemma below_anc a b c : below a b → anc b c → anc a c.
Proof. intros [->|]; eauto using ancestor_trans. Qed.

Lemma anc_below a b c : anc a b → below b c → anc a c.
Proof. intros ? [<-|]; eauto using ancestor_trans. Qed.

(** Two blocks below which there is a common one are related. *)
Lemma related_join a b c : below a c → below b c → related a b.
Proof.
  unfold related, below. intros [->|Ha] [->|Hb]; auto.
  destruct (ancestor_linear _ _ _ Ha Hb) as [|[]]; auto.
Qed.

Lemma related_sym a b : related a b → related b a.
Proof. unfold related, below. intros [[->|]|]; auto. Qed.

Lemma apart_elem a hs b : apart (a :: hs) → b ∈ hs → ¬ related a b.
Proof. intros [_ Ha]%StronglySorted_inv. rewrite Forall_forall in Ha. apply Ha. Qed.

#[global] Instance apart_proper : Proper ((≡ₚ) ==> iff) apart.
Proof.
  assert (Hp : ∀ l l', l ≡ₚ l' → apart l → apart l').
  { intros l l' Hl. induction Hl as [|x l l' Hl IH|x y l|]; unfold apart in *; auto.
    - rewrite !StronglySorted_cons. intros [Hf ?]. split; [by rewrite <- Hl|auto].
    - rewrite !StronglySorted_cons, !Forall_cons. intuition eauto using related_sym. }
  intros l l' Hl. split; apply Hp; [done|by symmetry].
Qed.

Lemma forest_ok_perm ns ns' : ns ≡ₚ ns' → forest_ok ns → forest_ok ns'.
Proof. intros Hp [Ha Hn]. split; [by rewrite <- Hp|]. intros n. rewrite <- Hp. apply Hn. Qed.

Lemma forest_ok_cons n ns :
  forest_ok (n :: ns) ↔
  Forall (λ a, ¬ related (hash n) a) (hash <$> ns) ∧
  node_ok n ∧ forest_ok (children n) ∧ forest_ok ns.
Proof.
  unfold forest_ok at 1. unfold apart at 1. rewrite fmap_cons, StronglySorted_cons, all_nodes_cons.
  setoid_rewrite elem_of_cons. setoid_rewrite elem_of_app. split.
  - intros [[Hf Hs] Hn]. split_all; [done|by apply Hn; left| |].
    + split; [apply Hn; by left|eauto].
    + split; [done|eauto].
  - intros (Hf & Hn & [_ Hc] & [Ha Hns]). split; [done|]. intros m [->|[Hm|Hm]]; eauto.
Qed.

Lemma forest_ok_nil : forest_ok [].
Proof. split; [constructor|]. intros n Hn. by apply elem_of_nil in Hn. Qed.

Lemma forest_ok_single n : forest_ok [n] ↔ node_ok n ∧ forest_ok (children n).
Proof. rewrite forest_ok_cons. pose proof forest_ok_nil. intuition. Qed.

Lemma forest_ok_elem ns c : forest_ok ns → c ∈ ns → forest_ok [c].
Proof.
  intros Hok Hc. apply list_elem_of_split in Hc as (l1 & l2 & ->).
  apply (forest_ok_perm _ (c :: l1 ++ l2)) in Hok; [|by rewrite Permutation_middle].
  rewrite forest_ok_cons in Hok. rewrite forest_ok_single. tauto.
Qed.

(** Everything in a subtree is below its root. *)
Lemma subtree_below n m : forest_ok [n] → m ∈ preorder n → below (hash n) (hash m).
Proof.
  revert m. induction n as [h num d cs IH] using node_ind. intros m.
  rewrite forest_ok_single, preorder_unfold. cbn [children hash].
  intros [(_ & Hc & _) Hok] [->|Hm]%elem_of_cons; [by left|].
  apply list_elem_of_bind in Hm as (c & Hm & Hin). right. rewrite Forall_forall in IH.
  apply (anc_below _ (hash c)); [by apply Hc, list_elem_of_fmap_2|]. eauto using forest_ok_elem.
Qed.

(** Nodes of different subtrees have no common descendent. *)
Lemma subtrees_apart n ns m1 m2 b :
  forest_ok (n :: ns) → m1 ∈ preorder n → m2 ∈ all_nodes ns → below (hash m1) b →
  ¬ below (hash m2) b.
Proof.
  intros Hok H1 H2 Hb1 Hb2. apply list_elem_of_bind in H2 as (c & H2 & Hc).
  assert (Hok1 : forest_ok [n]) by (eapply forest_ok_elem; [done|by left]).
  assert (Hok2 : forest_ok [c]) by (eapply (forest_ok_elem (n :: ns)); [done|by right]).
  destruct Hok as [Ha _].
  apply (apart_elem _ _ (hash c) Ha (list_elem_of_fmap_2 _ _ _ Hc)), (related_join _ _ b).
  - by eapply below_trans, Hb1; apply subtree_below.
  - by eapply below_trans, Hb2; apply subtree_below.
Qed.

(** ** The search finds the deepest ancestor *)

Section deepest.
Context (h : H) (predicate : V → bool).
Abbreviation dfs := (dfs (E:=E) is_descendent h (number_of h) predicate).
Abbreviation dfs_list := (dfs_list (E:=E) (number_of h) dfs).

(** The nodes that the search is for. *)
Definition wanted n : Prop := anc (hash n) h ∧ predicate (data n) = true.

(** [r] is the search's answer for the nodes [all], at which [at_path] finds. *)
Definition search_spec (all : list (Node H V)) (at_path : list nat → option (Node H V))
    (r : option (option (list nat))) : Prop :=
  match r with
  | None => ∀ m, m ∈ all → ¬ anc (hash m) h
  | Some None => (∃ m, m ∈ all ∧ anc (hash m) h) ∧ ∀ m, m ∈ all → ¬ wanted m
  | Some (Some p) => ∃ n, at_path p = Some n ∧ n ∈ all ∧ wanted n ∧
      ∀ m, m ∈ all → wanted m → below (hash m) (hash n)
  end.

(** A path from a node: the empty one leads to the node itself. *)
Definition node_from n (path : list nat) : option (Node H V) :=
  match path with [] => Some n | _ => node_at (children n) path end.

Lemma node_at_cons ns i n p : ns !! i = Some n → node_at ns (i :: p) = node_from n p.
Proof. intros Hi. destruct p; cbn [node_at node_from]; rewrite Hi; done. Qed.

Lemma search_spec_other all1 all2 at_path r :
  (∀ m, m ∈ all1 → ¬ anc (hash m) h) → search_spec all2 at_path r →
  search_spec (all1 ++ all2) at_path r.
Proof.
  unfold wanted. intros Hno. destruct r as [[p|]|]; cbn [search_spec]; setoid_rewrite elem_of_app.
  - intros (n & ? & ? & ? & ?). exists n. split_all; auto.
    intros m [Hm|?] Hw; [by destruct (Hno m Hm); apply Hw|auto].
  - intros [(m & ? & ?) ?]. split; [eauto|]. intros m' [Hm|?] Hw; [|firstorder].
    by destruct (Hno m' Hm); apply Hw.
  - intros Hr m [?|?]; eauto.
Qed.

Lemma dfs_list_spec full i ns :
  drop i full = ns → forest_ok ns →
  Forall (λ n, forest_ok [n] → ∃ r, dfs n = Ok r ∧ search_spec (preorder n) (node_from n) r) ns →
  ∃ r, dfs_list i ns = Ok r ∧ search_spec (all_nodes ns) (node_at full) r.
Proof.
  intros Hd Hok Hall. revert i Hd. induction Hall as [|c cs Hc _ IH]; intros i Hd.
  { exists None. split; [done|]. intros m Hm. by apply elem_of_nil in Hm. }
  destruct (drop_cons_inv _ _ _ _ Hd) as [Hi Hd'].
  assert (Hokc : forest_ok [c]) by (eapply forest_ok_elem; [done|by left]).
  destruct (proj1 (forest_ok_cons _ _) Hok) as (_ & Hnc & _ & Hok').
  destruct (IH Hok' _ Hd') as (r' & Hr' & Hspec'). cbn [ForkTree.dfs_list].
  change (all_nodes (c :: cs)) with (preorder c ++ all_nodes cs).
  destruct (Z.ltb_spec (number c) (number_of h)) as [Hlt|Hge].
  - destruct (Hc Hokc) as (r & -> & Hspec). cbn [res_bind].
    destruct r as [p|]; [|by eexists; split; [|apply search_spec_other]].
    eexists. split; [done|].
    assert (Hrest : ∀ m, m ∈ all_nodes cs → ¬ anc (hash m) h).
    { assert (∃ m1, m1 ∈ preorder c ∧ anc (hash m1) h) as (m1 & ? & ?).
      { destruct p as [p|]; [destruct Hspec as (m1 & ? & ? & [??] & ?); eauto|apply Hspec]. }
      intros m Hm Hah. by eapply (subtrees_apart c cs m1 m h); [..|right|right]. }
    destruct p as [p|]; cbn [search_spec fmap option_fmap option_map] in *;
      setoid_rewrite elem_of_app; unfold wanted in *.
    + destruct Hspec as (n & Hp & Hn & Hw & Hmax). exists n.
      rewrite (node_at_cons _ _ c) by done. do 3 (split; [by auto|]).
      intros m [?|Hm] Hwm; [auto|]. by destruct (Hrest m Hm); apply Hwm.
    + destruct Hspec as [(m & ? & ?) Hno]. split; [eauto|]. intros m' [?|Hm] Hwm; [by eapply Hno|].
      by destruct (Hrest m' Hm); apply Hwm.
  - exists r'. split; [done|]. apply search_spec_other; [|done].
    intros m Hm Hah. apply (subtree_below _ _ Hokc) in Hm.
    pose proof (ancestor_number _ _ (below_anc _ _ _ Hm Hah)).
    destruct Hnc as (Hnum & _). lia.
Qed.

Lemma dfs_spec n :
  forest_ok [n] → ∃ r, dfs n = Ok r ∧ search_spec (preorder n) (node_from n) r.
Proof.
  induction n as [h' num d cs IH] using node_ind. intros Hok.
  set (n := mkNode h' num d cs) in *.
  destruct (proj1 (forest_ok_single _) Hok) as [_ Hokc].
  destruct (dfs_list_spec cs 0 cs eq_refl Hokc IH) as (r & Hr & Hspec).
  assert (Hbelow := λ m, subtree_below n m Hok).
  rewrite preorder_unfold in *. change (children n) with cs in *.
  change (dfs n) with (dfs_node is_descendent h predicate n (dfs_list 0 cs)).
  unfold dfs_node. rewrite Hr. cbn [res_bind].
  setoid_rewrite elem_of_cons in Hbelow. unfold candidate.
  destruct r as [[p|]|]; cbn [search_spec] in Hspec.
  - eexists; split; [done|]. destruct Hspec as (m & Hp & Hm & Hw & Hmax). exists m.
    rewrite elem_of_cons. split_all; auto; [by destruct p|].
    intros m' [->|?]%elem_of_cons ?; auto.
  - eexists; split; [done|]. destruct Hspec as [(m & Hm & Hah) Hno].
    assert (anc (hash n) h) by (eapply below_anc; eauto).
    destruct (predicate (data n)) eqn:Hp; cbn [search_spec]; unfold wanted in *;
      setoid_rewrite elem_of_cons; [exists n; split_all; auto|].
    + intros m' [->|Hm'] ?; [by left|by destruct (Hno m' Hm')].
    + split; [eauto|]. intros m' [->|Hm'] ?; [by intuition congruence|by destruct (Hno m' Hm')].
  - unfold descends. cbn [is_descendent res_bind].
    eexists; split; [done|]. destruct (ancestor (hash n) h) eqn:Ha; cbn [search_spec].
    + destruct (predicate (data n)) eqn:Hp; cbn [search_spec]; unfold wanted in *;
        setoid_rewrite elem_of_cons; [exists n; split_all; auto|].
      * intros m' [->|Hm'] [??]; [by left|by destruct (Hspec m' Hm')].
      * split; [eauto|]. intros m' [->|Hm'] [??]; [congruence|by destruct (Hspec m' Hm')].
    + intros m [->|?]%elem_of_cons; [by rewrite Ha|auto].
Qed.

(** The answer of [find_node_index_where] and the node it leads to. *)
Lemma find_index_spec t :
  forest_ok (roots t) → ∃ r,
  find_node_index_where (E:=E) is_descendent t h (number_of h) predicate = Ok r ∧
  match r with
  | None => ∀ m, m ∈ all_nodes (roots t) → ¬ wanted m
  | Some p => ∃ n, node_at (roots t) p = Some n ∧ n ∈ all_nodes (roots t) ∧ wanted n ∧
      ∀ m, m ∈ all_nodes (roots t) → wanted m → below (hash m) (hash n)
  end.
Proof.
  intros Hok. unfold find_node_index_where. rewrite search_roots_ok.
  destruct (dfs_list_spec (roots t) 0 (roots t) eq_refl Hok) as (r & -> & Hr).
  { apply Forall_forall. intros n _. apply dfs_spec. }
  eexists. split; [done|]. destruct r as [[p|]|]; cbn in *; [done|apply Hr|].
  intros m Hm [? _]. by eapply Hr.
Qed.

End deepest.

(** On a well-formed tree the search finds the deepest ancestor of
    the block that passes the predicate: it never fails, the node returned is such
    an ancestor with every other one at or above it, and [None] means that there is
    none. *)
Theorem find_node_deepest t h (predicate : V → bool) :
  forest_ok (roots t) → ∃ r,
  find_node_where (E:=E) is_descendent t h (number_of h) predicate = Ok r ∧
  match r with
  | Some n => n ∈ all_nodes (roots t) ∧ wanted h predicate n ∧
      ∀ m, m ∈ all_nodes (roots t) → wanted h predicate m → below (hash m) (hash n)
  | None => ∀ m, m ∈ all_nodes (roots t) → ¬ wanted h predicate m
  end.
Proof.
  intros Hok. unfold find_node_where.
  destruct (find_index_spec h predicate t Hok) as ([p|] & -> & Hr); cbn [res_bind]; [|by exists None].
  destruct Hr as (n & -> & ?). by exists (Some n).
Qed.

(** ** Replacing and moving nodes *)

Definition with_children n cs : Node H V := mkNode (hash n) (number n) (data n) cs.

Lemma forest_ok_replace l1 m m' l2 :
  forest_ok (l1 ++ m :: l2) → hash m' = hash m → forest_ok [m'] → forest_ok (l1 ++ m' :: l2).
Proof.
  intros Hok Hh Hm'. apply (forest_ok_perm (m' :: l1 ++ l2)); [by rewrite Permutation_middle|].
  apply (forest_ok_perm _ (m :: l1 ++ l2)) in Hok; [|by rewrite Permutation_middle].
  rewrite forest_ok_cons in Hok |- *. rewrite forest_ok_single in Hm'. rewrite Hh. tauto.
Qed.

Lemma node_ok_children n cs :
  (hash <$> cs) ≡ₚ (hash <$> children n) → node_ok n → node_ok (with_children n cs).
Proof. intros Hh (? & Hc & Ha). split; [done|]. cbn. rewrite Hh. by setoid_rewrite Hh. Qed.

Lemma hash_node_tuple ns ns' :
  node_tuple <$> ns' ≡ₚ node_tuple <$> ns → hash <$> ns' ≡ₚ hash <$> ns.
Proof.
  intros Hp%(fmap_Permutation (λ x, x.1.1)). by rewrite <- !list_fmap_compose in Hp.
Qed.

Lemma tuples_split (l1 : list (Node H V)) m l2 :
  tuples (l1 ++ m :: l2) ≡ₚ (node_tuple m :: tuples (l1 ++ l2)) ++ tuples (children m).
Proof.
  rewrite <- Permutation_middle, tuples_cons. simpl. by rewrite (Permutation_app_comm (tuples (l1 ++ l2))).
Qed.

Lemma edges_split (l1 : list (Node H V)) m l2 : edges (l1 ++ m :: l2) ≡ₚ edges (l1 ++ l2) ++ edges_of m.
Proof.
  rewrite <- Permutation_middle. unfold edges at 1. rewrite bind_cons.
  by rewrite (Permutation_app_comm (edges_of m)).
Qed.

Lemma edges_of_children m cs :
  node_tuple <$> cs = node_tuple <$> children m →
  edges_of (with_children m cs) = (pair (node_tuple m) <$> (node_tuple <$> children m)) ++ edges cs.
Proof. intros <-. rewrite edges_unfold. by rewrite <- list_fmap_compose. Qed.

(** Giving the node at a path other children. *)
Lemma update_siblings_ok ns p n cs :
  node_at ns p = Some n → ∃ ns' A B,
  update_siblings (λ _, Some cs) ns p = Some ns' ∧ node_tuple <$> ns' = node_tuple <$> ns ∧
  tuples ns ≡ₚ A ++ tuples (children n) ∧ tuples ns' ≡ₚ A ++ tuples cs ∧
  edges ns ≡ₚ B ++ edges_of n ∧ edges ns' ≡ₚ B ++ edges_of (with_children n cs) ∧
  (forest_ok ns → node_ok (with_children n cs) → forest_ok cs → forest_ok ns').
Proof.
  revert ns. induction p as [|i p IH]; intros ns; [done|].
  destruct (ns !! i) as [m|] eqn:Hi; [|by destruct p; cbn [node_at]; rewrite Hi].
  destruct (lookup_split _ _ _ Hi) as (l1 & l2 & Hns & Hins & _).
  rewrite (node_at_cons _ _ m) by done. cbn [update_siblings]. rewrite Hi. cbn [mbind option_bind].
  destruct p as [|j p]; cbn [node_from]; intros Hp.
  - simplify_eq. eexists _, (node_tuple n :: tuples (l1 ++ l2)), (edges (l1 ++ l2)).
    split; [done|]. rewrite Hins, !tuples_split, !edges_split, !fmap_app, !fmap_cons.
    split_all; try done. intros Hok Hn Hcs. eapply forest_ok_replace; [done..|].
    by apply forest_ok_single.
  - destruct (IH (children m) Hp) as (cs' & A & B & -> & Ht & Ha & Ha' & Hb & Hb' & Hf).
    eexists _, ((node_tuple m :: tuples (l1 ++ l2)) ++ A),
      (edges (l1 ++ l2) ++ (pair (node_tuple m) <$> (node_tuple <$> children m)) ++ B).
    split; [done|]. rewrite Hins, Hns, !tuples_split, !edges_split, !fmap_app, !fmap_cons.
    fold (with_children m cs').
    rewrite (edges_of_children m cs' Ht), Hb', edges_unfold, Hb, Ha, <- list_fmap_compose.
    cbn [children]. rewrite Ha', <- !(assoc_L (++)). split_all; try done.
    intros Hok Hn Hcs. eapply forest_ok_replace; [done..|].
    assert (Hokm : forest_ok [m]) by (eapply forest_ok_elem; [exact Hok|apply elem_of_app; right; left]).
    apply forest_ok_single in Hokm as [Hm Hcm]. apply forest_ok_single. split; [|by apply Hf].
    apply node_ok_children; [|done]. apply hash_node_tuple. by rewrite Ht.
Qed.

Lemma forest_ok_fmap (f : Node H V → Node H V) ns :
  (∀ n, n ∈ ns → hash (f n) = hash n ∧ forest_ok [f n]) → forest_ok ns → forest_ok (f <$> ns).
Proof.
  intros Hf. induction ns as [|n ns IH]; [done|]. rewrite fmap_cons, !forest_ok_cons.
  intros (Hr & _ & _ & Hns). destruct (Hf n) as [Hh Hok]; [by left|].
  apply forest_ok_single in Hok as [??].
  assert (Hf' : ∀ m, m ∈ ns → hash (f m) = hash m ∧ forest_ok [f m]) by (intros; apply Hf; by right).
  split_all; try done; [|by apply IH]. rewrite <- list_fmap_compose, Hh.
  replace ((hash ∘ f) <$> ns) with (hash <$> ns); [done|]. apply list_fmap_ext.
  intros i m Hm%list_elem_of_lookup_2. symmetry. by apply Hf'.
Qed.

Lemma forest_ok_rebalance_node fuel n : forest_ok [n] → forest_ok [rebalance_node fuel n].
Proof.
  revert n. induction fuel as [|fuel IH]; intros n Hok; [done|].
  apply forest_ok_single in Hok as [Hn Hc]. apply forest_ok_single. split.
  - apply node_ok_children; [|done]. apply hash_node_tuple.
    apply (rebalance_node_ok (S fuel) n).
  - cbn [rebalance_node children].
    apply (forest_ok_perm _ (sort_by_depth (children n))) in Hc; [|by rewrite sort_by_depth_perm].
    apply forest_ok_fmap; [|done]. intros c Hin. split.
    + pose proof (proj1 (rebalance_node_ok fuel c)) as Ht. by inversion Ht.
    + eauto using forest_ok_elem.
Qed.

Lemma forest_ok_rebalance ns : forest_ok ns → forest_ok (rebalance_roots ns).
Proof.
  intros Hok. apply (forest_ok_perm _ (sort_by_depth ns)) in Hok; [|by rewrite sort_by_depth_perm].
  apply (forest_ok_fmap (λ n, rebalance_node (size n) n)); [|done]. intros c Hin. split.
  - pose proof (proj1 (rebalance_node_ok (size c) c)) as Ht. by inversion Ht.
  - eauto using forest_ok_rebalance_node, forest_ok_elem.
Qed.

(** A node of the tree that is an ancestor of another is above it. *)
Lemma all_nodes_cases ns x :
  forest_ok ns → x ∈ all_nodes ns →
  x ∈ ns ∨ ∃ c, c ∈ ns ∧ x ∈ all_nodes (children c) ∧ anc (hash c) (hash x).
Proof.
  intros Hok Hx. pose proof Hx as (c & Hxc & Hc)%list_elem_of_bind.
  rewrite preorder_unfold in Hxc. apply elem_of_cons in Hxc as [->|Hxc]; [by left|].
  right. exists c. split_all; try done.
  pose proof (forest_ok_elem _ _ Hok Hc) as [(_ & Ha & _) Hcs]%forest_ok_single.
  apply list_elem_of_bind in Hxc as (c' & Hxc' & Hc').
  eapply anc_below; [by apply Ha, list_elem_of_fmap_2|].
  eauto using subtree_below, forest_ok_elem.
Qed.

Lemma same_subtree ns m x :
  forest_ok ns → m ∈ all_nodes ns → x ∈ all_nodes ns → below (hash m) (hash x) →
  ∃ c, c ∈ ns ∧ m ∈ preorder c ∧ x ∈ preorder c.
Proof.
  intros Hok Hm Hx Hb. apply list_elem_of_bind in Hm as (c & Hm & Hc). exists c.
  split_all; try done. apply list_elem_of_split in Hc as (l1 & l2 & ->).
  assert (Hp : l1 ++ c :: l2 ≡ₚ c :: l1 ++ l2) by (by rewrite Permutation_middle).
  apply (forest_ok_perm _ _ Hp) in Hok. rewrite Hp in Hx.
  change (x ∈ preorder c ++ all_nodes (l1 ++ l2)) in Hx. apply elem_of_app in Hx as [?|Hx]; [done|].
  by destruct (subtrees_apart c (l1 ++ l2) m x (hash x)); [..|left].
Qed.

Lemma above_in_tree ns m x :
  forest_ok ns → m ∈ all_nodes ns → x ∈ all_nodes ns → anc (hash m) (hash x) →
  x ∈ all_nodes (children m).
Proof.
  intros Hok Hm Hx Ha.
  destruct (same_subtree ns m x) as (n & Hn & Hm' & Hx'); [done..|by right|].
  apply (forest_ok_elem _ _ Hok) in Hn. clear ns Hok Hm Hx.
  induction n as [h num d cs IH] using node_ind.
  pose proof (λ y, subtree_below _ y Hn) as Hb. rewrite preorder_unfold in *.
  cbn [children hash] in *. rewrite elem_of_cons in Hm', Hx'.
  destruct Hm' as [->|Hm], Hx' as [->|Hx]; try done.
  - by apply anc_irrefl in Ha.
  - exfalso. eapply anc_irrefl, anc_below; [done|]. apply Hb. by right.
  - apply forest_ok_single in Hn as [_ Hcs].
    destruct (same_subtree cs m x) as (c & Hc & ? & ?); [done..|by right|].
    rewrite Forall_forall in IH. eauto using forest_ok_elem.
Qed.

(** ** Importing *)

Definition tree_ok t : Prop :=
  forest_ok (roots t) ∧
  ∀ b, best_finalized_number t = Some b → ∀ r, r ∈ roots t → (b < number r)%Z.

Lemma push_child_ok n (ns : list (Node H V)) :
  ((∃ c, c ∈ ns ∧ hash c = hash n) ∧ push_child (E:=E) n ns = Err Duplicate) ∨
  (¬ (hash n ∈ hash <$> ns) ∧ push_child (E:=E) n ns = Ok (ns ++ [n])).
Proof.
  unfold push_child. destruct (existsb _ ns) eqn:Hex.
  - left. split; [|done]. apply existsb_exists in Hex as (c & Hc%list_elem_of_In & Hh).
    rewrite bool_decide_eq_true in Hh. eauto.
  - right. split; [|done]. intros (c & Hh & Hc)%list_elem_of_fmap.
    eapply not_true_iff_false; [exact Hex|]. apply existsb_exists. exists c.
    split; [by apply list_elem_of_In|]. by rewrite bool_decide_eq_true.
Qed.

(** Adding a leaf to siblings that it is apart from. *)
Lemma forest_ok_snoc ns h d :
  (∀ c, c ∈ hash <$> ns → ¬ related h c) → forest_ok ns →
  forest_ok (ns ++ [mkNode h (number_of h) d []]).
Proof.
  intros Ha Hok. eapply forest_ok_perm; [apply Permutation_cons_append|].
  rewrite forest_ok_cons. split; [by apply Forall_forall|].
  split; [|split; [apply forest_ok_nil|done]].
  split; [done|]. split; [|constructor]. intros c Hc. by apply elem_of_nil in Hc.
Qed.

(** What [import] does to the tree, as the documentation of the result has it. *)
Definition import_spec t (h : H) (d : V) (t' : ForkTree H V) (r : res (Error E) bool) : Prop :=
  let new := (h, number_of h, d) in
  match r with
  | Err Revert => t' = t ∧ ∃ b, best_finalized_number t = Some b ∧ (number_of h <= b)%Z
  | Err Duplicate => t' = t ∧ ∃ n, n ∈ all_nodes (roots t) ∧ hash n = h
  | Ok is_root =>
      tree_ok t' ∧ best_finalized_number t' = best_finalized_number t ∧
      (∀ n, n ∈ all_nodes (roots t) → hash n ≠ h) ∧
      tuples (roots t') ≡ₚ new :: tuples (roots t) ∧
      if is_root then
        (∀ n, n ∈ all_nodes (roots t) → ¬ anc (hash n) h) ∧
        node_tuple <$> roots t' ≡ₚ new :: (node_tuple <$> roots t) ∧
        edges (roots t') ≡ₚ edges (roots t)
      else
        ∃ parent, parent ∈ all_nodes (roots t) ∧ anc (hash parent) h ∧
        (∀ n, n ∈ all_nodes (roots t) → anc (hash n) h → below (hash n) (hash parent)) ∧
        node_tuple <$> roots t' ≡ₚ node_tuple <$> roots t ∧
        edges (roots t') ≡ₚ (node_tuple parent, new) :: edges (roots t)
  | _ => False
  end.

(** The part of [import] after the siblings of the new node are known. *)
Lemma import_finish t t' rs b :
  t' = with_roots t rs → forest_ok rs →
  (∀ x, best_finalized_number t = Some x → ∀ r, r ∈ node_tuple <$> rs → (x < r.1.2)%Z) →
  let t'' := if b : bool then rebalance t' else t' in
  tree_ok t'' ∧ best_finalized_number t'' = best_finalized_number t ∧
  tuples (roots t'') ≡ₚ tuples rs ∧ (node_tuple <$> roots t'') ≡ₚ (node_tuple <$> rs) ∧
  edges (roots t'') ≡ₚ edges rs.
Proof.
  intros -> Hok Hb. destruct b; cbn [rebalance with_roots roots best_finalized_number];
    unfold tree_ok; cbn [roots best_finalized_number].
  - destruct (rebalance_roots_same rs) as (Hr & ? & ? & _). split; [|done].
    split; [by apply forest_ok_rebalance|]. intros x Hx r Hin.
    apply (list_elem_of_fmap_2 node_tuple) in Hin. rewrite Hr in Hin. by apply (Hb x Hx _ Hin).
  - split; [|done]. split; [done|]. intros x Hx r Hin.
    apply (list_elem_of_fmap_2 node_tuple) in Hin. by apply (Hb x Hx _ Hin).
Qed.

(** A block that the siblings do not have, below none of them and above none. *)
Lemma import_apart t h ns :
  (∀ n, n ∈ all_nodes (roots t) → ¬ anc h (hash n)) → (∀ c, c ∈ ns → c ∈ all_nodes (roots t)) →
  ¬ (h ∈ hash <$> ns) → (∀ c, c ∈ ns → ¬ anc (hash c) h) →
  ∀ c, c ∈ hash <$> ns → ¬ related h c.
Proof.
  intros Hh Hin Hnot Hup c Hc. pose proof Hc as (x & -> & Hx)%list_elem_of_fmap.
  intros [[->|?]|?]; [done| |]; [by apply (Hh x (Hin x Hx))|by apply (Hup x)].
Qed.

Lemma elem_all_nodes n ns : n ∈ ns → n ∈ all_nodes ns.
Proof. intros Hn. apply list_elem_of_bind. exists n. rewrite preorder_unfold. split; [by left|done]. Qed.

Lemma all_nodes_trans ns n m : n ∈ all_nodes ns → m ∈ all_nodes (children n) → m ∈ all_nodes ns.
Proof.
  intros (r & Hn & Hr)%list_elem_of_bind Hm. apply list_elem_of_bind. exists r. split; [|done].
  clear Hr. induction r as [h num d cs IH] using node_ind. rewrite preorder_unfold in *.
  cbn [children] in *. apply elem_of_cons. right. apply elem_of_cons in Hn as [->|Hn]; [done|].
  apply list_elem_of_bind in Hn as (r & Hn & Hr). apply list_elem_of_bind.
  rewrite Forall_forall in IH. eauto.
Qed.

Lemma all_nodes_children ns n c : n ∈ all_nodes ns → c ∈ children n → c ∈ all_nodes ns.
Proof. eauto using all_nodes_trans, elem_all_nodes. Qed.

Lemma forest_ok_children ns n : forest_ok ns → n ∈ all_nodes ns → forest_ok (children n).
Proof.
  intros [_ Hok] Hn. split; [by apply Hok|]. intros m Hm. by eapply Hok, all_nodes_trans.
Qed.

Lemma import_root t h d :
  tree_ok t → (∀ n, n ∈ all_nodes (roots t) → ¬ anc h (hash n)) →
  (∀ b, best_finalized_number t = Some b → (b < number_of h)%Z) →
  (∀ n, n ∈ all_nodes (roots t) → ¬ anc (hash n) h) → ¬ (h ∈ hash <$> roots t) →
  let t' := with_roots t (roots t ++ [mkNode h (number_of h) d []]) in
  ∀ b : bool, import_spec t h d (if b then rebalance t' else t') (Ok true).
Proof.
  intros [Hok Hbest] Hh Hb Hup Hnot t' b. unfold import_spec.
  destruct (import_finish t t' _ b eq_refl) as (Ht & -> & -> & -> & ->).
  { apply forest_ok_snoc; [|done]. apply (import_apart t); eauto using elem_all_nodes. }
  { intros x Hx r. rewrite fmap_app, elem_of_app. intros [Hr|Hr].
    - apply list_elem_of_fmap in Hr as (m & -> & Hm). by apply Hbest.
    - apply list_elem_of_singleton in Hr as ->. by apply Hb. }
  split; [done|]. split; [done|]. split_all; try done.
  - intros n Hn <-. destruct (all_nodes_cases _ _ Hok Hn) as [Hr|(c & Hc & _ & Ha)].
    + by apply Hnot, list_elem_of_fmap_2.
    + by eapply Hup, Ha; apply elem_all_nodes.
  - rewrite tuples_app, tuples_cons, tuples_nil. simpl. by rewrite <- Permutation_cons_append.
  - rewrite fmap_app. simpl. by rewrite <- Permutation_cons_append.
  - rewrite edges_app. unfold edges at 2. simpl. by rewrite app_nil_r.
Qed.

Lemma import_child t h d p n :
  tree_ok t → (∀ m, m ∈ all_nodes (roots t) → ¬ anc h (hash m)) →
  node_at (roots t) p = Some n → n ∈ all_nodes (roots t) → anc (hash n) h →
  (∀ m, m ∈ all_nodes (roots t) → anc (hash m) h → below (hash m) (hash n)) →
  ¬ (h ∈ hash <$> children n) → ∃ rs,
  update_siblings (λ _, Some (children n ++ [mkNode h (number_of h) d []])) (roots t) p = Some rs ∧
  ∀ b : bool, import_spec t h d (if b then rebalance (with_roots t rs) else with_roots t rs) (Ok false).
Proof.
  intros [Hok Hbest] Hh Hp Hn Hanc Hdeep Hnot. set (new := mkNode h (number_of h) d []).
  destruct (proj2 Hok n Hn) as (Hnum & Hcs & _).
  pose proof (forest_ok_children _ _ Hok Hn) as Hcsok.
  assert (Hup : ∀ c, c ∈ children n → ¬ anc (hash c) h).
  { intros c Hc Ha. eapply anc_irrefl, below_anc; [apply (Hdeep c)|]; [by eapply all_nodes_children|done|].
    by apply Hcs, list_elem_of_fmap_2. }
  assert (Hrel : ∀ c, c ∈ hash <$> children n → ¬ related h c).
  { apply (import_apart t); eauto using all_nodes_children. }
  destruct (update_siblings_ok (roots t) p n (children n ++ [new]) Hp)
    as (rs & A & B & Hu & Htup & Ha & Ha' & Hb & Hb' & Hf).
  exists rs. split; [done|]. intros b. unfold import_spec.
  destruct (import_finish t _ rs b eq_refl) as (Ht & -> & -> & Hr & He).
  { apply Hf; [done| |by apply forest_ok_snoc]. split; [done|]. cbn [with_children children hash].
    pose proof (forest_ok_snoc (children n) h d Hrel Hcsok) as [Hap' _]. split; [|done].
    intros c. rewrite fmap_app, elem_of_app. intros [?|Hc]; [by auto|].
    by apply list_elem_of_singleton in Hc as ->. }
  { intros x Hx r. rewrite Htup. intros (m & -> & Hm)%list_elem_of_fmap. by apply Hbest. }
  split; [done|]. split; [done|]. split; [|split].
  - intros x Hx <-. pose proof (above_in_tree _ _ _ Hok Hn Hx Hanc) as Hx'.
    destruct (all_nodes_cases _ _ Hcsok Hx') as [?|(c & Hc & _ & ?)]; [|by eapply Hup].
    by apply Hnot, list_elem_of_fmap_2.
  - rewrite Ha', Ha, tuples_app, tuples_cons. unfold new. cbn [children].
    rewrite tuples_nil, app_assoc. cbn [app]. by rewrite <- Permutation_cons_append.
  - exists n. rewrite Hr, He, Htup, Hb', Hb, !edges_unfold. cbn [with_children children].
    rewrite fmap_app, edges_app. unfold edges at 2. simpl.
    split_all; try done. rewrite app_nil_r, <- (assoc_L (++)), (Permutation_app_comm [_]).
    rewrite !(assoc_L (++)). by rewrite <- Permutation_cons_append.
Qed.

Lemma check_finalized_cases t num :
  (check_finalized (E:=E) t num = Err Revert ∧
    ∃ b, best_finalized_number t = Some b ∧ (num <= b)%Z) ∨
  (check_finalized (E:=E) t num = Ok tt ∧
    ∀ b, best_finalized_number t = Some b → (b < num)%Z).
Proof.
  unfold check_finalized. destruct (best_finalized_number t) as [b|]; [|by right].
  destruct (Z.leb_spec num b); [left; eauto|right]. split; [done|]. intros; by simplify_eq.
Qed.

(** Importing a block that is not an ancestor of a block in the
    tree: it fails with [Revert] only for blocks not above the finalized one and
    with [Duplicate] only for blocks in the tree, leaving the tree as it was;
    otherwise exactly the new node is added, below the deepest of its ancestors
    in the tree or as a root (which the result says) when there is none, and the
    tree stays well-formed. *)
Theorem import_correct t h d :
  tree_ok t → (∀ n, n ∈ all_nodes (roots t) → ¬ anc h (hash n)) →
  let r := import is_descendent h (number_of h) d t in import_spec t h d r.1 r.2.
Proof.
  intros Hok Hh r. subst r. unfold import.
  destruct (check_finalized_cases t (number_of h)) as [[-> Hb]|[-> Hb]]; [by cbn|].
  cbn [res_bind]. destruct (find_index_spec h (λ _, true) t (proj1 Hok)) as ([p|] & -> & Hfind).
  - destruct Hfind as (n & Hp & Hn & [Hanc _] & Hdeep). change (default [] (Some p)) with p. rewrite Hp.
    cbn [fmap option_fmap option_map]. rewrite bool_decide_false by done.
    destruct (push_child_ok (mkNode h (number_of h) d []) (children n)) as [[Hdup ->]|[Hnot ->]].
    + cbn. split; [done|]. destruct Hdup as (c & ? & ?). eauto using all_nodes_children.
    + destruct (import_child t h d p n) as (rs & -> & Hspec); try done.
      { intros m Hm Ha. by apply Hdeep; [|split]. }
      destruct (bool_decide (length _ = 1)); [apply (Hspec true)|apply (Hspec false)].
  - change (default [] None) with (@nil nat). rewrite bool_decide_true by done.
    destruct (push_child_ok (mkNode h (number_of h) d []) (roots t)) as [[Hdup ->]|[Hnot ->]].
    + cbn. split; [done|]. destruct Hdup as (c & ? & ?). eauto using elem_all_nodes.
    + assert (Hup : ∀ n, n ∈ all_nodes (roots t) → ¬ anc (hash n) h).
      { intros n Hn Ha. by apply (Hfind n Hn). }
      pose proof (import_root t h d Hok Hh Hb Hup Hnot) as Hspec. cbn [update_siblings].
      destruct (bool_decide (length _ = 1)); [apply (Hspec true)|apply (Hspec false)].
Qed.

(** ** Pruning *)

Lemma forest_ok_app ns1 ns2 : forest_ok (ns1 ++ ns2) → forest_ok ns1 ∧ forest_ok ns2.
Proof.
  unfold forest_ok, apart. rewrite fmap_app, StronglySorted_app, all_nodes_app.
  setoid_rewrite elem_of_app. intros [(_ & ? & ?) Hn]. split; split; auto.
Qed.

Lemma children_anc n m : forest_ok [n] → m ∈ all_nodes (children n) → anc (hash n) (hash m).
Proof.
  intros [(_ & Hn & _) Hc]%forest_ok_single Hm.
  destruct (all_nodes_cases _ _ Hc Hm) as [?|(c & ? & ? & ?)].
  - by apply Hn, list_elem_of_fmap_2.
  - eapply ancestor_trans; [|done]. by apply Hn, list_elem_of_fmap_2.
Qed.

Lemma hashes_nodup ns : forest_ok ns → NoDup (hash <$> all_nodes ns).
Proof.
  remember (sizes ns) as k eqn:Hk. revert ns Hk.
  induction k as [k IH] using lt_wf_ind. intros [|n ns] -> Hok; [constructor|].
  destruct (proj1 (forest_ok_cons _ _) Hok) as (_ & Hn & Hc & Hns).
  assert (Hcn : ∀ m, m ∈ all_nodes (children n) → anc (hash n) (hash m)).
  { intros m. apply children_anc. by apply forest_ok_single. }
  rewrite all_nodes_cons, fmap_cons, fmap_app, NoDup_cons, NoDup_app, elem_of_app.
  split; [|split_all].
  - intros [Hin|Hin]; apply list_elem_of_fmap in Hin as (m & He & Hm).
    + apply (anc_irrefl (hash n)). rewrite He at 2. auto.
    + eapply (subtrees_apart n ns n m (hash n)); [done| |done|by left|left; done].
      rewrite preorder_unfold. by left.
  - eapply IH; [|done..]. rewrite sizes_cons. lia.
  - intros a Ha Hb. apply list_elem_of_fmap in Ha as (x & -> & Hx).
    apply list_elem_of_fmap in Hb as (y & He & Hy).
    eapply (subtrees_apart n ns x y (hash x)); [done| |done|by left|left; done].
    rewrite preorder_unfold. by right.
  - eapply IH; [|done..]. rewrite sizes_cons. lia.
Qed.

Lemma hash_tuples ns : (λ x, x.1.1) <$> tuples ns = hash <$> all_nodes ns.
Proof. unfold tuples. by rewrite <- list_fmap_compose. Qed.

(** Taking the node at a path out of the tree. *)
Lemma detach_ok ns p n :
  node_at ns p = Some n → ∃ ns',
  (i ← last p; update_siblings (λ sibs, Some (delete i sibs)) ns (take (pred (length p)) p)) =
    Some ns' ∧ tuples ns ≡ₚ tuples [n] ++ tuples ns'.
Proof.
  revert ns. induction p as [|i p IH]; intros ns; [done|].
  destruct (ns !! i) as [m|] eqn:Hi; [|by destruct p; cbn [node_at]; rewrite Hi].
  destruct (lookup_split _ _ _ Hi) as (l1 & l2 & Hns & Hins & Hdel).
  rewrite (node_at_cons _ _ m) by done. destruct p as [|j p]; cbn [node_from]; intros Hp.
  - simplify_eq. eexists. split; [done|]. rewrite Hdel, tuples_split, tuples_cons, tuples_nil.
    rewrite app_nil_r. simpl. by rewrite (Permutation_app_comm (tuples (l1 ++ l2))).
  - destruct (IH _ Hp) as (cs & Hu & Ht).
    replace (last (i :: j :: p)) with (last (j :: p)) by done.
    destruct (last (j :: p)) as [k|]; [|done]. cbn [mbind option_bind] in *.
    change (take (pred (length (i :: j :: p))) (i :: j :: p)) with
      (i :: take (pred (length (j :: p))) (j :: p)).
    cbn [update_siblings]. rewrite Hi. cbn [mbind option_bind]. rewrite Hu. eexists. split; [done|].
    rewrite Hins, Hns, !tuples_split. cbn [children]. rewrite Ht.
    by rewrite (Permutation_app_comm (tuples [n])), (Permutation_app_comm (tuples [n])),
      <- !(assoc_L (++)).
Qed.

Section pruning.
Context (h : H).
Abbreviation first_ancestor := (first_ancestor (E:=E) is_descendent h (number_of h)).
Abbreviation keep_descendents := (keep_descendents (E:=E) is_descendent h (number_of h)).
Abbreviation prune_below fuel := (prune_below (E:=E) is_descendent fuel h (number_of h)).

Lemma first_ancestor_ok i cs :
  forest_ok cs → ∃ r, first_ancestor i cs = Ok r ∧
  match r with
  | Some j => i ≤ j ∧ ∃ c, cs !! (j - i) = Some c ∧ anc (hash c) h
  | None => ∀ c, c ∈ cs → ¬ anc (hash c) h
  end.
Proof.
  revert i. induction cs as [|c cs IH]; intros i Hok.
  { exists None. split; [done|]. intros c Hc. by apply elem_of_nil in Hc. }
  apply forest_ok_cons in Hok as (_ & (Hnum & _) & _ & Hok). cbn [ForkTree.first_ancestor].
  assert (Ha : and_then (number c <? number_of h)%Z (descends (E:=E) is_descendent (hash c) h) =
    Ok (ancestor (hash c) h)).
  { unfold and_then, descends, is_descendent. rewrite Hnum.
    destruct (Z.ltb_spec (number_of (hash c)) (number_of h)); [done|].
    destruct (ancestor (hash c) h) eqn:Ha; [|done]. apply ancestor_number in Ha. lia. }
  rewrite Ha. cbn [res_bind]. destruct (ancestor (hash c) h) eqn:Hc.
  - exists (Some i). split; [done|]. split; [lia|]. exists c. by rewrite Nat.sub_diag.
  - destruct (IH (S i) Hok) as (r & -> & Hr). exists r. split; [done|]. destruct r as [j|].
    + destruct Hr as (? & c' & ? & ?). split; [lia|]. exists c'.
      by replace (j - i) with (S (j - S i)) by lia.
    + intros c'. rewrite elem_of_cons. intros [->|?]; [by rewrite Hc|auto].
Qed.

(** The nodes that stay below the last ancestor. *)
Definition stays n : Prop := below h (hash n).

#[global] Instance stays_dec n : Decision (stays n).
Proof. unfold stays, below. apply _. Defined.

Lemma keep_descendents_ok kept removed cs :
  forest_ok cs →
  keep_descendents kept removed cs =
  (kept ++ filter stays cs, removed ++ filter (λ n, ¬ stays n) cs, Ok tt).
Proof.
  revert kept removed. induction cs as [|c cs IH]; intros kept removed Hok.
  { by rewrite !app_nil_r. }
  apply forest_ok_cons in Hok as (_ & (Hnum & _) & _ & Hok). cbn [ForkTree.keep_descendents].
  assert (Hb : or_else ((number c =? number_of h)%Z && bool_decide (hash c = h))
    (and_then (number_of h <? number c)%Z (descends (E:=E) is_descendent h (hash c))) =
    Ok (bool_decide (stays c))).
  { unfold or_else, and_then, descends, is_descendent. rewrite Hnum.
    destruct (decide (hash c = h)) as [He|Hne].
    { rewrite (bool_decide_true (stays c)) by (by left). rewrite bool_decide_true, He by done.
      by rewrite Z.eqb_refl. }
    rewrite (bool_decide_false (hash c = h)), andb_false_r by done.
    destruct (decide (stays c)) as [Hs|Hs].
    - rewrite (bool_decide_true (stays c)) by done. destruct Hs as [|Ha]; [congruence|].
      rewrite (proj2 (Z.ltb_lt _ _)) by (by apply ancestor_number). by rewrite Ha.
    - rewrite (bool_decide_false (stays c)) by done. case_match; [|done].
      destruct (ancestor h (hash c)) eqn:Ha; [|done]. destruct Hs. by right. }
  rewrite Hb, !filter_cons. destruct (decide (stays c)) as [Hs|Hs].
  - rewrite bool_decide_true, IH by done. rewrite decide_False by tauto. by rewrite <- !(assoc_L (++)).
  - rewrite bool_decide_false, IH by done. rewrite decide_True by done. by rewrite <- !(assoc_L (++)).
Qed.

Lemma unrelated_subtree n m :
  forest_ok [n] → m ∈ preorder n → ¬ related (hash n) h → ¬ related (hash m) h.
Proof.
  intros Hok Hm%(subtree_below _ _ Hok) Hn [Hb|Ha]; apply Hn.
  - left. by eapply below_trans.
  - apply (related_join _ _ (hash m)); [done|by right].
Qed.

(** [n] was pruned to [n'], the trees [removed] having been cut off. *)
Definition pruned n n' removed : Prop :=
  node_tuple n' = node_tuple n ∧ forest_ok [n'] ∧ tuples [n] ≡ₚ tuples [n'] ++ tuples removed ∧
  (∀ m, m ∈ all_nodes (children n') → related (hash m) h) ∧
  (∀ m, m ∈ all_nodes removed → ¬ related (hash m) h).

(** Keeping a selection of the children. *)
Lemma forest_ok_select n K R :
  forest_ok [n] → children n ≡ₚ K ++ R → node_ok (with_children n K) ∧ forest_ok K ∧ forest_ok R.
Proof.
  intros [(Hnum & Hc & _) Hcs]%forest_ok_single HKR.
  destruct (forest_ok_app _ _ (forest_ok_perm _ _ HKR Hcs)) as [HK HR].
  split; [|done]. split; [done|]. split; [|exact (proj1 HK)]. intros c Hin. apply Hc.
  rewrite HKR, fmap_app. apply elem_of_app. by left.
Qed.

Lemma tuples_select n K R :
  children n ≡ₚ K ++ R → tuples [n] ≡ₚ tuples [with_children n K] ++ tuples R.
Proof.
  intros HKR. rewrite !tuples_cons, tuples_nil, !app_nil_r, HKR, tuples_app. done.
Qed.

Lemma prune_last n :
  forest_ok [n] → (∀ c, c ∈ children n → ¬ anc (hash c) h) →
  pruned n (with_children n (filter stays (children n))) (filter (λ c, ¬ stays c) (children n)).
Proof.
  intros Hok Hno. set (K := filter _ _). set (R := filter _ _).
  assert (HKR : children n ≡ₚ K ++ R) by (symmetry; apply filter_app_complement).
  destruct (forest_ok_select n K R Hok HKR) as (Hn & HK & HR).
  split; [done|]. split; [by apply forest_ok_single|]. split; [by apply tuples_select|]. split.
  - intros m (c & Hm & Hc)%list_elem_of_bind. cbn [with_children children] in Hc.
    pose proof Hc as [Hs _]%list_elem_of_filter. apply related_sym. left.
    eapply below_trans; [exact Hs|]. eauto using subtree_below, forest_ok_elem.
  - intros m (c & Hm & Hc)%list_elem_of_bind. pose proof Hc as [Hs Hin]%list_elem_of_filter.
    eapply unrelated_subtree; [by eapply forest_ok_elem, Hc|done|].
    unfold stays, below, related in *. intros [[He|Ha]|Ha]; [|by eapply Hno|]; apply Hs; auto.
Qed.

Lemma prune_step n c c' l1 l2 removed :
  forest_ok [n] → children n = l1 ++ c :: l2 → anc (hash c) h → pruned c c' removed →
  pruned n (with_children n [c']) ((l1 ++ l2) ++ removed).
Proof.
  intros Hok Hcs Ha (Ht & Hok' & Hpart & Hkept & Hrem).
  assert (Hh : hash c' = hash c) by (by inversion Ht).
  assert (HKR : children n ≡ₚ [c] ++ (l1 ++ l2)) by (rewrite Hcs; simpl; by rewrite Permutation_middle).
  destruct (forest_ok_select n _ _ Hok HKR) as (Hn & _ & _).
  split; [done|]. split; [|split; [|split]].
  - apply forest_ok_single. split; [|done].
    eapply (node_ok_children (with_children n [c])); [|done]. simpl. by rewrite Hh.
  - rewrite (tuples_select _ _ _ HKR), !(tuples_cons (with_children _ _)).
    cbn [with_children children]. rewrite Hpart, tuples_nil, !app_nil_r, tuples_app.
    rewrite <- !app_comm_cons, <- !(assoc_L (++)).
    apply perm_skip, Permutation_app_head. rewrite !tuples_app, Permutation_app_comm.
    by rewrite <- (assoc_L (++)).
  - cbn [with_children children]. intros m. rewrite all_nodes_cons, elem_of_cons, app_nil_r.
    intros [->|?]; [|auto]. left. right. by rewrite Hh.
  - intros m. rewrite all_nodes_app, elem_of_app. intros [Hm|]; [|auto].
    apply forest_ok_single in Hok as [_ Hok]. apply (forest_ok_perm _ _ HKR) in Hok.
    assert (Hc : c ∈ preorder c) by (rewrite preorder_unfold; by left).
    intros [Hb|Hb].
    + by apply (subtrees_apart _ _ c m h Hok Hc Hm); [right|].
    + apply (subtrees_apart _ _ c m (hash m) Hok Hc Hm); [right|by left].
      by eapply ancestor_trans.
Qed.

Lemma prune_below_ok fuel n :
  size n ≤ fuel → forest_ok [n] → anc (hash n) h →
  ∃ n' removed, prune_below fuel n = (n', removed, Ok tt) ∧ pruned n n' removed.
Proof.
  revert n. induction fuel as [|fuel IH]; intros n Hf Hok Ha; rewrite size_unfold in Hf; [lia|].
  pose proof Hok as [Hn Hc]%forest_ok_single. cbn [ForkTree.prune_below].
  destruct (first_ancestor_ok 0 (children n) Hc) as ([i|] & -> & Hr).
  - destruct Hr as (_ & c & Hi & Hac). rewrite Nat.sub_0_r in Hi. rewrite Hi.
    destruct (lookup_split _ _ _ Hi) as (l1 & l2 & Hcs & _ & ->).
    assert (Hcin : c ∈ children n) by (by eapply list_elem_of_lookup_2).
    pose proof (sizes_elem _ _ Hcin).
    destruct (IH c) as (c' & removed & -> & Hp); [lia|by eapply forest_ok_elem|done|].
    eexists _, _. split; [done|]. by eapply prune_step.
  - rewrite (keep_descendents_ok [] [] (children n) Hc).
    eexists _, _. split; [done|]. by apply prune_last.
Qed.

End pruning.

(** What is outside the subtree of a node is not below it. *)
Lemma outside_subtree ns n rest x :
  forest_ok ns → n ∈ all_nodes ns → tuples ns ≡ₚ tuples [n] ++ tuples rest → x ∈ tuples rest →
  ¬ below (hash n) x.1.1.
Proof.
  intros Hok Hn Hperm Hx Hb.
  assert (Hin : x ∈ tuples ns) by (rewrite Hperm; apply elem_of_app; by right).
  apply list_elem_of_fmap in Hin as (m & -> & Hm).
  pose proof (hashes_nodup _ Hok) as Hnd. rewrite <- hash_tuples, Hperm, fmap_app in Hnd.
  apply NoDup_app in Hnd as (_ & Hnd & _). apply (Hnd (hash m)).
  - rewrite hash_tuples. destruct Hb as [He|Ha].
    + cbn in He. rewrite <- He. apply list_elem_of_fmap_2, elem_all_nodes. by left.
    + apply list_elem_of_fmap_2. rewrite all_nodes_cons. right. apply elem_of_app. left.
      by eapply above_in_tree.
  - apply (list_elem_of_fmap_2 (λ x, x.1.1)) in Hx. done.
Qed.

(** The outcome of [prune] with the nodes it returns. *)
Definition prune_spec t (h : H) (predicate : V → bool) t' (removed : list (H * Z * V)) : Prop :=
  tuples (roots t') ++ removed ≡ₚ tuples (roots t) ∧ forest_ok (roots t') ∧
  best_finalized_number t' = best_finalized_number t ∧
  ((t' = t ∧ removed = [] ∧ ∀ m, m ∈ all_nodes (roots t) → ¬ wanted h predicate m) ∨
   ∃ n, n ∈ all_nodes (roots t) ∧ wanted h predicate n ∧
     (∀ m, m ∈ all_nodes (roots t) → wanted h predicate m → below (hash m) (hash n)) ∧
     node_tuple <$> roots t' = [node_tuple n] ∧
     (∀ x, x ∈ tuples (roots t') → x = node_tuple n ∨ (anc (hash n) x.1.1 ∧ related x.1.1 h)) ∧
     (∀ x, x ∈ removed → ¬ (below (hash n) x.1.1 ∧ related x.1.1 h))).

(** [C23] Pruning never fails on a well-formed tree.  When the deepest
    ancestor of the block that passes the predicate exists it becomes the only
    root, and of the nodes below it exactly those on a branch with the block
    stay; the nodes returned are exactly those that left the tree.  Otherwise the
    tree is unchanged. *)
Theorem prune_correct t h predicate :
  forest_ok (roots t) → ∃ t' removed,
  prune (E:=E) is_descendent h (number_of h) predicate t = (t', Ok removed) ∧
  prune_spec t h predicate t' removed.
Proof.
  intros Hok. unfold prune.
  destruct (find_index_spec h predicate t Hok) as ([p|] & -> & Hfind).
  2: { exists t, []. split; [done|]. split; [by rewrite app_nil_r|].
    split; [done|]. split; [done|]. by left. }
  destruct Hfind as (n & Hp & Hn & Hw & Hdeep). rewrite Hp.
  destruct (detach_ok _ _ _ Hp) as (rest & -> & Hrest).
  assert (Hokn : forest_ok [n]).
  { apply forest_ok_single. split; [by apply Hok|by eapply forest_ok_children]. }
  destruct (prune_below_ok h (size n) n) as (n' & removed & -> & Ht & Hok' & Hpart & Hkept & Hrem);
    [done..|apply Hw|].
  eexists _, _. split; [done|]. pose proof (rebalance_roots_same [n']) as (Hr1 & Hr2 & _).
  unfold prune_spec. cbn [rebalance with_roots roots best_finalized_number].
  split; [by rewrite Hr2, removed_iter_ok, Hrest, Hpart, tuples_app, <- (assoc_L (++)),
    (Permutation_app_comm (tuples rest))|].
  split; [by apply forest_ok_rebalance|]. split; [done|]. right. exists n.
  do 3 (split; [done|]). split.
  { apply Permutation_singleton_r. by rewrite Hr1, <- Ht. }
  split; intros x.
  - rewrite Hr2, tuples_cons, tuples_nil, app_nil_r, Ht, elem_of_cons.
    intros [->|Hx]; [by left|right]. apply list_elem_of_fmap in Hx as (m & -> & Hm).
    split; [|by apply Hkept]. replace (hash n) with (hash n') by (by inversion Ht).
    by apply children_anc.
  - rewrite removed_iter_ok, tuples_app, elem_of_app. intros [Hx|Hx] [Hb Hrel].
    + exact (outside_subtree _ _ _ _ Hok Hn Hrest Hx Hb).
    + apply list_elem_of_fmap in Hx as (m & -> & Hm). by eapply Hrem.
Qed.
(** ** Finalizing *)

Section finalizing.
Context (h : H).

(** The nodes that outlive the finalization of the block. *)
Definition survives (x : H * Z * V) : Prop := anc h x.1.1.

#[global] Instance survives_dec x : Decision (survives x).
Proof. unfold survives. apply _. Defined.

Lemma survive_all ns :
  forest_ok ns → (∀ n, n ∈ ns → anc h (hash n)) → filter survives (tuples ns) = tuples ns.
Proof.
  intros Hok Ha. apply filter_all. intros x (m & -> & Hm)%list_elem_of_fmap.
  apply list_elem_of_bind in Hm as (n & Hm & Hn). unfold survives. cbn.
  eapply anc_below; [by apply Ha|]. eauto using subtree_below, forest_ok_elem.
Qed.

(** A root that is the block, or above it: the rest of the forest does not survive. *)
Lemma survive_rest n ns :
  forest_ok (n :: ns) → below (hash n) h → filter survives (tuples ns) = [].
Proof.
  intros Hok Hb. apply filter_none. intros x (m & -> & Hm)%list_elem_of_fmap Hs.
  eapply (subtrees_apart n ns n m (hash m)); [done| |done|right|by left].
  - rewrite preorder_unfold. by left.
  - by eapply below_anc.
Qed.

Lemma survive_open n :
  forest_ok [n] → below (hash n) h →
  filter survives (tuples [n]) = filter survives (tuples (children n)).
Proof.
  intros Hok Hb. rewrite tuples_cons, tuples_nil, app_nil_r, filter_cons_False; [done|].
  intros Ha. unfold survives in Ha. cbn in Ha. by eapply anc_irrefl, anc_below.
Qed.

Lemma survive_unrelated n :
  forest_ok [n] → ¬ related (hash n) h → filter survives (tuples [n]) = [].
Proof.
  intros Hok Hn. apply filter_none. intros x (m & -> & Hm)%list_elem_of_fmap Hs.
  rewrite all_nodes_cons in Hm. eapply (unrelated_subtree h n m); [done| |done|by right].
  rewrite preorder_unfold. by rewrite app_nil_r in Hm.
Qed.

Lemma swap_remove_ok {A} (l : list A) i x :
  l !! i = Some x → ∃ l', swap_remove l i = Some (x, l') ∧ l ≡ₚ x :: l' ∧
  i ≤ length l' ∧ take i l' = take i l.
Proof.
  intros Hi. unfold swap_remove. rewrite Hi. cbn [mbind option_bind].
  destruct (snoc_cases l) as [->|(l' & y & ->)]; [done|]. rewrite vec_pop_snoc.
  pose proof (lookup_lt_Some _ _ _ Hi) as Hlt. rewrite length_app in Hlt. simpl in Hlt.
  eexists. split; [done|]. rewrite take_app_le by lia. case_bool_decide as He.
  - subst i. rewrite list_lookup_middle in Hi by done. simplify_eq.
    split; [by rewrite <- Permutation_cons_append|]. split; [lia|done].
  - rewrite lookup_app_l in Hi by lia. rewrite length_insert, take_insert_ge by lia.
    split; [|split; [lia|done]]. rewrite <- Permutation_cons_append.
    destruct (lookup_split _ _ _ Hi) as (l1 & l2 & -> & -> & _).
    rewrite <- !Permutation_middle. apply perm_swap.
Qed.

(** The tree after finalizing the block, in all its branches. *)
Definition finalized t t' : Prop :=
  tree_ok t' ∧ best_finalized_number t' = Some (number_of h) ∧
  tuples (roots t') ≡ₚ filter survives (tuples (roots t)).

Definition in_tree t : Prop := ∃ n, n ∈ all_nodes (roots t) ∧ hash n = h.

Definition finalized_result t t' (r : FinalizationResult V) : Prop :=
  match r with
  | Changed (Some d) => (h, number_of h, d) ∈ tuples (roots t)
  | Changed None => ¬ in_tree t ∧ sizes (roots t') < sizes (roots t)
  | Unchanged => ¬ in_tree t ∧ roots t' = roots t
  end.

Lemma finalize_root_at_eval t i n :
  roots t !! i = Some n → ∃ rest,
  finalize_root_at (E:=E) i t = (mkTree (children n) (Some (number n)), Ok (data n)) ∧
  roots t ≡ₚ n :: rest.
Proof.
  intros Hi. unfold finalize_root_at.
  destruct (swap_remove_ok _ _ _ Hi) as (rest & -> & Hp & _). by exists rest.
Qed.

Lemma finalize_root_at_ok t i n :
  forest_ok (roots t) → roots t !! i = Some n → hash n = h → ∃ t',
  finalize_root_at (E:=E) i t = (t', Ok (data n)) ∧ finalized t t' ∧
  (h, number_of h, data n) ∈ tuples (roots t).
Proof.
  intros Hok Hi Hh. destruct (finalize_root_at_eval t i n Hi) as (rest & -> & Hp).
  eexists. split; [done|]. apply (forest_ok_perm _ _ Hp) in Hok. pose proof Hok as (_ & Hn & Hc & _)%forest_ok_cons.
  assert (Hb : below (hash n) h) by (by left). pose proof Hn as (Hnum & Hcs & _).
  split; [split; [|split]|].
  - split; [done|]. cbn. intros b [= <-] r Hr.
    assert (Hokr : node_ok r) by (by apply Hc, elem_all_nodes).
    rewrite (proj1 Hokr), Hnum. apply ancestor_number, Hcs. by apply list_elem_of_fmap_2.
  - cbn. by rewrite Hnum, Hh.
  - change (n :: rest) with ([n] ++ rest) in *. cbn [roots].
    rewrite Hp, tuples_app, filter_app, (survive_rest n rest), app_nil_r by done.
    rewrite survive_open; [|by eapply forest_ok_elem; [|left]|done].
    rewrite survive_all; [done..|]. intros c Hin. rewrite <- Hh. by apply Hcs, list_elem_of_fmap_2.
  - rewrite Hp, tuples_cons, <- Hh, <- Hnum. by left.
Qed.

Lemma position_ok (ns : list (Node H V)) :
  match position h ns with
  | Some i => ∃ n, ns !! i = Some n ∧ hash n = h
  | None => ∀ n, n ∈ ns → hash n ≠ h
  end.
Proof.
  unfold position. destruct (list_find _ ns) as [[i n]|] eqn:Hf; cbn [fmap option_fmap option_map].
  - apply list_find_Some in Hf as (? & ? & _). eauto.
  - apply list_find_None in Hf. by rewrite Forall_forall in Hf.
Qed.

Lemma finalize_root_ok t :
  forest_ok (roots t) →
  (∃ t' d, finalize_root (E:=E) h t = (t', Ok (Some d)) ∧ finalized t t' ∧
    (h, number_of h, d) ∈ tuples (roots t)) ∨
  (finalize_root (E:=E) h t = (t, Ok None) ∧ ∀ n, n ∈ roots t → hash n ≠ h).
Proof.
  intros Hok. unfold finalize_root. pose proof (position_ok (roots t)) as Hp.
  destruct (position h (roots t)) as [i|]; [|by right].
  destruct Hp as (n & Hi & Hh). left.
  destruct (finalize_root_at_ok t i n Hok Hi Hh) as (t' & Hf & ? & ?). exists t', (data n).
  split; [|done]. by erewrite bindM_ok.
Qed.

(** The ancestry tests of the loops, guarded by the numbers as in the code. *)
Lemma guard_above n :
  node_ok n → and_then (number n <? number_of h)%Z (descends (E:=E) is_descendent (hash n) h) =
  Ok (ancestor (hash n) h).
Proof.
  intros (Hnum & _). unfold and_then, descends, is_descendent. rewrite Hnum.
  destruct (Z.ltb_spec (number_of (hash n)) (number_of h)); [done|].
  destruct (ancestor (hash n) h) eqn:Ha; [|done]. apply ancestor_number in Ha. lia.
Qed.

Lemma guard_below n :
  node_ok n → and_then (number_of h <? number n)%Z (descends (E:=E) is_descendent h (hash n)) =
  Ok (ancestor h (hash n)).
Proof.
  intros (Hnum & _). unfold and_then, descends, is_descendent. rewrite Hnum.
  destruct (Z.ltb_spec (number_of h) (number_of (hash n))); [done|].
  destruct (ancestor h (hash n)) eqn:Ha; [|done]. apply ancestor_number in Ha. lia.
Qed.

Lemma none_of_ok (p : Node H V → res (Error E) bool) (b : Node H V → bool) ns :
  (∀ n, n ∈ ns → p n = Ok (b n)) →
  none_of p ns = if existsb b ns then Err UnfinalizedAncestor else Ok tt.
Proof.
  intros Hp. induction ns as [|n ns IH]; [done|]. cbn [none_of existsb].
  rewrite Hp by (by left). cbn [res_bind]. destruct (b n); [done|]. apply IH.
  intros m Hm. apply Hp. by right.
Qed.

Lemma retain_roots_ok (keep : Node H V → res (Error E) bool) (b : Node H V → bool) ns changed t :
  (∀ n, n ∈ ns → keep n = Ok (b n)) →
  retain_roots keep ns changed t =
  (with_roots t (roots t ++ filter (λ n, b n = true) ns), Ok (changed || negb (forallb b ns))).
Proof.
  intros Hk. revert changed t. induction ns as [|n ns IH]; intros changed t.
  { cbn. rewrite app_nil_r, orb_false_r. by destruct t. }
  assert (Hk' : ∀ m, m ∈ ns → keep m = Ok (b m)) by (intros m Hm; apply Hk; by right).
  cbn [retain_roots forallb]. rewrite Hk by (by left). rewrite filter_cons.
  destruct (b n); cbn [decide]; rewrite IH by done; unfold with_roots; cbn [roots best_finalized_number].
  - rewrite <- (assoc_L (++)). done.
  - by rewrite orb_true_r.
Qed.

Lemma forest_ok_filter (P : Node H V → Prop) `{∀ n, Decision (P n)} ns :
  forest_ok ns → forest_ok (filter P ns).
Proof.
  intros Hok. apply (forest_ok_perm _ _ (symmetry (filter_app_complement P ns))) in Hok.
  by apply forest_ok_app in Hok as [? _].
Qed.

Abbreviation descending := (filter (λ n : Node H V, ancestor h (hash n) = true)).

Lemma survive_filter ns :
  forest_ok ns → (∀ n, n ∈ ns → ¬ below (hash n) h) →
  tuples (descending ns) = filter survives (tuples ns).
Proof.
  intros Hok Hno. induction ns as [|n ns IH]; [done|].
  assert (Hokn : forest_ok [n]) by (eapply forest_ok_elem; [exact Hok|by left]).
  apply forest_ok_cons in Hok as (_ & _ & _ & Hok).
  change (tuples (n :: ns)) with (tuples ([n] ++ ns)). rewrite tuples_app, filter_app, filter_cons.
  rewrite <- IH by (try done; intros m Hm; apply Hno; by right). case_decide as Ha.
  - change (n :: descending ns) with ([n] ++ descending ns). rewrite tuples_app.
    rewrite survive_all; [done..|]. by intros m ->%list_elem_of_singleton.
  - rewrite survive_unrelated; [done..|]. intros [Hb|?]; [|done]. eapply Hno, Hb. by left.
Qed.

Lemma descending_sizes ns :
  if forallb (λ n, ancestor h (hash n)) ns then descending ns = ns
  else sizes (descending ns) < sizes ns.
Proof.
  induction ns as [|n ns IH]; [done|]. cbn [forallb]. rewrite filter_cons.
  destruct (ancestor h (hash n)) eqn:Ha; cbn [andb].
  - rewrite decide_True by done. destruct (forallb _ ns); [by rewrite IH|].
    rewrite !sizes_cons. lia.
  - rewrite decide_False by done. rewrite sizes_cons.
    destruct (forallb _ ns); [rewrite IH|]; lia.
Qed.

(** Keeping the roots that descend from a block outside the tree. *)
Lemma keep_descending t :
  forest_ok (roots t) → (∀ n, n ∈ roots t → ¬ below (hash n) h) →
  let t' := mkTree (descending (roots t)) (Some (number_of h)) in
  finalized t t' ∧
  finalized_result t t' (if negb (forallb (λ n, ancestor h (hash n)) (roots t))
                         then Changed None else Unchanged).
Proof.
  intros Hok Hno t'. assert (Hout : ¬ in_tree t).
  { intros (n & Hn & Hh). destruct (all_nodes_cases _ _ Hok Hn) as [Hr|(c & Hc & _ & Ha)].
    - eapply Hno; [exact Hr|]. by left.
    - eapply Hno; [exact Hc|]. right. by rewrite <- Hh. }
  split.
  - split; [|split; [done|]].
    + split; [by apply forest_ok_filter|]. intros b [= <-] r. cbn [roots t'].
      intros [Ha Hr]%list_elem_of_filter.
      destruct (proj2 Hok r) as (-> & _); [by apply elem_all_nodes|]. by apply ancestor_number.
    + cbn [roots t']. by rewrite survive_filter.
  - pose proof (descending_sizes (roots t)) as Hs. destruct (forallb _ _); by split.
Qed.

Definition finalize_outcome t t' (r : res (Error E) (FinalizationResult V)) : Prop :=
  match r with
  | Ok res => finalized t t' ∧ finalized_result t t' res
  | Err Revert => t' = t ∧ ∃ b, best_finalized_number t = Some b ∧ (number_of h <= b)%Z
  | Err UnfinalizedAncestor => t' = t ∧ ∃ n, n ∈ roots t ∧ anc (hash n) h
  | _ => False
  end.

(** Finalizing a block keeps exactly its descendents in the tree,
    records its number and returns the data of the finalized root; it is refused,
    leaving the tree as it was, for a number not above the finalized one and for a
    block with an ancestor among the roots. *)
Theorem finalize_correct t :
  forest_ok (roots t) →
  let '(t', r) := finalize is_descendent h (number_of h) t in finalize_outcome t t' r.
Proof.
  intros Hok. unfold finalize, bindM at 1 2, getM, liftM at 1.
  destruct (check_finalized_cases t (number_of h)) as [[-> Hb]|[-> _]].
  { done. }
  unfold bindM at 1. destruct (finalize_root_ok t Hok) as [(t' & d & -> & ? & ?)|[-> Hno]]; [by cbn|].
  unfold bindM, liftM, modifyM, retM.
  rewrite (none_of_ok _ (λ n, ancestor (hash n) h)).
  2: { intros n Hn. apply guard_above, Hok. by apply elem_all_nodes. }
  destruct (existsb _ _) eqn:Hex.
  { apply existsb_exists in Hex as (n & Hn%list_elem_of_In & ?). cbn. eauto. }
  rewrite (retain_roots_ok _ (λ n, ancestor h (hash n))).
  2: { intros n Hn. apply guard_below, Hok. by apply elem_all_nodes. }
  cbn [fst snd finalize_outcome orb]. apply keep_descending; [done|].
  intros n Hn [?|Ha]; [by eapply Hno|].
  eapply not_true_iff_false; [exact Hex|]. apply existsb_exists. exists n.
  by rewrite <- list_elem_of_In.
Qed.

(** What one turn of the loop of [finalize_with_ancestors] learns about a root. *)
Lemma root_tests n :
  node_ok n → hash n ≠ h →
  (let? is_descendant :=
     and_then (negb (bool_decide (hash n = h)) && (number_of h <? number n)%Z)
       (descends (E:=E) is_descendent h (hash n)) in
   let? is_ancestor :=
     and_then (negb (bool_decide (hash n = h)) && negb is_descendant &&
               (number n <? number_of h)%Z)
       (descends (E:=E) is_descendent (hash n) h) in
   Ok (is_descendant, is_ancestor)) = Ok (ancestor h (hash n), ancestor (hash n) h).
Proof.
  intros Hn Hne. rewrite bool_decide_false by done. cbn [negb andb].
  rewrite guard_below by done. cbn [res_bind]. destruct (ancestor h (hash n)) eqn:Ha; cbn [negb andb].
  - cbn [and_then res_bind]. destruct (ancestor (hash n) h) eqn:Hb; [|done].
    by destruct (anc_irrefl h (ancestor_trans _ _ _ Ha Hb)).
  - by rewrite guard_above.
Qed.

(** Opening an ancestor: its children take its place. *)
Lemma open_root n rest :
  forest_ok (n :: rest) → anc (hash n) h →
  forest_ok (rest ++ children n) ∧
  filter survives (tuples (rest ++ children n)) ≡ₚ filter survives (tuples (n :: rest)).
Proof.
  intros Hok Ha. assert (Hokn : forest_ok [n]) by (eapply forest_ok_elem; [exact Hok|by left]).
  split.
  - pose proof Hok as (Hr & Hn & [Hac Hc] & [Har Hrest])%forest_ok_cons. split.
    + unfold apart. rewrite fmap_app, StronglySorted_app. split; [|done].
      intros a b (x & -> & Hx)%list_elem_of_fmap (c & -> & Hcin)%list_elem_of_fmap Hrel.
      destruct Hrel as [Hb|Hb].
      * eapply (subtrees_apart n rest c x (hash c) Hok); [|by apply elem_all_nodes|by left|done].
        rewrite preorder_unfold. right. by apply elem_all_nodes.
      * eapply (subtrees_apart n rest c x (hash x) Hok); [|by apply elem_all_nodes|by right|by left].
        rewrite preorder_unfold. right. by apply elem_all_nodes.
    + intros m. rewrite all_nodes_app, elem_of_app. intros [?|?]; auto.
  - change (n :: rest) with ([n] ++ rest). rewrite !tuples_app, !filter_app.
    rewrite survive_open by (done || by right). apply Permutation_app_comm.
Qed.

Lemma in_tree_perm t ns : roots t ≡ₚ ns → in_tree t ↔ ∃ n, n ∈ all_nodes ns ∧ hash n = h.
Proof. intros Hp. unfold in_tree. by setoid_rewrite Hp. Qed.

(** The part of a tree's outcome that the loop establishes. *)
Definition opened t t' (o : option V) (changed c : bool) : Prop :=
  forest_ok (roots t') ∧ tuples (roots t') ≡ₚ filter survives (tuples (roots t)) ∧
  match o with
  | Some v => finalized t t' ∧ (h, number_of h, v) ∈ tuples (roots t)
  | None => ¬ in_tree t ∧
      ((c = changed ∧ roots t' = roots t) ∨ (c = true ∧ sizes (roots t') < sizes (roots t)))
  end.

Lemma opened_step t t1 t' o changed c :
  sizes (roots t1) < sizes (roots t) →
  filter survives (tuples (roots t1)) ≡ₚ filter survives (tuples (roots t)) →
  (∀ x, x ∈ tuples (roots t1) → x ∈ tuples (roots t)) → (in_tree t → in_tree t1) →
  opened t1 t' o true c → opened t t' o changed c.
Proof.
  intros Hs Hf Hsub Hin (Hok & Ht & Ho). split; [done|]. rewrite <- Hf. split; [done|].
  destruct o as [v|].
  - destruct Ho as [(Ht' & Hb & Hp) Hv]. split; [|auto]. split; [done|]. split; [done|].
    by rewrite <- Hf.
  - destruct Ho as [Hno Hc]. split; [auto|]. right.
    destruct Hc as [[-> ->]|[-> ?]]; [done|]. split; [done|lia].
Qed.

(** Dropping a root that the block is not in, and that no descendent of it is below. *)
Lemma drop_root t n rest :
  forest_ok (n :: rest) → roots t ≡ₚ n :: rest → ¬ related (hash n) h →
  sizes rest < sizes (roots t) ∧
  filter survives (tuples rest) ≡ₚ filter survives (tuples (roots t)) ∧
  (∀ x, x ∈ tuples rest → x ∈ tuples (roots t)) ∧ (in_tree t → in_tree (with_roots t rest)).
Proof.
  intros Hok Hp Hn. assert (Hokn : forest_ok [n]) by (eapply forest_ok_elem; [exact Hok|by left]).
  rewrite (in_tree_perm _ _ Hp), Hp. split; [rewrite sizes_cons; lia|]. split; [|split].
  - change (n :: rest) with ([n] ++ rest). rewrite tuples_app, filter_app.
    by rewrite survive_unrelated.
  - intros x Hx. rewrite Hp, tuples_cons. right. apply elem_of_app. by right.
  - intros (m & Hm & Hh). exists m. split; [|done]. cbn [with_roots roots].
    change (m ∈ preorder n ++ all_nodes rest) in Hm. apply elem_of_app in Hm as [Hm|]; [|done].
    exfalso. eapply unrelated_subtree; [exact Hokn|exact Hm|exact Hn|]. left. by left.
Qed.

Lemma open_ancestor t n rest :
  forest_ok (n :: rest) → roots t ≡ₚ n :: rest → anc (hash n) h →
  sizes (rest ++ children n) < sizes (roots t) ∧
  filter survives (tuples (rest ++ children n)) ≡ₚ filter survives (tuples (roots t)) ∧
  (∀ x, x ∈ tuples (rest ++ children n) → x ∈ tuples (roots t)) ∧
  (in_tree t → in_tree (with_roots t (rest ++ children n))).
Proof.
  intros Hok Hp Ha. rewrite (in_tree_perm _ _ Hp), Hp. split; [|split; [|split]].
  - rewrite sizes_cons, sizes_app. lia.
  - by apply open_root.
  - intros x. rewrite Hp, tuples_cons, tuples_app, elem_of_cons, !elem_of_app. tauto.
  - intros (m & Hm & Hh). exists m. split; [|done]. cbn [with_roots roots].
    rewrite all_nodes_app, elem_of_app. rewrite all_nodes_cons, elem_of_cons, elem_of_app in Hm.
    destruct Hm as [->|[?|?]]; [|by auto..]. subst h. by apply anc_irrefl in Ha.
Qed.

Abbreviation open_ancestors fuel :=
  (open_ancestors (E:=E) is_descendent fuel h (number_of h)).

Lemma opened_done t changed :
  forest_ok (roots t) → (∀ n, n ∈ roots t → anc h (hash n)) → opened t t None changed changed.
Proof.
  intros Hok Ha. split; [done|]. rewrite survive_all by done. split; [done|]. split; [|by left].
  intros (n & Hn & Hh). apply list_elem_of_bind in Hn as (r & Hn & Hr).
  apply (anc_irrefl h). rewrite <- Hh at 2. eapply anc_below; [by apply Ha|].
  eauto using subtree_below, forest_ok_elem.
Qed.

(** The fuel left over when roots past the index are replaced by smaller ones. *)
Lemma fuel_step (ns ns' : list (Node H V)) idx fuel :
  take idx ns' = take idx ns → sizes ns' < sizes ns → sizes (drop idx ns) ≤ S fuel →
  sizes (drop idx ns') ≤ fuel.
Proof.
  intros Ht Hs Hf. rewrite <- (take_drop idx ns), <- (take_drop idx ns'), !sizes_app, Ht in Hs. lia.
Qed.

Lemma open_ancestors_ok fuel idx changed t :
  forest_ok (roots t) → (∀ n, n ∈ take idx (roots t) → anc h (hash n)) →
  idx ≤ length (roots t) → sizes (drop idx (roots t)) ≤ fuel → ∃ t' o c,
  open_ancestors fuel idx changed t = (t', Ok (o, c)) ∧ opened t t' o changed c.
Proof.
  revert idx changed t.
  induction fuel as [|fuel IH]; intros idx changed t Hok Htake Hidx Hf;
    cbn [ForkTree.open_ancestors]; destruct (roots t !! idx) as [n|] eqn:Hi.
  1: { rewrite (drop_S _ _ _ Hi), sizes_cons in Hf. lia. }
  1, 3: eexists t, None, changed; split; [done|]; apply opened_done; [done|];
    apply lookup_ge_None in Hi; by rewrite take_ge in Htake.
  assert (Hin : n ∈ roots t) by (by eapply list_elem_of_lookup_2).
  destruct (decide (hash n = h)) as [Hh|Hh].
  { destruct (finalize_root_at_ok t idx n Hok Hi Hh) as (t' & Hfin & Hfz & Hv).
    exists t', (Some (data n)), changed. rewrite bool_decide_true by done.
    cbn [negb andb and_then res_bind]. split; [by erewrite bindM_ok|].
    destruct Hfz as (Htree & ? & ?). split; [apply Htree|]. by split_all. }
  rewrite (root_tests n) by (done || apply Hok, elem_all_nodes, Hin).
  rewrite bool_decide_false by done. destruct (ancestor h (hash n)) eqn:Hd.
  { apply IH; [done| | |].
    - rewrite (take_S_r _ _ _ Hi). intros m. rewrite elem_of_app, list_elem_of_singleton.
      intros [?| ->]; auto.
    - by apply lookup_lt_Some in Hi.
    - rewrite (drop_S _ _ _ Hi), sizes_cons in Hf. lia. }
  destruct (swap_remove_ok _ _ _ Hi) as (rest & -> & Hp & Hlen & Htk).
  pose proof (forest_ok_perm _ _ Hp Hok) as Hok'.
  set (rs := if ancestor (hash n) h then rest ++ children n else rest).
  assert (Hrs : sizes rs < sizes (roots t) ∧
    filter survives (tuples rs) ≡ₚ filter survives (tuples (roots t)) ∧
    (∀ x, x ∈ tuples rs → x ∈ tuples (roots t)) ∧ (in_tree t → in_tree (with_roots t rs))).
  { unfold rs. destruct (ancestor (hash n) h) eqn:Ha; [by apply open_ancestor|].
    apply (drop_root t n); [done..|]. unfold related, below. intros [[]|]; congruence. }
  assert (Htk' : take idx rs = take idx (roots t)).
  { unfold rs. destruct (ancestor (hash n) h); [by rewrite take_app_le|done]. }
  destruct (IH idx true (with_roots t rs)) as (t' & o & c & -> & Ho); cbn [with_roots roots].
  - unfold rs. destruct (ancestor (hash n) h) eqn:Ha; [by apply open_root|].
    by apply forest_ok_cons in Hok' as (_ & _ & _ & ?).
  - by rewrite Htk'.
  - unfold rs. destruct (ancestor (hash n) h); [rewrite length_app|]; lia.
  - eapply fuel_step; [exact Htk'|apply Hrs|done].
  - exists t', o, c. split; [done|]. destruct Hrs as (? & ? & ? & ?). by apply (opened_step t (with_roots t rs)).
Qed.

(** [C22] Finalizing a block together with its ancestors
    terminates and, unless its number is not above the finalized one, succeeds:
    wherever the block is, exactly its descendents stay, its number is recorded,
    and its data is returned if it was in the tree. *)
Theorem finalize_with_ancestors_correct t :
  forest_ok (roots t) →
  let '(t', r) := finalize_with_ancestors is_descendent h (number_of h) t in
  r ≠ Err UnfinalizedAncestor ∧ finalize_outcome t t' r.
Proof.
  intros Hok. unfold finalize_with_ancestors, bindM at 1 2, getM, liftM at 1.
  destruct (check_finalized_cases t (number_of h)) as [[-> Hb]|[-> _]]; [by cbn|].
  unfold bindM at 1. destruct (finalize_root_ok t Hok) as [(t' & d & -> & ? & ?)|[-> Hno]]; [by cbn|].
  unfold bindM at 1.
  destruct (open_ancestors_ok (sizes (roots t)) 0 false t) as (t' & o & c & -> & Ho);
    [done|intros n Hn; by apply elem_of_nil in Hn|lia|done|].
  destruct Ho as (Hok' & Ht' & Ho). destruct o as [v|]; [by cbn|].
  unfold bindM, modifyM, retM. split; [by destruct c|]. split.
  - split; [|by split]. split; [done|]. intros b [= <-] r Hr.
    cbn [with_best roots] in Hr. destruct (proj2 Hok' r) as (-> & _); [by apply elem_all_nodes|].
    assert (Hs : node_tuple r ∈ tuples (roots t')) by (by apply list_elem_of_fmap_2, elem_all_nodes).
    rewrite Ht' in Hs. apply list_elem_of_filter in Hs as [Hs _]. by apply ancestor_number.
  - destruct Ho as [Hno' [[-> He]|[-> Hs]]]; by split.
Qed.

(** *** Finalizing by a descendent outside the tree *)

Section descendent.
Context (predicate : V → bool).

(** A root that the finalization of the block is about. *)
Definition target n : Prop := predicate (data n) = true ∧ below (hash n) h.

#[local] Instance below_dec a b : Decision (below a b).
Proof. unfold below. apply _. Defined.
#[local] Instance related_dec a b : Decision (related a b).
Proof. unfold related. apply _. Defined.

Lemma or_below n :
  or_else (bool_decide (hash n = h)) (descends (E:=E) is_descendent (hash n) h) =
  Ok (bool_decide (below (hash n) h)).
Proof.
  unfold or_else, descends, is_descendent. case_bool_decide as He.
  - rewrite bool_decide_true; [done|]. by left.
  - f_equal. destruct (ancestor (hash n) h) eqn:Ha; symmetry.
    + apply bool_decide_true. by right.
    + apply bool_decide_false. intros [?|?]; congruence.
Qed.

Lemma finalizes_node_ok n :
  forest_ok [n] →
  finalizes_node (E:=E) is_descendent h (number_of h) predicate n =
  if decide (target n) then
    if decide (Exists (λ c, below (hash c) h) (children n)) then Err UnfinalizedAncestor else Ok true
  else Ok false.
Proof.
  intros [Hn Hc]%forest_ok_single. unfold finalizes_node. rewrite or_below.
  destruct (decide (target n)) as [[Hp Hb]|Hno].
  - rewrite Hp, bool_decide_true by done. cbn [and_then res_bind].
    rewrite (none_of_ok _ (λ c, bool_decide (below (hash c) h))).
    + destruct (decide (Exists _ _)) as [Hex|Hex].
      * rewrite (proj2 (existsb_exists _ _)); [done|].
        apply Exists_exists in Hex as (c & ? & ?). exists c. rewrite <- list_elem_of_In.
        by rewrite bool_decide_eq_true.
      * destruct (existsb _ _) eqn:He; [|done]. destruct Hex.
        apply existsb_exists in He as (c & Hin%list_elem_of_In & Hcb).
        rewrite bool_decide_eq_true in Hcb. apply Exists_exists. eauto.
    + intros c Hin. rewrite or_below. unfold and_then. case_match; [done|].
      f_equal. symmetry. apply bool_decide_false. intros Hcb.
      destruct (proj2 Hc c) as (Hnum & _); [by apply elem_all_nodes|].
      destruct Hcb as [Hcb|Hcb%ancestor_number]; [rewrite <- Hcb, Hnum in *|rewrite Hnum in *]; lia.
  - unfold and_then. destruct (predicate (data n)) eqn:Hp; [|done].
    rewrite bool_decide_false; [done|]. intros Hb. by destruct Hno.
Qed.

Lemma first_finalized_ok i ns :
  forest_ok ns →
  match first_finalized (E:=E) is_descendent h (number_of h) predicate i ns with
  | Ok (Some (j, n)) => i ≤ j ∧ ns !! (j - i) = Some n ∧ target n ∧
      ∀ c, c ∈ children n → ¬ below (hash c) h
  | Err UnfinalizedAncestor =>
      ∃ n, n ∈ ns ∧ target n ∧ ∃ c, c ∈ children n ∧ below (hash c) h
  | Ok None => ∀ n, n ∈ ns → ¬ target n
  | _ => False
  end.
Proof.
  revert i. induction ns as [|n ns IH]; intros i Hok.
  { intros n Hn. by apply elem_of_nil in Hn. }
  assert (Hokn : forest_ok [n]) by (eapply forest_ok_elem; [exact Hok|by left]).
  apply forest_ok_cons in Hok as (_ & _ & _ & Hok). cbn [first_finalized].
  rewrite finalizes_node_ok by done. destruct (decide (target n)) as [Ht|Hno].
  - destruct (decide (Exists _ _)) as [Hex|Hex]; cbn [res_bind].
    + exists n. split; [by left|]. split; [done|]. by apply Exists_exists.
    + split; [done|]. rewrite Nat.sub_diag. split; [done|]. split; [done|].
      intros c Hc Hb. apply Hex, Exists_exists. eauto.
  - cbn [res_bind]. specialize (IH (S i) Hok).
    destruct (first_finalized _ _ _ _ _ _) as [[[j m]|]|[]|]; try done.
    + destruct IH as (? & Hj & ?). split; [lia|]. split; [|done].
      by replace (j - i) with (S (j - S i)) by lia.
    + intros m [->|?]%elem_of_cons; auto.
    + destruct IH as (m & ? & ?). exists m. split; [by right|done].
Qed.

(** The test of the last loop: the roots on a branch with the block stay. *)
Lemma guard_related n :
  node_ok n →
  (let? a := and_then (number_of h <? number n)%Z (descends (E:=E) is_descendent h (hash n)) in
   or_else (a || (number n =? number_of h)%Z && bool_decide (hash n = h))
     (descends is_descendent (hash n) h)) = Ok (bool_decide (related (hash n) h)).
Proof.
  intros Hn. rewrite guard_below by done. cbn [res_bind]. destruct (ancestor h (hash n)) eqn:Ha.
  { rewrite (bool_decide_true (related _ _)); [done|]. by right. }
  assert (Hr : bool_decide (related (hash n) h) = bool_decide (below (hash n) h)).
  { apply bool_decide_ext. unfold related. rewrite Ha. intuition congruence. }
  rewrite Hr, <- or_below. cbn [orb]. destruct (decide (hash n = h)) as [He|He].
  - rewrite !(bool_decide_true (hash n = h)), (proj1 Hn) by done.
    replace (number_of (hash n)) with (number_of h) by congruence. by rewrite Z.eqb_refl.
  - by rewrite !(bool_decide_false (hash n = h)), andb_false_r.
Qed.

(** What the caller learns, and what happened to the tree. *)
Definition descendent_outcome t t' (r : res (Error E) (FinalizationResult V)) : Prop :=
  match r with
  | Ok (Changed (Some d)) =>
      (∃ n, n ∈ roots t ∧ target n ∧ data n = d ∧ ∀ c, c ∈ children n → ¬ below (hash c) h) ∧
      finalized t t'
  | Ok res =>
      (∀ n, n ∈ roots t → ¬ target n) ∧ forest_ok (roots t') ∧
      best_finalized_number t' = Some (number_of h) ∧
      roots t' = filter (λ n, related (hash n) h) (roots t) ∧
      (res = Unchanged ↔ roots t' = roots t)
  | Err Revert => t' = t ∧ ∃ b, best_finalized_number t = Some b ∧ (number_of h <= b)%Z
  | Err UnfinalizedAncestor =>
      t' = t ∧ ∃ n, n ∈ roots t ∧ target n ∧ ∃ c, c ∈ children n ∧ below (hash c) h
  | _ => False
  end.

Lemma filter_forallb (b : Node H V → bool) (ns : list (Node H V)) :
  (if negb (forallb b ns) then Changed (V:=V) None else Unchanged) = Unchanged ↔
  filter (λ n, b n = true) ns = ns.
Proof.
  assert (Hlen : ∀ ns, length (filter (λ n, b n = true) ns) ≤ length ns).
  { intros l. apply length_filter. }
  destruct (forallb b ns) eqn:Hb; cbn [negb]; (split; [intros He|intros He]); try done.
  - apply filter_all. intros x Hx. rewrite forallb_forall in Hb. by apply Hb, list_elem_of_In.
  - exfalso. apply not_true_iff_false in Hb. apply Hb, forallb_forall. intros x Hx%list_elem_of_In.
    rewrite <- He in Hx. by apply list_elem_of_filter in Hx as [? _].
Qed.

Lemma filter_related (ns : list (Node H V)) :
  filter (λ n, bool_decide (related (hash n) h) = true) ns = filter (λ n, related (hash n) h) ns.
Proof. apply list_filter_iff. intros n. apply bool_decide_eq_true. Qed.

(** A root at or above the block, with no child there: its descending children stay. *)
Lemma finalize_below t n rest :
  forest_ok (n :: rest) → roots t ≡ₚ n :: rest → (∀ c, c ∈ children n → ¬ below (hash c) h) →
  below (hash n) h → finalized t (mkTree (descending (children n)) (Some (number_of h))).
Proof.
  intros Hok Hp Hc Hb. pose proof Hok as (_ & _ & Hcs & _)%forest_ok_cons.
  destruct (keep_descending (mkTree (children n) None) Hcs Hc) as [(? & ? & Ht) _].
  split; [done|]. split; [done|]. rewrite Ht, Hp. cbn [roots].
  change (n :: rest) with ([n] ++ rest). rewrite tuples_app, filter_app.
  rewrite (survive_rest n rest), app_nil_r by done. rewrite survive_open; [done| |done].
  eapply forest_ok_elem; [exact Hok|by left].
Qed.

(** Finalizing by a descendent: the root that
    passes the predicate and that the block is, or descends from, is finalized and
    exactly the descendents of the block stay, unless the block is also at or
    below a child of that root, which is an error that changes nothing; without
    such a root exactly the roots on a branch with the block stay. *)
Theorem finalize_with_descendent_correct t :
  forest_ok (roots t) →
  let '(t', r) := finalize_with_descendent_if is_descendent h (number_of h) predicate t in
  descendent_outcome t t' r.
Proof.
  intros Hok. unfold finalize_with_descendent_if, bindM at 1 2 3, getM at 1, liftM.
  destruct (check_finalized_cases t (number_of h)) as [[-> Hb]|[-> _]]; [by cbn|].
  pose proof (first_finalized_ok 0 (roots t) Hok) as Hff.
  destruct (first_finalized _ _ _ _ _ _) as [[[i n]|]|[]|]; try done.
  - destruct Hff as (_ & Hi & Ht & Hc). rewrite Nat.sub_0_r in Hi.
    destruct (finalize_root_at_eval t i n Hi) as (rest & Hev & Hp). unfold bindM at 1 2.
    rewrite Hev. unfold bindM, modifyM, retM, getM. cbn [roots].
    apply (forest_ok_perm _ _ Hp) in Hok. pose proof Hok as (_ & Hn & Hcs & _)%forest_ok_cons.
    rewrite (retain_roots_ok _ (λ n, bool_decide (related (hash n) h))).
    2: { intros c Hin. apply guard_related, Hcs. by apply elem_all_nodes. }
    split; [exists n; split_all; by try eapply list_elem_of_lookup_2|].
    cbn [with_best with_roots roots best_finalized_number app]. rewrite filter_related.
    rewrite (filter_ext_elem _ (λ n, ancestor h (hash n) = true)).
    2: { intros c Hin. unfold related. specialize (Hc c Hin). tauto. }
    by eapply finalize_below; [| | |apply Ht].
  - unfold bindM, modifyM, retM, getM.
    rewrite (retain_roots_ok _ (λ n, bool_decide (related (hash n) h))).
    2: { intros n Hn. apply guard_related, Hok. by apply elem_all_nodes. }
    pose proof (filter_forallb (λ n, bool_decide (related (hash n) h)) (roots t)) as Hch.
    rewrite filter_related in Hch |- *. cbn [orb with_best with_roots roots app].
    assert (Hokf := forest_ok_filter (λ n, related (hash n) h) _ Hok).
    destruct (negb _); by split_all.
Qed.

End descendent.
End finalizing.
End blocks.

(** * Searching, rebalancing, mapping and filtering *)

Section tree_theorems.
Context {H V W E : Type} `{EqDecision H}.

(** For any ancestry test, failing or not, the search's loop over an
    explicit stack terminates and is the post-order traversal: children before
    their parent, no ancestry test once an ancestor is known, and the path is the
    one from a root to the node. *)
Theorem find_is_postorder (is_descendent_of : H → H → res E bool) (t : ForkTree H V) h num
    (predicate : V → bool) :
  find_node_index_where is_descendent_of t h num predicate =
  (let? r := dfs_list num (dfs is_descendent_of h num predicate) 0 (roots t) in Ok (mjoin r)).
Proof. apply search_roots_ok. Qed.

(** Rebalancing keeps the forest up to the order of siblings (the same
    roots, nodes and parent-child pairs) and puts the deepest branch first among
    the roots and among the children of every node. *)
Theorem rebalance_correct (t : ForkTree H V) :
  same_forest (roots t) (roots (rebalance t)) ∧ balanced (roots (rebalance t)) ∧
  best_finalized_number (rebalance t) = best_finalized_number t.
Proof.
  split; [apply rebalance_roots_same|]. split; [apply rebalance_roots_balanced|done].
Qed.

(** Mapping takes the tree apart by levels and puts it together again;
    it terminates without an index out of range and applies the function to every
    node, keeping the shape of the tree and the order of siblings. *)
Theorem map_correct (f : H → Z → V → W) (t : ForkTree H V) :
  map f t = Some (mkTree (map_node f <$> roots t) (best_finalized_number t)).
Proof.
  unfold map. destruct (rebuild_ok _ (map_step_smaller f) (roots t)) as (gone & -> & _).
  cbn [mbind option_bind]. do 2 f_equal. induction (roots t) as [|n ns IH]; [done|].
  rewrite omap_cons, keep_map, fmap_cons. by rewrite IH.
Qed.

(** Draining with a filter terminates without a panic: what is left
    is the top-down filtering of the tree, rebalanced when something was removed,
    and the nodes left with the nodes returned are exactly the nodes there were. *)
Theorem drain_filter_correct (p : H → Z → V → FilterAction) (t : ForkTree H V) :
  ∃ t' removed, drain_filter (E:=E) p t = (t', Ok removed) ∧
  best_finalized_number t' = best_finalized_number t ∧
  tuples (roots t') ++ removed ≡ₚ tuples (roots t) ∧
  ((removed = [] ∧ roots t' = omap (filter_node p) (roots t)) ∨
   (same_forest (omap (filter_node p) (roots t)) (roots t') ∧ balanced (roots t'))).
Proof.
  unfold drain_filter.
  destruct (rebuild_ok _ (filter_step_smaller p) (roots t)) as (gone & -> & Hgone).
  assert (Hk : omap (keep (filter_step p)) (roots t) = omap (filter_node p) (roots t)).
  { clear. induction (roots t) as [|n ns IH]; [done|]. rewrite !omap_cons, keep_filter.
    destruct (filter_node p n); by rewrite IH. }
  eexists _, _. split; [done|]. rewrite Hk. pose proof (filter_partition p (roots t)) as Hp.
  rewrite <- Hgone, <- (removed_iter_ok gone) in Hp. destruct gone as [|g gone].
  - split; [done|]. split; [done|]. by left.
  - split; [done|]. cbn [rebalance with_roots roots].
    pose proof (rebalance_roots_same (omap (filter_node p) (roots t))) as Hs.
    split; [destruct Hs as (_ & -> & _); done|]. right. split; [done|apply rebalance_roots_balanced].
Qed.

(** [C33] When the ancestry test fails for a root during the last
    loop of [finalize], the error leaves a tree with only the roots kept so far:
    the failing root and every root after it are gone, whatever they are. *)
Theorem finalize_error_drops_roots (is_descendent_of : H → H → res E bool) (t : ForkTree H V)
    h num pre n post b e :
  check_finalized (E:=E) t num = Ok tt → position h (roots t) = None →
  none_of (λ r, and_then (number r <? num)%Z (descends is_descendent_of (hash r) h)) (roots t) =
    Ok tt →
  roots t = pre ++ n :: post →
  (∀ r, r ∈ pre →
    and_then (num <? number r)%Z (descends is_descendent_of h (hash r)) = Ok (b r)) →
  (num < number n)%Z → is_descendent_of h (hash n) = Err e →
  finalize is_descendent_of h num t =
  (with_roots t (filter (λ r, b r = true) pre), Err (Client e)).
Proof.
  intros Hc Hp Hn Hr Hpre Hnum He. unfold finalize, bindM at 1 2, getM, liftM at 1. rewrite Hc.
  unfold bindM at 1, finalize_root. rewrite Hp. unfold bindM, liftM, modifyM. rewrite Hn, Hr.
  assert (Hloop : ∀ pre changed t', (∀ r, r ∈ pre →
      and_then (num <? number r)%Z (descends is_descendent_of h (hash r)) = Ok (b r)) →
    retain_roots (λ r, and_then (num <? number r)%Z (descends is_descendent_of h (hash r)))
      (pre ++ n :: post) changed t' =
    (with_roots t' (roots t' ++ filter (λ r, b r = true) pre), Err (Client e))).
  { clear Hr Hpre. intros l. induction l as [|r l IH]; intros changed t' Hl; cbn [app retain_roots].
    - rewrite (proj2 (Z.ltb_lt _ _)) by done. cbn [and_then]. unfold descends. rewrite He, app_nil_r.
      by destruct t'.
    - rewrite Hl by (by left). rewrite filter_cons.
      destruct (b r); cbn [decide]; rewrite IH by (intros; apply Hl; by right);
        unfold with_roots; cbn [roots best_finalized_number]; [|done].
      by rewrite <- (assoc_L (++)). }
  by rewrite Hloop.
Qed.

End tree_theorems.

(** * Instances *)

Section decidable.
Context {H V : Type} `{EqDecision H} (ancestor : H → H → bool) (number_of : H → Z).

#[global] Instance apart_dec hs : Decision (apart ancestor hs).
Proof. unfold apart, related, below. apply _. Defined.

#[global] Instance node_ok_dec (n : Node H V) : Decision (node_ok ancestor number_of n).
Proof.
  refine (cast_if_and3 (decide (number n = number_of (hash n)))
    (decide (Forall (λ c, ancestor (hash n) c = true) (hash <$> children n)))
    (decide (apart ancestor (hash <$> children n)))); unfold node_ok;
    rewrite <- (Forall_forall (λ c, ancestor (hash n) c = true)); tauto.
Defined.

#[global] Instance forest_ok_dec (ns : list (Node H V)) : Decision (forest_ok ancestor number_of ns).
Proof.
  refine (cast_if_and (decide (apart ancestor (hash <$> ns)))
    (decide (Forall (node_ok ancestor number_of) (all_nodes ns)))); unfold forest_ok;
    rewrite <- (Forall_forall (node_ok ancestor number_of)); tauto.
Defined.

End decidable.

(** Blocks as the path from the genesis block: an ancestor is a proper prefix. *)
Definition path_ancestor (a b : list nat) : bool :=
  bool_decide (a `prefix_of` b) && bool_decide (a ≠ b).
Definition path_number (a : list nat) : Z := Z.of_nat (length a).

#[global] Instance path_blocks : Blocks path_ancestor path_number.
Proof.
  unfold path_ancestor, path_number.
  assert (Hspec : ∀ a b : list nat, bool_decide (a `prefix_of` b) && bool_decide (a ≠ b) = true ↔
    a `prefix_of` b ∧ a ≠ b).
  { intros a b. by rewrite andb_true_iff, !bool_decide_eq_true. }
  assert (Hlen : ∀ a b : list nat, a `prefix_of` b → a ≠ b → length a < length b).
  { intros a b [k ->] Hne. rewrite length_app. destruct k; [|simpl; lia].
    by rewrite app_nil_r in Hne. }
  split; intros a b; setoid_rewrite Hspec.
  - intros c [Hab Hne] [Hbc Hne']. split; [by etrans|]. intros ->.
    pose proof (Hlen _ _ Hab Hne). pose proof (Hlen _ _ Hbc Hne'). lia.
  - intros [Hp Hne]. pose proof (Hlen _ _ Hp Hne). lia.
  - intros c [Ha Hna] [Hb Hnb]. destruct (decide (a = b)) as [|Hne]; [by left|right].
    destruct (prefix_weak_total a b c Ha Hb); [by left|right]. split; [done|congruence].
Qed.

(** Two branches from one root, and a root of another fork. *)
Definition demo_tree : ForkTree (list nat) nat :=
  mkTree [mkNode [1] 1%Z 10
            [mkNode [1; 1] 2%Z 20 [mkNode [1; 1; 1] 3%Z 30 []]; mkNode [1; 2] 2%Z 21 []];
          mkNode [2] 1%Z 11 []] None.

Lemma demo_forest : forest_ok path_ancestor path_number (roots demo_tree).
Proof. apply (bool_decide_unpack _). by vm_compute. Qed.

Abbreviation demo_descendent := (is_descendent (E:=unit) path_ancestor).

(** The deepest ancestor of a block outside the tree. *)
Lemma find_node_deepest_witness :
  find_node_where demo_descendent demo_tree [1; 1; 1; 7] 4 (λ _, true) =
    Ok (Some (mkNode [1; 1; 1] 3%Z 30 [])) ∧
  ∀ m, m ∈ all_nodes (roots demo_tree) → wanted path_ancestor [1; 1; 1; 7] (λ _, true) m →
    below path_ancestor (hash m) [1; 1; 1].
Proof.
  split; [by vm_compute|].
  destruct (find_node_deepest (E:=unit) path_ancestor path_number demo_tree [1; 1; 1; 7] (λ _, true)
    demo_forest) as (r & Hr & Hspec).
  vm_compute in Hr. injection Hr as <-. apply Hspec.
Defined.

(** A block below a leaf: the new node is the only child, which rebalances the tree. *)
Lemma import_correct_witness :
  (import demo_descendent [1; 2; 5] 3 42 demo_tree).2 = Ok false ∧
  tuples (roots (import demo_descendent [1; 2; 5] 3 42 demo_tree).1) ≡ₚ
    ([1; 2; 5], 3%Z, 42) :: tuples (roots demo_tree).
Proof.
  split; [by vm_compute|].
  assert (Hr : (import demo_descendent [1; 2; 5] (path_number [1; 2; 5]) 42 demo_tree).2 = Ok false)
    by (by vm_compute).
  pose proof (import_correct (E:=unit) path_ancestor path_number demo_tree [1; 2; 5] 42) as Hi.
  cbv zeta in Hi. rewrite Hr in Hi. apply Hi.
  - split; [apply demo_forest|]. intros b [=].
  - apply (Forall_forall (λ n, ¬ path_ancestor [1; 2; 5] (hash n) = true)), (bool_decide_unpack _).
    by vm_compute.
Defined.

Lemma prune_correct_witness :
  (∃ t', prune demo_descendent [1; 1; 1] 3 (λ _, true) demo_tree =
    (t', Ok [([2], 1%Z, 11); ([1], 1%Z, 10); ([1; 2], 2%Z, 21)])) ∧
  ∃ t' removed, prune demo_descendent [1; 1; 1] 3 (λ _, true) demo_tree = (t', Ok removed) ∧
  prune_spec path_ancestor path_number demo_tree [1; 1; 1] (λ _, true) t' removed.
Proof.
  split; [eexists; by vm_compute|].
  apply (prune_correct (E:=unit) path_ancestor path_number demo_tree [1; 1; 1] (λ _, true)), demo_forest.
Defined.

Lemma finalize_correct_witness :
  (finalize demo_descendent [1] 1 demo_tree).2 = Ok (Changed (Some 10)) ∧
  (let '(t', r) := finalize demo_descendent [1] 1 demo_tree in
   finalize_outcome path_ancestor path_number [1] demo_tree t' r).
Proof.
  split; [by vm_compute|].
  apply (finalize_correct (E:=unit) path_ancestor path_number [1] demo_tree), demo_forest.
Defined.

Lemma finalize_with_ancestors_correct_witness :
  (finalize_with_ancestors demo_descendent [1; 1] 2 demo_tree).2 = Ok (Changed (Some 20)) ∧
  (let '(t', r) := finalize_with_ancestors demo_descendent [1; 1] 2 demo_tree in
   r ≠ Err UnfinalizedAncestor ∧ finalize_outcome path_ancestor path_number [1; 1] demo_tree t' r).
Proof.
  split; [by vm_compute|].
  apply (finalize_with_ancestors_correct (E:=unit) path_ancestor path_number [1; 1] demo_tree), demo_forest.
Defined.

Lemma finalize_with_descendent_correct_witness :
  (finalize_with_descendent_if demo_descendent [2; 4] 2 (λ _, true) demo_tree).2 =
    Ok (Changed (Some 11)) ∧
  (let '(t', r) := finalize_with_descendent_if demo_descendent [2; 4] 2 (λ _, true) demo_tree in
   descendent_outcome path_ancestor path_number [2; 4] (λ _, true) demo_tree t' r).
Proof.
  split; [by vm_compute|].
  apply (finalize_with_descendent_correct (E:=unit) path_ancestor path_number [2; 4] (λ _, true)
    demo_tree), demo_forest.
Defined.

(** Finalizing a block of number 0 below which all roots are: the test fails for the
    first root, and both are lost. *)
Lemma finalize_error_drops_roots_witness :
  (finalize (λ _ _, Err tt) [] 0 demo_tree) = (mkTree [] None, Err (Client tt)).
Proof.
  by apply (finalize_error_drops_roots (λ _ _, Err tt) demo_tree [] 0 []
    (mkNode [1] 1%Z 10 [mkNode [1; 1] 2%Z 20 [mkNode [1; 1; 1] 3%Z 30 []]; mkNode [1; 2] 2%Z 21 []])
    [mkNode [2] 1%Z 11 []] (λ _, true) tt); try by vm_compute; intros r Hr; apply elem_of_nil in Hr.
Defined.
