(* ===== verification/System.v ===== *)
(** Accounts and their reference counters (frame/system/src/lib.rs), with the
    [StoredMap] that other pallets keep their account data in.

    An account exists while it has a provider or a sufficient reference; consumer
    references need a provider and keep the last one from being removed.  The
    theorems show that the counters keep this discipline. *)

From stdpp Require Import base numbers list option gmap sets fin_maps.
From S2P Require Import Prelude.

Local Open Scope Z_scope.
Local Open Scope rust_scope.

(** * Errors *)

Inductive TokenError :=
| FundsUnavailable
| OnlyProvider
| BelowMinimum
| CannotCreate
| UnknownAsset
| Frozen
| Unsupported
| CannotCreateHold
| NotExpendable
| Blocked.

Inductive ArithmeticError := Underflow | Overflow | DivisionByZero.

(** [DispatchError], with the errors of a pallet as a parameter. *)
Inductive DispatchError (ModuleError : Type) :=
| BadOrigin
| Module (e : ModuleError)
| ConsumerRemaining
| NoProviders
| TooManyConsumers
| Token (e : TokenError)
| Arithmetic (e : ArithmeticError).
Arguments BadOrigin {_}.
Arguments Module {_} e.
Arguments ConsumerRemaining {_}.
Arguments NoProviders {_}.
Arguments TooManyConsumers {_}.
Arguments Token {_} e.
Arguments Arithmetic {_} e.

(** * State *)

(** The default value of a type stored in a map. *)
Class Default (A : Type) := default_value : A.

Record AccountInfo (Data : Type) := mkAccountInfo {
  nonce : Z;
  consumers : Z;
  providers : Z;
  sufficients : Z;
  acc_data : Data;
}.
Arguments mkAccountInfo {Data} _ _ _ _ _.
Arguments nonce {Data} _.
Arguments consumers {Data} _.
Arguments providers {Data} _.
Arguments sufficients {Data} _.
Arguments acc_data {Data} _.

Inductive IncRefStatus := Created | Existed.
Inductive DecRefStatus := Reaped | Exists.

Inductive SystemEvent (AccountId : Type) :=
| NewAccount (account : AccountId)
| KilledAccount (account : AccountId).
Arguments NewAccount {_} account.
Arguments KilledAccount {_} account.

(** The storage of a runtime: the accounts, the events of this pallet, and the storage
    of the pallet on top. *)
Record Runtime (AccountId Data P : Type) `{Countable AccountId} := mkRuntime {
  accounts : gmap AccountId (AccountInfo Data);
  system_events : list (SystemEvent AccountId);
  pallet : P;
}.
Arguments mkRuntime {AccountId Data P _ _} _ _ _.
Arguments accounts {AccountId Data P _ _} _.
Arguments system_events {AccountId Data P _ _} _.
Arguments pallet {AccountId Data P _ _} _.

(** [RefCount] is [u32]. *)
Definition ref_max : Z := 2 ^ 32 - 1.
Definition ref_inc (n : Z) : Z := Z.min (n + 1) ref_max.

(** * Operations *)

Section system.
Context {AccountId Data P : Type} `{Countable AccountId} `{EqDecision Data} `{Default Data}.
Context {ME : Type}.

Abbreviation Runtime := (Runtime AccountId Data P).
Abbreviation Info := (AccountInfo Data).
Implicit Types (s : Runtime) (who : AccountId).

Definition default_info : Info := mkAccountInfo 0 0 0 0 default_value.

(** [Account::<T>::get] *)
Definition get_account s who : Info := default default_info (accounts s !! who).

Definition with_accounts s m : Runtime := mkRuntime m (system_events s) (pallet s).
Definition put_account who (a : Info) s : Runtime := with_accounts s (<[who := a]> (accounts s)).
Definition remove_account who s : Runtime := with_accounts s (delete who (accounts s)).
Definition deposit_system_event e s : Runtime :=
  mkRuntime (accounts s) (system_events s ++ [e]) (pallet s).

Definition set_providers (a : Info) n : Info :=
  mkAccountInfo (nonce a) (consumers a) n (sufficients a) (acc_data a).
Definition set_consumers (a : Info) n : Info :=
  mkAccountInfo (nonce a) n (providers a) (sufficients a) (acc_data a).
Definition set_sufficients (a : Info) n : Info :=
  mkAccountInfo (nonce a) (consumers a) (providers a) n (acc_data a).
Definition set_data (a : Info) d : Info :=
  mkAccountInfo (nonce a) (consumers a) (providers a) (sufficients a) d.

(** The hooks [OnNewAccount] and [OnKilledAccount] are [()]. *)
Definition on_created_account who s : Runtime := deposit_system_event (NewAccount who) s.
Definition on_killed_account who s : Runtime := deposit_system_event (KilledAccount who) s.

Definition inc_providers {E} who : M Runtime E IncRefStatus := λ s,
  let a := get_account s who in
  if (providers a =? 0) && (sufficients a =? 0) then
    (put_account who (set_providers a 1) (on_created_account who s), Ok Created)
  else (put_account who (set_providers a (ref_inc (providers a))) s, Ok Existed).

Definition dec_providers who : M Runtime (DispatchError ME) DecRefStatus := λ s,
  match accounts s !! who with
  | Some a =>
      let p := if providers a =? 0 then 1 else providers a in
      if (p =? 1) && (consumers a =? 0) && (sufficients a =? 0) then
        (remove_account who (on_killed_account who s), Ok Reaped)
      else if (p =? 1) && (0 <? consumers a) then (s, Err ConsumerRemaining)
      else (put_account who (set_providers a (p - 1)) s, Ok Exists)
  | None => (s, Ok Reaped)
  end.

Definition inc_sufficients {E} who : M Runtime E IncRefStatus := λ s,
  let a := get_account s who in
  if wadd 32 (providers a) (sufficients a) =? 0 then
    (put_account who (set_sufficients a 1) (on_created_account who s), Ok Created)
  else (put_account who (set_sufficients a (ref_inc (sufficients a))) s, Ok Existed).

Definition dec_sufficients {E} who : M Runtime E DecRefStatus := λ s,
  match accounts s !! who with
  | Some a =>
      if ((sufficients a =? 0) || (sufficients a =? 1)) && (providers a =? 0) then
        (remove_account who (on_killed_account who s), Ok Reaped)
      else (put_account who (set_sufficients a (wsub 32 (sufficients a) 1)) s, Ok Exists)
  | None => (s, Ok Reaped)
  end.

(** The limit [T::MaxConsumers::max_consumers()]. *)
Variable max_consumers : Z.

Definition inc_consumers who : M Runtime (DispatchError ME) unit := λ s,
  let a := get_account s who in
  if 0 <? providers a then
    if consumers a <? max_consumers then
      (put_account who (set_consumers a (ref_inc (consumers a))) s, Ok tt)
    else (s, Err TooManyConsumers)
  else (s, Err NoProviders).

Definition inc_consumers_without_limit who : M Runtime (DispatchError ME) unit := λ s,
  let a := get_account s who in
  if 0 <? providers a then (put_account who (set_consumers a (ref_inc (consumers a))) s, Ok tt)
  else (s, Err NoProviders).

Definition dec_consumers {E} who : M Runtime E unit := λ s,
  let a := get_account s who in
  (put_account who (if 0 <? consumers a then set_consumers a (consumers a - 1) else a) s, Ok tt).

Definition can_dec_provider s who : bool :=
  let a := get_account s who in (consumers a =? 0) || (1 <? providers a).

Definition is_provider_required s who : bool := negb (consumers (get_account s who) =? 0).

Definition can_accrue_consumers s who (amount : Z) : bool :=
  let a := get_account s who in
  if consumers a + amount <=? ref_max then
    (0 <? providers a) && (consumers a + amount <=? max_consumers)
  else false.

Definition can_inc_consumer s who : bool := can_accrue_consumers s who 1.

(** ** [StoredMap<T::AccountId, T::AccountData>] *)

Definition stored_get s who : Data := acc_data (get_account s who).

(** [f] gets the data, [None] for the default, and returns what it left there. *)
Definition stored_try_mutate_exists {R E} who (f : option Data -> M Runtime E (R * option Data))
    : M Runtime E R := λ s,
  let data := stored_get s who in
  match f (if bool_decide (data = default_value) then None else Some data) s with
  | (s', Ok (r, some_data)) =>
      let a := get_account s' who in
      ((if (0 <? providers a) || (0 <? sufficients a)
        then put_account who (set_data a (default default_value some_data)) s'
        else remove_account who s'), Ok r)
  | (s', Err e) => (s', Err e)
  | (s', Panic) => (s', Panic)
  end.

Definition stored_mutate_exists {R E} who (f : option Data -> R * option Data) : M Runtime E R :=
  stored_try_mutate_exists who (λ d, retM (f d)).

(** [StoredMap::insert] *)
Definition stored_insert {E} who (d : Data) : M Runtime E unit :=
  stored_mutate_exists who (λ _, (tt, Some d)).

(** * The discipline of references *)

Inductive RefOp := IncProviders | DecProviders | IncSufficients | DecSufficients | IncConsumers | DecConsumers.

Definition run_ref (op : RefOp) who : M Runtime (DispatchError ME) unit :=
  match op with
  | IncProviders => let* _ := inc_providers who in retM tt
  | DecProviders => let* _ := dec_providers who in retM tt
  | IncSufficients => let* _ := inc_sufficients who in retM tt
  | DecSufficients => let* _ := dec_sufficients who in retM tt
  | IncConsumers => inc_consumers who
  | DecConsumers => dec_consumers who
  end.

(** The abstract view: how many references of each kind an account has. *)
Record Refs := mkRefs { n_consumers : Z; n_providers : Z; n_sufficients : Z }.

Definition refs_of s who : Refs :=
  let a := get_account s who in mkRefs (consumers a) (providers a) (sufficients a).

Definition bump (op : RefOp) (r : Refs) : Refs :=
  let '(mkRefs c p n) := r in
  match op with
  | IncProviders => mkRefs c (p + 1) n
  | DecProviders => mkRefs c (p - 1) n
  | IncSufficients => mkRefs c p (n + 1)
  | DecSufficients => mkRefs c p (n - 1)
  | IncConsumers => mkRefs (c + 1) p n
  | DecConsumers => mkRefs (c - 1) p n
  end.

Definition refs_ok (r : Refs) : Prop :=
  0 <= n_consumers r <= ref_max ∧ 0 <= n_providers r <= ref_max ∧ 0 <= n_sufficients r <= ref_max ∧
  (0 < n_consumers r → 0 < n_providers r).

(** Why an operation is refused: consumers need a provider, and are limited. *)
Definition refusal (op : RefOp) (r : Refs) : option (DispatchError ME) :=
  match op with
  | DecProviders =>
      if (n_providers r =? 1) && (0 <? n_consumers r) then Some ConsumerRemaining else None
  | IncConsumers =>
      if n_providers r =? 0 then Some NoProviders
      else if max_consumers <=? n_consumers r then Some TooManyConsumers else None
  | _ => None
  end.

(** A reference is given up only by who has one, and none is taken beyond the range of the
    counters; [inc_sufficients] adds the providers and sufficients up in a [u32]. *)
Definition disciplined (op : RefOp) (r : Refs) : Prop :=
  match op with
  | IncProviders => n_providers r < ref_max
  | DecProviders => 0 < n_providers r
  | IncSufficients => n_sufficients r < ref_max ∧ n_providers r + n_sufficients r <= ref_max
  | DecSufficients => 0 < n_sufficients r
  | IncConsumers => n_consumers r < ref_max
  | DecConsumers => 0 < n_consumers r
  end.

(** An account exists exactly while something provides for it. *)
Definition exists_iff s who : Prop :=
  is_Some (accounts s !! who) ↔ 0 < n_providers (refs_of s who) + n_sufficients (refs_of s who).

Definition system_ok s : Prop := ∀ who, refs_ok (refs_of s who) ∧ exists_iff s who.

Lemma refs_put who i s w :
  refs_of (put_account who i s) w =
  if decide (w = who) then mkRefs (consumers i) (providers i) (sufficients i) else refs_of s w.
Proof.
  unfold refs_of, get_account. cbn. case_decide as Hw; [subst w; by rewrite lookup_insert_eq|].
  by rewrite lookup_insert_ne.
Qed.

Lemma refs_remove who s w :
  refs_of (remove_account who s) w = if decide (w = who) then mkRefs 0 0 0 else refs_of s w.
Proof.
  unfold refs_of, get_account. cbn. case_decide as Hw; [subst w; by rewrite lookup_delete_eq|].
  by rewrite lookup_delete_ne.
Qed.

(** What writing or removing one account does to the abstract view. *)
Lemma system_put who i s s' :
  system_ok s → accounts s' = <[who := i]> (accounts s) →
  let r := mkRefs (consumers i) (providers i) (sufficients i) in
  refs_ok r → 0 < n_providers r + n_sufficients r →
  refs_of s' who = r ∧ system_ok s' ∧ ∀ w, w ≠ who → accounts s' !! w = accounts s !! w.
Proof.
  intros Hs Ha r Hr Hal.
  assert (Hrefs : ∀ w, refs_of s' w = refs_of (put_account who i s) w).
  { intros w. unfold refs_of, get_account. by rewrite Ha. }
  split; [by rewrite Hrefs, refs_put, decide_True by done|].
  split; [|intros w Hw; rewrite Ha; by apply lookup_insert_ne].
  intros w. unfold exists_iff. rewrite Hrefs, refs_put, Ha. case_decide as Hw.
  - subst w. rewrite lookup_insert_eq. split; [done|]. split; [done|]. intros _. by eexists.
  - rewrite lookup_insert_ne by done. apply Hs.
Qed.

Lemma system_remove who s s' :
  system_ok s → accounts s' = delete who (accounts s) →
  refs_of s' who = mkRefs 0 0 0 ∧ system_ok s' ∧ ∀ w, w ≠ who → accounts s' !! w = accounts s !! w.
Proof.
  intros Hs Ha.
  assert (Hrefs : ∀ w, refs_of s' w = refs_of (remove_account who s) w).
  { intros w. unfold refs_of, get_account. by rewrite Ha. }
  split; [by rewrite Hrefs, refs_remove, decide_True by done|].
  split; [|intros w Hw; rewrite Ha; by apply lookup_delete_ne].
  intros w. unfold exists_iff. rewrite Hrefs, refs_remove, Ha. case_decide as Hw.
  - subst w. rewrite lookup_delete_eq. split; [by unfold refs_ok, ref_max; cbn; lia|].
    split; [by intros [??]|cbn; lia].
  - rewrite lookup_delete_ne by done. apply Hs.
Qed.

(** A state that has the account has its references. *)
Lemma refs_present s who :
  system_ok s → 0 < n_providers (refs_of s who) + n_sufficients (refs_of s who) →
  ∃ i, accounts s !! who = Some i ∧ get_account s who = i.
Proof.
  intros Hs Hal. destruct (proj2 (proj2 (Hs who)) Hal) as [i Hi]. exists i. split; [done|].
  unfold get_account. by rewrite Hi.
Qed.

Lemma put_bump op who i s s0 :
  system_ok s → accounts s0 = accounts s →
  mkRefs (consumers i) (providers i) (sufficients i) = bump op (refs_of s who) →
  refs_ok (bump op (refs_of s who)) →
  0 < n_providers (bump op (refs_of s who)) + n_sufficients (bump op (refs_of s who)) →
  refs_of (put_account who i s0) who = bump op (refs_of s who) ∧ system_ok (put_account who i s0) ∧
  ∀ w, w ≠ who → accounts (put_account who i s0) !! w = accounts s !! w.
Proof.
  intros Hs Ha Hi Hr Hal. rewrite <- Hi in *. apply system_put; [done| |done|done]. cbn. by rewrite Ha.
Qed.

Lemma remove_bump op who s s0 :
  system_ok s → accounts s0 = accounts s → bump op (refs_of s who) = mkRefs 0 0 0 →
  refs_of (remove_account who s0) who = bump op (refs_of s who) ∧ system_ok (remove_account who s0) ∧
  ∀ w, w ≠ who → accounts (remove_account who s0) !! w = accounts s !! w.
Proof. intros Hs Ha ->. apply system_remove; [done|]. cbn. by rewrite Ha. Qed.

Ltac written :=
  split; [reflexivity|];
  (apply put_bump || apply remove_bump);
  [assumption|reflexivity|..];
  repeat match goal with Hx : refs_of _ _ = _ |- _ => rewrite Hx end;
  unfold refs_ok, ref_inc, ref_max in *; cbn; try f_equal; lia.

(** [C25] The counters of an account count: with references given up only by who holds
    them, and none taken beyond the range of the [u32] counters (for a sufficient reference:
    of providers and sufficients together), every operation changes its counter by exactly
    one and nothing else, or is refused with the state left as it was, which happens exactly
    when the last provider would go while consumers remain, or when a consumer finds no
    provider or no room.  An account exists exactly while a provider or a sufficient
    reference keeps it, and consumers always have a provider. *)
Theorem reference_counting op who s :
  system_ok s → disciplined op (refs_of s who) →
  match run_ref op who s with
  | (s', Ok _) => refusal op (refs_of s who) = None ∧ refs_of s' who = bump op (refs_of s who) ∧
      system_ok s' ∧ ∀ w, w ≠ who → accounts s' !! w = accounts s !! w
  | (s', Err e) => s' = s ∧ refusal op (refs_of s who) = Some e
  | (_, Panic) => False
  end.
Proof.
  intros Hs Hd. pose proof (Hs who) as [Hr _]. pose proof (refs_present s who Hs) as Hpres.
  remember (get_account s who) as a eqn:Hga.
  assert (Hra : refs_of s who = mkRefs (consumers a) (providers a) (sufficients a)) by (by rewrite Hga).
  rewrite Hra in Hr, Hd, Hpres. destruct Hr as (Hc & Hp & Hn & Hcp).
  cbn [n_providers n_sufficients n_consumers] in *.
  assert (Href : refusal op (refs_of s who) = refusal op (mkRefs (consumers a) (providers a) (sufficients a)))
    by (by rewrite Hra). rewrite Href. clear Href.
  destruct op; cbn [disciplined n_providers n_sufficients n_consumers] in Hd;
    cbn [run_ref refusal n_providers n_consumers n_sufficients].
  - unfold bindM, inc_providers, retM. rewrite <- Hga.
    destruct (Z.eqb_spec (providers a) 0), (Z.eqb_spec (sufficients a) 0); cbn [andb]; written.
  - unfold bindM, dec_providers. destruct Hpres as (i & Hi & Hai); [lia|]. rewrite Hi, <- Hai.
    rewrite (proj2 (Z.eqb_neq (providers a) 0)) by lia.
    destruct (Z.eqb_spec (providers a) 1), (Z.eqb_spec (consumers a) 0), (Z.eqb_spec (sufficients a) 0),
      (Z.ltb_spec 0 (consumers a)); cbn [andb]; try lia; try done; written.
  - unfold bindM, inc_sufficients, retM. rewrite <- Hga.
    rewrite wadd_small by (unfold in_range, ref_max in *; lia).
    destruct (Z.eqb_spec (providers a + sufficients a) 0); written.
  - unfold bindM, dec_sufficients. destruct Hpres as (i & Hi & Hai); [lia|]. rewrite Hi, <- Hai.
    rewrite (proj2 (Z.eqb_neq (sufficients a) 0)) by lia. cbn [orb].
    rewrite wsub_small by (unfold in_range, ref_max in *; lia).
    destruct (Z.eqb_spec (sufficients a) 1), (Z.eqb_spec (providers a) 0); cbn [andb]; try lia; written.
  - unfold inc_consumers. rewrite <- Hga. destruct (Z.eqb_spec (providers a) 0) as [->|].
    { by rewrite Z.ltb_irrefl. }
    rewrite (proj2 (Z.ltb_lt 0 (providers a))) by lia.
    destruct (Z.ltb_spec (consumers a) max_consumers).
    + rewrite (proj2 (Z.leb_gt max_consumers (consumers a))) by lia. written.
    + by rewrite (proj2 (Z.leb_le max_consumers (consumers a))) by lia.
  - unfold dec_consumers. rewrite <- Hga. rewrite (proj2 (Z.ltb_lt 0 (consumers a))) by lia. written.
Qed.

(** When providers and sufficients add up to [2^32], [inc_sufficients] takes the account for
    a new one: all sufficient references but one are forgotten. *)
Theorem inc_sufficients_forgets {E : Type} who s :
  n_providers (refs_of s who) + n_sufficients (refs_of s who) = 2 ^ 32 →
  ∃ s', inc_sufficients (E:=E) who s = (s', Ok Created) ∧ n_sufficients (refs_of s' who) = 1.
Proof.
  intros Hsum. cbn in Hsum. unfold inc_sufficients, wadd, wrap. rewrite Hsum. eexists. split; [done|].
  rewrite refs_put, decide_True by done. done.
Qed.

End system.

(** * Examples *)

#[local] Instance demo_default : Default Z := 0.

Definition demo_system : Runtime Z Z unit := mkRuntime {[1 := mkAccountInfo 0 1 1 0 5]} [] tt.

Lemma demo_system_ok : system_ok demo_system.
Proof.
  intros who. destruct (decide (who = 1)) as [->|Hw].
  - assert (Hr : refs_of demo_system 1 = mkRefs 1 1 0) by (by vm_compute).
    unfold exists_iff. rewrite Hr. split; [unfold refs_ok, ref_max; cbn; lia|]. split; [intros _; by vm_compute|intros _; by eexists].
  - unfold refs_ok, exists_iff, refs_of, get_account, ref_max. cbn [accounts demo_system].
    rewrite lookup_singleton_ne by done. cbn. split; [lia|]. split; [by intros [??]|lia].
Qed.

(** The last provider cannot go while there is a consumer; without it, the account goes. *)
Lemma reference_counting_witness :
  (run_ref (ME:=unit) 16 DecProviders 1 demo_system).2 = Err ConsumerRemaining ∧
  refs_of (run_ref (ME:=unit) 16 DecConsumers 1 demo_system).1 1 = mkRefs 0 1 0.
Proof.
  split.
  - pose proof (reference_counting (ME:=unit) 16 DecProviders 1 demo_system demo_system_ok ltac:(done)) as Hr.
    destruct (run_ref 16 DecProviders 1 demo_system) as [s' [v|e|]]; [|by destruct Hr as [_ [= <-]]|done].
    by destruct Hr.
  - pose proof (reference_counting (ME:=unit) 16 DecConsumers 1 demo_system demo_system_ok ltac:(done)) as Hr.
    destruct (run_ref 16 DecConsumers 1 demo_system) as [s' [v|e|]]; [|by destruct Hr|done].
    destruct Hr as (_ & Hb & _). exact Hb.
Defined.
