(* ===== verification/Balances.v ===== *)
(** The balances pallet: accounts, fungible tokens, holds and freezes
    (frame/balances/src/lib.rs, types.rs, impl_fungible.rs) with the provided
    methods of the token traits (frame/support/src/traits/tokens).

    Balances are [balance_width]-bit unsigned integers; plain [+] and [-] wrap and
    [debug_assert!] does nothing, as in a release build.  [T::AccountStore] is the
    system pallet. *)

From stdpp Require Import base numbers list option gmap sets fin_maps.
From S2P Require Import Prelude System.

Local Open Scope Z_scope.
Local Open Scope rust_scope.

(** * Configuration and data *)

(** The constants of [Config]. *)
Class Config := {
  existential_deposit : Z;
  balance_width : Z;
  max_consumers : Z;
  max_locks : nat;
  max_reserves : nat;
  max_holds : nat;
  max_freezes : nat;
}.

(** Identifiers are integers; the pallet compares them only. *)
Abbreviation Ident := Z.

Record AccountData := mkAccountData {
  free : Z;
  reserved : Z;
  frozen : Z;
  flags : Z;
}.

#[global] Instance AccountData_eq_dec : EqDecision AccountData.
Proof. solve_decision. Defined.

(** [ExtraFlags] *)
Definition IS_NEW_LOGIC : Z := Z.shiftl 1 127.
Definition set_new_logic (f : Z) : Z := Z.lor f IS_NEW_LOGIC.
Definition is_new_logic (f : Z) : bool := Z.land f IS_NEW_LOGIC =? IS_NEW_LOGIC.

#[global] Instance AccountData_default : Default AccountData := mkAccountData 0 0 0 IS_NEW_LOGIC.

Inductive Reasons := Fee | Misc | All.

Record BalanceLock := mkLock { lock_id : Ident; lock_amount : Z; lock_reasons : Reasons }.

(** [IdAmount], and [ReserveData] of the same shape. *)
Record IdAmount := mkIdAmount { id : Ident; amount : Z }.

Inductive Provenance := Minted | Extant.
Inductive Restriction := Free | OnHold.
Inductive Preservation := Expendable | Protect | Preserve.
Inductive Fortitude := Polite | Force.
Inductive Precision := Exact | BestEffort.
Inductive Status := StatusFree | StatusReserved.

Inductive WithdrawConsequence :=
| WithdrawBalanceLow
| WithdrawWouldDie
| WithdrawUnknownAsset
| WithdrawUnderflow
| WithdrawOverflow
| WithdrawFrozen
| WithdrawReducedToZero (b : Z)
| WithdrawSuccess.

Inductive DepositConsequence :=
| DepositBelowMinimum
| DepositCannotCreate
| DepositUnknownAsset
| DepositOverflow
| DepositSuccess
| DepositBlocked.

(** [Error<T, I>] of the pallet. *)
Inductive BalancesError :=
| VestingBalance
| LiquidityRestrictions
| InsufficientBalance
| ErrExistentialDeposit
| Expendability
| ExistingVestingSchedule
| DeadAccount
| TooManyReserves
| TooManyHolds
| TooManyFreezes.

Abbreviation Error := (DispatchError BalancesError).

Definition withdraw_into_result (c : WithdrawConsequence) (keep_nonzero : bool) : res Error Z :=
  match c with
  | WithdrawBalanceLow => Err (Token FundsUnavailable)
  | WithdrawWouldDie => Err (Token OnlyProvider)
  | WithdrawUnknownAsset => Err (Token UnknownAsset)
  | WithdrawUnderflow => Err (Arithmetic Underflow)
  | WithdrawOverflow => Err (Arithmetic Overflow)
  | WithdrawFrozen => Err (Token Frozen)
  | WithdrawReducedToZero result => if keep_nonzero then Err (Token NotExpendable) else Ok result
  | WithdrawSuccess => Ok 0
  end.

Definition deposit_into_result (c : DepositConsequence) : res Error unit :=
  match c with
  | DepositBelowMinimum => Err (Token BelowMinimum)
  | DepositCannotCreate => Err (Token CannotCreate)
  | DepositUnknownAsset => Err (Token UnknownAsset)
  | DepositOverflow => Err (Arithmetic Overflow)
  | DepositBlocked => Err (Token Blocked)
  | DepositSuccess => Ok tt
  end.

#[global] Instance Provenance_eq_dec : EqDecision Provenance.
Proof. solve_decision. Defined.
#[global] Instance Restriction_eq_dec : EqDecision Restriction.
Proof. solve_decision. Defined.
#[global] Instance Preservation_eq_dec : EqDecision Preservation.
Proof. solve_decision. Defined.
#[global] Instance Fortitude_eq_dec : EqDecision Fortitude.
Proof. solve_decision. Defined.
#[global] Instance Precision_eq_dec : EqDecision Precision.
Proof. solve_decision. Defined.
#[global] Instance DepositConsequence_eq_dec : EqDecision DepositConsequence.
Proof. solve_decision. Defined.
#[global] Instance Reasons_eq_dec : EqDecision Reasons.
Proof. solve_decision. Defined.

Inductive Event (AccountId : Type) :=
| Endowed (account : AccountId) (free_balance : Z)
| DustLost (account : AccountId) (amount : Z)
| Transfer (from to : AccountId) (amount : Z)
| BalanceSet (who : AccountId) (free : Z)
| Reserved (who : AccountId) (amount : Z)
| Unreserved (who : AccountId) (amount : Z)
| ReserveRepatriated (from to : AccountId) (amount : Z) (destination_status : Status)
| Deposit (who : AccountId) (amount : Z)
| Withdraw (who : AccountId) (amount : Z)
| Slashed (who : AccountId) (amount : Z)
| MintedInto (who : AccountId) (amount : Z)
| Burned (who : AccountId) (amount : Z)
| Suspended (who : AccountId) (amount : Z)
| Restored (who : AccountId) (amount : Z)
| Upgraded (who : AccountId)
| Issued (amount : Z)
| Rescinded (amount : Z)
| Locked (who : AccountId) (amount : Z)
| Unlocked (who : AccountId) (amount : Z)
| FrozenEvent (who : AccountId) (amount : Z)
| Thawed (who : AccountId) (amount : Z).
Arguments Endowed {_} _ _.
Arguments DustLost {_} _ _.
Arguments Transfer {_} _ _ _.
Arguments BalanceSet {_} _ _.
Arguments Reserved {_} _ _.
Arguments Unreserved {_} _ _.
Arguments ReserveRepatriated {_} _ _ _ _.
Arguments Deposit {_} _ _.
Arguments Withdraw {_} _ _.
Arguments Slashed {_} _ _.
Arguments MintedInto {_} _ _.
Arguments Burned {_} _ _.
Arguments Suspended {_} _ _.
Arguments Restored {_} _ _.
Arguments Upgraded {_} _.
Arguments Issued {_} _.
Arguments Rescinded {_} _.
Arguments Locked {_} _ _.
Arguments Unlocked {_} _ _.
Arguments FrozenEvent {_} _ _.
Arguments Thawed {_} _ _.

(** The storage items of the pallet, and its events. *)
Record Storage (AccountId : Type) `{Countable AccountId} := mkStorage {
  TotalIssuance : Z;
  InactiveIssuance : Z;
  Locks : gmap AccountId (list BalanceLock);
  Reserves : gmap AccountId (list IdAmount);
  Holds : gmap AccountId (list IdAmount);
  Freezes : gmap AccountId (list IdAmount);
  events : list (Event AccountId);
}.
Arguments mkStorage {_ _ _} _ _ _ _ _ _ _.
Arguments TotalIssuance {_ _ _} _.
Arguments InactiveIssuance {_ _ _} _.
Arguments Locks {_ _ _} _.
Arguments Reserves {_ _ _} _.
Arguments Holds {_ _ _} _.
Arguments Freezes {_ _ _} _.
Arguments events {_ _ _} _.

(** The handler for dust, [T::DustRemoval::on_unbalanced], of a credit. *)
Class DustRemoval (AccountId : Type) `{Countable AccountId} :=
  on_unbalanced : Z -> Runtime AccountId AccountData (Storage AccountId) ->
                  Runtime AccountId AccountData (Storage AccountId).

(** * The pallet *)

Section pallet.
Context `{!Config} {AccountId : Type} `{Countable AccountId} `{!DustRemoval AccountId}.

Abbreviation State := (Runtime AccountId AccountData (Storage AccountId)).
Implicit Types (s : State) (who : AccountId).

Definition ed : Z := existential_deposit.

(** Arithmetic on balances. *)
Abbreviation sat_add := (saturating_add balance_width).
Abbreviation sat_sub := saturating_sub.
Abbreviation add_checked := (checked_add balance_width).
Abbreviation sub_b := (wsub balance_width).

Definition set_free (a : AccountData) v := mkAccountData v (reserved a) (frozen a) (flags a).
Definition set_reserved (a : AccountData) v := mkAccountData (free a) v (frozen a) (flags a).
Definition set_frozen (a : AccountData) v := mkAccountData (free a) (reserved a) v (flags a).
Definition set_flags (a : AccountData) v := mkAccountData (free a) (reserved a) (frozen a) v.

Definition usable (a : AccountData) : Z := sat_sub (free a) (frozen a).
Definition total (a : AccountData) : Z := sat_add (free a) (reserved a).

(** Storage access. *)
Definition with_pallet s p : State := mkRuntime (accounts s) (system_events s) p.
Definition put_issuance v s : State :=
  let p := pallet s in
  with_pallet s (mkStorage v (InactiveIssuance p) (Locks p) (Reserves p) (Holds p) (Freezes p) (events p)).
Definition put_inactive v s : State :=
  let p := pallet s in
  with_pallet s (mkStorage (TotalIssuance p) v (Locks p) (Reserves p) (Holds p) (Freezes p) (events p)).
Definition put_locks m s : State :=
  let p := pallet s in
  with_pallet s
    (mkStorage (TotalIssuance p) (InactiveIssuance p) m (Reserves p) (Holds p) (Freezes p) (events p)).
Definition put_reserves m s : State :=
  let p := pallet s in
  with_pallet s
    (mkStorage (TotalIssuance p) (InactiveIssuance p) (Locks p) m (Holds p) (Freezes p) (events p)).
Definition put_holds m s : State :=
  let p := pallet s in
  with_pallet s
    (mkStorage (TotalIssuance p) (InactiveIssuance p) (Locks p) (Reserves p) m (Freezes p) (events p)).
Definition put_freezes m s : State :=
  let p := pallet s in
  with_pallet s
    (mkStorage (TotalIssuance p) (InactiveIssuance p) (Locks p) (Reserves p) (Holds p) m (events p)).
Definition push_event e s : State :=
  let p := pallet s in
  with_pallet s
    (mkStorage (TotalIssuance p) (InactiveIssuance p) (Locks p) (Reserves p) (Holds p) (Freezes p)
       (events p ++ [e])).

Definition deposit_event {E} (e : Event AccountId) : M State E unit := modifyM (push_event e).

Definition whenM {E} (b : bool) (c : M State E unit) : M State E unit := if b then c else retM tt.

(** [let _ = c;] for a fallible [c] *)
Definition ignoreM {E E' A} (c : M State E A) : M State E' unit := λ s,
  match c s with
  | (s', Panic) => (s', Panic)
  | (s', _) => (s', Ok tt)
  end.

(** [match c { Ok(x) => .., Err(e) => .. }] *)
Definition attemptM {E E' A} (c : M State E A) : M State E' (E + A) := λ s,
  match c s with
  | (s', Ok a) => (s', Ok (inr a))
  | (s', Err e) => (s', Ok (inl e))
  | (s', Panic) => (s', Panic)
  end.

Definition ensure (b : bool) (e : Error) : res Error unit := if b then Ok tt else Err e.
Definition ok_or {A} (o : option A) (e : Error) : res Error A :=
  match o with Some a => Ok a | None => Err e end.

(** ** Accounts *)

Definition account s who : AccountData := stored_get s who.
Definition free_balance s who : Z := free (account s who).
Definition reserved_balance s who : Z := reserved (account s who).
Definition providers_of s who : Z := providers (get_account s who).

Definition ensure_upgraded {E} who : M State E bool := λ s,
  let a := account s who in
  if is_new_logic (flags a) then (s, Ok false)
  else
    let a := set_flags a (set_new_logic (flags a)) in
    let no_refs := negb (reserved a =? 0) && (frozen a =? 0) in
    let a' := if no_refs && (providers_of s who =? 0) then set_free a (Z.max (free a) ed) else a in
    (whenM (no_refs && (providers_of s who =? 0)) (let* _ := inc_providers who in retM tt);;;
     whenM no_refs (ignoreM (inc_consumers_without_limit (ME:=BalancesError) who));;;
     stored_try_mutate_exists who (λ _, retM (tt, Some a'));;;
     deposit_event (Upgraded who);;;
     retM true) s.

(** The feature [insecure_zero_ed] is off. *)
Definition have_providers_or_no_zero_ed who : bool := true.

Definition consumes (a : AccountData) : bool := negb (reserved a =? 0) || negb (frozen a =? 0).

(** [dec_providers(who).map_err(..)?] *)
Definition dec_providers_or_revert who (did_consume does_consume : bool) : M State Error unit := λ s,
  match dec_providers (ME:=BalancesError) who s with
  | (s', Err r) =>
      (whenM (did_consume && negb does_consume) (ignoreM (inc_consumers (ME:=BalancesError) max_consumers who));;;
       whenM (negb did_consume && does_consume) (dec_consumers who);;;
       errM r) s'
  | (s', Ok _) => (s', Ok tt)
  | (s', Panic) => (s', Panic)
  end.

(** The reference counters after a change of the account. *)
Definition update_refs who (did_provide does_provide did_consume does_consume : bool)
    : M State Error unit :=
  whenM (negb did_provide && does_provide) (let* _ := inc_providers who in retM tt);;;
  whenM (did_consume && negb does_consume) (dec_consumers who);;;
  whenM (negb did_consume && does_consume) (inc_consumers max_consumers who);;;
  whenM (did_provide && negb does_provide) (dec_providers_or_revert who did_consume does_consume).

(** The part of [try_mutate_account] inside the [AccountStore]. *)
Definition mutate_stored {R} who (f : AccountData -> bool -> M State Error (R * AccountData))
    (maybe_account : option AccountData)
    : M State Error ((option Z * option Z * R) * option AccountData) :=
  let is_new := bool_decide (maybe_account = None) in
  let account := default default_value maybe_account in
  let did_provide := (ed <=? free account) && have_providers_or_no_zero_ed who in
  let did_consume := negb is_new && consumes account in
  let* result := f account is_new in
  let r := result.1 in
  let account := result.2 in
  update_refs who did_provide (ed <=? free account) did_consume (consumes account);;;
  let maybe_endowed := if is_new then Some (free account) else None in
  if (free account <? ed) && (reserved account =? 0) then
    retM (maybe_endowed, (if free account =? 0 then None else Some (free account)), r, None)
  else if (free account =? 0) || (ed <=? free account) || negb (reserved account =? 0) then
    retM (maybe_endowed, None, r, Some account)
  else panicM.

Definition on_some {E A} (o : option A) (c : A -> M State E unit) : M State E unit :=
  match o with Some a => c a | None => retM tt end.

(** [f] gets the account and whether it is new, and returns what it leaves. *)
Definition try_mutate_account {R} who (f : AccountData -> bool -> M State Error (R * AccountData))
    : M State Error (R * option Z) :=
  let* _ := ensure_upgraded who in
  let* result := stored_try_mutate_exists who (mutate_stored who f) in
  on_some result.1.1 (λ endowed, deposit_event (Endowed who endowed));;;
  on_some result.1.2 (λ amount, deposit_event (DustLost who amount));;;
  retM (result.2, result.1.2).

Definition mutate_account {R} who (f : AccountData -> R * AccountData)
    : M State Error (R * option Z) :=
  try_mutate_account who (λ a _, retM (f a)).

Definition handle_dust {E} (dust : Z) : M State E unit := modifyM (on_unbalanced dust).

Definition handle_raw_dust {E} (amount : Z) : M State E unit :=
  handle_dust (Z.min amount (sat_sub ed 1)).

Definition mutate_account_handling_dust {R} who (f : AccountData -> R * AccountData)
    : M State Error R :=
  let* p := mutate_account who f in
  on_some p.2 handle_raw_dust;;; retM p.1.

Definition try_mutate_account_handling_dust {R} who
    (f : AccountData -> bool -> M State Error (R * AccountData)) : M State Error R :=
  let* p := try_mutate_account who f in
  on_some p.2 handle_raw_dust;;; retM p.1.

(** ** [fungible::Inspect] *)

Definition total_issuance s : Z := TotalIssuance (pallet s).
Definition active_issuance s : Z := sat_sub (total_issuance s) (InactiveIssuance (pallet s)).
Definition minimum_balance : Z := existential_deposit.
Definition total_balance s who : Z := total (account s who).
Definition balance s who : Z := free (account s who).

Definition reducible_balance s who (preservation : Preservation) (force : Fortitude) : Z :=
  let a := account s who in
  let untouchable := if bool_decide (force = Polite) then sat_sub (frozen a) (reserved a) else 0 in
  let untouchable :=
    if bool_decide (preservation = Preserve)
       || (bool_decide (preservation = Protect) && negb (free a =? 0) && (providers_of s who =? 1))
       || (bool_decide (preservation = Expendable) && negb (free a =? 0)
           && negb (can_dec_provider s who))
    then Z.max untouchable existential_deposit else untouchable in
  sat_sub (free a) untouchable.

Definition usable_balance s who : Z := reducible_balance s who Expendable Polite.
Definition usable_balance_for_fees s who : Z := reducible_balance s who Protect Polite.

Definition can_deposit s who (amount : Z) (provenance : Provenance) : DepositConsequence :=
  if amount =? 0 then DepositSuccess
  else if bool_decide (provenance = Minted)
          && bool_decide (add_checked (total_issuance s) amount = None) then DepositOverflow
  else
    let account := account s who in
    match add_checked (free account) amount with
    | None => DepositOverflow
    | Some new_free =>
        if new_free <? existential_deposit then DepositBelowMinimum
        else match add_checked (reserved account) new_free with
             | Some _ => DepositSuccess
             | None => DepositOverflow
             end
    end.

Definition can_withdraw s who (amount : Z) : WithdrawConsequence :=
  if amount =? 0 then WithdrawSuccess
  else if bool_decide (checked_sub (total_issuance s) amount = None) then WithdrawUnderflow
  else
    let account := account s who in
    match checked_sub (free account) amount with
    | None => WithdrawBalanceLow
    | Some new_free_balance =>
        if reducible_balance s who Expendable Polite <? amount then WithdrawFrozen
        else
          let new_total_balance := sat_add new_free_balance (reserved account) in
          let finish success :=
            if new_total_balance <? frozen account then WithdrawFrozen else success in
          if new_free_balance <? existential_deposit then
            if can_dec_provider s who then finish (WithdrawReducedToZero new_free_balance)
            else WithdrawWouldDie
          else finish WithdrawSuccess
    end.

(** ** [fungible::Unbalanced] *)

(** The closure returns the error as a value: the account is stored as it was. *)
Definition write_balance who (amount : Z) : M State Error (option Z) :=
  let* s := getM in
  let max_reduction := reducible_balance s who Expendable Force in
  let* p := mutate_account who (λ account,
    if sat_sub (free account) amount <=? max_reduction then (Ok tt, set_free account amount)
    else (Err (Module InsufficientBalance), account)) in
  let* _ := liftM p.1 in
  retM p.2.

Definition set_total_issuance {E} (amount : Z) : M State E unit := modifyM (put_issuance amount).

Definition deactivate {E} (amount : Z) : M State E unit :=
  modifyM (λ s, put_inactive (sat_add (InactiveIssuance (pallet s)) amount) s).

Definition reactivate {E} (amount : Z) : M State E unit :=
  modifyM (λ s, put_inactive (sat_sub (InactiveIssuance (pallet s)) amount) s).

Definition decrease_balance who (amount : Z) (precision : Precision) (preservation : Preservation)
    (force : Fortitude) : M State Error Z :=
  let* s := getM in
  let old_balance := balance s who in
  let free := reducible_balance s who preservation force in
  let amount := match precision with BestEffort => Z.min amount free | Exact => amount end in
  let* new_balance := liftM (ok_or (checked_sub old_balance amount) (Token FundsUnavailable)) in
  let* dust := write_balance who new_balance in
  on_some dust handle_dust;;;
  retM (sat_sub old_balance new_balance).

Definition increase_balance who (amount : Z) (precision : Precision) : M State Error Z :=
  let* s := getM in
  let old_balance := balance s who in
  let* new_balance :=
    liftM match precision with
          | BestEffort => Ok (sat_add old_balance amount)
          | Exact => ok_or (add_checked old_balance amount) (Arithmetic Overflow)
          end in
  if new_balance <? minimum_balance then
    match precision with
    | BestEffort => retM 0
    | Exact => errM (Token BelowMinimum)
    end
  else if new_balance =? old_balance then retM 0
  else
    let* dust := write_balance who new_balance in
    on_some dust handle_dust;;;
    retM (sat_sub new_balance old_balance).

(** ** [fungible::Mutate] *)

Definition mint_into who (amount : Z) : M State Error Z :=
  let* s := getM in
  let* _ := liftM (ok_or (add_checked (total_issuance s) amount) (Arithmetic Overflow)) in
  let* actual := increase_balance who amount Exact in
  let* s := getM in
  set_total_issuance (sat_add (total_issuance s) actual);;;
  deposit_event (MintedInto who amount);;;
  retM actual.

Definition burn_from who (amount : Z) (precision : Precision) (force : Fortitude)
    : M State Error Z :=
  let* s := getM in
  let actual := Z.min (reducible_balance s who Expendable force) amount in
  liftM (ensure ((actual =? amount) || bool_decide (precision = BestEffort))
           (Token FundsUnavailable));;;
  let* _ := liftM (ok_or (checked_sub (total_issuance s) actual) (Arithmetic Overflow)) in
  let* actual := decrease_balance who actual BestEffort Expendable force in
  let* s := getM in
  set_total_issuance (sat_sub (total_issuance s) actual);;;
  deposit_event (Burned who actual);;;
  retM actual.

Definition shelve who (amount : Z) : M State Error Z :=
  let* s := getM in
  let actual := Z.min (reducible_balance s who Expendable Polite) amount in
  liftM (ensure (actual =? amount) (Token FundsUnavailable));;;
  let* _ := liftM (ok_or (checked_sub (total_issuance s) actual) (Arithmetic Overflow)) in
  let* actual := decrease_balance who actual BestEffort Expendable Polite in
  let* s := getM in
  set_total_issuance (sat_sub (total_issuance s) actual);;;
  deposit_event (Suspended who actual);;;
  retM actual.

Definition restore who (amount : Z) : M State Error Z :=
  let* s := getM in
  let* _ := liftM (ok_or (add_checked (total_issuance s) amount) (Arithmetic Overflow)) in
  let* actual := increase_balance who amount Exact in
  let* s := getM in
  set_total_issuance (sat_add (total_issuance s) actual);;;
  deposit_event (Restored who amount);;;
  retM actual.

Definition transfer (source dest : AccountId) (amount : Z) (preservation : Preservation)
    : M State Error Z :=
  let* s := getM in
  let* _ := liftM (withdraw_into_result (can_withdraw s source amount)
                     (bool_decide (preservation ≠ Expendable))) in
  liftM (deposit_into_result (can_deposit s dest amount Extant));;;
  let* _ := decrease_balance source amount BestEffort preservation Polite in
  ignoreM (increase_balance dest amount BestEffort);;;
  deposit_event (Transfer source dest amount);;;
  retM amount.

Definition set_balance {E} who (amount : Z) : M State E Z :=
  let* s := getM in
  let b := balance s who in
  let* r :=
    if amount <? b then
      attemptM (let* d := burn_from who (sub_b b amount) BestEffort Force in retM (sat_sub b d))
    else attemptM (let* d := mint_into who (sub_b amount b) in retM (sat_add b d)) in
  retM match r with inr v => v | inl _ => b end.

(** ** Imbalances

    A [Credit] is an amount missing from the accounts, a [Debt] one missing from the
    issuance; they are opposite kinds of imbalance. *)

(** [Drop] of a credit ([DecreaseIssuance]) and of a debt ([IncreaseIssuance]). *)
Definition drop_credit {E} (amount : Z) : M State E unit :=
  let* s := getM in
  whenM (negb (amount =? 0)) (set_total_issuance (sat_sub (total_issuance s) amount)).

Definition drop_debt {E} (amount : Z) : M State E unit :=
  let* s := getM in
  whenM (negb (amount =? 0)) (set_total_issuance (sat_add (total_issuance s) amount)).

Definition imbalance_split (self amount : Z) : Z * Z :=
  let first := Z.min self amount in (first, sub_b self first).
Definition imbalance_merge (self other : Z) : Z := sat_add self other.

Inductive SameOrOther := NoImbalance | Same (a : Z) | Other (b : Z).

Definition imbalance_offset (a b : Z) : SameOrOther :=
  if a =? b then NoImbalance else if b <? a then Same (sub_b a b) else Other (sub_b b a).

(** ** [fungible::Balanced] *)

Definition rescind {E} (amount : Z) : M State E Z :=
  let* s := getM in
  let old := total_issuance s in
  let new := sat_sub old amount in
  set_total_issuance new;;;
  deposit_event (Rescinded (sub_b old new));;;
  retM (sub_b old new).

Definition issue {E} (amount : Z) : M State E Z :=
  let* s := getM in
  let old := total_issuance s in
  let new := sat_add old amount in
  set_total_issuance new;;;
  deposit_event (Issued (sub_b new old));;;
  retM (sub_b new old).

Definition pair {E} (amount : Z) : M State E (Z * Z) :=
  let* debt := rescind amount in
  let* credit := issue amount in
  retM (debt, credit).

Definition deposit who (value : Z) (precision : Precision) : M State Error Z :=
  let* increase := increase_balance who value precision in
  deposit_event (Deposit who increase);;;
  retM increase.

Definition withdraw who (value : Z) (precision : Precision) (preservation : Preservation)
    (force : Fortitude) : M State Error Z :=
  let* decrease := decrease_balance who value precision preservation force in
  deposit_event (Withdraw who decrease);;;
  retM decrease.

(** [Err] gives the credit back. *)
Definition resolve who (credit : Z) : M State Z unit :=
  let* r := attemptM (deposit who credit Exact) in
  match r with
  | inl _ => errM credit
  | inr debt =>
      match imbalance_offset credit debt with
      | NoImbalance => retM tt
      | Same a => drop_credit a
      | Other b => drop_debt b
      end
  end.

(** [Err] gives a debt back. *)
Definition settle who (debt : Z) (preservation : Preservation) : M State Z Z :=
  let* r := attemptM (withdraw who debt Exact preservation Polite) in
  match r with
  | inl _ => errM debt
  | inr credit =>
      match imbalance_offset credit debt with
      | NoImbalance => retM 0
      | Same dust => retM dust
      | Other rest => errM rest
      end
  end.

(** ** Holds *)

Definition find_id (i : Ident) (l : list IdAmount) : option IdAmount :=
  List.find (λ x, id x =? i) l.

(** The first entry with the identifier gets the amount. *)
Fixpoint update_id (i : Ident) (v : Z) (l : list IdAmount) : list IdAmount :=
  match l with
  | [] => []
  | x :: l => if id x =? i then mkIdAmount (id x) v :: l else x :: update_id i v l
  end.

Definition try_push (bound : nat) (x : IdAmount) (l : list IdAmount) : option (list IdAmount) :=
  if (length l <? bound)%nat then Some (l ++ [x]) else None.

Definition holds_of s who : list IdAmount := default [] (Holds (pallet s) !! who).
Definition freezes_of s who : list IdAmount := default [] (Freezes (pallet s) !! who).
Definition locks_of s who : list BalanceLock := default [] (Locks (pallet s) !! who).

Definition total_balance_on_hold s who : Z := reserved (account s who).

Definition reducible_total_balance_on_hold s who (force : Fortitude) : Z :=
  let a := account s who in
  let unavailable := if bool_decide (force = Force) then 0 else sat_sub (frozen a) (free a) in
  sat_sub (reserved a) unavailable.

Definition balance_on_hold s (reason : Ident) who : Z :=
  match find_id reason (holds_of s who) with Some x => amount x | None => 0 end.

Definition hold_available s (reason : Ident) who : bool :=
  if providers_of s who =? 0 then false
  else
    let holds := holds_of s who in
    negb ((max_holds <=? length holds)%nat && negb (existsb (λ x, id x =? reason) holds)).

Definition ensure_can_hold s (reason : Ident) who (amount : Z) : res Error unit :=
  let? _ := ensure (hold_available s reason who) (Token CannotCreateHold) in
  ensure (amount <=? reducible_balance s who Protect Force) (Token FundsUnavailable).

Definition can_hold s (reason : Ident) who (amount : Z) : bool :=
  match ensure_can_hold s reason who amount with Ok _ => true | _ => false end.

(** The holds after setting one, and by how much and which way the total changes. *)
Definition update_holds (reason : Ident) (amt : Z) (holds : list IdAmount)
    : res Error (list IdAmount * Z * bool) :=
  match find_id reason holds with
  | Some item =>
      Ok (List.filter (λ x, negb (amount x =? 0)) (update_id reason amt holds),
          sub_b (Z.max (amount item) amt) (Z.min (amount item) amt), amount item <? amt)
  | None =>
      if amt =? 0 then Ok (holds, amt, true)
      else
        let? holds := ok_or (try_push max_holds (mkIdAmount reason amt) holds)
                        (Module TooManyHolds) in
        Ok (holds, amt, true)
  end.

Definition set_balance_on_hold (reason : Ident) who (amount : Z) : M State Error unit :=
  let* s := getM in
  let new_account := account s who in
  let* u := liftM (update_holds reason amount (holds_of s who)) in
  let holds := u.1.1 in
  let delta := u.1.2 in
  let* new_reserved :=
    liftM (if u.2 : bool
           then ok_or (add_checked (reserved new_account) delta) (Arithmetic Overflow)
           else ok_or (checked_sub (reserved new_account) delta) (Arithmetic Underflow)) in
  let* p := try_mutate_account who (λ _ _, retM (tt, set_reserved new_account new_reserved)) in
  modifyM (λ s, put_holds (<[who := holds]> (Holds (pallet s))) s);;;
  retM p.1.

Definition decrease_balance_on_hold (reason : Ident) who (amount : Z) (precision : Precision)
    : M State Error Z :=
  let* s := getM in
  let old_balance := balance_on_hold s reason who in
  let amount := match precision with BestEffort => Z.min amount old_balance | Exact => amount end in
  let* new_balance := liftM (ok_or (checked_sub old_balance amount) (Token FundsUnavailable)) in
  set_balance_on_hold reason who new_balance;;;
  retM amount.

Definition increase_balance_on_hold (reason : Ident) who (amount : Z) (precision : Precision)
    : M State Error Z :=
  let* s := getM in
  let old_balance := balance_on_hold s reason who in
  let* new_balance :=
    liftM match precision with
          | BestEffort => Ok (sat_add old_balance amount)
          | Exact => ok_or (add_checked old_balance amount) (Arithmetic Overflow)
          end in
  let amount := sat_sub new_balance old_balance in
  whenM (negb (amount =? 0)) (set_balance_on_hold reason who new_balance);;;
  retM amount.

Definition hold (reason : Ident) who (amount : Z) : M State Error unit :=
  let* s := getM in
  liftM (ensure_can_hold s reason who amount);;;
  let* _ := decrease_balance who amount Exact Protect Force in
  let* _ := increase_balance_on_hold reason who amount BestEffort in
  retM tt.

Definition release (reason : Ident) who (amount : Z) (precision : Precision) : M State Error Z :=
  let* s := getM in
  liftM (ensure (bool_decide (can_deposit s who amount Extant = DepositSuccess))
           (Token CannotCreate));;;
  let* amount := decrease_balance_on_hold reason who amount precision in
  increase_balance who amount BestEffort.

Definition burn_held (reason : Ident) who (amount : Z) (precision : Precision) (force : Fortitude)
    : M State Error Z :=
  let* s := getM in
  let liquid := reducible_total_balance_on_hold s who force in
  let* amount :=
    liftM match precision with
          | BestEffort => Ok (Z.min amount liquid)
          | Exact => let? _ := ensure (amount <=? liquid) (Token Frozen) in Ok amount
          end in
  let* amount := decrease_balance_on_hold reason who amount precision in
  let* s := getM in
  set_total_issuance (sat_sub (total_issuance s) amount);;;
  retM amount.

Definition transfer_on_hold (reason : Ident) (source dest : AccountId) (amount : Z)
    (precision : Precision) (mode : Restriction) (force : Fortitude) : M State Error Z :=
  let* s := getM in
  let have := balance_on_hold s reason source in
  let liquid := reducible_total_balance_on_hold s source force in
  let* amount :=
    liftM match precision with
          | BestEffort => Ok (Z.min (Z.min amount liquid) have)
          | Exact =>
              let? _ := ensure (amount <=? liquid) (Token Frozen) in
              let? _ := ensure (amount <=? have) (Token FundsUnavailable) in Ok amount
          end in
  liftM (ensure (bool_decide (can_deposit s dest amount Extant = DepositSuccess))
           (Token CannotCreate));;;
  liftM (ensure (bool_decide (mode = Free) || hold_available s reason dest)
           (Token CannotCreateHold));;;
  let* amount := decrease_balance_on_hold reason source amount precision in
  if bool_decide (mode = OnHold) then increase_balance_on_hold reason dest amount precision
  else increase_balance dest amount precision.

Definition transfer_and_hold (reason : Ident) (source dest : AccountId) (amount : Z)
    (precision : Precision) (expendability : Preservation) (force : Fortitude) : M State Error Z :=
  let* s := getM in
  liftM (ensure (hold_available s reason dest) (Token CannotCreateHold));;;
  liftM (ensure (bool_decide (can_deposit s dest amount Extant = DepositSuccess))
           (Token CannotCreate));;;
  let* actual := decrease_balance source amount precision expendability force in
  let* _ := increase_balance_on_hold reason dest actual precision in
  retM actual.

(** The credit of what was slashed, and the amount that was not. *)
Definition slash_held {E} (reason : Ident) who (amount : Z) : M State E (Z * Z) :=
  let* r := attemptM (decrease_balance_on_hold reason who amount BestEffort) in
  let decrease := match r with inr d => d | inl _ => 0 end in
  retM (decrease, sat_sub amount decrease).

(** ** Freezes and locks *)

(** [b.frozen] after the loops over locks and freezes. *)
Definition frozen_by (locks : list BalanceLock) (freezes : list IdAmount) : Z :=
  foldl (λ m l, Z.max m (amount l)) (foldl (λ m l, Z.max m (lock_amount l)) 0 locks) freezes.

Definition update_freezes who (freezes : list IdAmount) : M State Error unit :=
  let* s := getM in
  let* p := mutate_account who (λ b,
    let after := frozen_by (locks_of s who) freezes in ((frozen b, after), set_frozen b after)) in
  let prev_frozen := p.1.1 in
  let after_frozen := p.1.2 in
  modifyM (λ s, put_freezes (match freezes with
                             | [] => delete who (Freezes (pallet s))
                             | _ :: _ => <[who := freezes]> (Freezes (pallet s))
                             end) s);;;
  if after_frozen <? prev_frozen then deposit_event (Thawed who (sat_sub prev_frozen after_frozen))
  else whenM (prev_frozen <? after_frozen)
         (deposit_event (FrozenEvent who (sat_sub after_frozen prev_frozen))).

Definition balance_frozen s (i : Ident) who : Z :=
  match find_id i (freezes_of s who) with Some x => amount x | None => 0 end.

Definition can_freeze s (i : Ident) who : bool :=
  let l := freezes_of s who in
  negb (max_freezes <=? length l)%nat || existsb (λ x, id x =? i) l.

Definition thaw (i : Ident) who : M State Error unit :=
  let* s := getM in
  update_freezes who (List.filter (λ x, negb (id x =? i)) (freezes_of s who)).

(** The freezes with one set to [f] of its old amount, or to [amount] if it is new. *)
Definition put_freeze (f : Z -> Z) (i : Ident) (amt : Z) (l : list IdAmount)
    : res Error (list IdAmount) :=
  match find_id i l with
  | Some x => Ok (update_id i (f (amount x)) l)
  | None => ok_or (try_push max_freezes (mkIdAmount i amt) l) (Module TooManyFreezes)
  end.

Definition set_freeze (i : Ident) who (amount : Z) : M State Error unit :=
  if amount =? 0 then thaw i who
  else
    let* s := getM in
    let* l := liftM (put_freeze (λ _, amount) i amount (freezes_of s who)) in
    update_freezes who l.

Definition extend_freeze (i : Ident) who (amount : Z) : M State Error unit :=
  if amount =? 0 then retM tt
  else
    let* s := getM in
    let* l := liftM (put_freeze (λ old, Z.max old amount) i amount (freezes_of s who)) in
    update_freezes who l.

(** The list of locks, with a consumer reference while there are any. *)
Definition store_locks {E} who (locks : list BalanceLock) : M State E unit :=
  let* s := getM in
  let existed := bool_decide (is_Some (Locks (pallet s) !! who)) in
  match locks with
  | [] =>
      modifyM (λ s, put_locks (delete who (Locks (pallet s))) s);;;
      whenM existed (dec_consumers who)
  | _ :: _ =>
      modifyM (λ s, put_locks (<[who := locks]> (Locks (pallet s))) s);;;
      whenM (negb existed) (ignoreM (inc_consumers_without_limit (ME:=BalancesError) who))
  end.

(** The account is changed first; the result is only looked at by a [debug_assert!]. *)
Definition update_locks {E} who (locks : list BalanceLock) : M State E unit :=
  let* s := getM in
  let after := frozen_by locks (freezes_of s who) in
  let* res := attemptM (mutate_account who (λ b, ((frozen b, after), set_frozen b after))) in
  let prev_frozen := match res with inr p => p.1.1 | inl _ => frozen (account s who) end in
  store_locks who locks;;;
  if after <? prev_frozen then deposit_event (Unlocked who (sat_sub prev_frozen after))
  else whenM (prev_frozen <? after) (deposit_event (Locked who (sat_sub after prev_frozen))).

(** [WithdrawReasons], the flags as the bits of an integer. *)
Definition TRANSACTION_PAYMENT : Z := 1.
Definition reasons_from (r : Z) : Reasons :=
  if r =? TRANSACTION_PAYMENT then Fee
  else if Z.land r TRANSACTION_PAYMENT =? TRANSACTION_PAYMENT then All else Misc.

Definition reasons_or (a b : Reasons) : Reasons := if decide (a = b) then a else All.

(** The locks with the first of the identifier replaced by [f] of it and any other
    of them dropped, or with a new one at the end. *)
Fixpoint replace_lock (f : BalanceLock -> BalanceLock) (i : Ident) (new_lock : option BalanceLock)
    (l : list BalanceLock) : list BalanceLock :=
  match l with
  | [] => match new_lock with Some lock => [lock] | None => [] end
  | x :: l =>
      if lock_id x =? i then
        match new_lock with
        | Some _ => f x :: replace_lock f i None l
        | None => replace_lock f i None l
        end
      else x :: replace_lock f i new_lock l
  end.

Definition remove_lock {E} (i : Ident) who : M State E unit :=
  let* s := getM in
  update_locks who (List.filter (λ l, negb (lock_id l =? i)) (locks_of s who)).

Definition set_lock {E} (i : Ident) who (amount reasons : Z) : M State E unit :=
  if (reasons =? 0) || (amount =? 0) then remove_lock i who
  else
    let* s := getM in
    let new_lock := mkLock i amount (reasons_from reasons) in
    update_locks who (replace_lock (λ _, new_lock) i (Some new_lock) (locks_of s who)).

Definition extend_lock {E} (i : Ident) who (amount reasons : Z) : M State E unit :=
  if (amount =? 0) || (reasons =? 0) then retM tt
  else
    let* s := getM in
    let new_lock := mkLock i amount (reasons_from reasons) in
    update_locks who (replace_lock (λ l,
        mkLock (lock_id l) (Z.max (lock_amount l) (lock_amount new_lock))
          (reasons_or (lock_reasons l) (lock_reasons new_lock)))
      i (Some new_lock) (locks_of s who)).

(** ** [Currency] and [ReservableCurrency] (impl_currency.rs)

    A [PositiveImbalance] is funds created in an account, a [NegativeImbalance] funds
    removed from one; dropping either squares up the issuance. *)

Definition drop_positive {E} (amount : Z) : M State E unit :=
  modifyM (λ s, put_issuance (sat_add (total_issuance s) amount) s).
Definition drop_negative {E} (amount : Z) : M State E unit :=
  modifyM (λ s, put_issuance (sat_sub (total_issuance s) amount) s).

Inductive SignedImbalance := Positive (a : Z) | Negative (a : Z).

Definition can_slash s who (value : Z) : bool :=
  if value =? 0 then true else value <=? free_balance s who.

(** [Currency::burn]: the positive imbalance. *)
Definition burn {E} (amount : Z) : M State E Z :=
  if amount =? 0 then retM 0
  else
    let* s := getM in
    match checked_sub (total_issuance s) amount with
    | Some issued => set_total_issuance issued;;; retM amount
    | None => set_total_issuance 0;;; retM (total_issuance s)
    end.

(** [Currency::issue]: the negative imbalance. *)
Definition currency_issue {E} (amount : Z) : M State E Z :=
  if amount =? 0 then retM 0
  else
    let* s := getM in
    match add_checked (total_issuance s) amount with
    | Some issued => set_total_issuance issued;;; retM amount
    | None =>
        set_total_issuance (umax balance_width);;;
        retM (sub_b (umax balance_width) (total_issuance s))
    end.

Definition ensure_can_withdraw s who (amount new_balance : Z) : res Error unit :=
  if amount =? 0 then Ok tt
  else ensure (frozen (account s who) <=? new_balance) (Module LiquidityRestrictions).

Inductive ExistenceRequirement := KeepAlive | AllowDeath.

Definition currency_transfer (transactor dest : AccountId) (value : Z) (e : ExistenceRequirement)
    : M State Error unit :=
  if (value =? 0) || bool_decide (transactor = dest) then retM tt
  else
    let keep_alive := match e with KeepAlive => Preserve | AllowDeath => Expendable end in
    let* _ := transfer transactor dest value keep_alive in retM tt.

(** The negative imbalance and the amount not slashed. *)
Definition slash {E} who (value : Z) : M State E (Z * Z) :=
  let* s := getM in
  if value =? 0 then retM (0, 0)
  else if total_balance s who =? 0 then retM (0, value)
  else
    let* r := attemptM (try_mutate_account_handling_dust who (λ account _,
      let* s := getM in
      let actual := if can_dec_provider s who then Z.min value (free account)
                    else Z.min value (sat_sub (free account) existential_deposit) in
      retM (actual, sat_sub value actual, set_free account (sat_sub (free account) actual)))) in
    match r with
    | inr p => deposit_event (Slashed who (sat_sub value p.2));;; retM p
    | inl _ => retM (0, value)
    end.

Definition deposit_into_existing who (value : Z) : M State Error Z :=
  if value =? 0 then retM 0
  else
    try_mutate_account_handling_dust who (λ account is_new,
      liftM (ensure (negb is_new) (Module DeadAccount));;;
      let* v := liftM (ok_or (add_checked (free account) value) (Arithmetic Overflow)) in
      deposit_event (Deposit who value);;;
      retM (value, set_free account v)).

Definition deposit_creating {E} who (value : Z) : M State E Z :=
  if value =? 0 then retM 0
  else
    let* r := attemptM (try_mutate_account_handling_dust who (λ account is_new,
      liftM (ensure ((existential_deposit <=? value) || negb is_new)
               (Module ErrExistentialDeposit));;;
      match add_checked (free account) value with
      | Some x => deposit_event (Deposit who value);;; retM (value, set_free account x)
      | None => retM (0, account)
      end)) in
    retM match r with inr v => v | inl _ => 0 end.

Definition currency_withdraw who (value : Z) (liveness : ExistenceRequirement) : M State Error Z :=
  if value =? 0 then retM 0
  else
    try_mutate_account_handling_dust who (λ account _,
      let* new_free :=
        liftM (ok_or (checked_sub (free account) value) (Module InsufficientBalance)) in
      let would_kill :=
        (new_free <? existential_deposit) && (existential_deposit <=? free account) in
      liftM (ensure (match liveness with AllowDeath => true | KeepAlive => false end
                     || negb would_kill) (Module Expendability));;;
      let* s := getM in
      liftM (ensure_can_withdraw s who value new_free);;;
      deposit_event (Withdraw who value);;;
      retM (value, set_free account new_free)).

Definition make_free_balance_be {E} who (value : Z) : M State E SignedImbalance :=
  let* r := attemptM (try_mutate_account_handling_dust who (λ account is_new,
    liftM (ensure ((existential_deposit <=? value) || negb is_new)
             (Module ErrExistentialDeposit));;;
    let imbalance := if free account <=? value then Positive (sub_b value (free account))
                     else Negative (sub_b (free account) value) in
    deposit_event (BalanceSet who value);;;
    retM (imbalance, set_free account value))) in
  retM match r with inr i => i | inl _ => Positive 0 end.

Definition can_reserve s who (value : Z) : bool :=
  if value =? 0 then true
  else match checked_sub (free (account s who)) value with
       | Some new_balance =>
           (existential_deposit <=? new_balance)
           && match ensure_can_withdraw s who value new_balance with Ok _ => true | _ => false end
       | None => false
       end.

Definition reserve who (value : Z) : M State Error unit :=
  if value =? 0 then retM tt
  else
    (try_mutate_account_handling_dust who (λ account _,
       let* f := liftM (ok_or (checked_sub (free account) value) (Module InsufficientBalance)) in
       let* r := liftM (ok_or (add_checked (reserved account) value) (Arithmetic Overflow)) in
       let* s := getM in
       liftM (ensure_can_withdraw s who value f);;;
       retM (tt, set_reserved (set_free account f) r)));;;
    deposit_event (Reserved who value).

(** The amount that could not be unreserved. *)
Definition unreserve {E} who (value : Z) : M State E Z :=
  let* s := getM in
  if value =? 0 then retM 0
  else if total_balance s who =? 0 then retM value
  else
    let* r := attemptM (mutate_account_handling_dust who (λ account,
      let actual := Z.min (reserved account) value in
      (actual, set_free (set_reserved account (sub_b (reserved account) actual))
                 (sat_add (free account) actual)))) in
    match r with
    | inr actual => deposit_event (Unreserved who actual);;; retM (sub_b value actual)
    | inl _ => retM value
    end.

Definition slash_reserved {E} who (value : Z) : M State E (Z * Z) :=
  let* s := getM in
  if value =? 0 then retM (0, 0)
  else if total_balance s who =? 0 then retM (0, value)
  else
    let* r := attemptM (mutate_account_handling_dust who (λ account,
      let actual := Z.min value (reserved account) in
      ((actual, sat_sub value actual),
       set_reserved account (sat_sub (reserved account) actual)))) in
    match r with
    | inr p => deposit_event (Slashed who (sat_sub value p.2));;; retM p
    | inl _ => retM (0, value)
    end.

(** The closures of [do_transfer_reserved]: the inner one changes [slashed], and what the
    beneficiary gets is written by the outer one. *)
Definition transfer_reserved_to slashed (actual : Z) (status : Status)
    (to_account : AccountData) (is_new : bool)
    : M State Error ((unit * option Z) * AccountData) :=
  liftM (ensure (negb is_new) (Module DeadAccount));;;
  let* p := try_mutate_account slashed (λ from_account _,
    let* to_account :=
      match status with
      | StatusFree =>
          let* v := liftM (ok_or (add_checked (free to_account) actual) (Arithmetic Overflow)) in
          retM (set_free to_account v)
      | StatusReserved =>
          let* v := liftM (ok_or (add_checked (reserved to_account) actual)
                             (Arithmetic Overflow)) in
          retM (set_reserved to_account v)
      end in
    retM (to_account, set_reserved from_account (sat_sub (reserved from_account) actual))) in
  retM ((tt, p.2), p.1).

Definition do_transfer_reserved (slashed beneficiary : AccountId) (value : Z)
    (precision : Precision) (fortitude : Fortitude) (status : Status) : M State Error Z :=
  if value =? 0 then retM 0
  else
    let* s := getM in
    let max := reducible_total_balance_on_hold s slashed fortitude in
    let actual := match precision with BestEffort => Z.min value max | Exact => value end in
    liftM (ensure (actual <=? max) (Token FundsUnavailable));;;
    if bool_decide (slashed = beneficiary) then
      match status with
      | StatusFree => let* rest := unreserve slashed actual in retM (sat_sub actual rest)
      | StatusReserved => retM actual
      end
    else
      let* p := try_mutate_account beneficiary (transfer_reserved_to slashed actual status) in
      on_some p.1.2 handle_raw_dust;;;
      on_some p.2 handle_raw_dust;;;
      deposit_event (ReserveRepatriated slashed beneficiary actual status);;;
      retM actual.

Definition repatriate_reserved (slashed beneficiary : AccountId) (value : Z) (status : Status)
    : M State Error Z :=
  let* actual := do_transfer_reserved slashed beneficiary value BestEffort Polite status in
  retM (sat_sub value actual).

(** ** [NamedReservableCurrency]

    The reserves of an account are sorted by identifier; a binary search on such a
    vector finds the entry, or the place to insert one. *)

Inductive Search := Found (index : nat) | Missing (index : nat).

Fixpoint search_id (i : Ident) (index : nat) (l : list IdAmount) : Search :=
  match l with
  | [] => Missing index
  | x :: l =>
      if id x =? i then Found index
      else if i <? id x then Missing index else search_id i (S index) l
  end.

Definition reserves_of s who : list IdAmount := default [] (Reserves (pallet s) !! who).

Definition amount_at (l : list IdAmount) (index : nat) : Z :=
  match l !! index with Some x => amount x | None => 0 end.
Definition set_amount_at (v : Z) (index : nat) (l : list IdAmount) : list IdAmount :=
  alter (λ x, mkIdAmount (id x) v) index l.

Definition reserved_balance_named s (i : Ident) who : Z :=
  let reserves := reserves_of s who in
  match search_id i 0 reserves with Found index => amount_at reserves index | Missing _ => 0 end.

(** [try_insert] into a vector of at most [bound] elements *)
Definition try_insert_at (bound index : nat) (x : IdAmount) (l : list IdAmount)
    : option (list IdAmount) :=
  if (length l <? bound)%nat then Some (take index l ++ x :: drop index l) else None.

Definition store_reserves {E} who (l : list IdAmount) : M State E unit :=
  modifyM (λ s, put_reserves (<[who := l]> (Reserves (pallet s))) s).

Definition reserve_named (i : Ident) who (value : Z) : M State Error unit :=
  if value =? 0 then retM tt
  else
    let* s := getM in
    let reserves := reserves_of s who in
    let* reserves :=
      liftM match search_id i 0 reserves with
            | Found index =>
                Ok (set_amount_at (sat_add (amount_at reserves index) value) index reserves)
            | Missing index =>
                ok_or (try_insert_at max_reserves index (mkIdAmount i value) reserves)
                  (Module TooManyReserves)
            end in
    reserve who value;;;
    store_reserves who reserves.

Definition unreserve_named {E} (i : Ident) who (value : Z) : M State E Z :=
  if value =? 0 then retM 0
  else
    let* s := getM in
    match Reserves (pallet s) !! who with
    | None => retM value
    | Some reserves =>
        match search_id i 0 reserves with
        | Missing _ => store_reserves who reserves;;; retM value
        | Found index =>
            let to_change := Z.min (amount_at reserves index) value in
            let* remain := unreserve who to_change in
            let actual := sat_sub to_change remain in
            let left_over := sub_b (amount_at reserves index) actual in
            modifyM (λ s, put_reserves
              (if left_over =? 0 then
                 if bool_decide (length reserves = 1%nat) then delete who (Reserves (pallet s))
                 else <[who := delete index reserves]> (Reserves (pallet s))
               else <[who := set_amount_at left_over index reserves]> (Reserves (pallet s))) s);;;
            retM (sub_b value actual)
        end
    end.

Definition slash_reserved_named {E} (i : Ident) who (value : Z) : M State E (Z * Z) :=
  if value =? 0 then retM (0, 0)
  else
    let* s := getM in
    let reserves := reserves_of s who in
    match search_id i 0 reserves with
    | Missing _ => store_reserves who reserves;;; retM (0, value)
    | Found index =>
        let to_change := Z.min (amount_at reserves index) value in
        let* p := slash_reserved who to_change in
        let actual := sat_sub to_change p.2 in
        deposit_event (Slashed who actual);;;
        store_reserves who
          (set_amount_at (sub_b (amount_at reserves index) actual) index reserves);;;
        retM (p.1, sub_b value actual)
    end.

(** The beneficiary's side of [repatriate_reserved_named] with [Status::Reserved]. *)
Definition repatriate_to_named (i : Ident) (slashed beneficiary : AccountId) (to_change : Z)
    : M State Error Z :=
  let* s := getM in
  let reserves := reserves_of s beneficiary in
  let* remain := repatriate_reserved slashed beneficiary to_change StatusReserved in
  let actual := sat_sub to_change remain in
  let* reserves :=
    liftM match search_id i 0 reserves with
          | Found index =>
              Ok (set_amount_at (sat_add (amount_at reserves index) actual) index reserves)
          | Missing index =>
              ok_or (try_insert_at max_reserves index (mkIdAmount i actual) reserves)
                (Module TooManyReserves)
          end in
  store_reserves beneficiary reserves;;;
  retM actual.

Definition repatriate_reserved_named (i : Ident) (slashed beneficiary : AccountId) (value : Z)
    (status : Status) : M State Error Z :=
  if value =? 0 then retM 0
  else if bool_decide (slashed = beneficiary) then
    match status with
    | StatusFree => unreserve_named i slashed value
    | StatusReserved =>
        let* s := getM in retM (sat_sub value (reserved_balance_named s i slashed))
    end
  else
    let* s := getM in
    let reserves := reserves_of s slashed in
    match search_id i 0 reserves with
    | Missing _ => store_reserves slashed reserves;;; retM value
    | Found index =>
        let to_change := Z.min (amount_at reserves index) value in
        let* actual :=
          match status with
          | StatusReserved => repatriate_to_named i slashed beneficiary to_change
          | StatusFree =>
              let* remain := repatriate_reserved slashed beneficiary to_change status in
              retM (sat_sub to_change remain)
          end in
        store_reserves slashed
          (set_amount_at (sub_b (amount_at reserves index) actual) index reserves);;;
        retM (sub_b value actual)
    end.

(** ** Calls *)

Inductive Origin := Root | Signed (who : AccountId) | NoOrigin.

Definition ensure_signed (o : Origin) : res Error AccountId :=
  match o with Signed who => Ok who | _ => Err BadOrigin end.
Definition ensure_root (o : Origin) : res Error unit :=
  match o with Root => Ok tt | _ => Err BadOrigin end.

Definition transfer_allow_death (o : Origin) (dest : AccountId) (value : Z) : M State Error unit :=
  let* source := liftM (ensure_signed o) in
  let* _ := transfer source dest value Expendable in retM tt.

Definition transfer_keep_alive (o : Origin) (dest : AccountId) (value : Z) : M State Error unit :=
  let* source := liftM (ensure_signed o) in
  let* _ := transfer source dest value Preserve in retM tt.

Definition force_transfer (o : Origin) (source dest : AccountId) (value : Z) : M State Error unit :=
  liftM (ensure_root o);;;
  let* _ := transfer source dest value Expendable in retM tt.

Definition transfer_all (o : Origin) (dest : AccountId) (keep_alive : bool) : M State Error unit :=
  let* transactor := liftM (ensure_signed o) in
  let keep_alive := if keep_alive then Preserve else Expendable in
  let* s := getM in
  let* _ := transfer transactor dest (reducible_balance s transactor keep_alive Polite) keep_alive in
  retM tt.

Definition force_unreserve (o : Origin) who (amount : Z) : M State Error unit :=
  liftM (ensure_root o);;;
  let* _ := unreserve who amount in retM tt.

(** Squares up the issuance after a balance was forced. *)
Definition adjust_issuance {E} (new_free old_free : Z) : M State E unit :=
  if old_free <? new_free then drop_positive (sub_b new_free old_free)
  else whenM (new_free <? old_free) (drop_negative (sub_b old_free new_free)).

Definition force_set_balance (o : Origin) who (new_free : Z) : M State Error unit :=
  liftM (ensure_root o);;;
  let new_free := if new_free <? ed then 0 else new_free in
  let* old_free := mutate_account_handling_dust who (λ a, (free a, set_free a new_free)) in
  adjust_issuance new_free old_free;;;
  deposit_event (BalanceSet who new_free).

Definition set_balance_deprecated (o : Origin) who (new_free old_reserved : Z)
    : M State Error unit :=
  liftM (ensure_root o);;;
  let new_free := if new_free <? ed then 0 else new_free in
  let* old_free := try_mutate_account_handling_dust who (λ a _,
    liftM (ensure (reserved a =? old_reserved) (Token Unsupported));;;
    retM (free a, set_free a new_free)) in
  adjust_issuance new_free old_free;;;
  deposit_event (BalanceSet who new_free).

(** [Perbill::from_rational], in parts per billion *)
Definition perbill_from_rational (p q : Z) : Z :=
  if (q =? 0) || (q <? p) then 1000000000 else p * 1000000000 `div` q.

(** Whether the caller pays the fee. *)
Definition upgrade_accounts (o : Origin) (who : list AccountId) : M State Error bool :=
  let* _ := liftM (ensure_signed o) in
  match who with
  | [] => retM true
  | _ :: _ => λ s,
      let '(s, upgrade_count) := foldl (λ p i,
        match ensure_upgraded (E:=Error) i p.1 with
        | (s', Ok true) => (s', ref_inc p.2)
        | (s', _) => (s', p.2)
        end) (s, 0) who in
      (s, Ok (perbill_from_rational upgrade_count (Z.of_nat (length who)) <? 900000000))
  end.

(** [with_storage_layer]: a call that fails leaves no changes behind. *)
Definition transactional {E A} (c : M State E A) : M State E A := λ s,
  match c s with
  | (s', Ok a) => (s', Ok a)
  | (_, Err e) => (s, Err e)
  | (s', Panic) => (s', Panic)
  end.

(** ** Genesis *)

Definition genesis_build (balances : list (AccountId * Z)) : M State Error unit :=
  let total := foldl (λ acc b, wadd balance_width acc b.2) 0 balances in
  set_total_issuance total;;;
  if negb (forallb (λ b, existential_deposit <=? b.2) balances) then panicM
  else if negb (bool_decide (size (list_to_set balances.*1 : gset AccountId) = length balances))
  then panicM
  else
    for_each balances (λ b,
      let* _ := inc_providers b.1 in
      stored_insert b.1 (set_free default_value b.2)).

End pallet.
