(* ===== verification/Supply.v ===== *)
(** What the balances pallet guarantees: accounts stay well-formed, and the total
    issuance stays the sum of the accounts.

    Every change of an account goes through [try_mutate_account]; its lemma says
    what happens to the account, the reference counters and the dust, and the
    theorems about the operations follow from it. *)

From stdpp Require Import base numbers list option gmap sets fin_maps.
From S2P Require Import Prelude System Balances.

Local Open Scope Z_scope.
Local Open Scope rust_scope.

(** The configuration makes sense. *)
Class ConfigOk `{!Config} : Prop := {
  ed_positive : 0 < existential_deposit;
  ed_in_range : existential_deposit <= umax balance_width;
  width_positive : 0 < balance_width;
}.

Section accounts.
Context `{!Config} `{!ConfigOk} {AccountId : Type} `{Countable AccountId}.

Abbreviation State := (Runtime AccountId AccountData (Storage AccountId)).
Abbreviation Info := (AccountInfo AccountData).
Implicit Types (s : State) (who : AccountId) (a : AccountData) (i : Info).

(** * Invariants *)

Definition data_ok a : Prop :=
  0 <= free a ∧ 0 <= reserved a ∧ 0 <= frozen a ∧ is_new_logic (flags a) = true.

(** The account holds enough to be stored, or has the data of a new one. *)
Definition lasting a : Prop := a = default_value ∨ ed <= free a ∨ reserved a ≠ 0.

(** The references that the data of an account needs. *)
Definition refs_for a i : Prop :=
  0 <= consumers i ∧ 0 <= providers i ∧ 0 <= sufficients i ∧
  (ed <= free a → 0 < providers i) ∧ (consumes a = true → 0 < consumers i) ∧
  (0 < consumers i → 0 < providers i).

Definition alive i : Prop := 0 < providers i ∨ 0 < sufficients i.

Definition info_ok i : Prop :=
  data_ok (acc_data i) ∧ lasting (acc_data i) ∧ refs_for (acc_data i) i ∧ alive i.

Definition accounts_ok s : Prop := map_Forall (λ _, info_ok) (accounts s).

(** The storage items of the pallet, without the events. *)
Definition items s :=
  let p := pallet s in
  (TotalIssuance p, InactiveIssuance p, Locks p, Reserves p, Holds p, Freezes p).

(** Nothing but the account of [who] and events differ. *)
Definition touches who s s' : Prop :=
  items s' = items s ∧ ∀ w, w ≠ who → accounts s' !! w = accounts s !! w.

Lemma touches_refl who s : touches who s s.
Proof. done. Qed.

Lemma touches_trans who s1 s2 s3 : touches who s1 s2 → touches who s2 s3 → touches who s1 s3.
Proof. intros [Hi1 Ha1] [Hi2 Ha2]. split; [congruence|]. intros w Hw. by rewrite Ha2, Ha1. Qed.

Lemma touches_put who i s : touches who s (put_account who i s).
Proof. split; [done|]. intros w Hw. cbn. by rewrite lookup_insert_ne. Qed.

Lemma touches_remove who s : touches who s (remove_account who s).
Proof. split; [done|]. intros w Hw. cbn. by rewrite lookup_delete_ne. Qed.

Lemma get_put who i s : get_account (put_account who i s) who = i.
Proof. unfold get_account. cbn. by rewrite lookup_insert_eq. Qed.

Lemma get_event who e s : get_account (push_event e s) who = get_account s who.
Proof. done. Qed.

Lemma default_info_ok : data_ok (default_value : AccountData) ∧ lasting (default_value : AccountData).
Proof. split; [by vm_compute|by left]. Qed.

Lemma default_refs : refs_for default_value (default_info : Info).
Proof.
  pose proof ed_positive. unfold refs_for, ed. cbn. split_all; try lia; done.
Qed.

(** What the invariant says of an account, existing or not. *)
Lemma accounts_ok_get s who :
  accounts_ok s →
  data_ok (account s who) ∧ lasting (account s who) ∧ refs_for (account s who) (get_account s who).
Proof.
  intros Hok. unfold account, stored_get, get_account.
  destruct (accounts s !! who) as [i|] eqn:Hi.
  - destruct (Hok who i Hi) as (? & ? & ? & ?). done.
  - cbn. pose proof default_info_ok as [? ?]. pose proof default_refs. done.
Qed.

Lemma accounts_ok_touch who s s' :
  accounts_ok s → touches who s s' → (∀ i, accounts s' !! who = Some i → info_ok i) → accounts_ok s'.
Proof.
  intros Hok [_ Ht] Hwho w i Hi. destruct (decide (w = who)) as [->|Hw]; [auto|].
  rewrite Ht in Hi by done. by apply (Hok w).
Qed.

(** * Reference counters *)

Lemma inc_providers_ok {E} who s :
  refs_for (account s who) (get_account s who) → ∃ s' st,
  inc_providers (E:=E) who s = (s', Ok st) ∧ touches who s s' ∧
  ∃ n, 0 < n ∧ accounts s' !! who = Some (set_providers (get_account s who) n).
Proof.
  intros (? & ? & ? & _). unfold inc_providers. case_match; eexists _, _; (split; [done|]).
  - split; [exact (touches_put who _ (on_created_account who s))|]. exists 1. split; [lia|]. cbn. by rewrite lookup_insert_eq.
  - split; [apply touches_put|]. exists (ref_inc (providers (get_account s who))).
    split; [unfold ref_inc, ref_max; lia|]. cbn. by rewrite lookup_insert_eq.
Qed.

Lemma inc_consumers_ok who s :
  (inc_consumers (ME:=BalancesError) max_consumers who s =
     (put_account who (set_consumers (get_account s who) (ref_inc (consumers (get_account s who)))) s,
      Ok tt) ∧ 0 < providers (get_account s who)) ∨
  ((∃ e, inc_consumers (ME:=BalancesError) max_consumers who s = (s, Err e)) ∧
   (0 < providers (get_account s who) → max_consumers <= consumers (get_account s who))).
Proof.
  unfold inc_consumers. destruct (Z.ltb_spec 0 (providers (get_account s who))); [|right; eauto with lia].
  destruct (Z.ltb_spec (consumers (get_account s who)) max_consumers); [by left|right; eauto with lia].
Qed.

Lemma dec_providers_ok who s i :
  accounts s !! who = Some i → 0 < providers i → 0 <= consumers i → 0 <= sufficients i →
  match dec_providers (ME:=BalancesError) who s with
  | (s', Ok _) => touches who s s' ∧
      (accounts s' !! who = None ∧ consumers i = 0 ∨
       accounts s' !! who = Some (set_providers i (providers i - 1)) ∧
       (0 < consumers i → 1 < providers i))
  | (s', Err _) => s' = s ∧ 0 < consumers i ∧ providers i = 1
  | (_, Panic) => False
  end.
Proof.
  intros Hi Hp Hc Hs. unfold dec_providers. rewrite Hi.
  destruct (Z.eqb_spec (providers i) 0); [lia|].
  destruct (Z.eqb_spec (providers i) 1), (Z.eqb_spec (consumers i) 0),
    (Z.eqb_spec (sufficients i) 0), (Z.ltb_spec 0 (consumers i)); cbn [andb]; try lia; try done;
    (split; [exact (touches_put who _ s) || exact (touches_remove who (on_killed_account who s))|]);
    first [left; cbn; by rewrite lookup_delete_eq
          |right; cbn; rewrite lookup_insert_eq; split; [done|lia]].
Qed.

(** The account of [who], if there is one, is [i] with the data it had. *)
Definition stands who s i : Prop :=
  get_account s who = i ∧ (accounts s !! who = None → i = default_info) ∧
  (is_Some (accounts s !! who) → alive i).

Lemma stands_put who i s : alive i → stands who (put_account who i s) i.
Proof.
  intros Hi. split; [apply get_put|]. cbn. rewrite lookup_insert_eq. by split.
Qed.

Lemma stands_Some who s i : accounts s !! who = Some i → alive i → stands who s i.
Proof. intros Hs Hi. unfold stands, get_account. rewrite Hs. by split. Qed.

Lemma stands_info_ok who s i :
  stands who s i → data_ok (acc_data i) → lasting (acc_data i) → refs_for (acc_data i) i →
  ∀ i', accounts s !! who = Some i' → info_ok i'.
Proof.
  intros (Hg & _ & Ha) Hd Hl Hr i' Hi'. unfold get_account in Hg. rewrite Hi' in Hg. cbn in Hg.
  subst i'. split; [done|]. split; [done|]. split; [done|]. by apply Ha.
Qed.

Lemma refs_alive a i : refs_for a i → ed <= free a ∨ consumes a = true → alive i.
Proof. intros (? & ? & ? & Hp & Hc & Hcp) [?|?]; left; auto. Qed.

(** The provider reference that the new data needs is there. *)
Lemma stage_providers who s a a' :
  stands who s (get_account s who) → account s who = a → refs_for a (get_account s who) →
  ∃ s1 i1,
  whenM (negb (ed <=? free a) && (ed <=? free a'))
    (let* _ := inc_providers who in retM tt) s = (s1, Ok (E:=Error) tt) ∧
  touches who s s1 ∧ stands who s1 i1 ∧ acc_data i1 = a ∧ refs_for a i1 ∧
  (ed <= free a ∨ ed <= free a' → 0 < providers i1) ∧ (ed <= free a → i1 = get_account s who) ∧
  consumers i1 = consumers (get_account s who).
Proof.
  intros Hst Ha Hr. destruct (Z.leb_spec ed (free a)), (Z.leb_spec ed (free a')); cbn [negb andb whenM retM].
  1, 2, 4: exists s, (get_account s who); split; [done|]; split; [done|]; split; [done|];
    split; [done|]; split; [done|]; split; [|done]; destruct Hr as (? & ? & ? & Hp & ? & ?);
    intros [?|?]; first [by apply Hp|lia].
  rewrite <- Ha in Hr. destruct (inc_providers_ok (E:=Error) who s Hr) as (s' & st & Hi & Ht & n & Hn & Hs').
  exists s', (set_providers (get_account s who) n).
  split; [by erewrite bindM_ok|]. split; [done|].
  split; [apply stands_Some; [done|by left]|]. split; [done|]. rewrite Ha in Hr.
  split; [|split; [done|split; [lia|done]]]. destruct Hr as (? & ? & ? & ? & ? & ?). unfold refs_for. cbn. split_all; auto; lia.
Qed.

(** The references but for the provider that may have to go. *)
Definition consumers_for a i : Prop :=
  0 <= consumers i ∧ 0 <= providers i ∧ 0 <= sufficients i ∧
  (consumes a = true → 0 < consumers i) ∧ (0 < consumers i → 0 < providers i).

Lemma alive_same i i' : providers i' = providers i → sufficients i' = sufficients i → alive i → alive i'.
Proof. unfold alive. by intros -> ->. Qed.

Lemma stage_consumers who s i a a' :
  stands who s i → acc_data i = a → refs_for a i →
  match (whenM (consumes a && negb (consumes a')) (dec_consumers who);;;
         whenM (negb (consumes a) && consumes a') (inc_consumers max_consumers who)
         : M State Error unit) s with
  | (s', Ok _) => ∃ i', touches who s s' ∧ stands who s' i' ∧ acc_data i' = a ∧
      consumers_for a' i' ∧ providers i' = providers i ∧
      (consumes a = false → consumes a' = true → consumers i' = ref_inc (consumers i)) ∧
      (consumes a = consumes a' → i' = i) ∧
      (consumes a = true → consumes a' = false → consumers i' = consumers i - 1)
  | (s', Err _) => s' = s ∧ consumes a = false ∧ consumes a' = true ∧
      (0 < providers i → max_consumers <= consumers i)
  | (_, Panic) => False
  end.
Proof.
  intros Hst Hd (Hc0 & Hp0 & Hs0 & Hp & Hc & Hcp). pose proof (proj1 Hst) as Hg.
  unfold bindM, retM. destruct (consumes a) eqn:Hca, (consumes a') eqn:Hca'; cbn [negb andb whenM retM].
  - exists i. split; [done|]. split; [done|]. unfold consumers_for. rewrite Hca'. by split_all.
  - unfold dec_consumers. rewrite Hg. specialize (Hc eq_refl).
    destruct (Z.ltb_spec 0 (consumers i)); [|lia].
    exists (set_consumers i (consumers i - 1)). split; [apply touches_put|].
    split; [apply stands_put; left; cbn; auto|]. unfold consumers_for. rewrite Hca'. cbn.
    split_all; try done; lia.
  - destruct (inc_consumers_ok who s) as [[-> Hpp]|[[e ->] Hfull]]; [|by rewrite Hg in Hfull]. rewrite Hg in *.
    exists (set_consumers i (ref_inc (consumers i))). split; [apply touches_put|].
    split; [apply stands_put; by left|]. unfold consumers_for, ref_inc, ref_max. cbn.
    split_all; try done; lia.
  - exists i. split; [done|]. split; [done|]. unfold consumers_for. rewrite Hca'. by split_all.
Qed.

Lemma stage_release who s i a a' :
  stands who s i → acc_data i = a → consumers_for a' i →
  (ed <= free a ∨ ed <= free a' → 0 < providers i) → refs_for a i ∨ consumes a ≠ consumes a' →
  match whenM ((ed <=? free a) && negb (ed <=? free a'))
          (dec_providers_or_revert who (consumes a) (consumes a')) s with
  | (s', Ok _) => touches who s s' ∧ refs_for a' (get_account s' who)
  | (s', Err _) => (ed <= free a ∧ free a' < ed ∧ 0 < consumers i ∧ providers i = 1) ∧ touches who s s' ∧
      ∃ i', stands who s' i' ∧ acc_data i' = a ∧ refs_for a i'
  | (_, Panic) => False
  end.
Proof.
  intros Hst Hd (Hc0 & Hp0 & Hs0 & Hc & Hcp) Hp Hra. pose proof (proj1 Hst) as Hg.
  destruct (Z.leb_spec ed (free a)) as [Hdid|Hdid]; cbn [andb whenM].
  2: { split; [done|]. rewrite Hg. unfold refs_for. split_all; auto. }
  destruct (Z.leb_spec ed (free a')) as [Hdoes|Hdoes]; cbn [negb whenM].
  { split; [done|]. rewrite Hg. unfold refs_for. split_all; auto. }
  assert (Hi : accounts s !! who = Some i).
  { destruct Hst as (Hget & Hnone & _). unfold get_account in Hget.
    destruct (accounts s !! who) as [j|] eqn:Hj; [by f_equal|]. rewrite Hnone in Hp by done.
    specialize (Hp (or_introl Hdid)). cbn in Hp. lia. }
  unfold dec_providers_or_revert.
  pose proof (dec_providers_ok who s i Hi (Hp (or_introl Hdid)) Hc0 Hs0) as Hdec.
  destruct (dec_providers who s) as [s' [st|e|]]; [| |done].
  - destruct Hdec as [Ht [[Hn Hz]|[Hs Hpp]]]; (split; [done|]); unfold get_account.
    + rewrite Hn. unfold refs_for. cbn. split_all; try lia. intros Hx. specialize (Hc Hx). lia.
    + rewrite Hs. unfold refs_for. cbn. split_all; auto; lia.
  - destruct Hdec as (-> & Hpos & Hone). specialize (Hp (or_introl Hdid)).
    unfold bindM, retM, errM. destruct (consumes a) eqn:Hca, (consumes a') eqn:Hca';
      cbn [negb andb whenM retM].
    + split; [done|]. split; [done|]. exists i. by destruct Hra.
    + unfold ignoreM. destruct (inc_consumers_ok who s) as [[-> _]|[[e' ->] _]]; cbn.
      * split; [done|]. split; [apply touches_put|]. rewrite Hg. exists (set_consumers i (ref_inc (consumers i))).
        split; [apply stands_put; by left|]. split; [done|].
        unfold refs_for, ref_inc, ref_max; cbn; split_all; auto; lia.
      * do 2 (split; [done|]). exists i. split; [done|]. unfold refs_for. by split_all.
    + unfold dec_consumers. rewrite Hg. destruct (Z.ltb_spec 0 (consumers i)); [|lia].
      split; [done|]. split; [apply touches_put|]. exists (set_consumers i (consumers i - 1)).
      split; [apply stands_put; by left|]. split; [done|].
      unfold refs_for; cbn; rewrite Hca; split_all; auto; lia.
    + split; [done|]. split; [done|]. exists i. by destruct Hra.
Qed.

(** Why the account could not be changed: a reference was refused. *)
Definition refused who s a a' : Prop :=
  (consumes a = false ∧ consumes a' = true ∧
   (ed <= free a' → max_consumers <= consumers (get_account s who))) ∨
  (ed <= free a ∧ free a' < ed ∧ (consumes a = consumes a' → can_dec_provider s who = false)).

Lemma update_refs_ok who s a a' :
  stands who s (get_account s who) → account s who = a → refs_for a (get_account s who) →
  match update_refs who (ed <=? free a) (ed <=? free a') (consumes a) (consumes a') s with
  | (s', Ok _) => touches who s s' ∧ refs_for a' (get_account s' who)
  | (s', Err _) => touches who s s' ∧ (∃ i', stands who s' i' ∧ acc_data i' = a ∧ refs_for a i') ∧ refused who s a a'
  | (_, Panic) => False
  end.
Proof.
  intros Hst Ha Hr. unfold update_refs.
  destruct (stage_providers who s a a' Hst Ha Hr) as (s1 & i1 & Hs1 & Ht1 & Hst1 & Hd1 & Hr1 & Hp1 & Hi1 & Hc1).
  erewrite bindM_ok by done. clear Hs1.
  pose proof (stage_consumers who s1 i1 a a' Hst1 Hd1 Hr1) as Hs2. unfold bindM in Hs2 |- *.
  destruct (whenM (consumes a && negb (consumes a')) (dec_consumers who) s1) as [s2 [[]|e|]]; [| |done].
  2: { destruct Hs2 as (-> & ? & ? & Hfull). rewrite Hc1 in Hfull. split; [done|]. split; [by exists i1|].
       left. by auto 10. }
  destruct (whenM (negb (consumes a) && consumes a') (inc_consumers max_consumers who) s2)
    as [s3 [[]|e|]]; [| |done].
  2: { destruct Hs2 as (-> & ? & ? & Hfull). rewrite Hc1 in Hfull. split; [done|]. split; [by exists i1|].
       left. by auto 10. }
  destruct Hs2 as (i3 & Ht3 & Hst3 & Hd3 & Hc3 & Hp3 & _ & Heq & _).
  pose proof (stage_release who s3 i3 a a' Hst3 Hd3 Hc3) as Hs4. rewrite Hp3 in Hs4.
  specialize (Hs4 Hp1). destruct (whenM _ _ s3) as [s4 [[]|e|]].
  - destruct Hs4 as [Ht4 Hr4]; [|split; [by eapply touches_trans, touches_trans|done]].
    destruct (decide (consumes a = consumes a')) as [He|]; [left|by right]. by rewrite Heq.
  - destruct Hs4 as ((Hle & Hlt & Hc & Hone) & Ht4 & Hr4).
    { destruct (decide (consumes a = consumes a')) as [He|]; [left|by right]. by rewrite Heq. }
    split; [by eapply touches_trans, touches_trans|]. split; [done|].
    right. split; [done|]. split; [done|]. intros He.
    unfold can_dec_provider. rewrite <- (Hi1 Hle), <- (Heq He). apply orb_false_iff. lia.
  - apply Hs4. destruct (decide (consumes a = consumes a')) as [He|]; [left|by right]. by rewrite Heq.
Qed.

(** * Changing an account *)

(** What an account becomes, and the dust that is left of it. *)
Definition is_dust a : bool := (free a <? ed) && (reserved a =? 0).
Definition settled a : AccountData := if is_dust a then default_value else a.
Definition dust_of a : option Z := if is_dust a && negb (free a =? 0) then Some (free a) else None.

Lemma accounts_ok_stands s who : accounts_ok s → stands who s (get_account s who).
Proof.
  intros Hok. split; [done|]. unfold get_account. split; [by intros ->|]. intros [i Hi]. rewrite Hi.
  by apply (Hok who).
Qed.

Lemma settled_refs a i : refs_for a i → refs_for (settled a) i.
Proof.
  intros (? & ? & ? & ? & ? & ?). unfold settled. destruct (is_dust a); [|done].
  pose proof ed_positive. unfold refs_for, ed. cbn. split_all; try done; lia.
Qed.

Lemma settled_ok a : data_ok a → data_ok (settled a) ∧ lasting (settled a).
Proof.
  intros Hd. unfold settled, is_dust. pose proof default_info_ok as [? ?].
  destruct (Z.ltb_spec (free a) ed); cbn [andb]; [|split; [done|by right; left]].
  destruct (Z.eqb_spec (reserved a) 0); [done|]. split; [done|by right; right].
Qed.

Lemma settled_lasting a : lasting a → settled a = a.
Proof.
  unfold settled, is_dust. intros [->|[?|?]]; [by case_match|..].
  - by rewrite (proj2 (Z.ltb_ge _ _)).
  - rewrite (proj2 (Z.eqb_neq _ _)) by done. by rewrite andb_false_r.
Qed.

Lemma settled_alive a i : refs_for a i → is_dust a = false → alive i.
Proof.
  intros Hr Hd. apply (refs_alive a); [done|]. unfold is_dust in Hd.
  apply andb_false_iff in Hd as [Hd|Hd]; [left; lia|right]. unfold consumes. by rewrite Hd.
Qed.

Definition is_new s who : bool := bool_decide (account s who = default_value).

Lemma accounts_eq_get s s' who :
  accounts s' !! who = accounts s !! who → get_account s' who = get_account s who.
Proof. unfold get_account. by intros ->. Qed.

Lemma consumes_new s who : negb (is_new s who) && consumes (account s who) = consumes (account s who).
Proof. unfold is_new. case_bool_decide as Hd; [by rewrite Hd|done]. Qed.

(** Storing what the closure left. *)
Lemma store_ok who s0 s a :
  accounts_ok s0 → touches who s0 s → data_ok a → refs_for a (get_account s who) →
  let i := get_account s who in
  let s' := if (0 <? providers i) || (0 <? sufficients i)
            then put_account who (set_data i (settled a)) s else remove_account who s in
  accounts_ok s' ∧ touches who s0 s' ∧ account s' who = settled a.
Proof.
  intros Hok Ht Hd Hr i s'. destruct (settled_ok a Hd) as [Hsd Hsl].
  destruct ((0 <? providers i) || (0 <? sufficients i)) eqn:Hal; subst s'.
  - assert (Ht' := touches_trans _ _ _ _ Ht (touches_put who (set_data i (settled a)) s)).
    split; [|split; [done|unfold account, stored_get; by rewrite get_put]].
    eapply accounts_ok_touch; [done..|]. cbn. rewrite lookup_insert_eq.
    intros i' [= <-]. split; [done|]. split; [done|]. split; [by apply settled_refs|].
    apply orb_true_iff in Hal as [?|?]; [left|right]; cbn; lia.
  - assert (Ht' := touches_trans _ _ _ _ Ht (touches_remove who s)).
    split; [|split; [done|]].
    + eapply accounts_ok_touch; [done..|]. cbn. by rewrite lookup_delete_eq.
    + unfold account, stored_get, get_account. cbn. rewrite lookup_delete_eq. cbn.
      unfold settled. destruct (is_dust a) eqn:Hdust; [done|].
      destruct (settled_alive a i Hr Hdust) as [Hp|Hp]; apply orb_false_iff in Hal as [??]; lia.
Qed.

(** Only events differ. *)
Definition same s s' : Prop := accounts s' = accounts s ∧ items s' = items s.

Lemma same_touches who s s' : same s s' → touches who s s'.
Proof. intros [Ha Hi]. split; [done|]. intros w _. by rewrite Ha. Qed.

Lemma same_account who s s' : same s s' → account s' who = account s who.
Proof. intros [Ha _]. unfold account, stored_get, get_account. by rewrite Ha. Qed.

Lemma same_accounts_ok s s' : same s s' → accounts_ok s → accounts_ok s'.
Proof. intros [Ha _]. unfold accounts_ok. by rewrite Ha. Qed.

Lemma same_trans s1 s2 s3 : same s1 s2 → same s2 s3 → same s1 s3.
Proof. intros [] []. split; congruence. Qed.

Lemma on_some_event {E A} (o : option A) (g : A → Event AccountId) s :
  ∃ s', on_some (E:=E) o (λ x, deposit_event (g x)) s = (s', Ok tt) ∧ same s s'.
Proof. destruct o; eexists; by split. Qed.

(** The last step: the assertion holds. *)
Lemma finish_ok {R} (a : AccountData) (en : option Z) (r : R) :
  (if (free a <? ed) && (reserved a =? 0)
   then retM (en, (if free a =? 0 then None else Some (free a)), r, None)
   else if (free a =? 0) || (ed <=? free a) || negb (reserved a =? 0)
   then retM (en, None, r, Some a) else panicM : M State Error _) =
  retM (en, dust_of a, r, if is_dust a then None else Some a).
Proof.
  unfold dust_of, is_dust. destruct (Z.ltb_spec (free a) ed); cbn [andb].
  - destruct (Z.eqb_spec (reserved a) 0); cbn [negb].
    + by destruct (Z.eqb_spec (free a) 0).
    + by rewrite !orb_true_r.
  - rewrite (proj2 (Z.leb_le ed (free a))) by lia. by rewrite orb_true_r.
Qed.

Lemma try_mutate_account_ok {R} who (f : AccountData → bool → M State Error (R * AccountData))
    s s1 r1 :
  accounts_ok s → f (account s who) (is_new s who) s = (s1, r1) → accounts_ok s1 →
  accounts s1 !! who = accounts s !! who → (∀ r a, r1 = Ok (r, a) → data_ok a) → r1 ≠ Panic →
  match try_mutate_account who f s with
  | (s', Ok (r, dust)) => ∃ a, r1 = Ok (r, a) ∧ accounts_ok s' ∧ touches who s1 s' ∧
      account s' who = settled a ∧ dust = dust_of a
  | (s', Err e) => accounts_ok s' ∧ touches who s1 s' ∧ account s' who = account s who ∧
      ((r1 = Err e ∧ s' = s1) ∨
       ∃ r a, r1 = Ok (r, a) ∧ refused who s (account s who) a)
  | (_, Panic) => False
  end.
Proof.
  intros Hok Hf Hok1 Hwho Hdata Hnp.
  destruct (accounts_ok_get s who Hok) as ((_ & _ & _ & Hnew) & _ & Hr).
  unfold try_mutate_account. erewrite bindM_ok; [|unfold ensure_upgraded; by rewrite Hnew|done].
  unfold bindM at 1, stored_try_mutate_exists. fold (account s who).
  set (maybe := if bool_decide (account s who = default_value) then None else Some (account s who)).
  unfold mutate_stored.
  assert (Hm : default default_value maybe = account s who).
  { unfold maybe. by case_bool_decide as Hd; [rewrite Hd|]. }
  assert (Hn : bool_decide (maybe = None) = is_new s who).
  { unfold maybe, is_new.
    destruct (bool_decide (account s who = default_value));
      [by apply bool_decide_true|by apply bool_decide_false]. }
  rewrite Hm, Hn. cbv zeta. unfold bindM at 1. rewrite Hf.
  destruct r1 as [[r a]|e|]; [| |done].
  2: { split_all; try done; [|by left].
    unfold account, stored_get. by rewrite (accounts_eq_get s). }
  cbn [fst snd]. rewrite finish_ok. specialize (Hdata r a eq_refl).
  pose proof (accounts_eq_get _ _ _ Hwho) as Hg.
  assert (Ha : account s1 who = account s who) by (unfold account, stored_get; by rewrite Hg).
  pose proof (update_refs_ok who s1 (account s who) a (accounts_ok_stands _ _ Hok1) Ha) as Hu.
  rewrite Hg in Hu. specialize (Hu Hr). rewrite consumes_new, andb_true_r. unfold bindM at 1.
  destruct (update_refs _ _ _ _ _ s1) as [s2 [[]|e|]]; [| |done].
  - destruct Hu as [Ht Hr2]. unfold retM at 1.
    destruct (store_ok who s1 s2 a Hok1 Ht Hdata Hr2) as (Hok3 & Ht3 & Ha3).
    replace (default default_value (if is_dust a then None else Some a)) with (settled a)
      by (unfold settled; by destruct (is_dust a)).
    set (s3 := if _ || _ then _ else _) in *. clearbody s3. cbn [fst snd].
    destruct (on_some_event (E:=Error) (if is_new s who then Some (free a) else None) (Endowed who) s3)
      as (s4 & He4 & Hs4).
    erewrite bindM_ok by done.
    destruct (on_some_event (E:=Error) (dust_of a) (DustLost who) s4) as (s5 & He5 & Hs5).
    erewrite bindM_ok by done. pose proof (same_trans _ _ _ Hs4 Hs5) as Hs35.
    exists a. split; [done|]. split; [by eapply same_accounts_ok|].
    split; [by eapply touches_trans, same_touches|]. by rewrite (same_account _ _ _ Hs35).
  - destruct Hu as (Ht & (i' & Hst & Hd & Hri) & Hwhy). unfold refused, can_dec_provider in Hwhy.
    rewrite Hg in Hwhy.
    destruct (accounts_ok_get s who Hok) as (? & ? & _).
    split; [|split; [done|split; [|right; by exists r, a]]].
    + eapply accounts_ok_touch; [exact Hok1|done|]. eapply stands_info_ok; rewrite ?Hd; done.
    + unfold account at 1, stored_get. by rewrite (proj1 Hst).
Qed.

(** * The supply *)

Definition tot a : Z := free a + reserved a.

(** What all accounts hold together. *)
Definition held_in (m : gmap AccountId Info) : Z :=
  map_fold (λ _ i acc, tot (acc_data i) + acc) 0 m.
Definition held s : Z := held_in (accounts s).

(** What is issued but in no account. *)
Definition excess s : Z := total_issuance s - held s.

Lemma held_in_lookup m who :
  held_in m = tot (default default_value (acc_data <$> m !! who)) + held_in (delete who m).
Proof.
  unfold held_in. destruct (m !! who) as [i|] eqn:Hi; cbn.
  - rewrite (map_fold_delete_L _ _ who i m); [done| |done]. intros; lia.
  - by rewrite delete_id.
Qed.

Lemma held_account s who : held s = tot (account s who) + held_in (delete who (accounts s)).
Proof.
  unfold held. rewrite (held_in_lookup _ who). f_equal. unfold account, stored_get, get_account.
  by destruct (accounts s !! who).
Qed.

Lemma touches_delete who s s' : touches who s s' → delete who (accounts s') = delete who (accounts s).
Proof.
  intros [_ Ht]. apply map_eq. intros w. destruct (decide (w = who)) as [->|Hw].
  - by rewrite !lookup_delete_eq.
  - rewrite !lookup_delete_ne by done. by apply Ht.
Qed.

Lemma touches_held who s s' :
  touches who s s' → held s' = held s - tot (account s who) + tot (account s' who).
Proof.
  intros Ht. rewrite (held_account s who), (held_account s' who), (touches_delete _ _ _ Ht). lia.
Qed.

Lemma touches_issuance who s s' : touches who s s' → total_issuance s' = total_issuance s.
Proof. intros [Hi _]. unfold items in Hi. by injection Hi. Qed.

Lemma touches_excess who s s' :
  touches who s s' → excess s' = excess s + tot (account s who) - tot (account s' who).
Proof.
  intros Ht. unfold excess. rewrite (touches_held _ _ _ Ht), (touches_issuance _ _ _ Ht). lia.
Qed.

Lemma held_in_nonneg (m : gmap AccountId Info) : map_Forall (λ _, info_ok) m → 0 <= held_in m.
Proof.
  unfold held_in. intros Hm. induction m as [|k i m Hk IH] using map_ind.
  { by rewrite map_fold_empty. }
  rewrite map_fold_insert_L by (done || (intros; lia)).
  apply map_Forall_insert in Hm as [((? & ? & _) & _) Hm]; [|done]. specialize (IH Hm).
  assert (0 <= tot (acc_data i)) by (unfold tot; lia). lia.
Qed.

(** The accounts are well-formed and covered by the issuance, which fits its type. *)
Definition sound s : Prop :=
  accounts_ok s ∧ total_issuance s <= umax balance_width ∧ 0 <= excess s.

Lemma sound_account s who :
  sound s → 0 <= free (account s who) ∧ 0 <= reserved (account s who) ∧
  tot (account s who) <= held s ∧ held s <= total_issuance s ∧ 0 <= total_issuance s.
Proof.
  intros (Hok & Ht & He). destruct (accounts_ok_get s who Hok) as ((? & ? & _) & _).
  assert (0 <= held_in (delete who (accounts s))).
  { apply held_in_nonneg. by apply map_Forall_delete. }
  pose proof (held_account s who). unfold excess in He. unfold tot in *. lia.
Qed.

Lemma tot_settled a : tot (settled a) = tot a - default 0 (dust_of a).
Proof.
  unfold settled, dust_of. destruct (is_dust a) eqn:Hd; cbn [andb]; [|cbn; lia].
  unfold is_dust in Hd. apply andb_true_iff in Hd as [_ Hr].
  destruct (Z.eqb_spec (free a) 0); cbn; unfold tot; cbn; lia.
Qed.

Lemma dust_range a d : 0 <= free a → dust_of a = Some d → 0 < d < ed.
Proof.
  unfold dust_of, is_dust. intros Hf. case_match; [|done]. intros [= <-].
  repeat match goal with Hx : _ && _ = true |- _ => apply andb_true_iff in Hx as [??] end. lia.
Qed.

End accounts.

(** * Operations *)

(** What a dust handler promises: it turns the credit it is given into issuance taken
    back or balance of some accounts, and takes nothing from any account. *)
Class DustOk `{!Config} {AccountId : Type} `{Countable AccountId} `{!DustRemoval AccountId} : Prop := {
  dust_handled (d : Z) (s : Runtime AccountId AccountData (Storage AccountId)) :
    sound s → 0 <= d <= excess s →
    sound (on_unbalanced d s) ∧ excess (on_unbalanced d s) = excess s - d ∧
    ∀ w, free (account s w) <= free (account (on_unbalanced d s) w);
}.

(** [impl OnUnbalanced for ()]: the credit is dropped. *)
Definition drop_dust `{!Config} {AccountId : Type} `{Countable AccountId} : DustRemoval AccountId :=
  λ d s, (drop_credit (E:=unit) d s).1.

Section operations.
Context `{!Config} `{!ConfigOk} {AccountId : Type} `{Countable AccountId}.
Context `{!DustRemoval AccountId} `{!DustOk}.

Abbreviation State := (Runtime AccountId AccountData (Storage AccountId)).
Implicit Types (s : State) (who : AccountId) (a : AccountData).

Lemma sound_touch who s s' :
  sound s → accounts_ok s' → touches who s s' → tot (account s' who) <= tot (account s who) →
  sound s' ∧ excess s' = excess s + (tot (account s who) - tot (account s' who)).
Proof.
  intros (_ & Hti & He) Hok Ht Hle. rewrite (touches_excess _ _ _ Ht).
  split; [|lia]. split; [done|]. rewrite (touches_issuance _ _ _ Ht), (touches_excess _ _ _ Ht). lia.
Qed.

(** Handling the dust, in both forms the pallet has it. *)
Lemma handle_dust_ok {E} (d : option Z) s :
  sound s → 0 <= default 0 d <= excess s → ∃ s',
  on_some (E:=E) d handle_dust s = (s', Ok tt) ∧ sound s' ∧ excess s' = excess s - default 0 d ∧
  ∀ w, free (account s w) <= free (account s' w).
Proof.
  intros Hs Hd. destruct d as [d|]; cbn [on_some];
    [change (default 0 (Some d)) with d in *|change (default 0 None) with 0 in *].
  - destruct (dust_handled d s Hs Hd) as (? & ? & ?). by eexists.
  - eexists. split; [done|]. split; [done|]. split; [cbn; lia|]. intros; lia.
Qed.

Lemma handle_raw_dust_ok {E} a s :
  sound s → 0 <= free a → default 0 (dust_of a) <= excess s → ∃ s',
  on_some (E:=E) (dust_of a) handle_raw_dust s = (s', Ok tt) ∧ sound s' ∧
  excess s' = excess s - default 0 (dust_of a) ∧ ∀ w, free (account s w) <= free (account s' w).
Proof.
  intros Hs Hf Hd. destruct (dust_of a) as [d|] eqn:Hdust.
  - apply dust_range in Hdust as Hr; [|done]. change (default 0 (Some d)) with d in *.
    replace (on_some (E:=E) (Some d) handle_raw_dust) with (on_some (E:=E) (Some d) handle_dust).
    + apply (handle_dust_ok (Some d)); [done|]. change (default 0 (Some d)) with d. lia.
    + cbn [on_some]. unfold handle_raw_dust, saturating_sub. f_equal. lia.
  - apply (handle_dust_ok None); [done|]. destruct Hs as (_ & _ & ?). cbn. lia.
Qed.

(** A closure that only computes. *)
Lemma mutate_account_ok {R} who (f : AccountData → R * AccountData) s :
  accounts_ok s → data_ok (f (account s who)).2 →
  match mutate_account who f s with
  | (s', Ok (r, dust)) => r = (f (account s who)).1 ∧ accounts_ok s' ∧ touches who s s' ∧
      account s' who = settled (f (account s who)).2 ∧ dust = dust_of (f (account s who)).2
  | (s', Err e) => accounts_ok s' ∧ touches who s s' ∧ account s' who = account s who ∧
      refused who s (account s who) (f (account s who)).2
  | (_, Panic) => False
  end.
Proof.
  intros Hok Hd. unfold mutate_account.
  pose proof (try_mutate_account_ok who (λ a _, retM (f a)) s s (Ok (f (account s who))) Hok eq_refl Hok
    eq_refl) as Ht. destruct (f (account s who)) as [r a] eqn:Hf. cbn [fst snd] in *.
  specialize (Ht ltac:(by intros r' a' [= <- <-]) ltac:(done)).
  destruct (try_mutate_account _ _ s) as [s' [[r' d]|e|]]; [| |done].
  - destruct Ht as (a' & [= <- <-] & ? & ? & ? & ?). done.
  - destruct Ht as (? & ? & ? & [[??]|(r' & a' & [= <- <-] & ?)]); done.
Qed.

Lemma set_free_ok a v : data_ok a → 0 <= v → data_ok (set_free a v).
Proof. intros (? & ? & ? & ?) ?. by split_all. Qed.

Lemma set_reserved_ok a v : data_ok a → 0 <= v → data_ok (set_reserved a v).
Proof. intros (? & ? & ? & ?) ?. by split_all. Qed.

(** Writing a balance: an error leaves all amounts as they were. *)
Lemma write_balance_ok who v s :
  accounts_ok s → 0 <= v →
  let a := account s who in
  match write_balance who v s with
  | (s', Ok dust) => accounts_ok s' ∧ touches who s s' ∧ account s' who = settled (set_free a v) ∧
      dust = dust_of (set_free a v) ∧
      saturating_sub (free a) v <= reducible_balance s who Expendable Force
  | (s', Err e) => accounts_ok s' ∧ touches who s s' ∧ account s' who = a ∧
      (reducible_balance s who Expendable Force < saturating_sub (free a) v ∨
       (ed <= free a ∧ v < ed ∧ can_dec_provider s who = false))
  | (_, Panic) => False
  end.
Proof.
  intros Hok Hv a. destruct (accounts_ok_get s who Hok) as (Hd & Hl & _). fold a in Hd, Hl.
  unfold write_balance, bindM at 1, getM. cbv zeta. fold a.
  match goal with |- context [mutate_account who ?g] => set (f := g) end.
  assert (Hdata : data_ok (f a).2).
  { unfold f. case_match; [by apply set_free_ok|done]. }
  pose proof (mutate_account_ok who f s Hok Hdata) as Hm. fold a in Hm. unfold bindM at 1.
  destruct (mutate_account who f s) as [s' [[r dust]|e|]]; [| |done].
  - destruct Hm as (-> & ? & ? & Ha & Hdu). unfold bindM, liftM, retM. unfold f in *.
    destruct (Z.leb_spec (saturating_sub (free a) v) (reducible_balance s who Expendable Force));
      cbn [fst snd] in *; [done|].
    split; [done|]. split; [done|]. rewrite Ha, settled_lasting by done. split; [done|by left].
  - destruct Hm as (? & ? & -> & Hwhy). split; [done|]. split; [done|]. split; [done|].
    unfold f in Hwhy. case_match; cbn [snd] in Hwhy.
    + right. unfold refused in Hwhy.
      change (consumes (set_free a v)) with (consumes a) in Hwhy.
      destruct Hwhy as [(? & ? & _)|(? & ? & Hp)]; [congruence|]. by auto.
    + destruct Hwhy as [(? & ? & _)|Hp]; [congruence|]. left. lia.
Qed.

Lemma reducible_range s who p f :
  accounts_ok s → 0 <= reducible_balance s who p f <= free (account s who).
Proof.
  intros Hok. destruct (accounts_ok_get s who Hok) as ((? & ? & ? & _) & _).
  unfold reducible_balance, saturating_sub. pose proof ed_positive.
  repeat case_match; lia.
Qed.

(** The amount that leaves the account. *)
Definition decrease_of s who amount precision preservation force : Z :=
  match precision with
  | BestEffort => Z.min amount (reducible_balance s who preservation force)
  | Exact => amount
  end.

Lemma decrease_balance_ok who amount precision preservation force s :
  sound s → 0 <= amount →
  let a := account s who in
  let d := decrease_of s who amount precision preservation force in
  match decrease_balance who amount precision preservation force s with
  | (s', Ok r) => r = d ∧ 0 <= d <= free a ∧ sound s' ∧ excess s' = excess s + d ∧
      d <= reducible_balance s who Expendable Force ∧
      (∀ w, free (account s' w) >= if decide (w = who) then free (settled (set_free a (free a - d)))
                                  else free (account s w)) ∧
      (∃ s1, touches who s s1 ∧ account s1 who = settled (set_free a (free a - d)) ∧
       on_some (E:=Error) (dust_of (set_free a (free a - d))) handle_dust s1 = (s', Ok tt))
  | (s', Err e) => sound s' ∧ excess s' = excess s ∧
      (reducible_balance s who Expendable Force < d ∨
       (ed <= free a ∧ free a - d < ed ∧ can_dec_provider s who = false))
  | (_, Panic) => False
  end.
Proof.
  intros Hs Ha a d. pose proof Hs as (Hok & _ & _).
  pose proof (reducible_range s who preservation force Hok) as Hred.
  destruct (sound_account s who Hs) as (Hf & Hr & _). fold a in Hf, Hr, Hred.
  unfold decrease_balance, bindM at 1, getM. cbv zeta. unfold balance. fold a.
  fold (decrease_of s who amount precision preservation force). fold d.
  unfold bindM at 1, liftM, checked_sub.
  destruct (Z.leb_spec d (free a)) as [Hle|Hgt]; cbn [ok_or].
  2: { split; [done|]. split; [done|]. left. pose proof (reducible_range s who Expendable Force Hok) as Hmax.
    fold a in Hmax. lia. }
  assert (Hd0 : 0 <= d) by (unfold d, decrease_of; destruct precision; lia).
  pose proof (write_balance_ok who (free a - d) s Hok ltac:(lia)) as Hw. fold a in Hw. cbv zeta in Hw.
  unfold bindM at 1. destruct (write_balance who (free a - d) s) as [s1 [dust|e|]]; [| |done].
  - destruct Hw as (Hok1 & Ht & Ha1 & -> & Hmax). set (a' := set_free a (free a - d)) in *.
    assert (Htot : tot (account s1 who) = tot a - d - default 0 (dust_of a')).
    { rewrite Ha1, tot_settled. unfold tot, a'. cbn. lia. }
    assert (Hdr : 0 <= default 0 (dust_of a')).
    { destruct (dust_of a') as [x|] eqn:Hx; [|done]. apply dust_range in Hx; [cbn; lia|]. cbn. lia. }
    destruct (sound_touch who s s1 Hs Hok1 Ht) as [Hs1 He1]; [fold a; lia|]. fold a in He1.
    destruct (handle_dust_ok (E:=Error) (dust_of a') s1 Hs1) as (s2 & Hh & Hs2 & He2 & Hm).
    { destruct Hs as (_ & _ & ?). lia. }
    erewrite bindM_ok by done. unfold retM, saturating_sub in *.
    split; [lia|]. split; [lia|]. split; [done|]. split; [lia|]. split; [lia|]. split.
    + intros w. specialize (Hm w). case_decide as Hw; [subst w; by rewrite Ha1 in Hm; lia|].
      unfold account, stored_get in *. rewrite (accounts_eq_get s s1) in Hm by (by apply Ht). lia.
    + by exists s1.
  - destruct Hw as (Hok1 & Ht & Hsame & Hwhy).
    destruct (sound_touch who s s1 Hs Hok1 Ht) as [Hs1 He1].
    { rewrite Hsame. fold a. lia. }
    rewrite Hsame in He1. fold a in He1. split; [done|]. split; [lia|].
    unfold saturating_sub in Hwhy. destruct Hwhy as [?|(? & ? & ?)]; [left; lia|by right].
Qed.

(** Increasing a balance within the range of its type. *)
Lemma increase_balance_ok who amount precision s :
  accounts_ok s → 0 <= amount → free (account s who) + amount <= umax balance_width →
  let a := account s who in
  match increase_balance who amount precision s with
  | (s', Ok r) =>
      (r = 0 ∧ s' = s ∧ (amount = 0 ∨ free a + amount < ed)) ∨
      (r = amount ∧ ed <= free a + amount ∧ accounts_ok s' ∧ touches who s s' ∧
       account s' who = set_free a (free a + amount))
  | (s', Err e) => s' = s ∧ free a + amount < ed
  | (_, Panic) => False
  end.
Proof.
  intros Hok Ha Hmax a. destruct (accounts_ok_get s who Hok) as ((Hf & Hr & _) & _). fold a in Hf, Hr, Hmax.
  unfold increase_balance, bindM at 1, getM, balance. cbv zeta. fold a.
  assert (Hnew : match precision with
    | Exact => ok_or (checked_add balance_width (free a) amount) (Arithmetic Overflow)
    | BestEffort => Ok (saturating_add balance_width (free a) amount)
    end = Ok (free a + amount)).
  { unfold checked_add, saturating_add, umax in *. destruct precision.
    - destruct (Z.ltb_spec (free a + amount) (2 ^ balance_width)); [done|lia].
    - f_equal. lia. }
  rewrite Hnew. unfold bindM at 1, liftM, minimum_balance. fold ed.
  destruct (Z.ltb_spec (free a + amount) ed) as [Hlow|Hge].
  { destruct precision; cbn; [done|]. left. auto. }
  destruct (Z.eqb_spec (free a + amount) (free a)) as [He|Hne].
  { cbn. left. split; [done|]. split; [done|]. left. lia. }
  pose proof (write_balance_ok who (free a + amount) s Hok ltac:(lia)) as Hw. fold a in Hw. cbv zeta in Hw.
  pose proof (reducible_range s who Expendable Force Hok) as Hred.
  unfold bindM at 1. destruct (write_balance who (free a + amount) s) as [s1 [dust|e|]]; [| |done].
  - destruct Hw as (Hok1 & Ht & Ha1 & Hd & _).
    assert (Hnd : is_dust (set_free a (free a + amount)) = false).
    { unfold is_dust. cbn. apply andb_false_iff. left. lia. }
    unfold dust_of, settled in *. rewrite Hnd in *. cbn in Hd. subst dust.
    cbn. right. unfold saturating_sub. split; [lia|]. done.
  - destruct Hw as (_ & _ & _ & [Hlt|?]); [|lia]. unfold saturating_sub in Hlt. lia.
Qed.

(** In a sound state what is in excess can be added to any account. *)
Lemma sound_room s who amount :
  sound s → amount <= excess s → free (account s who) + amount <= umax balance_width.
Proof.
  intros Hs He. destruct (sound_account s who Hs) as (? & ? & ? & ? & ?).
  destruct Hs as (_ & ? & _). unfold excess, tot in *. lia.
Qed.

Lemma set_issuance_excess v s : excess (put_issuance v s) = excess s + (v - total_issuance s).
Proof. unfold excess. change (held (put_issuance v s)) with (held s). cbn. lia. Qed.

(** Adding to an account what is then issued. *)
Lemma increase_excess who amount precision s :
  accounts_ok s → 0 <= amount → free (account s who) + amount <= umax balance_width →
  match increase_balance who amount precision s with
  | (s', Ok r) => (r = 0 ∨ r = amount) ∧ accounts_ok s' ∧ excess s' = excess s - r ∧
      total_issuance s' = total_issuance s
  | (s', Err _) => s' = s
  | (_, Panic) => False
  end.
Proof.
  intros Hok Ha Hmax. pose proof (increase_balance_ok who amount precision s Hok Ha Hmax) as Hi.
  destruct (increase_balance who amount precision s) as [s' [r|e|]]; cbv zeta in Hi; [| |done].
  - destruct Hi as [(-> & -> & _)|(-> & _ & Hok' & Ht & Ha')].
    + split_all; auto; lia.
    + rewrite (touches_excess _ _ _ Ht), (touches_issuance _ _ _ Ht), Ha'.
      split_all; auto. unfold tot. cbn. lia.
  - by destruct Hi as [-> _].
Qed.

(** Taking a decrease out of the issuance. *)
Lemma decrease_excess who amount preservation force s :
  sound s → 0 <= amount →
  match decrease_balance who amount BestEffort preservation force s with
  | (s', Ok r) => sound s' ∧ excess s' = excess s + r ∧ 0 <= r
  | (s', Err _) => sound s' ∧ excess s' = excess s
  | (_, Panic) => False
  end.
Proof.
  intros Hs Ha. pose proof (decrease_balance_ok who amount BestEffort preservation force s Hs Ha) as Hd.
  cbv zeta in Hd. destruct (decrease_balance _ _ _ _ _ s) as [s' [r|e|]]; [|naive_solver|done].
  destruct Hd as (-> & ? & ? & ? & _). split_all; auto; lia.
Qed.

(** Putting the issuance right after an imbalance of [x]. *)
Lemma sound_issuance s v :
  accounts_ok s → v <= umax balance_width → 0 <= excess s + (v - total_issuance s) →
  sound (put_issuance v s).
Proof. intros Hok Hv He. split; [done|]. rewrite set_issuance_excess. done. Qed.

End operations.
