(* ===== verification/Conservation.v ===== *)
(** The operations of the balances pallet one by one: what each does to the accounts it
    names, and that none of them creates or loses funds. *)

From stdpp Require Import base numbers list option gmap sets fin_maps.
From S2P Require Import Prelude System Balances Supply.

Local Open Scope Z_scope.
Local Open Scope rust_scope.

Section operations.
Context `{!Config} `{!ConfigOk} {AccountId : Type} `{Countable AccountId}.
Context `{!DustRemoval AccountId} `{!DustOk}.

Abbreviation State := (Runtime AccountId AccountData (Storage AccountId)).
Implicit Types (s : State) (who : AccountId) (a : AccountData).

(** The state stays sound and what is issued beyond the accounts stays the same, also
    when there is an error. *)
Definition conserves {E A} (c : M State E A) s : Prop :=
  match c s with
  | (s', Ok _) | (s', Err _) => sound s' ∧ excess s' = excess s
  | (_, Panic) => False
  end.

Lemma same_issuance s s' : same s s' → total_issuance s' = total_issuance s.
Proof. intros [_ Hi]. unfold items in Hi. by injection Hi. Qed.

Lemma same_sound s s' : same s s' → sound s → sound s' ∧ excess s' = excess s.
Proof.
  intros Hsame (Hok & Ht & He). pose proof (same_accounts_ok _ _ Hsame Hok) as Hok'.
  pose proof (same_issuance _ _ Hsame) as Hti. destruct Hsame as [Ha _].
  assert (Hex : excess s' = excess s) by (unfold excess, held; by rewrite Ha, Hti).
  split; [|done]. split; [done|]. by rewrite Hti, Hex.
Qed.

(** ** Squaring up the issuance *)

(** Funds taken from the accounts leave the issuance. *)
Lemma sub_issuance_ok s v x :
  sound s → 0 <= v → excess s = x + v → 0 <= x →
  sound (put_issuance (saturating_sub (total_issuance s) v) s) ∧
  excess (put_issuance (saturating_sub (total_issuance s) v) s) = x.
Proof.
  intros Hs Hv He Hx. pose proof Hs as (Hok & Ht & _).
  assert (v <= total_issuance s).
  { destruct Hs as (Hok' & _ & _). pose proof (held_in_nonneg _ Hok'). unfold excess, held in He. lia. }
  unfold saturating_sub. rewrite set_issuance_excess. split; [|lia].
  apply sound_issuance; [done|lia|lia].
Qed.

(** Funds put into the accounts enter the issuance. *)
Lemma add_issuance_ok s v x :
  accounts_ok s → total_issuance s + v <= umax balance_width → excess s = x - v → 0 <= x →
  sound (put_issuance (saturating_add balance_width (total_issuance s) v) s) ∧
  excess (put_issuance (saturating_add balance_width (total_issuance s) v) s) = x.
Proof.
  intros Hok Hv He Hx. unfold saturating_add. rewrite Z.min_r by lia.
  rewrite set_issuance_excess. split; [|lia]. apply sound_issuance; [done|lia|lia].
Qed.

Lemma issuance_room s who amount :
  sound s → total_issuance s + amount <= umax balance_width →
  free (account s who) + amount <= umax balance_width.
Proof.
  intros Hs Hr. destruct (sound_account s who Hs) as (? & ? & ? & ? & ?). unfold tot in *. lia.
Qed.

Lemma checked_room (x y z : Z) :
  checked_add balance_width x y = Some z → x + y <= umax balance_width.
Proof. rewrite checked_add_Some. unfold umax. lia. Qed.

(** ** [fungible::Mutate] *)

Lemma mint_like who amount (e : Event AccountId) s :
  sound s → 0 <= amount →
  conserves (let* s := getM in
    let* _ := liftM (ok_or (checked_add balance_width (total_issuance s) amount) (Arithmetic Overflow)) in
    let* actual := increase_balance who amount Exact in
    let* s := getM in
    set_total_issuance (saturating_add balance_width (total_issuance s) actual);;;
    deposit_event e;;;
    retM actual) s.
Proof.
  intros Hs Ha. unfold conserves, bindM at 1, getM at 1, bindM at 1, liftM.
  destruct (checked_add _ _ _) as [v|] eqn:Hv; cbn [ok_or]; [|done].
  apply checked_room in Hv. pose proof Hs as (Hok & Ht & He).
  pose proof (increase_excess who amount Exact s Hok Ha (issuance_room _ _ _ Hs Hv)) as Hi.
  unfold bindM at 1. destruct (increase_balance who amount Exact s) as [s' [r|err|]]; [| |done].
  - destruct Hi as (Hr & Hok' & He' & Ht').
    destruct (add_issuance_ok s' r (excess s) Hok') as [Hs1 He1]; [lia..|]. exact (conj Hs1 He1).
  - by subst s'.
Qed.

Lemma mint_into_conserves who amount s :
  sound s → 0 <= amount → conserves (mint_into who amount) s.
Proof. apply mint_like. Qed.

Lemma restore_conserves who amount s :
  sound s → 0 <= amount → conserves (restore who amount) s.
Proof. apply mint_like. Qed.

(** The tail of [burn_from] and [shelve]. *)
Lemma burn_like who amount force (e : Z → Event AccountId) s :
  sound s → 0 <= amount →
  conserves (let* actual := decrease_balance who amount BestEffort Expendable force in
    let* s := getM in
    set_total_issuance (saturating_sub (total_issuance s) actual);;;
    deposit_event (e actual);;;
    retM actual) s.
Proof.
  intros Hs Ha. pose proof (decrease_excess who amount Expendable force s Hs Ha) as Hd.
  unfold conserves, bindM at 1. destruct (decrease_balance _ _ _ _ _ s) as [s' [r|err|]]; [|done|done].
  destruct Hd as (Hs' & He & Hr). destruct Hs as (_ & _ & ?).
  destruct (sub_issuance_ok s' r (excess s) Hs' Hr) as [Hs1 He1]; [lia..|]. exact (conj Hs1 He1).
Qed.

Lemma burn_from_conserves who amount precision force s :
  sound s → 0 <= amount → conserves (burn_from who amount precision force) s.
Proof.
  intros Hs Ha. unfold burn_from, conserves, bindM at 1, getM at 1, bindM at 1, liftM, ensure.
  destruct (_ || _); [|done]. unfold bindM at 1. destruct (checked_sub _ _); cbn [ok_or]; [|done].
  apply (burn_like who _ force (Burned who)); [done|].
  pose proof (reducible_range s who Expendable force (proj1 Hs)). lia.
Qed.

Lemma shelve_conserves who amount s :
  sound s → 0 <= amount → conserves (shelve who amount) s.
Proof.
  intros Hs Ha. unfold shelve, conserves, bindM at 1, getM at 1, bindM at 1, liftM, ensure.
  destruct (_ =? _); [|done]. unfold bindM at 1. destruct (checked_sub _ _); cbn [ok_or]; [|done].
  apply (burn_like who _ Polite (Suspended who)); [done|].
  pose proof (reducible_range s who Expendable Polite (proj1 Hs)). lia.
Qed.

(** ** Transfers *)

Lemma reducible_force s who preservation force :
  accounts_ok s → reducible_balance s who preservation force <= reducible_balance s who preservation Force.
Proof.
  intros Hok. destruct (accounts_ok_get s who Hok) as ((? & ? & ? & _) & _). pose proof ed_positive.
  unfold reducible_balance, saturating_sub. destruct force; [|done].
  change (bool_decide (Polite = Polite)) with true. change (bool_decide (Force = Polite)) with false.
  destruct (_ || _); cbn [andb]; fold ed; lia.
Qed.

(** Passing the check of the source means that the amount can be taken. *)
Lemma can_withdraw_ok s who amount preservation r :
  accounts_ok s → 0 <= amount →
  withdraw_into_result (can_withdraw s who amount) (bool_decide (preservation ≠ Expendable)) = Ok r →
  amount <= reducible_balance s who Expendable Polite ∧
  amount <= reducible_balance s who preservation Polite ∧
  (free (account s who) - amount < ed → amount = 0 ∨ can_dec_provider s who = true).
Proof.
  intros Hok Ha. pose proof (reducible_range s who Expendable Polite Hok).
  pose proof (reducible_range s who preservation Polite Hok). unfold can_withdraw.
  destruct (Z.eqb_spec amount 0); [by intros; split_all; auto; lia|].
  destruct (bool_decide (checked_sub _ _ = None)); [done|].
  destruct (checked_sub _ _) as [v|] eqn:Hv; [|done]. apply checked_sub_Some in Hv as [? ->].
  destruct (Z.ltb_spec (reducible_balance s who Expendable Polite) amount) as [|Hred]; [done|].
  destruct (accounts_ok_get s who Hok) as ((? & ? & ? & _) & _). fold ed.
  destruct (Z.ltb_spec (free (account s who) - amount) ed) as [Hlow|Hhigh].
  - destruct (can_dec_provider s who); [|done]. destruct (_ <? _); [done|]. cbn [withdraw_into_result].
    destruct (decide (preservation = Expendable)) as [->|Hp]; [by auto|].
    by rewrite bool_decide_true.
  - intros _. split; [done|]. split; [|lia]. revert Hred.
    unfold reducible_balance, saturating_sub. fold ed. repeat case_match; lia.
Qed.

Lemma can_deposit_ok s who amount :
  deposit_into_result (can_deposit s who amount Extant) = Ok tt →
  amount = 0 ∨ ed <= free (account s who) + amount.
Proof.
  unfold can_deposit. destruct (Z.eqb_spec amount 0); [auto|]. cbn [bool_decide decide_rel andb].
  destruct (bool_decide (Extant = Minted)) eqn:Hb; [by apply bool_decide_eq_true in Hb|]. cbn [andb].
  destruct (checked_add _ _ _) as [v|] eqn:Hv; [|done]. apply checked_add_Some in Hv as [? ->].
  fold ed. destruct (Z.ltb_spec (free (account s who) + amount) ed); [done|]. auto.
Qed.

(** The two checks that a transfer starts with. *)
Definition transfer_checks s (source dest : AccountId) amount preservation : res Error unit :=
  let? _ := withdraw_into_result (can_withdraw s source amount)
              (bool_decide (preservation ≠ Expendable)) in
  deposit_into_result (can_deposit s dest amount Extant).

Lemma set_free_same a : set_free a (free a + 0) = a.
Proof. destruct a. unfold set_free. cbn. f_equal. lia. Qed.

(** What was taken can be given. *)
Lemma give_ok {E} dest amount s x :
  sound s → 0 <= amount → 0 <= x → excess s = x + amount →
  amount = 0 ∨ ed <= free (account s dest) + amount →
  ∃ s', ignoreM (E':=E) (increase_balance dest amount BestEffort) s = (s', Ok tt) ∧
    sound s' ∧ excess s' = x ∧ touches dest s s' ∧
    account s' dest = set_free (account s dest) (free (account s dest) + amount).
Proof.
  intros Hs Ha Hx He Hmin. pose proof Hs as (Hok & Ht & _).
  pose proof (increase_balance_ok dest amount BestEffort s Hok Ha (sound_room s dest amount Hs ltac:(lia))) as Hi.
  cbv zeta in Hi. unfold ignoreM.
  destruct (increase_balance dest amount BestEffort s) as [s' [r|e|]]; [| |done]; eexists; (split; [done|]).
  - destruct Hi as [(-> & -> & Hr)|(-> & _ & Hok' & Htch & Ha')].
    + assert (amount = 0) as -> by lia. rewrite set_free_same. split_all; try done. lia.
    + pose proof (touches_excess _ _ _ Htch) as Hex. rewrite Ha' in Hex. unfold tot in Hex. cbn in Hex.
      split; [|by split_all; [lia|..]]. split; [done|]. rewrite (touches_issuance _ _ _ Htch). lia.
  - destruct Hi as [-> Hlow]. assert (amount = 0) as -> by lia. rewrite set_free_same.
    split_all; try done. lia.
Qed.

Lemma touches_account who w s s' : touches who s s' → w ≠ who → account s' w = account s w.
Proof.
  intros [_ Ht] Hw. unfold account, stored_get. rewrite (accounts_eq_get s s'); [done|]. by apply Ht.
Qed.

(** What a transfer does, in every case. *)
Lemma transfer_ok source dest amount preservation s :
  sound s → 0 <= amount → source ≠ dest →
  let a := set_free (account s source) (free (account s source) - amount) in
  match transfer source dest amount preservation s with
  | (s', Ok r) => transfer_checks s source dest amount preservation = Ok tt ∧
      r = amount ∧ sound s' ∧ excess s' = excess s ∧
      free (account s dest) + amount <= free (account s' dest) ∧
      (dust_of a = None → items s' = items s ∧
       account s' source = settled a ∧
       account s' dest = set_free (account s dest) (free (account s dest) + amount) ∧
       ∀ w, w ≠ source → w ≠ dest → account s' w = account s w)
  | (s', Err e) => s' = s ∧ transfer_checks s source dest amount preservation = Err e
  | (_, Panic) => False
  end.
Proof.
  intros Hs Ha Hne a. pose proof Hs as (Hok & _ & Hex).
  unfold transfer, transfer_checks, bindM at 1, getM, bindM at 1, liftM.
  destruct (withdraw_into_result _ _) as [x|e|] eqn:Hw; [|done|by destruct (can_withdraw _ _ _), (bool_decide _)].
  destruct (can_withdraw_ok _ _ _ _ _ Hok Ha Hw) as (Hred & Hred' & Hprov). unfold bindM at 1.
  destruct (deposit_into_result _) as [[]|e|] eqn:Hd; [|done|by destruct (can_deposit _ _ _ _)].
  apply can_deposit_ok in Hd. unfold bindM at 1.
  pose proof (decrease_balance_ok source amount BestEffort preservation Polite s Hs Ha) as Hdec.
  cbv zeta in Hdec. replace (decrease_of s source amount BestEffort preservation Polite) with amount in Hdec
    by (unfold decrease_of; lia). fold a in Hdec.
  destruct (decrease_balance _ _ _ _ _ s) as [s1 [r|e|]]; [| |done].
  - destruct Hdec as (_ & _ & Hs1 & He1 & _ & Hmono & Hfun).
    pose proof (Hmono dest) as Hfree. rewrite decide_False in Hfree by done.
    destruct (give_ok (E:=Error) dest amount s1 (excess s) Hs1 Ha Hex He1) as (s2 & Hg & Hs2 & He2 & Ht2 & Ha2); [lia|].
    erewrite bindM_ok by done. cbn. split; [done|]. split; [done|]. split; [exact Hs2|]. split; [exact He2|].
    change (account (push_event _ s2)) with (account s2).
    split; [rewrite Ha2; cbn; lia|]. intros Hnd.
    destruct Hfun as (s1' & Ht1 & Ha1 & Hh). rewrite Hnd in Hh. cbn in Hh. injection Hh as ->.
    pose proof (touches_account _ dest _ _ Ht1 ltac:(done)) as Hdest. rewrite Hdest in Ha2.
    split; [by rewrite <- (proj1 Ht1), <- (proj1 Ht2)|].
    split; [by rewrite <- Ha1; apply (touches_account dest)|]. split; [done|].
    intros w Hw1 Hw2. rewrite (touches_account dest w s1 s2) by done. by apply (touches_account source).
  - destruct Hdec as (_ & _ & [Hlt|(Hed & Hlow & Hcan)]).
    + pose proof (reducible_force s source Expendable Polite Hok). lia.
    + specialize (Hprov Hlow). destruct Hprov as [->|Hc]; [lia|by rewrite Hc in Hcan].
Qed.

Lemma transfer_conserves source dest amount preservation s :
  sound s → 0 <= amount → source ≠ dest → conserves (transfer source dest amount preservation) s.
Proof.
  intros Hs Ha Hne. pose proof (transfer_ok source dest amount preservation s Hs Ha Hne) as Ht.
  unfold conserves. cbv zeta in Ht. destruct (transfer _ _ _ _ s) as [s' [r|e|]]; [naive_solver| |done].
  by destruct Ht as [-> _].
Qed.

(** ** [Currency] *)

(** A closure that decides on the new data of the account from the data it finds: either
    nothing is added to the account, or it is big enough to be stored. *)
Lemma handling_dust_ok {R} who (f : AccountData → bool → M State Error (R * AccountData)) s s1 r1 :
  sound s → f (account s who) (is_new s who) s = (s1, r1) → same s s1 → r1 ≠ Panic →
  (∀ r a, r1 = Ok (r, a) → data_ok a ∧ (dust_of a = None ∨ tot a <= tot (account s who))) →
  match try_mutate_account_handling_dust who f s with
  | (s', Ok r) => ∃ a, r1 = Ok (r, a) ∧ accounts_ok s' ∧
      excess s' = excess s + tot (account s who) - tot a ∧
      (tot a <= tot (account s who) → sound s') ∧
      (dust_of a = None → touches who s1 s' ∧ account s' who = settled a)
  | (s', Err _) => sound s' ∧ excess s' = excess s ∧ total_issuance s' = total_issuance s
  | (_, Panic) => False
  end.
Proof.
  intros Hs Hf Hsame Hnp Hdata. destruct (same_sound _ _ Hsame Hs) as [Hs1 He1].
  assert (Hacc : accounts s1 !! who = accounts s !! who) by (by rewrite (proj1 Hsame)).
  pose proof (try_mutate_account_ok who f s s1 r1 (proj1 Hs) Hf (proj1 Hs1) Hacc) as Ht.
  specialize (Ht ltac:(intros r a ->; by apply (Hdata r a)) Hnp).
  assert (Hsacc := same_account who _ _ Hsame).
  unfold try_mutate_account_handling_dust, bindM at 1.
  destruct (try_mutate_account who f s) as [s2 [[r dust]|e|]]; [| |done]; cbn [fst snd].
  - destruct Ht as (a & -> & Hok2 & Ht2 & Ha2 & ->). destruct (Hdata r a eq_refl) as [Hda Hcase].
    pose proof (touches_excess _ _ _ Ht2) as He2. rewrite Ha2, tot_settled, Hsacc in He2.
    assert (Hdr : 0 <= default 0 (dust_of a)).
    { destruct (dust_of a) as [x|] eqn:Hx; [|done]. apply dust_range in Hx; [cbn; lia|apply Hda]. }
    destruct Hs1 as (_ & Hti & Hx1). rewrite <- (touches_issuance _ _ _ Ht2) in Hti.
    destruct (decide (tot a <= tot (account s who))) as [Hle|Hgt].
    + assert (sound s2) as Hs2 by (split; [done|]; lia).
      destruct (handle_raw_dust_ok (E:=Error) a s2 Hs2 (proj1 Hda)) as (s3 & Hh & Hs3 & He3 & _); [lia|].
      erewrite bindM_ok by done. exists a. split; [done|]. split; [apply Hs3|]. split; [lia|].
      split; [done|]. intros Hnd. rewrite Hnd in Hh. cbn in Hh. by injection Hh as <-.
    + destruct Hcase as [Hnd|]; [|lia]. rewrite Hnd in *. cbn [on_some]. cbn in He2.
      exists a. split; [done|]. split; [done|]. split; [cbn; lia|]. split; [lia|]. done.
  - destruct Ht as (Hok2 & Ht2 & Ha2 & _).
    destruct (sound_touch who s1 s2 Hs1 Hok2 Ht2) as [Hs2 He2]; rewrite ?Ha2, ?Hsacc in *; [done|].
    split; [done|]. split; [lia|]. by rewrite (touches_issuance _ _ _ Ht2), (same_issuance _ _ Hsame).
Qed.

(** What an operation that returns an imbalance does: it takes funds from the accounts, and
    the imbalance holds them ... *)
Definition takes {E A} (n : A → Z) (c : M State E A) s : Prop :=
  match c s with
  | (s', Ok v) => sound s' ∧ 0 <= n v ∧ excess s' = excess s + n v
  | (s', Err _) => sound s' ∧ excess s' = excess s
  | (_, Panic) => False
  end.

(** ... or it puts funds into them that are not issued yet. *)
Definition gives {E A} (n : A → Z) (bound : Z) (c : M State E A) s : Prop :=
  match c s with
  | (s', Ok v) => accounts_ok s' ∧ 0 <= n v <= bound ∧ total_issuance s' = total_issuance s ∧
      excess s' = excess s - n v
  | (s', Err _) => sound s' ∧ excess s' = excess s ∧ total_issuance s' = total_issuance s
  | (_, Panic) => False
  end.

Lemma takes_drop {E A} (n : A → Z) (c : M State E A) s :
  sound s → takes n c s → conserves (let* v := c in drop_negative (n v)) s.
Proof.
  intros (_ & _ & He) Ht. unfold takes, conserves, bindM in *.
  destruct (c s) as [s' [v|e|]]; [|done|done]. destruct Ht as (Hs' & Hn & He').
  unfold drop_negative, modifyM. apply sub_issuance_ok; [done..|lia|done].
Qed.

Lemma gives_drop {E A} (n : A → Z) bound (c : M State E A) s :
  sound s → total_issuance s + bound <= umax balance_width → gives n bound c s →
  conserves (let* v := c in drop_positive (n v)) s.
Proof.
  intros (_ & _ & He) Hb Hg. unfold gives, conserves, bindM in *.
  destruct (c s) as [s' [v|e|]]; [|naive_solver|done]. destruct Hg as (Hok & Hn & Ht & He').
  unfold drop_positive, modifyM. apply add_issuance_ok; [done|lia|lia|done].
Qed.

Lemma takes_ret {E A} (n : A → Z) v s : sound s → n v = 0 → takes (E:=E) n (retM v) s.
Proof. intros Hs Hn. cbn. rewrite Hn. split_all; [apply Hs..|lia|lia]. Qed.

Lemma takes_get {E A} (n : A → Z) (k : State → M State E A) s :
  takes n (k s) s → takes n (let* s := getM in k s) s.
Proof. done. Qed.

(** Looking at the result keeps what is known of the state. *)
Lemma event_sound e s : sound s → sound (push_event e s) ∧ excess (push_event e s) = excess s.
Proof. by apply same_sound. Qed.

Lemma tot_set_free a v : tot (set_free a v) = tot a + (v - free a).
Proof. unfold tot. cbn. lia. Qed.

(** An account that can be stored is not dust, nor is one that grows. *)
Lemma no_dust a : ed <= free a ∨ reserved a ≠ 0 ∨ free a = 0 → dust_of a = None.
Proof.
  unfold dust_of, is_dust. intros Hor.
  destruct (Z.ltb_spec (free a) ed), (Z.eqb_spec (reserved a) 0), (Z.eqb_spec (free a) 0);
    cbn [andb negb]; (done || lia).
Qed.

Lemma grown_no_dust s who v :
  accounts_ok s → is_new s who = false ∨ ed <= v → free (account s who) <= v →
  dust_of (set_free (account s who) v) = None.
Proof.
  intros Hok Hnew Hv. apply no_dust. cbn. destruct (accounts_ok_get s who Hok) as (_ & Hl & _).
  destruct Hnew as [Hnew|]; [|auto]. apply bool_decide_eq_false in Hnew.
  destruct Hl as [?|[?|?]]; [done|left; lia|auto].
Qed.

Lemma mutate_handling {R} who (f : AccountData → R * AccountData) :
  mutate_account_handling_dust who f = try_mutate_account_handling_dust who (λ a _, retM (f a)).
Proof. done. Qed.

(** A closure that takes from the account. *)
Lemma shrink_takes {R} (n : R → Z) who (f : AccountData → bool → M State Error (R * AccountData)) s s1 r1 :
  sound s → f (account s who) (is_new s who) s = (s1, r1) → same s s1 → r1 ≠ Panic →
  (∀ r a, r1 = Ok (r, a) → data_ok a ∧ 0 <= n r ∧ tot a = tot (account s who) - n r) →
  takes n (try_mutate_account_handling_dust who f) s.
Proof.
  intros Hs Hf Hsame Hnp Hok1.
  pose proof (handling_dust_ok who f s s1 r1 Hs Hf Hsame Hnp) as Hm. ospecialize (Hm _).
  { intros r a Hr1. destruct (Hok1 r a Hr1) as (? & ? & ?). split; [done|right; lia]. }
  unfold takes. destruct (try_mutate_account_handling_dust who f s) as [s' [p|e|]]; [|naive_solver|done].
  destruct Hm as (a & Hr1 & _ & He & Hs' & _). destruct (Hok1 _ _ Hr1) as (_ & ? & ?).
  split; [apply Hs'; lia|]. split; lia.
Qed.

(** [match c { Ok(r) => { deposit event; r }, Err(_) => (0, value) }] *)
Lemma attempt_takes {E} (c : M State Error (Z * Z)) (ev : Z * Z → Event AccountId) value s :
  takes fst c s →
  takes (E:=E) fst (let* r := attemptM c in
    match r with
    | inr p => deposit_event (ev p);;; retM p
    | inl _ => retM (0, value)
    end) s.
Proof.
  unfold takes, bindM at 1, attemptM. destruct (c s) as [s' [p|e|]]; [| |done].
  - intros (Hs' & Hn & He). destruct (event_sound (ev p) s' Hs') as [Hs2 He2].
    split; [exact Hs2|]. split; [done|]. transitivity (excess s'); [exact He2|done].
  - intros [Hs' He]. cbn. split; [done|]. split; lia.
Qed.

Lemma slash_takes {E} who value s :
  sound s → 0 <= value → takes (E:=E) fst (slash who value) s.
Proof.
  intros Hs Hv. pose proof Hs as (Hok & _ & _). unfold slash. apply takes_get.
  destruct (value =? 0); [by apply takes_ret|]. destruct (total_balance s who =? 0); [by apply takes_ret|].
  destruct (accounts_ok_get s who Hok) as (Hd & _). pose proof Hd as (Hf & Hr & _).
  apply attempt_takes with (ev := λ p, Slashed who (saturating_sub value p.2)).
  eapply shrink_takes; [done|reflexivity|done|done|]. intros r a [= <- <-].
  set (actual := if can_dec_provider s who then _ else _).
  assert (Ha : 0 <= actual <= free (account s who)).
  { unfold actual, saturating_sub. pose proof ed_positive. case_match; lia. }
  unfold saturating_sub. split; [apply set_free_ok; [done|lia]|]. rewrite tot_set_free. cbn. lia.
Qed.

Lemma slash_reserved_takes {E} who value s :
  sound s → 0 <= value → takes (E:=E) fst (slash_reserved who value) s.
Proof.
  intros Hs Hv. pose proof Hs as (Hok & _ & _). unfold slash_reserved. apply takes_get.
  destruct (value =? 0); [by apply takes_ret|]. destruct (total_balance s who =? 0); [by apply takes_ret|].
  destruct (accounts_ok_get s who Hok) as (Hd & _). pose proof Hd as (Hf & Hr & _).
  apply attempt_takes with (ev := λ p, Slashed who (saturating_sub value p.2)).
  rewrite mutate_handling. eapply shrink_takes; [done|reflexivity|done|done|].
  intros r a [= <- <-]. unfold saturating_sub. split; [apply set_reserved_ok; [done|lia]|].
  unfold tot. cbn. lia.
Qed.

Lemma currency_withdraw_takes who value liveness s :
  sound s → 0 <= value → takes (λ v, v) (currency_withdraw who value liveness) s.
Proof.
  intros Hs Hv. pose proof Hs as (Hok & _ & _). unfold currency_withdraw.
  destruct (value =? 0); [by apply takes_ret|].
  destruct (accounts_ok_get s who Hok) as (Hd & _).
  match goal with |- context [try_mutate_account_handling_dust who ?g] => set (f := g) end.
  destruct (f (account s who) (is_new s who) s) as [s1 r1] eqn:Hfs.
  assert (same s s1 ∧ r1 ≠ Panic ∧ ∀ r a, r1 = Ok (r, a) → r = value ∧ value <= free (account s who) ∧
    a = set_free (account s who) (free (account s who) - value)) as (Hsame & Hnp & Hok1).
  { revert Hfs. unfold f, bindM, liftM, ensure, ensure_can_withdraw, getM.
    destruct (checked_sub _ _) as [v|] eqn:Hc; cbn [ok_or]; [|by intros [= <- <-]].
    apply checked_sub_Some in Hc as [? ->].
    destruct (_ || _); [|by intros [= <- <-]]. destruct (value =? 0); [|destruct (frozen _ <=? _)]; cbn;
      intros [= <- <-]; (split; [done|]); (split; [done|]); by intros r a [= <- <-]. }
  apply (shrink_takes _ who f s s1 r1 Hs Hfs Hsame Hnp). intros r a Hr1.
  destruct (Hok1 r a Hr1) as (-> & ? & ->). split; [apply set_free_ok; [done|lia]|].
  rewrite tot_set_free. lia.
Qed.

(** A closure that adds to the free balance. *)
Lemma grow_gives who (f : AccountData → bool → M State Error (Z * AccountData)) value s s1 r1 :
  sound s → f (account s who) (is_new s who) s = (s1, r1) → same s s1 → r1 ≠ Panic →
  (∀ r a, r1 = Ok (r, a) → 0 <= r <= value ∧ a = set_free (account s who) (free (account s who) + r) ∧
     (r = 0 ∨ is_new s who = false ∨ ed <= r)) →
  gives (λ v, v) value (try_mutate_account_handling_dust who f) s.
Proof.
  intros Hs Hf Hsame Hnp Hok1. pose proof Hs as (Hok & _ & _).
  destruct (accounts_ok_get s who Hok) as (Hd & Hl & _). pose proof Hd as (Hf0 & _).
  assert (Hnd : ∀ r a, r1 = Ok (r, a) → dust_of a = None).
  { intros r a Hr1. destruct (Hok1 r a Hr1) as (? & -> & Hcase). destruct Hcase as [->|Hcase].
    - rewrite set_free_same. apply no_dust. destruct Hl as [->|[?|?]]; auto.
    - apply grown_no_dust; [done| |lia]. destruct Hcase; [auto|right; lia]. }
  pose proof (handling_dust_ok who f s s1 r1 Hs Hf Hsame Hnp) as Hm. ospecialize (Hm _).
  { intros r a Hr1. split; [|left; by eapply Hnd]. destruct (Hok1 r a Hr1) as (? & -> & _).
    apply set_free_ok; [done|lia]. }
  unfold gives. destruct (try_mutate_account_handling_dust who f s) as [s' [p|e|]]; [|done|done].
  destruct Hm as (a & Hr1 & Hok' & He & _ & Hfun). destruct (Hfun (Hnd _ _ Hr1)) as [Ht _].
  destruct (Hok1 _ _ Hr1) as (Hr & -> & _). rewrite tot_set_free in He.
  split; [done|]. split; [done|]. split; [|lia].
  by rewrite (touches_issuance _ _ _ Ht), (same_issuance _ _ Hsame).
Qed.

Lemma deposit_into_existing_gives who value s :
  sound s → 0 <= value → gives (λ v, v) value (deposit_into_existing who value) s.
Proof.
  intros Hs Hv. unfold deposit_into_existing.
  destruct (value =? 0); [cbn; split_all; try lia; apply Hs|].
  match goal with |- context [try_mutate_account_handling_dust who ?g] => set (f := g) end.
  destruct (f (account s who) (is_new s who) s) as [s1 r1] eqn:Hfs.
  assert (same s s1 ∧ r1 ≠ Panic ∧ ∀ r a, r1 = Ok (r, a) → r = value ∧ is_new s who = false ∧
    a = set_free (account s who) (free (account s who) + value)) as (Hsame & Hnp & Hok1).
  { revert Hfs. unfold f, bindM, liftM, ensure. destruct (is_new s who); cbn; [by intros [= <- <-]|].
    destruct (checked_add _ _ _) as [v|] eqn:Hc; cbn; [|by intros [= <- <-]].
    apply checked_add_Some in Hc as [_ ->]. intros [= <- <-]. split; [done|]. split; [done|].
    by intros r a [= <- <-]. }
  apply (grow_gives who f value s s1 r1 Hs Hfs Hsame Hnp). intros r a Hr1.
  destruct (Hok1 r a Hr1) as (-> & ? & ->). split; [lia|]. auto.
Qed.

Lemma deposit_creating_gives {E} who value s :
  sound s → 0 <= value → gives (E:=E) (λ v, v) value (deposit_creating who value) s.
Proof.
  intros Hs Hv. unfold deposit_creating.
  destruct (value =? 0); [cbn; split_all; try lia; apply Hs|].
  match goal with |- context [try_mutate_account_handling_dust who ?g] => set (f := g) end.
  destruct (f (account s who) (is_new s who) s) as [s1 r1] eqn:Hfs.
  assert (same s s1 ∧ r1 ≠ Panic ∧ ∀ r a, r1 = Ok (r, a) → 0 <= r <= value ∧
    a = set_free (account s who) (free (account s who) + r) ∧
    (r = 0 ∨ is_new s who = false ∨ ed <= r)) as (Hsame & Hnp & Hok1).
  { revert Hfs. unfold f, bindM, liftM, ensure. fold ed.
    destruct (Z.leb_spec ed value), (is_new s who); cbn [orb negb]; [..|by intros [= <- <-]|];
      (destruct (checked_add _ _ _) as [v|] eqn:Hc; cbn;
       [apply checked_add_Some in Hc as [_ ->]|]; intros [= <- <-];
       (split; [done|]); (split; [done|]); intros r a [= <- <-]; rewrite ?set_free_same;
       (split; [lia|]); auto). }
  pose proof (grow_gives who f value s s1 r1 Hs Hfs Hsame Hnp Hok1) as Hg.
  unfold gives in *. unfold bindM at 1, attemptM.
  destruct (try_mutate_account_handling_dust who f s) as [s' [p|e|]]; [done| |done]. cbn.
  destruct Hg as (Hs' & He' & Ht'). split; [apply Hs'|]. split; [lia|]. split; [done|lia].
Qed.

Lemma sub_b_small (x y : Z) : 0 <= y <= x → x <= umax balance_width → wsub balance_width x y = x - y.
Proof. intros Hy Hx. unfold wsub, wrap, umax in *. apply Z.mod_small. lia. Qed.

(** A closure that sets the free balance. *)
Lemma set_to_ok {R} who v (f : AccountData → bool → M State Error (R * AccountData)) s s1 r1 :
  sound s → 0 <= v → f (account s who) (is_new s who) s = (s1, r1) → same s s1 → r1 ≠ Panic →
  (∀ r a, r1 = Ok (r, a) → a = set_free (account s who) v ∧ (ed <= v ∨ v = 0 ∨ is_new s who = false)) →
  match try_mutate_account_handling_dust who f s with
  | (s', Ok r) => (∃ a, r1 = Ok (r, a)) ∧ accounts_ok s' ∧
      excess s' = excess s + free (account s who) - v ∧
      (v <= free (account s who) → sound s') ∧
      (free (account s who) < v → total_issuance s' = total_issuance s)
  | (s', Err _) => sound s' ∧ excess s' = excess s ∧ total_issuance s' = total_issuance s
  | (_, Panic) => False
  end.
Proof.
  intros Hs Hv Hf Hsame Hnp Hok1. pose proof Hs as (Hok & _ & _).
  destruct (accounts_ok_get s who Hok) as (Hd & _). pose proof Hd as (Hf0 & _).
  assert (Hnd : ∀ r a, r1 = Ok (r, a) → free (account s who) < v → dust_of a = None).
  { intros r a Hr1 Hlt. destruct (Hok1 r a Hr1) as (-> & Hor). apply grown_no_dust; [done| |lia].
    destruct Hor as [|[|]]; auto; lia. }
  pose proof (handling_dust_ok who f s s1 r1 Hs Hf Hsame Hnp) as Hm. ospecialize (Hm _).
  { intros r a Hr1. specialize (Hnd r a Hr1). destruct (Hok1 r a Hr1) as (-> & _).
    split; [by apply set_free_ok|]. rewrite tot_set_free.
    destruct (decide (free (account s who) < v)); [left; auto|right; lia]. }
  destruct (try_mutate_account_handling_dust who f s) as [s' [p|e|]]; [|done|done].
  destruct Hm as (a & Hr1 & Hok' & He & Hs' & Hfun). specialize (Hnd _ _ Hr1).
  destruct (Hok1 _ _ Hr1) as (-> & _). rewrite tot_set_free in *.
  split; [by eexists|]. split; [done|]. split; [lia|]. split; [intros; apply Hs'; lia|].
  intros Hlt. destruct (Hfun (Hnd Hlt)) as [Ht _].
  by rewrite (touches_issuance _ _ _ Ht), (same_issuance _ _ Hsame).
Qed.

(** The issuance follows a balance that was set from [old] to [v]. *)
Lemma follow_ok s old v x :
  0 <= old → 0 <= v → v <= umax balance_width → old <= umax balance_width → 0 <= x →
  accounts_ok s → excess s = x + old - v → (v <= old → sound s) →
  (old < v → total_issuance s + (v - old) <= umax balance_width) →
  (old <= v → sound (put_issuance (saturating_add balance_width (total_issuance s)
      (wsub balance_width v old)) s) ∧ excess (put_issuance (saturating_add balance_width
      (total_issuance s) (wsub balance_width v old)) s) = x) ∧
  (v <= old → sound (put_issuance (saturating_sub (total_issuance s) (wsub balance_width old v)) s) ∧
    excess (put_issuance (saturating_sub (total_issuance s) (wsub balance_width old v)) s) = x).
Proof.
  intros Hold Hv Hv' Hold' Hx Hok He Hs Hr. split; intros Hle; rewrite sub_b_small by lia.
  - apply add_issuance_ok; [done| |lia|done]. destruct (decide (old < v)) as [|Hge]; [auto|].
    assert (v <= old) as Hvo by lia. destruct (Hs Hvo) as (_ & ? & _). lia.
  - apply sub_issuance_ok; [auto|lia|lia|done].
Qed.

(** [Drop] of what [make_free_balance_be] returns *)
Definition drop_signed {E} (i : SignedImbalance) : M State E unit :=
  match i with Positive v => drop_positive v | Negative v => drop_negative v end.

Lemma make_free_balance_be_conserves {E} who v s :
  sound s → 0 <= v → total_issuance s + v <= umax balance_width →
  conserves (E:=E) (let* i := make_free_balance_be who v in drop_signed i) s.
Proof.
  intros Hs Hv Hr. pose proof Hs as (Hok & Hti & Hex).
  destruct (sound_account s who Hs) as (Hf0 & Hr0 & Hheld & Hti' & Hti0). unfold tot in Hheld.
  unfold make_free_balance_be. match goal with |- context [attemptM (try_mutate_account_handling_dust who ?g)] => set (f := g) end.
  set (i := if free (account s who) <=? v then Positive (wsub balance_width v (free (account s who)))
            else Negative (wsub balance_width (free (account s who)) v)).
  destruct (f (account s who) (is_new s who) s) as [s1 r1] eqn:Hfs.
  assert (same s s1 ∧ r1 ≠ Panic ∧ ∀ r a, r1 = Ok (r, a) → r = i ∧ a = set_free (account s who) v ∧
    (ed <= v ∨ v = 0 ∨ is_new s who = false)) as (Hsame & Hnp & Hok1).
  { revert Hfs. unfold f, bindM, liftM, ensure. fold ed.
    destruct (Z.leb_spec ed v), (is_new s who); cbn [orb negb]; cbn; intros [= <- <-];
      (split; [done|]); (split; [done|]); intros r a [= <- <-]; auto. }
  pose proof (set_to_ok who v f s s1 r1 Hs Hv Hfs Hsame Hnp) as Hm. ospecialize (Hm _).
  { intros r a Hr1. by apply (Hok1 r a) in Hr1 as (_ & ? & ?). }
  unfold conserves, bindM, attemptM.
  destruct (try_mutate_account_handling_dust who f s) as [s' [p|e|]]; [| |done].
  - destruct Hm as ((a & Hr1) & Hok' & He & Hs' & Ht'). destruct (Hok1 _ _ Hr1) as (-> & _).
    destruct (follow_ok s' (free (account s who)) v (excess s)) as [Hup Hdown];
      try done; try lia.
    unfold i, retM. destruct (Z.leb_spec (free (account s who)) v); cbn [drop_signed]; unfold drop_positive, drop_negative, modifyM;
      [by apply Hup|apply Hdown; lia].
  - destruct Hm as (Hs' & He' & Ht'). unfold retM, drop_signed, drop_positive, modifyM.
    destruct (add_issuance_ok s' 0 (excess s) (proj1 Hs')) as [Hs2 He2]; [lia|lia|done|]. exact (conj Hs2 He2).
Qed.

(** [force_set_balance] and [set_balance_deprecated]: the balance is set to zero or to an
    amount that can be stored. *)
Lemma force_like who v (f : AccountData → bool → M State Error (Z * AccountData)) s r1 e :
  sound s → 0 <= v → total_issuance s + v <= umax balance_width → ed <= v ∨ v = 0 →
  f (account s who) (is_new s who) s = (s, r1) → r1 ≠ Panic →
  (∀ r a, r1 = Ok (r, a) → r = free (account s who) ∧ a = set_free (account s who) v) →
  conserves (let* old_free := try_mutate_account_handling_dust who f in
    adjust_issuance v old_free;;; deposit_event e) s.
Proof.
  intros Hs Hv Hr Hed Hfs Hnp Hok1. pose proof Hs as (Hok & Hti & Hex).
  destruct (sound_account s who Hs) as (Hf0 & Hr0 & Hheld & Hti' & Hti0). unfold tot in Hheld.
  pose proof (set_to_ok who v f s s r1 Hs Hv Hfs ltac:(done) Hnp) as Hm. ospecialize (Hm _).
  { intros r a Hr1. apply (Hok1 r a) in Hr1 as (_ & ?). split; [done|]. destruct Hed; auto. }
  unfold conserves, bindM at 1.
  destruct (try_mutate_account_handling_dust who f s) as [s' [p|err|]]; [|naive_solver|done].
  destruct Hm as ((a & Hr1) & Hok' & He & Hs' & Ht'). destruct (Hok1 _ _ Hr1) as (-> & _).
  destruct (follow_ok s' (free (account s who)) v (excess s)) as [Hup Hdown];
    try done; try lia.
  unfold adjust_issuance, whenM, drop_positive, drop_negative, bindM, modifyM, retM.
  destruct (Z.ltb_spec (free (account s who)) v); [exact (Hup ltac:(lia))|].
  destruct (Z.ltb_spec v (free (account s who))); [exact (Hdown ltac:(lia))|].
  split; [exact (Hs' ltac:(lia))|]. transitivity (excess s'); [done|lia].
Qed.

Lemma force_set_balance_conserves o who v s :
  sound s → 0 <= v → total_issuance s + v <= umax balance_width →
  conserves (force_set_balance o who v) s.
Proof.
  intros Hs Hv Hr. unfold force_set_balance, conserves, bindM at 1, liftM, ensure_root.
  destruct o; [|done..]. rewrite mutate_handling.
  set (v' := if v <? ed then 0 else v).
  assert (Hv' : 0 <= v' <= v ∧ (ed <= v' ∨ v' = 0)) by (unfold v'; case_match; lia).
  apply (force_like who v' _ s (Ok (free (account s who), set_free (account s who) v')));
    [done|lia|lia|apply Hv'|done|done|by intros r a [= <- <-]].
Qed.

Lemma set_balance_deprecated_conserves o who v old_reserved s :
  sound s → 0 <= v → total_issuance s + v <= umax balance_width →
  conserves (set_balance_deprecated o who v old_reserved) s.
Proof.
  intros Hs Hv Hr. unfold set_balance_deprecated, conserves, bindM at 1, liftM at 1, ensure_root.
  destruct o; [|done..]. set (v' := if v <? ed then 0 else v).
  assert (Hv' : 0 <= v' <= v ∧ (ed <= v' ∨ v' = 0)) by (unfold v'; case_match; lia).
  apply (force_like who v' _ s (if reserved (account s who) =? old_reserved
    then Ok (free (account s who), set_free (account s who) v') else Err (Token Unsupported)));
    [done|lia|lia|apply Hv'|..].
  - unfold bindM, liftM, ensure, retM. by destruct (reserved (account s who) =? old_reserved).
  - by case_match.
  - intros r a. case_match; [|done]. by intros [= <- <-].
Qed.

(** ** [ReservableCurrency] *)

Lemma takes_nothing {E A} (c : M State E A) s : takes (λ _, 0) c s → conserves c s.
Proof.
  unfold takes, conserves. destruct (c s) as [s' [v|e|]]; [|done|done]. intros (? & _ & ?). split; [done|lia].
Qed.

Lemma conserves_event {E} (c : M State E unit) e s : conserves c s → conserves (c;;; deposit_event e) s.
Proof.
  unfold conserves, bindM. destruct (c s) as [s' [v|err|]]; [|done|done]. intros [Hs' He].
  destruct (event_sound e s' Hs') as [Hs2 He2]. split; [exact Hs2|]. by rewrite <- He, <- He2.
Qed.

Lemma reserve_conserves who value s : sound s → 0 <= value → conserves (reserve who value) s.
Proof.
  intros Hs Hv. pose proof Hs as (Hok & _ & _). unfold reserve. destruct (value =? 0); [done|].
  destruct (accounts_ok_get s who Hok) as (Hd & _). apply conserves_event.
  match goal with |- context [try_mutate_account_handling_dust who ?g] => set (f := g) end.
  destruct (f (account s who) (is_new s who) s) as [s1 r1] eqn:Hfs.
  assert (same s s1 ∧ r1 ≠ Panic ∧ ∀ r a, r1 = Ok (r, a) → value <= free (account s who) ∧
    a = set_reserved (set_free (account s who) (free (account s who) - value))
          (reserved (account s who) + value)) as (Hsame & Hnp & Hok1).
  { revert Hfs. unfold f, bindM, liftM, ensure_can_withdraw, ensure, getM.
    destruct (checked_sub _ _) as [v|] eqn:Hc; cbn [ok_or]; [|by intros [= <- <-]].
    apply checked_sub_Some in Hc as [? ->].
    destruct (checked_add _ _ _) as [v|] eqn:Hc; cbn [ok_or]; [|by intros [= <- <-]].
    apply checked_add_Some in Hc as [? ->].
    destruct (value =? 0); [|destruct (frozen _ <=? _)]; cbn;
      intros [= <- <-]; (split; [done|]); (split; [done|]); by intros r a [= <- <-]. }
  apply takes_nothing, (shrink_takes _ who f s s1 r1 Hs Hfs Hsame Hnp). intros r a Hr1.
  destruct (Hok1 r a Hr1) as (Hle & ->). pose proof Hd as (? & ? & _).
  split; [apply set_reserved_ok; [apply set_free_ok; [done|lia]|lia]|]. unfold tot. cbn. lia.
Qed.

Lemma unreserve_conserves {E} who value s : sound s → 0 <= value → conserves (E:=E) (unreserve who value) s.
Proof.
  intros Hs Hv. pose proof Hs as (Hok & Hti & _). unfold unreserve, conserves, bindM at 1, getM.
  destruct (value =? 0); [done|]. destruct (total_balance s who =? 0); [done|].
  destruct (accounts_ok_get s who Hok) as (Hd & _).
  destruct (sound_account s who Hs) as (Hf0 & Hr0 & Hheld & Hti' & _). unfold tot in Hheld.
  rewrite mutate_handling. unfold bindM at 1, attemptM.
  match goal with |- context [try_mutate_account_handling_dust who ?g] => set (f := g) end.
  assert (Hc : conserves (try_mutate_account_handling_dust who f) s).
  { apply takes_nothing. eapply shrink_takes; [done|reflexivity|done|done|]. intros r a [= <- <-].
    rewrite sub_b_small by lia. unfold saturating_add. rewrite (Z.min_r (umax balance_width)) by lia.
    split; [apply set_free_ok; [apply set_reserved_ok; [done|lia]|lia]|]. unfold tot. cbn. lia. }
  unfold conserves in Hc. destruct (try_mutate_account_handling_dust who f s) as [s' [v|e|]]; done.
Qed.

(** What the beneficiary of a repatriation gets. *)
Definition credited (status : Status) (actual : Z) a : AccountData :=
  match status with
  | StatusFree => set_free a (free a + actual)
  | StatusReserved => set_reserved a (reserved a + actual)
  end.

Lemma credited_ok status actual a :
  data_ok a → 0 <= actual → data_ok (credited status actual a) ∧ tot (credited status actual a) = tot a + actual.
Proof.
  intros Hd Ha. pose proof Hd as (? & ? & _). unfold tot.
  destruct status; cbn; (split; [|lia]); [apply set_free_ok|apply set_reserved_ok]; (done || lia).
Qed.

Lemma tot_set_reserved a v : tot (set_reserved a v) = tot a + (v - reserved a).
Proof. unfold tot. cbn. lia. Qed.

(** The inner change, of the account that loses its reserve. *)
Lemma transfer_reserved_to_ok slashed actual status to_account s new :
  accounts_ok s → 0 <= actual <= reserved (account s slashed) →
  let from := set_reserved (account s slashed) (reserved (account s slashed) - actual) in
  match transfer_reserved_to slashed actual status to_account new s with
  | (s1, Ok (_, dust, a)) => accounts_ok s1 ∧ touches slashed s s1 ∧ dust = dust_of from ∧
      a = credited status actual to_account ∧ account s1 slashed = settled from
  | (s1, Err _) => accounts_ok s1 ∧ touches slashed s s1
  | (_, Panic) => False
  end.
Proof.
  intros Hok Ha from. destruct (accounts_ok_get s slashed Hok) as (Hd & _).
  unfold transfer_reserved_to, bindM at 1, liftM, ensure. destruct new; [done|]. cbn [negb].
  match goal with |- context [try_mutate_account slashed ?g] => set (f := g) end.
  destruct (f (account s slashed) (is_new s slashed) s) as [s1 r1] eqn:Hfs.
  assert (s1 = s ∧ r1 ≠ Panic ∧ ∀ r a, r1 = Ok (r, a) → r = credited status actual to_account ∧ a = from)
    as (-> & Hnp & Hok1).
  { revert Hfs. unfold f, bindM, liftM.
    destruct status; (destruct (checked_add _ _ _) as [v|] eqn:Hc; cbn; [|by intros [= <- <-]];
      apply checked_add_Some in Hc as [_ ->]; intros [= <- <-]; split_all; try done; intros r a [= <- <-];
      split; [done|]; unfold from, saturating_sub; by rewrite Z.max_r by lia). }
  pose proof (try_mutate_account_ok slashed f s s r1 Hok Hfs Hok eq_refl) as Hm. ospecialize (Hm _ Hnp).
  { intros r a Hr1. destruct (Hok1 r a Hr1) as [_ ->]. apply set_reserved_ok; [done|lia]. }
  unfold bindM. destruct (try_mutate_account slashed f s) as [s2 [[r dust]|e|]]; [| |done].
  - destruct Hm as (a & Hr1 & ? & ? & ? & ->). destruct (Hok1 _ _ Hr1) as [-> ->]. done.
  - destruct Hm as (? & ? & _). done.
Qed.

(** The two changes together leave the dust of both accounts to be handled. *)
Lemma transfer_reserved_both slashed beneficiary actual status s :
  sound s → slashed ≠ beneficiary → 0 <= actual <= reserved (account s slashed) →
  match try_mutate_account beneficiary (transfer_reserved_to slashed actual status) s with
  | (s2, Ok (_, dust1, dust2)) => ∃ a1 a2, dust1 = dust_of a1 ∧ dust2 = dust_of a2 ∧
      data_ok a1 ∧ data_ok a2 ∧ sound s2 ∧
      excess s2 = excess s + default 0 dust1 + default 0 dust2
  | (_, Err _) => True
  | (_, Panic) => False
  end.
Proof.
  intros Hs Hne Ha. pose proof Hs as (Hok & Hti & Hex).
  destruct (accounts_ok_get s slashed Hok) as (Hd1 & _).
  destruct (accounts_ok_get s beneficiary Hok) as (Hd2 & _).
  pose proof (transfer_reserved_to_ok slashed actual status (account s beneficiary) s (is_new s beneficiary)
    Hok Ha) as Hin. cbv zeta in Hin. set (from := set_reserved _ _) in Hin.
  assert (Hfrom : data_ok from) by (apply set_reserved_ok; [done|lia]).
  set (f := transfer_reserved_to slashed actual status) in *.
  destruct (f (account s beneficiary) (is_new s beneficiary) s) as [s1 r1] eqn:Hfs.
  assert (Hin' : accounts_ok s1 ∧ touches slashed s s1 ∧ r1 ≠ Panic).
  { destruct r1 as [[[? ?] ?]|e|]; naive_solver. }
  destruct Hin' as (Hok1 & Ht1 & Hnp).
  destruct (credited_ok status actual (account s beneficiary) Hd2 ltac:(lia)) as [Hcd Hct].
  pose proof (try_mutate_account_ok beneficiary f s s1 r1 Hok Hfs Hok1) as Hm.
  ospecialize (Hm _ _ Hnp); [by apply Ht1|by intros [u dust] a ->; destruct Hin as (_ & _ & _ & -> & _)|].
  destruct (try_mutate_account beneficiary f s) as [s2 [[[u dust1] dust2]|e|]]; [|done|done].
  destruct Hm as (a & -> & Hok2 & Ht2 & Ha2 & ->). destruct Hin as (_ & _ & -> & -> & Hsl).
  pose proof (touches_excess _ _ _ Ht1) as He1. pose proof (touches_excess _ _ _ Ht2) as He2.
  rewrite Hsl, tot_settled in He1. rewrite Ha2, tot_settled, (touches_account slashed beneficiary s s1) in He2 by done.
  unfold from in He1 at 1. rewrite tot_set_reserved in He1.
  assert (Hpos : ∀ b, data_ok b → 0 <= default 0 (dust_of b)).
  { intros b (Hb & _). destruct (dust_of b) as [x|] eqn:Hx; [|done]. apply dust_range in Hx; [cbn; lia|done]. }
  pose proof (Hpos _ Hfrom). pose proof (Hpos _ Hcd).
  exists from, (credited status actual (account s beneficiary)). split_all; try done; [|lia].
  split; [done|]. split; [by rewrite (touches_issuance _ _ _ Ht2), (touches_issuance _ _ _ Ht1)|lia].
Qed.

Lemma reducible_held_range s who force :
  accounts_ok s → 0 <= reducible_total_balance_on_hold s who force <= reserved (account s who).
Proof.
  intros Hok. destruct (accounts_ok_get s who Hok) as ((? & ? & ? & _) & _).
  unfold reducible_total_balance_on_hold, saturating_sub. case_match; lia.
Qed.

(** A call that fails is rolled back. *)
Lemma transactional_conserves {E A} (c : M State E A) s :
  sound s → (∀ s', c s ≠ (s', Panic)) → (∀ s' v, c s = (s', Ok v) → sound s' ∧ excess s' = excess s) →
  conserves (transactional c) s.
Proof.
  intros Hs Hp Hc. unfold conserves, transactional. destruct (c s) as [s' [v|e|]]; [by eapply Hc|done|].
  by eapply Hp.
Qed.

Lemma conserves_transactional {E A} (c : M State E A) s :
  sound s → conserves c s → conserves (transactional c) s.
Proof.
  intros Hs. unfold conserves, transactional. by destruct (c s) as [s' [v|e|]].
Qed.

Lemma conserves_bind_ret {E A B} (c : M State E A) (f : A → B) s :
  conserves c s → conserves (let* v := c in retM (f v)) s.
Proof. unfold conserves, bindM. by destruct (c s) as [s' [v|e|]]. Qed.

Lemma repatriate_reserved_conserves slashed beneficiary value status s :
  sound s → 0 <= value → conserves (transactional (repatriate_reserved slashed beneficiary value status)) s.
Proof.
  intros Hs Hv. pose proof Hs as (Hok & _ & _). unfold repatriate_reserved.
  assert (conserves (transactional (do_transfer_reserved slashed beneficiary value BestEffort Polite status)) s) as Hc.
  2: { revert Hc. unfold conserves, transactional, bindM.
       by destruct (do_transfer_reserved _ _ _ _ _ _ s) as [s' [v|e|]]. }
  unfold do_transfer_reserved. destruct (value =? 0); [done|].
  pose proof (reducible_held_range s slashed Polite Hok) as Hmax.
  unfold conserves, transactional, bindM at 1, getM. unfold bindM at 1, liftM, ensure. cbv zeta.
  set (actual := Z.min value _). destruct (actual <=? _); [|done].
  destruct (decide (slashed = beneficiary)) as [<-|Hne].
  { rewrite bool_decide_true by done. destruct status; [|done].
    pose proof (unreserve_conserves (E:=Error) slashed actual s Hs ltac:(lia)) as Hu.
    unfold conserves, bindM in *. by destruct (unreserve slashed actual s) as [s' [v|e|]]. }
  rewrite bool_decide_false by done. unfold bindM at 1.
  pose proof (transfer_reserved_both slashed beneficiary actual status s Hs Hne ltac:(lia)) as Hb.
  destruct (try_mutate_account _ _ s) as [s2 [[[u dust1] dust2]|e|]]; [|done|done].
  destruct Hb as (a1 & a2 & -> & -> & Hd1 & Hd2 & Hs2 & He2). cbn [fst snd].
  pose proof Hs as (_ & _ & Hx). 
  assert (Hpos : 0 <= default 0 (dust_of a2)).
  { destruct (dust_of a2) as [x|] eqn:E2; [|done]. apply dust_range in E2; [cbn; lia|apply Hd2]. }
  destruct (handle_raw_dust_ok (E:=Error) a1 s2 Hs2 (proj1 Hd1)) as (s3 & Hh3 & Hs3 & He3 & _); [lia|].
  rewrite (bindM_ok _ _ _ _ _ _ Hh3 eq_refl).
  destruct (handle_raw_dust_ok (E:=Error) a2 s3 Hs3 (proj1 Hd2)) as (s4 & Hh4 & Hs4 & He4 & _); [lia|].
  rewrite (bindM_ok _ _ _ _ _ _ Hh4 eq_refl). cbn.
  destruct (event_sound (ReserveRepatriated slashed beneficiary actual status) s4 Hs4) as [Hs5 He5].
  split; [exact Hs5|]. transitivity (excess s4); [exact He5|lia].
Qed.

(** ** More of the fungible traits *)

Lemma set_balance_conserves {E} who amount s :
  sound s → 0 <= amount → conserves (E:=E) (set_balance who amount) s.
Proof.
  intros Hs Ha. unfold set_balance, conserves, bindM at 1, getM.
  assert (Hpos : ∀ x y, 0 <= wsub balance_width x y).
  { intros. unfold wsub, wrap. apply Z.mod_pos_bound. pose proof width_positive. lia. }
  unfold bindM at 1. destruct (amount <? balance s who).
  - pose proof (burn_from_conserves who (wsub balance_width (balance s who) amount) BestEffort Force s Hs
      (Hpos _ _)) as Hc.
    unfold conserves, attemptM, bindM in *. by destruct (burn_from _ _ _ _ s) as [s' [v|e|]].
  - pose proof (mint_into_conserves who (wsub balance_width amount (balance s who)) s Hs (Hpos _ _)) as Hc.
    unfold conserves, attemptM, bindM in *. by destruct (mint_into _ _ s) as [s' [v|e|]].
Qed.

Lemma withdraw_takes who value precision preservation force s :
  sound s → 0 <= value → takes (λ v, v) (withdraw who value precision preservation force) s.
Proof.
  intros Hs Hv. pose proof (decrease_balance_ok who value precision preservation force s Hs Hv) as Hd.
  cbv zeta in Hd. unfold takes, withdraw, bindM at 1.
  destruct (decrease_balance _ _ _ _ _ s) as [s' [r|e|]]; [|naive_solver|done].
  destruct Hd as (-> & Hr & Hs' & He & _). set (d := decrease_of _ _ _ _ _ _) in *.
  destruct (event_sound (Withdraw who d) s' Hs') as [Hs2 He2].
  split; [exact Hs2|]. split; [lia|]. transitivity (excess s'); [exact He2|done].
Qed.

Lemma deposit_gives who value precision s :
  sound s → 0 <= value → free (account s who) + value <= umax balance_width →
  gives (λ v, v) value (deposit who value precision) s.
Proof.
  intros Hs Hv Hr. pose proof Hs as (Hok & _ & _).
  pose proof (increase_excess who value precision s Hok Hv Hr) as Hi.
  unfold gives, deposit, bindM at 1.
  destruct (increase_balance _ _ _ s) as [s' [r|e|]]; [|by subst s'|done].
  destruct Hi as (Hcase & Hok' & He & Ht). split; [exact Hok'|]. split; [lia|]. done.
Qed.

(** A credit that is dropped leaves the issuance, also when it is zero. *)
Lemma drop_credit_ok {E} v s x :
  sound s → 0 <= v → excess s = x + v → 0 <= x →
  ∃ s', drop_credit (E:=E) v s = (s', Ok tt) ∧ sound s' ∧ excess s' = x.
Proof.
  intros Hs Hv He Hx. unfold drop_credit, bindM, getM, whenM.
  destruct (Z.eqb_spec v 0) as [->|]; cbn [negb]; eexists; (split; [done|]).
  - split; [done|lia].
  - by apply sub_issuance_ok.
Qed.

Lemma drop_debt_ok {E} v s x :
  accounts_ok s → 0 <= v → total_issuance s + v <= umax balance_width → excess s = x - v → 0 <= x →
  ∃ s', drop_debt (E:=E) v s = (s', Ok tt) ∧ sound s' ∧ excess s' = x.
Proof.
  intros Hok Hv Hr He Hx. unfold drop_debt, bindM, getM, whenM.
  destruct (Z.eqb_spec v 0) as [->|]; cbn [negb]; eexists; (split; [done|]).
  - split; [|lia]. split; [done|]. lia.
  - by apply add_issuance_ok.
Qed.

Lemma withdraw_conserves who value precision preservation force s :
  sound s → 0 <= value →
  conserves (let* c := withdraw who value precision preservation force in drop_credit c) s.
Proof.
  intros Hs Hv. pose proof (withdraw_takes who value precision preservation force s Hs Hv) as Ht.
  unfold takes, conserves, bindM in *. destruct (withdraw _ _ _ _ _ s) as [s' [v|e|]]; [|done|done].
  destruct Ht as (Hs' & Hn & He).
  destruct (drop_credit_ok (E:=Error) v s' (excess s) Hs' Hn He) as (s2 & -> & ? & ?); [apply Hs|done].
Qed.

Lemma deposit_conserves who value precision s :
  sound s → 0 <= value → total_issuance s + value <= umax balance_width →
  conserves (let* d := deposit who value precision in drop_debt d) s.
Proof.
  intros Hs Hv Hr. pose proof (deposit_gives who value precision s Hs Hv (issuance_room _ _ _ Hs Hr)) as Hg.
  unfold gives, conserves, bindM in *. destruct (deposit _ _ _ s) as [s' [v|e|]]; [|naive_solver|done].
  destruct Hg as (Hok' & Hn & Ht & He).
  destruct (drop_debt_ok (E:=Error) v s' (excess s) Hok' (proj1 Hn)) as (s2 & -> & ? & ?);
    [lia|lia|apply Hs|done].
Qed.

(** [resolve] uses the credit up or gives it back. *)
Lemma resolve_ok who credit s x :
  sound s → 0 <= credit → excess s = x + credit → 0 <= x → credit <= umax balance_width →
  match resolve who credit s with
  | (s', Ok _) => sound s' ∧ excess s' = x
  | (s', Err c) => c = credit ∧ sound s' ∧ excess s' = excess s
  | (_, Panic) => False
  end.
Proof.
  intros Hs Hc He Hx Hmax.
  pose proof (deposit_gives who credit Exact s Hs Hc (sound_room s who credit Hs ltac:(lia))) as Hg.
  unfold gives in Hg. unfold resolve, bindM, attemptM.
  destruct (deposit who credit Exact s) as [s' [debt|e|]]; [|naive_solver|done].
  destruct Hg as (Hok' & Hd & Ht & He').
  assert (sound s') as Hs'. { split; [done|]. destruct Hs as (_ & ? & _). rewrite Ht. lia. }
  unfold imbalance_offset. destruct (Z.eqb_spec credit debt) as [<-|]; [split; [done|lia]|].
  rewrite (proj2 (Z.ltb_lt _ _)) by lia. rewrite sub_b_small by lia.
  destruct (drop_credit_ok (E:=Z) (credit - debt) s' x Hs') as (s2 & -> & ? & ?); [lia..|done].
Qed.

(** Issuing a credit and resolving it, or dropping it when that fails. *)
Definition issue_into {E} who amount : M State E unit :=
  let* c := issue amount in
  let* r := attemptM (resolve who c) in
  match r with inl c => drop_credit c | inr _ => retM tt end.

Lemma issue_into_conserves {E} who amount s :
  sound s → 0 <= amount → conserves (E:=E) (issue_into who amount) s.
Proof.
  intros Hs Ha. pose proof Hs as (Hok & Hti & Hex).
  destruct (sound_account s who Hs) as (_ & _ & _ & _ & Hti0).
  unfold issue_into, issue, conserves, bindM at 1, bindM at 1, getM.
  set (new := saturating_add balance_width (total_issuance s) amount).
  assert (Hnew : total_issuance s <= new <= umax balance_width) by (unfold new, saturating_add; lia).
  unfold set_total_issuance, deposit_event, modifyM, bindM at 1, bindM at 1, retM at 1.
  rewrite sub_b_small by lia. set (c := new - total_issuance s).
  set (s1 := push_event _ _). assert (Hs1 : sound s1 ∧ excess s1 = excess s + c).
  { destruct (event_sound (Issued c) (put_issuance new s)) as [Hs1 He1].
    - apply sound_issuance; [done|lia|lia].
    - split; [exact Hs1|]. transitivity (excess (put_issuance new s)); [exact He1|].
      rewrite set_issuance_excess. unfold c. lia. }
  destruct Hs1 as [Hs1 He1]. pose proof (resolve_ok who c s1 (excess s) Hs1) as Hr. clearbody s1.
  ospecialize (Hr _ _ _ _); [unfold c; lia|lia|lia|unfold c; lia|].
  unfold bindM, attemptM. destruct (resolve who c s1) as [s' [v|e|]]; [done| |done].
  destruct Hr as (-> & Hs' & He').
  destruct (drop_credit_ok (E:=E) c s' (excess s) Hs') as (s2 & -> & ? & ?); [unfold c; lia|lia|lia|done].
Qed.

(** ** Freezes *)

Lemma frozen_by_nonneg locks freezes : 0 <= frozen_by locks freezes.
Proof.
  assert (Hge : ∀ {A} (f : A → Z) l x, x <= foldl (λ m y, Z.max m (f y)) x l).
  { intros A f l. induction l as [|y l IH]; intros x; cbn; [lia|]. specialize (IH (Z.max x (f y))). lia. }
  unfold frozen_by. pose proof (Hge _ lock_amount locks 0).
  pose proof (Hge _ amount freezes (foldl (λ m l, Z.max m (lock_amount l)) 0 locks)). lia.
Qed.

Lemma set_frozen_settled a v : lasting a → tot (settled (set_frozen a v)) = tot a.
Proof.
  intros [->|Hl]; [by unfold settled; case_match|]. rewrite settled_lasting; [done|]. right. exact Hl.
Qed.

Lemma update_freezes_conserves who l s : sound s → conserves (update_freezes who l) s.
Proof.
  intros Hs. pose proof Hs as (Hok & Hti & Hex). unfold update_freezes, conserves, bindM at 1, getM.
  destruct (accounts_ok_get s who Hok) as (Hd & Hl & _). set (after := frozen_by (locks_of s who) l).
  match goal with |- context [mutate_account who ?g] => set (f := g) end.
  assert (Hdata : data_ok (f (account s who)).2).
  { pose proof Hd as (? & ? & ? & ?). pose proof (frozen_by_nonneg (locks_of s who) l). by split_all. }
  pose proof (mutate_account_ok who f s Hok Hdata) as Hm. unfold bindM at 1.
  assert (Hend : ∀ s', accounts_ok s' → touches who s s' → tot (account s' who) = tot (account s who) →
    sound s' ∧ excess s' = excess s).
  { intros s' Hok' Ht Hsame. destruct (sound_touch who s s' Hs Hok' Ht); [lia|]. split; [done|lia]. }
  destruct (mutate_account who f s) as [s' [[r dust]|e|]]; [| |done].
  - destruct Hm as (-> & Hok' & Ht & Ha & _). cbn [fst snd f] in *.
    destruct (Hend s' Hok' Ht) as [Hs' He']; [by rewrite Ha; apply set_frozen_settled|].
    unfold bindM, modifyM, deposit_event, whenM, retM. 
    destruct (after <? frozen (account s who)); [done|]. by destruct (_ <? after).
  - destruct Hm as (Hok' & Ht & Ha & _). apply Hend; [done..|]. by rewrite Ha.
Qed.

Lemma conserves_get {E A} (k : State → M State E A) s :
  conserves (k s) s → conserves (let* s := getM in k s) s.
Proof. done. Qed.

(** A check that does not touch the state. *)
Lemma conserves_lift {E A B} (r : res E A) (k : A → M State E B) s :
  sound s → r ≠ Panic → (∀ x, r = Ok x → conserves (k x) s) → conserves (let* x := liftM r in k x) s.
Proof. intros Hs Hp Hk. destruct r; [by apply Hk|by split|done]. Qed.

Lemma put_freeze_total f i amt l : put_freeze f i amt l ≠ Panic.
Proof. unfold put_freeze, ok_or. destruct (find_id _ _); [done|]. by destruct (try_push _ _ _). Qed.

Lemma thaw_conserves i who s : sound s → conserves (thaw i who) s.
Proof. intros Hs. apply conserves_get. by apply update_freezes_conserves. Qed.

Lemma set_freeze_conserves i who amount s : sound s → conserves (set_freeze i who amount) s.
Proof.
  intros Hs. unfold set_freeze. destruct (amount =? 0); [by apply thaw_conserves|].
  apply conserves_get, conserves_lift; [done|apply put_freeze_total|].
  intros l _. by apply update_freezes_conserves.
Qed.

Lemma extend_freeze_conserves i who amount s : sound s → conserves (extend_freeze i who amount) s.
Proof.
  intros Hs. unfold extend_freeze. destruct (amount =? 0); [done|].
  apply conserves_get, conserves_lift; [done|apply put_freeze_total|].
  intros l _. by apply update_freezes_conserves.
Qed.

End operations.

(** Dropping the credit is a way to handle dust. *)
#[global] Instance drop_dust_ok `{!Config} `{!ConfigOk} {AccountId : Type} `{Countable AccountId} :
  DustOk (DustRemoval0 := drop_dust (AccountId:=AccountId)).
Proof.
  constructor. intros d s Hs Hd. unfold on_unbalanced, drop_dust.
  destruct (drop_credit_ok (E:=unit) d s (excess s - d) Hs) as (s' & Hdrop & Hs' & He'); [lia..|].
  rewrite Hdrop. cbn [fst]. split; [done|]. split; [done|]. intros w.
  revert Hdrop. unfold drop_credit, bindM, getM, whenM, set_total_issuance, modifyM, retM.
  case_match; intros [= <-]; apply Z.le_refl.
Qed.

(** * A configuration and states to try things on *)

Definition demo_config : Config := {|
  existential_deposit := 10; balance_width := 128; max_consumers := 2;
  max_locks := 4; max_reserves := 4; max_holds := 4; max_freezes := 4 |}.

#[local] Existing Instance demo_config.

Lemma demo_config_ok : ConfigOk.
Proof. by constructor. Qed.

#[local] Existing Instance demo_config_ok.

Definition demo_info (consumers providers free reserved frozen : Z) : AccountInfo AccountData :=
  mkAccountInfo 0 consumers providers 0 (mkAccountData free reserved frozen IS_NEW_LOGIC).

(** Two accounts, 1 and 2, with the holds of the first. *)
Definition demo_state (i j : AccountInfo AccountData) (holds : list IdAmount)
    : Runtime Z AccountData (Storage Z) :=
  mkRuntime (<[1 := i]> (<[2 := j]> ∅)) []
    (mkStorage (tot (acc_data i) + tot (acc_data j)) 0 ∅ ∅ {[1 := holds]} ∅ []).

Lemma demo_accounts_ok i j holds :
  info_ok i → info_ok j →
  accounts_ok (demo_state i j holds).
Proof. intros Hi Hj. by repeat apply map_Forall_insert_2. Qed.

Lemma demo_sound i j holds :
  info_ok i → info_ok j →
  tot (acc_data i) + tot (acc_data j) <= umax 128 →
  sound (demo_state i j holds) ∧ excess (demo_state i j holds) = 0.
Proof.
  intros Hi Hj Hmax. assert (He : excess (demo_state i j holds) = 0).
  { unfold excess. rewrite (held_account _ 1). unfold account, stored_get, get_account. cbn [accounts demo_state].
    rewrite lookup_insert_eq, delete_insert_id by done. rewrite (held_in_lookup _ 2), lookup_insert_eq.
    rewrite delete_insert_id by done. cbn. unfold held_in. rewrite map_fold_empty. lia. }
  split; [|done]. split; [by apply demo_accounts_ok|]. rewrite He. split; [done|lia].
Qed.

Ltac demo_info_ok :=
  unfold info_ok, data_ok, lasting, refs_for, alive, consumes, ed; cbn;
  split_all; try lia; try done; auto with lia.
