(* ===== verification/Holds.v ===== *)
(** Holds: funds of an account reserved for a reason.

    The list of holds of an account says how much is reserved for which reason;
    [set_balance_on_hold] changes one entry and the reserved balance together.
    Holding funds and releasing them again leaves the account as it was.  When the
    last hold of an account goes that has less than the existential deposit free,
    the rest is lost. *)

From stdpp Require Import base numbers list option gmap sets fin_maps.
From S2P Require Import Prelude System Balances Supply Conservation.

Local Open Scope Z_scope.
Local Open Scope rust_scope.

Section holds.
Context `{!Config} `{!ConfigOk} {AccountId : Type} `{Countable AccountId}.
Context `{!DustRemoval AccountId} `{!DustOk}.

Abbreviation State := (Runtime AccountId AccountData (Storage AccountId)).
Implicit Types (s : State) (who : AccountId) (a : AccountData).

(** * The list of holds *)

(** What the list says is on hold for a reason. *)
Definition held_for (reason : Ident) (l : list IdAmount) : Z :=
  match find_id reason l with Some x => amount x | None => 0 end.

Lemma held_for_cons reason x l :
  held_for reason (x :: l) = if id x =? reason then amount x else held_for reason l.
Proof. unfold held_for, find_id. cbn. by destruct (id x =? reason). Qed.

Lemma held_for_absent reason (l : list IdAmount) : reason ∉ id <$> l → held_for reason l = 0.
Proof.
  induction l as [|x l IH]; [done|]. rewrite fmap_cons, held_for_cons. intros [Hx Hl]%not_elem_of_cons.
  rewrite (proj2 (Z.eqb_neq _ _)) by done. by apply IH.
Qed.

(** Dropping empty entries does not change what is on hold. *)
Lemma held_for_filter reason (l : list IdAmount) :
  NoDup (id <$> l) → held_for reason (List.filter (λ x, negb (amount x =? 0)) l) = held_for reason l.
Proof.
  induction l as [|x l IH]; [done|]. rewrite fmap_cons. intros [Hx Hl]%NoDup_cons. cbn [List.filter].
  rewrite held_for_cons. destruct (Z.eqb_spec (amount x) 0) as [Hz|]; cbn [negb].
  - rewrite IH by done. destruct (Z.eqb_spec (id x) reason) as [<-|]; [|done].
    rewrite Hz. by apply held_for_absent.
  - rewrite held_for_cons. by rewrite IH.
Qed.

Lemma update_id_ids i v l : id <$> update_id i v l = id <$> l.
Proof. induction l as [|x l IH]; [done|]. cbn [update_id]. case_match; [done|]. by rewrite !fmap_cons, IH. Qed.

Lemma held_for_update i v l reason :
  i ∈ id <$> l → held_for reason (update_id i v l) = if i =? reason then v else held_for reason l.
Proof.
  induction l as [|x l IH]; [by intros ?%elem_of_nil|]. rewrite fmap_cons. intros Hin. cbn [update_id].
  destruct (Z.eqb_spec (id x) i) as [<-|Hne]; rewrite !held_for_cons.
  - cbn. by destruct (id x =? reason).
  - apply elem_of_cons in Hin as [->|Hin]; [done|]. rewrite IH by done.
    destruct (Z.eqb_spec (id x) reason), (Z.eqb_spec i reason); congruence.
Qed.

Lemma find_id_spec i l :
  match find_id i l with Some x => id x = i ∧ i ∈ id <$> l | None => i ∉ id <$> l end.
Proof.
  unfold find_id. induction l as [|x l IH]; cbn; [apply not_elem_of_nil|].
  destruct (Z.eqb_spec (id x) i) as [<-|Hne]; [split; [done|left]|].
  destruct (List.find _ l); [destruct IH; split; [done|by right]|]. apply not_elem_of_cons. split; congruence.
Qed.

Lemma held_for_push reason i amt l :
  i ∉ id <$> l → held_for reason (l ++ [mkIdAmount i amt]) = if i =? reason then amt else held_for reason l.
Proof.
  induction l as [|x l IH]; cbn [app].
  - intros _. by rewrite held_for_cons.
  - rewrite fmap_cons. intros [Hx Hl]%not_elem_of_cons. rewrite !held_for_cons, IH by done.
    destruct (Z.eqb_spec (id x) reason), (Z.eqb_spec i reason); congruence.
Qed.

(** What is on hold for all reasons together. *)
Definition hold_sum (l : list IdAmount) : Z := foldr Z.add 0 (amount <$> l).

Lemma held_for_sum reason l : Forall (λ x, 0 <= amount x) l → 0 <= held_for reason l <= hold_sum l.
Proof.
  induction 1 as [|x l Hx Hl IH]; [done|]. rewrite held_for_cons. unfold hold_sum in *. cbn in *.
  destruct (id x =? reason); lia.
Qed.

Lemma hold_sum_filter l : hold_sum (List.filter (λ x, negb (amount x =? 0)) l) = hold_sum l.
Proof.
  induction l as [|x l IH]; [done|]. cbn [List.filter]. unfold hold_sum in *.
  destruct (Z.eqb_spec (amount x) 0); cbn; lia.
Qed.

Lemma hold_sum_update i v l :
  i ∈ id <$> l → hold_sum (update_id i v l) = hold_sum l + (v - held_for i l).
Proof.
  induction l as [|x l IH]; [by intros ?%elem_of_nil|]. rewrite fmap_cons, held_for_cons. intros Hin.
  cbn [update_id]. unfold hold_sum in *. destruct (Z.eqb_spec (id x) i) as [<-|Hne]; cbn; [lia|].
  apply elem_of_cons in Hin as [->|Hin]; [done|]. rewrite IH by done. lia.
Qed.

Lemma hold_sum_push l x : hold_sum (l ++ [x]) = hold_sum l + amount x.
Proof. unfold hold_sum. induction l as [|y l IH]; cbn in *; lia. Qed.

Lemma update_id_nonneg i v l :
  0 <= v → Forall (λ x, 0 <= amount x) l → Forall (λ x, 0 <= amount x) (update_id i v l).
Proof. intros Hv. induction 1 as [|x l Hx Hl IH]; cbn; [constructor|]. case_match; by constructor. Qed.

Lemma filter_sublist {A} (f : A → bool) l : List.filter f l `sublist_of` l.
Proof. induction l as [|x l IH]; cbn; [done|]. case_match; by constructor. Qed.

(** A list of holds: one entry for a reason. *)
Definition hold_list (l : list IdAmount) : Prop := NoDup (id <$> l) ∧ Forall (λ x, 0 <= amount x) l.

(** Setting the hold for one reason. *)
Lemma update_holds_ok reason amt l :
  hold_list l → 0 <= amt <= umax balance_width → held_for reason l <= umax balance_width →
  match update_holds reason amt l with
  | Ok (l', delta, increase) =>
      (∀ r, held_for r l' = if reason =? r then amt else held_for r l) ∧ hold_list l' ∧
      hold_sum l' = hold_sum l + (amt - held_for reason l) ∧
      delta = Z.abs (amt - held_for reason l) ∧
      (increase = false → amt <= held_for reason l) ∧ (increase = true → held_for reason l <= amt)
  | Err e => amt ≠ 0 ∧ reason ∉ id <$> l
  | Panic => False
  end.
Proof.
  intros [Hnd Hnn] Ha Hh. pose proof (held_for_sum reason l Hnn) as Hh0.
  unfold update_holds. pose proof (find_id_spec reason l) as Hf.
  destruct (find_id reason l) as [x|] eqn:Hfind.
  - destruct Hf as [Hx Hin]. assert (Hheld : held_for reason l = amount x) by (unfold held_for; by rewrite Hfind).
    assert (Hnd' : NoDup (id <$> update_id reason amt l)) by (by rewrite update_id_ids).
    split; [intros r; by rewrite held_for_filter, held_for_update|].
    split; [split|].
    + eapply sublist_NoDup; [exact Hnd'|]. apply fmap_sublist, filter_sublist.
    + eapply incl_Forall; [|apply (update_id_nonneg reason amt l); [lia|done]]. apply incl_filter.
    + rewrite hold_sum_filter, hold_sum_update by done. split; [done|].
      rewrite Hheld, sub_b_small by lia. split; [lia|].
      split; intros Hlt; (apply Z.ltb_lt in Hlt || apply Z.ltb_ge in Hlt); lia.
  - pose proof (held_for_absent _ _ Hf) as Hzero. destruct (Z.eqb_spec amt 0) as [->|Hnz].
    + split; [intros r; destruct (Z.eqb_spec reason r) as [<-|]; congruence|].
      split; [done|]. split_all; [lia|lia|done|lia].
    + unfold try_push. destruct (Nat.ltb_spec (length l) max_holds) as [Hlt|Hge]; cbn [ok_or]; [|done].
      split; [intros r; by apply held_for_push|].
      split; [split|rewrite hold_sum_push; cbn; split_all; [lia|lia|done|lia]].
      * rewrite fmap_app. apply NoDup_app. split; [done|]. split; [|apply NoDup_singleton].
        intros y Hy ->%list_elem_of_singleton. done.
      * apply Forall_app. split; [done|]. constructor; [cbn; lia|constructor].
Qed.

(** * Changing a hold *)

Lemma touches_holds who s s' w : touches who s s' → holds_of s' w = holds_of s w.
Proof. intros [Hi _]. unfold items in Hi. unfold holds_of. by injection Hi as _ _ _ _ -> _. Qed.

(** The reserved balance follows the list. *)
Lemma set_balance_on_hold_ok reason who amt s l delta (increase : bool) r :
  accounts_ok s → update_holds reason amt (holds_of s who) = Ok (l, delta, increase) →
  r = (if increase then reserved (account s who) + delta else reserved (account s who) - delta) →
  0 <= r <= umax balance_width →
  match set_balance_on_hold reason who amt s with
  | (s', Ok _) => ∃ s1, accounts_ok s1 ∧ touches who s s1 ∧
      account s1 who = settled (set_reserved (account s who) r) ∧
      s' = put_holds (<[who := l]> (Holds (pallet s1))) s1
  | (_, Err _) => refused who s (account s who) (set_reserved (account s who) r)
  | (_, Panic) => False
  end.
Proof.
  intros Hok Hu Hr Hrange. destruct (accounts_ok_get s who Hok) as (Hd & _).
  unfold set_balance_on_hold, bindM at 1, getM, bindM at 1, liftM. cbv zeta. rewrite Hu. cbn [fst snd].
  assert (Hnew : (if increase then ok_or (checked_add balance_width (reserved (account s who)) delta) (Arithmetic Overflow)
     else ok_or (checked_sub (reserved (account s who)) delta) (Arithmetic Underflow)) = (Ok r : res Error Z)).
  { unfold checked_add, checked_sub, umax in *. destruct increase.
    - rewrite (proj2 (Z.ltb_lt _ _)) by lia. cbn. congruence.
    - rewrite (proj2 (Z.leb_le _ _)) by lia. cbn. congruence. }
  unfold bindM at 1. rewrite Hnew.
  pose proof (try_mutate_account_ok who (λ _ _, retM (tt, set_reserved (account s who) r)) s s
    (Ok (tt, set_reserved (account s who) r)) Hok eq_refl Hok eq_refl) as Hm. ospecialize (Hm _ _); [|done|].
  { intros x a [= <- <-]. apply set_reserved_ok; [done|lia]. }
  unfold bindM at 1. destruct (try_mutate_account who _ s) as [s1 [[[] dust]|e|]]; [| |done].
  - destruct Hm as (a & [= <-] & Hok1 & Ht & Ha & _). by exists s1.
  - destruct Hm as (_ & _ & _ & [[??]|(x & a & [= <- <-] & Hwhy)]); done.
Qed.

(** The holds of an account are within what is reserved. *)
Definition holds_ok s who : Prop :=
  hold_list (holds_of s who) ∧ hold_sum (holds_of s who) <= reserved (account s who).

(** Setting a hold to [amt], where the reserved balance stays in range and the account is
    not refused a reference. *)
Lemma set_hold reason who amt s :
  sound s → holds_ok s who → 0 <= amt →
  let r := reserved (account s who) + (amt - held_for reason (holds_of s who)) in
  r <= umax balance_width → amt <= umax balance_width →
  match set_balance_on_hold reason who amt s with
  | (s', Ok _) => accounts_ok s' ∧ account s' who = settled (set_reserved (account s who) r) ∧
      total_issuance s' = total_issuance s ∧
      excess s' = excess s + tot (account s who) - tot (account s' who) ∧
      (∀ w, w ≠ who → accounts s' !! w = accounts s !! w) ∧
      hold_list (holds_of s' who) ∧
      hold_sum (holds_of s' who) = hold_sum (holds_of s who) + (amt - held_for reason (holds_of s who)) ∧
      ∀ x, held_for x (holds_of s' who) = if reason =? x then amt else held_for x (holds_of s who)
  | (_, Err e) => refused who s (account s who) (set_reserved (account s who) r) ∨
      (amt ≠ 0 ∧ reason ∉ id <$> holds_of s who)
  | (_, Panic) => False
  end.
Proof.
  intros Hs [Hl0 Hh] Ha r Hr Hmax. pose proof Hs as (Hok & Hti & _).
  destruct (sound_account s who Hs) as (Hf0 & Hr0 & Hheld & Hti' & _). unfold tot in Hheld.
  pose proof (held_for_sum reason _ (proj2 Hl0)) as Hhr.
  pose proof (update_holds_ok reason amt (holds_of s who) Hl0 ltac:(lia) ltac:(lia)) as Hu.
  destruct (update_holds reason amt (holds_of s who)) as [[[l delta] inc]|e|] eqn:Hup; [| |done].
  - destruct Hu as (Hl & Hndl & Hsum & -> & Hdec & Hinc).
    assert (Hreq : r = if inc then reserved (account s who) + Z.abs (amt - held_for reason (holds_of s who))
       else reserved (account s who) - Z.abs (amt - held_for reason (holds_of s who))).
    { unfold r. destruct inc; [specialize (Hinc eq_refl)|specialize (Hdec eq_refl)]; lia. }
    pose proof (set_balance_on_hold_ok reason who amt s l _ inc r Hok Hup Hreq ltac:(unfold r in *; lia)) as Hm.
    destruct (set_balance_on_hold reason who amt s) as [s' [[]|e|]]; [|by left|done].
    destruct Hm as (s1 & Hok1 & Ht & Ha1 & ->). split; [exact Hok1|].
    change (account (put_holds _ s1) who) with (account s1 who). split; [done|].
    split; [exact (touches_issuance _ _ _ Ht)|]. split; [exact (touches_excess _ _ _ Ht)|].
    split; [exact (proj2 Ht)|]. unfold holds_of. cbn. by rewrite lookup_insert_eq.
  - unfold set_balance_on_hold, bindM, getM, liftM. rewrite Hup. by right; destruct Hu.
Qed.

Lemma held_for_balance s reason who : balance_on_hold s reason who = held_for reason (holds_of s who).
Proof. done. Qed.

Lemma ensure_can_hold_total s reason who amt : ensure_can_hold s reason who amt ≠ Panic.
Proof. unfold ensure_can_hold, ensure. destruct (hold_available _ _ _); cbn; [|done]. by case_match. Qed.

(** What is true of a state where [delta] more of an account is on hold, for [reason]. *)
Definition moved_to_hold reason who delta a s s' : Prop :=
  accounts_ok s' ∧ holds_ok s' who ∧ total_issuance s' = total_issuance s ∧
  account s' who = a ∧ excess s' = excess s + tot (account s who) - tot a ∧
  (∀ w, w ≠ who → accounts s' !! w = accounts s !! w) ∧
  ∀ x, held_for x (holds_of s' who) = held_for x (holds_of s who) + if reason =? x then delta else 0.

Lemma moved_refl reason who s :
  accounts_ok s → holds_ok s who → moved_to_hold reason who 0 (account s who) s s.
Proof. intros Hok Hho. unfold moved_to_hold. split_all; try done; [lia|]. intros x. case_match; lia. Qed.

(** Adding [delta], which may be negative, to a hold of an account that stays alive. *)
Lemma change_hold reason who delta s :
  sound s → holds_ok s who → ed <= free (account s who) →
  let h := held_for reason (holds_of s who) in
  0 <= h + delta → tot (account s who) + delta <= umax balance_width →
  match set_balance_on_hold reason who (h + delta) s with
  | (s', Ok _) => moved_to_hold reason who delta
                    (set_reserved (account s who) (reserved (account s who) + delta)) s s'
  | (_, Err e) => 0 < delta
  | (_, Panic) => False
  end.
Proof.
  intros Hs Hho Hed h Hpos Hmax. destruct (sound_account s who Hs) as (Hf0 & Hr0 & _). unfold tot in Hmax.
  pose proof (held_for_sum reason _ (proj2 (proj1 Hho))) as Hhr. fold h in Hhr. pose proof (proj2 Hho) as Hsum0.
  pose proof (set_hold reason who (h + delta) s Hs Hho Hpos) as Hset. cbv zeta in Hset. fold h in Hset.
  replace (reserved (account s who) + (h + delta - h)) with (reserved (account s who) + delta) in Hset by lia.
  specialize (Hset ltac:(lia) ltac:(lia)). set (a := set_reserved _ _) in *.
  destruct (set_balance_on_hold _ _ _ s) as [s' [[]|e|]]; [| |done].
  - destruct Hset as (Hok & Ha & Ht & He & Hw & Hnd & Hsum & Hx). rewrite settled_lasting in Ha by (right; by left).
    rewrite Ha in He.
    assert (Hx' : ∀ x, held_for x (holds_of s' who) =
      held_for x (holds_of s who) + if reason =? x then delta else 0).
    { intros x. rewrite Hx. destruct (Z.eqb_spec reason x) as [<-|]; fold h; lia. }
    split; [done|]. split; [|by split_all]. split; [done|]. rewrite Hsum, Ha. cbn. lia.
  - destruct Hset as [[(Hc1 & Hc2 & _)|(? & Hlow & _)]|[Hne Hnin]]; [|cbn in Hlow; lia|].
    + unfold consumes, a in *. cbn in Hc2. rewrite orb_true_iff, orb_false_iff in *. lia.
    + apply held_for_absent in Hnin. fold h in Hnin. lia.
Qed.

Lemma increase_on_hold reason who amount s :
  sound s → holds_ok s who → ed <= free (account s who) → 0 <= amount →
  tot (account s who) + amount <= umax balance_width →
  match increase_balance_on_hold reason who amount BestEffort s with
  | (s', Ok v) => v = amount ∧ moved_to_hold reason who amount
                    (set_reserved (account s who) (reserved (account s who) + amount)) s s'
  | (_, Err _) => True
  | (_, Panic) => False
  end.
Proof.
  intros Hs Hho Hed Ha Hmax. destruct (sound_account s who Hs) as (Hf0 & Hr0 & _). unfold tot in Hmax.
  pose proof (held_for_sum reason _ (proj2 (proj1 Hho))) as Hhr. pose proof (proj2 Hho) as Hsum0.
  unfold increase_balance_on_hold, bindM at 1, getM, bindM at 1, liftM. rewrite held_for_balance.
  set (h := held_for reason (holds_of s who)) in *. unfold saturating_add. rewrite Z.min_r by lia.
  unfold saturating_sub. rewrite Z.max_r by lia. replace (h + amount - h) with amount by lia.
  unfold bindM, whenM. destruct (Z.eqb_spec amount 0) as [->|Hnz]; cbn [negb].
  - unfold retM. split; [done|].
    replace (set_reserved _ _) with (account s who) by (destruct (account s who); unfold set_reserved; cbn; f_equal; lia).
    apply moved_refl; [apply Hs|done].
  - pose proof (change_hold reason who amount s Hs Hho Hed) as Hc. cbv zeta in Hc. fold h in Hc.
    specialize (Hc ltac:(lia) ltac:(unfold tot; lia)).
    by destruct (set_balance_on_hold reason who (h + amount) s) as [s' [[]|e|]].
Qed.

(** What holding funds does to an account that keeps its existential deposit. *)
Lemma hold_ok reason who amount s :
  sound s → holds_ok s who → 0 <= amount → ed <= free (account s who) - amount →
  let a := account s who in
  match hold reason who amount s with
  | (s', Ok _) => excess s' = excess s ∧ moved_to_hold reason who amount
      (set_reserved (set_free a (free a - amount)) (reserved a + amount)) s s'
  | (_, Err _) => True
  | (_, Panic) => False
  end.
Proof.
  intros Hs Hho Ha Hleft a. destruct (sound_account s who Hs) as (Hf0 & Hr0 & Hheld & Hti' & _).
  unfold tot in Hheld. fold a in Hf0, Hr0, Hheld, Hleft. pose proof Hs as (_ & Hti & _).
  unfold hold, bindM at 1, getM, bindM at 1, liftM.
  pose proof (ensure_can_hold_total s reason who amount) as Hnp.
  destruct (ensure_can_hold s reason who amount) as [[]|e|]; [|done|done].
  pose proof (decrease_balance_ok who amount Exact Protect Force s Hs Ha) as Hd. cbv zeta in Hd.
  cbn [decrease_of] in Hd. fold a in Hd. unfold bindM at 1.
  destruct (decrease_balance _ _ _ _ _ s) as [s1 [v|e|]]; [|done|done].
  destruct Hd as (_ & _ & Hs1 & He1 & _ & _ & s1' & Ht1 & Ha1 & Hdust).
  rewrite no_dust in Hdust by (by left). injection Hdust as ->.
  rewrite settled_lasting in Ha1 by (right; by left).
  pose proof (touches_holds _ _ _ who Ht1) as Hho1.
  assert (Hho1' : holds_ok s1 who) by (unfold holds_ok; rewrite Hho1, Ha1; exact Hho).
  pose proof (increase_on_hold reason who amount s1 Hs1 Hho1') as Hi. rewrite Ha1 in Hi. unfold tot in Hi.
  cbn [free reserved set_free] in Hi. specialize (Hi ltac:(lia) ltac:(lia) ltac:(lia)). unfold bindM, retM.
  destruct (increase_balance_on_hold _ _ _ _ s1) as [s2 [v'|e|]]; [|done|done].
  destruct Hi as (_ & Hok2 & Hho2 & Ht2 & Ha2 & He2 & Hw2 & Hx2). rewrite Hho1 in Hx2.
  unfold tot in He2. rewrite Ha1 in He2. cbn in He2.
  pose proof (touches_issuance _ _ _ Ht1) as Hti1.
  split; [lia|]. split; [done|]. split; [done|]. split; [lia|]. split; [done|].
  split; [unfold tot; fold a; cbn; lia|]. split; [intros w Hw; rewrite Hw2 by done; by apply Ht1|done].
Qed.

Lemma decrease_exact reason who amt s :
  amt <= held_for reason (holds_of s who) →
  decrease_balance_on_hold reason who amt Exact s =
  (set_balance_on_hold reason who (held_for reason (holds_of s who) - amt);;; retM amt) s.
Proof.
  intros Ha. unfold decrease_balance_on_hold, bindM at 1, getM, bindM at 1, liftM. rewrite held_for_balance.
  unfold checked_sub. by rewrite (proj2 (Z.leb_le _ _)) by lia.
Qed.

(** Releasing what is on hold succeeds. *)
Lemma release_ok reason who amount s :
  sound s → holds_ok s who → ed <= free (account s who) →
  0 <= amount <= held_for reason (holds_of s who) →
  tot (account s who) + amount <= umax balance_width →
  let a := account s who in
  ∃ s', release reason who amount Exact s = (s', Ok amount) ∧
    moved_to_hold reason who (- amount)
      (set_free (set_reserved a (reserved a - amount)) (free a + amount)) s s'.
Proof.
  intros Hs Hho Hed Ha Hmax a. destruct (sound_account s who Hs) as (Hf0 & Hr0 & _).
  fold a in Hf0, Hr0, Hmax, Hed. unfold tot in Hmax. pose proof (proj2 Hho) as Hsum. fold a in Hsum.
  pose proof (held_for_sum reason _ (proj2 (proj1 Hho))) as Hh.
  assert (Hcan : can_deposit s who amount Extant = DepositSuccess).
  { unfold can_deposit. fold a ed. destruct (amount =? 0); [done|].
    rewrite (bool_decide_false (Extant = Minted)) by done. cbn [andb]. unfold checked_add, umax in *.
    rewrite (proj2 (Z.ltb_lt (free a + amount) _)) by lia.
    rewrite (proj2 (Z.ltb_ge (free a + amount) ed)) by lia.
    by rewrite (proj2 (Z.ltb_lt (reserved a + (free a + amount)) _)) by lia. }
  unfold release, bindM at 1, getM, bindM at 1, liftM, ensure. rewrite Hcan, bool_decide_true by done.
  unfold bindM at 1. rewrite decrease_exact by lia.
  pose proof (change_hold reason who (- amount) s Hs Hho Hed ltac:(lia) ltac:(fold a; unfold tot; lia)) as Hc.
  unfold bindM at 1. change (?h - amount) with (h + - amount).
  destruct (set_balance_on_hold _ _ _ s) as [s1 [[]|e|]]; [|lia|done]. unfold retM at 1.
  destruct Hc as (Hok1 & Hho1 & Ht1 & Ha1 & He1 & Hw1 & Hx1). fold a in Ha1, He1.
  pose proof (increase_balance_ok who amount BestEffort s1 Hok1 (proj1 Ha)) as Hi. cbv zeta in Hi.
  rewrite Ha1 in Hi. cbn [free set_reserved] in Hi. specialize (Hi ltac:(lia)).
  destruct (increase_balance who amount BestEffort s1) as [s2 [v|e|]]; [|lia|done].
  destruct Hi as [(-> & -> & Hz)|(-> & _ & Hok2 & Ht2 & Ha2)].
  - assert (amount = 0) as -> by lia. exists s1. split; [done|]. split; [done|]. split; [done|]. split; [done|].
    split; [rewrite Ha1; unfold set_free, set_reserved; cbn; f_equal; lia|]. split; [|done].
    rewrite He1. fold a. unfold tot. cbn [free reserved set_free set_reserved]. lia.
  - exists s2. split; [done|]. pose proof (touches_holds _ _ _ who Ht2) as Hho2.
    pose proof (touches_excess _ _ _ Ht2) as He2. rewrite Ha1, Ha2 in He2. unfold tot in He2, He1. cbn in He2, He1.
    split; [done|]. split; [|split_all].
    + unfold holds_ok in *. rewrite Hho2, Ha2. rewrite Ha1 in Hho1. exact Hho1.
    + by rewrite (touches_issuance _ _ _ Ht2).
    + rewrite Ha2. f_equal; lia.
    + unfold tot. fold a. cbn. lia.
    + intros w Hw. rewrite (proj2 Ht2) by done. by apply Hw1.
    + by rewrite Hho2.
Qed.

(** [C27] For an account that keeps its existential deposit free, holding funds moves them
    from the free to the reserved balance, under the reason given and without touching any
    other hold or account.  When the account's total and the amount together are in the
    range of balances, which is what [release] checks, releasing the same amount succeeds
    after that, and brings the account and all its holds back to what they were. *)
Theorem hold_release_roundtrip reason who amount s s1 :
  sound s → holds_ok s who → 0 <= amount → ed <= free (account s who) - amount →
  tot (account s who) + amount <= umax balance_width →
  hold reason who amount s = (s1, Ok tt) →
  let a := account s who in
  account s1 who = set_reserved (set_free a (free a - amount)) (reserved a + amount) ∧
  (∀ r, balance_on_hold s1 r who = balance_on_hold s r who + if reason =? r then amount else 0) ∧
  ∃ s2, release reason who amount Exact s1 = (s2, Ok amount) ∧
    account s2 who = a ∧ (∀ r, balance_on_hold s2 r who = balance_on_hold s r who) ∧
    total_issuance s2 = total_issuance s ∧ ∀ w, w ≠ who → accounts s2 !! w = accounts s !! w.
Proof.
  intros Hs Hho Ha Hleft Hmax Hhold a.
  pose proof (hold_ok reason who amount s Hs Hho Ha Hleft) as Hh. cbv zeta in Hh. rewrite Hhold in Hh.
  destruct Hh as (He & Hok1 & Hho1 & Ht1 & Ha1 & _ & Hw1 & Hx1). fold a in Ha1, Hleft, Hmax. unfold tot in Hmax.
  split; [done|]. split; [done|].
  assert (Hs1 : sound s1). { split; [done|]. rewrite Ht1, He. split; apply Hs. }
  pose proof (Hx1 reason) as Hxr. rewrite Z.eqb_refl in Hxr.
  pose proof (held_for_sum reason _ (proj2 (proj1 Hho))) as Hh0.
  pose proof (release_ok reason who amount s1 Hs1 Hho1) as Hr. cbv zeta in Hr. rewrite Ha1 in Hr.
  unfold tot in Hr. cbn [free reserved set_free set_reserved] in Hr.
  destruct Hr as (s2 & Hrel & _ & _ & Ht2 & Ha2 & _ & Hw2 & Hx2); [lia..|]. exists s2. split; [done|].
  split; [rewrite Ha2; destruct a; unfold set_free, set_reserved; cbn; f_equal; lia|].
  split; [|split; [congruence|intros w Hw; by rewrite Hw2, Hw1]].
  intros r. rewrite !held_for_balance, Hx2, Hx1. case_match; lia.
Qed.

(** Burning the last of a hold on an account that has less than the existential
    deposit free loses that rest: the account is emptied, but the issuance goes down only
    by what was on hold, so that it counts funds nobody has. *)
Theorem burn_held_loses_dust reason who amt s :
  sound s → holds_ok s who → 0 < amt → held_for reason (holds_of s who) = amt →
  reserved (account s who) = amt → 0 < free (account s who) < ed →
  ∃ s', burn_held reason who amt Exact Force s = (s', Ok amt) ∧ account s' who = default_value ∧
    total_issuance s' = total_issuance s - amt ∧ excess s' = excess s + free (account s who).
Proof.
  intros Hs Hho Hpos Hfor Hres Hfree. destruct (sound_account s who Hs) as (_ & _ & Hheld & Hti' & _).
  unfold tot in Hheld. pose proof (proj1 (proj2 Hs)) as Hti.
  assert (Hliq : reducible_total_balance_on_hold s who Force = amt).
  { unfold reducible_total_balance_on_hold, saturating_sub. rewrite bool_decide_true by done. lia. }
  assert (burn_held reason who amt Exact Force s =
    (let* v := decrease_balance_on_hold reason who amt Exact in
     let* s := getM in set_total_issuance (saturating_sub (total_issuance s) v);;; retM v) s) as ->.
  { unfold burn_held, bindM at 1, getM, bindM at 1, liftM, ensure. by rewrite Hliq, Z.leb_refl. }
  unfold bindM at 1. rewrite decrease_exact, Hfor, Z.sub_diag by lia.
  pose proof (set_hold reason who 0 s Hs Hho ltac:(lia)) as Hset. cbv zeta in Hset. rewrite Hfor, Hres in Hset.
  replace (amt + (0 - amt)) with 0 in Hset by lia. specialize (Hset ltac:(lia) ltac:(lia)).
  unfold bindM at 1. destruct (set_balance_on_hold reason who 0 s) as [s1 [[]|e|]]; [| |done].
  2: { destruct Hset as [[[Hc _]|(? & _)]|[? _]]; [|lia|done]. unfold consumes in Hc.
       rewrite Hres, (proj2 (Z.eqb_neq amt 0)) in Hc by lia. done. }
  destruct Hset as (Hok1 & Ha1 & Ht1 & He1 & _).
  assert (Hdef : account s1 who = default_value).
  { rewrite Ha1. unfold settled, is_dust. cbn. by rewrite (proj2 (Z.ltb_lt _ _)) by lia. }
  rewrite Hdef in He1. unfold tot in He1. change (free default_value) with 0 in He1.
  change (reserved default_value) with 0 in He1.
  eexists. split; [done|]. unfold saturating_sub. rewrite Z.max_r by lia. split; [exact Hdef|].
  split; [cbn; lia|]. rewrite set_issuance_excess. lia.
Qed.

End holds.

(** * Examples *)

#[local] Existing Instance demo_config.
#[local] Existing Instance demo_config_ok.
#[local] Existing Instance drop_dust.

Lemma hold_release_roundtrip_witness :
  let s := demo_state (demo_info 0 1 1000 0 0) (demo_info 0 1 500 0 0) [] in
  let s1 := (hold 7 1 100 s).1 in
  balance_on_hold s1 7 1 = 100 ∧
  ∃ s2, release 7 1 100 Exact s1 = (s2, Ok 100) ∧ account s2 1 = account s 1.
Proof.
  intros s s1.
  destruct (hold_release_roundtrip 7 1 100 s s1) as (_ & Hx & s2 & Hr & Ha & _).
  - apply demo_sound; [demo_info_ok|demo_info_ok|by vm_compute].
  - split; [split; constructor|by vm_compute].
  - by vm_compute.
  - by vm_compute.
  - by vm_compute.
  - by vm_compute.
  - split; [by rewrite Hx|]. exists s2. split; [exact Hr|exact Ha].
Defined.

Lemma burn_held_loses_dust_witness :
  let s := demo_state (demo_info 1 2 5 95 0) (demo_info 0 1 500 0 0) [mkIdAmount 7 95] in
  ∃ s', burn_held 7 1 95 Exact Force s = (s', Ok 95) ∧ account s' 1 = default_value ∧
    total_issuance s' = 505 ∧ excess s' = 5.
Proof.
  intros s. destruct (demo_sound (demo_info 1 2 5 95 0) (demo_info 0 1 500 0 0) [mkIdAmount 7 95]) as [Hs He];
    [demo_info_ok|demo_info_ok|by vm_compute|].
  destruct (burn_held_loses_dust 7 1 95 s Hs) as (s' & Hb & Ha & Ht & Hx).
  - split; [|by vm_compute]. split; [apply NoDup_singleton|]. by repeat constructor.
  - done.
  - by vm_compute.
  - by vm_compute.
  - by vm_compute.
  - exists s'. split; [exact Hb|]. split; [exact Ha|]. split; [by rewrite Ht; vm_compute|].
    rewrite Hx. unfold s. rewrite He. by vm_compute.
Defined.
