(* ===== verification/Locks.v ===== *)
(** Locks: amounts of an account that may not be withdrawn.

    The frozen balance of an account is the largest of its locks and freezes.  Setting a
    lock writes the list of locks and the frozen balance; the second may be refused for
    want of a consumer reference, and is then left out without an error. *)

From stdpp Require Import base numbers list option gmap sets fin_maps.
From S2P Require Import Prelude System Balances Supply Conservation.

Local Open Scope Z_scope.
Local Open Scope rust_scope.

Section locks.
Context `{!Config} `{!ConfigOk} {AccountId : Type} `{Countable AccountId}.
Context `{!DustRemoval AccountId} `{!DustOk}.

Abbreviation State := (Runtime AccountId AccountData (Storage AccountId)).
Implicit Types (s : State) (who : AccountId) (a : AccountData).

(** * The frozen balance *)

Lemma fold_max {A} (f : A → Z) (l : list A) m :
  m <= foldl (λ m x, Z.max m (f x)) m l ∧ (∀ x, x ∈ l → f x <= foldl (λ m x, Z.max m (f x)) m l) ∧
  (foldl (λ m x, Z.max m (f x)) m l = m ∨ ∃ x, x ∈ l ∧ foldl (λ m x, Z.max m (f x)) m l = f x).
Proof.
  revert m. induction l as [|y l IH]; intros m; cbn [foldl].
  { split; [lia|]. split; [by intros x ?%elem_of_nil|by left]. }
  destruct (IH (Z.max m (f y))) as (Hm & Hin & Hatt). split; [lia|]. split.
  - intros x [->|Hx]%elem_of_cons; [lia|by apply Hin].
  - destruct Hatt as [->|(x & Hx & ->)]; [|right; exists x; split; [by right|done]].
    destruct (Z.max_spec m (f y)) as [[_ ->]|[_ ->]]; [right; exists y; split; [left|done]|by left].
Qed.

(** The frozen balance is the least that covers every lock and every freeze. *)
Lemma frozen_by_spec locks freezes n :
  0 <= n → frozen_by locks freezes <= n ↔
  (∀ l, l ∈ locks → lock_amount l <= n) ∧ (∀ f, f ∈ freezes → amount f <= n).
Proof.
  intros Hn. unfold frozen_by. set (m := foldl _ 0 locks).
  destruct (fold_max lock_amount locks 0) as (Hm0 & Hmin & Hmatt). fold m in Hm0, Hmin, Hmatt.
  destruct (fold_max amount freezes m) as (Hf0 & Hfin & Hfatt).
  split; [intros Hle; split; intros x Hx; [specialize (Hmin x Hx)|specialize (Hfin x Hx)]; lia|].
  intros [Hl Hf]. destruct Hfatt as [->|(x & Hx & ->)]; [|by apply Hf].
  destruct Hmatt as [->|(x & Hx & ->)]; [done|by apply Hl].
Qed.

Lemma lock_within l locks freezes : l ∈ locks → lock_amount l <= frozen_by locks freezes.
Proof.
  intros Hl. destruct (frozen_by_spec locks freezes (frozen_by locks freezes)) as [Hspec _];
    [apply frozen_by_nonneg|]. by apply Hspec.
Qed.

(** * Storing locks *)

Lemma account_put who w i s : acc_data i = account s who → account (put_account who i s) w = account s w.
Proof.
  intros Hi. unfold account, stored_get, get_account in *. cbn. destruct (decide (w = who)) as [->|Hw].
  - rewrite lookup_insert_eq. cbn. done.
  - by rewrite lookup_insert_ne.
Qed.

(** The second part of [update_locks] changes the list, a counter and the events. *)
Definition stores_locks who (locks : list BalanceLock) s s' : Prop :=
  (∀ w, account s' w = account s w) ∧ locks_of s' who = locks ∧
  (∀ w, w ≠ who → locks_of s' w = locks_of s w) ∧ (∀ w, freezes_of s' w = freezes_of s w) ∧
  total_issuance s' = total_issuance s.

Lemma store_locks_ok {E} who locks s :
  ∃ s', store_locks (E:=E) who locks s = (s', Ok tt) ∧ stores_locks who locks s s'.
Proof.
  unfold store_locks, bindM, getM, modifyM, whenM, ignoreM, dec_consumers, inc_consumers_without_limit, retM.
  destruct locks as [|l locks]; (destruct (bool_decide _); cbn [negb]);
    repeat match goal with |- context [if ?b then _ else _] => destruct b end;
    eexists; (split; [done|]);
    (split; [intros w; first [done|etransitivity; [by apply account_put|done]]|]);
    unfold locks_of, freezes_of; cbn; rewrite ?lookup_delete_eq, ?lookup_insert_eq; split_all; try done;
    intros w Hw; by rewrite ?lookup_delete_ne, ?lookup_insert_ne by done.
Qed.

Lemma update_locks_ok {E} who locks s :
  accounts_ok s →
  let a := account s who in
  let after := frozen_by locks (freezes_of s who) in
  ∃ s' s1, update_locks (E:=E) who locks s = (s', Ok tt) ∧ stores_locks who locks s1 s' ∧
    touches who s s1 ∧
    (account s1 who = settled (set_frozen a after) ∨
     account s1 who = a ∧ refused who s a (set_frozen a after)).
Proof.
  intros Hok a after. destruct (accounts_ok_get s who Hok) as (Hd & _). fold a in Hd.
  unfold update_locks, bindM at 1, getM. cbv zeta. fold after.
  set (f := λ b, ((frozen b, after), set_frozen b after)).
  assert (Hdata : data_ok (f a).2).
  { pose proof Hd as (? & ? & ? & ?). pose proof (frozen_by_nonneg locks (freezes_of s who)). by split_all. }
  pose proof (mutate_account_ok who f s Hok Hdata) as Hm. fold a in Hm. cbn [f fst snd] in Hm.
  assert (Htail : ∀ s1 prev, ∃ s', (store_locks who locks;;;
    if after <? prev then deposit_event (Unlocked who (saturating_sub prev after))
    else whenM (prev <? after) (deposit_event (Locked who (saturating_sub after prev)))) s1
    = (s', Ok (E:=E) tt) ∧ stores_locks who locks s1 s').
  { intros s1 prev. destruct (store_locks_ok (E:=E) who locks s1) as (s2 & Hs2 & Hst). unfold bindM. rewrite Hs2.
    destruct (after <? prev); [by eexists|]. destruct (prev <? after); by eexists. }
  unfold bindM at 1, attemptM. destruct (mutate_account who f s) as [s1 [[r dust]|e|]]; [| |done].
  - destruct Hm as (-> & _ & Ht & Ha & _). destruct (Htail s1 (frozen a)) as (s' & Hs' & Hst).
    exists s', s1. split; [exact Hs'|]. split; [done|]. split; [done|]. by left.
  - destruct Hm as (_ & Ht & Ha & Hwhy). destruct (Htail s1 (frozen a)) as (s' & Hs' & Hst).
    exists s', s1. split; [exact Hs'|]. split; [done|]. split; [done|]. by right.
Qed.

(** * Setting a lock *)

Lemma replace_lock_none (f : BalanceLock → BalanceLock) i l x :
  x ∈ replace_lock f i None l ↔ x ∈ l ∧ lock_id x ≠ i.
Proof.
  induction l as [|y l IH]; cbn [replace_lock].
  { split; [by intros ?%elem_of_nil|by intros [?%elem_of_nil _]]. }
  destruct (Z.eqb_spec (lock_id y) i) as [<-|Hne]; rewrite ?elem_of_cons, IH; [naive_solver|].
  split; [intros [->|[? ?]]; auto|naive_solver].
Qed.

(** The new lock takes the place of those with its identifier; all others stay. *)
Lemma replace_lock_spec i new l x :
  lock_id new = i →
  x ∈ replace_lock (λ _, new) i (Some new) l ↔ x = new ∨ (x ∈ l ∧ lock_id x ≠ i).
Proof.
  intros Hid. induction l as [|y l IH]; cbn [replace_lock].
  { rewrite list_elem_of_singleton. split; [by left|by intros [->|[?%elem_of_nil _]]]. }
  destruct (Z.eqb_spec (lock_id y) i) as [<-|Hne]; rewrite !elem_of_cons.
  - rewrite replace_lock_none. naive_solver.
  - rewrite IH. split; [intros [->|[->|[? ?]]]; auto|naive_solver].
Qed.

(** The account cannot take another consumer reference: nothing is written. *)
Lemma mutate_account_full {R} who (f : AccountData → R * AccountData) s :
  accounts_ok s → ed <= free (account s who) → ed <= free (f (account s who)).2 →
  consumes (account s who) = false → consumes (f (account s who)).2 = true →
  max_consumers <= consumers (get_account s who) →
  mutate_account who f s = (s, Err TooManyConsumers).
Proof.
  intros Hok Hed Hed' Hc Hc' Hmax. destruct (accounts_ok_get s who Hok) as ((_ & _ & _ & Hnew) & _ & Hr).
  destruct Hr as (_ & _ & _ & Hprov & _). specialize (Hprov Hed).
  unfold mutate_account, try_mutate_account. erewrite bindM_ok; [|unfold ensure_upgraded; by rewrite Hnew|done].
  unfold bindM at 1, stored_try_mutate_exists. fold (account s who).
  set (maybe := if bool_decide (account s who = default_value) then None else Some (account s who)).
  assert (Hm : default default_value maybe = account s who).
  { unfold maybe. by case_bool_decide as Hd; [rewrite Hd|]. }
  unfold mutate_stored. rewrite Hm. cbv zeta. unfold bindM at 1, retM at 1.
  rewrite Hc, Hc', andb_false_r. rewrite (proj2 (Z.leb_le _ _) Hed), (proj2 (Z.leb_le _ _) Hed').
  unfold bindM at 1, update_refs. cbn [andb negb whenM have_providers_or_no_zero_ed].
  unfold bindM, retM, inc_consumers. rewrite (proj2 (Z.ltb_lt _ _) Hprov).
  by rewrite (proj2 (Z.ltb_ge _ _)) by lia.
Qed.

Lemma set_lock_eq {E} i who amt reasons s :
  0 < amt → reasons ≠ 0 →
  let new := mkLock i amt (reasons_from reasons) in
  set_lock (E:=E) i who amt reasons s =
  update_locks who (replace_lock (λ _, new) i (Some new) (locks_of s who)) s.
Proof.
  intros Ha Hr new. unfold set_lock. rewrite (proj2 (Z.eqb_neq reasons 0)), (proj2 (Z.eqb_neq amt 0)) by lia.
  done.
Qed.

(** Setting a lock on an account with funds, when the account has or can take a
    consumer reference: exactly the locks with this identifier are replaced by the new
    one, the frozen balance becomes the largest of all locks and freezes, nothing else of
    the account changes, and from then on the lock is respected: what can be withdrawn
    leaves the locked amount in the account, reserved funds included. *)
Theorem set_lock_correct {E} i who amt reasons s :
  accounts_ok s → ed <= free (account s who) → 0 < amt → reasons ≠ 0 →
  consumes (account s who) = true ∨ consumers (get_account s who) < max_consumers →
  let a := account s who in
  let new := mkLock i amt (reasons_from reasons) in
  ∃ s', set_lock (E:=E) i who amt reasons s = (s', Ok tt) ∧
    (∀ x, x ∈ locks_of s' who ↔ x = new ∨ (x ∈ locks_of s who ∧ lock_id x ≠ i)) ∧
    account s' who = set_frozen a (frozen_by (locks_of s' who) (freezes_of s who)) ∧
    (∀ n, 0 <= n → frozen (account s' who) <= n ↔
       (∀ l, l ∈ locks_of s' who → lock_amount l <= n) ∧
       (∀ f, f ∈ freezes_of s who → amount f <= n)) ∧
    (∀ p, reducible_balance s' who p Polite <= Z.max 0 (free a + reserved a - amt)) ∧
    ∀ w, w ≠ who → account s' w = account s w.
Proof.
  intros Hok Hed Ha Hr Hroom a new. rewrite (set_lock_eq i who amt reasons s Ha Hr). fold new.
  set (l := replace_lock _ _ _ _).
  destruct (update_locks_ok (E:=E) who l s Hok) as (s' & s1 & Hs' & (Hacc & Hl & _ & _) & Ht & Hcase).
  assert (Hspec : ∀ x, x ∈ l ↔ x = new ∨ (x ∈ locks_of s who ∧ lock_id x ≠ i)) by (intros; by apply replace_lock_spec).
  assert (Ha' : account s' who = set_frozen a (frozen_by l (freezes_of s who))).
  { rewrite Hacc. destruct Hcase as [->|[_ Hwhy]]; [apply settled_lasting; right; by left|].
    destruct Hwhy as [(Hc & _ & Hfull)|(_ & Hlow & _)]; [|cbn in Hlow; lia].
    destruct Hroom as [Hc'|Hlt]; [congruence|]. specialize (Hfull Hed). lia. }
  exists s'. split; [done|]. rewrite Hl. split; [done|]. split; [done|]. rewrite Ha'. cbn [frozen set_frozen].
  split; [intros n; apply frozen_by_spec|]. split.
  - intros p. assert (Hge : amt <= frozen_by l (freezes_of s who)).
    { apply (lock_within new). apply Hspec. by left. }
    unfold reducible_balance, saturating_sub. rewrite Ha'. cbn [free reserved frozen set_frozen].
    change (bool_decide (Polite = Polite)) with true. destruct (_ || _); lia.
  - intros w Hw. rewrite Hacc. by apply (touches_account who).
Qed.

(** When the account has no consumer reference and cannot take one more, the lock is
    put on the list, and an event says so, but nothing is frozen: all funds can be
    withdrawn as before. *)
Theorem lock_not_enforced {E} i who amt reasons s :
  accounts_ok s → ed <= free (account s who) → 0 < amt → reasons ≠ 0 →
  consumes (account s who) = false → max_consumers <= consumers (get_account s who) →
  ∃ s', set_lock (E:=E) i who amt reasons s = (s', Ok tt) ∧
    mkLock i amt (reasons_from reasons) ∈ locks_of s' who ∧
    Locked who (frozen_by (locks_of s' who) (freezes_of s who)) ∈ events (pallet s') ∧
    account s' who = account s who ∧ frozen (account s' who) = 0.
Proof.
  intros Hok Hed Ha Hr Hc Hfull. rewrite (set_lock_eq i who amt reasons s Ha Hr). set (l := replace_lock _ _ _ _).
  set (new := mkLock i amt (reasons_from reasons)) in *.
  assert (Hin : new ∈ l) by (apply replace_lock_spec; [done|by left]).
  assert (Hge : amt <= frozen_by l (freezes_of s who)) by (by apply (lock_within new)).
  assert (Hz : frozen (account s who) = 0).
  { unfold consumes in Hc. apply orb_false_iff in Hc. lia. }
  unfold update_locks, bindM at 1, getM, bindM at 1, attemptM. cbv zeta. set (after := frozen_by _ _) in *.
  rewrite mutate_account_full; [|done|done|done|done| |done].
  2: { unfold consumes. cbn. rewrite (proj2 (Z.eqb_neq after 0)) by lia. apply orb_true_r. }
  destruct (store_locks_ok (E:=E) who l s) as (s2 & Hs2 & Hacc & Hl & _). unfold bindM. rewrite Hs2, Hz.
  rewrite (proj2 (Z.ltb_ge after 0)) by lia. rewrite (proj2 (Z.ltb_lt 0 after)) by lia. cbn [whenM].
  eexists. split; [done|]. change (locks_of (push_event _ s2) who) with (locks_of s2 who). rewrite Hl.
  split; [done|]. split; [|split; [apply Hacc|by rewrite <- Hz, <- Hacc]].
  fold after. cbn. apply elem_of_app. right. unfold saturating_sub. rewrite Z.max_r, Z.sub_0_r by lia. left.
Qed.

End locks.

(** * Examples *)

#[local] Existing Instance demo_config.
#[local] Existing Instance demo_config_ok.
#[local] Existing Instance drop_dust.

Lemma set_lock_correct_witness :
  let s := demo_state (demo_info 0 1 1000 0 0) (demo_info 0 1 500 0 0) [] in
  ∃ s', set_lock (E:=unit) 3 1 700 2 s = (s', Ok tt) ∧ reducible_balance s' 1 Expendable Polite <= 300.
Proof.
  intros s. destruct (set_lock_correct (E:=unit) 3 1 700 2 s) as (s' & Hs & _ & _ & _ & Hr & _).
  - apply demo_accounts_ok; demo_info_ok.
  - by vm_compute.
  - by vm_compute.
  - by vm_compute.
  - right. by vm_compute.
  - exists s'. split; [done|]. exact (Hr Expendable).
Defined.

Lemma lock_not_enforced_witness :
  let s := demo_state (demo_info 2 1 1000 0 0) (demo_info 0 1 500 0 0) [] in
  ∃ s', set_lock (E:=unit) 3 1 700 2 s = (s', Ok tt) ∧ mkLock 3 700 Misc ∈ locks_of s' 1 ∧
    account s' 1 = account s 1.
Proof.
  intros s. destruct (lock_not_enforced (E:=unit) 3 1 700 2 s) as (s' & Hs & Hl & _ & Ha & _).
  - apply demo_accounts_ok; demo_info_ok.
  - by vm_compute.
  - by vm_compute.
  - by vm_compute.
  - by vm_compute.
  - by vm_compute.
  - by exists s'.
Defined.
