(* ===== verification/Ledger.v ===== *)
(** The balances pallet as a ledger.

    [Op] lists the ways to change balances, each run as a call is run: inside a
    storage transaction, with the imbalance it returns dropped.  From genesis on,
    any sequence of them without a transfer of an account to itself, and within the
    range of the issuance, keeps every account well-formed and the total issuance
    equal to what all accounts hold.  Holds, locks and named reserves are not among
    them.  The file also has what a transfer does to
    both accounts, and the cases in which funds go missing. *)

From stdpp Require Import base numbers list option gmap sets fin_maps relations.
From S2P Require Import Prelude System Balances Supply Conservation.

Local Open Scope Z_scope.
Local Open Scope rust_scope.

Section ledger.
Context `{!Config} `{!ConfigOk} {AccountId : Type} `{Countable AccountId}.
Context `{!DustRemoval AccountId} `{!DustOk}.

Abbreviation State := (Runtime AccountId AccountData (Storage AccountId)).
Implicit Types (s : State) (who : AccountId).

(** * Operations *)

Inductive Op :=
| OpMintInto (who : AccountId) (amount : Z)
| OpBurnFrom (who : AccountId) (amount : Z) (precision : Precision) (force : Fortitude)
| OpShelve (who : AccountId) (amount : Z)
| OpRestore (who : AccountId) (amount : Z)
| OpTransfer (source dest : AccountId) (amount : Z) (preservation : Preservation)
| OpSetBalance (who : AccountId) (amount : Z)
| OpIssue (who : AccountId) (amount : Z)
| OpDeposit (who : AccountId) (value : Z) (precision : Precision)
| OpWithdraw (who : AccountId) (value : Z) (precision : Precision) (preservation : Preservation)
    (force : Fortitude)
| OpCurrencyTransfer (transactor dest : AccountId) (value : Z) (e : ExistenceRequirement)
| OpSlash (who : AccountId) (value : Z)
| OpDepositIntoExisting (who : AccountId) (value : Z)
| OpDepositCreating (who : AccountId) (value : Z)
| OpCurrencyWithdraw (who : AccountId) (value : Z) (liveness : ExistenceRequirement)
| OpMakeFreeBalanceBe (who : AccountId) (value : Z)
| OpReserve (who : AccountId) (value : Z)
| OpUnreserve (who : AccountId) (value : Z)
| OpSlashReserved (who : AccountId) (value : Z)
| OpRepatriateReserved (slashed beneficiary : AccountId) (value : Z) (status : Status)
| OpSetFreeze (i : Ident) (who : AccountId) (amount : Z)
| OpExtendFreeze (i : Ident) (who : AccountId) (amount : Z)
| OpThaw (i : Ident) (who : AccountId)
| CallTransferAllowDeath (o : Origin (AccountId:=AccountId)) (dest : AccountId) (value : Z)
| CallTransferKeepAlive (o : Origin (AccountId:=AccountId)) (dest : AccountId) (value : Z)
| CallForceTransfer (o : Origin (AccountId:=AccountId)) (source dest : AccountId) (value : Z)
| CallTransferAll (o : Origin (AccountId:=AccountId)) (dest : AccountId) (keep_alive : bool)
| CallForceUnreserve (o : Origin (AccountId:=AccountId)) (who : AccountId) (amount : Z)
| CallForceSetBalance (o : Origin (AccountId:=AccountId)) (who : AccountId) (new_free : Z)
| CallSetBalanceDeprecated (o : Origin (AccountId:=AccountId)) (who : AccountId) (new_free old_reserved : Z).

(** An operation, with the imbalance it returns dropped. *)
Definition dispatch (op : Op) : M State Error unit :=
  match op with
  | OpMintInto who amount => let* _ := mint_into who amount in retM tt
  | OpBurnFrom who amount precision force => let* _ := burn_from who amount precision force in retM tt
  | OpShelve who amount => let* _ := shelve who amount in retM tt
  | OpRestore who amount => let* _ := restore who amount in retM tt
  | OpTransfer source dest amount preservation =>
      let* _ := transfer source dest amount preservation in retM tt
  | OpSetBalance who amount => let* _ := set_balance who amount in retM tt
  | OpIssue who amount => issue_into who amount
  | OpDeposit who value precision => let* debt := deposit who value precision in drop_debt debt
  | OpWithdraw who value precision preservation force =>
      let* credit := withdraw who value precision preservation force in drop_credit credit
  | OpCurrencyTransfer transactor dest value e => currency_transfer transactor dest value e
  | OpSlash who value => let* p := slash who value in drop_negative p.1
  | OpDepositIntoExisting who value => let* v := deposit_into_existing who value in drop_positive v
  | OpDepositCreating who value => let* v := deposit_creating who value in drop_positive v
  | OpCurrencyWithdraw who value liveness =>
      let* v := currency_withdraw who value liveness in drop_negative v
  | OpMakeFreeBalanceBe who value => let* i := make_free_balance_be who value in drop_signed i
  | OpReserve who value => reserve who value
  | OpUnreserve who value => let* _ := unreserve who value in retM tt
  | OpSlashReserved who value => let* p := slash_reserved who value in drop_negative p.1
  | OpRepatriateReserved slashed beneficiary value status =>
      let* _ := repatriate_reserved slashed beneficiary value status in retM tt
  | OpSetFreeze i who amount => set_freeze i who amount
  | OpExtendFreeze i who amount => extend_freeze i who amount
  | OpThaw i who => thaw i who
  | CallTransferAllowDeath o dest value => transfer_allow_death o dest value
  | CallTransferKeepAlive o dest value => transfer_keep_alive o dest value
  | CallForceTransfer o source dest value => force_transfer o source dest value
  | CallTransferAll o dest keep_alive => transfer_all o dest keep_alive
  | CallForceUnreserve o who amount => force_unreserve o who amount
  | CallForceSetBalance o who new_free => force_set_balance o who new_free
  | CallSetBalanceDeprecated o who new_free old_reserved =>
      set_balance_deprecated o who new_free old_reserved
  end.

(** The amounts an operation is called with are balances; what is put into accounts before it
    is issued fits into the issuance; and nobody transfers to themselves. *)
Definition op_ok s (op : Op) : Prop :=
  let room v := 0 <= v ∧ total_issuance s + v <= umax balance_width in
  match op with
  | OpMintInto _ v | OpBurnFrom _ v _ _ | OpShelve _ v | OpRestore _ v | OpSetBalance _ v | OpIssue _ v
  | OpWithdraw _ v _ _ _ | OpCurrencyTransfer _ _ v _ | OpSlash _ v | OpCurrencyWithdraw _ v _
  | OpReserve _ v | OpUnreserve _ v | OpSlashReserved _ v | OpRepatriateReserved _ _ v _
  | OpSetFreeze _ _ v | OpExtendFreeze _ _ v | CallForceUnreserve _ _ v => 0 <= v
  | OpTransfer source dest v _ | CallForceTransfer _ source dest v => 0 <= v ∧ source ≠ dest
  | OpDeposit _ v _ | OpDepositIntoExisting _ v | OpDepositCreating _ v | OpMakeFreeBalanceBe _ v
  | CallForceSetBalance _ _ v | CallSetBalanceDeprecated _ _ v _ => room v
  | CallTransferAllowDeath o dest v | CallTransferKeepAlive o dest v => 0 <= v ∧ o ≠ Signed dest
  | CallTransferAll o dest _ => o ≠ Signed dest
  | OpThaw _ _ => True
  end.

Lemma conserves_ignore {E A} (c : M State E A) s :
  conserves c s → conserves (let* _ := c in retM tt) s.
Proof. apply conserves_bind_ret. Qed.

(** The calls that transfer. *)
Lemma signed_transfer_conserves o dest value preservation s :
  sound s → 0 <= value → o ≠ Signed dest →
  conserves (let* source := liftM (ensure_signed o) in
    let* _ := transfer source dest value preservation in retM tt) s.
Proof.
  intros Hs Hv Ho. apply conserves_lift; [done|by destruct o|]. intros source Hsrc.
  apply conserves_ignore, transfer_conserves; [done..|]. destruct o; simplify_eq/=. congruence.
Qed.

Lemma transfer_all_conserves o dest keep_alive s :
  sound s → o ≠ Signed dest → conserves (transfer_all o dest keep_alive) s.
Proof.
  intros Hs Ho. apply conserves_lift; [done|by destruct o|]. intros source Hsrc.
  apply conserves_get, conserves_ignore, transfer_conserves; [done|..].
  - apply reducible_range, Hs.
  - destruct o; simplify_eq/=. congruence.
Qed.

Lemma root_conserves {A} (o : Origin (AccountId:=AccountId)) (c : M State Error A) s :
  sound s → conserves c s → conserves (let* _ := liftM (ensure_root o) in c) s.
Proof. intros Hs Hc. apply conserves_lift; [done|by destruct o|done]. Qed.

Lemma dispatch_conserves op s : sound s → op_ok s op → conserves (transactional (dispatch op)) s.
Proof.
  intros Hs Hop. destruct op; cbn [op_ok] in Hop; cbv zeta in Hop.
  19: { pose proof (repatriate_reserved_conserves slashed beneficiary value status s Hs Hop) as Hc.
        revert Hc. unfold conserves, transactional, bindM. cbn [dispatch]. unfold bindM.
        by destruct (repatriate_reserved _ _ _ _ s) as [s' [v|e|]]. }
  all: apply conserves_transactional; [done|]; cbn [dispatch];
    try match type of Hop with _ ∧ _ => destruct Hop end.
  - by apply conserves_ignore, mint_into_conserves.
  - by apply conserves_ignore, burn_from_conserves.
  - by apply conserves_ignore, shelve_conserves.
  - by apply conserves_ignore, restore_conserves.
  - by apply conserves_ignore, transfer_conserves.
  - by apply conserves_ignore, set_balance_conserves.
  - by apply issue_into_conserves.
  - by apply deposit_conserves.
  - by apply withdraw_conserves.
  - unfold currency_transfer. destruct (value =? 0); [done|]. cbn [orb]. case_bool_decide; [done|].
    by apply conserves_ignore, transfer_conserves.
  - by apply takes_drop, slash_takes.
  - by eapply gives_drop, deposit_into_existing_gives.
  - by eapply gives_drop, deposit_creating_gives.
  - by apply takes_drop, currency_withdraw_takes.
  - by apply make_free_balance_be_conserves.
  - by apply reserve_conserves.
  - by apply conserves_ignore, unreserve_conserves.
  - by apply takes_drop, slash_reserved_takes.
  - by apply set_freeze_conserves.
  - by apply extend_freeze_conserves.
  - by apply thaw_conserves.
  - by apply signed_transfer_conserves.
  - by apply signed_transfer_conserves.
  - apply root_conserves; [done|]. by apply conserves_ignore, transfer_conserves.
  - by apply transfer_all_conserves.
  - apply root_conserves; [done|]. by apply conserves_ignore, unreserve_conserves.
  - by apply force_set_balance_conserves.
  - by apply set_balance_deprecated_conserves.
Qed.

(** * Genesis *)

Definition genesis_info (b : Z) : AccountInfo AccountData :=
  mkAccountInfo 0 0 1 0 (set_free default_value b).

Lemma genesis_one who b s :
  accounts s !! who = None →
  ∃ s', (let* _ := inc_providers (E:=Error) who in stored_insert who (set_free default_value b)) s
    = (s', Ok tt) ∧ accounts s' = <[who := genesis_info b]> (accounts s) ∧ pallet s' = pallet s.
Proof.
  intros Hn. assert (Hd : get_account s who = default_info) by (unfold get_account; by rewrite Hn).
  unfold bindM, inc_providers. rewrite Hd. cbn [providers sufficients default_info andb Z.eqb].
  unfold stored_insert, stored_mutate_exists, stored_try_mutate_exists, retM.
  set (s1 := put_account _ _ _).
  assert (Hg : get_account s1 who = set_providers default_info 1) by apply get_put.
  rewrite Hg. cbn. eexists. split; [done|]. split; [|done]. cbn. by rewrite insert_insert_eq.
Qed.

Lemma genesis_info_ok b : ed <= b → info_ok (genesis_info b).
Proof.
  intros Hb. pose proof ed_positive. unfold info_ok, data_ok, lasting, refs_for, alive, consumes, ed in *. cbn.
  split_all; try lia; try done; auto.
Qed.

(** What all balances of the genesis configuration come to. *)
Definition endowment (balances : list (AccountId * Z)) : Z := foldr Z.add 0 balances.*2.

Lemma genesis_loop balances s :
  NoDup balances.*1 → (∀ b, b ∈ balances → accounts s !! b.1 = None ∧ ed <= b.2) → accounts_ok s →
  ∃ s', for_each balances (λ b, let* _ := inc_providers (E:=Error) b.1 in
      stored_insert b.1 (set_free default_value b.2)) s = (s', Ok tt) ∧
    accounts_ok s' ∧ pallet s' = pallet s ∧ held s' = held s + endowment balances ∧
    (∀ b, b ∈ balances → accounts s' !! b.1 = Some (genesis_info b.2)) ∧
    (∀ w, w ∉ balances.*1 → accounts s' !! w = accounts s !! w).
Proof.
  revert s. induction balances as [|[who b] l IH]; intros s Hnd Hb Hok.
  { exists s. cbn. split_all; try done; [unfold endowment; cbn; lia|]. intros b Hin. by apply elem_of_nil in Hin. }
  cbn [fmap list_fmap fst] in Hnd. apply NoDup_cons in Hnd as [Hnin Hnd].
  destruct (Hb (who, b)) as [Hn Hed]; [left|]. cbn [fst snd] in Hn, Hed.
  destruct (genesis_one who b s Hn) as (s1 & Hs1 & Ha1 & Hp1).
  destruct (IH s1 Hnd) as (s' & Hs' & Hok' & Hp' & Hh' & Hin' & Hout').
  { intros [w v] Hin. rewrite Ha1. destruct (Hb (w, v)) as [Hw Hv]; [by right|]. split; [|done]. cbn [fst].
    rewrite lookup_insert_ne; [done|]. intros <-. apply Hnin. by apply (list_elem_of_fmap_2 fst l (who, v)). }
  { unfold accounts_ok. rewrite Ha1. apply map_Forall_insert_2; [by apply genesis_info_ok|done]. }
  exists s'. cbn [for_each fst snd]. rewrite Hs1, Hs'. split; [done|]. split; [done|].
  split; [congruence|]. split; [|split].
  - rewrite Hh'. unfold held. rewrite Ha1, (held_in_lookup (<[who:=_]> _) who), lookup_insert_eq,
      delete_insert_id by done. unfold endowment. cbn. unfold tot. cbn. lia.
  - intros x [->|Hx]%elem_of_cons; [|by apply Hin']. cbn [fst snd]. by rewrite Hout', Ha1, lookup_insert_eq.
  - intros w [Hw1 Hw2]%not_elem_of_cons. rewrite Hout', Ha1 by done. by rewrite lookup_insert_ne.
Qed.

Lemma size_nodup (l : list AccountId) :
  size (list_to_set l : gset AccountId) = length l ↔ NoDup l.
Proof.
  assert (Hle : ∀ k : list AccountId, (size (list_to_set k : gset AccountId) <= length k)%nat).
  { induction k as [|y k IHk]; cbn; [done|]. rewrite size_union_alt, size_singleton.
    pose proof (subseteq_size (list_to_set k ∖ {[y]} : gset AccountId) (list_to_set k) ltac:(set_solver)). lia. }
  split; [|apply size_list_to_set].
  induction l as [|x l IH]; intros Hs; [constructor|]. cbn in Hs.
  destruct (decide (x ∈ l)) as [Hx|Hx].
  - replace ({[x]} ∪ list_to_set l : gset AccountId) with (list_to_set l : gset AccountId) in Hs by set_solver.
    pose proof (Hle l). lia.
  - constructor; [done|]. apply IH. rewrite size_union, size_singleton in Hs by set_solver. lia.
Qed.

Lemma endowment_wrap balances :
  Forall (λ b, 0 <= b.2) balances → endowment balances <= umax balance_width →
  foldl (λ acc b, wadd balance_width acc b.2) 0 balances = endowment balances ∧ 0 <= endowment balances.
Proof.
  pose proof width_positive. intros Hb. enough (Hgen : ∀ acc, 0 <= acc →
    acc + endowment balances <= umax balance_width → 0 <= endowment balances ∧
    foldl (λ acc b, wadd balance_width acc b.2) acc balances = acc + endowment balances).
  { intros Hle. destruct (Hgen 0); [lia|lia|]. lia. }
  unfold endowment. induction Hb as [|b l Hb1 Hb2 IH]; intros acc Hacc Hle; cbn [foldl fmap list_fmap foldr] in *; [lia|].
  fold (endowment l) in *.
  assert (Hnn : 0 <= endowment l).
  { clear -Hb2. unfold endowment. induction Hb2; cbn in *; lia. }
  rewrite wadd_small by (unfold in_range, umax in *; lia). destruct (IH (acc + b.2)); [lia|lia|]. lia.
Qed.

Lemma ed_all balances :
  forallb (λ b : AccountId * Z, ed <=? b.2) balances = true ↔ Forall (λ b, ed <= b.2) balances.
Proof.
  rewrite forallb_forall, Forall_forall. setoid_rewrite Z.leb_le. by setoid_rewrite list_elem_of_In.
Qed.

Lemma genesis_ok balances s :
  accounts s = ∅ → endowment balances <= umax balance_width →
  Forall (λ b, ed <= b.2) balances → NoDup balances.*1 →
  ∃ s', genesis_build balances s = (s', Ok tt) ∧ sound s' ∧
    total_issuance s' = endowment balances ∧ held s' = endowment balances ∧
    (∀ b, b ∈ balances → accounts s' !! b.1 = Some (genesis_info b.2)) ∧
    (∀ w, w ∉ balances.*1 → accounts s' !! w = None).
Proof.
  intros Hs Hmax Hed Hdup. pose proof (size_nodup balances.*1) as Hnd. rewrite length_fmap in Hnd.
  pose proof ed_positive as Hpos. fold ed in Hpos.
  destruct (endowment_wrap balances) as [Hfold Hnn];
    [by eapply Forall_impl; [exact Hed|]; cbn; intros; lia|done|].
  destruct (genesis_loop balances (put_issuance (endowment balances) s))
    as (s' & Hs' & Hok' & Hp' & Hh' & Hin & Hout); [done|..].
  { intros b Hb. cbn. rewrite Hs. split; [done|]. by eapply Forall_forall in Hed. }
  { unfold accounts_ok. cbn. rewrite Hs. apply map_Forall_empty. }
  assert (Hti : total_issuance s' = endowment balances) by (unfold total_issuance; by rewrite Hp').
  assert (Hheld : held s' = endowment balances).
  { rewrite Hh'. unfold held, held_in. cbn. rewrite Hs, map_fold_empty. lia. }
  exists s'. split.
  { unfold genesis_build, bindM, set_total_issuance, modifyM. fold ed. rewrite Hfold, (proj2 (ed_all _) Hed).
    rewrite bool_decide_true by (by apply Hnd). exact Hs'. }
  split; [split; [done|]; split; [lia|unfold excess; lia]|]. split; [done|]. split; [done|].
  split; [done|]. intros w Hw. rewrite Hout by done. cbn. by rewrite Hs.
Qed.

Lemma genesis_panics balances s :
  ¬ (Forall (λ b, ed <= b.2) balances ∧ NoDup balances.*1) → (genesis_build balances s).2 = Panic.
Proof.
  intros Hno. unfold genesis_build, bindM, set_total_issuance, modifyM. fold ed.
  pose proof (size_nodup balances.*1) as Hnd. rewrite length_fmap in Hnd.
  destruct (forallb (λ b, ed <=? b.2) balances) eqn:Hf; cbn [negb]; [|done].
  rewrite bool_decide_false; [done|]. intros Hsz. apply Hno. split; [by apply ed_all|by apply Hnd].
Qed.

(** Building the genesis state.  It panics exactly when a balance is below the
    existential deposit or an account is listed twice; otherwise every listed account,
    and no other, has its balance free, one provider and nothing else, the state is
    sound, and the total issuance is what the accounts hold. *)
Theorem genesis_correct balances s :
  accounts s = ∅ → endowment balances <= umax balance_width →
  if decide (Forall (λ b, ed <= b.2) balances ∧ NoDup balances.*1) then
    ∃ s', genesis_build balances s = (s', Ok tt) ∧ sound s' ∧
      total_issuance s' = endowment balances ∧ held s' = endowment balances ∧
      (∀ b, b ∈ balances → accounts s' !! b.1 = Some (genesis_info b.2)) ∧
      (∀ w, w ∉ balances.*1 → accounts s' !! w = None)
  else (genesis_build balances s).2 = Panic.
Proof.
  intros Hs Hmax. case_decide as Hc; [destruct Hc; by apply genesis_ok|by apply genesis_panics].
Qed.

Lemma genesis_sound balances s s' :
  accounts s = ∅ → endowment balances <= umax balance_width →
  genesis_build balances s = (s', Ok tt) → sound s' ∧ excess s' = 0.
Proof.
  intros Hs Hmax Hg.
  destruct (decide (Forall (λ b, ed <= b.2) balances ∧ NoDup balances.*1)) as [[Hed Hnd]|Hno].
  - destruct (genesis_ok balances s Hs Hmax Hed Hnd) as (s1 & Hg1 & Hs1 & Ht & Hh & _).
    rewrite Hg in Hg1. injection Hg1 as <-. split; [done|]. unfold excess. lia.
  - pose proof (genesis_panics balances s Hno) as Hp. by rewrite Hg in Hp.
Qed.

(** * Reachable states *)

Inductive step : State → State → Prop :=
| step_op op s s' r : op_ok s op → transactional (dispatch op) s = (s', r) → step s s'.

Lemma steps_conserve s s' : rtc step s s' → sound s → sound s' ∧ excess s' = excess s.
Proof.
  induction 1 as [s|s1 s2 s3 [op s s' r Hop Hr] _ IH]; intros Hs; [done|].
  pose proof (dispatch_conserves op s Hs Hop) as Hc. unfold conserves in Hc. rewrite Hr in Hc.
  destruct r; [..|done]; destruct Hc as [Hs' He']; destruct (IH Hs') as [? ?]; (split; [done|congruence]).
Qed.

(** [C1] Nothing is created or lost.  In every state that the operations of [Op] lead to from a
    genesis state, called with amounts that are balances, putting no more into accounts
    than the issuance has room for, and without a transfer of an account to itself, the
    total issuance equals the sum of the free and reserved balances of all accounts, every
    account is well-formed (balances not negative, a provider reference for a balance of at
    least the existential deposit, a consumer reference for reserved or frozen funds), and
    no operation panics.  Holds, locks, named reserves and the [Currency] calls that only
    make an imbalance ([currency_issue], [burn]) are not among the operations. *)
Theorem supply_conserved balances s0 s1 s :
  accounts s0 = ∅ → endowment balances <= umax balance_width →
  genesis_build balances s0 = (s1, Ok tt) → rtc step s1 s →
  accounts_ok s ∧ total_issuance s = held s ∧
  ∀ op, op_ok s op → (transactional (dispatch op) s).2 ≠ Panic.
Proof.
  intros Hs0 Hmax Hg Hsteps.
  assert (Hs1 : sound s1 ∧ excess s1 = 0) by (by eapply genesis_sound).
  destruct (steps_conserve s1 s Hsteps (proj1 Hs1)) as [Hs He]. split; [apply Hs|].
  split; [unfold excess in *; lia|]. intros op Hop. pose proof (dispatch_conserves op s Hs Hop) as Hc.
  unfold conserves in Hc. by destruct (transactional (dispatch op) s) as [s' [v|e|]].
Qed.

(** * Transfers *)

(** [C21] A transfer between two accounts fails, without any change, exactly when one of
    its checks does.  Otherwise the amount is not more than can be taken from the source
    under the given preservation, leaving frozen funds alone; it moves to the
    destination in full; no other account and no storage item changes; and if the
    source is left with less than it may keep, what is left is taken care of as dust,
    with nothing lost. *)
Theorem transfer_correct source dest amount preservation s :
  sound s → 0 <= amount → source ≠ dest →
  let a := set_free (account s source) (free (account s source) - amount) in
  match transfer_checks s source dest amount preservation with
  | Ok _ =>
      amount <= reducible_balance s source preservation Polite ∧
      (amount = 0 ∨ ed <= free (account s dest) + amount) ∧
      ∃ s', transfer source dest amount preservation s = (s', Ok amount) ∧
        sound s' ∧ excess s' = excess s ∧
        free (account s dest) + amount <= free (account s' dest) ∧
        (dust_of a = None → items s' = items s ∧
         account s' source = settled a ∧
         account s' dest = set_free (account s dest) (free (account s dest) + amount) ∧
         ∀ w, w ≠ source → w ≠ dest → account s' w = account s w)
  | Err e => transfer source dest amount preservation s = (s, Err e)
  | Panic => False
  end.
Proof.
  intros Hs Ha Hne a. pose proof (transfer_ok source dest amount preservation s Hs Ha Hne) as Ht.
  cbv zeta in Ht. fold a in Ht. destruct (transfer source dest amount preservation s) as [s' [r|e|]]; [| |done].
  - destruct Ht as (Hc & -> & Ht). rewrite Hc. unfold transfer_checks in Hc.
    destruct (withdraw_into_result _ _) as [x|e|] eqn:Hw; [|done..].
    destruct (can_withdraw_ok _ _ _ _ _ (proj1 Hs) Ha Hw) as (_ & ? & _).
    split; [done|]. split; [by apply can_deposit_ok|]. by exists s'.
  - destruct Ht as [-> ->]. done.
Qed.

End ledger.

(** * Transfers to oneself *)

Section self_transfer.
Context `{!Config} `{!ConfigOk} {AccountId : Type} `{Countable AccountId}.
Implicit Types (s : Runtime AccountId AccountData (Storage AccountId)) (who : AccountId).

#[local] Existing Instance drop_dust.

Lemma drop_dust_account d s w : account (drop_dust d s) w = account s w.
Proof. unfold drop_dust, drop_credit, bindM, getM, whenM. by case_match. Qed.

(** [C34] A transfer of an account to itself checks the source and the destination as if
    they were two accounts.  When the source cannot keep what is left, and the amount alone
    is below the existential deposit, everything the account has is gone: what was left as
    dust, and the amount because it is too little to open the account again, which stays
    in the issuance. *)
Theorem self_transfer_loses_funds who amount s :
  sound s → 0 < amount < ed → ed <= free (account s who) → free (account s who) - amount < ed →
  reserved (account s who) = 0 → transfer_checks s who who amount Expendable = Ok tt →
  ∃ s', transfer who who amount Expendable s = (s', Ok amount) ∧ account s' who = default_value ∧
    excess s' = excess s + amount.
Proof.
  intros Hs Ha Hed Hlow Hres Hcheck. pose proof Hs as (Hok & _ & Hex). set (a := account s who) in *.
  unfold transfer_checks in Hcheck. unfold transfer, bindM at 1, getM, bindM at 1, liftM.
  destruct (withdraw_into_result _ _) as [x|e|] eqn:Hw; [|done..].
  destruct (can_withdraw_ok s who amount Expendable x Hok ltac:(lia) Hw) as (Hred & _ & Hprov). fold a in Hprov.
  change (deposit_into_result (can_deposit s who amount Extant) = Ok tt) in Hcheck.
  unfold bindM at 1. rewrite Hcheck. unfold bindM at 1.
  pose proof (decrease_balance_ok who amount BestEffort Expendable Polite s Hs ltac:(lia)) as Hd.
  cbv zeta in Hd. replace (decrease_of s who amount BestEffort Expendable Polite) with amount in Hd
    by (unfold decrease_of; lia). fold a in Hd.
  assert (settled (set_free a (free a - amount)) = default_value ∧
    dust_of (set_free a (free a - amount)) = Some (free a - amount)) as [Hset Hdust].
  { unfold settled, dust_of, is_dust. cbn. rewrite (proj2 (Z.ltb_lt _ _) Hlow), Hres.
    rewrite (proj2 (Z.eqb_neq (free a - amount) 0)) by lia. done. }
  destruct (decrease_balance _ _ _ _ _ s) as [s1 [r|e|]]; [| |done].
  - destruct Hd as (_ & _ & Hs1 & He1 & _ & _ & s0 & _ & Ha0 & Hh). rewrite Hdust in Hh. injection Hh as Hh.
    assert (Ha1 : account s1 who = default_value).
    { rewrite <- Hh. transitivity (account s0 who); [apply drop_dust_account|]. by rewrite Ha0, Hset. }
    pose proof (increase_balance_ok who amount BestEffort s1 (proj1 Hs1) ltac:(lia)) as Hi. cbv zeta in Hi.
    rewrite Ha1 in Hi. change (free default_value) with 0 in Hi. pose proof ed_in_range. unfold ed in Ha.
    specialize (Hi ltac:(lia)). unfold ed in Hi. unfold bindM, ignoreM.
    destruct (increase_balance _ _ _ s1) as [s2 [v|e|]]; [| |done].
    + destruct Hi as [(-> & -> & _)|(_ & ? & _)]; [|lia]. eexists. split; [done|]. by split.
    + destruct Hi as [-> _]. eexists. split; [done|]. by split.
  - destruct Hd as (_ & _ & [Hlt|(_ & _ & Hcan)]).
    + pose proof (reducible_force s who Expendable Polite Hok). lia.
    + destruct (Hprov Hlow) as [?|Hc]; [lia|]. by rewrite Hc in Hcan.
Qed.

(** [C35] With [Exact] the amount is not checked against what may be taken: everything up to
    what [Expendable] and [Force] allow is withdrawn, whatever preservation and fortitude
    are asked for.  Funds that are frozen go, and with [Preserve] the account itself: left
    with less than the existential deposit and nothing reserved, it is emptied. *)
Theorem exact_withdraw_ignores_limits who amount preservation force s :
  sound s → 0 <= amount <= reducible_balance s who Expendable Force →
  let a := account s who in
  ∃ s', withdraw who amount Exact preservation force s = (s', Ok amount) ∧
    account s' who = settled (set_free a (free a - amount)) ∧
    (free a - amount < ed → reserved a = 0 → account s' who = default_value).
Proof.
  intros Hs [Ha Hred] a.
  pose proof (decrease_balance_ok who amount Exact preservation force s Hs Ha) as Hd.
  cbv zeta in Hd. cbn [decrease_of] in Hd. fold a in Hd. unfold withdraw, bindM at 1.
  destruct (decrease_balance _ _ _ _ _ s) as [s' [r|e|]]; [| |done].
  - destruct Hd as (-> & _ & _ & _ & _ & _ & s1 & _ & Hs1 & Hh).
    assert (Hacc : account s' who = settled (set_free a (free a - amount))).
    { rewrite <- Hs1. destruct (dust_of _) as [d|]; injection Hh as <-; [apply drop_dust_account|done]. }
    eexists. split; [done|]. change (account (push_event _ s') who) with (account s' who).
    split; [done|]. intros Hlow Hres. rewrite Hacc. unfold settled, is_dust. cbn.
    by rewrite (proj2 (Z.ltb_lt _ _) Hlow), Hres.
  - destruct Hd as (_ & _ & [?|(Hed & Hlow & Hcan)]); [lia|]. exfalso. revert Hred. pose proof ed_positive as Hpos.
    unfold reducible_balance, saturating_sub. fold a ed. rewrite Hcan.
    rewrite (proj2 (Z.eqb_neq (free a) 0)) by (unfold ed in *; lia). cbn [negb].
    change (bool_decide (Expendable = Expendable)) with true. change (bool_decide (Force = Polite)) with false.
    rewrite !orb_true_r. unfold ed in *. lia.
Qed.

End self_transfer.

(** * Examples *)

#[local] Existing Instance demo_config.
#[local] Existing Instance demo_config_ok.
#[local] Existing Instance drop_dust.

Definition demo_empty : Runtime Z AccountData (Storage Z) :=
  mkRuntime ∅ [] (mkStorage 0 0 ∅ ∅ ∅ ∅ []).

Definition demo_genesis : list (Z * Z) := [(1, 1000); (2, 500)].

Lemma genesis_correct_witness :
  ∃ s', genesis_build demo_genesis demo_empty = (s', Ok tt) ∧ total_issuance s' = 1500.
Proof.
  pose proof (genesis_correct demo_genesis demo_empty eq_refl) as Hg.
  ospecialize (Hg _); [by vm_compute|].
  rewrite decide_True in Hg.
  2: { split; [by repeat constructor|]. apply (bool_decide_unpack (NoDup [1; 2])). by vm_compute. }
  destruct Hg as (s' & Hs' & _ & Ht & _). by exists s'.
Defined.

Lemma supply_conserved_witness :
  let s1 := (genesis_build demo_genesis demo_empty).1 in
  let s := (transactional (dispatch (OpTransfer 1 2 995 Expendable)) s1).1 in
  total_issuance s = held s ∧ total_issuance s = 1495.
Proof.
  intros s1 s. destruct (supply_conserved demo_genesis demo_empty s1 s) as (_ & Hsum & _).
  - done.
  - by vm_compute.
  - by vm_compute.
  - apply rtc_once. apply (step_op (OpTransfer 1 2 995 Expendable) s1 s (Ok tt)); [by split|by vm_compute].
  - split; [exact Hsum|]. by vm_compute.
Defined.

Lemma transfer_correct_witness :
  let s := demo_state (demo_info 0 1 1000 0 0) (demo_info 0 1 500 0 0) [] in
  ∃ s', transfer 1 2 300 Preserve s = (s', Ok 300) ∧ free (account s' 1) = 700 ∧ free (account s' 2) = 800.
Proof.
  intros s. destruct (demo_sound (demo_info 0 1 1000 0 0) (demo_info 0 1 500 0 0) []) as [Hs _];
    [demo_info_ok|demo_info_ok|by vm_compute|].
  pose proof (transfer_correct 1 2 300 Preserve s Hs ltac:(by vm_compute) ltac:(by vm_compute)) as Ht. cbv zeta in Ht.
  assert (Hc : transfer_checks s 1 2 300 Preserve = Ok tt) by (by vm_compute). rewrite Hc in Ht.
  destruct Ht as (_ & _ & s' & Ht & _ & _ & _ & Hfun). exists s'. split; [done|].
  destruct Hfun as (_ & -> & -> & _); [by vm_compute|]. by vm_compute.
Defined.

Lemma exact_withdraw_ignores_limits_witness :
  let s := demo_state (demo_info 1 2 1000 0 900) (demo_info 0 1 500 0 0) [] in
  reducible_balance s 1 Preserve Polite = 100 ∧
  ∃ s', withdraw 1 995 Exact Preserve Polite s = (s', Ok 995) ∧ account s' 1 = default_value.
Proof.
  intros s. destruct (demo_sound (demo_info 1 2 1000 0 900) (demo_info 0 1 500 0 0) []) as [Hs _];
    [demo_info_ok|demo_info_ok|by vm_compute|]. split; [by vm_compute|].
  destruct (exact_withdraw_ignores_limits 1 995 Preserve Polite s Hs) as (s' & Hw & _ & Ha).
  - split; by vm_compute.
  - exists s'. split; [done|]. apply Ha; by vm_compute.
Defined.

Lemma self_transfer_loses_funds_witness :
  let s := demo_state (demo_info 0 1 12 0 0) (demo_info 0 1 500 0 0) [] in
  ∃ s', transfer 1 1 5 Expendable s = (s', Ok 5) ∧ account s' 1 = default_value ∧
    total_issuance s' = 505 ∧ excess s' = 5.
Proof.
  intros s. destruct (demo_sound (demo_info 0 1 12 0 0) (demo_info 0 1 500 0 0) []) as [Hs He];
    [demo_info_ok|demo_info_ok|by vm_compute|].
  destruct (self_transfer_loses_funds 1 5 s Hs) as (s' & Ht & Ha & Hx); try by vm_compute.
  exists s'. split; [done|]. split; [done|]. rewrite Hx. split; [|unfold s; by rewrite He].
  assert (Hs' : s' = (transfer 1 1 5 Expendable s).1) by (by rewrite Ht). rewrite Hs'. by vm_compute.
Defined.
