(* ===== verification/Arith128.v ===== *)
(** 128-bit helpers of sp-arithmetic (primitives/arithmetic/src/helpers_128bit.rs): binary
    gcd, 256-bit products and quotients, multiplication by a rational with rounding, and
    the integer square root.

    Values are integers in the range of [u128]; operations that wrap in the source wrap
    here.  Loops take fuel, and the theorems say how much is enough. *)

From stdpp Require Import base numbers list option.
From Equations Require Import Equations.
From S2P Require Import Prelude.

Local Open Scope Z_scope.

(** * Definitions *)

Inductive Rounding := Up | Down | NearestPrefUp | NearestPrefDown.

(** The binary greatest common divisor, on natural numbers as [u128] is; a left shift
    drops the bits above 128. *)
Section gcd.
Local Open Scope N_scope.

Lemma half_lt a : a <> 0 -> N.shiftr a 1 < a.
Proof. intros. rewrite N.shiftr_div_pow2. apply N.div_lt; lia. Qed.

Equations gcd (a b : N) : N by wf (N.to_nat (a + b)) lt :=
gcd a b with N.eq_dec a b, N.eq_dec a 0, N.eq_dec b 0, N.odd a, N.odd b := {
  | left _, _, _, _, _ => b
  | right _, left _, _, _, _ => b
  | right _, right _, left _, _, _ => a
  | right _, right _, right _, false, true => gcd (N.shiftr a 1) b
  | right _, right _, right _, true, false => gcd (N.shiftr b 1) a
  | right _, right _, right _, false, false =>
      N.shiftl (gcd (N.shiftr a 1) (N.shiftr b 1)) 1 mod 2 ^ 128
  | right _, right _, right _, true, true =>
      gcd (N.shiftr (N.max a b - N.min a b) 1) (N.min a b)
}.
Next Obligation.
  pose proof (half_lt (N.max a b - N.min a b)). lia.
Qed.
Next Obligation. pose proof (half_lt b). lia. Qed.
Next Obligation. pose proof (half_lt a). lia. Qed.
Next Obligation. pose proof (half_lt a). pose proof (half_lt b). lia. Qed.

End gcd.

Definition low_64 (a : Z) : Z := Z.land a (2 ^ 64 - 1).
Definition high_64 (a : Z) : Z := Z.shiftr a 64.
Definition neg128 (a : Z) : Z := wadd 128 (wrap 128 (Z.lnot a)) 1.
Definition div128 (a : Z) : Z := wadd 128 (neg128 a / a) 1.
Definition mod128 (a : Z) : Z := neg128 a mod a.

Record Double128 := mkDouble { dhigh : Z; dlow : Z }.

Definition try_into_u128 (d : Double128) : option Z := if dhigh d =? 0 then Some (dlow d) else None.
Definition double_zero : Double128 := mkDouble 0 0.
Definition left_shift_64 (v : Z) : Double128 := mkDouble (Z.shiftr v 64) (wrap 128 (Z.shiftl v 64)).
Definition from_low (low : Z) : Double128 := mkDouble 0 low.
Definition low_part (d : Double128) : Double128 := mkDouble 0 (dlow d).

(** [overflowing_add] on the low halves, the carry into the wrapping high halves *)
Definition double_add (a b : Double128) : Double128 :=
  let carry := if 2 ^ 128 <=? dlow a + dlow b then 1 else 0 in
  mkDouble (wadd 128 (wadd 128 (dhigh a) (dhigh b)) carry) (wadd 128 (dlow a) (dlow b)).

Definition product_of (a b : Z) : Double128 :=
  let f := wmul 128 (low_64 a) (low_64 b) in
  let o := wmul 128 (low_64 a) (high_64 b) in
  let i := wmul 128 (high_64 a) (low_64 b) in
  let l := wmul 128 (high_64 a) (high_64 b) in
  double_add (double_add (mkDouble l f) (left_shift_64 i)) (left_shift_64 o).

(** The loop of [Double128::div]; [None] when the fuel runs out. *)
Fixpoint div_loop (fuel : nat) (q r : Z) (x a : Double128) : option (Double128 * Double128) :=
  if dhigh a =? 0 then Some (x, a)
  else
    match fuel with
    | O => None
    | S fuel =>
        div_loop fuel q r (double_add x (product_of (dhigh a) q))
          (double_add (product_of (dhigh a) r) (low_part a))
    end.

(** As many rounds as a 256-bit number can be halved. *)
Definition div_fuel : nat := 257.

Definition double_div (a : Double128) (rhs : Z) : option (Double128 * Z) :=
  if rhs =? 1 then Some (a, 0)
  else
    '(x, a) ← div_loop div_fuel (div128 rhs) (mod128 rhs) double_zero a;
    Some (double_add x (from_low (dlow a / rhs)), dlow a mod rhs).

(** The outer option is for a loop that does not end; the inner is the function's. *)
Definition multiply_by_rational_with_rounding (a b c : Z) (r : Rounding) : option (option Z) :=
  if c =? 0 then Some None
  else
    '(result, remainder) ← double_div (product_of a b) c;
    Some (
      result ← try_into_u128 result;
      let bump :=
        match r with
        | Up => 0 <? remainder
        | NearestPrefUp => c / 2 + c mod 2 <=? remainder
        | NearestPrefDown => c / 2 <? remainder
        | Down => false
        end in
      if bump then checked_add 128 result 1 else Some result).

(** [leading_zeros] of a non-zero [u128] *)
Definition leading_zeros128 (n : Z) : Z := 127 - Z.log2 n.

(** [None] when the fuel runs out or a sum or a difference leaves the range of [u128]. *)
Fixpoint sqrt_loop (fuel : nat) (n result bit : Z) : option Z :=
  if bit =? 0 then Some result
  else
    match fuel with
    | O => None
    | S fuel =>
        t ← checked_add 128 result bit;
        if t <=? n then
          n ← checked_sub n t;
          result ← checked_add 128 (Z.shiftr result 1) bit;
          sqrt_loop fuel n result (Z.shiftr bit 2)
        else sqrt_loop fuel n (Z.shiftr result 1) (Z.shiftr bit 2)
    end.

(** One round for every second bit. *)
Definition sqrt_fuel : nat := 64.

Definition sqrt (n : Z) : option Z :=
  if n =? 0 then Some 0
  else
    let max_shift := 127 in
    d ← checked_sub max_shift (leading_zeros128 n);
    let shift := Z.land d (wrap 32 (Z.lnot 1)) in
    sqrt_loop sqrt_fuel n 0 (wrap 128 (Z.shiftl 1 shift)).

(** * The greatest common divisor *)

Section gcd_proofs.
Local Open Scope N_scope.

Lemma gcd_even_odd x y : N.gcd (2 * x) (2 * y + 1) = N.gcd x (2 * y + 1).
Proof.
  set (d := N.gcd (2 * x) (2 * y + 1)).
  assert (Hd : (d | 2 * x)) by apply N.gcd_divide_l.
  assert (Ho : (d | 2 * y + 1)) by apply N.gcd_divide_r.
  assert (Hc : N.gcd d 2 = 1).
  { apply N.divide_1_r. rewrite <- (N.add_sub 1 (2 * y)), (N.add_comm 1).
    apply N.divide_sub_r.
    - etrans; [apply N.gcd_divide_l | exact Ho].
    - apply N.divide_mul_l, N.gcd_divide_r. }
  apply N.divide_antisym.
  - apply N.gcd_greatest; [| exact Ho]. by apply (N.gauss _ 2).
  - apply N.gcd_greatest; [| apply N.gcd_divide_r].
    apply N.divide_mul_r, N.gcd_divide_l.
Qed.

Lemma odd_form a : N.odd a = true -> a = 2 * N.shiftr a 1 + 1.
Proof. intros H. rewrite <- N.div2_spec, (N.div2_odd a) at 1. by rewrite H. Qed.

Lemma even_form a : N.odd a = false -> a = 2 * N.shiftr a 1.
Proof. intros H. rewrite <- N.div2_spec, (N.div2_odd a) at 1. rewrite H. simpl. lia. Qed.

Lemma gcd_even_odd' a b :
  N.odd a = false -> N.odd b = true -> N.gcd (N.shiftr a 1) b = N.gcd a b.
Proof.
  intros Ha Hb. rewrite (even_form a Ha) at 2. rewrite (odd_form b Hb). symmetry.
  apply gcd_even_odd.
Qed.

Lemma gcd_sub_even a b :
  a <= b -> N.odd a = true -> N.odd b = true -> N.gcd (N.shiftr (b - a) 1) a = N.gcd a b.
Proof.
  intros Hab Ha Hb. rewrite gcd_even_odd' by (try done; rewrite N.odd_sub, Ha, Hb; done).
  rewrite N.gcd_comm. replace b with (b - a + 1 * a) at 2 by lia.
  symmetry. apply N.gcd_add_mult_diag_r.
Qed.

Lemma shiftr_le a : N.shiftr a 1 <= a.
Proof. rewrite N.shiftr_div_pow2. apply N.Div0.div_le_upper_bound. lia. Qed.

Lemma gcd_le_l a b : a <> 0 -> N.gcd a b <= a.
Proof. intros. apply N.divide_pos_le; [lia | apply N.gcd_divide_l]. Qed.

Lemma gcd_is_gcd a b : a < 2 ^ 128 -> b < 2 ^ 128 -> gcd a b = N.gcd a b.
Proof.
  funelim (gcd a b); intros Ha Hb; rewrite <- ?Heqcall;
    pose proof (shiftr_le a); pose proof (shiftr_le b).
  - subst. symmetry. apply N.gcd_diag.
  - subst. symmetry. apply N.gcd_0_l.
  - subst. symmetry. apply N.gcd_0_r.
  - pose proof (shiftr_le (N.max a b - N.min a b)). rewrite H by lia.
    destruct (N.le_ge_cases a b).
    + rewrite N.max_r, N.min_l by lia. by apply gcd_sub_even.
    + rewrite N.max_l, N.min_r by lia. rewrite (N.gcd_comm a). by apply gcd_sub_even.
  - rewrite H, (N.gcd_comm a) by lia. by apply gcd_even_odd'.
  - rewrite H by lia. by apply gcd_even_odd'.
  - rewrite H, N.shiftl_mul_pow2, N.mul_comm, <- N.gcd_mul_mono_l by lia.
    change (2 ^ 1) with 2. rewrite <- !even_form by done.
    apply N.mod_small. pose proof (gcd_le_l a b). lia.
Qed.

End gcd_proofs.

(** * 256-bit numbers *)

Definition value (d : Double128) : Z := dhigh d * 2 ^ 128 + dlow d.
Definition double_ok (d : Double128) : Prop := in_range 128 (dhigh d) /\ in_range 128 (dlow d).

Lemma carry_add a b :
  in_range 128 a -> in_range 128 b ->
  a + b = (if 2 ^ 128 <=? a + b then 1 else 0) * 2 ^ 128 + wadd 128 a b.
Proof.
  unfold in_range, wadd, wrap. intros. case_match eqn:E.
  - apply Z.leb_le in E. rewrite <- (Z_mod_plus_full (a + b) (-1)), Z.mod_small; lia.
  - apply Z.leb_gt in E. rewrite Z.mod_small; lia.
Qed.

Lemma wrap_range w z : 0 <= w -> in_range w (wrap w z).
Proof. intros. apply Z.mod_pos_bound. by apply Z.pow_pos_nonneg. Qed.

Lemma double_add_ok a b : double_ok (double_add a b).
Proof. split; by apply wrap_range. Qed.

Lemma value_range a : double_ok a -> 0 <= value a < 2 ^ 256.
Proof. unfold double_ok, in_range, value. lia. Qed.

(** Addition is exact when the sum fits 256 bits. *)
Lemma double_add_value a b :
  double_ok a -> double_ok b -> value a + value b < 2 ^ 256 ->
  value (double_add a b) = value a + value b.
Proof.
  intros [Ha1 Ha2] [Hb1 Hb2] Hlt. pose proof (carry_add _ _ Ha2 Hb2) as Hc.
  pose proof (wrap_range 128 (dlow a + dlow b) ltac:(lia)).
  unfold value, double_add, wadd, wrap in *; cbn [dhigh dlow] in *.
  unfold in_range in *. set (c := if 2 ^ 128 <=? dlow a + dlow b then 1 else 0) in *.
  assert (0 <= c <= 1) by (unfold c; case_match; lia).
  rewrite Z.add_mod_idemp_l by lia. rewrite (Z.mod_small (dhigh a + dhigh b + c)); lia.
Qed.

Lemma low_64_mod a : low_64 a = a mod 2 ^ 64.
Proof. unfold low_64. by rewrite <- Z.land_ones by lia. Qed.

Lemma high_64_div a : high_64 a = a / 2 ^ 64.
Proof. unfold high_64. by rewrite Z.shiftr_div_pow2 by lia. Qed.

Lemma halves_64 a :
  in_range 128 a ->
  in_range 64 (low_64 a) /\ in_range 64 (high_64 a) /\ a = high_64 a * 2 ^ 64 + low_64 a.
Proof.
  rewrite low_64_mod, high_64_div. unfold in_range. Z.to_euclidean_division_equations; lia.
Qed.

Lemma left_shift_64_value v :
  in_range 128 v -> double_ok (left_shift_64 v) /\ value (left_shift_64 v) = v * 2 ^ 64.
Proof.
  unfold in_range, double_ok, left_shift_64, value, wrap; cbn [dhigh dlow].
  rewrite Z.shiftr_div_pow2, Z.shiftl_mul_pow2 by lia. unfold in_range. Z.to_euclidean_division_equations; lia.
Qed.

Lemma half_product_range a b : in_range 64 a -> in_range 64 b -> 0 <= a * b <= (2 ^ 64 - 1) * (2 ^ 64 - 1).
Proof. unfold in_range. nia. Qed.

Lemma wmul_halves a b : in_range 64 a -> in_range 64 b -> wmul 128 a b = a * b.
Proof. intros Ha Hb. apply Z.mod_small. pose proof (half_product_range _ _ Ha Hb). lia. Qed.

Lemma product_of_value a b :
  in_range 128 a -> in_range 128 b ->
  double_ok (product_of a b) /\ value (product_of a b) = a * b.
Proof.
  intros Ha Hb. destruct (halves_64 a Ha) as (Hal & Hah & Ea).
  destruct (halves_64 b Hb) as (Hbl & Hbh & Eb).
  split; [apply double_add_ok|]. unfold product_of.
  rewrite !wmul_halves by done.
  revert Ea Eb. generalize dependent (low_64 a). generalize dependent (high_64 a).
  generalize dependent (low_64 b). generalize dependent (high_64 b).
  intros bh Hbh bl Hbl ah Hah al Hal -> ->.
  pose proof (half_product_range _ _ Hal Hbl). pose proof (half_product_range _ _ Hal Hbh).
  pose proof (half_product_range _ _ Hah Hbl). pose proof (half_product_range _ _ Hah Hbh).
  destruct (left_shift_64_value (ah * bl)) as [? Hi]; [unfold in_range; lia|].
  destruct (left_shift_64_value (al * bh)) as [? Ho]; [unfold in_range; lia|].
  assert (double_ok (mkDouble (ah * bh) (al * bl)))
    by (split; cbn [dhigh dlow]; unfold in_range; lia).
  assert (Hfl : value (mkDouble (ah * bh) (al * bl)) = ah * bh * 2 ^ 128 + al * bl) by done.
  rewrite double_add_value; [| apply double_add_ok | done |];
    rewrite double_add_value by (try done; lia); rewrite Hi, Ho, Hfl; [ring | lia].
Qed.

(** * Division *)

Lemma neg128_value a : 0 < a < 2 ^ 128 -> neg128 a = 2 ^ 128 - a.
Proof.
  intros. unfold neg128, wadd, wrap. rewrite Z.add_mod_idemp_l by lia.
  unfold Z.lnot. rewrite <- (Z_mod_plus_full _ 1), Z.mod_small; lia.
Qed.

(** [div128] and [mod128] divide 2^128, which no [u128] holds. *)
Lemma div128_mod128 a :
  1 < a < 2 ^ 128 ->
  2 ^ 128 = div128 a * a + mod128 a /\ 0 <= mod128 a < a /\ in_range 128 (div128 a).
Proof.
  intros Ha. unfold div128, mod128. rewrite neg128_value by lia.
  pose proof (Z.div_mod (2 ^ 128 - a) a ltac:(lia)).
  pose proof (Z.mod_pos_bound (2 ^ 128 - a) a ltac:(lia)).
  assert (0 <= (2 ^ 128 - a) / a < 2 ^ 128 - 1).
  { split; [apply Z.div_pos; lia | apply Z.div_lt_upper_bound; lia]. }
  rewrite wadd_small by (unfold in_range; lia). unfold in_range. lia.
Qed.

Section division.
Context (rhs q r : Z) (Hrhs : 1 < rhs < 2 ^ 128).
Context (Hqr : 2 ^ 128 = q * rhs + r) (Hr : 0 <= r < rhs) (Hq : in_range 128 q).

(** The remainder of 2^128 is below 2^127, so a round halves what exceeds 2^128. *)
Lemma round_halves h l :
  0 < h -> 0 <= l < 2 ^ 128 ->
  2 * (h * r + l - 2 ^ 128) < h * 2 ^ 128 + l - 2 ^ 128.
Proof.
  intros Hh Hl. assert (1 <= q) by (destruct (Z.le_gt_cases q 0); [nia | lia]).
  assert (1 * rhs <= q * rhs) by (apply Z.mul_le_mono_nonneg_r; lia).
  assert (h * (2 * r) <= h * (2 ^ 128 - 1)) by (apply Z.mul_le_mono_nonneg_l; lia). lia.
Qed.

Lemma round_value x a :
  double_ok x -> double_ok a -> value x * rhs + value a < 2 ^ 256 ->
  let x' := double_add x (product_of (dhigh a) q) in
  let a' := double_add (product_of (dhigh a) r) (low_part a) in
  value x' = value x + dhigh a * q /\ value a' = dhigh a * r + dlow a.
Proof.
  intros Hx Ha Hlt x' a'. pose proof (value_range x Hx). pose proof Ha as [Hh Hl].
  destruct (product_of_value (dhigh a) q Hh Hq) as [Hp1 Hp2].
  destruct (product_of_value (dhigh a) r Hh) as [Hp3 Hp4]; [unfold in_range in *; lia|].
  assert (Hlp : double_ok (low_part a)) by (split; [unfold in_range; cbn; lia | exact Hl]).
  assert (Hlv : value (low_part a) = dlow a) by done.
  unfold value in Hlt at 2. unfold in_range in *.
  split; [unfold x' | unfold a']; rewrite double_add_value by (try done; nia); lia.
Qed.

Lemma div_loop_ok fuel : forall x a,
  double_ok x -> double_ok a -> value x * rhs + value a < 2 ^ 256 ->
  value a - 2 ^ 128 < 2 ^ (Z.of_nat fuel - 1) ->
  exists x' a', div_loop fuel q r x a = Some (x', a') /\ double_ok x' /\
    dhigh a' = 0 /\ in_range 128 (dlow a') /\
    value x' * rhs + dlow a' = value x * rhs + value a.
Proof.
  induction fuel as [|fuel IH]; intros x a Hx Ha Hlt Hfuel; cbn [div_loop];
    destruct (Z.eqb_spec (dhigh a) 0) as [E|E].
  1, 3: exists x, a; repeat split; try apply Hx; try apply Ha; try done;
    unfold value at 3; rewrite E; lia.
  - destruct Ha as [Hh Hl]. unfold value, in_range in *. cbn in Hfuel. lia.
  - destruct (round_value x a Hx Ha Hlt) as [Vx Va].
    destruct Ha as [Hh Hl]. unfold in_range in Hh, Hl.
    pose proof (round_halves (dhigh a) (dlow a) ltac:(lia) Hl) as Hhalf.
    assert (Heq : (value x + dhigh a * q) * rhs + (dhigh a * r + dlow a)
                  = value x * rhs + value a) by (unfold value at 3; rewrite Hqr; ring).
    destruct (IH (double_add x (product_of (dhigh a) q))
                (double_add (product_of (dhigh a) r) (low_part a)))
      as (x' & a' & ? & ? & ? & ? & Hv); try apply double_add_ok.
    + rewrite Vx, Va. lia.
    + rewrite Va. unfold value in Hfuel. destruct fuel as [|f].
      * cbn in Hfuel |- *. lia.
      * replace (Z.of_nat (S (S f)) - 1) with (Z.succ (Z.of_nat (S f) - 1)) in Hfuel by lia.
        rewrite Z.pow_succ_r in Hfuel by lia. lia.
    + exists x', a'. do 4 (split; [done|]). rewrite Hv, Vx, Va. exact Heq.
Qed.

End division.

(** The loop of the division ends, and the division is Euclidean. *)
Lemma double_div_ok a rhs :
  double_ok a -> 0 < rhs < 2 ^ 128 ->
  exists x, double_div a rhs = Some (x, value a mod rhs) /\ double_ok x /\
    value x = value a / rhs.
Proof.
  intros Ha Hrhs. unfold double_div. pose proof (value_range a Ha).
  destruct (Z.eqb_spec rhs 1) as [->|].
  { exists a. by rewrite Z.mod_1_r, Z.div_1_r. }
  destruct (div128_mod128 rhs) as (Hqr & Hr & Hq); [lia|].
  destruct (div_loop_ok rhs _ _ ltac:(lia) Hqr Hr Hq div_fuel double_zero a)
    as (x & a' & -> & Hx & Ha0 & Hl & Hv); try done.
  { change (value double_zero) with 0. lia. }
  { change (Z.of_nat div_fuel - 1) with 256. lia. }
  change (value double_zero) with 0 in Hv. cbn. rewrite Z.mul_0_l, Z.add_0_l in Hv.
  pose proof (Z.div_mod (dlow a') rhs ltac:(lia)) as Hdm.
  pose proof (Z.mod_pos_bound (dlow a') rhs ltac:(lia)).
  pose proof (value_range x Hx). unfold in_range in Hl.
  assert (0 <= dlow a' / rhs <= dlow a').
  { split; [apply Z.div_pos; lia | apply Z.div_le_upper_bound; nia]. }
  assert (Hsum : value (double_add x (from_low (dlow a' / rhs))) = value x + dlow a' / rhs).
  { rewrite double_add_value; [done | done | split; cbn; unfold in_range; lia |].
    change (value (from_low (dlow a' / rhs))) with (dlow a' / rhs). nia. }
  assert (value a = rhs * (value x + dlow a' / rhs) + dlow a' mod rhs) as E by lia.
  eexists. split; [| split; [apply double_add_ok|]].
  - do 2 f_equal. apply (Z.mod_unique _ _ (value x + dlow a' / rhs)); [lia | exact E].
  - rewrite Hsum. apply (Z.div_unique _ _ _ (dlow a' mod rhs)); [lia | exact E].
Qed.

(** * Multiplication by a rational *)

(** The quotient of [n] by [c], rounded as asked. *)
Definition round_div (r : Rounding) (n c : Z) : Z :=
  match r with
  | Up => (n + c - 1) / c
  | Down => n / c
  | NearestPrefUp => (2 * n + c) / (2 * c)
  | NearestPrefDown => (2 * n + c - 1) / (2 * c)
  end.

Definition rounds_up (r : Rounding) (rem c : Z) : bool :=
  match r with
  | Up => 0 <? rem
  | NearestPrefUp => c / 2 + c mod 2 <=? rem
  | NearestPrefDown => c / 2 <? rem
  | Down => false
  end.

Lemma round_div_bump r n c :
  0 < c -> round_div r n c = n / c + (if rounds_up r (n mod c) c then 1 else 0).
Proof.
  intros Hc. pose proof (Z.div_mod n c ltac:(lia)). pose proof (Z.mod_pos_bound n c Hc).
  pose proof (Z.div_mod c 2 ltac:(lia)). pose proof (Z.mod_pos_bound c 2 ltac:(lia)).
  set (k := n / c) in *. set (m := n mod c) in *.
  destruct r; cbn [round_div rounds_up]; [| by fold k; lia | |]; symmetry.
  - destruct (Z.ltb_spec 0 m).
    + apply (Z.div_unique _ _ _ (m - 1)); lia.
    + apply (Z.div_unique _ _ _ (c - 1)); lia.
  - destruct (Z.leb_spec (c / 2 + c mod 2) m).
    + apply (Z.div_unique _ _ _ (2 * m - c)); lia.
    + apply (Z.div_unique _ _ _ (2 * m + c)); lia.
  - destruct (Z.ltb_spec (c / 2) m).
    + apply (Z.div_unique _ _ _ (2 * m - c - 1)); lia.
    + apply (Z.div_unique _ _ _ (2 * m + c - 1)); lia.
Qed.

(** What multiplication by a rational promises of a type of [w] bits. *)
Definition rounded (w : Z) (r : Rounding) (n c : Z) : option Z :=
  if (c =? 0) || (2 ^ w <=? round_div r n c) then None else Some (round_div r n c).

Lemma multiply_by_rational_ok a b c r :
  in_range 128 a -> in_range 128 b -> in_range 128 c ->
  multiply_by_rational_with_rounding a b c r = Some (rounded 128 r (a * b) c).
Proof.
  intros Ha Hb Hc. unfold multiply_by_rational_with_rounding, rounded.
  destruct (Z.eqb_spec c 0) as [->|Hc0]; [done|]. unfold in_range in Hc.
  destruct (product_of_value a b Ha Hb) as [Hp Vp].
  destruct (double_div_ok (product_of a b) c Hp ltac:(lia)) as (x & -> & [Hh Hl] & Vx).
  rewrite Vp in *. cbn [mbind option_bind orb]. f_equal.
  fold (rounds_up r ((a * b) mod c) c). rewrite round_div_bump by lia. rewrite <- Vx.
  unfold try_into_u128, value, in_range in *.
  destruct (Z.eqb_spec (dhigh x) 0) as [->|]; cbn [mbind option_bind].
  - unfold checked_add. destruct (rounds_up r _ c), (Z.leb_spec (2 ^ 128) (dlow x + 1));
      repeat case_match; try lia; f_equal; lia.
  - rewrite (proj2 (Z.leb_le _ _)); [done|]. destruct (rounds_up r _ c); lia.
Qed.

(** [C29] For all [u128] arguments the product is computed in full width, the division loop
    ends, and the result is the rounded quotient when it fits [u128] and [None] when it does
    not, or when the divisor is zero. *)
Theorem multiply_by_rational_correct a b c r :
  in_range 128 a -> in_range 128 b -> in_range 128 c ->
  multiply_by_rational_with_rounding a b c r =
  Some (if (c =? 0) || (2 ^ 128 <=? round_div r (a * b) c) then None
        else Some (round_div r (a * b) c)).
Proof. apply multiply_by_rational_ok. Qed.

Lemma multiply_by_rational_correct_witness :
  multiply_by_rational_with_rounding (2 ^ 127) 6 (2 ^ 126 + 1) NearestPrefUp = Some (Some 12) /\
  multiply_by_rational_with_rounding (2 ^ 127) 6 2 Down = Some None.
Proof.
  split.
  - rewrite multiply_by_rational_correct by (unfold in_range; lia). by vm_compute.
  - rewrite multiply_by_rational_correct by (unfold in_range; lia). by vm_compute.
Defined.

(** * The square root *)

Definition bit_of (j : nat) : Z := match j with O => 0 | S k => 4 ^ Z.of_nat k end.

Lemma bit_of_shift j : Z.shiftr (bit_of (S j)) 2 = bit_of j.
Proof.
  rewrite Z.shiftr_div_pow2 by lia. change (2 ^ 2) with 4. destruct j as [|j]; [done|].
  cbn [bit_of]. rewrite Nat2Z.inj_succ, Z.pow_succ_r by lia.
  rewrite Z.mul_comm. by apply Z.div_mul.
Qed.

(** Before the round for bit [4^(j-1)] the top bits of the root are known: [s], a multiple
    of [2^j] kept as [s * 2^j], and [n] is what is left of the argument. *)
Lemma sqrt_loop_ok N j : forall fuel s,
  (j <= fuel)%nat -> 0 <= s <= 2 ^ 64 - 2 ^ Z.of_nat j ->
  s * s <= N < (s + 2 ^ Z.of_nat j) * (s + 2 ^ Z.of_nat j) ->
  sqrt_loop fuel (N - s * s) (s * 2 ^ Z.of_nat j) (bit_of j) = Some (Z.sqrt N).
Proof.
  induction j as [|j IH]; intros fuel s Hf Hs HN.
  { destruct fuel; cbn; f_equal; rewrite Z.mul_1_r; symmetry; apply Z.sqrt_unique; lia. }
  destruct fuel as [|fuel]; [lia|]. rewrite Nat2Z.inj_succ, Z.pow_succ_r in * by lia.
  assert (Hb : bit_of (S j) = 2 ^ Z.of_nat j * 2 ^ Z.of_nat j).
  { cbn [bit_of]. rewrite <- Z.pow_mul_l. done. }
  assert (Hp : 0 < 2 ^ Z.of_nat j) by (apply Z.pow_pos_nonneg; lia).
  assert (Hsh : Z.shiftr (s * (2 * 2 ^ Z.of_nat j)) 1 = s * 2 ^ Z.of_nat j).
  { rewrite Z.shiftr_div_pow2 by lia. change (2 ^ 1) with 2.
    replace (s * _) with (s * 2 ^ Z.of_nat j * 2) by ring. by apply Z.div_mul. }
  cbn [sqrt_loop]. rewrite bit_of_shift, Hsh, Hb.
  revert IH Hs HN Hp. generalize (2 ^ Z.of_nat j). intros p IH Hs HN Hp.
  destruct (Z.eqb_spec (p * p) 0); [nia|].
  assert (s * (2 * p) + p * p < 2 ^ 128).
  { assert (s * (2 * p) <= (2 ^ 64 - 2 * p) * (2 * p)) by (apply Z.mul_le_mono_nonneg_r; lia).
    nia. }
  unfold checked_add. rewrite (proj2 (Z.ltb_lt (s * (2 * p) + p * p) (2 ^ 128))) by done. cbn [mbind option_bind].
  destruct (Z.leb_spec (s * (2 * p) + p * p) (N - s * s)).
  - unfold checked_sub. rewrite (proj2 (Z.leb_le _ _)) by done. cbn [mbind option_bind].
    rewrite (proj2 (Z.ltb_lt (s * p + p * p) (2 ^ 128))) by nia. cbn [mbind option_bind].
    replace (N - s * s - _) with (N - (s + p) * (s + p)) by ring.
    replace (s * p + p * p) with ((s + p) * p) by ring. apply IH; [lia | nia | nia].
  - apply IH; [lia | nia | nia].
Qed.

Lemma clear_low_bit d : 0 <= d < 128 -> Z.land d (wrap 32 (Z.lnot 1)) = 2 * (d / 2).
Proof.
  intros Hd. assert (Hall : forallb (fun d => Z.land d (wrap 32 (Z.lnot 1)) =? 2 * (d / 2))
    (seqZ 0 128) = true) by (by vm_compute).
  apply Z.eqb_eq. rewrite forallb_forall in Hall. apply Hall, list_elem_of_In, elem_of_seqZ. lia.
Qed.

Lemma sqrt_ok n : in_range 128 n -> sqrt n = Some (Z.sqrt n).
Proof.
  intros [H0 Hn]. unfold sqrt. destruct (Z.eqb_spec n 0) as [->|]; [done|].
  pose proof (Z.log2_spec n ltac:(lia)) as Hlog. pose proof (Z.log2_nonneg n).
  assert (Z.log2 n < 128) by (apply Z.log2_lt_pow2; lia).
  unfold leading_zeros128, checked_sub. rewrite (proj2 (Z.leb_le _ _)) by lia.
  cbn [mbind option_bind]. replace (127 - (127 - Z.log2 n)) with (Z.log2 n) by lia.
  rewrite clear_low_bit by lia.
  pose proof (Z.div_mod (Z.log2 n) 2 ltac:(lia)). pose proof (Z.mod_pos_bound (Z.log2 n) 2 ltac:(lia)).
  set (k := Z.log2 n / 2) in *.
  assert (E : wrap 128 (Z.shiftl 1 (2 * k)) = bit_of (S (Z.to_nat k))).
  { cbn [bit_of]. rewrite Z2Nat.id, Z.shiftl_1_l, Z.pow_mul_r by lia. apply wrap_small.
    change (2 ^ 2) with 4. split; [apply Z.pow_nonneg; lia|].
    apply Z.le_lt_trans with (4 ^ 63); [apply Z.pow_le_mono_r; lia | lia]. }
  rewrite E. replace n with (n - 0 * 0) at 1 by lia.
  replace 0 with (0 * 2 ^ Z.of_nat (S (Z.to_nat k))) at 3 by lia.
  apply sqrt_loop_ok; rewrite ?Nat2Z.inj_succ, ?Z2Nat.id by lia.
  - unfold sqrt_fuel. lia.
  - assert (2 ^ Z.succ k <= 2 ^ 64) by (apply Z.pow_le_mono_r; lia). lia.
  - rewrite Z.add_0_l, <- Z.pow_add_r by lia. split; [lia|].
    apply Z.lt_le_trans with (2 ^ Z.succ (Z.log2 n)); [lia | apply Z.pow_le_mono_r; lia].
Qed.

(** [gcd] ends and is the greatest common divisor; no bit is lost by its left shift. *)
Theorem gcd_correct a b :
  (a < 2 ^ 128)%N -> (b < 2 ^ 128)%N ->
  gcd a b = N.gcd a b /\ (gcd a b < 2 ^ 128)%N.
Proof.
  intros Ha Hb. rewrite gcd_is_gcd by done. split; [done|].
  destruct (N.eq_dec a 0%N) as [->|Ha0]; [by rewrite N.gcd_0_l|].
  pose proof (gcd_le_l a b Ha0). lia.
Qed.

Lemma gcd_correct_witness : gcd (2 ^ 127) (6 * 2 ^ 80) = (2 ^ 81)%N.
Proof.
  destruct (gcd_correct (2 ^ 127) (6 * 2 ^ 80)) as [-> _]; [done | done |]. by vm_compute.
Defined.

(** [sqrt] ends within 64 rounds, never leaves the range of [u128] on the way, and
    returns the integer square root. *)
Theorem sqrt_correct n :
  in_range 128 n ->
  exists v, sqrt n = Some v /\ 0 <= v < 2 ^ 64 /\ v * v <= n < (v + 1) * (v + 1).
Proof.
  intros Hn. exists (Z.sqrt n). split; [by apply sqrt_ok|]. destruct Hn as [H0 Hn].
  pose proof (Z.sqrt_spec n H0) as [Hlo Hhi]. pose proof (Z.sqrt_nonneg n). unfold Z.succ in Hhi.
  split; [| done].
  split; [lia|]. apply Z.square_lt_simpl_nonneg; lia.
Qed.

Lemma sqrt_correct_witness : exists v, sqrt (umax 128) = Some v /\ v = umax 64.
Proof.
  destruct (sqrt_correct (umax 128)) as (v & Hv & _); [by vm_compute|].
  exists v. split; [exact Hv|]. revert Hv. vm_compute. congruence.
Defined.
