(* ===== verification/BigUint.v ===== *)
(** Unsigned integers of any size (primitives/arithmetic/src/biguint.rs): limbs of 32 bits,
    the schoolbook addition, subtraction and multiplication, division by a limb, and the
    long division of Knuth (algorithm D).

    The limbs are kept as the source keeps them, most significant first; [limb x i] is the
    limb of weight [B^i].  [None] is a panic: an index out of range, or the inner loop of
    the division running out of fuel. *)

From stdpp Require Import base numbers list option.
From S2P Require Import Prelude.

Local Open Scope Z_scope.
Local Open Scope rust_scope.

(** * Definitions *)

Definition SHIFT : Z := 32.
Definition B : Z := 2 ^ 32 - 1 + 1.

Definition split (a : Z) : Z * Z := (wrap 32 (Z.shiftr a SHIFT), wrap 32 a).
Definition mul_single (a b : Z) : Z := wmul 64 a b.
Definition add_single (a b : Z) : Z * Z :=
  let '(carry, r) := split (wadd 64 a b) in (r, carry).
Definition div_single (a b : Z) : Z * Z := (a / b, wrap 32 (a mod b)).

Record BigUint := mkBig { digits : list Z }.

Definition with_capacity (size : nat) : BigUint := mkBig (replicate (max size 1) 0).
Definition big_zero : BigUint := mkBig [0].
Definition big_one : BigUint := mkBig [1].
Definition is_zero (x : BigUint) : bool := forallb (fun d => d =? 0) (digits x).
Definition from_limbs (limbs : list Z) : BigUint :=
  match limbs with [] => big_zero | _ => mkBig limbs end.
Definition len (x : BigUint) : nat := length (digits x).

Definition get (x : BigUint) (index : nat) : option Z :=
  if (index <? len x)%nat then digits x !! (len x - 1 - index)%nat else None.

Definition nat_checked_sub (a b : nat) : option nat :=
  if (b <=? a)%nat then Some (a - b)%nat else None.

Definition checked_get (x : BigUint) (index : nat) : option Z :=
  i ← nat_checked_sub (len x) 1;
  j ← nat_checked_sub i index;
  digits x !! j.

Definition set (x : BigUint) (index : nat) (value : Z) : option BigUint :=
  if (index <? len x)%nat
  then Some (mkBig (<[(len x - 1 - index)%nat := value]> (digits x))) else None.

Definition lsb (x : BigUint) : option Z := digits x !! (len x - 1)%nat.
Definition msb (x : BigUint) : option Z := digits x !! 0%nat.

(** [Iterator::position] of a non-zero limb *)
Fixpoint first_nonzero (l : list Z) : option nat :=
  match l with
  | [] => None
  | d :: l => if d =? 0 then S <$> first_nonzero l else Some 0%nat
  end.

Definition lstrip (x : BigUint) : BigUint :=
  if (len x =? 0)%nat then x
  else
    let index := default (len x - 1)%nat (first_nonzero (digits x)) in
    if (0 <? index)%nat then mkBig (drop index (digits x)) else x.

Definition lpad (x : BigUint) (size : nat) : BigUint :=
  if (size <=? len x)%nat then x else mkBig (replicate (size - len x) 0 ++ digits x).

(** A [for] loop over the given indices *)
Fixpoint for_loop {S} (l : list nat) (body : nat -> S -> option S) (s : S) : option S :=
  match l with
  | [] => Some s
  | i :: l => s ← body i s; for_loop l body s
  end.

Definition add_round (x y : BigUint) (j : nat) (st : BigUint * Z) : option (BigUint * Z) :=
  let '(w, k) := st in
  let u := default 0 (checked_get x j) in
  let v := default 0 (checked_get y j) in
  let s := wadd 64 (wadd 64 u v) k in
  w ← set w j (wrap 32 (s mod B));
  Some (w, s / B).

Definition add (x y : BigUint) : option BigUint :=
  let n := max (len x) (len y) in
  '(w, k) ← for_loop (seq 0 n) (add_round x y) (with_capacity (n + 1), 0);
  set w n (wrap 32 k).

Definition sub_limb (u v k : Z) : Z * Z :=
  match v1 ← checked_sub u v; checked_sub v1 k with
  | Some v2 => (v2, 0)
  | None => (wsub 64 (wsub 64 (wadd 64 u B) v) k, 1)
  end.

Definition sub_round (x y : BigUint) (j : nat) (st : BigUint * Z) : option (BigUint * Z) :=
  let '(w, k) := st in
  let u := default 0 (checked_get x j) in
  let v := default 0 (checked_get y j) in
  let '(s, k) := sub_limb u v k in
  w ← set w j (wrap 32 s);
  Some (w, k).

Definition sub (x y : BigUint) : res BigUint BigUint :=
  let n := max (len x) (len y) in
  let? wk := expect (for_loop (seq 0 n) (sub_round x y) (with_capacity n, 0)) in
  let '(w, k) := wk in
  if k =? 0 then Ok w else Err w.

Definition mul_round (x y : BigUint) (j i : nat) (st : BigUint * Z) : option (BigUint * Z) :=
  let '(w, k) := st in
  u ← get x j;
  v ← get y i;
  wl ← get w (i + j);
  let t := wadd 64 (wadd 64 (mul_single u v) wl) k in
  w ← set w (i + j) (wrap 32 (t mod B));
  Some (w, wrap 32 (t / B)).

Definition mul_row (x y : BigUint) (j : nat) (w : BigUint) : option BigUint :=
  u ← get x j;
  if u =? 0 then Some w
  else
    '(w, k) ← for_loop (seq 0 (len y)) (mul_round x y j) (w, 0);
    set w (j + len y) k.

Definition mul (x y : BigUint) : option BigUint :=
  for_loop (seq 0 (len x)) (mul_row x y) (with_capacity (len y + len x)).

Definition div_unit_round (x : BigUint) (other : Z) (d : nat) (st : BigUint * Z)
    : option (BigUint * Z) :=
  let '(out, r) := st in
  xd ← get x d;
  let '(q, rr) := div_single (wadd 64 (wmul 64 r B) xd) other in
  out ← set out d (wrap 32 q);
  Some (out, rr).

Definition div_unit (x : BigUint) (other : Z) : option BigUint :=
  let other := Z.max other 1 in
  let n := len x in
  '(out, r) ← for_loop (rev (seq 0 n)) (div_unit_round x other) (with_capacity n, 0);
  Some out.

(** [From] for the integer types *)
Definition from_single (a : Z) : BigUint := mkBig [a].
Definition from_u64 (a : Z) : BigUint := let '(ah, al) := split a in mkBig [ah; al].
Definition split128 (a : Z) : Z * Z := (wrap 64 (Z.shiftr a 64), wrap 64 a).
Definition from_u128 (x : Z) : BigUint :=
  let '(xh, xl) := split128 x in
  let '(xhh, xhl) := split xh in
  let '(xlh, xll) := split xl in
  lstrip (from_limbs [xhh; xhl; xlh; xll]).

(** [TryFrom<BigUint>] for [u64] and [u128]: the [width] of the type in bits *)
Fixpoint sum_limbs (width : Z) (acc : Z) (i : Z) (l : list Z) : Z :=
  match l with
  | [] => acc
  | d :: l => sum_limbs width (wadd width acc (wrap width (Z.shiftl d (SHIFT * i)))) (i + 1) l
  end.

Definition try_from (width : Z) (value : BigUint) : option Z :=
  let value := lstrip value in
  if width <? Z.of_nat (len value) * SHIFT then None
  else Some (sum_limbs width 0 0 (rev (digits value))).

(** [Ord for [u32]]: lexicographic *)
Fixpoint slice_cmp (l k : list Z) : comparison :=
  match l, k with
  | [], [] => Eq
  | [], _ => Lt
  | _, [] => Gt
  | a :: l, b :: k => match a ?= b with Eq => slice_cmp l k | c => c end
  end.

Definition cmp (x y : BigUint) : comparison :=
  match first_nonzero (digits x), first_nonzero (digits y) with
  | None, None => Eq
  | Some _, None => Gt
  | None, Some _ => Lt
  | Some i, Some j =>
      let lhs := drop i (digits x) in
      let rhs := drop j (digits y) in
      match (length lhs ?= length rhs)%nat with
      | Eq => slice_cmp lhs rhs
      | c => c
      end
  end.

(** [leading_zeros] of a non-zero [u32] *)
Definition leading_zeros (n : Z) : Z := 31 - Z.log2 n.

(** The closure [test] of the division: whether the estimate was lowered, and the new
    estimate.  [v1], [v2] are the top limbs of the divisor, [u3] the third of the window. *)
Definition test (v1 v2 u3 qhat rhat : Z) : bool * Z * Z :=
  let predicate_1 := B <=? qhat in
  let predicate_2 := wadd 64 (wmul 64 B rhat) u3 <? wmul 64 qhat v2 in
  if predicate_1 || predicate_2
  then (true, wsub 64 qhat 1, wadd 64 rhat v1) else (false, qhat, rhat).

Fixpoint test_loop (fuel : nat) (v1 v2 u3 qhat rhat : Z) : option Z :=
  if rhat <? B then
    match fuel with
    | O => None
    | S fuel =>
        let '(lowered, qhat, rhat) := test v1 v2 u3 qhat rhat in
        if lowered then test_loop fuel v1 v2 u3 qhat rhat else Some qhat
    end
  else Some qhat.

(** A lowered estimate raises [rhat] by at least half of [B]. *)
Definition test_fuel : nat := 2.

(** Step D3: the estimate of the quotient limb [j] *)
Definition estimate (self_norm other_norm : BigUint) (n j : nat) : option Z :=
  u1 ← get self_norm (j + n);
  u2 ← get self_norm (j + n - 1);
  v1 ← get other_norm (n - 1);
  v2 ← get other_norm (n - 2);
  u3 ← get self_norm (j + n - 2);
  let '(qhat, rhat) := div_single (wadd 64 (wmul 64 u1 B) u2) v1 in
  let '(_, qhat, rhat) := test v1 v2 u3 qhat rhat in
  test_loop test_fuel v1 v2 u3 qhat rhat.

(** The limbs [j..=j+n] as a number, and their replacement *)
Definition window (x : BigUint) (j n : nat) : option BigUint :=
  mkBig <$> mapM (get x) (rev (seq j (n + 1))).

Definition write_window (indices : list nat) (j : nat) (y x : BigUint) : option BigUint :=
  for_loop indices (fun d x => v ← get y (d - j); set x d v) x.

(** Steps D3 and D4: the estimate, the window less the estimate times the divisor, and
    whether the difference is negative *)
Definition subtract (self_norm other_norm : BigUint) (n j : nat) : option (Z * BigUint * bool) :=
  qhat ← estimate self_norm other_norm n j;
  lhs ← window self_norm j n;
  rhs ← mul other_norm (from_u64 qhat);
  match sub lhs rhs with
  | Ok t => Some (qhat, t, false)
  | Err t => Some (qhat, t, true)
  | Panic => None
  end.

(** Step D6: add back *)
Definition add_back (other_norm : BigUint) (n j : nat) (st : BigUint * BigUint)
    : option (BigUint * BigUint) :=
  let '(self_norm, q) := st in
  qj ← get q j;
  q ← set q j (wsub 32 qj 1);
  u ← window self_norm j n;
  r ← add other_norm u;
  self_norm ← write_window (rev (seq j (n + 1))) j r self_norm;
  Some (self_norm, q).

(** Steps D3 to D6 for the quotient limb [j] *)
Definition div_step (other_norm : BigUint) (n j : nat) (st : BigUint * BigUint)
    : option (BigUint * BigUint) :=
  let '(self_norm, q) := st in
  '(qhat, t, negative) ← subtract self_norm other_norm n j;
  self_norm ← write_window (seq j (n + 1)) j t self_norm;
  q ← set q j (wrap 32 qhat);
  if negative : bool then add_back other_norm n j (self_norm, q) else Some (self_norm, q).

(** The remainder, shifted back by the bits of the normalisation *)
Definition denormalize_round (self_norm : BigUint) (nb : Z) (d : nat) (r : BigUint)
    : option BigUint :=
  lo ← get self_norm d;
  hi ← get self_norm (d + 1);
  set r d (Z.lor (Z.shiftr lo nb) (wrap 32 (Z.shiftl hi (SHIFT - nb)))).

Definition denormalize (self_norm : BigUint) (n : nat) (nb : Z) (r : BigUint) : option BigUint :=
  if 0 <? nb then
    r ← for_loop (seq 0 (n - 1)) (denormalize_round self_norm nb) r;
    top ← get self_norm (n - 1);
    set r (n - 1) (Z.shiftr top nb)
  else Some self_norm.

(** The outer option is a panic, the inner the function's. *)
Definition div (x other : BigUint) (rem : bool) : option (option (BigUint * BigUint)) :=
  if (len other <=? 1)%nat then Some None
  else
    om ← msb other;
    if om =? 0 then Some None
    else
      xm ← msb x;
      if (xm =? 0) || (len x <=? len other)%nat then Some None
      else
        let n := len other in
        let m := (len x - n)%nat in
        let normalizer_bits := leading_zeros om in
        let normalizer := wrap 32 (2 ^ normalizer_bits) in
        self_norm ← mul x (from_single normalizer);
        other_norm ← mul other (from_single normalizer);
        '(self_norm, q) ← for_loop (rev (seq 0 (m + 1))) (div_step (lstrip other_norm) n)
          (lpad self_norm (n + m + 1), with_capacity (m + 1));
        r ← (if rem then denormalize self_norm n normalizer_bits (with_capacity n)
             else Some (with_capacity n));
        Some (Some (q, r)).

(** * Limbs and values *)

(** The number the limbs spell. *)
Definition val (x : BigUint) : Z := foldl (fun acc d => acc * B + d) 0 (digits x).

(** The limb of weight [B^i], zero above the top. *)
Definition limb (x : BigUint) (i : nat) : Z := default 0 (checked_get x i).

Definition limbs_ok (x : BigUint) : Prop := forall i, 0 <= limb x i < B.

(** Every limb is a [u32]. *)
Definition big_ok (x : BigUint) : Prop := Forall (in_range 32) (digits x).

(** The value of the first [n] limbs of [f]. *)
Fixpoint lv (f : nat -> Z) (n : nat) : Z :=
  match n with O => 0 | S n => lv f n + f n * B ^ Z.of_nat n end.

Lemma B_pow_pos n : 0 < B ^ Z.of_nat n.
Proof. apply Z.pow_pos_nonneg; unfold B; lia. Qed.

Lemma B_pow_S n : B ^ Z.of_nat (S n) = B * B ^ Z.of_nat n.
Proof. rewrite Nat2Z.inj_succ. apply Z.pow_succ_r. lia. Qed.

Lemma B_pow_add n m : B ^ Z.of_nat (n + m) = B ^ Z.of_nat n * B ^ Z.of_nat m.
Proof. rewrite Nat2Z.inj_add. apply Z.pow_add_r; lia. Qed.

Lemma lv_ext f g n : (forall i, (i < n)%nat -> f i = g i) -> lv f n = lv g n.
Proof. induction n as [|n IH]; cbn; intros H; [done|]. rewrite IH, H by (intros; apply H || lia; lia). done. Qed.

Lemma lv_bound f n : (forall i, (i < n)%nat -> 0 <= f i < B) -> 0 <= lv f n < B ^ Z.of_nat n.
Proof.
  induction n as [|n IH]; intros H; [cbn; lia|]. cbn [lv]. rewrite B_pow_S.
  pose proof (B_pow_pos n). pose proof (H n ltac:(lia)).
  destruct IH as [? ?]; [intros; apply H; lia|]. nia.
Qed.

Lemma lv_zero f n : (forall i, (i < n)%nat -> f i = 0) -> lv f n = 0.
Proof. induction n as [|n IH]; cbn; intros H; [done|]. rewrite IH, H by auto with lia. done. Qed.

Lemma lv_app f a b :
  lv f (a + b) = lv f a + B ^ Z.of_nat a * lv (fun i => f (a + i)%nat) b.
Proof.
  induction b as [|b IH]; [rewrite Nat.add_0_r; cbn; lia|].
  rewrite Nat.add_succ_r. cbn [lv]. rewrite IH, B_pow_add. ring.
Qed.

Lemma lv_update f g n i v :
  (i < n)%nat -> g i = v -> (forall k, k <> i -> g k = f k) ->
  lv g n = lv f n + (v - f i) * B ^ Z.of_nat i.
Proof.
  intros Hi Hv Hg. replace n with (i + (1 + (n - S i)))%nat by lia.
  rewrite !lv_app, (lv_ext g f i) by (intros; apply Hg; lia). cbn [lv].
  rewrite (lv_ext (fun k => g (i + (1 + k))%nat) (fun k => f (i + (1 + k))%nat) (n - S i))
    by (intros; apply Hg; lia).
  rewrite Nat.add_0_r, Hv. change (B ^ Z.of_nat 0) with 1. ring.
Qed.

Lemma limb_reverse x i : limb x i = default 0 (reverse (digits x) !! i).
Proof.
  unfold limb, checked_get, nat_checked_sub, len.
  destruct (Nat.leb_spec 1 (length (digits x))); cbn [mbind option_bind].
  - destruct (Nat.leb_spec i (length (digits x) - 1)); cbn [mbind option_bind].
    + rewrite reverse_lookup by lia. do 2 f_equal. lia.
    + by rewrite lookup_ge_None_2 by (rewrite length_reverse; lia).
  - by rewrite lookup_ge_None_2 by (rewrite length_reverse; lia).
Qed.

Lemma limb_out x i : (len x <= i)%nat -> limb x i = 0.
Proof.
  intros. rewrite limb_reverse, lookup_ge_None_2; [done|]. by rewrite length_reverse.
Qed.

Lemma limb_cons d l i :
  limb (mkBig (d :: l)) i = if decide (i = length l) then d else limb (mkBig l) i.
Proof.
  rewrite !limb_reverse. cbn [digits]. rewrite reverse_cons. case_decide as E.
  - subst. rewrite lookup_app_r, length_reverse, Nat.sub_diag by (by rewrite length_reverse). done.
  - destruct (decide (i < length l)%nat).
    + by rewrite lookup_app_l by (by rewrite length_reverse).
    + rewrite !lookup_ge_None_2; [done | |]; rewrite ?length_app, ?length_reverse; cbn; lia.
Qed.

Lemma val_acc l acc :
  foldl (fun acc d => acc * B + d) acc l
  = acc * B ^ Z.of_nat (length l) + lv (limb (mkBig l)) (length l).
Proof.
  revert acc. induction l as [|d l IH]; intros acc; [cbn; lia|].
  cbn [foldl length]. rewrite IH, B_pow_S. cbn [lv].
  rewrite (lv_ext (limb (mkBig (d :: l))) (limb (mkBig l))).
  - rewrite limb_cons, decide_True by done. ring.
  - intros. rewrite limb_cons, decide_False by lia. done.
Qed.

Lemma val_lv x : val x = lv (limb x) (len x).
Proof. unfold val. rewrite val_acc. by destruct x. Qed.

Lemma lv_beyond x n : (len x <= n)%nat -> lv (limb x) n = val x.
Proof.
  intros. replace n with (len x + (n - len x))%nat by lia.
  rewrite lv_app, <- val_lv, (lv_zero _ (n - len x)); [lia|].
  intros. apply limb_out. lia.
Qed.

Lemma big_limbs_ok x : big_ok x -> limbs_ok x.
Proof.
  intros H i. rewrite limb_reverse. destruct (reverse (digits x) !! i) eqn:E; cbn; [|done].
  by apply (Forall_lookup_1 (in_range 32) (reverse (digits x)) i); [apply Forall_reverse|].
Qed.

Lemma limbs_big_ok x : limbs_ok x -> big_ok x.
Proof.
  intros H. apply Forall_reverse, Forall_lookup. intros i d Hi.
  specialize (H i). rewrite limb_reverse, Hi in H. exact H.
Qed.

Lemma val_bound x : limbs_ok x -> 0 <= val x < B ^ Z.of_nat (len x).
Proof. intros H. rewrite val_lv. apply lv_bound. intros. apply H. Qed.

(** * Access and loops *)

Lemma get_limb x i : (i < len x)%nat -> get x i = Some (limb x i).
Proof.
  intros Hi. unfold get, limb, checked_get, nat_checked_sub.
  rewrite (proj2 (Nat.ltb_lt _ _)), !(proj2 (Nat.leb_le _ _)) by lia. cbn [mbind option_bind].
  destruct (lookup_lt_is_Some_2 (digits x) (len x - 1 - i)) as [d Hd]; [unfold len in *; lia|].
  cbn [mbind option_bind]. rewrite (proj2 (Nat.leb_le _ _)) by lia. cbn [mbind option_bind].
  by rewrite Hd.
Qed.

Lemma set_limb x i v :
  (i < len x)%nat ->
  exists x', set x i v = Some x' /\ len x' = len x /\
    (forall k, limb x' k = if decide (k = i) then v else limb x k).
Proof.
  intros Hi. unfold set. rewrite (proj2 (Nat.ltb_lt _ _)) by done. eexists. split; [done|].
  unfold len in *; cbn [digits]. split; [by rewrite length_insert|].
  intros k. rewrite !limb_reverse. cbn [digits].
  destruct (decide (k < length (digits x))%nat).
  - rewrite !reverse_lookup by (rewrite ?length_insert; lia). rewrite length_insert.
    case_decide as E.
    + subst. replace (length (digits x) - S i)%nat with (length (digits x) - 1 - i)%nat by lia.
      by rewrite list_lookup_insert_eq by lia.
    + by rewrite list_lookup_insert_ne by lia.
  - rewrite decide_False by lia.
    rewrite !lookup_ge_None_2; [done | |]; rewrite length_reverse, ?length_insert; lia.
Qed.

(** After a [set] the limbs are still in range and the value moved by the change of the limb. *)
Lemma set_limb_ok x i v :
  (i < len x)%nat -> limbs_ok x -> 0 <= v < B ->
  exists x', set x i v = Some x' /\ len x' = len x /\ limbs_ok x' /\
    limb x' i = v /\ (forall k, k <> i -> limb x' k = limb x k).
Proof.
  intros Hi Hx Hv. destruct (set_limb x i v Hi) as (x' & E & Hl & Hk).
  exists x'. split; [done|]. split; [done|]. split; [| split].
  - intros k. rewrite Hk. case_decide; [done | apply Hx].
  - by rewrite Hk, decide_True.
  - intros k Hne. by rewrite Hk, decide_False.
Qed.

Lemma len_with_capacity n : len (with_capacity n) = max n 1.
Proof. unfold len, with_capacity. cbn [digits]. apply length_replicate. Qed.

Lemma limb_with_capacity n i : limb (with_capacity n) i = 0.
Proof.
  rewrite limb_reverse. unfold with_capacity; cbn [digits]. rewrite reverse_replicate.
  destruct (decide (i < max n 1)%nat).
  - by rewrite lookup_replicate_2.
  - by rewrite lookup_ge_None_2 by (rewrite length_replicate; lia).
Qed.

Lemma with_capacity_ok n : limbs_ok (with_capacity n).
Proof. intros i. by rewrite limb_with_capacity. Qed.

Lemma for_loop_app {S} l k (body : nat -> S -> option S) s :
  for_loop (l ++ k) body s = (s' ← for_loop l body s; for_loop k body s').
Proof.
  revert s. induction l as [|i l IH]; intros s; [done|]. cbn.
  destruct (body i s); cbn; [apply IH | done].
Qed.

(** Loops upwards and downwards: an invariant each round carries to the next index. *)
Lemma for_up {S} (P : nat -> S -> Prop) body a n s :
  P a s ->
  (forall j s, (a <= j < a + n)%nat -> P j s -> exists s', body j s = Some s' /\ P (1 + j)%nat s') ->
  exists s', for_loop (seq a n) body s = Some s' /\ P (a + n)%nat s'.
Proof.
  revert a s. induction n as [|n IH]; intros a s HP Hstep.
  - exists s. by rewrite Nat.add_0_r.
  - destruct (Hstep a s ltac:(lia) HP) as (s' & E & HP').
    destruct (IH (1 + a)%nat s' HP') as (s'' & E' & HP''); [intros; apply Hstep; [lia | done]|].
    exists s''. cbn. rewrite E. cbn. rewrite <- Nat.add_succ_comm. done.
Qed.

Lemma for_down {S} (P : nat -> S -> Prop) body a n s :
  P (a + n)%nat s ->
  (forall j s, (a <= j < a + n)%nat -> P (1 + j)%nat s -> exists s', body j s = Some s' /\ P j s') ->
  exists s', for_loop (rev (seq a n)) body s = Some s' /\ P a s'.
Proof.
  revert s. induction n as [|n IH]; intros s HP Hstep.
  - exists s. by rewrite Nat.add_0_r in HP.
  - rewrite seq_S, rev_app_distr. cbn [rev app for_loop].
    rewrite Nat.add_succ_r in HP.
    destruct (Hstep (a + n)%nat s ltac:(lia) HP) as (s' & E & HP'). rewrite E. cbn.
    apply IH; [done|]. intros. apply Hstep; [lia | done].
Qed.

(** * Addition, subtraction, multiplication *)

Lemma wrap32 z : 0 <= z < B -> wrap 32 z = z.
Proof. exact (wrap_small 32 z). Qed.

Lemma wadd64 a b : 0 <= a + b < B * B -> wadd 64 a b = a + b.
Proof. exact (wadd_small 64 a b). Qed.

Lemma wmul64 a b : 0 <= a * b < B * B -> wmul 64 a b = a * b.
Proof. exact (wrap_small 64 (a * b)). Qed.

Lemma mod_B z : 0 <= z mod B < B.
Proof. by apply Z.mod_pos_bound. Qed.

Lemma div_mod_B z : z = z / B * B + z mod B.
Proof. rewrite Z.mul_comm. by apply Z.div_mod. Qed.

(** The range facts the loops need at index [j]. *)
Lemma carry_B s c : 0 <= s < c * B -> 0 <= s / B < c.
Proof.
  intros. split; [apply Z.div_pos; unfold B in *; lia|].
  apply Z.div_lt_upper_bound; unfold B in *; lia.
Qed.

Lemma add_ok x y :
  limbs_ok x -> limbs_ok y ->
  exists w, add x y = Some w /\ limbs_ok w /\ len w = (max (len x) (len y) + 1)%nat /\
    val w = val x + val y.
Proof.
  intros Hx Hy. unfold add. set (n := max (len x) (len y)).
  destruct (for_up (fun j '(w, k) => limbs_ok w /\ len w = (n + 1)%nat /\ 0 <= k <= 1 /\
      lv (limb w) j + k * B ^ Z.of_nat j = lv (limb x) j + lv (limb y) j)
    (add_round x y) 0 n (with_capacity (n + 1), 0)) as ([w k] & -> & Hw & Hlw & Hk & Hv).
  - split; [apply with_capacity_ok|]. rewrite len_with_capacity. cbn. lia.
  - intros j [w k] Hj (Hw & Hlw & Hk & Hv). cbn [add_round]. fold (limb x j) (limb y j).
    cbv zeta.
    pose proof (Hx j). pose proof (Hy j). rewrite (wadd64 (limb x j)), wadd64 by (unfold B in *; lia).
    set (s := limb x j + limb y j + k). pose proof (mod_B s). pose proof (div_mod_B s).
    destruct (set_limb_ok w j (wrap 32 (s mod B))) as (w' & -> & Hl' & Hw' & Hi & Ho);
      [lia | done | by rewrite wrap32|].
    eexists. split; [done|]. split; [done|]. split; [lia|].
    pose proof (carry_B s 2 ltac:(lia)). split; [lia|].
    cbn [Nat.add lv]. rewrite B_pow_S, Hi, wrap32 by done.
    rewrite (lv_ext (limb w') (limb w)) by (intros; apply Ho; lia). nia.
  - cbn [mbind option_bind]. rewrite Nat.add_0_l in Hv.
    destruct (set_limb_ok w n (wrap 32 k)) as (w' & -> & Hl' & Hw' & Hi & Ho);
      [lia | done | rewrite wrap32; unfold B; lia |].
    exists w'. do 2 (split; [done|]). split; [lia|].
    rewrite val_lv, Hl', Hlw, Nat.add_1_r. cbn [lv]. rewrite Hi, wrap32 by (unfold B; lia).
    rewrite (lv_ext (limb w') (limb w)) by (intros; apply Ho; lia).
    rewrite Hv, !lv_beyond by lia. done.
Qed.

Lemma sub_limb_ok u v k :
  0 <= u < B -> 0 <= v < B -> 0 <= k <= 1 ->
  exists s k', sub_limb u v k = (s, k') /\ 0 <= s < B /\ 0 <= k' <= 1 /\ s = u - v - k + k' * B.
Proof.
  intros Hu Hv Hk. unfold sub_limb, checked_sub.
  destruct (Z.leb_spec v u); cbn [mbind option_bind].
  - destruct (Z.leb_spec k (u - v)).
    + eexists _, _. split; [done|]. lia.
    + rewrite wadd64, (wsub_small _ _ v), wsub_small by (unfold in_range, B in *; lia).
      eexists _, _. split; [done|]. lia.
  - rewrite wadd64, (wsub_small _ _ v), wsub_small by (unfold in_range, B in *; lia).
    eexists _, _. split; [done|]. lia.
Qed.

(** Subtraction returns the difference, or the difference modulo [B^n] as an error when it
    is negative. *)
Lemma sub_ok x y :
  limbs_ok x -> limbs_ok y -> (0 < max (len x) (len y))%nat ->
  exists w k, sub x y = (if k =? 0 then Ok w else Err w) /\ 0 <= k <= 1 /\
    limbs_ok w /\ len w = max (len x) (len y) /\
    val w = val x - val y + k * B ^ Z.of_nat (max (len x) (len y)).
Proof.
  intros Hx Hy Hn. unfold sub. set (n := max (len x) (len y)) in *.
  destruct (for_up (fun j '(w, k) => limbs_ok w /\ len w = n /\ 0 <= k <= 1 /\
      lv (limb w) j = lv (limb x) j - lv (limb y) j + k * B ^ Z.of_nat j)
    (sub_round x y) 0 n (with_capacity n, 0)) as ([w k] & -> & Hw & Hlw & Hk & Hv).
  - split; [apply with_capacity_ok|]. rewrite len_with_capacity. cbn. lia.
  - intros j [w k] Hj (Hw & Hlw & Hk & Hv). cbn [sub_round]. fold (limb x j) (limb y j).
    cbv zeta.
    destruct (sub_limb_ok (limb x j) (limb y j) k) as (s & k' & -> & Hs & Hk' & Hsv); try done.
    destruct (set_limb_ok w j (wrap 32 s)) as (w' & -> & Hl' & Hw' & Hi & Ho);
      [lia | done | by rewrite wrap32|].
    eexists. split; [done|]. split; [done|]. split; [lia|]. split; [done|].
    cbn [Nat.add lv]. rewrite B_pow_S, Hi, wrap32 by done.
    rewrite (lv_ext (limb w') (limb w)) by (intros; apply Ho; lia). nia.
  - exists w, k. split; [done|]. do 3 (split; [done|]).
    rewrite Nat.add_0_l in Hv. rewrite !lv_beyond in Hv by lia. exact Hv.
Qed.

Lemma mul_round_ok x y j i w k w0 :
  limbs_ok x -> limbs_ok y -> (j < len x)%nat -> (i < len y)%nat -> (i + j < len w)%nat ->
  limbs_ok w -> 0 <= k < B ->
  (forall l, (i + j <= l)%nat -> limb w l = limb w0 l) ->
  lv (limb w) (i + j) + k * B ^ Z.of_nat (i + j)
    = lv (limb w0) (i + j) + limb x j * B ^ Z.of_nat j * lv (limb y) i ->
  exists w' k', mul_round x y j i (w, k) = Some (w', k') /\ limbs_ok w' /\ len w' = len w /\
    0 <= k' < B /\
    (forall l, (1 + i + j <= l)%nat -> limb w' l = limb w0 l) /\
    lv (limb w') (1 + i + j) + k' * B ^ Z.of_nat (1 + i + j)
      = lv (limb w0) (1 + i + j) + limb x j * B ^ Z.of_nat j * lv (limb y) (1 + i).
Proof.
  intros Hx Hy Hj Hi Hlw Hw Hk Hrest Hv. unfold mul_round.
  rewrite !get_limb by done. cbn [mbind option_bind]. unfold mul_single.
  pose proof (Hx j). pose proof (Hy i). pose proof (Hw (i + j)%nat).
  assert (0 <= limb x j * limb y i <= (B - 1) * (B - 1)) by (unfold B in *; nia).
  rewrite wmul64 by (unfold B in *; nia).
  rewrite (wadd64 (_ * _)), wadd64 by (unfold B in *; lia).
  set (t := limb x j * limb y i + limb w (i + j) + k).
  pose proof (mod_B t). pose proof (div_mod_B t).
  pose proof (carry_B t B ltac:(unfold B in *; lia)).
  rewrite !wrap32 by done.
  destruct (set_limb_ok w (i + j) (t mod B)) as (w' & -> & Hl' & Hw' & Hii & Ho); try done.
  exists w', (t / B). do 4 (split; [done|]). split.
  { intros l Hl. rewrite Ho by lia. apply Hrest. lia. }
  cbn [Nat.add lv]. rewrite B_pow_S, Hii, <- (Hrest (i + j)%nat) by lia.
  rewrite (lv_ext (limb w') (limb w)) by (intros; apply Ho; lia).
  rewrite B_pow_add in *. unfold t in *. nia.
Qed.

Lemma mul_row_ok x y j w :
  limbs_ok x -> limbs_ok y -> (j < len x)%nat -> len w = max (len y + len x) 1 ->
  limbs_ok w -> (forall l, (j + len y <= l)%nat -> limb w l = 0) ->
  lv (limb w) (j + len y) = lv (limb x) j * val y ->
  exists w', mul_row x y j w = Some w' /\ len w' = len w /\ limbs_ok w' /\
    (forall l, (1 + j + len y <= l)%nat -> limb w' l = 0) /\
    lv (limb w') (1 + j + len y) = lv (limb x) (1 + j) * val y.
Proof.
  intros Hx Hy Hj Hlw Hw Hz Hv. unfold mul_row. rewrite get_limb by done.
  cbn [mbind option_bind]. destruct (Z.eqb_spec (limb x j) 0) as [E|E].
  - exists w. do 3 (split; [done|]). split; [intros; apply Hz; lia|].
    cbn [Nat.add lv]. rewrite E, Hv, (Hz (j + len y)%nat) by lia. lia.
  - destruct (for_up (fun i '(w', k) => limbs_ok w' /\ len w' = len w /\ 0 <= k < B /\
        (forall l, (i + j <= l)%nat -> limb w' l = limb w l) /\
        lv (limb w') (i + j) + k * B ^ Z.of_nat (i + j)
          = lv (limb w) (i + j) + limb x j * B ^ Z.of_nat j * lv (limb y) i)
      (mul_round x y j) 0 (len y) (w, 0)) as ([w' k] & -> & Hw' & Hl' & Hk & Hr & Hv').
    + cbn. repeat split; try done; try apply Hw. lia.
    + intros i [w' k] Hi (Hw' & Hl' & Hk & Hr & Hv').
      destruct (mul_round_ok x y j i w' k w) as (w2 & k2 & -> & ? & Hl2 & ? & ? & ?); try done; [lia..|].
      eexists. split; [done|]. do 3 (split; [done || lia|]). done.
    + cbn [mbind option_bind]. rewrite Nat.add_0_l in Hr, Hv'.
      destruct (set_limb_ok w' (j + len y) k) as (w2 & -> & Hl2 & Hw2 & Hi & Ho); [lia | done..|].
      exists w2. split; [done|]. split; [lia|]. split; [done|]. split.
      { intros l Hl. rewrite Ho, Hr, Hz by lia. done. }
      cbn [Nat.add lv]. rewrite Hi, (lv_ext (limb w2) (limb w')) by (intros; apply Ho; lia).
      rewrite (Nat.add_comm (len y)) in Hv'. rewrite Hv', Hv, <- val_lv. ring.
Qed.

Lemma mul_ok x y :
  limbs_ok x -> limbs_ok y ->
  exists w, mul x y = Some w /\ limbs_ok w /\ len w = max (len y + len x) 1 /\
    val w = val x * val y.
Proof.
  intros Hx Hy. unfold mul.
  destruct (for_up (fun j w => len w = max (len y + len x) 1 /\ limbs_ok w /\
      (forall l, (j + len y <= l)%nat -> limb w l = 0) /\
      lv (limb w) (j + len y) = lv (limb x) j * val y)
    (mul_row x y) 0 (len x) (with_capacity (len y + len x))) as (w & -> & Hl & Hw & Hz & Hv).
  - split; [apply len_with_capacity|]. split; [apply with_capacity_ok|].
    split; [intros; apply limb_with_capacity|]. cbn [lv].
    apply lv_zero. intros. apply limb_with_capacity.
  - intros j w Hj (Hl & Hw & Hz & Hv).
    destruct (mul_row_ok x y j w) as (w' & -> & Hl' & ? & ? & ?); try done; [lia|].
    exists w'. split; [done|]. split; [lia|]. done.
  - exists w. do 3 (split; [done|]). rewrite Nat.add_0_l, <- val_lv in Hv. rewrite <- Hv.
    rewrite val_lv, Hl. destruct (decide (len x + len y = 0)%nat) as [E|].
    + replace (max _ 1) with 1%nat by lia. rewrite E. cbn [lv]. rewrite (Hz 0%nat) by lia. done.
    + f_equal. lia.
Qed.

(** * Division by a limb *)

Lemma div_unit_round_ok x o d out r :
  limbs_ok x -> 1 <= o < B -> (d < len x)%nat -> len out = len x ->
  limbs_ok out -> 0 <= r < o -> (forall l, (l <= d)%nat -> limb out l = 0) ->
  exists out' r', div_unit_round x o d (out, r) = Some (out', r') /\ len out' = len x /\
    limbs_ok out' /\ 0 <= r' < o /\ (forall l, (l < d)%nat -> limb out' l = 0) /\
    val out' * o + r' * B ^ Z.of_nat d + lv (limb x) d
      = val out * o + r * B ^ Z.of_nat (1 + d) + lv (limb x) (1 + d).
Proof.
  intros Hx Ho Hd Hl Hout Hr Hz. unfold div_unit_round, div_single.
  rewrite get_limb by done. cbn [mbind option_bind]. pose proof (Hx d).
  rewrite wmul64, wadd64 by (unfold B in *; lia).
  set (t := r * B + limb x d). pose proof (Z.div_mod t o ltac:(lia)) as Ht.
  pose proof (Z.mod_pos_bound t o ltac:(lia)).
  assert (0 <= t / o < B).
  { split; [apply Z.div_pos | apply Z.div_lt_upper_bound]; unfold t, B in *; lia. }
  rewrite !wrap32 by lia.
  destruct (set_limb_ok out d (t / o)) as (out' & -> & Hl' & Hok' & Hi & Hne); [lia | done..|].
  exists out', (t mod o). split; [done|]. split; [lia|]. split; [done|]. split; [done|].
  split; [intros; rewrite Hne by lia; apply Hz; lia|].
  rewrite !val_lv, Hl', Hl, (lv_update (limb out) (limb out') (len x) d (t / o)) by done.
  rewrite (Hz d) by lia. cbn [Nat.add lv]. rewrite B_pow_S. unfold t in *. nia.
Qed.

Lemma div_unit_ok x o :
  limbs_ok x -> 0 <= o < B -> (0 < len x)%nat ->
  exists out, div_unit x o = Some out /\ limbs_ok out /\ len out = len x /\
    val out = val x / Z.max o 1.
Proof.
  intros Hx Ho Hn. unfold div_unit. assert (1 <= Z.max o 1 < B) by (unfold B in *; lia).
  generalize dependent (Z.max o 1). clear o Ho. intros o Ho.
  destruct (for_down (fun j '(out, r) => len out = len x /\ limbs_ok out /\ 0 <= r < o /\
      (forall l, (l < j)%nat -> limb out l = 0) /\
      val out * o + r * B ^ Z.of_nat j + lv (limb x) j = val x)
    (div_unit_round x o) 0 (len x) (with_capacity (len x), 0))
    as ([out r] & -> & Hl & Hok & Hr & Hz & Hv).
  - rewrite len_with_capacity, Nat.add_0_l. split; [lia|]. split; [apply with_capacity_ok|].
    split; [lia|]. split; [intros; apply limb_with_capacity|]. rewrite <- (val_lv x).
    rewrite (val_lv (with_capacity _)), lv_zero by (intros; apply limb_with_capacity). lia.
  - intros j [out r] Hj (Hl & Hok & Hr & Hz & Hv).
    destruct (div_unit_round_ok x o j out r) as (out' & r' & -> & ? & ? & ? & ? & Hv'); try done.
    { lia. } { intros. apply Hz. lia. }
    eexists. split; [done|]. do 4 (split; [done|]). by rewrite Hv', Hv.
  - exists out. do 3 (split; [done|]). cbn in Hv. apply (Z.div_unique _ _ _ r); lia.
Qed.

(** * Leading zeros *)

Lemma first_nonzero_spec l :
  match first_nonzero l with
  | Some i => (i < length l)%nat /\ take i l = replicate i 0 /\
      exists d k, drop i l = d :: k /\ d <> 0
  | None => l = replicate (length l) 0
  end.
Proof.
  induction l as [|d l IH]; cbn; [done|]. destruct (Z.eqb_spec d 0) as [->|]; cbn.
  - destruct (first_nonzero l) as [i|]; cbn.
    + destruct IH as (? & E & ?). split; [lia|]. cbn. by rewrite E.
    + by rewrite <- IH.
  - split; [lia|]. split; [done|]. eauto.
Qed.

Lemma val_zeros n l : val (mkBig (replicate n 0 ++ l)) = val (mkBig l).
Proof. unfold val; cbn [digits]. induction n as [|n IH]; cbn [replicate app foldl]; done. Qed.

Lemma val_replicate n : val (mkBig (replicate n 0)) = 0.
Proof. rewrite <- (app_nil_r (replicate n 0)). apply val_zeros. Qed.

(** The value of a number without leading zeros is at least [B^(len - 1)]. *)
Lemma val_lead d l :
  big_ok (mkBig (d :: l)) -> d <> 0 -> B ^ Z.of_nat (length l) <= val (mkBig (d :: l)).
Proof.
  intros H Hd. inversion H as [|? ? Hd' Hl]; subst. unfold in_range in Hd'.
  unfold val; cbn [digits foldl]. rewrite val_acc. pose proof (B_pow_pos (length l)).
  pose proof (val_bound (mkBig l) (big_limbs_ok (mkBig l) Hl)) as Hb.
  rewrite val_lv in Hb. unfold len in Hb; cbn [digits] in Hb. nia.
Qed.

Lemma lstrip_ok x :
  big_ok x -> (0 < len x)%nat ->
  big_ok (lstrip x) /\ val (lstrip x) = val x /\ (0 < len (lstrip x) <= len x)%nat /\
  (len (lstrip x) = 1%nat \/ B ^ Z.of_nat (len (lstrip x) - 1) <= val x).
Proof.
  intros Hx Hn. unfold lstrip. destruct (Nat.eqb_spec (len x) 0); [lia|].
  destruct x as [l]; unfold len, big_ok in *; cbn [digits] in *.
  pose proof (first_nonzero_spec l) as Hf. destruct (first_nonzero l) as [i|]; cbn [from_option id].
  - destruct Hf as (Hi & Ht & d & k & Hd & Hne).
    assert (Hok : Forall (in_range 32) (d :: k)) by (rewrite <- Hd; by apply Forall_drop).
    assert (Hval : val (mkBig (d :: k)) = val (mkBig l)).
    { rewrite <- (take_drop i l), Ht, Hd. symmetry. apply val_zeros. }
    pose proof (val_lead d k Hok Hne) as Hlead. rewrite Hval in Hlead.
    destruct (Nat.ltb_spec 0 i).
    + cbn [digits]. rewrite length_drop. rewrite Hd. split; [done|]. split; [done|].
      assert (length (d :: k) = length l - i)%nat as Hlen by (by rewrite <- Hd, length_drop).
      cbn in Hlen. split; [lia|]. right. by replace (length l - i - 1)%nat with (length k) by lia.
    + replace i with 0%nat in * by lia. rewrite drop_0 in Hd. subst l. cbn [digits length] in *.
      split; [done|]. split; [done|]. split; [lia|]. right.
      by replace (S (length k) - 1)%nat with (length k) by lia.
  - destruct (Nat.ltb_spec 0 (length l - 1)).
    + cbn [digits]. rewrite length_drop. split; [by apply Forall_drop|]. split.
      { rewrite Hf, drop_replicate, !val_replicate. done. }
      split; [lia|]. left. lia.
    + cbn [digits]. split; [done|]. split; [done|]. split; [lia|]. left. lia.
Qed.

Lemma lpad_ok x size :
  big_ok x -> big_ok (lpad x size) /\ val (lpad x size) = val x /\ len (lpad x size) = max (len x) size.
Proof.
  intros Hx. unfold lpad. destruct (Nat.leb_spec size (len x)); [repeat split; [done | lia]|].
  unfold len, big_ok in *; cbn [digits]. rewrite length_app, length_replicate.
  split; [apply Forall_app; split; [by apply Forall_replicate | done]|].
  split; [| lia]. rewrite val_zeros. by destruct x.
Qed.

(** * Conversions and order *)

Lemma val_cons d l : val (mkBig (d :: l)) = d * B ^ Z.of_nat (length l) + val (mkBig l).
Proof.
  unfold val at 1; cbn [digits foldl]. rewrite val_acc, val_lv. unfold len; cbn [digits]. ring.
Qed.

Lemma val_snoc d l : val (mkBig (l ++ [d])) = val (mkBig l) * B + d.
Proof. unfold val; cbn [digits]. by rewrite foldl_app. Qed.

Lemma val_list_bound l : Forall (in_range 32) l -> 0 <= val (mkBig l) < B ^ Z.of_nat (length l).
Proof. intros H. exact (val_bound (mkBig l) (big_limbs_ok (mkBig l) H)). Qed.

Lemma split_ok a :
  in_range 64 a -> exists h l, split a = (h, l) /\ in_range 32 h /\ in_range 32 l /\ a = h * B + l.
Proof.
  intros Ha. unfold split, SHIFT. rewrite Z.shiftr_div_pow2 by lia.
  exists (a / 2 ^ 32), (a mod 2 ^ 32). unfold in_range in *.
  assert (0 <= a / 2 ^ 32 < 2 ^ 32) by (Z.to_euclidean_division_equations; lia).
  rewrite wrap_small by done. split; [done|]. split; [done|].
  pose proof (Z.mod_pos_bound a (2 ^ 32) ltac:(lia)).
  pose proof (Z.div_mod a (2 ^ 32) ltac:(lia)). unfold B. lia.
Qed.

Lemma from_u64_ok a :
  in_range 64 a -> big_ok (from_u64 a) /\ len (from_u64 a) = 2%nat /\ val (from_u64 a) = a.
Proof.
  intros Ha. unfold from_u64. destruct (split_ok a Ha) as (h & l & -> & Hh & Hl & E).
  split; [do 2 (constructor; [done|]); constructor|]. split; [done|]. cbn. lia.
Qed.

Lemma from_u128_ok a : in_range 128 a -> big_ok (from_u128 a) /\ val (from_u128 a) = a.
Proof.
  intros Ha. unfold from_u128, split128. rewrite Z.shiftr_div_pow2 by lia. unfold in_range in Ha.
  assert (in_range 64 (a / 2 ^ 64)) as Hq
    by (unfold in_range; Z.to_euclidean_division_equations; lia).
  rewrite (wrap_small _ _ Hq). unfold wrap.
  assert (in_range 64 (a mod 2 ^ 64)) as Hr by (apply Z.mod_pos_bound; lia).
  destruct (split_ok _ Hq) as (hh & hl & -> & ? & ? & Eh).
  destruct (split_ok _ Hr) as (lh & ll & -> & ? & ? & El).
  pose proof (Z.div_mod a (2 ^ 64) ltac:(lia)).
  destruct (lstrip_ok (from_limbs [hh; hl; lh; ll])) as (Hok & -> & _).
  { do 4 (constructor; [done|]). constructor. } { cbn. lia. }
  split; [done|]. cbn. unfold B in *. lia.
Qed.

Lemma sum_limbs_ok w l : forall acc i,
  0 <= i -> 0 <= acc -> 0 <= w -> Forall (in_range 32) l ->
  acc + B ^ i * val (mkBig (rev l)) < 2 ^ w ->
  sum_limbs w acc i l = acc + B ^ i * val (mkBig (rev l)).
Proof.
  induction l as [|d l IH]; intros acc i Hi Hacc Hw Hl Hlt; cbn [sum_limbs rev] in *; [cbn; lia|].
  inversion Hl as [|? ? Hd Hl']; subst. unfold in_range in Hd.
  rewrite val_snoc in *. pose proof (Z.pow_pos_nonneg B i ltac:(done) Hi).
  assert (0 <= val (mkBig (rev l))) by (apply val_list_bound; by apply Forall_rev).
  assert (0 <= B ^ i * val (mkBig (rev l)) * B) by (unfold B at 2; nia).
  rewrite Z.shiftl_mul_pow2 by (unfold SHIFT; lia).
  assert (E : 2 ^ (SHIFT * i) = B ^ i) by (rewrite Z.pow_mul_r; unfold SHIFT; try done; lia).
  rewrite E, (wrap_small w (d * B ^ i)), wadd_small by (unfold in_range; nia).
  rewrite IH; [| lia | nia | done | done |]; rewrite Z.pow_add_r, Z.pow_1_r by lia; [ring | lia].
Qed.

Lemma try_from_ok w x :
  big_ok x -> (0 < len x)%nat -> w = 64 \/ w = 128 ->
  try_from w x = if val x <? 2 ^ w then Some (val x) else None.
Proof.
  intros Hx Hn Hw. unfold try_from, SHIFT.
  destruct (lstrip_ok x Hx Hn) as (Hok & Hval & Hlen & Hlead).
  set (y := lstrip x) in *. destruct (Z.ltb_spec w (Z.of_nat (len y) * 32)) as [Hlt|Hge].
  - destruct Hlead as [|Hlead]; [lia|].
    assert (2 ^ w <= B ^ Z.of_nat (len y - 1)).
    { change B with (2 ^ 32). rewrite <- Z.pow_mul_r by lia. apply Z.pow_le_mono_r; lia. }
    by rewrite (proj2 (Z.ltb_ge _ _)) by lia.
  - assert (Hb : val x < 2 ^ w).
    { rewrite <- Hval. destruct (val_bound y (big_limbs_ok y Hok)).
      apply Z.lt_le_trans with (B ^ Z.of_nat (len y)); [done|]. change B with (2 ^ 32).
      rewrite <- Z.pow_mul_r by lia. apply Z.pow_le_mono_r; lia. }
    rewrite (proj2 (Z.ltb_lt _ _)) by done. f_equal. rewrite <- Hval in *.
    assert (E : val (mkBig (rev (rev (digits y)))) = val y) by (rewrite rev_involutive; by destruct y).
    rewrite sum_limbs_ok; rewrite ?E; try lia. by apply Forall_rev.
Qed.

Lemma slice_cmp_ok l : forall k,
  length l = length k -> Forall (in_range 32) l -> Forall (in_range 32) k ->
  slice_cmp l k = (val (mkBig l) ?= val (mkBig k)).
Proof.
  induction l as [|a l IH]; intros [|b k] Hlen Hl Hk; try done. cbn [slice_cmp].
  inversion Hl as [|? ? Ha Hl']; inversion Hk as [|? ? Hb Hk']; subst.
  injection Hlen as Hlen. rewrite !val_cons, <- Hlen.
  pose proof (val_list_bound l Hl'). pose proof (val_list_bound k Hk') as Hkb.
  rewrite <- Hlen in Hkb. pose proof (B_pow_pos (length l)).
  destruct (Z.compare_spec a b) as [->|Hab|Hab]; symmetry.
  - rewrite Zcompare_plus_compat. symmetry. by apply IH.
  - apply Z.compare_lt_iff. nia.
  - apply Z.compare_gt_iff. nia.
Qed.

Lemma cmp_ok x y : big_ok x -> big_ok y -> cmp x y = (val x ?= val y).
Proof.
  destruct x as [l], y as [k]. unfold cmp, big_ok; cbn [digits]. intros Hl Hk.
  pose proof (first_nonzero_spec l) as Hf. pose proof (first_nonzero_spec k) as Hg.
  assert (Hstrip : forall l i, Forall (in_range 32) l -> take i l = replicate i 0 ->
    Forall (in_range 32) (drop i l) /\ val (mkBig l) = val (mkBig (drop i l))).
  { intros l' i Hl' Ht. split; [by apply Forall_drop|].
    rewrite <- (take_drop i l') at 1. rewrite Ht. apply val_zeros. }
  destruct (first_nonzero l) as [i|], (first_nonzero k) as [j|].
  - destruct Hf as (_ & Ht & d & l' & Ed & Hd), Hg as (_ & Hu & e & k' & Ee & He).
    destruct (Hstrip l i Hl Ht) as [Hl' ->], (Hstrip k j Hk Hu) as [Hk' ->].
    rewrite Ed, Ee in *. clear Ed Ee Ht Hu Hl Hk.
    pose proof (val_lead d l' Hl' Hd). pose proof (val_lead e k' Hk' He).
    pose proof (val_list_bound _ Hl'). pose proof (val_list_bound _ Hk').
    destruct (Nat.compare_spec (length (d :: l')) (length (e :: k'))) as [E|E|E].
    + by apply slice_cmp_ok.
    + symmetry. apply Z.compare_lt_iff. cbn [length] in *.
      assert (B ^ Z.of_nat (S (length l')) <= B ^ Z.of_nat (length k'))
        by (apply Z.pow_le_mono_r; [done | lia]). lia.
    + symmetry. apply Z.compare_gt_iff. cbn [length] in *.
      assert (B ^ Z.of_nat (S (length k')) <= B ^ Z.of_nat (length l'))
        by (apply Z.pow_le_mono_r; [done | lia]). lia.
  - destruct Hf as (_ & Ht & d & l' & Ed & Hd), (Hstrip l i Hl Ht) as [Hl' ->].
    rewrite Ed in *. pose proof (val_lead d l' Hl' Hd). pose proof (B_pow_pos (length l')).
    symmetry. rewrite Hg, val_replicate. apply Z.compare_gt_iff. lia.
  - destruct Hg as (_ & Ht & d & k' & Ed & Hd), (Hstrip k j Hk Ht) as [Hk' ->].
    rewrite Ed in *. pose proof (val_lead d k' Hk' Hd). pose proof (B_pow_pos (length k')).
    symmetry. rewrite Hf, val_replicate. apply Z.compare_lt_iff. lia.
  - by rewrite Hf, Hg, !val_replicate.
Qed.
