(* ===== verification/LongDivision.v ===== *)
(** The long division of [BigUint::div] (primitives/arithmetic/src/biguint.rs) is the
    Euclidean division: the estimate of a quotient limb is right or one too large, the
    add-back step repairs it, no intermediate value leaves its machine type, no index is out
    of range, and the loop on the estimate ends. *)

From stdpp Require Import base numbers list option.
From S2P Require Import Prelude BigUint.

Local Open Scope Z_scope.

(** * Windows of limbs *)

Lemma mapM_total {A C} (f : A -> option C) (g : A -> C) l :
  (forall a, a ∈ l -> f a = Some (g a)) -> mapM f l = Some (g <$> l).
Proof.
  induction l as [|a l IH]; intros H; [done|]. cbn.
  rewrite H by (by left). cbn. rewrite IH; [done|]. intros. apply H. by right.
Qed.

Lemma window_ok x j n :
  limbs_ok x -> (j + n < len x)%nat ->
  exists y, window x j n = Some y /\ len y = (n + 1)%nat /\ limbs_ok y /\
    (forall i, (i < n + 1)%nat -> limb y i = limb x (j + i)).
Proof.
  intros Hx Hj. unfold window. rewrite (mapM_total _ (limb x)).
  2:{ intros i Hi. apply get_limb. apply list_elem_of_In, in_rev, in_seq in Hi. lia. }
  eexists. split; [done|].
  assert (Hk : forall i, limb (mkBig (limb x <$> rev (seq j (n + 1)))) i
    = if decide (i < n + 1)%nat then limb x (j + i) else 0).
  { intros i. rewrite limb_reverse; cbn [digits]. rewrite <- fmap_reverse.
    replace (reverse (rev (seq j (n + 1)))) with (seq j (n + 1))
      by (unfold reverse; rewrite <- rev_alt; by rewrite rev_involutive).
    rewrite list_lookup_fmap. case_decide as E.
    - by rewrite lookup_seq_lt by done.
    - by rewrite lookup_seq_ge by lia. }
  split; [| split].
  - unfold len; cbn [digits]. by rewrite length_fmap, length_rev, length_seq.
  - intros i. rewrite Hk. case_decide; [apply Hx | done].
  - intros i Hi. by rewrite Hk, decide_True.
Qed.

(** Both directions of the copy loop write the limbs [j..=j+n] and no other. *)
Definition written (x y x' : BigUint) (j n : nat) : Prop :=
  len x' = len x /\ limbs_ok x' /\
  (forall i, (i < n + 1)%nat -> limb x' (j + i) = limb y i) /\
  (forall k, (k < j)%nat \/ (j + n < k)%nat -> limb x' k = limb x k).

Lemma write_window_up x y j n :
  limbs_ok x -> limbs_ok y -> (j + n < len x)%nat -> (n < len y)%nat ->
  exists x', write_window (seq j (n + 1)) j y x = Some x' /\ written x y x' j n.
Proof.
  intros Hx Hy Hj Hn. unfold write_window.
  destruct (for_up (fun d x' => len x' = len x /\ limbs_ok x' /\
      (forall k, limb x' k = if decide (j <= k < d)%nat then limb y (k - j) else limb x k))
    (fun d x => v ← get y (d - j); set x d v) j (n + 1) x) as (x' & -> & Hl & Hok & Hk).
  - do 2 (split; [done|]). intros k. by rewrite decide_False by lia.
  - intros d x' Hd (Hl & Hok & Hk). rewrite get_limb by lia. cbn [mbind option_bind].
    destruct (set_limb_ok x' d (limb y (d - j))) as (x2 & E & Hl2 & Hok2 & Hi & Ho); [lia | done | apply Hy |].
    exists x2. split; [done|]. split; [lia|]. split; [done|]. intros k.
    destruct (decide (k = d)) as [->|]; [by rewrite Hi, decide_True by lia|].
    rewrite Ho, Hk by done. by repeat case_decide; try lia.
  - exists x'. split; [done|]. do 2 (split; [done|]). split.
    + intros i Hi. rewrite Hk, decide_True by lia. f_equal. lia.
    + intros k Hi. by rewrite Hk, decide_False by lia.
Qed.

Lemma write_window_down x y j n :
  limbs_ok x -> limbs_ok y -> (j + n < len x)%nat -> (n < len y)%nat ->
  exists x', write_window (rev (seq j (n + 1))) j y x = Some x' /\ written x y x' j n.
Proof.
  intros Hx Hy Hj Hn. unfold write_window.
  destruct (for_down (fun d x' => len x' = len x /\ limbs_ok x' /\
      (forall k, limb x' k = if decide (d <= k < j + (n + 1))%nat then limb y (k - j) else limb x k))
    (fun d x => v ← get y (d - j); set x d v) j (n + 1) x) as (x' & -> & Hl & Hok & Hk).
  - do 2 (split; [done|]). intros k. by rewrite decide_False by lia.
  - intros d x' Hd (Hl & Hok & Hk). rewrite get_limb by lia. cbn [mbind option_bind].
    destruct (set_limb_ok x' d (limb y (d - j))) as (x2 & E & Hl2 & Hok2 & Hi & Ho); [lia | done | apply Hy |].
    exists x2. split; [done|]. split; [lia|]. split; [done|]. intros k.
    destruct (decide (k = d)) as [->|]; [by rewrite Hi, decide_True by lia|].
    rewrite Ho, Hk by done. by repeat case_decide; try lia.
  - exists x'. split; [done|]. do 2 (split; [done|]). split.
    + intros i Hi. rewrite Hk, decide_True by lia. f_equal. lia.
    + intros k Hi. by rewrite Hk, decide_False by lia.
Qed.

(** The value of the window, and of a number whose window changed *)
Definition win (x : BigUint) (j n : nat) : Z := lv (fun i => limb x (j + i)%nat) (n + 1).

Lemma written_win x y x' j n : written x y x' j n -> win x' j n = lv (limb y) (n + 1).
Proof. intros (_ & _ & H & _). apply lv_ext. exact H. Qed.

Lemma written_val x y x' j n :
  written x y x' j n -> (j + n < len x)%nat ->
  val x' = val x + B ^ Z.of_nat j * (win x' j n - win x j n).
Proof.
  intros (Hl & _ & _ & Ho) Hj. rewrite !val_lv, Hl.
  replace (len x) with (j + ((n + 1) + (len x - (j + n + 1))))%nat by lia.
  unfold win. rewrite !lv_app.
  rewrite (lv_ext (limb x') (limb x)) by (intros; apply Ho; lia).
  rewrite (lv_ext (fun i => limb x' (j + (n + 1 + i))%nat) (fun i => limb x (j + (n + 1 + i))%nat))
    by (intros; apply Ho; lia).
  ring.
Qed.

Lemma lv_mod x n : limbs_ok x -> lv (limb x) n = val x mod B ^ Z.of_nat n.
Proof.
  intros Hx. pose proof (B_pow_pos n).
  assert (Hb : 0 <= lv (limb x) n < B ^ Z.of_nat n) by (apply lv_bound; intros; apply Hx).
  destruct (decide (len x <= n)%nat).
  - rewrite lv_beyond in * by done. by rewrite Z.mod_small.
  - rewrite (val_lv x). replace (len x) with (n + (len x - n))%nat by lia.
    rewrite lv_app, (Z.mul_comm (B ^ _)), Z_mod_plus_full, Z.mod_small; done.
Qed.

(** * The estimate of a quotient limb *)

Section estimate.
Context (v1 v2 u1 u2 u3 q : Z).
Context (Hv1 : B <= 2 * v1) (Hv1' : v1 < B) (Hv2 : 0 <= v2 < B).
Context (Hu1 : 0 <= u1 <= v1) (Hu2 : 0 <= u2 < B) (Hu3 : 0 <= u3 < B).
Context (Hq : 0 <= q < B) (Hlow : q * v1 <= u1 * B + u2).
(** An estimate the second predicate rejects is above the quotient. *)
Context (Hreject : forall qh rh,
  qh * v1 + rh = u1 * B + u2 -> B * rh + u3 < qh * v2 -> q < qh).

(** The pair of estimate and remainder stays exact and never below the quotient. *)
Definition exact (qh rh : Z) : Prop :=
  qh * v1 + rh = u1 * B + u2 /\ q <= qh <= B + 1 /\ 0 <= rh.

(** The estimate neither predicate rejects. *)
Definition accepted (qh : Z) : Prop :=
  exists rh, qh * v1 + rh = u1 * B + u2 /\ q <= qh < B /\ qh * v2 <= B * rh + u3.

Lemma test_ok qh rh :
  exact qh rh -> rh < B ->
  (test v1 v2 u3 qh rh = (false, qh, rh) /\ accepted qh) \/
  (test v1 v2 u3 qh rh = (true, qh - 1, rh + v1) /\ exact (qh - 1) (rh + v1)).
Proof.
  intros (He & Hqh & Hr) Hrh. unfold test.
  assert (0 <= qh * v2 < B * B) by (unfold B in *; nia).
  assert (0 <= B * rh + u3 < B * B) by (unfold B in *; lia).
  rewrite !wmul64, wadd64 by (unfold B in *; lia).
  destruct (Z.leb_spec B qh); cbn [orb]; [| destruct (Z.ltb_spec (B * rh + u3) (qh * v2))].
  - right. rewrite wsub_small, wadd64 by (unfold in_range, B in *; lia). split; [done|].
    unfold exact. lia.
  - right. pose proof (Hreject qh rh He ltac:(done)).
    rewrite wsub_small, wadd64 by (unfold in_range, B in *; lia). split; [done|].
    unfold exact. lia.
  - left. split; [done|]. exists rh. lia.
Qed.

(** A remainder of at least [B] passes both predicates. *)
Lemma large_accepted qh rh : exact qh rh -> B <= rh -> accepted qh.
Proof.
  intros (He & Hqh & Hr) Hrh. assert (qh < B) by (unfold B in *; nia).
  exists rh. split; [done|]. split; [lia|]. unfold B in *; nia.
Qed.

Lemma test_loop_ok qh rh :
  exact qh rh -> B <= 2 * rh \/ test v1 v2 u3 qh rh = (false, qh, rh) ->
  exists qhat, test_loop test_fuel v1 v2 u3 qh rh = Some qhat /\ accepted qhat.
Proof.
  intros He Hor. unfold test_fuel. cbn [test_loop].
  destruct (Z.ltb_spec rh B) as [Hlt|]; [| eauto using large_accepted].
  destruct (test_ok qh rh He Hlt) as [[E Ha]|[E Ha]]; rewrite E; [eauto|].
  destruct Hor as [Hor|Hor]; [| congruence].
  destruct (Z.ltb_spec (rh + v1) B); [lia|]. eauto using large_accepted.
Qed.

Lemma estimate_accepted :
  let '(qh, rh) := div_single (wadd 64 (wmul 64 u1 B) u2) v1 in
  let '(_, qh, rh) := test v1 v2 u3 qh rh in
  exists qhat, test_loop test_fuel v1 v2 u3 qh rh = Some qhat /\ accepted qhat.
Proof.
  unfold div_single. rewrite wmul64, wadd64 by (unfold B in *; lia).
  set (T := u1 * B + u2). assert (0 < v1) by (unfold B in *; lia).
  pose proof (Z.div_mod T v1 ltac:(lia)). pose proof (Z.mod_pos_bound T v1 ltac:(lia)).
  assert (q <= T / v1) by (apply Z.div_le_lower_bound; lia).
  assert (T / v1 < B + 2) by (apply Z.div_lt_upper_bound; [lia | unfold T, B in *; nia]).
  rewrite wrap32 by lia. assert (He : exact (T / v1) (T mod v1)) by (unfold exact; fold T; lia).
  destruct (test_ok _ _ He ltac:(lia)) as [[E _]|[E He']]; rewrite E; apply test_loop_ok;
    [done | by right | done | left; lia].
Qed.

End estimate.

Lemma lv_top3 f n :
  lv f (S (S n) + 1)
  = ((f (S (S n)) * B + f (S n)) * B + f n) * B ^ Z.of_nat n + lv f n.
Proof. rewrite Nat.add_1_r. cbn [lv]. rewrite !B_pow_S. ring. Qed.

Lemma lv_top2 f n : lv f (S (S n)) = (f (S n) * B + f n) * B ^ Z.of_nat n + lv f n.
Proof. cbn [lv]. rewrite !B_pow_S. ring. Qed.

(** The arithmetic of the estimate: [V] and [U] are the divisor and the window, by their top
    limbs and the rest below weight [p]. *)
Section estimate_arith.
Context (v1 v2 Vl u1 u2 u3 Ul p : Z).
Context (Hp : 0 < p) (Hv1 : 0 <= v1 < B) (Hv2 : 0 <= v2 < B) (HVl : 0 <= Vl < p).
Context (Hu1 : 0 <= u1 < B) (Hu2 : 0 <= u2 < B) (Hu3 : 0 <= u3 < B) (HUl : 0 <= Ul < p).
Let V := (v1 * B + v2) * p + Vl.
Let U := ((u1 * B + u2) * B + u3) * p + Ul.
Context (Hnorm : B * (B * p) <= 2 * V) (HU : U < V * B).

Lemma B_pos : 0 < B.
Proof. done. Qed.

Lemma mul_lt_cancel a b c : 0 < c -> a * c < b * c -> a < b.
Proof. intros. by apply (Z.mul_lt_mono_pos_r c). Qed.

Lemma top_half : B <= 2 * v1.
Proof.
  pose proof B_pos. assert (B < 2 * (v1 + 1)); [| unfold B in *; lia].
  apply (mul_lt_cancel _ _ (B * p)); unfold V in *; nia.
Qed.

Lemma top_le : u1 <= v1.
Proof.
  pose proof B_pos. assert (u1 < v1 + 1); [| lia].
  apply (mul_lt_cancel _ _ (B * B * p)); unfold U, V in *; nia.
Qed.

Lemma V_pos : 0 < V.
Proof. pose proof B_pos. nia. Qed.

Lemma quotient_bounds : 0 <= U / V < B /\ (U / V) * V <= U.
Proof.
  pose proof V_pos. pose proof (Z.mul_div_le U V ltac:(lia)).
  split; [| lia]. split; [apply Z.div_pos; unfold U, B in *; nia|].
  apply Z.div_lt_upper_bound; lia.
Qed.

Lemma quotient_low : (U / V) * v1 <= u1 * B + u2.
Proof.
  pose proof B_pos. destruct quotient_bounds as [Hq HqV].
  assert ((U / V) * v1 < u1 * B + u2 + 1); [| lia].
  apply (mul_lt_cancel _ _ (B * p)); [nia|].
  apply Z.le_lt_trans with (U / V * V).
  { rewrite <- Z.mul_assoc. apply Z.mul_le_mono_nonneg_l; [lia | unfold V; nia]. }
  apply Z.le_lt_trans with U; [done|]. unfold U. nia.
Qed.

Lemma quotient_reject qh rh :
  qh * v1 + rh = u1 * B + u2 -> B * rh + u3 < qh * v2 -> U / V < qh.
Proof.
  intros He Hlt. destruct quotient_bounds as [Hq HqV]. pose proof B_pos.
  destruct (Z.lt_ge_cases (U / V) qh) as [|Hge]; [done|exfalso].
  assert (qh * (v1 * B + v2) <= U / V * (v1 * B + v2)) by (apply Z.mul_le_mono_nonneg_r; nia).
  assert ((u1 * B + u2) * B + u3 + 1 <= U / V * (v1 * B + v2)) by nia.
  assert (((u1 * B + u2) * B + u3 + 1) * p <= U / V * (v1 * B + v2) * p)
    by (apply Z.mul_le_mono_nonneg_r; lia).
  assert (U / V * (v1 * B + v2) * p <= U / V * V).
  { rewrite <- Z.mul_assoc. apply Z.mul_le_mono_nonneg_l; [lia | unfold V; lia]. }
  unfold U at 2 in HqV. lia.
Qed.

Lemma accepted_close qh :
  accepted v1 v2 u1 u2 u3 (U / V) qh -> qh <= U / V + 1.
Proof.
  intros (rh & He & Hqh & Hle). pose proof V_pos. pose proof B_pos.
  assert (qh * (v1 * B + v2) <= (u1 * B + u2) * B + u3) by nia.
  assert (qh * (v1 * B + v2) * p <= ((u1 * B + u2) * B + u3) * p)
    by (apply Z.mul_le_mono_nonneg_r; lia).
  assert (qh * Vl < V).
  { destruct quotient_bounds. apply Z.le_lt_trans with ((B - 1) * Vl); [nia|].
    pose proof top_half. unfold V. unfold B in *. nia. }
  assert ((qh - 1) * V <= U) by (unfold V at 1; unfold U; unfold V in *; lia).
  assert (qh - 1 <= U / V) by (apply Z.div_le_lower_bound; lia). lia.
Qed.

Lemma estimate_close :
  exists qhat,
    (let '(qh, rh) := div_single (wadd 64 (wmul 64 u1 B) u2) v1 in
     let '(_, qh, rh) := test v1 v2 u3 qh rh in
     test_loop test_fuel v1 v2 u3 qh rh) = Some qhat /\
    0 <= qhat < B /\ U / V <= qhat <= U / V + 1.
Proof.
  pose proof top_half as Ht. pose proof top_le. destruct quotient_bounds as [Hq _].
  pose proof (estimate_accepted v1 v2 u1 u2 u3 (U / V) Ht (proj2 Hv1) Hv2 ltac:(lia) Hu2 Hu3
    Hq quotient_low quotient_reject) as He.
  destruct (div_single _ _) as [qh rh]. destruct (test _ _ _ _ _) as [[b qh'] rh'].
  destruct He as (qhat & E & Ha). exists qhat. split; [exact E|].
  pose proof (accepted_close qhat Ha). destruct Ha as (r & _ & Hqh & _). lia.
Qed.

End estimate_arith.

(** Knuth's theorem B: the estimate is the quotient limb or one more. *)
Lemma estimate_ok sn on n j :
  limbs_ok sn -> limbs_ok on -> (2 <= n)%nat -> len on = n -> (j + n < len sn)%nat ->
  B ^ Z.of_nat n <= 2 * val on -> win sn j n < val on * B ->
  exists qhat, estimate sn on n j = Some qhat /\ 0 <= qhat < B /\
    win sn j n / val on <= qhat <= win sn j n / val on + 1.
Proof.
  intros Hsn Hon Hn Hlen Hj Hnorm Hwin. unfold estimate. rewrite !get_limb by lia.
  cbn [mbind option_bind]. rewrite (val_lv on), Hlen in *. unfold win in *.
  assert (exists n', n = S (S n')) as [n' ->] by (exists (n - 2)%nat; lia). clear Hn.
  replace (j + S (S n') - 1)%nat with (j + S n')%nat by lia.
  replace (j + S (S n') - 2)%nat with (j + n')%nat by lia.
  replace (S (S n') - 1)%nat with (S n') by lia. replace (S (S n') - 2)%nat with n' by lia.
  rewrite lv_top3, lv_top2 in *.
  assert (Hul : 0 <= lv (fun i => limb sn (j + i)%nat) n' < B ^ Z.of_nat n')
    by (apply lv_bound; intros; apply Hsn).
  assert (Hvl : 0 <= lv (limb on) n' < B ^ Z.of_nat n') by (apply lv_bound; intros; apply Hon).
  rewrite !B_pow_S in Hnorm. pose proof (B_pow_pos n') as Hp.
  pose proof (Hsn (j + S (S n'))%nat) as Hu1. pose proof (Hsn (j + S n')%nat) as Hu2.
  pose proof (Hsn (j + n')%nat) as Hu3. pose proof (Hon (S n')) as Hv1. pose proof (Hon n') as Hv2.
  exact (estimate_close _ _ _ _ _ _ _ _ Hp Hv1 Hv2 Hvl Hu1 Hu2 Hu3 Hul Hnorm Hwin).
Qed.

(** * A round of the division *)

(** The window after steps D4 and D6 holds the remainder of the window by the divisor. *)
Definition reduced (on sn sn' : BigUint) (j n : nat) : Prop :=
  len sn' = len sn /\ limbs_ok sn' /\ win sn' j n = win sn j n mod val on /\
  val sn' = val sn + B ^ Z.of_nat j * (win sn' j n - win sn j n).

Section round.
Context (on : BigUint) (n m : nat).
Context (Hon : limbs_ok on) (Hn : (2 <= n)%nat) (Hlen : len on = n).
Context (Hnorm : B ^ Z.of_nat n <= 2 * val on).

Lemma on_bound : 0 < val on < B ^ Z.of_nat n.
Proof. pose proof (val_bound on Hon). rewrite Hlen in *. pose proof (B_pow_pos n). lia. Qed.

Lemma win_bound x j : limbs_ok x -> 0 <= win x j n < B ^ Z.of_nat (n + 1).
Proof. intros Hx. apply lv_bound. intros. apply Hx. Qed.

(** A window that was written twice. *)
Lemma written_twice x y z x1 x2 j :
  written x y x1 j n -> written x1 z x2 j n -> written x z x2 j n.
Proof.
  intros (Hl1 & _ & _ & Ho1) (Hl2 & Hok2 & Hi2 & Ho2).
  split; [lia|]. do 2 (split; [done|]). intros k Hk. by rewrite Ho2, Ho1.
Qed.

Lemma written_reduced sn t sn' j :
  limbs_ok t -> written sn t sn' j n -> (j + n < len sn)%nat ->
  val t mod B ^ Z.of_nat (n + 1) = win sn j n mod val on -> reduced on sn sn' j n.
Proof.
  intros Ht Hw Hj Hv. pose proof Hw as (Hl & Hok & _ & _). split; [done|]. split; [done|].
  rewrite (written_win _ _ _ _ _ Hw), lv_mod by done. split; [done|].
  rewrite <- lv_mod, <- (written_win _ _ _ _ _ Hw) by done. by apply (written_val _ t).
Qed.

(** Adding [p] to a small negative number. *)
Lemma mod_shift a p : - p <= a < 0 -> a mod p = a + p.
Proof. intros. rewrite <- (Z_mod_plus_full a 1), Z.mod_small; lia. Qed.

Lemma pow_n_lt : B ^ Z.of_nat n < B ^ Z.of_nat (n + 1).
Proof. rewrite Nat.add_1_r, B_pow_S. pose proof (B_pow_pos n). unfold B at 2. lia. Qed.

(** The sign of the difference tells whether the estimate was exact or one too large. *)
Lemma subtract_ok j sn :
  limbs_ok sn -> (j + n < len sn)%nat -> win sn j n < val on * B ->
  exists qhat t neg, subtract sn on n j = Some (qhat, t, neg) /\ 0 <= qhat < B /\
    limbs_ok t /\ (n < len t)%nat /\ qhat = win sn j n / val on + (if neg : bool then 1 else 0) /\
    val t mod B ^ Z.of_nat (n + 1)
      = win sn j n mod val on + (if neg : bool then B ^ Z.of_nat (n + 1) - val on else 0).
Proof.
  intros Hsn Hj Hwin. unfold subtract. pose proof on_bound as HV.
  destruct (estimate_ok sn on n j) as (qhat & -> & Hqh & Hclose); try done. cbn [mbind option_bind].
  destruct (window_ok sn j n Hsn Hj) as (lhs & -> & Hll & Hlok & Hlw). cbn [mbind option_bind].
  assert (Hlv : val lhs = win sn j n) by (rewrite val_lv, Hll; by apply lv_ext).
  destruct (from_u64_ok qhat) as (Hfo & Hfl & Hfv); [unfold in_range, B in *; lia|].
  destruct (mul_ok on (from_u64 qhat)) as (rhs & -> & Hrok & Hrl & Hrv);
    [done | by apply big_limbs_ok|]. cbn [mbind option_bind]. rewrite Hfl, Hfv, Hlen in *.
  destruct (sub_ok lhs rhs) as (t & k & -> & Hk & Htok & Htl & Htv); [done | done | lia |].
  rewrite Hrl, Hll in Htl, Htv. replace (max (n + 1) _) with (S (n + 1)) in Htl, Htv by lia.
  rewrite Hlv, Hrv, B_pow_S in Htv. pose proof (val_bound t Htok) as Htb.
  rewrite Htl, B_pow_S in Htb. pose proof pow_n_lt.
  pose proof (Z.div_mod (win sn j n) (val on) ltac:(lia)) as Hdm.
  pose proof (Z.mod_pos_bound (win sn j n) (val on) ltac:(lia)).
  set (qt := win sn j n / val on) in *.
  exists qhat, t, (negb (k =? 0)). split; [by destruct (k =? 0)|].
  do 2 (split; [done|]). split; [lia|].
  assert (qhat = qt \/ qhat = qt + 1) as [-> | ->] by lia; destruct (Z.eqb_spec k 0); cbn [negb].
  - split; [lia|]. rewrite Z.mod_small; lia.
  - nia.
  - nia.
  - split; [done|]. replace k with 1 in * by lia.
    replace (val t) with (win sn j n mod val on - val on + B * B ^ Z.of_nat (n + 1)) by lia.
    rewrite Z_mod_plus_full, mod_shift; lia.
Qed.

(** Adding the divisor back to a window that wrapped around. *)
Lemma add_back_ok j sn q sn0 :
  limbs_ok sn -> (j + n < len sn)%nat -> limbs_ok q -> (j < len q)%nat -> 1 <= limb q j ->
  win sn j n = sn0 + B ^ Z.of_nat (n + 1) - val on -> 0 <= sn0 < val on ->
  exists r sn' q', add_back on n j (sn, q) = Some (sn', q') /\
    limbs_ok r /\ val r mod B ^ Z.of_nat (n + 1) = sn0 /\ written sn r sn' j n /\
    len q' = len q /\ limbs_ok q' /\ limb q' j = limb q j - 1 /\
    (forall l, l <> j -> limb q' l = limb q l).
Proof.
  intros Hsn Hj Hq Hjq Hq1 Hw H0. unfold add_back. pose proof (Hq j).
  rewrite get_limb by done. cbn [mbind option_bind].
  rewrite wsub_small by (unfold in_range, B in *; lia).
  destruct (set_limb_ok q j (limb q j - 1)) as (q' & -> & Hl & Hok & Hi & Ho); [done | done | lia |].
  destruct (window_ok sn j n Hsn Hj) as (u & Eu & Hul & Huok & Huw).
  cbn [mbind option_bind]. rewrite Eu. cbn [mbind option_bind].
  assert (Huv : val u = win sn j n) by (rewrite val_lv, Hul; by apply lv_ext).
  destruct (add_ok on u Hon Huok) as (r & -> & Hrok & Hrl & Hrv). cbn [mbind option_bind].
  destruct (write_window_down sn r j n) as (sn' & -> & Hw'); [done | done | done | lia |].
  exists r, sn', q'. split; [done|]. split; [done|]. split; [| done].
  pose proof on_bound. pose proof pow_n_lt.
  replace (val r) with (sn0 + 1 * B ^ Z.of_nat (n + 1)) by lia.
  rewrite Z_mod_plus_full, Z.mod_small; lia.
Qed.

Lemma set_quotient q q' j v :
  (j < len q)%nat -> len q' = len q -> limb q j = 0 -> limb q' j = v ->
  (forall l, l <> j -> limb q' l = limb q l) -> val q' = val q + v * B ^ Z.of_nat j.
Proof.
  intros Hj Hl H0 Hv Ho. rewrite !val_lv, Hl, (lv_update (limb q) (limb q') _ j v), H0 by done. lia.
Qed.

Lemma div_step_ok j sn q :
  limbs_ok sn -> (j + n < len sn)%nat -> win sn j n < val on * B ->
  limbs_ok q -> (j < len q)%nat -> limb q j = 0 ->
  exists sn' q', div_step on n j (sn, q) = Some (sn', q') /\ reduced on sn sn' j n /\
    len q' = len q /\ limbs_ok q' /\ (forall l, l <> j -> limb q' l = limb q l) /\
    val q' = val q + win sn j n / val on * B ^ Z.of_nat j.
Proof.
  intros Hsn Hj Hwin Hq Hjq Hq0. unfold div_step. pose proof on_bound as HV.
  destruct (subtract_ok j sn) as (qhat & t & neg & -> & Hqh & Htok & Htl & Hqv & Htv); try done.
  cbn [mbind option_bind].
  destruct (write_window_up sn t j n) as (sn1 & -> & Hw1); [done..|]. cbn [mbind option_bind].
  rewrite wrap32 by done.
  destruct (set_limb_ok q j qhat) as (q1 & -> & Hql1 & Hqok1 & Hqi1 & Hqo1); [done..|].
  cbn [mbind option_bind]. pose proof (Z.mod_pos_bound (win sn j n) (val on) ltac:(lia)).
  destruct neg.
  - pose proof Hw1 as (Hl1 & Hok1 & _).
    assert (0 <= win sn j n / val on) by (apply Z.div_pos; [apply win_bound, Hsn | lia]).
    destruct (add_back_ok j sn1 q1 (win sn j n mod val on))
      as (r & sn' & q' & -> & Hrok & Hrv & Hw2 & Hl2 & Hqok2 & Hqi2 & Hqo2); try done; try lia.
    { rewrite (written_win _ _ _ _ _ Hw1), lv_mod by done. lia. }
    exists sn', q'. split; [done|].
    split; [apply (written_reduced sn r); try done; by eapply written_twice|].
    assert (Hqo : forall l, l <> j -> limb q' l = limb q l) by (intros; by rewrite Hqo2, Hqo1).
    split; [lia|]. do 2 (split; [done|]). apply set_quotient; try done; lia.
  - exists sn1, q1. split; [done|].
    split; [apply (written_reduced sn t); try done; lia|].
    do 3 (split; [done|]). apply set_quotient; try done; lia.
Qed.

(** What the rounds for the limbs above [j] leave. *)
Definition divided (N : Z) (j : nat) (st : BigUint * BigUint) : Prop :=
  let '(sn, q) := st in
  limbs_ok sn /\ len sn = (n + m + 1)%nat /\ limbs_ok q /\ len q = (m + 1)%nat /\
  (forall l, (l < j)%nat -> limb q l = 0) /\
  val q * val on + val sn = N /\ val sn < val on * B ^ Z.of_nat j.

Lemma div_round N j st :
  (j < m + 1)%nat -> divided N (1 + j) st ->
  exists st', div_step on n j st = Some st' /\ divided N j st'.
Proof.
  destruct st as [sn q]. intros Hj (Hsn & Hl & Hq & Hlq & Hz & HN & Hlt). pose proof on_bound as HV.
  assert (Hsplit : val sn = lv (limb sn) j + B ^ Z.of_nat j * (win sn j n
    + B ^ Z.of_nat (n + 1) * lv (fun i => limb sn (j + (n + 1 + i))%nat) (m - j))).
  { rewrite val_lv, Hl. replace (n + m + 1)%nat with (j + (n + 1 + (m - j)))%nat by lia.
    by rewrite lv_app, (lv_app _ (n + 1)). }
  assert (Hlow : 0 <= lv (limb sn) j < B ^ Z.of_nat j) by (apply lv_bound; intros; apply Hsn).
  assert (Htop : 0 <= lv (fun i => limb sn (j + (n + 1 + i))%nat) (m - j) < B ^ Z.of_nat (m - j))
    by (apply lv_bound; intros; apply Hsn).
  set (top := lv (fun i => limb sn (j + (n + 1 + i))%nat) (m - j)) in *.
  pose proof (win_bound sn j Hsn) as HW. pose proof (B_pow_pos j) as Hpj.
  cbn [Nat.add] in Hlt. rewrite B_pow_S in Hlt.
  assert (win sn j n + B ^ Z.of_nat (n + 1) * top < val on * B).
  { apply (mul_lt_cancel _ _ (B ^ Z.of_nat j)); lia. }
  rewrite Nat.add_1_r, B_pow_S in *. assert (top = 0) as Etop by (pose proof B_pos; nia).
  destruct (div_step_ok j sn q) as (sn' & q' & -> & (Hl' & Hok' & Hw' & Hv') & Hlq' & Hqok' & Hqo & Hqv);
    [done | lia | nia | done | lia | apply Hz; lia |].
  eexists. split; [done|]. split; [done|]. split; [lia|]. split; [done|]. split; [lia|].
  split; [intros; rewrite Hqo by lia; apply Hz; lia|].
  pose proof (Z.div_mod (win sn j n) (val on) ltac:(lia)).
  pose proof (Z.mod_pos_bound (win sn j n) (val on) ltac:(lia)).
  rewrite Hqv, Hv', Hw', Hsplit, Etop in *. split; nia.
Qed.

Lemma rounds_ok sn :
  limbs_ok sn -> len sn = (n + m + 1)%nat -> val sn < val on * B ^ Z.of_nat (m + 1) ->
  exists sn' q, for_loop (rev (seq 0 (m + 1))) (div_step on n) (sn, with_capacity (m + 1))
      = Some (sn', q) /\
    limbs_ok sn' /\ len sn' = (n + m + 1)%nat /\ limbs_ok q /\ len q = (m + 1)%nat /\
    val q * val on + val sn' = val sn /\ val sn' < val on.
Proof.
  intros Hsn Hl Hlt.
  destruct (for_down (divided (val sn)) (div_step on n) 0 (m + 1) (sn, with_capacity (m + 1)))
    as ([sn' q] & E & Hok & Hl' & Hqok & Hql & _ & HN & Hfin).
  - split; [done|]. split; [done|]. split; [apply with_capacity_ok|].
    split; [rewrite len_with_capacity; lia|]. split; [intros; apply limb_with_capacity|].
    rewrite (val_lv (with_capacity _)), lv_zero by (intros; apply limb_with_capacity).
    rewrite Nat.add_0_l. lia.
  - intros j st Hj Hst. apply div_round; [lia | done].
  - exists sn', q. split; [done|]. do 5 (split; [done|]). cbn in Hfin. lia.
Qed.

End round.

(** * Undoing the normalisation *)

Lemma lor_disjoint a c k : 0 <= k -> 0 <= a < 2 ^ k -> Z.lor a (c * 2 ^ k) = a + c * 2 ^ k.
Proof.
  intros Hk Ha. rewrite <- (Z.mod_small a (2 ^ k)) by done. rewrite <- (Z.shiftl_mul_pow2 c) by done.
  assert (Hl : Z.land (a mod 2 ^ k) (Z.shiftl c k) = 0).
  { apply Z.bits_inj'. intros i Hi. rewrite Z.land_spec, Z.bits_0.
    destruct (Z.lt_ge_cases i k).
    - by rewrite Z.shiftl_spec_low, andb_false_r by done.
    - by rewrite Z.mod_pow2_bits_high by lia. }
  by rewrite <- Z.lxor_lor, <- Z.add_nocarry_lxor by done.
Qed.

Section denormalize.
Context (sn : BigUint) (n : nat) (nb : Z).
Context (Hsn : limbs_ok sn) (Hn : (1 <= n)%nat) (Hlen : (n <= len sn)%nat) (Hnb : 0 < nb < 32).

(** The limb [d] shifted right, the low bits of the limb above moved in. *)
Lemma shifted_limb lo hi :
  0 <= lo < B -> 0 <= hi < B ->
  exists v, Z.lor (Z.shiftr lo nb) (wrap 32 (Z.shiftl hi (SHIFT - nb))) = v /\ 0 <= v < B /\
    2 ^ nb * v + lo mod 2 ^ nb = lo + hi mod 2 ^ nb * B.
Proof.
  intros Hlo Hhi. unfold SHIFT, wrap. rewrite Z.shiftr_div_pow2, Z.shiftl_mul_pow2 by lia.
  assert (E : 2 ^ 32 = 2 ^ nb * 2 ^ (32 - nb)) by (rewrite <- Z.pow_add_r by lia; f_equal; lia).
  pose proof (Z.pow_pos_nonneg 2 nb ltac:(lia) ltac:(lia)).
  pose proof (Z.pow_pos_nonneg 2 (32 - nb) ltac:(lia) ltac:(lia)).
  rewrite E, Z.mul_mod_distr_r by lia.
  assert (0 <= lo / 2 ^ nb < 2 ^ (32 - nb)).
  { split; [apply Z.div_pos; lia|]. apply Z.div_lt_upper_bound; [lia|]. change B with (2 ^ 32) in *. lia. }
  rewrite lor_disjoint by lia. eexists. split; [done|].
  pose proof (Z.mod_pos_bound hi (2 ^ nb) ltac:(lia)). pose proof (Z.div_mod lo (2 ^ nb) ltac:(lia)).
  change B with (2 ^ 32) in *. split; nia.
Qed.

Lemma denormalize_ok r :
  limbs_ok r -> len r = n ->
  exists r', denormalize sn n nb r = Some r' /\ limbs_ok r' /\ len r' = n /\
    val r' = lv (limb sn) n / 2 ^ nb.
Proof.
  intros Hr Hlr. unfold denormalize. rewrite (proj2 (Z.ltb_lt _ _)) by lia.
  destruct (for_up (fun d r => limbs_ok r /\ len r = n /\
      2 ^ nb * lv (limb r) d + limb sn 0 mod 2 ^ nb
        = lv (limb sn) d + limb sn d mod 2 ^ nb * B ^ Z.of_nat d)
    (denormalize_round sn nb) 0 (n - 1) r) as (r1 & -> & Hok & Hl & Hv).
  - split; [done|]. split; [done|]. cbn. lia.
  - intros d r0 Hd (Hok & Hl & Hv). unfold denormalize_round. rewrite !get_limb by lia.
    cbn [mbind option_bind]. destruct (shifted_limb (limb sn d) (limb sn (d + 1))) as (v & -> & Hb & E); [apply Hsn..|].
    destruct (set_limb_ok r0 d v) as (r' & -> & Hl' & Hok' & Hi & Ho); [lia | done | done |].
    exists r'. split; [done|]. split; [done|]. split; [lia|].
    rewrite (Nat.add_1_r d) in E. cbn [Nat.add lv].
    rewrite (lv_ext (limb r') (limb r0)), Hi, B_pow_S by (intros; apply Ho; lia). nia.
  - cbn [mbind option_bind]. rewrite Nat.add_0_l in Hv. rewrite get_limb by lia. cbn [mbind option_bind].
    pose proof (Hsn (n - 1)%nat). rewrite Z.shiftr_div_pow2 by lia.
    pose proof (Z.pow_pos_nonneg 2 nb ltac:(lia) ltac:(lia)).
    pose proof (Z.div_mod (limb sn (n - 1)) (2 ^ nb) ltac:(lia)) as Hdm.
    assert (0 <= limb sn (n - 1) / 2 ^ nb < B).
    { split; [apply Z.div_pos; lia|]. apply Z.div_lt_upper_bound; nia. }
    destruct (set_limb_ok r1 (n - 1) (limb sn (n - 1) / 2 ^ nb)) as (r' & -> & Hl' & Hok' & Hi & Ho);
      [lia | done | done |].
    exists r'. split; [done|]. split; [done|]. split; [lia|].
    apply (Z.div_unique _ _ _ (limb sn 0 mod 2 ^ nb)); [left; apply Z.mod_pos_bound; lia|].
    rewrite val_lv, Hl', Hl. replace n with (S (n - 1)) by lia. cbn [lv].
    replace (S (n - 1)) with n by lia.
    rewrite (lv_ext (limb r') (limb r1)), Hi by (intros; apply Ho; lia). nia.
Qed.

End denormalize.

(** * The division *)

Lemma msb_limb x : (0 < len x)%nat -> msb x = Some (limb x (len x - 1)).
Proof.
  intros Hx. unfold msb. rewrite limb_reverse, reverse_lookup by (unfold len in *; lia).
  replace (length (digits x) - S (len x - 1))%nat with 0%nat by (unfold len in *; lia).
  by destruct x as [[|d l]]; [cbn in Hx; lia|].
Qed.

Lemma normalizer_bits om :
  0 < om < B ->
  0 <= leading_zeros om < 32 /\ B <= 2 * (om * 2 ^ leading_zeros om) /\
  (om + 1) * 2 ^ leading_zeros om <= B.
Proof.
  intros Hom. unfold leading_zeros. pose proof (Z.log2_spec om ltac:(lia)) as [Hlo Hhi].
  pose proof (Z.log2_nonneg om).
  assert (Z.log2 om < 32) by (apply Z.log2_lt_pow2; unfold B in *; lia).
  split; [lia|]. set (l := Z.log2 om) in *.
  pose proof (Z.pow_pos_nonneg 2 (31 - l) ltac:(lia) ltac:(lia)).
  assert (E1 : 2 ^ l * 2 ^ (31 - l) = 2 ^ 31) by (rewrite <- Z.pow_add_r by lia; f_equal; lia).
  assert (E2 : 2 ^ Z.succ l * 2 ^ (31 - l) = 2 ^ 32) by (rewrite <- Z.pow_add_r by lia; f_equal; lia).
  change B with (2 ^ 32). split; [change (2 ^ 32) with (2 * 2 ^ 31)|]; nia.
Qed.

Lemma val_top x :
  limbs_ok x -> (0 < len x)%nat ->
  limb x (len x - 1) * B ^ Z.of_nat (len x - 1) <= val x
    < (limb x (len x - 1) + 1) * B ^ Z.of_nat (len x - 1).
Proof.
  intros Hx Hn. rewrite val_lv. destruct (len x) as [|n]; [lia|]. rewrite Nat.sub_1_r. cbn [lv pred].
  assert (0 <= lv (limb x) n < B ^ Z.of_nat n) by (apply lv_bound; intros; apply Hx). lia.
Qed.

Lemma from_single_ok a :
  in_range 32 a -> limbs_ok (from_single a) /\ len (from_single a) = 1%nat /\ val (from_single a) = a.
Proof.
  intros Ha. split; [apply big_limbs_ok; by constructor|]. split; [done|]. unfold val. cbn. lia.
Qed.

(** Step D1: the divisor keeps its length, and its top bit is set. *)
Lemma normalize_divisor other nb :
  limbs_ok other -> (2 <= len other)%nat -> limb other (len other - 1) <> 0 ->
  nb = leading_zeros (limb other (len other - 1)) ->
  exists on, mul other (from_single (2 ^ nb)) = Some on /\ limbs_ok (lstrip on) /\
    len (lstrip on) = len other /\ val (lstrip on) = val other * 2 ^ nb /\
    B ^ Z.of_nat (len other) <= 2 * val (lstrip on).
Proof.
  intros Ho Hn H0 ->. set (n := len other) in *. set (om := limb other (n - 1)) in *.
  pose proof (Ho (n - 1)%nat) as Hom. fold om in Hom.
  destruct (normalizer_bits om ltac:(lia)) as (Hnb & Hb1 & Hb2).
  pose proof (Z.pow_pos_nonneg 2 (leading_zeros om) ltac:(lia) ltac:(lia)).
  destruct (from_single_ok (2 ^ leading_zeros om)) as (Hfo & Hfl & Hfv).
  { unfold in_range. change B with (2 ^ 32) in *. nia. }
  destruct (mul_ok other _ Ho Hfo) as (on & -> & Hok & Hl & Hv). rewrite Hfl, Hfv in *. fold n in Hl.
  destruct (lstrip_ok on (limbs_big_ok on Hok) ltac:(lia)) as (Hsok & Hsv & Hsl & Hlead).
  pose proof (val_top other Ho ltac:(lia)) as [Ht1 Ht2]. fold n om in Ht1, Ht2.
  pose proof (B_pow_pos (n - 1)).
  assert (En : B ^ Z.of_nat n = B * B ^ Z.of_nat (n - 1)) by (rewrite <- B_pow_S; do 2 f_equal; lia).
  assert (Hlo : B ^ Z.of_nat n <= 2 * val on) by (rewrite En, Hv; nia).
  assert (Hhi : val on < B ^ Z.of_nat n) by (rewrite En, Hv; nia).
  exists on. split; [done|]. split; [by apply big_limbs_ok|]. rewrite Hsv.
  split; [| split; [done | done]].
  pose proof (val_bound _ (big_limbs_ok _ Hsok)) as Hvb. rewrite Hsv in Hvb.
  destruct (lt_eq_lt_dec (len (lstrip on)) n) as [[Hlt|]|Hgt]; [exfalso | done | exfalso].
  - assert (B ^ Z.of_nat (len (lstrip on)) <= B ^ Z.of_nat (n - 1)) by (apply Z.pow_le_mono_r; [done | lia]).
    rewrite En in Hlo. unfold B at 1 in Hlo. lia.
  - destruct Hlead as [|Hlead]; [lia|].
    replace (len (lstrip on) - 1)%nat with n in Hlead by lia. lia.
Qed.

(** Dividing both numbers by the normaliser. *)
Lemma unnormalize vx vo p vq vs :
  0 < p -> 0 < vo -> vq * (vo * p) + vs = vx * p -> 0 <= vs < vo * p ->
  vq = vx / vo /\ vs = vx mod vo * p.
Proof.
  intros Hp Ho E Hs. assert (vs = (vx - vq * vo) * p) as -> by lia.
  assert (0 <= vx - vq * vo < vo) by nia.
  assert (vq = vx / vo) as <- by (apply (Z.div_unique _ _ _ (vx - vq * vo)); lia).
  split; [done|]. f_equal. apply (Z.mod_unique _ _ vq); lia.
Qed.

(** The remainder step, after the rounds *)
Lemma remainder_ok sn n nb R :
  limbs_ok sn -> (2 <= n <= len sn)%nat -> 0 <= nb < 32 ->
  val sn = R * 2 ^ nb -> val sn < B ^ Z.of_nat n ->
  exists r, denormalize sn n nb (with_capacity n) = Some r /\ limbs_ok r /\ val r = R.
Proof.
  intros Hsn Hn Hnb Hv Hlt. destruct (Z.lt_ge_cases 0 nb).
  - destruct (denormalize_ok sn n nb Hsn ltac:(lia) ltac:(lia) ltac:(lia) (with_capacity n))
      as (r & -> & Hok & _ & Hr); [apply with_capacity_ok | rewrite len_with_capacity; lia |].
    exists r. split; [done|]. split; [done|]. rewrite Hr, lv_mod by done.
    rewrite Z.mod_small by (split; [apply val_bound, Hsn | done]). rewrite Hv. apply Z.div_mul. pose proof (Z.pow_pos_nonneg 2 nb). lia.
  - replace nb with 0 in * by lia. exists sn. split; [done|]. split; [done|]. cbn in Hv. lia.
Qed.

Section top.
Context (x other : BigUint) (Hx : limbs_ok x) (Ho : limbs_ok other).
Context (Hn : (2 <= len other)%nat) (Hnx : (len other < len x)%nat).
Context (Hmx : limb x (len x - 1) <> 0) (Hmo : limb other (len other - 1) <> 0).

Let n := len other.
Let m := (len x - n)%nat.
Let nb := leading_zeros (limb other (n - 1)).

Lemma nb_bounds : 0 <= nb < 32 /\ 0 < 2 ^ nb /\ 2 * 2 ^ nb <= B /\ 0 < val other.
Proof.
  pose proof (Ho (n - 1)%nat) as Hom. fold n in Hmo.
  destruct (normalizer_bits (limb other (n - 1))) as (Hnb & _ & Hb); [lia|]. fold nb in Hnb, Hb.
  pose proof (Z.pow_pos_nonneg 2 nb ltac:(lia) ltac:(lia)).
  pose proof (val_top other Ho ltac:(lia)) as [Ht _]. pose proof (B_pow_pos (len other - 1)).
  fold n in Ht. split; [done|]. split; [done|]. split; [nia|]. fold n in H0. nia.
Qed.

(** The rounds on the normalised numbers *)
Lemma rounds_normalized on :
  limbs_ok on -> len on = n -> val on = val other * 2 ^ nb ->
  B ^ Z.of_nat n <= 2 * val on ->
  exists sn0 sn q, mul x (from_single (2 ^ nb)) = Some sn0 /\
    for_loop (rev (seq 0 (m + 1))) (div_step on n) (lpad sn0 (n + m + 1), with_capacity (m + 1))
      = Some (sn, q) /\
    limbs_ok sn /\ len sn = (n + m + 1)%nat /\ limbs_ok q /\ len q = (m + 1)%nat /\
    val q = val x / val other /\ val sn = val x mod val other * 2 ^ nb /\ val sn < B ^ Z.of_nat n.
Proof.
  intros Hon Hl Hv Hnorm. destruct nb_bounds as (Hnb & Hp & Hpb & Hvo).
  destruct (from_single_ok (2 ^ nb)) as (Hfo & Hfl & Hfv); [unfold in_range, B in *; lia|].
  destruct (mul_ok x _ Hx Hfo) as (sn0 & -> & Hok0 & Hl0 & Hv0). rewrite Hfl, Hfv in *.
  destruct (lpad_ok sn0 (n + m + 1) (limbs_big_ok _ Hok0)) as (Hpo & Hpv & Hpl).
  pose proof (val_bound x Hx) as Hxb. assert (Elx : len x = (n + m)%nat) by (unfold m, n; lia).
  rewrite Elx, B_pow_add in Hxb. pose proof (B_pow_pos n). pose proof (B_pow_pos m).
  destruct (rounds_ok on n m Hon Hn Hl Hnorm (lpad sn0 (n + m + 1)))
    as (sn & q & E & Hsok & Hsl & Hqok & Hql & HN & Hlt).
  { by apply big_limbs_ok. } { rewrite Hpl. lia. }
  { rewrite Hpv, Hv0, Nat.add_1_r, B_pow_S.
    apply Z.lt_le_trans with (B ^ Z.of_nat n * B ^ Z.of_nat m * 2 ^ nb); [nia|].
    apply Z.le_trans with (2 * val on * B ^ Z.of_nat m * 2 ^ nb).
    { do 2 (apply Z.mul_le_mono_nonneg_r; [lia|]). done. }
    replace (2 * val on * _ * _) with (val on * B ^ Z.of_nat m * (2 * 2 ^ nb)) by ring.
    replace (val on * (_ * _)) with (val on * B ^ Z.of_nat m * B) by ring.
    apply Z.mul_le_mono_nonneg_l; [nia | done]. }
  rewrite Hpv, Hv0, Hv in *. pose proof (val_bound sn Hsok) as Hsb.
  destruct (unnormalize (val x) (val other) (2 ^ nb) (val q) (val sn)) as [Hq Hs]; try done; [lia|].
  exists sn0, sn, q. split; [done|]. split; [done|]. do 6 (split; [done|]).
  pose proof (val_bound on Hon). rewrite Hl, Hv in *. lia.
Qed.

Lemma div_ok rem :
  exists q r, div x other rem = Some (Some (q, r)) /\ limbs_ok q /\ limbs_ok r /\
    len q = (len x - len other + 1)%nat /\ val q = val x / val other /\
    val r = if rem : bool then val x mod val other else 0.
Proof.
  unfold div. rewrite (proj2 (Nat.leb_gt _ _)), !msb_limb by lia. cbn [mbind option_bind].
  rewrite !(proj2 (Z.eqb_neq _ _)), (proj2 (Nat.leb_gt _ _)) by (done || lia). cbn [orb].
  destruct nb_bounds as (Hnb & Hp & Hpb & Hvo). fold n. fold nb. fold m.
  rewrite wrap32 by lia.
  destruct (normalize_divisor other _ Ho Hn Hmo eq_refl) as (on & Eon & Honok & Honl & Honv & Hnorm).
  fold n in Eon, Honv. fold nb in Eon, Honv.
  destruct (rounds_normalized (lstrip on)) as (sn0 & sn & q & -> & E & Hsok & Hsl & Hqok & Hql & Hq & Hs & Hlt);
    try done. cbn [mbind option_bind]. rewrite Eon. cbn [mbind option_bind]. rewrite E.
  cbn [mbind option_bind]. destruct rem.
  - destruct (remainder_ok sn n nb (val x mod val other)) as (r & -> & Hrok & Hr); try done; [unfold n; lia|].
    by exists q, r.
  - exists q, (with_capacity n). do 2 (split; [done|]). split; [apply with_capacity_ok|].
    split; [done|]. split; [done|]. rewrite val_lv. apply lv_zero. intros. apply limb_with_capacity.
Qed.

End top.

(** * Theorems *)

(** The documented conditions of the division: a divisor of at least two limbs, shorter than
    the dividend, and no leading zero limbs. *)
Definition divisible (x other : BigUint) : bool :=
  (1 <? len other)%nat && (len other <? len x)%nat &&
  negb (limb other (len other - 1) =? 0) && negb (limb x (len x - 1) =? 0).

(** [C28] The long division never panics.  It returns [None] exactly when a documented
    condition fails; otherwise its quotient has [m + 1] limbs and is the Euclidean quotient,
    and its remainder, when asked for, is the Euclidean remainder. *)
Theorem div_correct x other rem :
  big_ok x -> big_ok other -> (0 < len x)%nat ->
  if divisible x other then
    exists q r, div x other rem = Some (Some (q, r)) /\ big_ok q /\ big_ok r /\
      len q = (len x - len other + 1)%nat /\ val q = val x / val other /\
      val r = if rem : bool then val x mod val other else 0
  else div x other rem = Some None.
Proof.
  intros Hx Ho Hn. unfold divisible.
  destruct (Nat.ltb_spec 1 (len other)); cbn [andb];
    [| by unfold div; rewrite (proj2 (Nat.leb_le _ _)) by lia].
  destruct (Nat.ltb_spec (len other) (len x)), (Z.eqb_spec (limb other (len other - 1)) 0) as [E|E],
    (Z.eqb_spec (limb x (len x - 1)) 0) as [E'|E']; cbn [andb negb];
    try (unfold div; rewrite (proj2 (Nat.leb_gt _ _)), !msb_limb by lia; cbn [mbind option_bind];
         rewrite ?E, ?E', ?(proj2 (Z.eqb_neq _ _) E), ?(proj2 (Z.eqb_neq _ _) E');
         cbn [orb Z.eqb]; try done; by rewrite (proj2 (Nat.leb_le _ _)) by lia).
  destruct (div_ok x other (big_limbs_ok x Hx) (big_limbs_ok other Ho) ltac:(lia) ltac:(lia) E' E rem)
    as (q & r & ? & Hq & Hr & ?).
  exists q, r. split; [done|]. split; [by apply limbs_big_ok|]. split; [by apply limbs_big_ok|]. done.
Qed.

Lemma div_correct_witness :
  exists q r, div (mkBig [5; 7; 9; 11]) (mkBig [3; 2 ^ 32 - 1]) true = Some (Some (q, r)) /\
    val q = 23058430100995309570 /\ val r = 13153337357.
Proof.
  destruct (div_correct (mkBig [5; 7; 9; 11]) (mkBig [3; 2 ^ 32 - 1]) true)
    as (q & r & E & _ & _ & _ & Hq & Hr).
  - do 4 (constructor; [by unfold in_range; lia|]). constructor.
  - do 2 (constructor; [by unfold in_range; lia|]). constructor.
  - by vm_compute; lia.
  - exists q, r. split; [exact E|]. rewrite Hq, Hr. split; by vm_compute.
Defined.

(** Addition, subtraction, multiplication and division by a limb compute the integer
    operations: they never panic, their limbs stay [u32], and a negative difference is
    reported as an error holding the difference modulo [B^n]. *)
Theorem arithmetic_correct x y o :
  big_ok x -> big_ok y -> (0 < len x)%nat -> in_range 32 o ->
  let n := max (len x) (len y) in
  (exists w, add x y = Some w /\ big_ok w /\ len w = (n + 1)%nat /\ val w = val x + val y) /\
  (exists w, sub x y = (if val y <=? val x then Ok w else Err w) /\ big_ok w /\ len w = n /\
     val w = (val x - val y) mod B ^ Z.of_nat n) /\
  (exists w, mul x y = Some w /\ big_ok w /\ len w = (len y + len x)%nat /\ val w = val x * val y) /\
  (exists w, div_unit x o = Some w /\ big_ok w /\ len w = len x /\ val w = val x / Z.max o 1).
Proof.
  intros Hbx Hby Hn Ho n. pose proof (big_limbs_ok x Hbx) as Hx. pose proof (big_limbs_ok y Hby) as Hy.
  split; [| split; [| split]].
  - destruct (add_ok x y Hx Hy) as (w & ? & ? & ? & ?). exists w. eauto using limbs_big_ok.
  - destruct (sub_ok x y Hx Hy ltac:(lia)) as (w & k & E & Hk & Hok & Hl & Hv). fold n in Hl, Hv.
    pose proof (val_bound w Hok) as Hb. rewrite Hl in Hb.
    exists w. split; [| split; [by apply limbs_big_ok | split; [done|]]].
    + rewrite E. destruct (Z.eqb_spec k 0), (Z.leb_spec (val y) (val x)); try done; [nia|].
      exfalso. pose proof (val_bound x Hx). pose proof (val_bound y Hy).
      assert (B ^ Z.of_nat (len x) <= B ^ Z.of_nat n) by (apply Z.pow_le_mono_r; [done | lia]). nia.
    + apply (Z.mod_unique _ _ (- k)); [left; done | lia].
  - destruct (mul_ok x y Hx Hy) as (w & ? & ? & Hl & ?). exists w.
    split; [done|]. split; [by apply limbs_big_ok|]. split; [lia | done].
  - destruct (div_unit_ok x o Hx Ho Hn) as (w & ? & ? & ? & ?). exists w. eauto using limbs_big_ok.
Qed.

Lemma arithmetic_correct_witness :
  (exists w, sub (mkBig [1; 0]) (mkBig [2 ^ 32 - 1]) = Ok w /\ val w = 1) /\
  (exists w, mul (mkBig [1; 0]) (mkBig [2 ^ 32 - 1]) = Some w /\ val w = 2 ^ 64 - 2 ^ 32).
Proof.
  destruct (arithmetic_correct (mkBig [1; 0]) (mkBig [2 ^ 32 - 1]) 0)
    as (_ & (w & E & _ & _ & Hw) & (p & Ep & _ & _ & Hp) & _).
  - do 2 (constructor; [by unfold in_range; lia|]). constructor.
  - do 1 (constructor; [by unfold in_range; lia|]). constructor.
  - by vm_compute; lia.
  - by unfold in_range; lia.
  - split; [exists w; split; [exact E|]; rewrite Hw; by vm_compute|].
    exists p. split; [exact Ep|]. rewrite Hp. by vm_compute.
Defined.

(** The order is the order of the values whatever the leading zeros, the conversions to
    [u64] and [u128] succeed exactly on the values that fit and return them, and a [u128]
    survives the round trip. *)
Theorem conversions_correct x y a :
  big_ok x -> big_ok y -> (0 < len x)%nat -> in_range 128 a ->
  cmp x y = (val x ?= val y) /\
  try_from 64 x = (if val x <? 2 ^ 64 then Some (val x) else None) /\
  try_from 128 x = (if val x <? 2 ^ 128 then Some (val x) else None) /\
  val (lstrip x) = val x /\
  try_from 128 (from_u128 a) = Some a.
Proof.
  intros Hx Hy Hn Ha. split; [by apply cmp_ok|].
  split; [apply try_from_ok; auto|]. split; [apply try_from_ok; auto|].
  split; [by apply lstrip_ok|]. destruct (from_u128_ok a Ha) as [Hok Hv].
  rewrite try_from_ok, Hv, (proj2 (Z.ltb_lt _ _)); try done; [apply Ha | | auto].
  unfold from_u128. destruct (split128 a) as [xh xl], (split xh) as [a1 a2], (split xl) as [a3 a4] eqn:E.
  unfold lstrip. cbn [len length digits from_limbs Nat.eqb].
  pose proof (first_nonzero_spec [a1; a2; a3; a4]) as Hf.
  destruct (first_nonzero _) as [i|]; cbn [from_option id]; case_match; cbn [len digits]; try (cbn; lia).
  unfold len; cbn [digits]. rewrite length_drop. cbn in *. lia.
Qed.

Lemma conversions_correct_witness :
  cmp (mkBig [0; 0; 7]) (mkBig [6]) = Gt /\ try_from 128 (from_u128 (2 ^ 100 + 5)) = Some (2 ^ 100 + 5).
Proof.
  destruct (conversions_correct (mkBig [0; 0; 7]) (mkBig [6]) (2 ^ 100 + 5)) as (E & _ & _ & _ & Hr).
  - do 3 (constructor; [by unfold in_range; lia|]). constructor.
  - do 1 (constructor; [by unfold in_range; lia|]). constructor.
  - by vm_compute; lia.
  - by unfold in_range; lia.
  - split; [rewrite E; by vm_compute | exact Hr].
Defined.

(** When the divisor needs no normalisation the remainder keeps all limbs of the dividend,
    and one more, instead of the documented [n]. *)
Theorem remainder_not_shortened :
  exists x other q r, div x other true = Some (Some (q, r)) /\ len other = 2%nat /\ len r = 5%nat.
Proof.
  exists (mkBig [2 ^ 32 - 1; 2 ^ 32 - 1; 9; 11]), (mkBig [2 ^ 31; 2 ^ 32 - 1]).
  eexists _, _. split; [vm_compute; reflexivity|]. by vm_compute.
Qed.
