(* ===== verification/Normalize.v ===== *)
(** [normalize] and [tcmp] of sp-arithmetic (primitives/arithmetic/src/lib.rs): moving a
    vector of unsigned integers to a target sum, and comparison with a threshold.

    The integer type is given by its width [w].  [Panic] is a failed [expect], an index out
    of range or a loop that runs out of fuel; [normalize_correct] shows that none happens. *)

From stdpp Require Import base numbers list option sorting.
From S2P Require Import Prelude.

Local Open Scope Z_scope.
Local Open Scope rust_scope.

(** * Definitions *)

(** [ThresholdOrd::tcmp] *)
Definition tcmp (w self other threshold : Z) : comparison :=
  if threshold =? 0 then self ?= other
  else
    let upper_bound := saturating_add w other threshold in
    let lower_bound := saturating_sub other threshold in
    if upper_bound <=? lower_bound then self ?= other
    else
      match self ?= lower_bound, self ?= upper_bound with
      | Gt, Gt => Gt
      | Lt, Lt => Lt
      | _, _ => Eq
      end.

Inductive NormalizeError := SumTooLarge | LengthTooLarge.

Abbreviation result := (res NormalizeError).

(** The stable [sort_by_key] of slices *)
Fixpoint insert_by_key {A} (key : A -> Z) (x : A) (l : list A) : list A :=
  match l with
  | [] => [x]
  | y :: l => if key x <=? key y then x :: y :: l else y :: insert_by_key key x l
  end.

Definition sort_by_key {A} (key : A -> Z) (l : list A) : list A := foldr (insert_by_key key) [] l.

Fixpoint checked_sum (w sum : Z) (input : list Z) : result Z :=
  match input with
  | [] => Ok sum
  | t :: input => let? sum := ok_or (checked_add w sum t) SumTooLarge in checked_sum w sum input
  end.

(** The values with their original index *)
Abbreviation Indexed := (list (Z * Z)).

Definition enumerate (input : list Z) : Indexed := zip (seqZ 0 (Z.of_nat (length input))) input.

(** One bump of the element at [min_index] *)
Definition bump (w threshold amount : Z) (out : Indexed) (min_index : nat)
    : result (Indexed * nat) :=
  let? e := expect (out !! min_index) in
  let? v := expect (checked_add w e.2 amount) in
  let out := <[min_index := (e.1, v)]> out in
  Ok (out, if threshold <=? v then ((min_index + 1) mod length out)%nat else min_index).

(** [for _ in 0..n], each time by [per_round] *)
Fixpoint bump_rounds (n : nat) (w threshold per_round : Z) (out : Indexed) (min_index : nat)
    : result (Indexed * nat) :=
  match n with
  | O => Ok (out, min_index)
  | S n =>
      let? st := bump w threshold per_round out min_index in
      bump_rounds n w threshold per_round st.1 st.2
  end.

(** [while !leftover.is_zero()] *)
Fixpoint bump_leftover (fuel : nat) (w threshold leftover : Z) (out : Indexed) (min_index : nat)
    : result Indexed :=
  if leftover =? 0 then Ok out
  else
    match fuel with
    | O => Panic
    | S fuel =>
        let? st := bump w threshold 1 out min_index in
        bump_leftover fuel w threshold (wsub w leftover 1) st.1 st.2
    end.

(** [max_index.checked_sub(1).unwrap_or(count - 1)] *)
Definition previous (count max_index : nat) : nat :=
  match max_index with O => (count - 1)%nat | S i => i end.

(** One round of the decrease: what an element cannot give is added to [leftover]. *)
Definition cut (w threshold per_round : Z) (out : Indexed) (max_index : nat) (leftover : Z)
    : result (Indexed * nat * Z) :=
  let? e := expect (out !! max_index) in
  let '(v, leftover) :=
    match checked_sub e.2 per_round with
    | Some v => (v, leftover)
    | None => (saturating_sub e.2 per_round, wadd w leftover (wsub w per_round e.2))
    end in
  let out := <[max_index := (e.1, v)]> out in
  Ok (out, if v <=? threshold then previous (length out) max_index else max_index, leftover).

Fixpoint cut_rounds (n : nat) (w threshold per_round : Z) (out : Indexed) (max_index : nat)
    (leftover : Z) : result (Indexed * nat * Z) :=
  match n with
  | O => Ok (out, max_index, leftover)
  | S n =>
      let? st := cut w threshold per_round out max_index leftover in
      cut_rounds n w threshold per_round st.1.1 st.1.2 st.2
  end.

Fixpoint cut_leftover (fuel : nat) (w threshold leftover : Z) (out : Indexed) (max_index : nat)
    : result Indexed :=
  if leftover =? 0 then Ok out
  else
    match fuel with
    | O => Panic
    | S fuel =>
        let? e := expect (out !! max_index) in
        match checked_sub e.2 1 with
        | Some next =>
            let out := <[max_index := (e.1, next)]> out in
            cut_leftover fuel w threshold (wsub w leftover 1) out
              (if next <=? threshold then previous (length out) max_index else max_index)
        | None => cut_leftover fuel w threshold leftover out (previous (length out) max_index)
        end
    end.

(** The branch that raises the values, from the smallest on *)
Definition increase (w : Z) (output : Indexed) (targeted_sum per_round leftover : Z)
    : result Indexed :=
  let count := length output in
  let threshold := targeted_sum / Z.of_nat count in
  let? st := if per_round =? 0 then Ok (output, 0%nat)
             else bump_rounds count w threshold per_round output 0 in
  bump_leftover (Z.to_nat leftover) w threshold leftover st.1 st.2.

(** The branch that lowers the values, from the largest on.  A turn over all elements finds
    one to take from, hence the fuel. *)
Definition decrease (w : Z) (output : Indexed) (per_round leftover : Z) : result Indexed :=
  let count := length output in
  let? first := expect (head output) in
  let threshold := first.2 in
  let? st := if per_round =? 0 then Ok (output, (count - 1)%nat, leftover)
             else cut_rounds count w threshold per_round output (count - 1) leftover in
  let '(output, max_index, leftover) := st in
  cut_leftover (Z.to_nat (leftover * Z.of_nat count)) w threshold leftover output max_index.

Definition normalize (w : Z) (input : list Z) (targeted_sum : Z) : result (list Z) :=
  let? sum := checked_sum w 0 input in
  let count := length input in
  if umax w <? Z.of_nat count then Err LengthTooLarge
  else if (count =? 0)%nat then Ok []
  else
    let count_t := Z.of_nat count in
    let diff := wsub w (Z.max targeted_sum sum) (Z.min targeted_sum sum) in
    if diff =? 0 then Ok input
    else
      let per_round := diff / count_t in
      let leftover := diff mod count_t in
      let output := sort_by_key snd (enumerate input) in
      let? output := if sum <? targeted_sum
                     then increase w output targeted_sum per_round leftover
                     else decrease w output per_round leftover in
      Ok (sort_by_key fst output).*2.

(** * Lists of integers *)

Fixpoint zsum (l : list Z) : Z := match l with [] => 0 | a :: l => a + zsum l end.
Definition total (out : Indexed) : Z := zsum out.*2.

#[export] Instance zsum_proper : Proper ((≡ₚ) ==> (=)) zsum.
Proof. induction 1; cbn; lia. Qed.

Lemma zsum_insert l i a b : l !! i = Some a -> zsum (<[i := b]> l) = zsum l + b - a.
Proof.
  revert i. induction l as [|x l IH]; intros [|i] E; simplify_eq/=; [lia|].
  rewrite (IH i E). lia.
Qed.

Lemma zsum_nonneg l : Forall (Z.le 0) l -> 0 <= zsum l.
Proof. induction 1; cbn; lia. Qed.

Lemma zsum_elem l i a : Forall (Z.le 0) l -> l !! i = Some a -> a <= zsum l.
Proof.
  intros H. revert i. induction H as [|x l Hx Hl IH]; intros [|i] E; simplify_eq/=.
  - pose proof (zsum_nonneg l Hl). lia.
  - pose proof (IH i E). lia.
Qed.

Lemma zsum_positive l : Forall (Z.le 0) l -> 0 < zsum l -> exists i a, l !! i = Some a /\ 0 < a.
Proof.
  induction 1 as [|x l Hx Hl IH]; cbn; intros Hs; [lia|].
  destruct (Z.lt_ge_cases 0 x); [by exists 0%nat, x|].
  destruct IH as (i & a & ? & ?); [lia|]. by exists (S i), a.
Qed.

Lemma insert_by_key_perm {A} (key : A -> Z) x l : insert_by_key key x l ≡ₚ x :: l.
Proof.
  induction l as [|y l IH]; cbn; [done|]. case_match; [done|]. rewrite IH. apply Permutation_swap.
Qed.

Lemma sort_by_key_perm {A} (key : A -> Z) l : sort_by_key key l ≡ₚ l.
Proof.
  induction l as [|x l IH]; [done|]. cbn. rewrite insert_by_key_perm. by rewrite IH.
Qed.

Lemma insert_by_key_sorted {A} (key : A -> Z) x l :
  StronglySorted Z.le (key <$> l) -> StronglySorted Z.le (key <$> insert_by_key key x l).
Proof.
  induction l as [|y l IH]; cbn; intros Hs; [by repeat constructor|].
  inversion Hs as [|? ? Hs' Hall]; subst. destruct (Z.leb_spec (key x) (key y)); cbn.
  - constructor; [done|]. constructor; [done|]. eapply Forall_impl; [exact Hall|]. cbn; lia.
  - constructor; [by apply IH|]. rewrite insert_by_key_perm. cbn. constructor; [lia | done].
Qed.

Lemma sort_by_key_sorted {A} (key : A -> Z) l : StronglySorted Z.le (key <$> sort_by_key key l).
Proof. induction l as [|x l IH]; cbn; [constructor | by apply insert_by_key_sorted]. Qed.

Lemma seqZ_sorted n : forall m, StronglySorted Z.le (seqZ m (Z.of_nat n)).
Proof.
  induction n as [|n IH]; intros m; [constructor|].
  rewrite seqZ_cons by lia. replace (Z.pred _) with (Z.of_nat n) by lia. constructor; [done|].
  apply Forall_forall. intros x Hx. apply elem_of_seqZ in Hx. lia.
Qed.

Lemma checked_sum_ok w input s :
  Forall (in_range w) input -> 0 <= s ->
  checked_sum w s input =
  if (s + zsum input <? 2 ^ w) || (length input =? 0)%nat then Ok (s + zsum input) else Err SumTooLarge.
Proof.
  intros H. revert s. induction H as [|t input Ht Hin IH]; intros s Hs; cbn.
  - by rewrite orb_true_r, Z.add_0_r.
  - unfold in_range in Ht. assert (0 <= zsum input).
    { apply zsum_nonneg. eapply Forall_impl; [exact Hin|]. unfold in_range. lia. }
    rewrite orb_false_r. unfold checked_add.
    destruct (Z.ltb_spec (s + t) (2 ^ w)); cbn.
    + rewrite IH, Z.add_assoc by lia. destruct input; cbn; [| by rewrite orb_false_r].
      rewrite orb_true_r, Z.add_0_r. by rewrite (proj2 (Z.ltb_lt _ _)).
    + by rewrite (proj2 (Z.ltb_ge _ _)) by lia.
Qed.

(** * Rounds *)

Section rounds.
Context (w : Z) (input : list Z) (R : Z -> Z -> Prop).

(** The elements keep their indices, stay non-negative, and are related to the original
    element of their index. *)
Definition fine (out : Indexed) : Prop :=
  out.*1 ≡ₚ seqZ 0 (Z.of_nat (length input)) /\
  Forall (fun e => 0 <= e.2 /\ exists u, input !! Z.to_nat e.1 = Some u /\ R u e.2) out.

Lemma fine_length out : fine out -> length out = length input.
Proof.
  intros [Hp _]. apply Permutation_length in Hp. rewrite length_fmap, length_seqZ in Hp. lia.
Qed.

Lemma fine_nonneg out : fine out -> Forall (Z.le 0) out.*2.
Proof. intros [_ Hf]. apply Forall_fmap. eapply Forall_impl; [exact Hf|]. by intros e [? _]. Qed.

Lemma fine_lookup out i :
  fine out -> (i < length input)%nat -> exists e, out !! i = Some e /\ 0 <= e.2 <= total out.
Proof.
  intros Hf Hi. destruct (lookup_lt_is_Some_2 out i) as [e He]; [by rewrite fine_length|].
  exists e. split; [done|]. split.
  - destruct Hf as [_ Hf]. by apply (Forall_lookup_1 _ _ _ _ Hf) in He as [? _].
  - apply (zsum_elem _ i); [by apply fine_nonneg|]. by rewrite list_lookup_fmap, He.
Qed.

Lemma fine_insert out i e v :
  fine out -> out !! i = Some e -> 0 <= v -> (forall u, R u e.2 -> R u v) ->
  fine (<[i := (e.1, v)]> out) /\ total (<[i := (e.1, v)]> out) = total out + v - e.2.
Proof.
  intros [Hp Hf] He Hv HR. split; [split|].
  - rewrite list_fmap_insert, list_insert_id by (by rewrite list_lookup_fmap, He). done.
  - apply Forall_insert; [done|]. split; [done|].
    destruct (Forall_lookup_1 _ _ _ _ Hf He) as (_ & u & ? & ?). eauto.
  - unfold total. rewrite list_fmap_insert. apply zsum_insert. by rewrite list_lookup_fmap, He.
Qed.

(** The final sort puts the elements back at their indices. *)
Lemma fine_result out :
  fine out ->
  let l := (sort_by_key fst out).*2 in
  length l = length input /\ zsum l = total out /\ Forall (Z.le 0) l /\
  (forall i v, l !! i = Some v -> exists u, input !! i = Some u /\ R u v).
Proof.
  intros Hf l. pose proof (sort_by_key_perm fst out) as Hs.
  assert (Hl : length l = length input).
  { unfold l. rewrite length_fmap, Hs. by apply fine_length. }
  assert (Hfst : (sort_by_key fst out).*1 = seqZ 0 (Z.of_nat (length input))).
  { apply (StronglySorted_unique Z.le); [apply sort_by_key_sorted | apply seqZ_sorted |].
    rewrite Hs. apply Hf. }
  split; [done|]. split; [unfold l; by rewrite Hs|].
  split; [unfold l; rewrite Hs; by apply fine_nonneg|].
  intros i v Hi. unfold l in Hi. rewrite list_lookup_fmap in Hi.
  destruct (sort_by_key fst out !! i) as [e|] eqn:He; simplify_eq/=.
  assert (Hi : seqZ 0 (Z.of_nat (length input)) !! i = Some e.1) by (by rewrite <- Hfst, list_lookup_fmap, He).
  apply lookup_seqZ in Hi as [Ei _].
  assert (Hin : e ∈ out) by (rewrite <- Hs; by eapply list_elem_of_lookup_2).
  destruct Hf as [_ Hf]. rewrite Forall_forall in Hf.
  destruct (Hf e) as (_ & u & Hu & HR); [done|].
  exists u. split; [| done]. rewrite <- Hu. f_equal. lia.
Qed.

End rounds.

(** Increasing: the sum and what is left to give make up the target. *)
Section increase.
Context (w : Z) (input : list Z) (threshold T : Z).
Context (Hw : 0 <= w) (HT : T < 2 ^ w) (Hcount : (0 < length input)%nat).

Lemma bump_ok amount out i :
  fine input Z.le out -> (i < length input)%nat -> 0 <= amount -> total out + amount <= T ->
  exists out' i', bump w threshold amount out i = Ok (out', i') /\ fine input Z.le out' /\
    (i' < length input)%nat /\ total out' = total out + amount.
Proof.
  intros Hf Hi Ha Hle. unfold bump. destruct (fine_lookup _ _ out i Hf Hi) as (e & He & Hb).
  rewrite He. cbn. unfold checked_add. rewrite (proj2 (Z.ltb_lt _ _)) by lia. cbn.
  destruct (fine_insert _ _ out i e (e.2 + amount) Hf He) as [Hf' Ht]; [lia | intros; lia |].
  eexists _, _. split; [done|]. split; [done|]. split; [| lia].
  rewrite (fine_length _ _ _ Hf'). case_match; [apply Nat.mod_upper_bound; lia | done].
Qed.

Lemma bump_rounds_ok n : forall per_round out i,
  fine input Z.le out -> (i < length input)%nat -> 0 <= per_round ->
  total out + Z.of_nat n * per_round <= T ->
  exists out' i', bump_rounds n w threshold per_round out i = Ok (out', i') /\ fine input Z.le out' /\
    (i' < length input)%nat /\ total out' = total out + Z.of_nat n * per_round.
Proof.
  induction n as [|n IH]; intros per_round out i Hf Hi Hp Hle; cbn [bump_rounds].
  - exists out, i. do 3 (split; [done|]). lia.
  - destruct (bump_ok per_round out i) as (out1 & i1 & -> & Hf1 & Hi1 & Ht1); [done.. | lia |]. cbn.
    destruct (IH per_round out1 i1) as (out2 & i2 & -> & ? & ? & ?); [done.. | lia |].
    exists out2, i2. do 3 (split; [done|]). lia.
Qed.

Lemma bump_leftover_ok fuel : forall leftover out i,
  fine input Z.le out -> (i < length input)%nat -> 0 <= leftover <= Z.of_nat fuel ->
  total out + leftover = T ->
  exists out', bump_leftover fuel w threshold leftover out i = Ok out' /\ fine input Z.le out' /\
    total out' = T.
Proof.
  induction fuel as [|fuel IH]; intros leftover out i Hf Hi Hl Ht; cbn [bump_leftover];
    destruct (Z.eqb_spec leftover 0); try lia.
  - exists out. repeat split; try apply Hf. lia.
  - exists out. repeat split; try apply Hf. lia.
  - destruct (bump_ok 1 out i) as (out1 & i1 & -> & Hf1 & Hi1 & Ht1); [done.. | lia | lia |]. cbn.
    assert (0 <= total out) by (apply zsum_nonneg; by eapply fine_nonneg).
    rewrite wsub_small by (unfold in_range; lia). apply IH; [done.. | lia | lia].
Qed.

End increase.

(** Decreasing: the sum is the target and what is left to take. *)
Section decrease.
Context (w : Z) (input : list Z) (threshold T : Z).
Context (Hw : 0 <= w) (HT : 0 <= T) (Hcount : (0 < length input)%nat).

Lemma previous_lt i : (i < length input)%nat -> (previous (length input) i < length input)%nat.
Proof. destruct i; cbn; lia. Qed.

Lemma cut_ok per_round out i leftover :
  fine input Z.ge out -> (i < length input)%nat -> 0 <= per_round -> 0 <= leftover ->
  T + leftover + per_round <= total out < 2 ^ w ->
  exists out' i' leftover', cut w threshold per_round out i leftover = Ok (out', i', leftover') /\
    fine input Z.ge out' /\ (i' < length input)%nat /\ 0 <= leftover' /\
    total out' - leftover' = total out - leftover - per_round /\ total out' <= total out.
Proof.
  intros Hf Hi Hp Hl Ht. unfold cut. destruct (fine_lookup _ _ out i Hf Hi) as (e & He & Hb).
  rewrite He. cbn. unfold checked_sub, saturating_sub. destruct (Z.leb_spec per_round e.2).
  - destruct (fine_insert _ _ out i e (e.2 - per_round) Hf He) as [Hf' Ht']; [lia | intros; lia |].
    eexists _, _, _. split; [done|]. split; [done|]. rewrite (fine_length _ _ _ Hf').
    split; [case_match; [by apply previous_lt | done]|]. lia.
  - rewrite Z.max_l, (wsub_small w per_round), wadd_small by (unfold in_range; lia).
    destruct (fine_insert _ _ out i e 0 Hf He) as [Hf' Ht']; [lia | intros; lia |].
    eexists _, _, _. split; [done|]. split; [done|]. rewrite (fine_length _ _ _ Hf').
    split; [case_match; [by apply previous_lt | done]|]. lia.
Qed.

Lemma cut_rounds_ok n : forall per_round out i leftover,
  fine input Z.ge out -> (i < length input)%nat -> 0 <= per_round -> 0 <= leftover ->
  total out = T + leftover + Z.of_nat n * per_round -> total out < 2 ^ w ->
  exists out' i' leftover', cut_rounds n w threshold per_round out i leftover
      = Ok (out', i', leftover') /\
    fine input Z.ge out' /\ (i' < length input)%nat /\ 0 <= leftover' /\
    total out' = T + leftover' /\ total out' < 2 ^ w.
Proof.
  induction n as [|n IH]; intros per_round out i leftover Hf Hi Hp Hl Ht Hlt; cbn [cut_rounds].
  - exists out, i, leftover. do 4 (split; [done|]). lia.
  - destruct (cut_ok per_round out i leftover) as (out1 & i1 & l1 & -> & Hf1 & Hi1 & Hl1 & Ht1 & Hle1);
      [done.. | lia |]. cbn. apply IH; try done; lia.
Qed.

(** How many steps down, around the end, from [i] to [k]. *)
Definition steps_to (i k : nat) : Z :=
  if (k <=? i)%nat then Z.of_nat (i - k) else Z.of_nat (i + length input - k).

Lemma steps_to_bound i k : (i < length input)%nat -> (k < length input)%nat ->
  0 <= steps_to i k < Z.of_nat (length input).
Proof. intros. unfold steps_to. destruct (Nat.leb_spec k i); lia. Qed.

Lemma steps_to_previous i k : (i < length input)%nat -> (k < length input)%nat -> i <> k ->
  steps_to (previous (length input) i) k = steps_to i k - 1.
Proof.
  intros. unfold steps_to, previous. destruct i as [|i].
  - destruct (Nat.leb_spec k (length input - 1)), (Nat.leb_spec k 0); lia.
  - destruct (Nat.leb_spec k i), (Nat.leb_spec k (S i)); lia.
Qed.

(** As long as something is to be taken some element is positive, and the index reaches it
    within a turn. *)
Lemma cut_leftover_ok fuel : forall leftover out i k e,
  fine input Z.ge out -> (i < length input)%nat -> 0 < leftover ->
  total out = T + leftover -> total out < 2 ^ w -> out !! k = Some e -> 0 < e.2 ->
  (leftover - 1) * Z.of_nat (length input) + steps_to i k + 1 <= Z.of_nat fuel ->
  exists out', cut_leftover fuel w threshold leftover out i = Ok out' /\ fine input Z.ge out' /\
    total out' = T.
Proof.
  induction fuel as [|fuel IH]; intros leftover out i k e Hf Hi Hl Ht Hlt Hk He Hfuel;
    (assert (Hkl : (k < length input)%nat)
      by (rewrite <- (fine_length _ _ _ Hf); by eapply lookup_lt_Some));
    pose proof (steps_to_bound i k Hi Hkl); [nia|].
  cbn [cut_leftover]. destruct (Z.eqb_spec leftover 0); [lia|].
  destruct (fine_lookup _ _ out i Hf Hi) as (d & Hd & Hb). rewrite Hd. cbn. unfold checked_sub.
  destruct (Z.leb_spec 1 d.2).
  - destruct (fine_insert _ _ out i d (d.2 - 1) Hf Hd) as [Hf' Ht']; [lia | intros; lia |].
    rewrite wsub_small, (fine_length _ _ _ Hf') by (unfold in_range; lia).
    destruct (Z.eq_dec leftover 1) as [->|].
    { eexists. split; [destruct fuel; cbn [cut_leftover]; reflexivity|]. split; [done|]. lia. }
    destruct (zsum_positive (<[i:=(d.1, d.2 - 1)]> out).*2) as (k' & a & Hk' & Ha);
      [by eapply fine_nonneg | unfold total in *; lia |].
    rewrite list_lookup_fmap in Hk'.
    destruct (<[i:=(d.1, d.2 - 1)]> out !! k') as [e'|] eqn:He'; simplify_eq/=.
    assert (Hk'l : (k' < length input)%nat)
      by (rewrite <- (fine_length _ _ _ Hf'); by eapply lookup_lt_Some).
    assert (Hi' : ((if (d.2 - 1 <=? threshold)%Z then previous (length input) i else i) < length input)%nat)
      by (case_match; [by apply previous_lt | done]).
    pose proof (steps_to_bound _ k' Hi' Hk'l).
    apply (IH _ _ _ k' e'); try done; lia.
  - assert (i <> k) by (intros ->; rewrite Hk in Hd; simplify_eq; lia).
    rewrite (fine_length _ _ _ Hf).
    apply (IH _ _ _ k e); try done; [by apply previous_lt|]. rewrite steps_to_previous by done. lia.
Qed.

Lemma cut_leftover_enough leftover out i :
  fine input Z.ge out -> (i < length input)%nat -> 0 <= leftover ->
  total out = T + leftover -> total out < 2 ^ w ->
  exists out', cut_leftover (Z.to_nat (leftover * Z.of_nat (length input))) w threshold leftover out i
      = Ok out' /\ fine input Z.ge out' /\ total out' = T.
Proof.
  intros Hf Hi Hl Ht Hlt. destruct (Z.eq_dec leftover 0) as [->|].
  { exists out. split; [done|]. split; [done|]. lia. }
  destruct (zsum_positive out.*2) as (k & a & Hk & Ha);
    [by eapply fine_nonneg | unfold total in *; lia |].
  rewrite list_lookup_fmap in Hk. destruct (out !! k) as [e|] eqn:He; simplify_eq/=.
  assert (Hkl : (k < length input)%nat)
    by (rewrite <- (fine_length _ _ _ Hf); by eapply lookup_lt_Some).
  pose proof (steps_to_bound i k Hi Hkl).
  apply (cut_leftover_ok _ _ _ _ k e); try done; nia.
Qed.

End decrease.

(** * Theorems *)

Lemma start_fine input R :
  Forall (Z.le 0) input -> (forall u, R u u) ->
  fine input R (sort_by_key snd (enumerate input)) /\
  total (sort_by_key snd (enumerate input)) = zsum input.
Proof.
  intros Hin HR. pose proof (sort_by_key_perm snd (enumerate input)) as Hs.
  assert (Hlen : length (seqZ 0 (Z.of_nat (length input))) = length input) by (rewrite length_seqZ; lia).
  unfold fine, total. rewrite !Hs. unfold enumerate. rewrite fst_zip, snd_zip by lia.
  split; [split; [done|] | done].
  apply Forall_lookup. intros i [j v] He. apply lookup_zip_with_Some in He as (x & y & E & Hj & Hv).
  injection E as <- <-. cbn. apply lookup_seqZ in Hj as [-> _]. split; [by apply (Forall_lookup_1 _ _ _ _ Hin Hv)|].
  exists v. split; [| done]. rewrite <- Hv. f_equal. lia.
Qed.

(** The output of a run: same length, the target as its sum, every element moved in the
    direction of the target. *)
Definition normalized (input : list Z) (target : Z) (l : list Z) : Prop :=
  length l = length input /\ zsum l = target /\ Forall (Z.le 0) l /\
  (forall i v, l !! i = Some v -> exists u, input !! i = Some u /\
     if zsum input <=? target then u <= v else v <= u).

Section normalize.
Context (w : Z) (input : list Z) (target : Z).
Context (Hin : Forall (in_range w) input) (Ht : in_range w target) (Hw : 0 <= w).

Lemma input_nonneg : Forall (Z.le 0) input.
Proof. eapply Forall_impl; [exact Hin|]. unfold in_range. lia. Qed.

Lemma increase_ok per_round leftover :
  (0 < length input)%nat -> zsum input < target ->
  target - zsum input = Z.of_nat (length input) * per_round + leftover ->
  0 <= per_round -> 0 <= leftover ->
  exists out, increase w (sort_by_key snd (enumerate input)) target per_round leftover = Ok out /\
    fine input Z.le out /\ total out = target.
Proof.
  intros Hn Hlt Hd Hp Hl. destruct (start_fine input Z.le input_nonneg Z.le_refl) as [Hf Hs].
  destruct Ht as [_ Hmax]. unfold increase. rewrite (fine_length _ _ _ Hf).
  destruct (Z.eqb_spec per_round 0) as [->|].
  - cbn. apply bump_leftover_ok; try done; lia.
  - destruct (bump_rounds_ok w input (target / Z.of_nat (length input)) target Hw Hmax Hn
      (length input) per_round _ 0%nat Hf) as (out & i & -> & ? & ? & ?); [lia.. |].
    cbn. apply bump_leftover_ok; try done; lia.
Qed.

Lemma decrease_ok per_round leftover :
  (0 < length input)%nat -> target < zsum input -> zsum input < 2 ^ w ->
  zsum input - target = Z.of_nat (length input) * per_round + leftover ->
  0 <= per_round -> 0 <= leftover ->
  exists out, decrease w (sort_by_key snd (enumerate input)) per_round leftover = Ok out /\
    fine input Z.ge out /\ total out = target.
Proof.
  intros Hn Hlt Hmax Hd Hp Hl. destruct (start_fine input Z.ge input_nonneg) as [Hf Hs]; [lia|].
  destruct Ht as [H0 _]. unfold decrease. pose proof (fine_length _ _ _ Hf) as Hlen. rewrite Hlen.
  set (out := sort_by_key snd (enumerate input)) in *.
  destruct (head out) as [first|] eqn:E; [| destruct out; [cbn in Hlen; lia | done]].
  cbn. destruct (Z.eqb_spec per_round 0) as [->|].
  - cbn. apply cut_leftover_enough; try done; lia.
  - destruct (cut_rounds_ok w input first.2 target Hw H0 Hn (length input) per_round out
      (length input - 1) leftover Hf) as (out' & i & l' & -> & ? & ? & ? & ? & ?); [lia.. |].
    cbn. by apply cut_leftover_enough.
Qed.

Lemma normalize_ok :
  (0 < length input)%nat -> zsum input < 2 ^ w -> Z.of_nat (length input) < 2 ^ w ->
  exists l, normalize w input target = Ok l /\ normalized input target l.
Proof.
  intros Hn Hs Hc. unfold normalize. rewrite checked_sum_ok, Z.add_0_l by done.
  rewrite (proj2 (Z.ltb_lt (zsum input) _)) by done. cbn [orb res_bind].
  rewrite (proj2 (Z.ltb_ge _ _)) by (unfold umax; lia).
  destruct (Nat.eqb_spec (length input) 0); [lia|].
  pose proof (zsum_nonneg input input_nonneg). pose proof Ht as [Ht0 Ht1].
  rewrite wsub_small by (unfold in_range; lia).
  destruct (Z.eqb_spec (Z.max target (zsum input) - Z.min target (zsum input)) 0).
  { exists input. split; [done|]. split; [done|]. split; [lia|]. split; [apply input_nonneg|].
    intros i v Hv. exists v. split; [done|]. case_match; lia. }
  set (diff := Z.max _ _ - _) in *.
  pose proof (Z.div_mod diff (Z.of_nat (length input)) ltac:(lia)).
  pose proof (Z.mod_pos_bound diff (Z.of_nat (length input)) ltac:(lia)).
  assert (0 <= diff / Z.of_nat (length input)) by (apply Z.div_pos; lia).
  unfold normalized. destruct (Z.ltb_spec (zsum input) target).
  - destruct (increase_ok (diff / Z.of_nat (length input)) (diff mod Z.of_nat (length input)))
      as (out & E & Hf & Htot); [lia.. |].
    rewrite E. cbn. eexists. split; [done|]. destruct (fine_result _ _ _ Hf) as (? & ? & ? & Hr).
    rewrite (proj2 (Z.leb_le _ _)) by lia. split; [done|]. split; [lia | done].
  - destruct (decrease_ok (diff / Z.of_nat (length input)) (diff mod Z.of_nat (length input)))
      as (out & E & Hf & Htot); [lia.. |].
    rewrite E. cbn. eexists. split; [done|]. destruct (fine_result _ _ _ Hf) as (? & ? & ? & Hr).
    rewrite (proj2 (Z.leb_gt _ _)) by lia. split; [done|]. split; [lia|]. split; [done|].
    intros i v Hv. destruct (Hr i v Hv) as (u & ? & ?). exists u. split; [done | lia].
Qed.

End normalize.

(** [C30] [normalize] never panics and its loops end.  It fails exactly when the sum or the
    length does not fit the type; on a non-empty input it returns a vector of the same
    length whose sum is the target, every element moved only towards the target. *)
Theorem normalize_correct w input target :
  Forall (in_range w) input -> in_range w target -> 0 <= w -> input <> [] ->
  if 2 ^ w <=? zsum input then normalize w input target = Err SumTooLarge
  else if 2 ^ w <=? Z.of_nat (length input) then normalize w input target = Err LengthTooLarge
  else exists l, normalize w input target = Ok l /\ normalized input target l.
Proof.
  intros Hin Ht Hw Hne. assert (0 < length input)%nat by (destruct input; [done | cbn; lia]).
  destruct (Z.leb_spec (2 ^ w) (zsum input)); [| destruct (Z.leb_spec (2 ^ w) (Z.of_nat (length input)))].
  - unfold normalize. rewrite checked_sum_ok, Z.add_0_l by done.
    rewrite (proj2 (Z.ltb_ge _ _)), (proj2 (Nat.eqb_neq _ _)) by lia. done.
  - unfold normalize. rewrite checked_sum_ok, Z.add_0_l by done.
    rewrite (proj2 (Z.ltb_lt (zsum input) _)) by lia. cbn [orb res_bind].
    by rewrite (proj2 (Z.ltb_lt _ _)) by (unfold umax; lia).
  - by apply normalize_ok.
Qed.

Lemma normalize_correct_witness :
  exists l, normalize 8 [1; 100; 100] 10 = Ok l /\ normalized [1; 100; 100] 10 l.
Proof.
  apply (normalize_correct 8 [1; 100; 100] 10).
  - do 3 (constructor; [by unfold in_range; lia|]). constructor.
  - by unfold in_range; lia.
  - lia.
  - done.
Defined.

(** An empty input is returned as it is, whatever the target. *)
Theorem normalize_empty w target : 0 <= w -> normalize w [] target = Ok [].
Proof.
  intros Hw. unfold normalize. cbn. rewrite (proj2 (Z.ltb_ge _ _)); [done|].
  unfold umax. pose proof (Z.pow_pos_nonneg 2 w). lia.
Qed.

(** The comparison is equal within the threshold, as documented. *)
Theorem tcmp_correct w self other threshold :
  in_range w self -> in_range w other -> in_range w threshold ->
  tcmp w self other threshold =
  if other + threshold <? self then Gt else if self <? other - threshold then Lt else Eq.
Proof.
  unfold in_range. intros Hs Ho Ht. unfold tcmp, saturating_add, saturating_sub, umax.
  destruct (Z.eqb_spec threshold 0) as [->|].
  - rewrite Z.add_0_r, Z.sub_0_r. destruct (Z.compare_spec self other), (Z.ltb_spec other self),
      (Z.ltb_spec self other); done || lia.
  - destruct (Z.leb_spec (Z.min (2 ^ w - 1) (other + threshold)) (Z.max 0 (other - threshold)));
      destruct (Z.ltb_spec (other + threshold) self), (Z.ltb_spec self (other - threshold)); try lia.
    all: try destruct (Z.compare_spec self other); try lia; try done.
    all: destruct (Z.compare_spec self (Z.max 0 (other - threshold))),
      (Z.compare_spec self (Z.min (2 ^ w - 1) (other + threshold))); lia || done.
Qed.
