(* ===== verification/Rational.v ===== *)
(** Rational numbers (primitives/arithmetic/src/rational.rs): [Rational128] with its exact
    sums and its order by cross multiplication on big integers, [RationalInfinite], and
    [MultiplyRational] for the integer types.

    An error is [Err]; [Panic] stands for a panic and for a loop that does not end, and the
    theorems show that there is none. *)

From stdpp Require Import base numbers list option.
From S2P Require Import Prelude Arith128 BigUint.

Local Open Scope Z_scope.
Local Open Scope rust_scope.

(** * Definitions *)

(** [MultiplyRational] for the type of [w] bits, with intermediate results of [2 * w] bits *)
Definition multiply_rational_small (w self n d : Z) (r : Rounding) : option Z :=
  if d =? 0 then None
  else
    let sn := wmul (2 * w) self n in
    let result := sn / d in
    let remainder := wrap w (sn mod d) in
    let bump :=
      match r with
      | Up => 0 <? remainder
      | NearestPrefUp => d / 2 + d mod 2 <=? remainder
      | NearestPrefDown => d / 2 <? remainder
      | Down => false
      end in
    result ← (if bump : bool then checked_add (2 * w) result 1 else Some result);
    if umax w <? result then None else Some (wrap w result).

(** The result of a fallible function over a loop with fuel *)
Definition total_or {E A} (o : option (option A)) (e : E) : res E A :=
  match o with
  | None => Panic
  | Some None => Err e
  | Some (Some a) => Ok a
  end.

(** [MultiplyRational::multiply_rational]: the implementation of the type *)
Definition multiply_rational (w self n d : Z) (r : Rounding) : res unit Z :=
  total_or (if w =? 128 then multiply_by_rational_with_rounding self n d r
            else Some (multiply_rational_small w self n d r)) tt.

Record Rational128 := mkRational { rn : Z; rd : Z }.

Definition rational_zero : Rational128 := mkRational 0 1.
Definition rational_one : Rational128 := mkRational 1 1.
Definition rational_is_zero (a : Rational128) : bool := rn a =? 0.
Definition rational_from (n d : Z) : Rational128 := mkRational n (Z.max d 1).
Definition from_unchecked (n d : Z) : Rational128 := mkRational n d.
Definition rational_max_value : Rational128 := mkRational (umax 128) 1.

Definition to_den (a : Rational128) (den : Z) : res unit Rational128 :=
  if den =? rd a then Ok a
  else
    let? n := total_or (multiply_by_rational_with_rounding (rn a) den (rd a) NearestPrefDown) tt in
    Ok (mkRational n den).

Definition lcm (a b : Rational128) : res unit Z :=
  if rd a =? rd b then Ok (rd a)
  else
    let g := Z.of_N (gcd (Z.to_N (rd a)) (Z.to_N (rd b))) in
    total_or (multiply_by_rational_with_rounding (rd a) (rd b) g NearestPrefDown) tt.

Definition lazy_saturating_add (a b : Rational128) : Rational128 :=
  if rational_is_zero b then a else mkRational (saturating_add 128 (rn a) (rn b)) (rd a).
Definition lazy_saturating_sub (a b : Rational128) : Rational128 :=
  if rational_is_zero b then a else mkRational (saturating_sub (rn a) (rn b)) (rd a).

Inductive RationalError := ScaleFailed | AddOverflow | SubOverflow.

Definition map_err {E F A} (r : res E A) (e : F) : res F A :=
  match r with Ok a => Ok a | Err _ => Err e | Panic => Panic end.

Definition rational_checked_add (a b : Rational128) : res RationalError Rational128 :=
  let? l := map_err (lcm a b) ScaleFailed in
  let? a' := map_err (to_den a l) ScaleFailed in
  let? b' := map_err (to_den b l) ScaleFailed in
  let? n := ok_or (checked_add 128 (rn a') (rn b')) AddOverflow in
  Ok (mkRational n (rd a')).

Definition rational_checked_sub (a b : Rational128) : res RationalError Rational128 :=
  let? l := map_err (lcm a b) ScaleFailed in
  let? a' := map_err (to_den a l) ScaleFailed in
  let? b' := map_err (to_den b l) ScaleFailed in
  let? n := ok_or (checked_sub (rn a') (rn b')) SubOverflow in
  Ok (mkRational n (rd a')).

(** The products compared by [cmp] and [eq] *)
Definition cross (a b : Rational128) : option BigUint := mul (from_u128 (rn a)) (from_u128 (rd b)).

Definition rational_cmp (a b : Rational128) : option comparison :=
  if rd a =? rd b then Some (rn a ?= rn b)
  else if rd a =? 0 then Some Gt
  else if rd b =? 0 then Some Lt
  else
    self_n ← cross a b;
    other_n ← cross b a;
    Some (cmp self_n other_n).

Definition rational_eq (a b : Rational128) : option bool :=
  if rd a =? rd b then Some (rn a =? rn b)
  else
    self_n ← cross a b;
    other_n ← cross b a;
    Some (match cmp self_n other_n with Eq => true | _ => false end).

Record RationalInfinite := mkInfinite { inf_n : BigUint; inf_d : BigUint }.

(** [Ord::max] returns its second argument when the two are equal. *)
Definition big_max (a b : BigUint) : BigUint := match cmp a b with Gt => a | _ => b end.

Definition infinite_from (n d : BigUint) : RationalInfinite := mkInfinite n (big_max d big_one).
Definition infinite_zero : RationalInfinite := mkInfinite big_zero big_one.
Definition infinite_one : RationalInfinite := mkInfinite big_one big_one.
Definition infinite_of_128 (a : Rational128) : RationalInfinite :=
  mkInfinite (from_u128 (rn a)) (from_u128 (rd a)).

Definition infinite_cmp (a b : RationalInfinite) : option comparison :=
  match cmp (inf_d a) (inf_d b) with
  | Eq => Some (cmp (inf_n a) (inf_n b))
  | _ =>
      if is_zero (inf_d a) then Some Gt
      else if is_zero (inf_d b) then Some Lt
      else
        x ← mul (inf_n a) (inf_d b);
        y ← mul (inf_n b) (inf_d a);
        Some (cmp x y)
  end.

(** * Multiplication by a rational *)

(** The small types compute what the 128-bit helper computes. *)
Lemma multiply_rational_small_ok w self n d r :
  0 < w -> in_range w self -> in_range w n -> in_range w d ->
  multiply_rational_small w self n d r = rounded w r (self * n) d.
Proof.
  unfold in_range. intros Hw Hs Hn Hd. unfold multiply_rational_small, rounded.
  destruct (Z.eqb_spec d 0) as [->|]; [done|]. cbn [orb].
  assert (E : 2 ^ (2 * w) = 2 ^ w * 2 ^ w) by (rewrite <- Z.pow_add_r by lia; f_equal; lia).
  assert (Hp : 0 < 2 ^ w) by (apply Z.pow_pos_nonneg; lia).
  unfold wmul. rewrite (wrap_small (2 * w)) by (unfold in_range; rewrite E; nia).
  pose proof (Z.mod_pos_bound (self * n) d ltac:(lia)).
  rewrite (wrap_small w (_ mod _)) by (unfold in_range; lia).
  fold (rounds_up r ((self * n) mod d) d). rewrite round_div_bump by lia.
  assert (0 <= self * n / d <= self * n).
  { split; [apply Z.div_pos; nia | apply Z.div_le_upper_bound; nia]. }
  assert (self * n / d + 1 < 2 ^ (2 * w)) by (rewrite E; nia).
  unfold checked_add. rewrite (proj2 (Z.ltb_lt _ _)) by done.
  destruct (rounds_up r _ d); cbn [mbind option_bind]; rewrite ?Z.add_0_r; unfold umax;
    repeat case_match; try lia; try done; f_equal; apply wrap_small; unfold in_range; lia.
Qed.

Lemma multiply_rational_ok w self n d r :
  0 < w -> in_range w self -> in_range w n -> in_range w d ->
  multiply_rational w self n d r = ok_or (rounded w r (self * n) d) tt.
Proof.
  intros Hw Hs Hn Hd. unfold multiply_rational. destruct (Z.eqb_spec w 128) as [->|].
  - rewrite multiply_by_rational_ok by done. by destruct (rounded _ _ _ _).
  - rewrite multiply_rational_small_ok by done. by destruct (rounded _ _ _ _).
Qed.

Lemma round_div_exact r k c : 0 < c -> round_div r (k * c) c = k.
Proof.
  intros Hc. rewrite round_div_bump, Z.div_mul, Z.mod_mul by lia.
  destruct r; cbn [rounds_up]; repeat case_match; try lia;
    pose proof (Z.div_mod c 2 ltac:(lia)); pose proof (Z.mod_pos_bound c 2 ltac:(lia)); lia.
Qed.

(** * Sums *)

Definition rational_ok (a : Rational128) : Prop := in_range 128 (rn a) /\ 0 < rd a < 2 ^ 128.

Lemma lcm_pos a b : 0 < a -> 0 < b -> 0 < Z.lcm a b.
Proof.
  intros. pose proof (Z.lcm_nonneg a b). assert (Z.lcm a b <> 0); [| lia].
  rewrite Z.lcm_eq_0. lia.
Qed.

Lemma gcd_Z a b :
  in_range 128 a -> in_range 128 b -> Z.of_N (gcd (Z.to_N a) (Z.to_N b)) = Z.gcd a b.
Proof.
  unfold in_range. intros. rewrite gcd_is_gcd by lia. destruct a, b; done || lia.
Qed.

Lemma lcm_ok a b :
  rational_ok a -> rational_ok b ->
  lcm a b = if 2 ^ 128 <=? Z.lcm (rd a) (rd b) then Err tt else Ok (Z.lcm (rd a) (rd b)).
Proof.
  intros [_ Ha] [_ Hb]. unfold lcm. destruct (Z.eqb_spec (rd a) (rd b)) as [<-|Hne].
  { rewrite Z.lcm_diag, Z.abs_eq, (proj2 (Z.leb_gt _ _)) by lia. done. }
  rewrite gcd_Z by (unfold in_range; lia).
  assert (Hg : 0 < Z.gcd (rd a) (rd b)).
  { pose proof (Z.gcd_nonneg (rd a) (rd b)). assert (Z.gcd (rd a) (rd b) <> 0); [| lia].
    rewrite Z.gcd_eq_0. lia. }
  assert (Z.gcd (rd a) (rd b) <= rd a).
  { apply Z.divide_pos_le; [lia | apply Z.gcd_divide_l]. }
  assert (E : rd a * rd b = Z.lcm (rd a) (rd b) * Z.gcd (rd a) (rd b)).
  { unfold Z.lcm. destruct (Z.gcd_divide_r (rd a) (rd b)) as [k Hk].
    rewrite Hk at 2. rewrite Z.div_mul, Z.abs_eq by nia. rewrite Hk at 1. ring. }
  rewrite multiply_by_rational_ok by (unfold in_range; lia). unfold rounded.
  rewrite E, round_div_exact, (proj2 (Z.eqb_neq _ _)) by lia. cbn [orb]. by case_match.
Qed.

(** Scaling to a multiple of the denominator is exact. *)
Lemma to_den_ok a k :
  rational_ok a -> 0 < k -> rd a * k < 2 ^ 128 ->
  to_den a (rd a * k) =
  if 2 ^ 128 <=? rn a * k then Err tt else Ok (mkRational (rn a * k) (rd a * k)).
Proof.
  intros [Hn Hd] Hk Hlt. unfold to_den. destruct (Z.eqb_spec (rd a * k) (rd a)) as [E|].
  - assert (k = 1) as -> by nia. rewrite !Z.mul_1_r. unfold in_range in Hn.
    rewrite (proj2 (Z.leb_gt _ _)) by lia. by destruct a.
  - rewrite multiply_by_rational_ok by (unfold in_range in *; lia). unfold rounded.
    replace (rn a * (rd a * k)) with (rn a * k * rd a) by ring.
    rewrite round_div_exact, (proj2 (Z.eqb_neq _ _)) by lia. cbn [orb]. by case_match.
Qed.

Lemma lcm_multiple a b :
  0 < a -> 0 < b -> exists k, 0 < k /\ Z.lcm a b = a * k /\ Z.lcm a b / a = k.
Proof.
  intros Ha Hb. destruct (Z.divide_lcm_l a b) as [k Hk]. pose proof (lcm_pos a b Ha Hb).
  exists k. split; [nia|]. split; [lia|]. rewrite Hk. apply Z.div_mul. lia.
Qed.

(** What both sums do first: the two numbers over the least common multiple. *)
Definition scaled (a b : Rational128) : option (Z * Z) :=
  let l := Z.lcm (rd a) (rd b) in
  let na := rn a * (l / rd a) in
  let nb := rn b * (l / rd b) in
  if (2 ^ 128 <=? l) || (2 ^ 128 <=? na) || (2 ^ 128 <=? nb) then None else Some (na, nb).

Lemma scale_ok {A} a b (k : Rational128 -> Rational128 -> res RationalError A) :
  rational_ok a -> rational_ok b ->
  (let? l := map_err (lcm a b) ScaleFailed in
   let? a' := map_err (to_den a l) ScaleFailed in
   let? b' := map_err (to_den b l) ScaleFailed in k a' b') =
  match scaled a b with
  | None => Err ScaleFailed
  | Some (na, nb) => let l := Z.lcm (rd a) (rd b) in k (mkRational na l) (mkRational nb l)
  end.
Proof.
  intros Ha Hb. rewrite lcm_ok by done. unfold scaled.
  destruct (lcm_multiple (rd a) (rd b)) as (ka & Hka & Ea & ->); [apply Ha | apply Hb |].
  destruct (lcm_multiple (rd b) (rd a)) as (kb & Hkb & Eb & Edb); [apply Hb | apply Ha |].
  rewrite Z.lcm_comm in Eb, Edb. rewrite Edb.
  destruct (Z.leb_spec (2 ^ 128) (Z.lcm (rd a) (rd b))); [done|]. cbn [map_err res_bind orb].
  rewrite Ea at 1. rewrite to_den_ok by (done || lia).
  destruct (Z.leb_spec (2 ^ 128) (rn a * ka)); [done|]. cbn [map_err res_bind orb].
  rewrite Eb at 1. rewrite to_den_ok by (done || lia).
  destruct (Z.leb_spec (2 ^ 128) (rn b * kb)); [done|]. cbn [map_err res_bind].
  by rewrite <- Ea, <- Eb.
Qed.

(** [C31] Sums and differences of rationals are exact: the result is over the least common
    multiple of the denominators, and an error is returned exactly when the multiple, a
    scaled numerator or the result does not fit [u128]. *)
Theorem rational_sums_exact a b :
  rational_ok a -> rational_ok b ->
  let l := Z.lcm (rd a) (rd b) in
  let na := rn a * (l / rd a) in
  let nb := rn b * (l / rd b) in
  let fits := (l <? 2 ^ 128) && (na <? 2 ^ 128) && (nb <? 2 ^ 128) in
  rational_checked_add a b =
    (if negb fits then Err ScaleFailed
     else if na + nb <? 2 ^ 128 then Ok (mkRational (na + nb) l) else Err AddOverflow) /\
  rational_checked_sub a b =
    (if negb fits then Err ScaleFailed
     else if nb <=? na then Ok (mkRational (na - nb) l) else Err SubOverflow).
Proof.
  intros Ha Hb l na nb fits. unfold rational_checked_add, rational_checked_sub.
  rewrite !scale_ok by done. unfold scaled. fold l. fold na nb.
  replace fits with (negb ((2 ^ 128 <=? l) || (2 ^ 128 <=? na) || (2 ^ 128 <=? nb)))
    by (unfold fits; by rewrite !Z.leb_antisym, !negb_orb, !negb_involutive).
  rewrite negb_involutive. destruct (_ || _); [done|]. cbn [rn rd].
  unfold checked_add, checked_sub. split; by case_match.
Qed.

Lemma rational_sums_exact_witness :
  rational_checked_add (mkRational 1 6) (mkRational 1 4) = Ok (mkRational 5 12) /\
  rational_checked_sub (mkRational 1 6) (mkRational 1 4) = Err SubOverflow.
Proof.
  destruct (rational_sums_exact (mkRational 1 6) (mkRational 1 4)) as [-> ->].
  - split; cbn; unfold in_range; lia.
  - split; cbn; unfold in_range; lia.
  - split; by vm_compute.
Defined.

(** * Order *)

Lemma cross_ok a b :
  in_range 128 (rn a) -> in_range 128 (rd b) ->
  exists w, cross a b = Some w /\ big_ok w /\ val w = rn a * rd b.
Proof.
  intros Ha Hb. destruct (from_u128_ok _ Ha) as [Hao Hav], (from_u128_ok _ Hb) as [Hbo Hbv].
  destruct (mul_ok (from_u128 (rn a)) (from_u128 (rd b))) as (w & E & Hok & _ & Hv);
    [by apply big_limbs_ok..|].
  exists w. split; [done|]. split; [by apply limbs_big_ok | by rewrite Hv, Hav, Hbv].
Qed.

Definition in_range2 (a : Rational128) : Prop := in_range 128 (rn a) /\ in_range 128 (rd a).

Lemma is_zero_val x : big_ok x -> is_zero x = (val x =? 0).
Proof.
  intros Hx. destruct x as [l]. unfold is_zero; cbn [digits].
  assert (E : forallb (fun d => d =? 0) l = true <-> l = replicate (length l) 0).
  { clear Hx. induction l as [|d l IH]; cbn; [done|]. rewrite andb_true_iff, IH, Z.eqb_eq.
    split; [intros [-> <-]; done | intros [= -> H]; done]. }
  pose proof (first_nonzero_spec l) as Hf. destruct (first_nonzero l) as [i|].
  - destruct Hf as (Hi & Ht & d & k & Hd & Hne).
    assert (Hv : val (mkBig l) = val (mkBig (d :: k))).
    { rewrite <- (take_drop i l), Ht, Hd. apply val_zeros. }
    assert (big_ok (mkBig (d :: k))) as Hk by (unfold big_ok; cbn [digits]; rewrite <- Hd; by apply Forall_drop).
    pose proof (val_lead d k Hk Hne). pose proof (B_pow_pos (length k)).
    rewrite (proj2 (Z.eqb_neq _ _)) by lia. apply not_true_iff_false. rewrite E. intros El.
    rewrite El, drop_replicate in Hd. destruct (length l - i)%nat; cbn in Hd; simplify_eq.
  - rewrite (proj2 E Hf), Hf, val_replicate. done.
Qed.

Lemma compare_scale x y c : 0 < c -> (x * c ?= y * c) = (x ?= y).
Proof. intros. symmetry. apply Zmult_compare_compat_r. lia. Qed.

Lemma rational_cmp_ok a b :
  in_range2 a -> in_range2 b ->
  rational_cmp a b = Some (
    if rd a =? rd b then rn a ?= rn b
    else if rd a =? 0 then Gt else if rd b =? 0 then Lt
    else rn a * rd b ?= rn b * rd a).
Proof.
  intros [Han Had] [Hbn Hbd]. unfold rational_cmp. repeat (case_match; [done|]).
  destruct (cross_ok a b Han Hbd) as (x & -> & Hx & Vx), (cross_ok b a Hbn Had) as (y & -> & Hy & Vy).
  cbn. by rewrite cmp_ok, Vx, Vy.
Qed.

Lemma infinite_cmp_ok a b :
  big_ok (inf_n a) -> big_ok (inf_d a) -> big_ok (inf_n b) -> big_ok (inf_d b) ->
  infinite_cmp a b = Some (
    if val (inf_d a) =? val (inf_d b) then val (inf_n a) ?= val (inf_n b)
    else if val (inf_d a) =? 0 then Gt else if val (inf_d b) =? 0 then Lt
    else val (inf_n a) * val (inf_d b) ?= val (inf_n b) * val (inf_d a)).
Proof.
  intros Han Had Hbn Hbd. unfold infinite_cmp. rewrite !cmp_ok, !is_zero_val by done.
  destruct (mul_ok (inf_n a) (inf_d b)) as (x & Ex & Hx & _ & Vx); [by apply big_limbs_ok..|].
  destruct (mul_ok (inf_n b) (inf_d a)) as (y & Ey & Hy & _ & Vy); [by apply big_limbs_ok..|].
  rewrite Ex. cbn [mbind option_bind]. rewrite Ey. cbn [mbind option_bind].
  rewrite (cmp_ok x y), Vx, Vy by (by apply limbs_big_ok).
  rewrite (Z.eqb_compare (val (inf_d a)) (val (inf_d b))). destruct (val (inf_d a) ?= val (inf_d b)); [done | |]; by repeat case_match.
Qed.

(** The order of rationals is the order of the fractions, by cross multiplication in
    arbitrary precision, whenever the denominators are positive; equality is consistent
    with it, a zero denominator counts as infinite, and [RationalInfinite] orders
    [Rational128] values the same way. *)
Theorem rational_order_correct a b :
  in_range2 a -> in_range2 b ->
  (0 < rd a -> 0 < rd b ->
   rational_cmp a b = Some (rn a * rd b ?= rn b * rd a) /\
   rational_eq a b = Some (rn a * rd b =? rn b * rd a)) /\
  (rd a = 0 -> rd b <> 0 -> rational_cmp a b = Some Gt /\ rational_cmp b a = Some Lt) /\
  infinite_cmp (infinite_of_128 a) (infinite_of_128 b) = rational_cmp a b.
Proof.
  intros Ha Hb. pose proof Ha as [Han Had]. pose proof Hb as [Hbn Hbd]. split; [| split].
  - intros Hpa Hpb. rewrite rational_cmp_ok by done. unfold rational_eq.
    destruct (Z.eqb_spec (rd a) (rd b)) as [E|E].
    + rewrite <- E, !Z.eqb_compare, compare_scale by done. done.
    + rewrite !(proj2 (Z.eqb_neq _ 0)) by lia. split; [done|].
      destruct (cross_ok a b Han Hbd) as (x & -> & Hx & Vx), (cross_ok b a Hbn Had) as (y & -> & Hy & Vy).
      cbn. rewrite cmp_ok, Vx, Vy, Z.eqb_compare by done. done.
  - intros Ea Eb. rewrite !rational_cmp_ok by done.
    rewrite (Z.eqb_sym (rd b)), Ea, (Z.eqb_sym 0), (proj2 (Z.eqb_neq (rd b) 0)) by done. done.
  - destruct (from_u128_ok _ Han) as [Hano Hanv], (from_u128_ok _ Had) as [Hado Hadv].
    destruct (from_u128_ok _ Hbn) as [Hbno Hbnv], (from_u128_ok _ Hbd) as [Hbdo Hbdv].
    rewrite infinite_cmp_ok, rational_cmp_ok by done. cbn [infinite_of_128 inf_n inf_d].
    by rewrite Hanv, Hadv, Hbnv, Hbdv.
Qed.

Lemma rational_order_correct_witness :
  rational_cmp (mkRational (umax 128) (umax 128 - 1)) (mkRational (umax 128 - 1) (umax 128 - 2)) = Some Lt.
Proof.
  destruct (rational_order_correct (mkRational (umax 128) (umax 128 - 1))
    (mkRational (umax 128 - 1) (umax 128 - 2))) as [H _].
  - split; cbn; unfold in_range, umax; lia.
  - split; cbn; unfold in_range, umax; lia.
  - destruct H as [-> _]; [cbn; unfold umax; lia | cbn; unfold umax; lia | by vm_compute].
Defined.

(** With a zero denominator equality and order disagree, and equality is not transitive. *)
Theorem zero_denominator_equals_all :
  rational_eq (from_unchecked 0 0) (from_unchecked 5 3) = Some true /\
  rational_cmp (from_unchecked 0 0) (from_unchecked 5 3) = Some Gt /\
  rational_eq (from_unchecked 0 0) (from_unchecked 1 2) = Some true /\
  rational_eq (from_unchecked 5 3) (from_unchecked 1 2) = Some false.
Proof. by vm_compute. Qed.

(** [to_den] rounds when the new denominator is no multiple of the old. *)
Theorem to_den_inexact : to_den (mkRational 1 2) 3 = Ok (mkRational 1 3).
Proof. by vm_compute. Qed.
