(* ===== verification/PerThings.v ===== *)
(** Parts per thing (primitives/arithmetic/src/per_things.rs): [Percent], [PerU16],
    [Permill], [Perbill] and [Perquintill], fractions in [0, 1] stored as a number of parts,
    their multiplication with integers, their division, powers and construction from
    rationals, and the normalisation of a vector of them (lib.rs).

    A value is its number of parts.  [None] is a panic (a division by zero); an integer
    argument type [N] is given by its width. *)

From stdpp Require Import base numbers list option.
From S2P Require Import Prelude Arith128 BigUint Rational Normalize.

Local Open Scope Z_scope.
Local Open Scope rust_scope.

(** * Definitions *)

(** The parameters of [implement_per_thing!]: the accuracy and the widths of the inner and
    the upper type *)
Class PerThing := { ACCURACY : Z; inner_w : Z; upper_w : Z }.

(** What the macro's users guarantee: the accuracy is a value of the inner type, and the
    upper type holds products of two values of the inner type. *)
Class PerThingOk `{PerThing} := {
  inner_pos : 0 < inner_w;
  upper_double : 2 * inner_w <= upper_w;
  accuracy_hundred : 100 <= ACCURACY;
  accuracy_fits : ACCURACY < 2 ^ inner_w
}.

Definition Percent : PerThing := {| ACCURACY := 100; inner_w := 8; upper_w := 16 |}.
Definition PerU16 : PerThing := {| ACCURACY := 65535; inner_w := 16; upper_w := 32 |}.
Definition Permill : PerThing := {| ACCURACY := 1000000; inner_w := 32; upper_w := 64 |}.
Definition Perbill : PerThing := {| ACCURACY := 1000000000; inner_w := 32; upper_w := 64 |}.
Definition Perquintill : PerThing :=
  {| ACCURACY := 1000000000000000000; inner_w := 64; upper_w := 128 |}.

Definition saturating_mul (w a b : Z) : Z := Z.min (umax w) (a * b).
Definition saturated_into (w a : Z) : Z := Z.min (umax w) a.

Inductive SignedRounding :=
| High | Low | NearestPrefHigh | NearestPrefLow | Major | Minor | NearestPrefMajor | NearestPrefMinor.

Definition from_signed (r : SignedRounding) (negative : bool) : Rounding :=
  match r, negative with
  | Low, true | Major, _ | High, false => Up
  | High, true | Minor, _ | Low, false => Down
  | NearestPrefMajor, _ | NearestPrefHigh, false | NearestPrefLow, true => NearestPrefUp
  | NearestPrefMinor, _ | NearestPrefLow, false | NearestPrefHigh, true => NearestPrefDown
  end.

Section per_thing.
Context `{PerThing}.

Definition from_parts (parts : Z) : Z := Z.min parts ACCURACY.
Definition per_zero : Z := from_parts 0.
Definition per_one : Z := from_parts ACCURACY.
Definition per_is_zero (p : Z) : bool := p =? 0.
Definition per_is_one (p : Z) : bool := p =? ACCURACY.

Definition less_epsilon (p : Z) : Z := if per_is_zero p then p else from_parts (p - 1).
Definition try_less_epsilon (p : Z) : Z + Z :=
  if per_is_zero p then inr p else inl (from_parts (p - 1)).
Definition plus_epsilon (p : Z) : Z := if per_is_one p then p else from_parts (p + 1).
Definition try_plus_epsilon (p : Z) : Z + Z :=
  if per_is_one p then inr p else inl (from_parts (p + 1)).

Definition from_rational_with_rounding (wn p q : Z) (r : Rounding) : res unit Z :=
  if q =? 0 then Err tt
  else if q <? p then Err tt
  else
    let? v := multiply_rational wn ACCURACY p q r in
    if v <? 2 ^ inner_w then Ok v else Err tt.

(** [unwrap_or_else(|_| Self::one())] *)
Definition or_one (r : res unit Z) : option Z :=
  match r with Ok v => Some v | Err _ => Some per_one | Panic => None end.

Definition from_rational (wn p q : Z) : option Z := or_one (from_rational_with_rounding wn p q Down).

(** The function of the trait and the constant function of the type *)
Definition from_percent_trait (x : Z) : option Z := from_rational inner_w (Z.min x 100) 100.
Definition from_percent (x : Z) : Z :=
  wrap inner_w (wmul upper_w (if 100 <? x then 100 else x) ACCURACY / 100).

Definition square (p : Z) : option Z :=
  from_rational upper_w (wmul upper_w p p) (wmul upper_w ACCURACY ACCURACY).

Definition rational_mul_correction (x numer denom : Z) (rounding : Rounding) : option Z :=
  if denom =? 0 then None
  else
    let rem := x mod denom in
    let rem_inner := saturated_into inner_w rem in
    let rem_mul_upper := wmul upper_w rem_inner numer in
    let rem_mul_div_inner := saturated_into inner_w (rem_mul_upper / denom) in
    let bump :=
      match rounding with
      | Down => false
      | Up => 0 <? rem_mul_upper mod denom
      | NearestPrefDown => denom / 2 <? rem_mul_upper mod denom
      | NearestPrefUp => wadd upper_w (denom / 2) (denom mod 2) <=? rem_mul_upper mod denom
      end in
    Some (if bump then wadd inner_w rem_mul_div_inner 1 else rem_mul_div_inner).

Definition overflow_prune_mul (wn x part : Z) (rounding : Rounding) : option Z :=
  c ← rational_mul_correction x part ACCURACY rounding;
  Some (wadd wn (wmul wn (x / ACCURACY) part) c).

Definition saturating_reciprocal_mul_with (wn x part : Z) (rounding : Rounding) : option Z :=
  c ← rational_mul_correction x ACCURACY part rounding;
  Some (saturating_add wn (saturating_mul wn (x / part) ACCURACY) c).

Definition mul_floor (wn p b : Z) : option Z := overflow_prune_mul wn b p Down.
Definition mul_ceil (wn p b : Z) : option Z := overflow_prune_mul wn b p Up.
(** [ops::Mul<N>] *)
Definition mul_nearest (wn p b : Z) : option Z := overflow_prune_mul wn b p NearestPrefDown.
Definition saturating_reciprocal_mul (wn p b : Z) : option Z :=
  saturating_reciprocal_mul_with wn b p NearestPrefUp.
Definition saturating_reciprocal_mul_floor (wn p b : Z) : option Z :=
  saturating_reciprocal_mul_with wn b p Down.
Definition saturating_reciprocal_mul_ceil (wn p b : Z) : option Z :=
  saturating_reciprocal_mul_with wn b p Up.

Definition int_mul (p b : Z) : Z := from_parts (saturating_mul inner_w p b).
Definition int_div (p b : Z) : option Z := if b =? 0 then None else Some (p / b).
Definition saturating_div (p q : Z) (r : Rounding) : option Z :=
  or_one (from_rational_with_rounding inner_w p q r).

Definition per_saturating_add (p q : Z) : Z := from_parts (saturating_add inner_w p q).
Definition per_saturating_sub (p q : Z) : Z := from_parts (saturating_sub p q).
Definition left_from_one (p : Z) : Z := per_saturating_sub per_one p.

(** [ops::Mul] *)
Definition per_mul (p q : Z) : Z := from_parts (wrap inner_w (wmul upper_w p q / ACCURACY)).

(** [ops::Div] by a per-thing and by an integer of width [wn] *)
Definition per_div (p q : Z) : option Z := from_rational inner_w p q.
Definition per_div_int (p b : Z) : option Z :=
  if b <? 2 ^ inner_w then if b =? 0 then None else Some (from_parts (p / b)) else Some per_zero.

Definition per_add (p q : Z) : Z := from_parts (wadd inner_w p q).
Definition per_sub (p q : Z) : Z := from_parts (wsub inner_w p q).
Definition per_checked_add (p q : Z) : option Z :=
  inner ← checked_add inner_w p q;
  if ACCURACY <? inner then None else Some (from_parts inner).
Definition per_checked_sub (p q : Z) : option Z := from_parts <$> checked_sub p q.

(** [Decode]: of the decoded inner value *)
Definition decode_parts (inner : Z) : option Z := if inner <=? ACCURACY then Some inner else None.

Fixpoint pow_loop (fuel : nat) (self result exp : Z) : option Z :=
  if (0 <? exp) && negb (per_is_zero result) then
    match fuel with
    | O => None
    | S fuel =>
        let '(result, exp) :=
          if negb (exp mod 2 =? 0) then (per_mul result self, exp - 1) else (result, exp) in
        self ← square self;
        pow_loop fuel self result (exp / 2)
    end
  else Some result.

(** [Pow]: one round for every bit of the exponent *)
Definition pow (self exp : Z) : option Z :=
  if (exp =? 0) || per_is_one self then Some per_one
  else pow_loop (S (Z.to_nat (Z.log2 exp))) self self (exp - 1).

(** [Normalizable] for a vector of per-things: the sum is computed in the upper type. *)
Definition normalize_per_things (input : list Z) (targeted_sum : Z) : res NormalizeError (list Z) :=
  let? normalized := normalize upper_w input targeted_sum in
  Ok ((fun i => from_parts (saturated_into inner_w i)) <$> normalized).

End per_thing.

#[export] Instance Percent_ok : @PerThingOk Percent.
Proof. by split. Qed.
#[export] Instance PerU16_ok : @PerThingOk PerU16.
Proof. by split. Qed.
#[export] Instance Permill_ok : @PerThingOk Permill.
Proof. by split. Qed.
#[export] Instance Perbill_ok : @PerThingOk Perbill.
Proof. by split. Qed.
#[export] Instance Perquintill_ok : @PerThingOk Perquintill.
Proof. by split. Qed.

(** * Rounding *)

Lemma round_div_add r k n c : 0 < c -> round_div r (k * c + n) c = k + round_div r n c.
Proof.
  intros Hc. rewrite !round_div_bump by done.
  rewrite (Z.add_comm (k * c)), Z.div_add, Z_mod_plus_full by lia. lia.
Qed.

Lemma rounds_up_zero r c : 0 < c -> rounds_up r 0 c = false.
Proof.
  intros Hc. pose proof (Z.div_mod c 2 ltac:(lia)). pose proof (Z.mod_pos_bound c 2 ltac:(lia)).
  destruct r; cbn [rounds_up]; try done; [apply Z.leb_gt | apply Z.ltb_ge]; lia.
Qed.

(** A quotient of at most [x] rounds to at most [x]. *)
Lemma round_div_le r n c x : 0 < c -> 0 <= n <= x * c -> 0 <= round_div r n c <= x.
Proof.
  intros Hc Hn. rewrite round_div_bump by done.
  pose proof (Z.div_mod n c ltac:(lia)). pose proof (Z.mod_pos_bound n c Hc).
  assert (0 <= n / c) by (apply Z.div_pos; lia).
  destruct (Z.eq_dec (n mod c) 0) as [E|].
  - rewrite E, rounds_up_zero by done. nia.
  - assert (n / c < x) by nia. destruct (rounds_up _ _ _); lia.
Qed.

Section proofs.
Context `{PerThingOk}.

Definition valid (p : Z) : Prop := 0 <= p <= ACCURACY.

Lemma upper_square : 2 ^ inner_w * 2 ^ inner_w <= 2 ^ upper_w.
Proof.
  pose proof inner_pos. pose proof upper_double.
  rewrite <- Z.pow_add_r by lia. apply Z.pow_le_mono_r; lia.
Qed.

Lemma inner_le w : inner_w <= w -> 2 ^ inner_w <= 2 ^ w.
Proof. intros. apply Z.pow_le_mono_r; lia. Qed.

Lemma product_fits a b :
  0 <= a < 2 ^ inner_w -> 0 <= b < 2 ^ inner_w -> wmul upper_w a b = a * b.
Proof.
  intros. apply wrap_small. pose proof upper_square. unfold in_range. nia.
Qed.

(** The correction is the rounded share of the remainder, without overflow. *)
Lemma correction_ok x numer denom r :
  0 < denom < 2 ^ inner_w -> 0 <= numer < 2 ^ inner_w ->
  rational_mul_correction x numer denom r = Some (round_div r ((x mod denom) * numer) denom) /\
  0 <= round_div r ((x mod denom) * numer) denom <= numer.
Proof.
  intros Hd Hn. unfold rational_mul_correction. rewrite (proj2 (Z.eqb_neq _ _)) by lia.
  pose proof (Z.mod_pos_bound x denom ltac:(lia)) as Hm. set (m := x mod denom) in *.
  unfold saturated_into, umax. rewrite (Z.min_r _ m) by lia. rewrite product_fits by lia.
  pose proof (Z.div_mod denom 2 ltac:(lia)). pose proof (Z.mod_pos_bound denom 2 ltac:(lia)).
  pose proof upper_square. assert (1 < 2 ^ inner_w) by (apply Z.pow_gt_1; [lia | apply inner_pos]).
  rewrite (wadd_small upper_w) by (unfold in_range; nia).
  assert (Hle : 0 <= round_div r (m * numer) denom <= numer) by (apply round_div_le; nia).
  split; [| done]. f_equal. fold (rounds_up r ((m * numer) mod denom) denom).
  rewrite round_div_bump in * by lia.
  assert (0 <= m * numer / denom) by (apply Z.div_pos; nia).
  destruct (rounds_up _ _ _); rewrite Z.min_r by lia; [| lia].
  apply wadd_small. unfold in_range. lia.
Qed.

Lemma mul_exact wn x part r :
  inner_w <= wn -> in_range wn x -> valid part ->
  overflow_prune_mul wn x part r = Some (round_div r (x * part) ACCURACY) /\
  0 <= round_div r (x * part) ACCURACY <= x.
Proof.
  intros Hw Hx Hp. pose proof accuracy_hundred. pose proof accuracy_fits. unfold valid, in_range in *.
  destruct (correction_ok x part ACCURACY r) as [Hc Hcb]; [lia | lia |].
  assert (Hle : 0 <= round_div r (x * part) ACCURACY <= x) by (apply round_div_le; nia).
  split; [| done]. unfold overflow_prune_mul. rewrite Hc. cbn. f_equal.
  assert (HA : 0 < ACCURACY) by lia. assert (Hdm := Z_div_mod_eq_full x ACCURACY).
  assert (0 <= x / ACCURACY) by (apply Z.div_pos; lia).
  pose proof (Z.mod_pos_bound x ACCURACY HA).
  assert (E : round_div r (x * part) ACCURACY
    = x / ACCURACY * part + round_div r (x mod ACCURACY * part) ACCURACY).
  { rewrite <- round_div_add by lia. f_equal. rewrite Hdm at 1. ring. }
  unfold wmul. rewrite (wrap_small wn (_ * part)) by (unfold in_range; nia).
  rewrite wadd_small by (unfold in_range; lia). done.
Qed.

Lemma reciprocal_exact wn x part r :
  inner_w <= wn -> in_range wn x -> valid part -> part <> 0 ->
  saturating_reciprocal_mul_with wn x part r
  = Some (Z.min (umax wn) (round_div r (x * ACCURACY) part)).
Proof.
  intros Hw Hx Hp Hp0. pose proof accuracy_hundred. pose proof accuracy_fits. unfold valid, in_range in *.
  destruct (correction_ok x ACCURACY part r) as [Hc Hcb]; [lia | lia |].
  unfold saturating_reciprocal_mul_with. rewrite Hc. cbn. f_equal.
  pose proof (Z.div_mod x part ltac:(lia)) as Hdm.
  assert (E : round_div r (x * ACCURACY) part
    = x / part * ACCURACY + round_div r (x mod part * ACCURACY) part).
  { rewrite <- round_div_add by lia. f_equal. rewrite Hdm at 1. ring. }
  unfold saturating_add, saturating_mul. lia.
Qed.

Lemma from_rational_ok wn p q r :
  inner_w <= wn -> in_range wn p -> in_range wn q ->
  from_rational_with_rounding wn p q r =
    (if (q =? 0) || (q <? p) then Err tt else Ok (round_div r (ACCURACY * p) q)) /\
  (0 < q -> p <= q -> valid (round_div r (ACCURACY * p) q)).
Proof.
  intros Hw Hp Hq. pose proof accuracy_hundred. pose proof accuracy_fits. pose proof inner_pos.
  pose proof (inner_le wn Hw). unfold in_range in *.
  assert (Hv : 0 < q -> p <= q -> valid (round_div r (ACCURACY * p) q))
    by (intros; apply round_div_le; nia).
  split; [| done]. unfold from_rational_with_rounding.
  destruct (Z.eqb_spec q 0); [done|]. cbn [orb]. destruct (Z.ltb_spec q p); [done|].
  specialize (Hv ltac:(lia) ltac:(lia)). unfold valid in Hv.
  rewrite multiply_rational_ok by (unfold in_range; lia). unfold rounded.
  rewrite (proj2 (Z.eqb_neq _ _)), (proj2 (Z.leb_gt _ _)) by lia. cbn.
  by rewrite (proj2 (Z.ltb_lt _ _)) by lia.
Qed.

Lemma from_rational_down wn p q :
  inner_w <= wn -> in_range wn p -> in_range wn q -> 0 < q -> p <= q ->
  from_rational wn p q = Some (ACCURACY * p / q).
Proof.
  intros Hw Hp Hq Hq0 Hle. unfold from_rational.
  destruct (from_rational_ok wn p q Down Hw Hp Hq) as [-> _].
  rewrite (proj2 (Z.eqb_neq _ _)), (proj2 (Z.ltb_ge _ _)) by lia. done.
Qed.

Lemma per_one_eq : per_one = ACCURACY.
Proof. apply Z.min_id. Qed.

(** * Products and powers *)

Lemma parts_fit p : valid p -> 0 <= p < 2 ^ inner_w.
Proof. unfold valid. pose proof accuracy_fits. lia. Qed.

Lemma per_mul_ok p q : valid p -> valid q -> per_mul p q = p * q / ACCURACY /\ valid (p * q / ACCURACY).
Proof.
  intros Hp Hq. pose proof (parts_fit p Hp). pose proof (parts_fit q Hq).
  pose proof accuracy_hundred. pose proof accuracy_fits. unfold valid in *.
  assert (Hv : 0 <= p * q / ACCURACY <= ACCURACY).
  { split; [apply Z.div_pos; nia | apply Z.div_le_upper_bound; nia]. }
  split; [| done]. unfold per_mul, from_parts. rewrite product_fits, wrap_small by
    (unfold in_range; lia). lia.
Qed.

Lemma square_ok p : valid p -> square p = Some (p * p / ACCURACY).
Proof.
  intros Hp. pose proof (parts_fit p Hp). pose proof accuracy_hundred. pose proof accuracy_fits.
  pose proof upper_square. pose proof upper_double. pose proof inner_pos. unfold valid in *.
  unfold square. rewrite !product_fits by lia.
  rewrite from_rational_down; [| lia | unfold in_range; nia | unfold in_range; nia | nia | nia].
  f_equal. rewrite Z.div_mul_cancel_l by lia. done.
Qed.

(** [p] is at most the [e]-th power of [s], as fractions. *)
Definition below_pow (s p e : Z) : Prop := p * ACCURACY ^ e <= s ^ e * ACCURACY.

Lemma accuracy_pow e : 0 <= ACCURACY ^ e.
Proof. apply Z.pow_nonneg. pose proof accuracy_hundred. lia. Qed.

Lemma below_pow_mul s p q e f :
  valid p -> valid q -> 0 <= s -> 0 <= e -> 0 <= f ->
  below_pow s p e -> below_pow s q f -> below_pow s (p * q / ACCURACY) (e + f).
Proof.
  unfold below_pow, valid. intros Hp Hq Hs He Hf Hpe Hqf. pose proof accuracy_hundred.
  rewrite !Z.pow_add_r by lia.
  pose proof (accuracy_pow e). pose proof (accuracy_pow f).
  assert (Hm : (p * ACCURACY ^ e) * (q * ACCURACY ^ f) <= (s ^ e * ACCURACY) * (s ^ f * ACCURACY))
    by (apply Z.mul_le_mono_nonneg; nia).
  assert (Hd : p * q / ACCURACY * ACCURACY <= p * q)
    by (rewrite Z.mul_comm; apply Z.mul_div_le; lia).
  assert (0 < ACCURACY) by lia. apply (Z.mul_le_mono_pos_r _ _ ACCURACY); [done|].
  apply Z.le_trans with (p * q * (ACCURACY ^ e * ACCURACY ^ f)); [| lia].
  replace (p * q / ACCURACY * (ACCURACY ^ e * ACCURACY ^ f) * ACCURACY)
    with (p * q / ACCURACY * ACCURACY * (ACCURACY ^ e * ACCURACY ^ f)) by ring.
  apply Z.mul_le_mono_nonneg_r; [nia | done].
Qed.

Lemma below_pow_zero s e : 0 <= s -> below_pow s 0 e.
Proof. intros. unfold below_pow. pose proof accuracy_hundred. pose proof (Z.pow_nonneg s e). nia. Qed.

Lemma pow_loop_ok s fuel : forall self k result e n,
  0 <= s -> valid self -> valid result -> 0 < k -> 0 <= e -> 0 <= n < 2 ^ Z.of_nat fuel ->
  below_pow s self k -> below_pow s result e ->
  exists v, pow_loop fuel self result n = Some v /\ valid v /\ below_pow s v (e + k * n).
Proof.
  induction fuel as [|fuel IH]; intros self k result e n Hs Hself Hres Hk He Hn Hbs Hbr; cbn [pow_loop].
  { replace n with 0 in * by (cbn in Hn; lia). cbn. exists result. rewrite Z.mul_0_r, Z.add_0_r. done. }
  destruct (Z.ltb_spec 0 n) as [Hn0|]; cbn [andb].
  2:{ replace n with 0 by lia. exists result. by rewrite Z.mul_0_r, Z.add_0_r. }
  unfold per_is_zero. destruct (Z.eqb_spec result 0) as [->|]; cbn [negb].
  { exists 0. split; [done|]. split; [done|]. by apply below_pow_zero. }
  rewrite Nat2Z.inj_succ, Z.pow_succ_r in Hn by lia.
  pose proof (Z.div_mod n 2 ltac:(lia)). pose proof (Z.mod_pos_bound n 2 ltac:(lia)).
  destruct (per_mul_ok self self Hself Hself) as [_ Hsq].
  pose proof (below_pow_mul s self self k k Hself Hself Hs ltac:(lia) ltac:(lia) Hbs Hbs) as Hb2.
  destruct (per_mul_ok result self Hres Hself) as [Em Hm].
  pose proof (below_pow_mul s result self e k Hres Hself Hs ltac:(lia) ltac:(lia) Hbr Hbs) as Hb3.
  destruct (Z.eqb_spec (n mod 2) 0); cbn [negb]; rewrite square_ok by done; cbn [mbind option_bind].
  - replace (e + k * n) with (e + (k + k) * (n / 2)) by nia. apply IH; try done; lia.
  - rewrite Em. replace ((n - 1) / 2) with (n / 2) by (apply (Z.div_unique _ _ _ 0); lia).
    replace (e + k * n) with (e + k + (k + k) * (n / 2)) by nia. apply IH; try done; lia.
Qed.

Lemma pow_ok s e :
  valid s -> 0 <= e -> exists v, pow s e = Some v /\ valid v /\ below_pow s v e.
Proof.
  intros Hs He. unfold pow, per_is_one. pose proof accuracy_hundred.
  destruct (Z.eqb_spec e 0) as [->|]; cbn [orb].
  { exists per_one. rewrite per_one_eq. split; [done|]. unfold valid, below_pow. cbn. lia. }
  destruct (Z.eqb_spec s ACCURACY) as [->|].
  { exists per_one. rewrite per_one_eq. split; [done|]. unfold valid, below_pow. lia. }
  assert (Hb : below_pow s s 1) by (unfold below_pow; rewrite !Z.pow_1_r; lia).
  destruct (pow_loop_ok s (S (Z.to_nat (Z.log2 e))) s 1 s 1 (e - 1)) as (v & -> & Hv & Hbv);
    try done; try lia; [apply Hs | |].
  - rewrite Nat2Z.inj_succ, Z2Nat.id by apply Z.log2_nonneg.
    pose proof (Z.log2_spec e ltac:(lia)). lia.
  - exists v. by replace (1 + 1 * (e - 1)) with e in Hbv by lia.
Qed.

(** * Construction and normalisation *)

Lemma from_percent_agrees x :
  0 <= x < 2 ^ inner_w -> from_percent_trait x = Some (from_percent x).
Proof.
  intros Hx. pose proof accuracy_hundred. pose proof accuracy_fits.
  unfold from_percent_trait, from_percent.
  rewrite from_rational_down; [| lia | unfold in_range; lia | unfold in_range; lia | lia | lia].
  replace (if 100 <? x then 100 else x) with (Z.min x 100) by (destruct (Z.ltb_spec 100 x); lia).
  rewrite product_fits, (Z.mul_comm ACCURACY), wrap_small; [done | | lia | lia].
  split; [apply Z.div_pos; nia | apply Z.div_lt_upper_bound; nia].
Qed.

Lemma normalize_per_things_ok input target :
  Forall valid input -> valid target -> input <> [] ->
  zsum input < 2 ^ upper_w -> Z.of_nat (length input) < 2 ^ upper_w ->
  exists l, normalize_per_things input target = Ok l /\ normalized input target l /\ Forall valid l.
Proof.
  intros Hin Ht Hne Hs Hc. pose proof upper_square. pose proof accuracy_fits. pose proof inner_pos.
  pose proof upper_double. assert (Hfit : forall p, valid p -> in_range upper_w p).
  { intros p Hp. pose proof (parts_fit p Hp). unfold in_range. nia. }
  destruct (normalize_ok upper_w input target) as (l & E & Hl); try done; try lia.
  { by eapply Forall_impl. } { by apply Hfit. }
  { destruct input; [done | cbn; lia]. }
  assert (Hv : Forall valid l).
  { destruct Hl as (_ & Hsum & Hnn & _). apply Forall_lookup. intros i v Hi. split.
    - by apply (Forall_lookup_1 _ _ _ _ Hnn Hi).
    - pose proof (zsum_elem l i v Hnn Hi). unfold valid in Ht. lia. }
  exists l. split; [| done]. unfold normalize_per_things. rewrite E. cbn. f_equal.
  rewrite <- (list_fmap_id l) at 2. apply list_fmap_ext. intros i v Hi.
  pose proof (Forall_lookup_1 _ _ _ _ Hv Hi) as Hvi. pose proof (parts_fit v Hvi).
  unfold valid, from_parts, saturated_into, umax in *. cbn. lia.
Qed.

End proofs.

(** * Theorems *)

(** [C32] Multiplying an integer by a per-thing gives the product rounded as asked, and
    multiplying by the reciprocal gives the rounded quotient saturated at the maximum of the
    type, for every width and without overflow on the way; a zero reciprocal panics. *)
Theorem per_thing_mul_correct `{PerThingOk} wn p b r :
  inner_w <= wn -> in_range wn b -> valid p ->
  overflow_prune_mul wn b p r = Some (round_div r (b * p) ACCURACY) /\
  0 <= round_div r (b * p) ACCURACY <= b /\
  saturating_reciprocal_mul_with wn b p r =
    (if p =? 0 then None else Some (Z.min (umax wn) (round_div r (b * ACCURACY) p))).
Proof.
  intros Hw Hb Hp. destruct (mul_exact wn b p r Hw Hb Hp) as [? ?]. split; [done|]. split; [done|].
  destruct (Z.eqb_spec p 0) as [->|]; [done | by apply reciprocal_exact].
Qed.

Lemma per_thing_mul_correct_witness :
  overflow_prune_mul (H := Perbill) 128 (umax 128) 999999999 Up
    = Some (round_div Up (umax 128 * 999999999) 1000000000) /\
  saturating_reciprocal_mul_with (H := Percent) 8 200 50 Down = Some 255.
Proof.
  split.
  - apply (per_thing_mul_correct (H := Perbill) 128 999999999 (umax 128) Up); [done | done |].
    by unfold valid.
  - destruct (per_thing_mul_correct (H := Percent) 8 50 200 Down) as (_ & _ & ->);
      [done | by unfold in_range; lia | by unfold valid; cbn; lia |]. by vm_compute.
Defined.

(** A per-thing built from a rational holds the rounded number of parts and is refused
    exactly for a zero denominator or a fraction above one; the two ways to build it from a
    percentage agree; and a normalised vector has the target as its sum, with no part
    clipped. *)
Theorem per_thing_from_rational_correct `{PerThingOk} wn p q r input target :
  inner_w <= wn -> in_range wn p -> in_range wn q ->
  Forall valid input -> valid target -> input <> [] ->
  zsum input < 2 ^ upper_w -> Z.of_nat (length input) < 2 ^ upper_w ->
  from_rational_with_rounding wn p q r =
    (if (q =? 0) || (q <? p) then Err tt else Ok (round_div r (ACCURACY * p) q)) /\
  from_rational wn p q = Some (if (q =? 0) || (q <? p) then ACCURACY else ACCURACY * p / q) /\
  (forall x, 0 <= x < 2 ^ inner_w -> from_percent_trait x = Some (from_percent x)) /\
  exists l, normalize_per_things input target = Ok l /\ normalized input target l /\ Forall valid l.
Proof.
  intros Hw Hp Hq Hin Ht Hne Hs Hl. split; [by apply from_rational_ok|]. split; [| split].
  - unfold from_rational. destruct (from_rational_ok wn p q Down Hw Hp Hq) as [-> _].
    destruct (_ || _); [apply (f_equal Some), per_one_eq | done].
  - intros. by apply from_percent_agrees.
  - by apply normalize_per_things_ok.
Qed.

Lemma per_thing_from_rational_correct_witness :
  from_rational_with_rounding (H := Percent) 64 985 1000 NearestPrefUp = Ok 99 /\
  exists l, normalize_per_things (H := Percent) [33; 33; 33] 100 = Ok l /\ zsum l = 100.
Proof.
  destruct (per_thing_from_rational_correct (H := Percent) 64 985 1000 NearestPrefUp [33; 33; 33] 100)
    as (-> & _ & _ & l & E & (_ & Hs & _) & _).
  - done.
  - by unfold in_range; lia.
  - by unfold in_range; lia.
  - by repeat constructor.
  - by unfold valid; cbn; lia.
  - done.
  - done.
  - done.
  - split; [by vm_compute|]. by exists l.
Defined.

(** Exponentiation by squaring ends after one round for every bit of the exponent; its
    result is a per-thing, one for the exponent zero and for the base one, and never above
    the exact power. *)
Theorem pow_correct `{PerThingOk} s e :
  valid s -> 0 <= e ->
  exists v, pow s e = Some v /\ valid v /\ v * ACCURACY ^ e <= s ^ e * ACCURACY /\
    (e = 0 \/ s = ACCURACY -> v = ACCURACY).
Proof.
  intros Hs He. destruct (pow_ok s e Hs He) as (v & E & Hv & Hb). exists v.
  split; [done|]. split; [done|]. split; [done|]. intros Hor. unfold pow, per_is_one in E.
  assert ((e =? 0) || (s =? ACCURACY) = true) as Ht
    by (destruct Hor as [-> | ->]; [done | by rewrite Z.eqb_refl, orb_true_r]).
  rewrite Ht, per_one_eq in E. congruence.
Qed.

Lemma pow_correct_witness : exists v, pow (H := Perbill) 500000000 10 = Some v /\ v = 976562.
Proof.
  destruct (pow_correct (H := Perbill) 500000000 10) as (v & E & _).
  - by unfold valid; cbn; lia.
  - lia.
  - exists v. split; [exact E|]. revert E. vm_compute. congruence.
Defined.

(** The parts of two [PerU16] do not fit its inner type, and their sum wraps around. *)
Theorem peru16_add_wraps :
  umax (inner_w (PerThing := PerU16)) < 2 * ACCURACY (PerThing := PerU16) /\
  per_add (H := PerU16) (per_one (H := PerU16)) 1 = 0.
Proof. by vm_compute. Qed.
