(* ===== verification/NonCanonical.v ===== *)
(** The overlay of blocks that are not canonical yet (client/state-db/src/noncanonical.rs).

    The overlay keeps a window of levels, one per block number above the last canonicalized
    block; a level holds the change sets of the blocks of that number.  Values of all change
    sets are kept once, with a counter.  Canonicalizing a block writes its changes out and
    discards its siblings with all their descendants; the values of a discarded block that is
    pinned, or has a pinned descendant, are kept until it is unpinned.

    Keys are hashes of values: [content] gives the value of a key, which the source relies
    on (its [debug_assert] in insert_values).  Metadata is kept decoded: the journal key
    [JournalKey n i] and the value [JournalRecordOf r] stand for their SCALE encodings. *)

From stdpp Require Import base numbers list option gmap sets fin_maps strings.
From S2P Require Import Prelude.

Local Open Scope Z_scope.
Local Open Scope rust_scope.

(** * Definitions *)

Definition MAX_BLOCKS_PER_LEVEL : Z := 32.

Record Constraints := mkConstraints { max_blocks : option Z }.

Inductive PruningMode :=
| Constrained (c : Constraints)
| ArchiveAll
| ArchiveCanonical.

#[export] Instance Constraints_eq_dec : EqDecision Constraints.
Proof. solve_decision. Defined.
#[export] Instance PruningMode_eq_dec : EqDecision PruningMode.
Proof. solve_decision. Defined.

Inductive StateDbError :=
| Decoding
| InvalidBlock
| InvalidBlockNumber
| InvalidParent
| IncompatiblePruningModes (stored requested : PruningMode)
| TooManySiblingBlocks (number : Z)
| BlockAlreadyExists
| Metadata
| BlockUnavailable
| BlockMissing.

Inductive Error (E : Type) := Db (e : E) | StateDb (e : StateDbError).
Arguments Db {E}.
Arguments StateDb {E}.

(** The keys of the metadata column: [to_meta_key] of a suffix and its data *)
Inductive MetaKey :=
| LastCanonicalKey
| JournalKey (block index : Z)
| LastPrunedKey
| PruningJournalKey (block : Z)
| PruningModeKey.

#[export] Instance MetaKey_eq_dec : EqDecision MetaKey.
Proof. solve_decision. Defined.

Section noncanonical.
Context {BlockHash Key DBValue : Type} `{Countable BlockHash} `{Countable Key}.

Record JournalRecord := mkJournal {
  jr_hash : BlockHash; jr_parent_hash : BlockHash;
  jr_inserted : list (Key * DBValue); jr_deleted : list Key
}.

Inductive MetaValue :=
| LastCanonicalOf (hash : BlockHash) (number : Z)
| JournalRecordOf (r : JournalRecord)
| LastPrunedOf (number : Z)
| PruningRecordOf (hash : BlockHash) (inserted deleted : list Key)
| PruningModeOf (id : string).

Record ChangeSet (K X : Type) := mkChangeSet { cs_inserted : list (K * X); cs_deleted : list K }.
Arguments mkChangeSet {K X}.
Arguments cs_inserted {K X}.
Arguments cs_deleted {K X}.

Record CommitSet := mkCommit {
  data : ChangeSet Key DBValue;
  meta : ChangeSet MetaKey MetaValue
}.

Definition default_commit : CommitSet := mkCommit (mkChangeSet [] []) (mkChangeSet [] []).

Record BlockOverlay := mkOverlay {
  hash : BlockHash; journal_index : Z; journal_key : MetaKey;
  inserted : list Key; deleted : list Key
}.

#[global] Instance BlockOverlay_eq_dec : EqDecision BlockOverlay.
Proof. solve_decision. Defined.

Record OverlayLevel := mkLevel { blocks : list BlockOverlay; used_indicies : Z }.

Definition level_push (l : OverlayLevel) (o : BlockOverlay) : OverlayLevel :=
  mkLevel (blocks l ++ [o]) (Z.lor (used_indicies l) (wrap 64 (Z.shiftl 1 (journal_index o)))).

(** [trailing_ones] of a [u64] *)
Fixpoint trailing_ones (fuel : nat) (n : Z) : Z :=
  match fuel with
  | O => 0
  | S fuel => if Z.odd n then 1 + trailing_ones fuel (Z.shiftr n 1) else 0
  end.

Definition available_index (l : OverlayLevel) : Z := trailing_ones 64 (used_indicies l).

(** [Vec::remove] at an index in range *)
Definition level_remove (l : OverlayLevel) (i : nat) : option (BlockOverlay * OverlayLevel) :=
  o ← blocks l !! i;
  Some (o, mkLevel (delete i (blocks l))
             (Z.land (used_indicies l) (wrap 64 (Z.lnot (wrap 64 (Z.shiftl 1 (journal_index o))))))).

Definition new_level : OverlayLevel := mkLevel [] 0.

Abbreviation Values := (gmap Key (Z * DBValue)).

Definition insert_value (values : Values) (kv : Key * DBValue) : Values :=
  match values !! kv.1 with
  | Some (counter, v) => <[kv.1 := (wadd 32 counter 1, v)]> values
  | None => <[kv.1 := (1, kv.2)]> values
  end.

Definition insert_values (values : Values) (ins : list (Key * DBValue)) : Values :=
  foldl insert_value values ins.

Definition discard_value (values : Values) (k : Key) : Values :=
  match values !! k with
  | Some (counter, v) =>
      let counter := wsub 32 counter 1 in
      if counter =? 0 then delete k values else <[k := (counter, v)]> values
  | None => values
  end.

Definition discard_values (values : Values) (ins : list Key) : Values :=
  foldl discard_value values ins.

(** What [discard_descendants] changes besides the levels *)
Record Kept := mkKept {
  k_values : Values;
  k_parents : gmap BlockHash BlockHash;
  k_pinned_insertions : gmap BlockHash (list Key * Z)
}.

(** The index of the first block whose parent is [h]; [None] when a block has no parent entry *)
Fixpoint child_position (parents : gmap BlockHash BlockHash) (h : BlockHash)
    (l : list BlockOverlay) : option (option nat) :=
  match l with
  | [] => Some None
  | o :: l =>
      p ← parents !! hash o;
      if bool_decide (p = h) then Some (Some 0%nat)
      else r ← child_position parents h l; Some (option_map S r)
  end.

(** What happens to a discarded block with that many pinned blocks in its subtree *)
Definition drop_block (o : BlockOverlay) (num_pinned : Z) (st : Kept) : Kept :=
  if num_pinned =? 0 then
    mkKept (discard_values (k_values st) (inserted o)) (delete (hash o) (k_parents st))
      (k_pinned_insertions st)
  else
    mkKept (k_values st) (k_parents st)
      (<[hash o := (inserted o, num_pinned)]> (k_pinned_insertions st)).

Abbreviation Discarded := (list OverlayLevel * Kept * Z)%type.

(** The [while let] loop over the children in a level; [below] discards in the levels below. *)
Fixpoint discard_children (fuel : nat) (below : list OverlayLevel -> Kept -> BlockHash -> option Discarded)
    (pinned : gmap BlockHash Z) (h : BlockHash) (level : OverlayLevel) (remainder : list OverlayLevel)
    (st : Kept) (pinned_children : Z) : option Discarded :=
  i ← child_position (k_parents st) h (blocks level);
  match i with
  | None => Some (level :: remainder, st, pinned_children)
  | Some i =>
      match fuel with
      | O => None
      | S fuel =>
          '(o, level) ← level_remove level i;
          '(remainder, st, num_pinned) ← below remainder st (hash o);
          let num_pinned :=
            if bool_decide (is_Some (pinned !! hash o)) then wadd 32 num_pinned 1 else num_pinned in
          discard_children fuel below pinned h level remainder (drop_block o num_pinned st)
            (wadd 32 pinned_children num_pinned)
      end
  end.

Fixpoint discard_in (depth : nat) (pinned : gmap BlockHash Z) (levels : list OverlayLevel)
    (st : Kept) (h : BlockHash) : option Discarded :=
  match depth, levels with
  | S depth, level :: remainder =>
      discard_children (length (blocks level)) (discard_in depth pinned) pinned h level remainder st 0
  | _, _ => Some (levels, st, 0)
  end.

Definition discard_descendants (levels : list OverlayLevel) (st : Kept)
    (pinned : gmap BlockHash Z) (h : BlockHash) : option Discarded :=
  discard_in (length levels) pinned levels st h.

Record NonCanonicalOverlay := mkNonCanonical {
  last_canonicalized : option (BlockHash * Z);
  levels : list OverlayLevel;
  parents : gmap BlockHash BlockHash;
  values : Values;
  pinned : gmap BlockHash Z;
  pinned_insertions : gmap BlockHash (list Key * Z);
  pinned_canonicalized : list BlockHash
}.

Abbreviation NC := NonCanonicalOverlay.

Definition front_block_number (s : NC) : Z :=
  match last_canonicalized s with Some (_, n) => wadd 64 n 1 | None => 0 end.

Definition last_canonicalized_block_number (s : NC) : option Z := snd <$> last_canonicalized s.

Definition get (s : NC) (k : Key) : option DBValue := snd <$> values s !! k.
Definition have_block (s : NC) (h : BlockHash) : bool := bool_decide (is_Some (parents s !! h)).

(** Updates of single fields *)
Definition set_last (s : NC) (l : option (BlockHash * Z)) : NC :=
  mkNonCanonical l (levels s) (parents s) (values s) (pinned s) (pinned_insertions s)
    (pinned_canonicalized s).
Definition set_levels (s : NC) (ls : list OverlayLevel) : NC :=
  mkNonCanonical (last_canonicalized s) ls (parents s) (values s) (pinned s) (pinned_insertions s)
    (pinned_canonicalized s).
Definition kept_of (s : NC) : Kept := mkKept (values s) (parents s) (pinned_insertions s).
Definition set_kept (s : NC) (st : Kept) : NC :=
  mkNonCanonical (last_canonicalized s) (levels s) (k_parents st) (k_values st) (pinned s)
    (k_pinned_insertions st) (pinned_canonicalized s).
Definition set_pinned (s : NC) (p : gmap BlockHash Z) : NC :=
  mkNonCanonical (last_canonicalized s) (levels s) (parents s) (values s) p (pinned_insertions s)
    (pinned_canonicalized s).
Definition set_pinned_canonicalized (s : NC) (l : list BlockHash) : NC :=
  mkNonCanonical (last_canonicalized s) (levels s) (parents s) (values s) (pinned s)
    (pinned_insertions s) l.

Definition put_meta (c : CommitSet) (k : MetaKey) (v : MetaValue) : CommitSet :=
  mkCommit (data c) (mkChangeSet (cs_inserted (meta c) ++ [(k, v)]) (cs_deleted (meta c))).
Definition delete_meta (c : CommitSet) (ks : list MetaKey) : CommitSet :=
  mkCommit (data c) (mkChangeSet (cs_inserted (meta c)) (cs_deleted (meta c) ++ ks)).
Definition put_data (c : CommitSet) (ins : list (Key * DBValue)) (del : list Key) : CommitSet :=
  mkCommit (mkChangeSet (cs_inserted (data c) ++ ins) (cs_deleted (data c) ++ del)) (meta c).

Abbreviation Nc := (M NC StateDbError).

(** The checks of [insert] on the number and the parent; an overlay that is still empty takes
    the parent as canonical. *)
Definition check_position (number : Z) (parent_hash : BlockHash) : Nc CommitSet :=
  let* s := getM in
  let front := front_block_number s in
  match last_canonicalized s with
  | None =>
      if (length (levels s) =? 0)%nat && (0 <? number) then
        putM (set_last s (Some (parent_hash, number - 1)));;;
        retM (put_meta default_commit LastCanonicalKey (LastCanonicalOf parent_hash (number - 1)))
      else retM default_commit
  | Some (h, n) =>
      if (number <? front) || (wadd 64 front (Z.of_nat (length (levels s))) <? number)
      then errM InvalidBlockNumber
      else if number =? front then
        if bool_decide (h = parent_hash) && (n =? wsub 64 number 1) then retM default_commit
        else errM InvalidParent
      else if have_block s parent_hash then retM default_commit
      else errM InvalidParent
  end.

(** The level of a block, a new one behind the last if need be *)
Definition select_level (front number : Z) : Nc nat :=
  let* s := getM in
  let n := length (levels s) in
  if (n =? 0)%nat || (number =? wadd 64 front (Z.of_nat n)) then
    putM (set_levels s (levels s ++ [new_level]));;;
    retM n
  else
    let i := Z.to_nat (wsub 64 number front) in
    if (i <? n)%nat then retM i else panicM.

Definition overlay_of (h : BlockHash) (number index : Z) (changeset : ChangeSet Key DBValue)
    : BlockOverlay :=
  mkOverlay h index (JournalKey number index) (cs_inserted changeset).*1 (cs_deleted changeset).

Definition record_of (h parent_hash : BlockHash) (changeset : ChangeSet Key DBValue) : JournalRecord :=
  mkJournal h parent_hash (cs_inserted changeset) (cs_deleted changeset).

(** The rest of [insert], with the level found *)
Definition insert_at (i : nat) (h : BlockHash) (number : Z) (parent_hash : BlockHash)
    (changeset : ChangeSet Key DBValue) (commit : CommitSet) : Nc CommitSet :=
  let* s := getM in
  let* level := liftM (expect (levels s !! i)) in
  if MAX_BLOCKS_PER_LEVEL <=? Z.of_nat (length (blocks level))
  then errM (TooManySiblingBlocks number)
  else if existsb (fun b => bool_decide (hash b = h)) (blocks level) then errM BlockAlreadyExists
  else
    let index := available_index level in
    putM (mkNonCanonical (last_canonicalized s)
            (<[i := level_push level (overlay_of h number index changeset)]> (levels s))
            (<[h := parent_hash]> (parents s)) (insert_values (values s) (cs_inserted changeset))
            (pinned s) (pinned_insertions s) (pinned_canonicalized s));;;
    retM (put_meta commit (JournalKey number index) (JournalRecordOf (record_of h parent_hash changeset))).

Definition insert (h : BlockHash) (number : Z) (parent_hash : BlockHash)
    (changeset : ChangeSet Key DBValue) : Nc CommitSet :=
  let* s := getM in
  let front := front_block_number s in
  let* commit := check_position number parent_hash in
  let* i := select_level front number in
  insert_at i h number parent_hash changeset commit.

(** The journal keys of the descendants of [h] in the given levels *)
Fixpoint discard_journals (ls : list OverlayLevel) (ps : gmap BlockHash BlockHash) (h : BlockHash)
    : option (list MetaKey) :=
  match ls with
  | [] => Some []
  | level :: ls =>
      ks ← mapM (fun o =>
        p ← ps !! hash o;
        if bool_decide (p = h) then (cons (journal_key o)) <$> discard_journals ls ps (hash o)
        else Some []) (blocks level);
      Some (concat ks)
  end.

Definition pin (h : BlockHash) (s : NC) : NC :=
  set_pinned s (<[h := wadd 32 (default 0 (pinned s !! h)) 1]> (pinned s)).

(** The walk of [unpin] to the ancestors *)
Fixpoint release (fuel : nat) (h : BlockHash) (st : Kept) : option Kept :=
  let parent := k_parents st !! h in
  match k_pinned_insertions st !! h with
  | None => Some st
  | Some (ins, n) =>
      let n := wsub 32 n 1 in
      let st :=
        if n =? 0 then
          mkKept (discard_values (k_values st) ins) (delete h (k_parents st))
            (delete h (k_pinned_insertions st))
        else mkKept (k_values st) (k_parents st) (<[h := (ins, n)]> (k_pinned_insertions st)) in
      match parent, fuel with
      | None, _ => Some st
      | Some p, S fuel => release fuel p st
      | Some _, O => None
      end
  end.

(** Each round visits another block of [pinned_insertions]. *)
Definition unpin (h : BlockHash) (s : NC) : option NC :=
  match pinned s !! h with
  | None => Some s
  | Some n =>
      let n := wsub 32 n 1 in
      if n =? 0 then
        let s := set_pinned s (delete h (pinned s)) in
        set_kept s <$> release (size (pinned_insertions s)) h (kept_of s)
      else Some (set_pinned s (<[h := n]> (pinned s)))
  end.

Fixpoint unpin_all (hs : list BlockHash) (s : NC) : option NC :=
  match hs with
  | [] => Some s
  | h :: hs => s ← unpin h s; unpin_all hs s
  end.

Definition sync (s : NC) : option NC :=
  let hs := pinned_canonicalized s in
  s ← unpin_all hs (set_pinned_canonicalized s []);
  Some (set_pinned_canonicalized s []).

(** One block of the level that is canonicalized *)
Definition canonicalize_one (index i : nat) (o : BlockOverlay) (s : NC) (commit : CommitSet)
    (journals : list MetaKey) : option (NC * CommitSet * list MetaKey) :=
  '(s, commit, journals, pinned_children) ←
    (if (i =? index)%nat then
       ins ← mapM (fun k => v ← values s !! k; Some (k, snd v)) (inserted o);
       Some (s, put_data commit ins (deleted o), journals, 0)
     else
       js ← discard_journals (levels s) (parents s) (hash o);
       '(ls, st, n) ← discard_descendants (levels s) (kept_of s) (pinned s) (hash o);
       Some (set_kept (set_levels s ls) st, commit, journals ++ js, n));
  let pinned_children :=
    if bool_decide (is_Some (pinned s !! hash o)) then wadd 32 pinned_children 1 else pinned_children in
  Some (set_kept s (drop_block o pinned_children (kept_of s)), commit, journals ++ [journal_key o]).

Fixpoint canonicalize_level (index i : nat) (l : list BlockOverlay) (s : NC) (commit : CommitSet)
    (journals : list MetaKey) : option (NC * CommitSet * list MetaKey) :=
  match l with
  | [] => Some (s, commit, journals)
  | o :: l =>
      '(s, commit, journals) ← canonicalize_one index i o s commit journals;
      canonicalize_level index (S i) l s commit journals
  end.

Fixpoint block_position (h : BlockHash) (l : list BlockOverlay) : option nat :=
  match l with
  | [] => None
  | o :: l => if bool_decide (hash o = h) then Some 0%nat else option_map S (block_position h l)
  end.

Definition canonicalize (h : BlockHash) (commit : CommitSet) : Nc (Z * CommitSet) :=
  let* s := getM in
  match levels s with
  | [] => errM InvalidBlock
  | level :: ls =>
      putM (set_levels s ls);;;
      let* index := liftM (ok_or (block_position h (blocks level)) InvalidBlock) in
      modifyM (pin h);;;
      let* s := getM in
      let s := set_pinned_canonicalized s (pinned_canonicalized s ++ [h]) in
      let* r := liftM (expect (canonicalize_level index 0 (blocks level) s commit [])) in
      let '(s, commit, journals) := r in
      let num := front_block_number s in
      putM (set_last s (Some (h, num)));;;
      retM (num, put_meta (delete_meta commit journals) LastCanonicalKey (LastCanonicalOf h num))
  end.

(** Blocks dropped without regard to pins *)
Definition forget_block (s : NC) (o : BlockOverlay) : NC :=
  mkNonCanonical (last_canonicalized s) (levels s) (delete (hash o) (parents s))
    (discard_values (values s) (inserted o)) (pinned s) (pinned_insertions s)
    (pinned_canonicalized s).

Definition revert_one (s : NC) : NC * option CommitSet :=
  match vec_pop (levels s) with
  | None => (s, None)
  | Some (level, ls) =>
      (foldl forget_block (set_levels s ls) (blocks level),
       Some (delete_meta default_commit (journal_key <$> blocks level)))
  end.

(** The last level with the block, and the block's position in it *)
Fixpoint find_block (h : BlockHash) (ls : list OverlayLevel) : option (nat * nat) :=
  match ls with
  | [] => None
  | level :: ls =>
      match find_block h ls with
      | Some (i, j) => Some (S i, j)
      | None => (fun j => (0%nat, j)) <$> block_position h (blocks level)
      end
  end.

Definition drop_empty_back (s : NC) : NC :=
  match vec_pop (levels s) with
  | Some (level, ls) => if (length (blocks level) =? 0)%nat then set_levels s ls else s
  | None => s
  end.

Definition remove (h : BlockHash) (s : NC) : NC * option CommitSet :=
  match find_block h (levels s) with
  | None => (drop_empty_back s, None)
  | Some (i, j) =>
      if negb (i =? length (levels s) - 1)%nat &&
         bool_decide (Exists (fun p => p.2 = h) (map_to_list (parents s)))
      then (s, None)
      else
        match level ← levels s !! i; level_remove level j with
        | None => (s, None)
        | Some (o, level) =>
            (drop_empty_back (forget_block (set_levels s (<[i := level]> (levels s))) o),
             Some (delete_meta default_commit [journal_key o]))
        end
  end.

(** Reading the journal at startup.  [get_meta] is the database; a value of another kind
    does not decode. *)
Section new.
Context {E : Type} (get_meta : MetaKey -> res E (option MetaValue)).

Definition read_meta (k : MetaKey) : res (Error E) (option MetaValue) :=
  match get_meta k with Ok v => Ok v | Err e => Err (Db e) | Panic => Panic end.

(** The accumulated parents and values *)
Abbreviation Reading := (gmap BlockHash BlockHash * Values)%type.

Fixpoint read_level (n : nat) (block index : Z) (level : OverlayLevel) (acc : Reading)
    : res (Error E) (OverlayLevel * Reading) :=
  match n with
  | O => Ok (level, acc)
  | S n =>
      let? r := read_meta (JournalKey block index) in
      match r with
      | None => read_level n block (index + 1) level acc
      | Some (JournalRecordOf r) =>
          let o := mkOverlay (jr_hash r) index (JournalKey block index) (jr_inserted r).*1
                     (jr_deleted r) in
          read_level n block (index + 1) (level_push level o)
            (<[jr_hash r := jr_parent_hash r]> acc.1, insert_values acc.2 (jr_inserted r))
      | Some _ => Err (StateDb Decoding)
      end
  end.

Fixpoint read_levels (fuel : nat) (block : Z) (ls : list OverlayLevel) (acc : Reading)
    : res (Error E) (list OverlayLevel * Reading) :=
  let? r := read_level (Z.to_nat MAX_BLOCKS_PER_LEVEL) block 0 new_level acc in
  let '(level, acc) := r in
  if (length (blocks level) =? 0)%nat then Ok (ls, acc)
  else
    match fuel with
    | O => Panic
    | S fuel => read_levels fuel (wadd 64 block 1) (ls ++ [level]) acc
    end.

Definition new (fuel : nat) : res (Error E) NC :=
  let? last := read_meta LastCanonicalKey in
  match last with
  | None => Ok (mkNonCanonical None [] ∅ ∅ ∅ ∅ [])
  | Some (LastCanonicalOf h n) =>
      let? r := read_levels fuel (wadd 64 n 1) [] (∅, ∅) in
      Ok (mkNonCanonical (Some (h, n)) r.1 r.2.1 r.2.2 ∅ ∅ [])
  | Some _ => Err (StateDb Decoding)
  end.

End new.

(** * Reference definitions *)

(** How often a key occurs *)
Definition occ (k : Key) (ks : list Key) : Z := Z.of_nat (length (filter (k =.) ks)).

(** The keys held for pinned blocks *)
Definition pin_keys (pins : gmap BlockHash (list Key * Z)) : list Key :=
  concat ((fun e => e.2.1) <$> map_to_list pins).

Definition all_keys (bs : list BlockOverlay) (pins : gmap BlockHash (list Key * Z)) : list Key :=
  concat (inserted <$> bs) ++ pin_keys pins.

(** A block whose parent is one of [hs] *)
Definition child_of (ps : gmap BlockHash BlockHash) (hs : list BlockHash) (o : BlockOverlay) : Prop :=
  match ps !! hash o with Some p => p ∈ hs | None => False end.
#[global] Instance child_of_dec ps hs o : Decision (child_of ps hs o).
Proof. unfold child_of. destruct (ps !! hash o); apply _. Defined.

(** Levels without the descendants of [hs], level by level *)
Fixpoint prune (ps : gmap BlockHash BlockHash) (bss : list (list BlockOverlay)) (hs : list BlockHash)
    : list (list BlockOverlay) :=
  match bss with
  | [] => []
  | bs :: bss =>
      filter (fun o => ~ child_of ps hs o) bs :: prune ps bss (hash <$> filter (child_of ps hs) bs)
  end.

(** The descendants of [hs] *)
Fixpoint dropped (ps : gmap BlockHash BlockHash) (bss : list (list BlockOverlay)) (hs : list BlockHash)
    : list BlockOverlay :=
  match bss with
  | [] => []
  | bs :: bss =>
      filter (child_of ps hs) bs ++ dropped ps bss (hash <$> filter (child_of ps hs) bs)
  end.

(** The descendants of [hs], each with the subtree below and including it *)
Fixpoint subtrees (ps : gmap BlockHash BlockHash) (bss : list (list BlockOverlay)) (hs : list BlockHash)
    : list (BlockOverlay * list BlockOverlay) :=
  match bss with
  | [] => []
  | bs :: bss =>
      ((fun o => (o, o :: dropped ps bss [hash o])) <$> filter (child_of ps hs) bs) ++
      subtrees ps bss (hash <$> filter (child_of ps hs) bs)
  end.

(** The number of pinned blocks *)
Definition npinned (pinned : gmap BlockHash Z) (bs : list BlockOverlay) : Z :=
  Z.of_nat (length (filter (fun o => is_Some (pinned !! hash o)) bs)).

(** The mask of the journal indices in use *)
Definition mask (bs : list BlockOverlay) : Z :=
  foldr (fun o m => Z.lor m (Z.shiftl 1 (journal_index o))) 0 bs.

Definition level_of (bs : list BlockOverlay) : OverlayLevel := mkLevel bs (mask bs).

Definition indices_ok (bs : list BlockOverlay) : Prop :=
  NoDup (journal_index <$> bs) /\
  Forall (fun o => 0 <= journal_index o < MAX_BLOCKS_PER_LEVEL) bs.

End noncanonical.

#[global] Arguments mkChangeSet {K X}.
#[global] Arguments cs_inserted {K X}.
#[global] Arguments cs_deleted {K X}.

(** * Journal indices *)

Section indices.
Context {BlockHash Key : Type}.
Abbreviation BlockOverlay := (@BlockOverlay BlockHash Key).
Implicit Types bs : list BlockOverlay.

Lemma index_bit i j : 0 <= i -> 0 <= j -> Z.testbit (Z.shiftl 1 i) j = bool_decide (j = i).
Proof.
  intros Hi Hj. rewrite Z.shiftl_spec by done.
  destruct (decide (j = i)) as [->|Hne].
  { rewrite Z.sub_diag. symmetry. by apply bool_decide_eq_true_2. }
  rewrite bool_decide_eq_false_2 by done.
  destruct (decide (j < i)); [apply Z.testbit_neg_r; lia|].
  apply Z.bits_above_log2; [lia|]. cbn. lia.
Qed.

Lemma mask_testbit bs i :
  Forall (fun o => 0 <= journal_index o) bs -> 0 <= i ->
  Z.testbit (mask bs) i = bool_decide (i ∈ journal_index <$> bs).
Proof.
  intros Hbs Hi. induction Hbs as [|o bs Ho _ IH]; cbn [mask foldr fmap list_fmap].
  { rewrite Z.bits_0. symmetry. apply bool_decide_eq_false_2, not_elem_of_nil. }
  fold (mask bs). rewrite Z.lor_spec, IH, index_bit by done.
  apply eq_bool_prop_intro. rewrite orb_True, !bool_decide_spec, elem_of_cons. tauto.
Qed.

Lemma mask_nonneg bs : Forall (fun o => 0 <= journal_index o) bs -> 0 <= mask bs.
Proof.
  induction 1 as [|o bs Ho _ IH]; cbn; [lia|].
  apply Z.lor_nonneg. split; [done|]. apply Z.shiftl_nonneg. lia.
Qed.

Lemma mask_snoc bs o : mask (bs ++ [o]) = Z.lor (mask bs) (Z.shiftl 1 (journal_index o)).
Proof.
  induction bs as [|o' bs IH]; cbn [app mask foldr]; [done|].
  fold (mask (bs ++ [o])) (mask bs). rewrite IH, <-!Z.lor_assoc. f_equal. apply Z.lor_comm.
Qed.

Lemma bit64 i : 0 <= i < MAX_BLOCKS_PER_LEVEL -> wrap 64 (Z.shiftl 1 i) = Z.shiftl 1 i.
Proof.
  unfold MAX_BLOCKS_PER_LEVEL. intros Hi. apply wrap_small. unfold in_range.
  rewrite Z.shiftl_1_l. split; [lia|]. apply Z.pow_lt_mono_r; lia.
Qed.

Lemma indices_nonneg bs : indices_ok bs -> Forall (fun o => 0 <= journal_index o) bs.
Proof. intros [_ Hbs]. eapply Forall_impl; [exact Hbs|]. cbn. lia. Qed.

Lemma indices_ok_app bs bs' : indices_ok (bs ++ bs') -> indices_ok bs /\ indices_ok bs'.
Proof.
  intros [Hnd Hr]. rewrite fmap_app in Hnd. apply NoDup_app in Hnd. apply Forall_app in Hr.
  split; split; tauto.
Qed.

Lemma indices_ok_perm bs bs' : bs ≡ₚ bs' -> indices_ok bs -> indices_ok bs'.
Proof. intros Hp [Hnd Hr]. split; by rewrite <-Hp. Qed.

Lemma indices_ok_sublist bs bs' : sublist bs' bs -> indices_ok bs -> indices_ok bs'.
Proof.
  intros Hs [Hnd Hr]. split.
  - eapply sublist_NoDup; [exact Hnd|]. by apply fmap_sublist.
  - rewrite Forall_forall in *. intros o Ho. apply Hr. by eapply elem_of_sublist.
Qed.
Lemma level_push_of bs o :
  0 <= journal_index o < MAX_BLOCKS_PER_LEVEL -> level_push (level_of bs) o = level_of (bs ++ [o]).
Proof.
  intros Ho. unfold level_push, level_of. cbn. by rewrite mask_snoc, bit64.
Qed.

Lemma level_remove_of (l1 : list BlockOverlay) o l2 :
  indices_ok (l1 ++ o :: l2) ->
  level_remove (level_of (l1 ++ o :: l2)) (length l1) = Some (o, level_of (l1 ++ l2)).
Proof.
  intros Hok. unfold level_remove, level_of. cbn [blocks used_indicies].
  rewrite list_lookup_middle by done. cbn.
  assert (delete (length l1) (l1 ++ o :: l2) = l1 ++ l2) as -> by apply delete_middle.
  do 3 f_equal. pose proof (indices_ok_perm _ (o :: l1 ++ l2) ltac:(by rewrite Permutation_middle) Hok)
    as [Hnd Hr].
  rewrite fmap_cons in Hnd. apply NoDup_cons in Hnd as [Hnew _].
  apply Forall_cons in Hr as [Ho Hr]. rewrite bit64 by done.
  assert (Forall (fun o => 0 <= journal_index o) (l1 ++ l2)) as Hnn
    by (eapply Forall_impl; [exact Hr|]; cbn; lia).
  apply Z.bits_inj'. intros j Hj. unfold wrap.
  rewrite Z.land_spec, !mask_testbit by (done || by apply indices_nonneg).
  assert (journal_index <$> l1 ++ o :: l2 ≡ₚ journal_index o :: (journal_index <$> l1 ++ l2)) as Hp
    by (by rewrite <-fmap_cons, Permutation_middle).
  rewrite (bool_decide_ext _ (j = journal_index o \/ j ∈ journal_index <$> l1 ++ l2))
    by (by rewrite Hp, elem_of_cons).
  destruct (decide (j ∈ journal_index <$> l1 ++ l2)) as [Hin|Hout].
  - rewrite !(bool_decide_eq_true_2 _) by auto.
    assert (j < 64).
    { apply list_elem_of_fmap in Hin as (o' & -> & Hin'). rewrite Forall_forall in Hr.
      specialize (Hr _ Hin'). unfold MAX_BLOCKS_PER_LEVEL in Hr. cbn in Hr. lia. }
    rewrite Z.mod_pow2_bits_low, Z.lnot_spec, index_bit by lia.
    rewrite bool_decide_eq_false_2; [done|]. congruence.
  - rewrite (bool_decide_eq_false_2 (j ∈ _)) by done.
    destruct (decide (j = journal_index o)) as [->|Hne].
    + unfold MAX_BLOCKS_PER_LEVEL in Ho.
      rewrite Z.mod_pow2_bits_low, Z.lnot_spec, index_bit by lia.
      rewrite (bool_decide_eq_true_2 (_ = _)) by done. apply andb_false_r.
    + rewrite bool_decide_eq_false_2; [done|]. tauto.
Qed.

Lemma trailing_ones_spec fuel : forall n,
  0 <= trailing_ones fuel n <= Z.of_nat fuel /\
  (forall j, 0 <= j < trailing_ones fuel n -> Z.testbit n j = true) /\
  (trailing_ones fuel n < Z.of_nat fuel -> Z.testbit n (trailing_ones fuel n) = false).
Proof.
  induction fuel as [|fuel IH]; intros n; cbn [trailing_ones]; [split; [|split]; lia|].
  destruct (Z.odd n) eqn:Hodd; [|split; [lia|split; [lia|]]; by rewrite Z.bit0_odd].
  destruct (IH (Z.shiftr n 1)) as (Hr & Hall & Hend). split; [lia|split].
  - intros j Hj. destruct (decide (j = 0)) as [->|Hne]; [by rewrite Z.bit0_odd|].
    specialize (Hall (j - 1) ltac:(lia)). rewrite Z.shiftr_spec in Hall by lia.
    by replace (j - 1 + 1) with j in Hall by lia.
  - intros Hlt. specialize (Hend ltac:(lia)). rewrite Z.shiftr_spec in Hend by lia.
    by rewrite Z.add_comm.
Qed.

(** A level that is not full has a free index. *)
Lemma available_index_of bs :
  indices_ok bs -> Z.of_nat (length bs) < MAX_BLOCKS_PER_LEVEL ->
  0 <= available_index (level_of bs) < MAX_BLOCKS_PER_LEVEL /\
  available_index (level_of bs) ∉ journal_index <$> bs.
Proof.
  intros Hok Hlen. pose proof (indices_nonneg _ Hok) as Hnn.
  unfold available_index, level_of. cbn [used_indicies].
  destruct (trailing_ones_spec 64 (mask bs)) as (Hr & Hall & Hend).
  set (t := trailing_ones 64 (mask bs)) in *.
  assert (t < MAX_BLOCKS_PER_LEVEL) as Hlt.
  { apply Z.nle_gt. intros Hge. unfold MAX_BLOCKS_PER_LEVEL in *.
    assert (seqZ 0 32 ⊆+ journal_index <$> bs) as Hsub.
    { apply NoDup_submseteq; [apply NoDup_seqZ|]. intros j Hj%elem_of_seqZ.
      specialize (Hall j ltac:(lia)). rewrite mask_testbit in Hall by (done || lia).
      by apply bool_decide_eq_true in Hall. }
    apply submseteq_length in Hsub. rewrite length_seqZ, length_fmap in Hsub. lia. }
  split; [lia|]. unfold MAX_BLOCKS_PER_LEVEL in *. specialize (Hend ltac:(lia)).
  rewrite mask_testbit in Hend by (done || lia). by apply bool_decide_eq_false in Hend.
Qed.

Lemma indices_ok_snoc bs o :
  indices_ok bs -> 0 <= journal_index o < MAX_BLOCKS_PER_LEVEL ->
  journal_index o ∉ journal_index <$> bs -> indices_ok (bs ++ [o]).
Proof.
  intros [Hnd Hr] Ho Hnew. split.
  - rewrite fmap_app. apply NoDup_app. split_all; [done| |apply NoDup_singleton].
    intros x Hx ->%list_elem_of_singleton. done.
  - apply Forall_app. split; [done|]. by apply Forall_singleton.
Qed.
End indices.

(** * Counted values *)

Section counting.
Context {BlockHash Key DBValue : Type} `{Countable BlockHash} `{Countable Key}.
Context (content : Key -> DBValue).
Abbreviation BlockOverlay := (@BlockOverlay BlockHash Key).
Abbreviation Kept := (@Kept BlockHash Key DBValue _ _ _ _).
Implicit Types (ks : list Key) (st : Kept) (bs : list BlockOverlay).
Implicit Types (pins : gmap BlockHash (list Key * Z)) (values : gmap Key (Z * DBValue)).

(** Every key of [ks] is kept with its number of occurrences. *)
Definition counted values ks : Prop :=
  Z.of_nat (length ks) < 2 ^ 32 /\
  forall k, values !! k = if occ k ks =? 0 then None else Some (occ k ks, content k).

Lemma occ_cons k k' ks : occ k (k' :: ks) = (if bool_decide (k = k') then 1 else 0) + occ k ks.
Proof. unfold occ. rewrite filter_cons. repeat case_decide; case_bool_decide; cbn; (lia || done). Qed.

Lemma occ_bounds k ks : 0 <= occ k ks <= Z.of_nat (length ks).
Proof. unfold occ. pose proof (length_filter (k =.) ks). lia. Qed.

#[export] Instance occ_Proper (k : Key) : Proper ((≡ₚ) ==> eq) (occ k).
Proof. intros ks ks' Hp. unfold occ. by rewrite Hp. Qed.

#[export] Instance counted_Proper values : Proper ((≡ₚ) ==> iff) (counted values).
Proof.
  intros ks ks' Hp. unfold counted. rewrite Hp.
  split; intros [Hl Hc]; split; try done; intros k; rewrite Hc; by rewrite (occ_Proper k _ _ Hp).
Qed.

Lemma counted_nil : counted ∅ [].
Proof. split; [done|]. intros k. apply lookup_empty. Qed.

Lemma counted_get values ks k : counted values ks -> k ∈ ks -> values !! k = Some (occ k ks, content k).
Proof.
  intros [_ Hc] Hk. rewrite Hc. case_eq (occ k ks =? 0); [|done].
  intros Hz%Z.eqb_eq. unfold occ in Hz. exfalso.
  assert (k ∈ filter (k =.) ks) as Hin by (by apply list_elem_of_filter).
  destruct (filter (k =.) ks); [by apply elem_of_nil in Hin|cbn in Hz; lia].
Qed.

Lemma counted_get_inv values ks k c v : counted values ks -> values !! k = Some (c, v) ->
  k ∈ ks /\ v = content k.
Proof.
  intros [_ Hc] Hk. rewrite Hc in Hk. case_eq (occ k ks =? 0); intros Hz; rewrite Hz in Hk; [done|].
  simplify_eq. split; [|done]. apply Z.eqb_neq in Hz. unfold occ in Hz.
  destruct (filter (k =.) ks) as [|k' l] eqn:Hf; [done|].
  assert (k' ∈ filter (k =.) ks) as [<- Hin]%list_elem_of_filter by (rewrite Hf; left). done.
Qed.

Lemma insert_value_counted values ks k :
  counted values ks -> Z.of_nat (length ks) + 1 < 2 ^ 32 ->
  counted (insert_value values (k, content k)) (k :: ks).
Proof.
  intros Hc Hl. pose proof Hc as [_ Hv]. split; [cbn; lia|]. intros k'.
  unfold insert_value. cbn [fst snd]. rewrite occ_cons. pose proof (occ_bounds k ks).
  rewrite (Hv k). destruct (decide (k' = k)) as [->|Hne].
  - rewrite bool_decide_eq_true_2 by done. rewrite (proj2 (Z.eqb_neq (1 + _) 0)) by lia.
    case_eq (occ k ks =? 0); rewrite ?Z.eqb_eq, ?Z.eqb_neq; intros Hz; rewrite lookup_insert_eq.
    + by rewrite Hz.
    + rewrite wadd_small by (unfold in_range; lia). by rewrite Z.add_comm.
  - rewrite bool_decide_eq_false_2 by done. rewrite Z.add_0_l.
    case_eq (occ k ks =? 0); intros _; rewrite lookup_insert_ne by congruence; apply Hv.
Qed.

Lemma insert_values_counted ins : forall values ks,
  Forall (fun kv => kv.2 = content kv.1) ins -> counted values ks ->
  Z.of_nat (length ks) + Z.of_nat (length ins) < 2 ^ 32 ->
  counted (insert_values values ins) (ins.*1 ++ ks).
Proof.
  induction ins as [|[k v] ins IH]; intros values ks Hins Hc Hl; [done|].
  apply Forall_cons in Hins as [Hv Hins]. cbn in Hv. subst v. cbn [length] in Hl.
  cbn [insert_values foldl fmap list_fmap fst app]. rewrite Permutation_middle.
  apply (IH (insert_value values (k, content k))); [done| |cbn; lia].
  apply insert_value_counted; [done|lia].
Qed.

Lemma discard_value_counted values ks k :
  counted values (k :: ks) -> counted (discard_value values k) ks.
Proof.
  intros Hc. pose proof Hc as [Hl Hv]. cbn [length] in Hl. split; [lia|]. intros k'.
  unfold discard_value. rewrite (counted_get _ _ k Hc) by left.
  pose proof (occ_bounds k ks). specialize (Hv k').
  rewrite (occ_cons k k), bool_decide_eq_true_2 by done.
  rewrite wsub_small by (unfold in_range; lia). replace (1 + occ k ks - 1) with (occ k ks) by lia.
  rewrite occ_cons in Hv. destruct (decide (k' = k)) as [->|Hne].
  - case_eq (occ k ks =? 0); intros Hz; [apply lookup_delete_eq|by rewrite lookup_insert_eq].
  - rewrite bool_decide_eq_false_2, Z.add_0_l in Hv by done.
    case_eq (occ k ks =? 0); intros _; [rewrite lookup_delete_ne|rewrite lookup_insert_ne]; congruence.
Qed.

Lemma discard_values_counted ins : forall values ks,
  counted values (ins ++ ks) -> counted (discard_values values ins) ks.
Proof.
  induction ins as [|k ins IH]; intros values ks Hc; [done|].
  cbn. apply IH. by apply discard_value_counted.
Qed.

(** ** Keys of pinned blocks *)

Lemma pin_keys_insert pins h ins n :
  pins !! h = None -> pin_keys (<[h := (ins, n)]> pins) ≡ₚ ins ++ pin_keys pins.
Proof.
  intros Hh. unfold pin_keys. rewrite (map_to_list_insert pins h (ins, n)) by done. done.
Qed.

Lemma pin_keys_delete pins h ins n :
  pins !! h = Some (ins, n) -> pin_keys pins ≡ₚ ins ++ pin_keys (delete h pins).
Proof.
  intros Hh. unfold pin_keys. rewrite <-(map_to_list_delete pins h (ins, n)) by done. done.
Qed.

Lemma pin_keys_update pins h ins n n' :
  pins !! h = Some (ins, n) -> pin_keys (<[h := (ins, n')]> pins) ≡ₚ pin_keys pins.
Proof.
  intros Hh. rewrite (pin_keys_delete pins h ins n) by done.
  rewrite (pin_keys_delete (<[h := (ins, n')]> pins) h ins n') by apply lookup_insert_eq.
  by rewrite delete_insert_eq.
Qed.

#[export] Instance all_keys_Proper : Proper ((≡ₚ) ==> eq ==> (≡ₚ)) (@all_keys BlockHash Key _ _).
Proof. intros bs bs' Hp pins _ <-. unfold all_keys. by rewrite Hp. Qed.

Lemma all_keys_cons o bs pins : all_keys (o :: bs) pins = inserted o ++ all_keys bs pins.
Proof. unfold all_keys. cbn. by rewrite app_assoc. Qed.
End counting.

(** * Levels without some subtrees *)

Section pruning.
Context {BlockHash Key : Type} `{Countable BlockHash}.
Abbreviation BlockOverlay := (@BlockOverlay BlockHash Key).
Implicit Types (ps : gmap BlockHash BlockHash) (hs : list BlockHash).
Implicit Types (bs : list BlockOverlay) (bss : list (list BlockOverlay)).

Lemma child_of_ext ps ps' hs hs' (o : BlockOverlay) :
  ps !! hash o = ps' !! hash o -> (forall x, x ∈ hs <-> x ∈ hs') -> child_of ps hs o <-> child_of ps' hs' o.
Proof. intros Hp Hhs. unfold child_of. rewrite Hp. destruct (ps' !! hash o); [apply Hhs|done]. Qed.

Lemma child_of_app ps hs hs' (o : BlockOverlay) :
  child_of ps (hs ++ hs') o <-> child_of ps hs o \/ child_of ps hs' o.
Proof. unfold child_of. destruct (ps !! hash o); [apply elem_of_app|tauto]. Qed.

Lemma child_of_nil ps (o : BlockOverlay) : ~ child_of ps [] o.
Proof. unfold child_of. destruct (ps !! hash o); [apply not_elem_of_nil|tauto]. Qed.

Lemma overlay_levels_ext ps ps' bss : forall hs hs',
  (forall o, o ∈ concat bss -> ps !! hash o = ps' !! hash o) -> (forall x, x ∈ hs <-> x ∈ hs') ->
  prune ps bss hs = prune ps' bss hs' /\ dropped ps bss hs = dropped ps' bss hs' /\
  subtrees ps bss hs = subtrees ps' bss hs'.
Proof.
  induction bss as [|bs bss IH]; intros hs hs' Hps Hhs; [done|].
  cbn [concat prune dropped subtrees] in *. setoid_rewrite elem_of_app in Hps.
  assert (filter (child_of ps hs) bs = filter (child_of ps' hs') bs) as ->
    by (apply filter_ext_elem; intros o Ho; apply child_of_ext; auto).
  assert (filter (fun o => ~ child_of ps hs o) bs = filter (fun o => ~ child_of ps' hs' o) bs) as ->
    by (apply filter_ext_elem; intros o Ho; rewrite child_of_ext; auto).
  destruct (IH (hash <$> filter (child_of ps' hs') bs) (hash <$> filter (child_of ps' hs') bs))
    as (-> & -> & ->); [auto|done|].
  split_all; [done..|]. f_equal. apply list_fmap_ext. intros i o Hi. do 2 f_equal.
  destruct (IH [hash o] [hash o]) as (_ & -> & _); [auto|done|done].
Qed.

Lemma prune_nil ps bss : forall hs, (forall x, x ∉ hs) -> prune ps bss hs = bss.
Proof.
  induction bss as [|bs bss IH]; intros hs Hhs; [done|]. cbn.
  assert (forall o : BlockOverlay, ~ child_of ps hs o) as Hno
    by (intros o; unfold child_of; destruct (ps !! hash o); [apply Hhs|tauto]).
  rewrite filter_all, IH by (auto; rewrite filter_none by auto; intros x; apply not_elem_of_nil).
  done.
Qed.

Lemma prune_dropped ps bss : forall hs, concat (prune ps bss hs) ++ dropped ps bss hs ≡ₚ concat bss.
Proof.
  induction bss as [|bs bss IH]; intros hs; [done|]. cbn.
  rewrite <-(IH (hash <$> filter (child_of ps hs) bs)).
  rewrite <-(filter_app_complement (child_of ps hs) bs) at 5.
  solve_Permutation.
Qed.

Lemma prune_app ps bss : forall hs hs', prune ps (prune ps bss hs) hs' = prune ps bss (hs ++ hs').
Proof.
  induction bss as [|bs bss IH]; intros hs hs'; [done|]. cbn [prune]. rewrite IH. f_equal.
  - rewrite list_filter_filter. apply filter_ext_elem. intros o _. rewrite child_of_app. tauto.
  - apply overlay_levels_ext; [done|]. intros x. rewrite elem_of_app, !list_elem_of_fmap.
    setoid_rewrite list_elem_of_filter. setoid_rewrite list_elem_of_filter.
    setoid_rewrite child_of_app.
    split.
    + intros [(o & -> & ? & ?)|(o & -> & ? & ? & ?)]; eauto 10.
    + intros (o & -> & [Hc|Hc] & Ho); [eauto 10|].
      destruct (decide (child_of ps hs o)); eauto 10.
Qed.

Lemma dropped_app_perm ps bss : forall hs hs',
  dropped ps bss (hs ++ hs') ≡ₚ dropped ps bss hs ++ dropped ps (prune ps bss hs) hs'.
Proof.
  intros hs hs'. pose proof (prune_dropped ps bss (hs ++ hs')) as H1.
  pose proof (prune_dropped ps bss hs) as H2.
  pose proof (prune_dropped ps (prune ps bss hs) hs') as H3. rewrite prune_app in H3.
  rewrite <-H2, <-H3 in H1. rewrite <-(assoc_L (++)) in H1.
  apply Permutation_app_inv_l in H1. rewrite H1. apply Permutation_app_comm.
Qed.

Lemma elem_of_subtrees_app ps bss x : forall hs hs',
  x ∈ subtrees ps bss (hs ++ hs') <-> x ∈ subtrees ps bss hs \/ x ∈ subtrees ps bss hs'.
Proof.
  induction bss as [|bs bss IH]; intros hs hs'; cbn [subtrees].
  { rewrite !elem_of_nil. tauto. }
  rewrite !elem_of_app, !list_elem_of_fmap. setoid_rewrite list_elem_of_filter.
  setoid_rewrite child_of_app.
  assert (x ∈ subtrees ps bss (hash <$> filter (child_of ps (hs ++ hs')) bs) <->
    x ∈ subtrees ps bss (hash <$> filter (child_of ps hs) bs) \/
    x ∈ subtrees ps bss (hash <$> filter (child_of ps hs') bs)) as ->; [|firstorder].
  rewrite <-IH. f_equiv. apply Permutation_refl', overlay_levels_ext; [done|]. intros y.
  rewrite elem_of_app, !list_elem_of_fmap. repeat setoid_rewrite list_elem_of_filter.
  setoid_rewrite child_of_app. firstorder.
Qed.

Lemma subtrees_fst ps bss : forall hs, (subtrees ps bss hs).*1 = dropped ps bss hs.
Proof.
  induction bss as [|bs bss IH]; intros hs; [done|]. cbn [subtrees dropped].
  rewrite fmap_app, IH, <-list_fmap_compose. f_equal. apply list_fmap_id.
Qed.

Lemma elem_of_dropped ps bss hs o : o ∈ dropped ps bss hs -> o ∈ concat bss.
Proof. intros Ho. rewrite <-(prune_dropped ps bss hs). apply elem_of_app. by right. Qed.

Lemma elem_of_prune ps bss hs o : o ∈ concat (prune ps bss hs) -> o ∈ concat bss.
Proof. intros Ho. rewrite <-(prune_dropped ps bss hs). apply elem_of_app. by left. Qed.

(** A block has one parent. *)
Lemma child_of_disjoint ps hs hs' (o : BlockOverlay) :
  (forall x, x ∈ hs -> x ∉ hs') -> child_of ps hs o -> ~ child_of ps hs' o.
Proof. intros Hd. unfold child_of. destruct (ps !! hash o); [apply Hd|tauto]. Qed.

Lemma children_disjoint ps bs hs hs' :
  NoDup (hash <$> bs) -> (forall x, x ∈ hs -> x ∉ hs') ->
  forall x, x ∈ hash <$> filter (child_of ps hs) bs -> x ∉ hash <$> filter (child_of ps hs') bs.
Proof.
  intros Hnd Hd x (o & -> & [Hc Ho]%list_elem_of_filter)%list_elem_of_fmap
    (o' & Heq & [Hc' Ho']%list_elem_of_filter)%list_elem_of_fmap.
  revert Hc'. unfold child_of in *. rewrite <-Heq.
  destruct (ps !! hash o); [by apply Hd|done].
Qed.

Lemma filter_child_prune ps hs hs' bs :
  (forall x, x ∈ hs -> x ∉ hs') ->
  filter (child_of ps hs') (filter (fun o => ~ child_of ps hs o) bs) = filter (child_of ps hs') bs.
Proof.
  intros Hd. rewrite list_filter_filter. apply filter_ext_elem. intros o _.
  split; [tauto|]. intros Hc. split; [done|]. intros Hc'. by eapply child_of_disjoint.
Qed.

Lemma dropped_prune ps bss : forall hs hs',
  NoDup (hash <$> concat bss) -> (forall x, x ∈ hs -> x ∉ hs') ->
  dropped ps (prune ps bss hs) hs' = dropped ps bss hs'.
Proof.
  induction bss as [|bs bss IH]; intros hs hs' Hnd Hd; [done|]. cbn [prune dropped concat] in *.
  rewrite fmap_app in Hnd. apply NoDup_app in Hnd as (Hnd & _ & Hnd').
  rewrite filter_child_prune by done. f_equal. apply IH; [done|]. by apply children_disjoint.
Qed.

Lemma subtrees_prune ps bss : forall hs hs',
  NoDup (hash <$> concat bss) -> (forall x, x ∈ hs -> x ∉ hs') ->
  subtrees ps (prune ps bss hs) hs' = subtrees ps bss hs'.
Proof.
  induction bss as [|bs bss IH]; intros hs hs' Hnd Hd; [done|]. cbn [prune subtrees concat] in *.
  rewrite fmap_app in Hnd. apply NoDup_app in Hnd as (Hnd & _ & Hnd').
  rewrite filter_child_prune by done. f_equal; [|apply IH; [done|by apply children_disjoint]].
  apply Forall_fmap_ext_1. apply Forall_forall. intros o Ho. do 2 f_equal.
  apply dropped_prune; [done|]. intros x Hx ->%list_elem_of_singleton.
  eapply children_disjoint; [exact Hnd|exact Hd|exact Hx|]. apply list_elem_of_fmap. eauto.
Qed.
End pruning.
