(* ===== verification/MetaKeys.v ===== *)
(** The keys of the metadata column as bytes (client/state-db/src/lib.rs, [to_meta_key], and the
    suffixes in noncanonical.rs and pruning.rs).

    The rest of the development names these keys by the constructors of [MetaKey]; here they are
    shown to be different byte strings, so that no record overwrites another.  The encoding of a
    [u64] belongs to the SCALE codec: it is a parameter, of which only its fixed width and its
    injectivity are used. *)

From Stdlib Require Import Ascii String.
From stdpp Require Import base numbers list strings.
From S2P Require Import Prelude NonCanonical.

Local Open Scope Z_scope.

Definition LAST_CANONICAL : string := "last_canonical".
Definition NON_CANONICAL_JOURNAL : string := "noncanonical_journal".
Definition LAST_PRUNED : string := "last_pruned".
Definition PRUNING_JOURNAL : string := "pruning_journal".
Definition PRUNING_MODE : string := "mode".

Definition to_meta_key (suffix : string) (data : list ascii) : list ascii :=
  data ++ list_ascii_of_string suffix.

Section keys.
Context (encode_u64 : Z -> list ascii).

(** A pair is encoded as its parts, one after the other; the unit as nothing. *)
Definition to_journal_key (block index : Z) : list ascii :=
  to_meta_key NON_CANONICAL_JOURNAL (encode_u64 block ++ encode_u64 index).

Definition to_pruning_journal_key (block : Z) : list ascii := to_meta_key PRUNING_JOURNAL (encode_u64 block).

Definition key_bytes (k : MetaKey) : list ascii :=
  match k with
  | LastCanonicalKey => to_meta_key LAST_CANONICAL []
  | JournalKey block index => to_journal_key block index
  | LastPrunedKey => to_meta_key LAST_PRUNED []
  | PruningJournalKey block => to_pruning_journal_key block
  | PruningModeKey => to_meta_key PRUNING_MODE []
  end.

Definition key_in_range (k : MetaKey) : Prop :=
  match k with
  | JournalKey block index => in_range 64 block /\ in_range 64 index
  | PruningJournalKey block => in_range 64 block
  | _ => True
  end.

(** Different keys have different bytes. *)
Theorem key_bytes_inj k k' :
  (forall n, length (encode_u64 n) = 8%nat) ->
  (forall n m, in_range 64 n -> in_range 64 m -> encode_u64 n = encode_u64 m -> n = m) ->
  key_in_range k -> key_in_range k' -> key_bytes k = key_bytes k' -> k = k'.
Proof.
  intros Hlen Hinj Hk Hk' Heq. pose proof (f_equal length Heq) as Hl. revert Hl.
  destruct k as [|b i| |b|], k' as [|b' i'| |b'|]; cbn [key_bytes]; unfold to_journal_key, to_pruning_journal_key, to_meta_key;
    rewrite ?length_app, ?Hlen; cbn; try discriminate; try done; intros _; cbn in Heq, Hk, Hk'.
  - apply app_inv_tail, app_inj_1 in Heq as [Hb Hi]; [|by rewrite !Hlen]. destruct Hk, Hk'. f_equal; by apply Hinj.
  - apply app_inv_tail in Heq. f_equal. by apply Hinj.
Qed.
End keys.

(** Little-endian bytes *)
Definition le_bytes (n : Z) : list ascii :=
  (fun i => ascii_of_N (Z.to_N (n / 2 ^ (8 * i) mod 256))) <$> seqZ 0 8.

Lemma ascii_of_Z_inj a b :
  0 <= a < 256 -> 0 <= b < 256 -> ascii_of_N (Z.to_N a) = ascii_of_N (Z.to_N b) -> a = b.
Proof. intros Ha Hb Heq. apply (f_equal N_of_ascii) in Heq. rewrite !N_ascii_embedding in Heq by lia. lia. Qed.

Lemma le_bytes_inj n m : in_range 64 n -> in_range 64 m -> le_bytes n = le_bytes m -> n = m.
Proof.
  unfold in_range. intros Hn Hm Heq.
  assert (forall i, 0 <= i < 8 -> n / 2 ^ (8 * i) mod 256 = m / 2 ^ (8 * i) mod 256) as Hb.
  { intros i Hi. apply (f_equal (lookup (Z.to_nat i))) in Heq. unfold le_bytes in Heq.
    rewrite !list_lookup_fmap, !lookup_seqZ_lt in Heq by lia. cbn [fmap option_fmap option_map] in Heq. injection Heq as Heq.
    replace (0 + Z.of_nat (Z.to_nat i)) with i in Heq by lia.
    apply ascii_of_Z_inj in Heq; [done|apply Z.mod_pos_bound; lia..]. }
  assert (forall x, 0 <= x < 2 ^ 64 -> forall j, 64 <= j -> Z.testbit x j = false) as Hhigh.
  { intros x Hx j Hj. rewrite <-(Z.mod_small x (2 ^ 64)) by done. apply Z.mod_pow2_bits_high. lia. }
  apply Z.bits_inj'. intros j Hj. destruct (decide (j < 64)) as [Hlt|Hge]; [|by rewrite !Hhigh by lia].
  pose proof (Z.div_mod j 8 ltac:(lia)) as Hdm. pose proof (Z.mod_pos_bound j 8 ltac:(lia)) as Hr.
  assert (forall x, Z.testbit x j = Z.testbit (x / 2 ^ (8 * (j / 8)) mod 2 ^ 8) (j mod 8)) as Hbit.
  { intros x. rewrite Z.mod_pow2_bits_low, Z.div_pow2_bits by lia. f_equal. lia. }
  rewrite (Hbit n), (Hbit m). f_equal. apply (Hb (j / 8)). lia.
Qed.

Lemma key_bytes_inj_witness : key_bytes le_bytes (JournalKey 1 2) <> key_bytes le_bytes (PruningJournalKey 1).
Proof.
  intros Heq. assert (JournalKey 1 2 = PruningJournalKey 1) as He; [|discriminate He].
  apply (key_bytes_inj le_bytes).
  - reflexivity.
  - exact le_bytes_inj.
  - cbn. unfold in_range. lia.
  - cbn. unfold in_range. lia.
  - exact Heq.
Defined.
