(* ===== verification/Discard.v ===== *)
(** Discarding subtrees of the non-canonical overlay (client/state-db/src/noncanonical.rs).

    [tracked] says that the parents, the counted values and the retained blocks agree with a
    list of blocks.  [discard_descendants] removes the subtrees below a block from all levels,
    depth first; it is shown to be [prune], which filters level by level, and to retain exactly
    the blocks with a pinned block in their subtree.  [release] gives retained blocks up. *)

From stdpp Require Import base numbers list option gmap sets fin_maps.
From S2P Require Import Prelude NonCanonical.

Local Open Scope Z_scope.
Local Open Scope rust_scope.

Section discard.
Context {BlockHash Key DBValue : Type} `{Countable BlockHash} `{Countable Key}.
Context (content : Key -> DBValue).
Abbreviation BlockOverlay := (@BlockOverlay BlockHash Key).
Abbreviation Kept := (@Kept BlockHash Key DBValue _ _ _ _).
Implicit Types (ps : gmap BlockHash BlockHash) (hs : list BlockHash) (st : Kept).
Implicit Types (bs : list BlockOverlay) (bss : list (list BlockOverlay)).
Implicit Types (pinned : gmap BlockHash Z).

(** The blocks [bs] and the retained blocks are those that [st] knows, and share no hash. *)
Record tracked bs st : Prop := mkTracked {
  tr_nodup : NoDup (hash <$> bs);
  tr_parents : forall h, is_Some (k_parents st !! h) <->
    h ∈ hash <$> bs \/ is_Some (k_pinned_insertions st !! h);
  tr_disjoint : forall h, h ∈ hash <$> bs -> k_pinned_insertions st !! h = None;
  tr_counted : counted content (k_values st) (all_keys bs (k_pinned_insertions st));
  tr_pins : forall h ins n, k_pinned_insertions st !! h = Some (ins, n) -> 0 < n < 2 ^ 32
}.

#[export] Instance tracked_Proper : Proper ((≡ₚ) ==> eq ==> iff) tracked.
Proof.
  assert (forall bs bs' st, bs ≡ₚ bs' -> tracked bs st -> tracked bs' st) as Himp.
  { intros bs bs' st Hp [Hnd Hps Hd Hc Hpins].
    split; [by rewrite <-Hp|..|done].
    - intros h. by rewrite Hps, Hp.
    - intros h. rewrite <-Hp. apply Hd.
    - by rewrite <-Hp. }
  intros bs bs' Hp st _ <-. split; apply Himp; [done|by symmetry].
Qed.

(** What a discarded block leaves behind *)
Definition pin_entry pinned (o : BlockOverlay) (t : list BlockOverlay) : option (list Key * Z) :=
  if npinned pinned t =? 0 then None else Some (inserted o, npinned pinned t).

Lemma drop_block_tracked o bs st n :
  tracked (o :: bs) st -> 0 <= n < 2 ^ 32 -> tracked bs (drop_block o n st).
Proof.
  intros [Hnd Hps Hd Hc Hpins] Hn. rewrite fmap_cons in *.
  apply NoDup_cons in Hnd as [Hnew Hnd]. rewrite all_keys_cons in Hc.
  pose proof (Hd (hash o) ltac:(left)) as Ho.
  unfold drop_block. case_eq (n =? 0); rewrite ?Z.eqb_eq, ?Z.eqb_neq; intros Hz; split; cbn; try done.
  - intros h. destruct (decide (h = hash o)) as [->|Hne].
    + rewrite lookup_delete_eq, Ho, !is_Some_alt. tauto.
    + rewrite lookup_delete_ne, Hps, elem_of_cons by done. tauto.
  - intros h Hh. apply Hd. by right.
  - by apply discard_values_counted.
  - intros h. rewrite Hps, elem_of_cons. destruct (decide (h = hash o)) as [->|Hne].
    + rewrite lookup_insert_eq. split; [right|left; left]; done.
    + rewrite lookup_insert_ne by done. tauto.
  - intros h Hh. rewrite lookup_insert_ne by congruence. apply Hd. by right.
  - unfold all_keys in *. rewrite pin_keys_insert by done.
    rewrite (Permutation_app_swap_app (concat _)). exact Hc.
  - intros h ins m. destruct (decide (h = hash o)) as [->|Hne].
    + rewrite lookup_insert_eq. intros [= _ <-]. lia.
    + rewrite lookup_insert_ne by done. apply Hpins.
Qed.

Lemma drop_block_pins o n st h :
  k_pinned_insertions st !! hash o = None ->
  k_pinned_insertions (drop_block o n st) !! h =
    if decide (h = hash o) then (if n =? 0 then None else Some (inserted o, n))
    else k_pinned_insertions st !! h.
Proof.
  intros Ho. unfold drop_block. destruct (n =? 0); cbn; case_decide as Hh; subst; try done.
  - apply lookup_insert_eq.
  - by apply lookup_insert_ne.
Qed.

Lemma drop_block_parents o n st h :
  k_parents (drop_block o n st) !! h =
    if decide (h = hash o /\ n = 0) then None else k_parents st !! h.
Proof.
  unfold drop_block. case_eq (n =? 0); rewrite ?Z.eqb_eq, ?Z.eqb_neq; intros Hz; cbn.
  - case_decide as Hh; [destruct Hh as [-> _]; apply lookup_delete_eq|].
    apply lookup_delete_ne. naive_solver.
  - by rewrite decide_False by naive_solver.
Qed.

Lemma npinned_app pinned bs bs' : npinned pinned (bs ++ bs') = npinned pinned bs + npinned pinned bs'.
Proof. unfold npinned. rewrite filter_app, length_app. lia. Qed.

Lemma npinned_cons pinned o bs :
  npinned pinned (o :: bs) =
    (if bool_decide (is_Some (pinned !! hash o)) then 1 else 0) + npinned pinned bs.
Proof. unfold npinned. rewrite filter_cons. case_decide; case_bool_decide; cbn; (lia || done). Qed.

#[export] Instance npinned_Proper pinned : Proper ((≡ₚ) ==> eq) (@npinned BlockHash Key _ _ pinned).
Proof. intros bs bs' Hp. unfold npinned. by rewrite Hp. Qed.

Lemma npinned_bounds pinned bs : 0 <= npinned pinned bs <= Z.of_nat (length bs).
Proof.
  unfold npinned. pose proof (length_filter (fun o => is_Some (pinned !! hash o)) bs). lia.
Qed.

(** The first child in a level *)
Lemma child_position_spec ps h bs :
  (forall o, o ∈ bs -> is_Some (ps !! hash o)) ->
  (filter (child_of ps [h]) bs = [] /\ child_position ps h bs = Some None) \/
  exists l1 o l2, bs = l1 ++ o :: l2 /\ filter (child_of ps [h]) l1 = [] /\ child_of ps [h] o /\
    child_position ps h bs = Some (Some (length l1)).
Proof.
  induction bs as [|o bs IH]; intros Hps; [by left|]. cbn [child_position].
  destruct (Hps o) as [p Hp]; [left|]. rewrite Hp. cbn [mbind option_bind].
  assert (child_of ps [h] o <-> p = h) as Hc
    by (unfold child_of; rewrite Hp; apply list_elem_of_singleton).
  rewrite filter_cons. case_bool_decide as Hph.
  { right. exists [], o, bs. by rewrite <-Hc in Hph. }
  rewrite decide_False by tauto.
  destruct IH as [[Hf ->]|(l1 & o' & l2 & -> & Hf & Ho' & ->)].
  - intros o' Ho'. apply Hps. by right.
  - by left.
  - right. exists (o :: l1), o', l2. rewrite filter_cons, decide_False by tauto. done.
Qed.
(** [st'] is [st] without the blocks of [S], each given with its subtree; [R] is left. *)
Record outcome pinned (S : list (BlockOverlay * list BlockOverlay)) (R : list BlockOverlay) st st'
    : Prop := mkOutcome {
  out_tracked : tracked R st';
  out_pins : forall o t, (o, t) ∈ S -> k_pinned_insertions st' !! hash o = pin_entry pinned o t;
  out_frame : forall h, h ∉ hash <$> S.*1 ->
    k_parents st' !! h = k_parents st !! h /\
    k_pinned_insertions st' !! h = k_pinned_insertions st !! h;
  out_parents : k_parents st' ⊆ k_parents st
}.

Lemma outcome_nil pinned R st : tracked R st -> outcome pinned [] R st st.
Proof. intros HR. split; [done| |done|done]. intros o t Ho. by apply elem_of_nil in Ho. Qed.

Lemma outcome_trans pinned S1 S2 S R1 R2 st st1 st2 :
  outcome pinned S1 R1 st st1 -> outcome pinned S2 R2 st1 st2 ->
  (forall h, h ∈ hash <$> S1.*1 -> h ∉ hash <$> S2.*1) ->
  (forall x, x ∈ S <-> x ∈ S1 \/ x ∈ S2) ->
  outcome pinned S R2 st st2.
Proof.
  intros [_ Hp1 Hf1 Hm1] [Ht2 Hp2 Hf2 Hm2] Hd HS. split; [done|..|by transitivity (k_parents st1)].
  - intros o t [Ho|Ho]%HS; [|by apply Hp2].
    destruct (Hf2 (hash o)) as [_ ->]; [|by apply Hp1].
    apply Hd, list_elem_of_fmap. exists o. split; [done|]. apply list_elem_of_fmap. by exists (o, t).
  - intros h Hh.
    assert ((h ∉ hash <$> S1.*1) /\ (h ∉ hash <$> S2.*1)) as [H1 H2].
    { split; intros Hin; apply Hh; rewrite <-list_fmap_compose in *;
        apply list_elem_of_fmap in Hin as (x & -> & Hx); apply list_elem_of_fmap; exists x; split;
        try done; apply HS; tauto. }
    destruct (Hf1 h H1) as [<- <-]. by apply Hf2.
Qed.

(** The blocks of the levels are tracked, with the parents [ps]. *)
Record tree_ok ps bss (F : list BlockOverlay) st : Prop := mkTree {
  tree_tracked : tracked (F ++ concat bss) st;
  tree_indices : Forall indices_ok bss;
  tree_agree : forall o, o ∈ concat bss -> k_parents st !! hash o = ps !! hash o
}.

Lemma prune_indices ps bss : forall hs, Forall indices_ok bss -> Forall indices_ok (prune ps bss hs).
Proof.
  induction bss as [|bs bss IH]; intros hs Hok; [done|]. apply Forall_cons in Hok as [Hbs Hok].
  apply Forall_cons. split; [|by apply IH].
  eapply indices_ok_sublist; [apply sublist_filter|done].
Qed.

Lemma tree_nodup ps bss F st : tree_ok ps bss F st -> NoDup (hash <$> concat bss).
Proof.
  intros [[Hnd _ _ _ _] _ _]. rewrite fmap_app in Hnd. by apply NoDup_app in Hnd as (_ & _ & ?).
Qed.

(** Dropping the block [o] of [F] after its subtree *)
Lemma drop_subtree pinned ps bss F st st' o :
  tree_ok ps bss (o :: F) st -> Z.of_nat (length (concat bss)) + 1 < 2 ^ 32 ->
  outcome pinned (subtrees ps bss [hash o]) (o :: F ++ concat (prune ps bss [hash o])) st st' ->
  outcome pinned ((o, o :: dropped ps bss [hash o]) :: subtrees ps bss [hash o])
    (F ++ concat (prune ps bss [hash o])) st
    (drop_block o (npinned pinned (o :: dropped ps bss [hash o])) st').
Proof.
  intros Hok Hlen [Ht Hp Hf Hm]. set (n := npinned _ (o :: _)).
  assert (0 <= n < 2 ^ 32) as Hn.
  { pose proof (npinned_bounds pinned (o :: dropped ps bss [hash o])).
    pose proof (Permutation_length (prune_dropped ps bss [hash o])) as Hl.
    rewrite length_app in Hl. cbn [length] in *. subst n. lia. }
  pose proof (tr_nodup _ _ (tree_tracked _ _ _ _ Hok)) as Hnd.
  rewrite <-app_comm_cons, fmap_cons in Hnd. apply NoDup_cons in Hnd as [Hnew Hnd].
  assert (hash o ∉ hash <$> dropped ps bss [hash o]) as Hnew'.
  { intros (o' & Heq & Ho'%elem_of_dropped)%list_elem_of_fmap. apply Hnew. rewrite Heq.
    apply list_elem_of_fmap. exists o'. split; [done|]. apply elem_of_app. by right. }
  pose proof (tr_disjoint _ _ Ht (hash o) ltac:(left)) as Hpo.
  split.
  - by apply drop_block_tracked.
  - intros o' t [[= -> ->]|Hin]%elem_of_cons.
    + rewrite drop_block_pins, decide_True by done. done.
    + rewrite drop_block_pins by done. rewrite decide_False; [by apply Hp|].
      intros Heq. apply Hnew'. rewrite <-subtrees_fst.
      apply list_elem_of_fmap. exists o'. split; [done|]. apply list_elem_of_fmap. by exists (o', t).
  - intros h. rewrite fmap_cons, fmap_cons, not_elem_of_cons. cbn [fst]. intros [Hne Hh].
    destruct (Hf h Hh) as [<- <-].
    by rewrite drop_block_pins, drop_block_parents, !decide_False by naive_solver.
  - etrans; [|exact Hm]. unfold drop_block. destruct (n =? 0); [apply delete_subseteq|done].
Qed.
(** The blocks [cs] and what descends from them, each with its subtree *)
Definition forest ps bss (cs : list BlockOverlay) : list (BlockOverlay * list BlockOverlay) :=
  ((fun o => (o, o :: dropped ps bss [hash o])) <$> cs) ++ subtrees ps bss (hash <$> cs).

Lemma elem_of_forest_app ps bss (cs cs' : list BlockOverlay) x :
  (forall h, h ∈ hash <$> cs -> h ∉ hash <$> cs') -> NoDup (hash <$> concat bss) ->
  x ∈ forest ps bss (cs ++ cs') <->
  x ∈ forest ps bss cs \/ x ∈ forest ps (prune ps bss (hash <$> cs)) cs'.
Proof.
  intros Hd Hnd. unfold forest. rewrite (subtrees_prune ps bss (hash <$> cs)) by done.
  rewrite !fmap_app, !elem_of_app, elem_of_subtrees_app.
  assert (((fun c : BlockOverlay => (c, c :: dropped ps (prune ps bss (hash <$> cs)) [hash c])) <$> cs') =
    ((fun c => (c, c :: dropped ps bss [hash c])) <$> cs')) as ->; [|tauto].
  apply Forall_fmap_ext_1, Forall_forall. intros c Hc. do 2 f_equal.
  apply dropped_prune; [done|]. intros y Hy ->%list_elem_of_singleton.
  apply (Hd _ Hy), list_elem_of_fmap. eauto.
Qed.

Lemma elem_of_forest_cons ps bss (o : BlockOverlay) cs x :
  hash o ∉ hash <$> cs -> NoDup (hash <$> concat bss) ->
  x ∈ forest ps bss (o :: cs) <->
  x ∈ (o, o :: dropped ps bss [hash o]) :: subtrees ps bss [hash o] \/
  x ∈ forest ps (prune ps bss [hash o]) cs.
Proof.
  intros Hnew Hnd. apply (elem_of_forest_app ps bss [o] cs); [|done].
  by intros h ->%list_elem_of_singleton.
Qed.

Lemma forest_fst ps bss cs : (forest ps bss cs).*1 = cs ++ dropped ps bss (hash <$> cs).
Proof.
  unfold forest. rewrite fmap_app, subtrees_fst, <-list_fmap_compose. f_equal. apply list_fmap_id.
Qed.

(** Taking the first child out of a level *)
Lemma filter_child_middle ps h l1 (o : BlockOverlay) l2 :
  child_of ps [h] o ->
  filter (child_of ps [h]) l1 = [] ->
  filter (child_of ps [h]) (l1 ++ o :: l2) = o :: filter (child_of ps [h]) (l1 ++ l2) /\
  filter (fun o => ~ child_of ps [h] o) (l1 ++ o :: l2) = filter (fun o => ~ child_of ps [h] o) (l1 ++ l2).
Proof.
  intros Ho Hl1. rewrite !filter_app, !filter_cons, Hl1, decide_True by done.
  split; [done|]. by rewrite decide_False by tauto.
Qed.

Section step.
Context (ps : gmap BlockHash BlockHash) (h : BlockHash) (l1 : list BlockOverlay) (o : BlockOverlay).
Context (l2 : list BlockOverlay) (bss : list (list BlockOverlay)).
Context (Ho : child_of ps [h] o) (Hl1 : filter (child_of ps [h]) l1 = []).
Let bss1 := (l1 ++ l2) :: prune ps bss [hash o].

Lemma prune_level_step : prune ps ((l1 ++ o :: l2) :: bss) [h] = prune ps bss1 [h].
Proof.
  subst bss1. cbn [prune]. destruct (filter_child_middle ps h l1 o l2) as [-> ->]; [done..|].
  f_equal. rewrite prune_app. done.
Qed.

Lemma dropped_step :
  dropped ps ((l1 ++ o :: l2) :: bss) [h] ≡ₚ (o :: dropped ps bss [hash o]) ++ dropped ps bss1 [h].
Proof.
  subst bss1. cbn [dropped]. destruct (filter_child_middle ps h l1 o l2) as [-> _]; [done..|].
  rewrite fmap_cons, (dropped_app_perm ps bss [hash o] (hash <$> _) : dropped ps bss (_ :: _) ≡ₚ _).
  solve_Permutation.
Qed.

Lemma subtrees_step x :
  NoDup (hash <$> l1 ++ o :: l2) -> NoDup (hash <$> concat bss) ->
  x ∈ subtrees ps ((l1 ++ o :: l2) :: bss) [h] <->
  x ∈ (o, o :: dropped ps bss [hash o]) :: subtrees ps bss [hash o] \/ x ∈ subtrees ps bss1 [h].
Proof.
  intros Hnd Hnd'. subst bss1. cbn [subtrees].
  destruct (filter_child_middle ps h l1 o l2) as [-> _]; [done..|].
  apply (elem_of_forest_cons ps bss o (filter (child_of ps [h]) (l1 ++ l2)) x); [|done].
  intros (o' & Heq & [_ Ho']%list_elem_of_filter)%list_elem_of_fmap.
  rewrite <-Permutation_middle, fmap_cons in Hnd. apply NoDup_cons in Hnd as [Hnew _].
  apply Hnew. rewrite Heq. apply list_elem_of_fmap. eauto.
Qed.
End step.

(** What [discard_descendants] does in [n] levels *)
Definition discards_below pinned ps (n : nat)
    (below : list OverlayLevel -> Kept -> BlockHash -> option (list OverlayLevel * Kept * Z)) : Prop :=
  forall bss st h F,
  (length bss <= n)%nat -> tree_ok ps bss F st -> Z.of_nat (length (concat bss)) < 2 ^ 32 ->
  exists st',
    below (level_of <$> bss) st h =
      Some (level_of <$> prune ps bss [h], st', npinned pinned (dropped ps bss [h])) /\
    outcome pinned (subtrees ps bss [h]) (F ++ concat (prune ps bss [h])) st st'.

Lemma tree_ok_move ps bss F F' bs bs' st :
  tree_ok ps (bs :: bss) F st -> F ++ bs ≡ₚ F' ++ bs' -> sublist bs' bs ->
  tree_ok ps (bs' :: bss) F' st.
Proof.
  intros [Ht Hi Ha] Hp Hs. apply Forall_cons in Hi as [Hbs Hi]. split.
  - cbn. rewrite app_assoc, <-Hp, <-app_assoc. done.
  - apply Forall_cons. split; [by eapply indices_ok_sublist|done].
  - intros o. cbn. intros [Ho|Ho]%elem_of_app; apply Ha; cbn; apply elem_of_app; [left|by right].
    by eapply elem_of_sublist.
Qed.

Lemma tree_ok_tail ps bss F bs st : tree_ok ps (bs :: bss) F st -> tree_ok ps bss (F ++ bs) st.
Proof.
  intros [Ht Hi Ha]. apply Forall_cons in Hi as [_ Hi]. split; [|done|].
  - rewrite <-app_assoc. done.
  - intros o Ho. apply Ha. cbn. apply elem_of_app. by right.
Qed.

(** The parents of the blocks that are left *)
Lemma tree_ok_outcome pinned ps bss S F R st st' hs :
  tree_ok ps bss F st -> outcome pinned S (R ++ concat (prune ps bss hs)) st st' ->
  tree_ok ps (prune ps bss hs) R st'.
Proof.
  intros [Ht Hi Ha] [Ht' _ _ Hm]. split; [done|by apply prune_indices|].
  intros o Ho. rewrite <-(Ha o) by (by eapply elem_of_prune).
  destruct (proj2 (tr_parents _ _ Ht' (hash o))) as [p Hp].
  { left. rewrite fmap_app. apply elem_of_app. right. apply list_elem_of_fmap. eauto. }
  rewrite Hp. symmetry. by eapply lookup_weaken.
Qed.
Lemma subtrees_hash ps bss hs h :
  h ∈ hash <$> (subtrees ps bss hs).*1 -> h ∈ hash <$> dropped ps bss hs.
Proof. by rewrite subtrees_fst. Qed.

Lemma tree_parent ps bss F st o :
  tree_ok ps bss F st -> o ∈ concat bss -> is_Some (k_parents st !! hash o).
Proof.
  intros [Ht _ _] Ho. apply (tr_parents _ _ Ht). left. rewrite fmap_app. apply elem_of_app. right.
  apply list_elem_of_fmap. eauto.
Qed.

Lemma child_position_ext ps ps' h bs :
  (forall o, o ∈ bs -> ps !! hash o = ps' !! hash o) -> child_position ps h bs = child_position ps' h bs.
Proof.
  induction bs as [|o bs IH]; intros Hps; [done|]. cbn. rewrite (Hps o) by left.
  rewrite IH by (intros; apply Hps; by right). done.
Qed.

Lemma next_child ps h bs bss F st :
  tree_ok ps (bs :: bss) F st ->
  (filter (child_of ps [h]) bs = [] /\ child_position (k_parents st) h bs = Some None) \/
  exists l1 o l2, bs = l1 ++ o :: l2 /\ filter (child_of ps [h]) l1 = [] /\ child_of ps [h] o /\
    child_position (k_parents st) h bs = Some (Some (length l1)).
Proof.
  intros Hok.
  assert (forall o, o ∈ bs -> o ∈ concat (bs :: bss)) as Hin by (intros; cbn; apply elem_of_app; by left).
  rewrite (child_position_ext _ ps) by (intros o Ho; apply (tree_agree _ _ _ _ Hok); auto).
  apply child_position_spec. intros o Ho. rewrite <-(tree_agree _ _ _ _ Hok) by auto.
  apply (tree_parent _ _ _ _ _ Hok); auto.
Qed.

Lemma pinned_next pinned (o : BlockOverlay) t :
  Z.of_nat (length t) + 1 < 2 ^ 32 ->
  (if bool_decide (is_Some (pinned !! hash o)) then wadd 32 (npinned pinned t) 1 else npinned pinned t) =
  npinned pinned (o :: t).
Proof.
  intros Hl. rewrite npinned_cons. pose proof (npinned_bounds pinned t).
  case_bool_decide; [|done]. rewrite wadd_small by (unfold in_range; lia). lia.
Qed.

Lemma length_prune ps bss : forall hs, length (prune ps bss hs) = length bss.
Proof. induction bss as [|bs bss IH]; intros hs; [done|]. cbn. by rewrite IH. Qed.

Lemma levels_nil ps bss : prune ps bss [] = bss /\ dropped ps bss [] = [] /\ subtrees ps bss [] = [].
Proof.
  split; [apply prune_nil; intros; apply not_elem_of_nil|].
  induction bss as [|bs bss [IH1 IH2]]; [done|]. cbn.
  rewrite filter_none by (intros; apply child_of_nil). done.
Qed.

Lemma levels_none ps bs bss h :
  filter (child_of ps [h]) bs = [] ->
  prune ps (bs :: bss) [h] = bs :: bss /\ dropped ps (bs :: bss) [h] = [] /\
  subtrees ps (bs :: bss) [h] = [].
Proof.
  intros Hno. cbn [prune dropped subtrees]. rewrite Hno. cbn.
  assert (filter (fun o => ~ child_of ps [h] o) bs = bs) as ->.
  { apply filter_all. intros o Ho Hc.
    assert (o ∈ filter (child_of ps [h]) bs) as Hin by (by apply list_elem_of_filter).
    rewrite Hno in Hin. by apply elem_of_nil in Hin. }
  by destruct (levels_nil ps bss) as (-> & -> & ->).
Qed.

(** One round of the loop over the children *)
Lemma discard_children_step pinned ps n below l1 o l2 bss st F :
  discards_below pinned ps n below ->
  (length bss <= n)%nat -> tree_ok ps ((l1 ++ o :: l2) :: bss) F st ->
  Z.of_nat (length (concat ((l1 ++ o :: l2) :: bss))) < 2 ^ 32 ->
  exists st',
    below (level_of <$> bss) st (hash o) =
      Some (level_of <$> prune ps bss [hash o], st', npinned pinned (dropped ps bss [hash o])) /\
    let st1 := drop_block o (npinned pinned (o :: dropped ps bss [hash o])) st' in
    outcome pinned ((o, o :: dropped ps bss [hash o]) :: subtrees ps bss [hash o])
      (F ++ concat ((l1 ++ l2) :: prune ps bss [hash o])) st st1 /\
    tree_ok ps ((l1 ++ l2) :: prune ps bss [hash o]) F st1.
Proof.
  intros Hbelow Hn Hok Hlen. cbn [concat] in Hlen. rewrite !length_app in Hlen. cbn in Hlen.
  pose proof (tree_ok_tail _ _ _ _ _ Hok) as Htail.
  assert (tree_ok ps bss (o :: F ++ l1 ++ l2) st) as Htail'.
  { destruct Htail as [Ht Hi Ha]. split; [|done..]. rewrite app_comm_cons.
    eapply tracked_Proper; [|done|exact Ht]. solve_Permutation. }
  destruct (Hbelow bss st (hash o) _ Hn Htail') as (st' & -> & Hout); [lia|].
  exists st'. split; [done|]. cbn zeta.
  apply (drop_subtree pinned ps bss (F ++ l1 ++ l2)) in Hout; [|done|lia].
  rewrite <-!app_assoc in Hout. cbn [concat]. rewrite <-app_assoc. split; [done|].
  split.
  - cbn. rewrite <-app_assoc. apply Hout.
  - destruct Hok as [_ Hi _]. apply Forall_cons in Hi as [Hbs Hi]. apply Forall_cons.
    split; [|by apply prune_indices]. eapply indices_ok_sublist; [|done].
    apply sublist_app; [done|]. by apply sublist_cons.
  - intros c Hc. cbn in Hc. destruct Hout as [Ht' _ _ Hm].
    destruct (proj2 (tr_parents _ _ Ht' (hash c))) as [p Hp].
    { left. apply list_elem_of_fmap. exists c. rewrite !elem_of_app in *. tauto. }
    assert (c ∈ concat ((l1 ++ o :: l2) :: bss)) as Hc'.
    { cbn. rewrite !elem_of_app, elem_of_cons in *. pose proof (elem_of_prune ps bss [hash o] c). tauto. }
    rewrite <-(tree_agree _ _ _ _ Hok c) by done. rewrite Hp. symmetry. by eapply lookup_weaken.
Qed.

Lemma discard_children_ok pinned ps n below h :
  discards_below pinned ps n below ->
  forall fuel bs bss st acc F,
  (length (filter (child_of ps [h]) bs) <= fuel)%nat -> (length bss <= n)%nat ->
  tree_ok ps (bs :: bss) F st -> 0 <= acc ->
  acc + Z.of_nat (length (concat (bs :: bss))) < 2 ^ 32 ->
  exists st',
    discard_children fuel below pinned h (level_of bs) (level_of <$> bss) st acc =
      Some (level_of <$> prune ps (bs :: bss) [h], st', acc + npinned pinned (dropped ps (bs :: bss) [h])) /\
    outcome pinned (subtrees ps (bs :: bss) [h]) (F ++ concat (prune ps (bs :: bss) [h])) st st'.
Proof.
  intros Hbelow. induction fuel as [|fuel IH]; intros bs bss st acc F Hfuel Hn Hok Hacc Hlen;
    destruct (next_child ps h bs bss F st Hok) as [[Hno Hpos]|(l1 & o & l2 & -> & Hl1 & Ho & Hpos)].
  1, 3: exists st; destruct (levels_none ps bs bss h Hno) as (-> & -> & ->);
    split; [|by apply outcome_nil, Hok]; cbn; rewrite Hpos; cbn; by rewrite Z.add_0_r.
  all: destruct (filter_child_middle ps h l1 o l2) as [Hf _]; [done..|];
    rewrite Hf in Hfuel; cbn in Hfuel.
  { lia. }
  destruct (discard_children_step pinned ps n below l1 o l2 bss st F) as (st' & Hb & Hout & Hok1);
    [done..|lia|].
  pose proof (npinned_bounds pinned (o :: dropped ps bss [hash o])) as Hnp.
  pose proof (Permutation_length (prune_dropped ps bss [hash o])) as Hl.
  cbn [concat length] in Hl, Hlen, Hnp. rewrite length_app in Hl. rewrite !length_app in Hlen.
  cbn [length] in Hlen.
  cbn [discard_children]. cbn [blocks level_of]. rewrite Hpos. cbn [mbind option_bind].
  rewrite level_remove_of by (by apply (Forall_inv (tree_indices _ _ _ _ Hok))). cbn [mbind option_bind].
  rewrite Hb. cbn [mbind option_bind]. rewrite pinned_next by lia.
  rewrite wadd_small by (unfold in_range; lia).
  edestruct (IH (l1 ++ l2) (prune ps bss [hash o])) as (st2 & -> & Hout2);
    [lia|by rewrite length_prune|exact Hok1|lia|cbn; rewrite !length_app; lia|].
  exists st2. rewrite (prune_level_step ps h l1 o l2 bss), (dropped_step ps h l1 o l2 bss) by done.
  rewrite npinned_app. split; [do 2 f_equal; lia|].
  pose proof (tr_nodup _ _ (tree_tracked _ _ _ _ Hok)) as Hnd. rewrite fmap_app in Hnd.
  apply NoDup_app in Hnd as (_ & _ & Hnd).
  eapply outcome_trans; [exact Hout|exact Hout2| |].
  - intros x Hx Hx2. rewrite fmap_cons, subtrees_fst in Hx. apply subtrees_hash in Hx2.
    rewrite <-(prune_dropped ps _ [h]), (dropped_step ps h l1 o l2 bss) in Hnd by done.
    rewrite !fmap_app in Hnd. apply NoDup_app in Hnd as (_ & _ & Hnd).
    apply NoDup_app in Hnd as (_ & Hnd & _). by apply (Hnd x).
  - intros x. cbn [concat] in Hnd. rewrite fmap_app in Hnd. apply NoDup_app in Hnd as (? & _ & ?).
    by apply subtrees_step.
Qed.
Lemma discard_in_ok pinned ps n : discards_below pinned ps n (discard_in n pinned).
Proof.
  induction n as [|n IH]; intros bss st h F Hn Hok Hlen; (destruct bss as [|bs bss]; [|cbn in Hn]).
  1, 3: exists st; split; [done|by apply outcome_nil, Hok].
  { lia. }
  cbn [discard_in fmap list_fmap]. apply discard_children_ok with (n := n); try done; [|lia].
  apply length_filter.
Qed.

(** Discarding below [h] prunes all levels. *)
Lemma discard_descendants_ok pinned ps bss F st h :
  tree_ok ps bss F st -> Z.of_nat (length (concat bss)) < 2 ^ 32 ->
  exists st',
    discard_descendants (level_of <$> bss) st pinned h =
      Some (level_of <$> prune ps bss [h], st', npinned pinned (dropped ps bss [h])) /\
    outcome pinned (subtrees ps bss [h]) (F ++ concat (prune ps bss [h])) st st'.
Proof.
  intros Hok Hlen. unfold discard_descendants. rewrite length_fmap. by apply discard_in_ok.
Qed.

(** ** Journals of discarded blocks *)

Lemma discard_journals_ok ps bss : forall h,
  (forall o, o ∈ concat bss -> is_Some (ps !! hash o)) -> NoDup (hash <$> concat bss) ->
  exists js, discard_journals (level_of <$> bss) ps h = Some js /\
    js ≡ₚ journal_key <$> dropped ps bss [h].
Proof.
  induction bss as [|bs bss IH]; intros h Hps Hnd; [by exists []|].
  cbn [fmap list_fmap discard_journals blocks level_of dropped].
  cbn [concat] in Hps, Hnd. rewrite fmap_app in Hnd. apply NoDup_app in Hnd as (Hnd & _ & Hnd').
  setoid_rewrite elem_of_app in Hps.
  cut (exists kss, mapM (fun o =>
      p ← ps !! hash o;
      if bool_decide (p = h)
      then cons (journal_key o) <$> discard_journals (level_of <$> bss) ps (hash o)
      else Some []) bs = Some kss /\
    concat kss ≡ₚ journal_key <$> filter (child_of ps [h]) bs ++
      dropped ps bss (hash <$> filter (child_of ps [h]) bs)).
  { intros (kss & -> & Hp). by exists (concat kss). }
  induction bs as [|o bs IHbs].
  { exists []. split; [done|]. cbn. destruct (levels_none ps [] bss h) as (_ & Hd & _); [done|].
    cbn in Hd. by rewrite Hd. }
  rewrite fmap_cons in Hnd. apply NoDup_cons in Hnd as [Hnew Hnd].
  destruct IHbs as (kss & Hm & Hp); [intros o' [?|?]; apply Hps; [left; by right|by right]|done|].
  destruct (Hps o) as [p Hpo]; [left; left|].
  rewrite mapM_cons, Hpo. cbn [mbind option_bind].
  assert (child_of ps [h] o <-> p = h) as Hc
    by (unfold child_of; rewrite Hpo; apply list_elem_of_singleton).
  rewrite filter_cons. case_bool_decide as Hph.
  2:{ rewrite decide_False by tauto. rewrite Hm. cbn. by exists ([] :: kss). }
  rewrite decide_True by tauto.
  destruct (IH (hash o)) as (js & -> & Hjs); [auto|done|].
  cbn [fmap option_fmap option_map mbind option_bind]. rewrite Hm. cbn.
  exists ((journal_key o :: js) :: kss). split; [done|]. cbn [concat app]. constructor.
  rewrite Hjs, Hp. fold (hash (Key := Key) <$> filter (child_of ps [h]) bs).
  rewrite (dropped_app_perm ps bss [hash o] (hash <$> filter _ bs) : dropped ps bss (_ :: _) ≡ₚ _).
  rewrite dropped_prune; [rewrite !fmap_app; solve_Permutation|done|].
  intros x ->%list_elem_of_singleton (o' & Heq & [_ Ho']%list_elem_of_filter)%list_elem_of_fmap.
  apply Hnew. rewrite Heq. apply list_elem_of_fmap. eauto.
Qed.

(** ** Releasing retained blocks *)

(** One reference less *)
Definition released (e : option (list Key * Z)) : option (list Key * Z) :=
  '(ins, n) ← e; if n - 1 =? 0 then None else Some (ins, n - 1).

Definition release_one h (st : Kept) ins n : Kept :=
  if n - 1 =? 0 then
    mkKept (discard_values (k_values st) ins) (delete h (k_parents st))
      (delete h (k_pinned_insertions st))
  else mkKept (k_values st) (k_parents st) (<[h := (ins, n - 1)]> (k_pinned_insertions st)).

Lemma release_one_pins h st ins n x :
  k_pinned_insertions st !! h = Some (ins, n) ->
  k_pinned_insertions (release_one h st ins n) !! x =
    if decide (x = h) then released (k_pinned_insertions st !! h) else k_pinned_insertions st !! x.
Proof.
  intros Hh. unfold release_one, released. rewrite Hh. cbn.
  destruct (n - 1 =? 0); cbn; case_decide; subst.
  - apply lookup_delete_eq.
  - by apply lookup_delete_ne.
  - apply lookup_insert_eq.
  - by apply lookup_insert_ne.
Qed.

Lemma release_one_parents h st ins n : k_parents (release_one h st ins n) ⊆ k_parents st.
Proof. unfold release_one. destruct (n - 1 =? 0); [apply delete_subseteq|done]. Qed.

Lemma release_one_parents_ne h st ins n x :
  x <> h -> k_parents (release_one h st ins n) !! x = k_parents st !! x.
Proof. intros Hx. unfold release_one. destruct (n - 1 =? 0); [by apply lookup_delete_ne|done]. Qed.

Lemma release_one_tracked bs h st ins n :
  tracked bs st -> k_pinned_insertions st !! h = Some (ins, n) -> tracked bs (release_one h st ins n).
Proof.
  intros [Hnd Hps Hd Hc Hpins] Hh. pose proof (Hpins _ _ _ Hh) as Hn.
  assert (h ∉ hash <$> bs) as Hout by (intros Hin%Hd; congruence).
  unfold release_one. case_eq (n - 1 =? 0); rewrite ?Z.eqb_eq, ?Z.eqb_neq; intros Hz;
    split; cbn; try done.
  - intros x. destruct (decide (x = h)) as [->|Hne].
    + rewrite !lookup_delete_eq, !is_Some_alt. tauto.
    + rewrite !lookup_delete_ne by done. apply Hps.
  - intros x Hx. rewrite lookup_delete_ne by congruence. by apply Hd.
  - apply discard_values_counted. unfold all_keys in *.
    rewrite (pin_keys_delete _ h ins n) in Hc by done.
    by rewrite (Permutation_app_swap_app (concat _)) in Hc.
  - intros x ins' m. destruct (decide (x = h)) as [->|Hne]; [by rewrite lookup_delete_eq|].
    rewrite lookup_delete_ne by done. apply Hpins.
  - intros x. rewrite Hps. destruct (decide (x = h)) as [->|Hne].
    + rewrite lookup_insert_eq, Hh, !is_Some_alt. tauto.
    + by rewrite lookup_insert_ne by done.
  - intros x Hx. rewrite lookup_insert_ne by congruence. by apply Hd.
  - unfold all_keys in *. by rewrite (pin_keys_update _ h ins n) by done.
  - intros x ins' m. destruct (decide (x = h)) as [->|Hne].
    + rewrite lookup_insert_eq. intros [= _ <-]. lia.
    + rewrite lookup_insert_ne by done. apply Hpins.
Qed.

(** Being a descendant *)
Definition descends ps : relation BlockHash := rtc (fun x y => ps !! x = Some y).

Record released_upto h st st' : Prop := mkReleased {
  rel_parents : k_parents st' ⊆ k_parents st;
  rel_self : k_pinned_insertions st' !! h = released (k_pinned_insertions st !! h);
  rel_pins : forall x, k_pinned_insertions st' !! x = k_pinned_insertions st !! x \/
    k_pinned_insertions st' !! x = released (k_pinned_insertions st !! x);
  rel_frame : forall x, ~ descends (k_parents st) h x ->
    k_pinned_insertions st' !! x = k_pinned_insertions st !! x /\
    k_parents st' !! x = k_parents st !! x;
  rel_next : forall p, is_Some (k_pinned_insertions st !! h) -> k_parents st !! h = Some p ->
    k_pinned_insertions st' !! p = released (k_pinned_insertions st !! p)
}.

Lemma released_none h st : k_pinned_insertions st !! h = None -> released_upto h st st.
Proof. intros Hh. split; [done|by rewrite Hh|by left|done|]. intros p. rewrite Hh. by intros [? ?]. Qed.

Section ranked.
Context (number_of : BlockHash -> Z).

(** Parents have lower numbers. *)
Definition ranked ps : Prop := forall h p, ps !! h = Some p -> number_of p = number_of h - 1.

Definition below_rank (h : BlockHash) (pins : gmap BlockHash (list Key * Z)) : nat :=
  size (filter (fun e => number_of e.1 <= number_of h) pins).

Lemma ranked_mono ps ps' : ps' ⊆ ps -> ranked ps -> ranked ps'.
Proof. intros Hs Hr h p Hh. apply Hr. by eapply lookup_weaken. Qed.

Lemma descends_rank ps h x : ranked ps -> descends ps h x -> x = h \/ number_of x < number_of h.
Proof.
  intros Hr. induction 1 as [|h p x Hp _ IH]; [by left|]. right.
  apply Hr in Hp. destruct IH as [->|IH]; lia.
Qed.

Lemma below_rank_pos h pins : is_Some (pins !! h) -> (0 < below_rank h pins)%nat.
Proof.
  intros [e He]. unfold below_rank. apply Nat.neq_0_lt_0. intros Hz%map_size_empty_iff.
  assert (filter (fun e => number_of e.1 <= number_of h) pins !! h = Some e) as Hin.
  { apply map_lookup_filter_Some. split; [done|]. cbn. lia. }
  rewrite Hz in Hin. by rewrite lookup_empty in Hin.
Qed.

Lemma below_rank_parent h p st ins n :
  number_of p < number_of h -> k_pinned_insertions st !! h = Some (ins, n) ->
  (below_rank p (k_pinned_insertions (release_one h st ins n)) < below_rank h (k_pinned_insertions st))%nat.
Proof.
  intros Hp Hh. unfold below_rank. rewrite <-!size_dom.
  apply subset_size. split.
  - intros x [e He]%elem_of_dom. apply map_lookup_filter_Some in He as [He Hx]. cbn in Hx.
    rewrite release_one_pins in He by done.
    rewrite decide_False in He by (intros ->; lia).
    apply elem_of_dom. exists e. apply map_lookup_filter_Some. split; [done|]. cbn. lia.
  - intros Hsub. assert (h ∈ dom (filter (fun e => number_of e.1 <= number_of h) (k_pinned_insertions st)))
      as Hin.
    { apply elem_of_dom. exists (ins, n). apply map_lookup_filter_Some. split; [done|]. cbn. lia. }
    apply Hsub, elem_of_dom in Hin as [e He]. apply map_lookup_filter_Some in He as [_ He].
    cbn in He. lia.
Qed.

Lemma release_walk_ok bs fuel : forall h st,
  tracked bs st -> ranked (k_parents st) -> (below_rank h (k_pinned_insertions st) <= fuel)%nat ->
  exists st', release fuel h st = Some st' /\ tracked bs st' /\ released_upto h st st'.
Proof.
  induction fuel as [|fuel IH]; intros h st Ht Hr Hfuel;
    (destruct (k_pinned_insertions st !! h) as [[ins n]|] eqn:Hh;
     [pose proof (below_rank_pos h (k_pinned_insertions st) ltac:(rewrite Hh; eauto)) as Hpos|
      exists st; cbn; rewrite Hh; split_all; [done..|]; by apply released_none]); [lia|].
  pose proof (tr_pins _ _ Ht _ _ _ Hh) as Hn.
  pose proof (release_one_tracked bs h st ins n Ht Hh) as Ht1.
  pose proof (release_one_parents h st ins n) as Hm.
  cbn [release]. rewrite Hh, wsub_small by (unfold in_range; lia). fold (release_one h st ins n).
  assert (exists p, k_parents st !! h = Some p) as [p Hp].
  { apply (tr_parents _ _ Ht). right. rewrite Hh. eauto. }
  rewrite Hp. pose proof (Hr _ _ Hp) as Hlt.
  assert (descends (k_parents st) h h) as Hrefl by apply rtc_refl.
  edestruct (IH p (release_one h st ins n)) as (st' & -> & Ht' & Hrel);
    [done|by eapply ranked_mono| |].
  { pose proof (below_rank_parent h p st ins n ltac:(lia) Hh). lia. }
  destruct Hrel as [Hrp Hrs Hrn Hrf _]. exists st'. split_all; [done..|]. split.
  - by transitivity (k_parents (release_one h st ins n)).
  - destruct (Hrf h) as [-> _].
    { intros Hd. apply (descends_rank _ _ _ (ranked_mono _ _ Hm Hr)) in Hd as [Heq|?]; [|lia].
      rewrite Heq in Hlt. lia. }
    rewrite release_one_pins, decide_True by done. done.
  - intros x. destruct (decide (x = h)) as [->|Hne].
    + right. destruct (Hrf h) as [-> _]; [|by rewrite release_one_pins, decide_True by done].
      intros Hd. apply (descends_rank _ _ _ (ranked_mono _ _ Hm Hr)) in Hd as [Heq|?]; [|lia].
      rewrite Heq in Hlt. lia.
    + specialize (Hrn x). by rewrite release_one_pins, decide_False in Hrn by done.
  - intros x Hx. assert (x <> h) as Hne by congruence.
    destruct (Hrf x) as [-> ->].
    { intros Hd. apply Hx. eapply rtc_l; [exact Hp|].
      eapply rtc_subrel; [|exact Hd]. intros a b Hab. exact (lookup_weaken _ _ _ _ Hab Hm). }
    by rewrite release_one_pins, decide_False, release_one_parents_ne by done.
  - intros p' _. rewrite Hp. intros [= <-]. assert (p <> h) as Hne by (intros ->; lia).
    by rewrite Hrs, release_one_pins, decide_False by done.
Qed.
End ranked.
End discard.
