(* ===== verification/NonCanonicalInv.v ===== *)
(** The invariant of the non-canonical overlay, and inserting blocks
    (client/state-db/src/noncanonical.rs).

    [number_of] gives the number of the block with a given hash: a hash identifies a block.
    In a state with [overlay_ok], the blocks of level [i] have the number [front + i], their
    parents are in the level before, the journal indices of a level are distinct, and the
    parents, the values and the retained blocks are [tracked]. *)

From stdpp Require Import base numbers list option gmap sets fin_maps.
From S2P Require Import Prelude NonCanonical Discard.

Local Open Scope Z_scope.
Local Open Scope rust_scope.

Section inv.
Context {BlockHash Key DBValue : Type} `{Countable BlockHash} `{Countable Key}.
Context (content : Key -> DBValue) (number_of : BlockHash -> Z).
Abbreviation BlockOverlay := (@BlockOverlay BlockHash Key).
Abbreviation Kept := (@Kept BlockHash Key DBValue _ _ _ _).
Abbreviation CommitSet := (@CommitSet BlockHash Key DBValue).
Abbreviation NC := (@NonCanonicalOverlay BlockHash Key DBValue _ _ _ _).
Implicit Types (ps : gmap BlockHash BlockHash) (hs : list BlockHash) (st : Kept) (s : NC).
Implicit Types (bs : list BlockOverlay) (bss : list (list BlockOverlay)).

(** The blocks of all levels *)
Definition bss_of s : list (list BlockOverlay) := blocks <$> levels s.

(** Where a block is, and under which key its journal record is kept *)
Definition placed (front : Z) bss : Prop :=
  forall i bs o, bss !! i = Some bs -> o ∈ bs ->
    number_of (hash o) = front + Z.of_nat i /\
    journal_key o = JournalKey (front + Z.of_nat i) (journal_index o).

(** The parents of the blocks of a level are in the level before. *)
Definition linked ps bss : Prop :=
  forall i bs o, bss !! S i = Some bs -> o ∈ bs ->
    exists bs' p, bss !! i = Some bs' /\ ps !! hash o = Some p /\ p ∈ hash <$> bs'.

Record overlay_ok s : Prop := mkOk {
  ok_levels : levels s = level_of <$> bss_of s;
  ok_tree : tree_ok content (parents s) (bss_of s) [] (kept_of s);
  ok_rank : ranked number_of (parents s);
  ok_placed : placed (front_block_number s) (bss_of s);
  ok_linked : linked (parents s) (bss_of s);
  ok_front : forall h n bs o, last_canonicalized s = Some (h, n) ->
    bss_of s !! 0%nat = Some bs -> o ∈ bs -> parents s !! hash o = Some h;
  ok_last : forall h n, last_canonicalized s = Some (h, n) -> number_of h = n /\ 0 <= n < 2 ^ 64 - 1;
  ok_bound : front_block_number s + Z.of_nat (length (levels s)) < 2 ^ 64;
  ok_size : Z.of_nat (length (concat (bss_of s))) < 2 ^ 32;
  ok_pinned : forall h n, pinned s !! h = Some n -> 0 < n < 2 ^ 32
}.

Lemma front_some s h n : overlay_ok s -> last_canonicalized s = Some (h, n) -> front_block_number s = n + 1.
Proof.
  intros Hok Hl. unfold front_block_number. rewrite Hl.
  pose proof (ok_last _ Hok _ _ Hl). apply wadd_small. unfold in_range. lia.
Qed.

Lemma front_nonneg s : overlay_ok s -> 0 <= front_block_number s.
Proof.
  intros Hok. destruct (last_canonicalized s) as [[h n]|] eqn:Hl.
  - rewrite (front_some s h n) by done. pose proof (ok_last _ Hok _ _ Hl). lia.
  - unfold front_block_number. by rewrite Hl.
Qed.

Lemma length_bss s : length (bss_of s) = length (levels s).
Proof. apply length_fmap. Qed.

Lemma elem_of_levels bss (o : BlockOverlay) : o ∈ concat bss <-> exists i bs, bss !! i = Some bs /\ o ∈ bs.
Proof.
  induction bss as [|bs bss IH]; cbn.
  { rewrite elem_of_nil. split; [done|]. by intros (i & bs & Hi & _). }
  rewrite elem_of_app, IH. split.
  - intros [Ho|(i & bs' & Hi & Ho)]; [exists 0%nat|exists (S i)]; eauto.
  - intros ([|i] & bs' & Hi & Ho); cbn in Hi; [left; congruence|eauto].
Qed.

(** The level of a block is known from its number. *)
Lemma placed_level front bss i o bs :
  placed front bss -> o ∈ concat bss -> bss !! i = Some bs -> number_of (hash o) = front + Z.of_nat i -> o ∈ bs.
Proof.
  intros Hp (j & bs' & Hj & Ho)%elem_of_levels Hi Hn. destruct (Hp j bs' o Hj Ho) as [Hn' _].
  assert (i = j) as -> by lia. congruence.
Qed.

(** ** A block more *)

(** The block [o] put into level [i], behind the last level if need be *)
Definition put_block (i : nat) (o : BlockOverlay) bss : list (list BlockOverlay) :=
  take i bss ++ (default [] (bss !! i) ++ [o]) :: drop (S i) bss.

Lemma put_block_lookup i o bss j :
  (i <= length bss)%nat ->
  put_block i o bss !! j = if decide (j = i) then Some (default [] (bss !! i) ++ [o]) else bss !! j.
Proof.
  intros Hi. unfold put_block. case_decide as Hj; [subst j|].
  - rewrite lookup_app_r; rewrite length_take_le by done; [|done]. by rewrite Nat.sub_diag.
  - destruct (decide (j < i)%nat) as [Hlt|Hge].
    + rewrite lookup_app_l by (rewrite length_take_le; done). by rewrite lookup_take_lt.
    + rewrite lookup_app_r; rewrite length_take_le by done; [|lia].
      destruct (j - i)%nat as [|d] eqn:Hd; [lia|]. change (drop (S i) bss !! d = bss !! j).
      rewrite lookup_drop. f_equal. lia.
Qed.

Lemma put_block_perm i o bss : (i <= length bss)%nat -> concat (put_block i o bss) ≡ₚ o :: concat bss.
Proof.
  intros Hi. unfold put_block. rewrite concat_app. cbn [concat].
  destruct (bss !! i) as [bs|] eqn:Hb; cbn [default].
  - rewrite <-(take_drop_middle bss i bs) at 3 by done. rewrite concat_app. cbn. solve_Permutation.
  - apply lookup_ge_None in Hb. rewrite take_ge, drop_ge by lia. cbn. solve_Permutation.
Qed.

Lemma put_block_length i o bss : (i <= length bss)%nat -> length (put_block i o bss) = max (length bss) (S i).
Proof. intros Hi. unfold put_block. rewrite length_app, length_take_le by done. cbn. rewrite length_drop. lia. Qed.

Lemma tracked_insert bs st o p ins :
  tracked content bs st -> hash o ∉ hash <$> bs -> k_pinned_insertions st !! hash o = None ->
  inserted o = ins.*1 -> Forall (fun kv => kv.2 = content kv.1) ins ->
  Z.of_nat (length (all_keys bs (k_pinned_insertions st))) + Z.of_nat (length ins) < 2 ^ 32 ->
  tracked content (o :: bs)
    (mkKept (insert_values (k_values st) ins) (<[hash o := p]> (k_parents st)) (k_pinned_insertions st)).
Proof.
  intros [Hnd Hps Hd Hc Hpins] Hnew Hpo Hins Hv Hl. split;
    cbn [k_values k_parents k_pinned_insertions]; [by rewrite fmap_cons; constructor|..|done].
  - intros h. rewrite fmap_cons, elem_of_cons. destruct (decide (h = hash o)) as [->|Hne].
    + rewrite lookup_insert_eq. split; eauto.
    + rewrite lookup_insert_ne, Hps by done. tauto.
  - intros h. rewrite fmap_cons. intros [->|Hh]%elem_of_cons; [done|by apply Hd].
  - rewrite all_keys_cons, Hins. by apply insert_values_counted.
Qed.

(** ** Inserting a block *)

(** What [insert] expects of its caller: hashes determine numbers and keys determine values,
    the counters do not overflow, and the hash is not one that was discarded and is kept for
    a pin. *)
Record offered s (h : BlockHash) (number : Z) (parent : BlockHash) (cs : ChangeSet Key DBValue)
    : Prop := mkOffered {
  ins_number : number_of h = number;
  ins_parent : number_of parent = number - 1;
  ins_range : 0 <= number < 2 ^ 64 - 1;
  ins_content : Forall (fun kv => kv.2 = content kv.1) (cs_inserted cs);
  ins_room : Z.of_nat (length (all_keys (concat (bss_of s)) (pinned_insertions s))) +
    Z.of_nat (length (cs_inserted cs)) < 2 ^ 32;
  ins_blocks : Z.of_nat (length (concat (bss_of s))) + 1 < 2 ^ 32;
  ins_fresh : pinned_insertions s !! h = None
}.

(** The states in which [insert] does not check the parent: block 0 is in the overlay and
    nothing is canonical, so that neither number nor parent is looked at; or the parent was
    discarded and is kept for a pin, so that it passes for one of the overlay. *)
Definition unchecked s (number : Z) (parent : BlockHash) : Prop :=
  (last_canonicalized s = None /\ levels s <> [] /\ number <> 0) \/
  (number <> front_block_number s /\ pinned_insertions s !! parent <> None).

Definition insertable s (h : BlockHash) (number : Z) (parent : BlockHash) (cs : ChangeSet Key DBValue) : Prop :=
  offered s h number parent cs /\ ~ unchecked s number parent.

Lemma ins_genesis s number parent : ~ unchecked s number parent ->
  last_canonicalized s = None -> levels s = [] \/ number = 0.
Proof.
  intros Hu Hl. destruct (levels s) as [|l ls] eqn:He; [by left|]. right. destruct (decide (number = 0)) as [|Hn]; [done|].
  exfalso. apply Hu. left. rewrite He. done.
Qed.

Lemma ins_live s number parent : ~ unchecked s number parent ->
  number <> front_block_number s -> pinned_insertions s !! parent = None.
Proof.
  intros Hu Hn. destruct (pinned_insertions s !! parent) eqn:He; [|done]. exfalso. apply Hu. right. rewrite He. done.
Qed.

(** The last canonicalized block after an insertion *)
Definition last_after s (number : Z) (parent : BlockHash) : option (BlockHash * Z) :=
  match last_canonicalized s with
  | None => if (length (levels s) =? 0)%nat && (0 <? number) then Some (parent, number - 1) else None
  | l => l
  end.

Definition commit_after s (number : Z) (parent : BlockHash) : CommitSet :=
  match last_canonicalized s with
  | None =>
      if (length (levels s) =? 0)%nat && (0 <? number)
      then put_meta default_commit LastCanonicalKey (LastCanonicalOf parent (number - 1))
      else default_commit
  | Some _ => default_commit
  end.

Definition state_after s (i : nat) h number index parent (cs : ChangeSet Key DBValue) : NC :=
  mkNonCanonical (last_after s number parent)
    (level_of <$> put_block i (overlay_of h number index cs) (bss_of s))
    (<[h := parent]> (parents s)) (insert_values (values s) (cs_inserted cs))
    (pinned s) (pinned_insertions s) (pinned_canonicalized s).

(** A place for the block: below its parent, with a free journal index *)
Record place s (i : nat) h number index parent : Prop := mkPlace {
  pl_level : (i <= length (bss_of s))%nat;
  pl_number : number = default 0 ((fun l => l.2 + 1) <$> last_after s number parent) + Z.of_nat i;
  pl_room : Z.of_nat (length (default [] (bss_of s !! i))) < MAX_BLOCKS_PER_LEVEL;
  pl_new : h ∉ hash <$> default [] (bss_of s !! i);
  pl_index : 0 <= index < MAX_BLOCKS_PER_LEVEL;
  pl_free : index ∉ journal_index <$> default [] (bss_of s !! i);
  pl_front : i = 0%nat -> forall lh n, last_after s number parent = Some (lh, n) -> parent = lh;
  pl_parent : forall j, i = S j -> exists bs, bss_of s !! j = Some bs /\ parent ∈ hash <$> bs
}.

Lemma existsb_hash h bs : existsb (fun b => bool_decide (hash b = h)) bs = bool_decide (h ∈ hash <$> bs).
Proof.
  apply eq_bool_prop_intro. rewrite bool_decide_spec, list_elem_of_fmap.
  induction bs as [|o bs IH]; cbn.
  - split; [done|]. by intros (o & _ & Ho%elem_of_nil).
  - rewrite orb_True, IH, bool_decide_spec. setoid_rewrite elem_of_cons. naive_solver.
Qed.

Lemma insert_at_ok s bss i bs h number parent cs commit :
  levels s = level_of <$> bss -> bss !! i = Some bs -> indices_ok bs ->
  insert_at i h number parent cs commit s =
    if MAX_BLOCKS_PER_LEVEL <=? Z.of_nat (length bs) then (s, Err (TooManySiblingBlocks number))
    else if bool_decide (h ∈ hash <$> bs) then (s, Err BlockAlreadyExists)
    else
      let index := available_index (level_of bs) in
      (mkNonCanonical (last_canonicalized s)
         (level_of <$> put_block i (overlay_of h number index cs) bss)
         (<[h := parent]> (parents s)) (insert_values (values s) (cs_inserted cs))
         (pinned s) (pinned_insertions s) (pinned_canonicalized s),
       Ok (put_meta commit (JournalKey number index) (JournalRecordOf (record_of h parent cs)))).
Proof.
  intros Hl Hi Hok. unfold insert_at, bindM, getM, liftM, expect. rewrite Hl, list_lookup_fmap, Hi.
  cbn [fmap option_fmap option_map blocks level_of]. rewrite existsb_hash.
  case_eq (MAX_BLOCKS_PER_LEVEL <=? Z.of_nat (length bs)); intros Hfull; [done|].
  apply Z.leb_gt in Hfull.
  destruct (bool_decide (h ∈ hash <$> bs)); [done|].
  destruct (available_index_of bs Hok Hfull) as [Hidx _]. revert Hidx.
  generalize (available_index (level_of bs)). intros index Hidx.
  unfold putM, retM. cbn zeta. rewrite level_push_of by done.
  unfold put_block. rewrite Hi. cbn [default]. do 2 f_equal.
  rewrite <-list_fmap_insert. f_equal. apply insert_take_drop. by eapply lookup_lt_Some.
Qed.

Lemma put_block_new i o bss : i = length bss -> put_block i o (bss ++ [[]]) = put_block i o bss.
Proof.
  intros ->. unfold put_block. rewrite list_lookup_middle, (lookup_ge_None_2 bss) by done.
  rewrite take_app_length, take_ge by done. rewrite !drop_ge; [done|lia|].
  rewrite length_app. cbn. lia.
Qed.

(** The same in a level that may have to be made first *)
Lemma insert_placed s bss i h number parent cs commit :
  levels s = level_of <$> bss -> (i <= length bss)%nat -> Forall indices_ok bss ->
  let bs := default [] (bss !! i) in
  insert_at i h number parent cs commit
    (if (i =? length bss)%nat then set_levels s (levels s ++ [new_level]) else s) =
    if MAX_BLOCKS_PER_LEVEL <=? Z.of_nat (length bs) then (s, Err (TooManySiblingBlocks number))
    else if bool_decide (h ∈ hash <$> bs) then (s, Err BlockAlreadyExists)
    else
      let index := available_index (level_of bs) in
      (mkNonCanonical (last_canonicalized s)
         (level_of <$> put_block i (overlay_of h number index cs) bss)
         (<[h := parent]> (parents s)) (insert_values (values s) (cs_inserted cs))
         (pinned s) (pinned_insertions s) (pinned_canonicalized s),
       Ok (put_meta commit (JournalKey number index) (JournalRecordOf (record_of h parent cs)))).
Proof.
  intros Hl Hi Hok bs. subst bs. case_eq (i =? length bss)%nat; rewrite ?Nat.eqb_eq, ?Nat.eqb_neq; intros Hlast.
  - rewrite (lookup_ge_None_2 bss) by lia. cbn [default].
    rewrite (insert_at_ok _ (bss ++ [[]]) i []).
    + change (MAX_BLOCKS_PER_LEVEL <=? Z.of_nat (length [])) with false.
      rewrite bool_decide_eq_false_2 by apply not_elem_of_nil. cbn zeta.
      by rewrite put_block_new by done.
    + cbn. rewrite Hl, fmap_app. done.
    + by rewrite Hlast, list_lookup_middle.
    + split; constructor.
  - destruct (lookup_lt_is_Some_2 bss i) as [bs Hbs]; [lia|]. rewrite Hbs. cbn [default].
    apply insert_at_ok; [done..|]. rewrite Forall_lookup in Hok. by eapply Hok.
Qed.

Definition rejected s h number parent (e : StateDbError) : Prop :=
  let front := front_block_number s in
  let bs := default [] (bss_of s !! Z.to_nat (number - front)) in
  match e with
  | InvalidBlockNumber => number < front \/ front + Z.of_nat (length (levels s)) < number
  | InvalidParent =>
      if decide (number = front) then last_canonicalized s <> Some (parent, number - 1)
      else parents s !! parent = None
  | TooManySiblingBlocks n => n = number /\ MAX_BLOCKS_PER_LEVEL <= Z.of_nat (length bs)
  | BlockAlreadyExists => h ∈ hash <$> bs
  | _ => False
  end.

Lemma select_level_ok s front number :
  in_range 64 (front + Z.of_nat (length (levels s))) -> in_range 64 front ->
  front <= number <= front + Z.of_nat (length (levels s)) ->
  let i := Z.to_nat (number - front) in
  select_level front number s =
    (if (i =? length (levels s))%nat then set_levels s (levels s ++ [new_level]) else s, Ok i).
Proof.
  intros Hr Hf Hn. cbn zeta. unfold select_level, bindM, getM, retM, putM, in_range in *.
  rewrite wadd_small by (unfold in_range; lia).
  destruct (Nat.eqb_spec (length (levels s)) 0) as [Hz|Hz].
  { cbn [orb]. rewrite Hz in *. assert (number = front) as -> by lia. by rewrite Z.sub_diag. }
  destruct (Z.eqb_spec number (front + Z.of_nat (length (levels s)))) as [->|Hne]; cbn [orb].
  { replace (front + Z.of_nat (length (levels s)) - front) with (Z.of_nat (length (levels s))) by lia.
    rewrite Nat2Z.id, Nat.eqb_refl. done. }
  rewrite wsub_small by (unfold in_range; lia).
  rewrite (proj2 (Nat.ltb_lt _ _)), (proj2 (Nat.eqb_neq _ _)) by lia. done.
Qed.

Lemma set_last_same s : set_last s (last_canonicalized s) = s.
Proof. by destruct s. Qed.

Lemma last_after_nonempty s number parent : levels s <> [] -> last_after s number parent = last_canonicalized s.
Proof. intros Hl. unfold last_after. destruct (last_canonicalized s), (levels s); done. Qed.

Definition inserts s h number parent (cs : ChangeSet Key DBValue) : Prop :=
  (exists e, insert h number parent cs s = (s, Err e) /\ rejected s h number parent e) \/
  exists i index, place s i h number index parent /\
    insert h number parent cs s =
      (state_after s i h number index parent cs,
       Ok (put_meta (commit_after s number parent) (JournalKey number index)
             (JournalRecordOf (record_of h parent cs)))).

Lemma insert_run s i h number parent cs :
  overlay_ok s -> (i <= length (bss_of s))%nat ->
  check_position number parent s =
    (set_last s (last_after s number parent), Ok (commit_after s number parent)) ->
  select_level (front_block_number s) number (set_last s (last_after s number parent)) =
    (let s1 := set_last s (last_after s number parent) in
     if (i =? length (levels s))%nat then set_levels s1 (levels s ++ [new_level]) else s1, Ok i) ->
  (levels s <> [] -> i = Z.to_nat (number - front_block_number s)) ->
  number = default 0 ((fun l => l.2 + 1) <$> last_after s number parent) + Z.of_nat i ->
  (i = 0%nat -> forall lh n, last_after s number parent = Some (lh, n) -> parent = lh) ->
  (forall j, i = S j -> exists bs, bss_of s !! j = Some bs /\ parent ∈ hash <$> bs) ->
  inserts s h number parent cs.
Proof.
  intros Hok Hi Hcheck Hsel Hpos Hnum Hfront Hpar. unfold inserts.
  assert (insert h number parent cs s =
    insert_at i h number parent cs (commit_after s number parent)
      (if (i =? length (bss_of s))%nat
       then set_levels (set_last s (last_after s number parent)) (levels s ++ [new_level])
       else set_last s (last_after s number parent))) as ->.
  { unfold insert. unfold bindM at 1. unfold getM. cbn zeta.
    rewrite (bindM_ok _ _ _ _ _ _ Hcheck (eq_refl _)).
    rewrite (bindM_ok _ _ _ _ _ _ Hsel (eq_refl _)). by rewrite length_bss. }
  rewrite (insert_placed (set_last s (last_after s number parent)) (bss_of s));
    [|apply (ok_levels _ Hok)|done|apply (tree_indices _ _ _ _ _ (ok_tree _ Hok))].
  assert (default [] (bss_of s !! i) <> [] ->
    set_last s (last_after s number parent) = s /\
    i = Z.to_nat (number - front_block_number s)) as Herr.
  { intros Hne. assert (levels s <> []) as Hl.
    { intros Hnil. apply Hne. unfold bss_of. by rewrite Hnil. }
    rewrite last_after_nonempty, set_last_same by done. auto. }
  case_eq (MAX_BLOCKS_PER_LEVEL <=? Z.of_nat (length (default [] (bss_of s !! i)))); intros Hfull.
  { apply Z.leb_le in Hfull. left. eexists. destruct Herr as [-> Heq].
    - intros Hnil. rewrite Hnil in Hfull. by apply Hfull.
    - split; [done|]. cbn. rewrite <-Heq. done. }
  apply Z.leb_gt in Hfull. case_bool_decide as Hin.
  { left. eexists. destruct Herr as [-> Heq].
    - intros Hnil. rewrite Hnil in Hin. by apply not_elem_of_nil in Hin.
    - split; [done|]. cbn. by rewrite <-Heq. }
  right. exists i, (available_index (level_of (default [] (bss_of s !! i)))).
  destruct (available_index_of (default [] (bss_of s !! i))) as [Hr Hnew]; [|done|].
  { destruct (bss_of s !! i) as [bs|] eqn:Hbs; cbn; [|split; constructor].
    pose proof (tree_indices _ _ _ _ _ (ok_tree _ Hok)) as Hall. rewrite Forall_lookup in Hall.
    by eapply Hall. }
  split; [by split|]. done.
Qed.

(** The parent of a block above the front is a block of the level before. *)
Lemma parent_level s number parent j :
  overlay_ok s -> number_of parent = number - 1 -> is_Some (parents s !! parent) ->
  pinned_insertions s !! parent = None -> number = front_block_number s + Z.of_nat (S j) ->
  (S j <= length (bss_of s))%nat ->
  exists bs, bss_of s !! j = Some bs /\ parent ∈ hash <$> bs.
Proof.
  intros Hok Hn Hp Hlive Hnum Hj.
  destruct (lookup_lt_is_Some_2 (bss_of s) j) as [bs Hbs]; [lia|]. exists bs. split; [done|].
  pose proof (tree_tracked _ _ _ _ _ (ok_tree _ Hok)) as Ht.
  apply (tr_parents _ _ _ Ht) in Hp as [Hp|Hp]; [|cbn in Hp; rewrite Hlive in Hp; by destruct Hp].
  apply list_elem_of_fmap in Hp as (o & -> & Ho). apply list_elem_of_fmap. exists o. split; [done|].
  eapply placed_level; [apply (ok_placed _ Hok)|done|done|lia].
Qed.

Lemma insert_known s h number parent cs lh n :
  overlay_ok s -> insertable s h number parent cs -> last_canonicalized s = Some (lh, n) ->
  inserts s h number parent cs.
Proof.
  intros Hok Hins Hlast. pose proof (front_some s lh n Hok Hlast) as Hfr.
  destruct (ok_last _ Hok _ _ Hlast) as [Hlh Hn]. pose proof (ok_bound _ Hok) as Hb.
  destruct Hins as [[Hnum Hpar Hr _ _ _ _] Hchecked]. pose proof (ins_live s number parent Hchecked) as Hlive.
  assert (check_position number parent s =
    if (number <? front_block_number s) || (front_block_number s + Z.of_nat (length (levels s)) <? number)
    then (s, Err InvalidBlockNumber)
    else if number =? front_block_number s then
      if bool_decide (lh = parent) && (n =? wsub 64 number 1) then (s, Ok default_commit)
      else (s, Err InvalidParent)
    else if have_block s parent then (s, Ok default_commit) else (s, Err InvalidParent)) as Hc.
  { unfold check_position, bindM, getM. rewrite Hlast.
    rewrite wadd_small by (unfold in_range; lia). repeat case_match; done. }
  assert (last_after s number parent = Some (lh, n)) as Hla by (unfold last_after; by rewrite Hlast).
  assert (commit_after s number parent = default_commit) as Hca by (unfold commit_after; by rewrite Hlast).
  assert (forall e, check_position number parent s = (s, Err e) -> rejected s h number parent e ->
    inserts s h number parent cs) as Herr.
  { intros e He Hrej. left. exists e. split; [|done]. unfold insert. unfold bindM at 1, getM. cbn zeta.
    by rewrite (bindM_err _ _ _ _ _ He). }
  destruct (Z.ltb_spec number (front_block_number s)) as [Hlt|Hge]; [by eapply Herr; [exact Hc|left]|].
  destruct (Z.ltb_spec (front_block_number s + Z.of_nat (length (levels s))) number) as [Hgt|Hle];
    [by eapply Herr; [exact Hc|right]|]. cbn [orb] in Hc.
  assert (forall p, check_position number parent s = p -> p = (s, Ok default_commit) ->
    (number = front_block_number s -> parent = lh) ->
    (number <> front_block_number s -> is_Some (parents s !! parent)) ->
    inserts s h number parent cs) as Hgood.
  { intros p Hp -> Hp0 Hp1.
    apply (insert_run s (Z.to_nat (number - front_block_number s))); rewrite ?Hla, ?Hca, <-?Hlast, ?set_last_same;
      [done|rewrite length_bss; lia|done| |done| | |].
    - apply select_level_ok; unfold in_range; lia.
    - rewrite Hlast. cbn. lia.
    - intros Hz lh' n'. rewrite Hlast. intros [= <- <-]. apply Hp0. lia.
    - intros j Hj. eapply parent_level; [done|exact Hpar|apply Hp1; lia|apply Hlive; lia|lia|rewrite length_bss; lia]. }
  destruct (Z.eqb_spec number (front_block_number s)) as [Heq|Hne].
  - rewrite (wsub_small 64 number) in Hc by (unfold in_range; lia).
    rewrite (proj2 (Z.eqb_eq n (number - 1))) in Hc by lia. rewrite andb_true_r in Hc.
    case_bool_decide as Hlp; [by eapply Hgood; [exact Hc|done|auto|done]|].
    eapply Herr; [exact Hc|]. cbn. rewrite decide_True by done. rewrite Hlast. congruence.
  - unfold have_block in Hc. case_bool_decide as Hhave; [by eapply Hgood; [exact Hc|done|..]|].
    eapply Herr; [exact Hc|]. cbn. rewrite decide_False by done.
    by apply eq_None_not_Some.
Qed.

Lemma insert_cases s h number parent cs :
  overlay_ok s -> insertable s h number parent cs -> inserts s h number parent cs.
Proof.
  intros Hok Hins. destruct (last_canonicalized s) as [[lh n]|] eqn:Hlast; [by eapply insert_known|].
  assert (front_block_number s = 0) as Hfr by (unfold front_block_number; by rewrite Hlast).
  destruct Hins as [[Hnum Hpar Hr _ _ _ _] Hchecked]. pose proof (ins_genesis s number parent Hchecked Hlast) as Hgen.
  pose proof (ok_bound _ Hok) as Hb.
  apply (insert_run s 0); [done|lia|..].
  - unfold check_position, bindM, getM, putM, retM, last_after, commit_after. rewrite Hlast.
    destruct (_ && _); [done|]. by rewrite <-Hlast, set_last_same.
  - destruct Hgen as [Hnil| ->].
    + unfold select_level, bindM, getM, putM, retM. cbn. by rewrite Hnil.
    + rewrite select_level_ok; unfold in_range; cbn; try lia.
      by rewrite Hfr.
  - intros Hne. destruct Hgen as [?| ->]; [done|]. by rewrite Hfr.
  - unfold last_after. rewrite Hlast. destruct Hgen as [Hnil| ->].
    + rewrite Hnil. cbn. destruct (Z.ltb_spec 0 number); cbn; lia.
    + by rewrite andb_false_r.
  - intros _ lh n. unfold last_after. rewrite Hlast. destruct (_ && _); [|done]. by intros [= <- _].
  - done.
Qed.

(** [insert] panics exactly when nothing is canonical and the number is beyond the levels. *)
Lemma insert_at_total i h number parent cs c s :
  is_Some (levels s !! i) -> (insert_at i h number parent cs c s).2 <> Panic.
Proof.
  intros [l Hl]. unfold insert_at, bindM, getM, liftM. rewrite Hl. cbn [expect]. by repeat case_match.
Qed.

Lemma insert_selected s1 front i h number parent cs c : is_Some (levels s1 !! i) ->
  forall s, select_level front number s = (s1, Ok i) ->
  ((let* i := select_level front number in insert_at i h number parent cs c) s).2 <> Panic.
Proof. intros Hi s Hs. unfold bindM. rewrite Hs. by apply insert_at_total. Qed.

Lemma insert_panics s h number parent cs :
  overlay_ok s -> 0 <= number < 2 ^ 64 ->
  (insert h number parent cs s).2 = Panic <->
  last_canonicalized s = None /\ levels s <> [] /\ Z.of_nat (length (levels s)) < number.
Proof.
  intros Hok Hr. pose proof (ok_bound _ Hok) as Hb. unfold insert. unfold bindM at 1, getM. cbn zeta.
  assert (0 <= front_block_number s) as Hf0.
  { unfold front_block_number. destruct (last_canonicalized s) as [[lh n]|] eqn:Hl; [|done].
    destruct (ok_last _ Hok _ _ Hl) as [_ Hn]. rewrite wadd_small by (unfold in_range; lia). lia. }
  assert (forall c s1, length (levels s1) = length (levels s) ->
    front_block_number s <= number <= front_block_number s + Z.of_nat (length (levels s)) ->
    ((let* i := select_level (front_block_number s) number in insert_at i h number parent cs c) s1).2 <> Panic) as Hin.
  { intros c s1 Hlen Hn. eapply insert_selected; [|apply select_level_ok; rewrite ?Hlen; unfold in_range; lia].
    apply lookup_lt_is_Some_2. rewrite Hlen. destruct (Nat.eqb_spec (Z.to_nat (number - front_block_number s)) (length (levels s))) as [He|He];
      cbn; rewrite ?length_app; cbn; lia. }
  destruct (last_canonicalized s) as [[lh n]|] eqn:Hl.
  - split; [|by intros [? _]]. intros Hp. exfalso. revert Hp. unfold check_position, bindM at 1, bindM at 1, getM. rewrite Hl.
    rewrite wadd_small by (unfold in_range; lia).
    destruct (Z.ltb_spec number (front_block_number s)); cbn [orb]; [done|].
    destruct (Z.ltb_spec (front_block_number s + Z.of_nat (length (levels s))) number); cbn [orb]; [done|].
    destruct (number =? front_block_number s); [destruct (_ && _)|destruct (have_block s parent)]; try done;
      (apply Hin; [done|lia]).
  - assert (front_block_number s = 0) as Hfr by (unfold front_block_number; by rewrite Hl).
    unfold check_position, bindM at 1, bindM at 1, getM. rewrite Hl.
    destruct (Nat.eqb_spec (length (levels s)) 0) as [Hz|Hz].
    { split; [|intros (_ & Hne & _); by destruct (levels s)]. intros Hp. exfalso. revert Hp.
      assert (levels s = []) as Hnil by (by destruct (levels s)).
      assert (forall c s1, levels s1 = [] ->
        ((let* i := select_level (front_block_number s) number in insert_at i h number parent cs c) s1).2 <> Panic) as Hnew.
      { intros c s1 Hs1. eapply (insert_selected (set_levels s1 [new_level]) _ 0); [by eexists|].
        unfold select_level, bindM, getM, putM, retM. by rewrite Hs1. }
      cbn [andb]. destruct (0 <? number); unfold bindM at 1, putM, retM; by apply Hnew. }
    cbn [andb]. unfold retM at 1. destruct (Z.le_gt_cases number (Z.of_nat (length (levels s)))) as [Hle|Hgt].
    + split; [|intros (_ & _ & ?); lia]. intros Hp. exfalso. revert Hp. apply Hin; [done|lia].
    + split; [intros _; split_all; [done|by intros Hnil; rewrite Hnil in Hz|done]|]. intros _.
      unfold bindM, select_level, bindM, getM. rewrite (proj2 (Nat.eqb_neq _ _)) by done. rewrite Hfr.
      rewrite wadd_small by (unfold in_range; lia). rewrite (proj2 (Z.eqb_neq _ _)) by lia. cbn [orb].
      rewrite wsub_small by (unfold in_range; lia). by rewrite (proj2 (Nat.ltb_ge _ _)) by lia.
Qed.

Lemma bss_of_levels s bss : levels s = level_of <$> bss -> bss_of s = bss.
Proof. intros Hl. unfold bss_of. rewrite Hl, <-list_fmap_compose. apply list_fmap_id. Qed.

Section after.
Context (s : NC) (i : nat) (h : BlockHash) (number index : Z) (parent : BlockHash).
Context (cs : ChangeSet Key DBValue).
Context (Hok : overlay_ok s) (Hins : insertable s h number parent cs).
Context (Hplace : place s i h number index parent).
Abbreviation s' := (state_after s i h number index parent cs).
Abbreviation o := (overlay_of h number index cs).

Lemma bss_after : bss_of s' = put_block i o (bss_of s).
Proof. by apply bss_of_levels. Qed.

Lemma last_after_ok lh n : last_after s number parent = Some (lh, n) -> number_of lh = n /\ 0 <= n < 2 ^ 64 - 1.
Proof.
  destruct Hins as [[_ Hpar Hr _ _ _ _] _]. unfold last_after.
  destruct (last_canonicalized s) as [[lh' n']|] eqn:Hl.
  - intros [= <- <-]. by apply (ok_last _ Hok).
  - destruct (_ && _) eqn:Hc; [|done]. apply andb_prop in Hc as [_ Hc%Z.ltb_lt]. intros [= <- <-].
    split; [done|lia].
Qed.

Lemma front_after : front_block_number s' = number - Z.of_nat i.
Proof.
  pose proof (pl_number _ _ _ _ _ _ Hplace) as Hnum. unfold front_block_number. cbn.
  destruct (last_after s number parent) as [[lh n]|] eqn:Hl; cbn in Hnum; [|lia].
  apply last_after_ok in Hl. rewrite wadd_small by (unfold in_range; lia). lia.
Qed.

Lemma front_kept : bss_of s <> [] -> front_block_number s' = front_block_number s.
Proof.
  intros Hne. unfold front_block_number. cbn. rewrite last_after_nonempty; [done|].
  intros Hnil. apply Hne. unfold bss_of. by rewrite Hnil.
Qed.

Lemma front_kept_lookup j bs : bss_of s !! j = Some bs -> front_block_number s' = front_block_number s.
Proof. intros Hj. apply front_kept. intros Hnil. by rewrite Hnil in Hj. Qed.

(** The new block is not in another level. *)
Lemma block_is_new : h ∉ hash <$> concat (bss_of s).
Proof.
  intros (o' & Heq & Ho')%list_elem_of_fmap. pose proof Ho' as (j & bs & Hj & Hin)%elem_of_levels.
  pose proof (front_kept_lookup _ _ Hj) as Hf. rewrite front_after in Hf.
  destruct (ok_placed _ Hok j bs o' Hj Hin) as [Hn _]. rewrite <-Heq, (ins_number _ _ _ _ _ (proj1 Hins)) in Hn.
  apply (pl_new _ _ _ _ _ _ Hplace). assert (i = j) as -> by lia. rewrite Hj, Heq. cbn.
  apply list_elem_of_fmap. eauto.
Qed.

Lemma put_block_elem j bs (c : BlockOverlay) :
  put_block i o (bss_of s) !! j = Some bs -> c ∈ bs ->
  (j = i /\ c = o) \/ exists bs', bss_of s !! j = Some bs' /\ c ∈ bs'.
Proof.
  rewrite put_block_lookup by apply Hplace. case_decide as Hj; [|eauto].
  intros [= <-]. rewrite elem_of_app, list_elem_of_singleton. subst j.
  intros [Hc| ->]; [right|by left]. destruct (bss_of s !! i); [eauto|by apply elem_of_nil in Hc].
Qed.

Lemma put_block_sub j bs : bss_of s !! j = Some bs ->
  exists bs', put_block i o (bss_of s) !! j = Some bs' /\ forall c, c ∈ bs -> c ∈ bs'.
Proof.
  intros Hj. rewrite put_block_lookup by apply Hplace. case_decide as Heq; [subst j|eauto].
  eexists. split; [done|]. rewrite Hj. intros c Hc. apply elem_of_app. by left.
Qed.

Lemma after_tree : tree_ok content (parents s') (bss_of s') [] (kept_of s').
Proof.
  rewrite bss_after. pose proof (ok_tree _ Hok) as [Ht Hi Ha].
  pose proof block_is_new as Hnew. split.
  - cbn [app]. rewrite put_block_perm by apply Hplace.
    apply (tracked_insert (concat (bss_of s)) (kept_of s) o parent); cbn; try done; try apply Hins.
  - apply Forall_lookup. intros j bs. rewrite put_block_lookup by apply Hplace.
    rewrite Forall_lookup in Hi. case_decide as Hj; [|apply Hi].
    intros [= <-]. apply indices_ok_snoc; [|apply Hplace..].
    destruct (bss_of s !! i) eqn:Hb; cbn; [by eapply Hi|split; constructor].
  - done.
Qed.

Lemma after_placed : placed (front_block_number s') (bss_of s').
Proof.
  rewrite bss_after. intros j bs c Hj Hc.
  destruct (put_block_elem _ _ _ Hj Hc) as [[-> ->]|(bs' & Hj' & Hc')].
  - cbn. rewrite front_after, (ins_number _ _ _ _ _ (proj1 Hins)). split; [lia|]. f_equal. lia.
  - rewrite (front_kept_lookup _ _ Hj'). by eapply (ok_placed _ Hok).
Qed.

Lemma old_parent c : c ∈ concat (bss_of s) -> parents s' !! hash c = parents s !! hash c.
Proof.
  intros Hc. cbn. apply lookup_insert_ne. intros Heq. apply block_is_new, list_elem_of_fmap. eauto.
Qed.

Lemma after_linked : linked (parents s') (bss_of s').
Proof.
  rewrite bss_after. intros j bs c Hj Hc.
  destruct (put_block_elem _ _ _ Hj Hc) as [[Hji ->]|(bs' & Hj' & Hc')].
  - destruct (pl_parent _ _ _ _ _ _ Hplace j ltac:(done)) as (bs' & Hb & Hp).
    destruct (put_block_sub _ _ Hb) as (bs1 & Hb1 & Hsub). exists bs1, parent.
    split; [done|]. split; [apply lookup_insert_eq|].
    apply list_elem_of_fmap in Hp as (c & -> & Hc'). apply list_elem_of_fmap. eauto.
  - destruct (ok_linked _ Hok j bs' c Hj' Hc') as (bs1 & p & Hb & Hp & Hin).
    destruct (put_block_sub _ _ Hb) as (bs2 & Hb2 & Hsub). exists bs2, p.
    rewrite old_parent by (by eapply elem_of_levels; eauto). split; [done|]. split; [done|].
    apply list_elem_of_fmap in Hin as (c' & -> & Hc''). apply list_elem_of_fmap. eauto.
Qed.

Lemma state_after_ok : overlay_ok s'.
Proof.
  pose proof front_after as Hf. pose proof (pl_level _ _ _ _ _ _ Hplace) as Hi.
  split; [by rewrite bss_after|apply after_tree| |apply after_placed|apply after_linked|..].
  - intros x p. cbn. destruct (decide (x = h)) as [->|Hne].
    + rewrite lookup_insert_eq. intros [= <-]. rewrite (ins_number _ _ _ _ _ (proj1 Hins)). apply Hins.
    + rewrite lookup_insert_ne by done. apply (ok_rank _ Hok).
  - intros lh n bs c Hl Hb Hc. rewrite bss_after in Hb.
    destruct (put_block_elem _ _ _ Hb Hc) as [[Hz ->]|(bs' & Hb' & Hc')].
    + cbn in *. rewrite lookup_insert_eq. f_equal. by eapply (pl_front _ _ _ _ _ _ Hplace).
    + rewrite old_parent by (apply elem_of_levels; eauto). eapply (ok_front _ Hok); [|done..].
      cbn in Hl. rewrite last_after_nonempty in Hl; [done|]. intros Hnil. unfold bss_of in Hb'.
      by rewrite Hnil in Hb'.
  - intros lh n. cbn. apply last_after_ok.
  - rewrite <-length_bss, bss_after, put_block_length by done.
    destruct (decide (bss_of s = [])) as [Hnil|Hne].
    + rewrite Hf, Hnil. rewrite Hnil in Hi. cbn in Hi. pose proof (ins_range _ _ _ _ _ (proj1 Hins)). cbn. lia.
    + pose proof (front_kept Hne). pose proof (ok_bound _ Hok) as Hb. rewrite <-length_bss in Hb.
      pose proof (ins_range _ _ _ _ _ (proj1 Hins)). lia.
  - rewrite bss_after, put_block_perm by done. cbn. pose proof (ins_blocks _ _ _ _ _ (proj1 Hins)). lia.
  - apply (ok_pinned _ Hok).
Qed.
End after.
End inv.
