(* ===== verification/NonCanonicalOps.v ===== *)
(** Pinning, reverting and removing blocks of the non-canonical overlay
    (client/state-db/src/noncanonical.rs): what each operation does, and that it keeps
    [overlay_ok]. *)

From stdpp Require Import base numbers list option gmap sets fin_maps.
From S2P Require Import Prelude NonCanonical Discard NonCanonicalInv.

Local Open Scope Z_scope.
Local Open Scope rust_scope.

Section ops.
Context {BlockHash Key DBValue : Type} `{Countable BlockHash} `{Countable Key}.
Context (content : Key -> DBValue) (number_of : BlockHash -> Z).
Abbreviation BlockOverlay := (@BlockOverlay BlockHash Key).
Abbreviation Kept := (@Kept BlockHash Key DBValue _ _ _ _).
Abbreviation NC := (@NonCanonicalOverlay BlockHash Key DBValue _ _ _ _).
Abbreviation ok := (overlay_ok content number_of).
Implicit Types (ps : gmap BlockHash BlockHash) (hs : list BlockHash) (st : Kept) (s : NC).
Implicit Types (bs : list BlockOverlay) (bss : list (list BlockOverlay)).

(** All keys that blocks in the levels or retained blocks have inserted *)
Definition keys_of s : list Key := all_keys (concat (bss_of s)) (pinned_insertions s).

(** [get] gives the value of every such key, and of no other. *)
Lemma get_ok s k : ok s -> get s k = if decide (k ∈ keys_of s) then Some (content k) else None.
Proof.
  intros Hok. pose proof (tr_counted _ _ _ (tree_tracked _ _ _ _ _ (ok_tree _ _ _ Hok))) as Hc.
  cbn in Hc. unfold get, keys_of. case_decide as Hk.
  - by rewrite (counted_get _ _ _ _ Hc Hk).
  - destruct (values s !! k) as [[c v]|] eqn:Hv; [|done].
    by destruct (counted_get_inv _ _ _ _ _ _ Hc Hv).
Qed.

Lemma have_block_ok s h : ok s ->
  have_block s h = bool_decide (h ∈ hash <$> concat (bss_of s)) || bool_decide (is_Some (pinned_insertions s !! h)).
Proof.
  intros Hok. apply eq_bool_prop_intro. unfold have_block.
  rewrite orb_True, !bool_decide_spec.
  apply (tr_parents _ _ _ (tree_tracked _ _ _ _ _ (ok_tree _ _ _ Hok))).
Qed.

(** Changing what is retained *)
Lemma set_kept_ok s st :
  ok s -> tracked content (concat (bss_of s)) st -> k_parents st ⊆ parents s -> ok (set_kept s st).
Proof.
  intros Hok Ht Hsub. pose proof (ok_tree _ _ _ Hok) as [_ Hi _].
  assert (forall o, o ∈ concat (bss_of s) -> k_parents st !! hash o = parents s !! hash o) as Hpar.
  { intros o Ho. destruct (proj2 (tr_parents _ _ _ Ht (hash o))) as [p Hp].
    - left. apply list_elem_of_fmap. eauto.
    - rewrite Hp. symmetry. by eapply lookup_weaken. }
  destruct Hok as [Hl Htr Hr Hpl Hln Hf Hlast Hb Hs Hpin]. split; cbn; try done.
  - destruct st. by split.
  - by eapply ranked_mono.
  - intros i bs o Hj Ho. destruct (Hln i bs o Hj Ho) as (bs' & p & Hb' & Hp & Hin).
    exists bs', p. rewrite Hpar by (apply elem_of_levels; eauto). done.
  - intros h n bs o Hlst Hbs Ho. rewrite Hpar by (apply elem_of_levels; eauto). by eapply Hf.
Qed.

Lemma set_pinned_ok s p :
  ok s -> (forall h n, p !! h = Some n -> 0 < n < 2 ^ 32) -> ok (set_pinned s p).
Proof. intros [] Hp. by split. Qed.

Lemma set_canonicalized_ok s l : ok s -> ok (set_pinned_canonicalized s l).
Proof. intros []. by split. Qed.

(** ** Pins *)

Lemma pin_ok s h : ok s -> default 0 (pinned s !! h) + 1 < 2 ^ 32 -> ok (pin h s).
Proof.
  intros Hok Hn. apply set_pinned_ok; [done|].
  assert (0 <= default 0 (pinned s !! h)) as Hpos.
  { destruct (pinned s !! h) as [n|] eqn:Hp; cbn; [|lia]. apply (ok_pinned _ _ _ Hok) in Hp. lia. }
  intros x n. destruct (decide (x = h)) as [->|Hne].
  - rewrite lookup_insert_eq. intros [= <-]. rewrite wadd_small by (unfold in_range; lia). lia.
  - rewrite lookup_insert_ne by done. apply (ok_pinned _ _ _ Hok).
Qed.

(** A state with the same blocks and pins that are not more *)
Record same_blocks s s' : Prop := mkSame {
  same_last : last_canonicalized s' = last_canonicalized s;
  same_levels : levels s' = levels s;
  same_canon : pinned_canonicalized s' = pinned_canonicalized s
}.

Lemma below_rank_size h pins : (below_rank number_of h pins <= size (pins : gmap BlockHash (list Key * Z)))%nat.
Proof. unfold below_rank. rewrite <-!size_dom. apply subseteq_size, dom_filter_subseteq. Qed.

(** The pins after [unpin] *)
Definition unpinned s h : gmap BlockHash Z :=
  match pinned s !! h with
  | None => pinned s
  | Some n => if n - 1 =? 0 then delete h (pinned s) else <[h := n - 1]> (pinned s)
  end.

Definition unpins s h : Prop :=
  exists s', unpin h s = Some s' /\ ok s' /\ same_blocks s s' /\ pinned s' = unpinned s h /\
    if decide (pinned s !! h = Some 1) then released_upto h (kept_of s) (kept_of s')
    else kept_of s' = kept_of s.

Lemma unpin_ok s h : ok s -> unpins s h.
Proof.
  intros Hok. unfold unpins, unpin, unpinned. destruct (pinned s !! h) as [n|] eqn:Hn.
  2:{ exists s. rewrite decide_False by done. done. }
  pose proof (ok_pinned _ _ _ Hok _ _ Hn) as Hr. rewrite wsub_small by (unfold in_range; lia).
  assert (forall m x, (if n - 1 =? 0 then delete h (pinned s) else <[h := n - 1]> (pinned s)) !! x = Some m ->
    0 < m < 2 ^ 32) as Hpins.
  { intros m x. destruct (Z.eqb_spec (n - 1) 0) as [Hz|Hz].
    - intros [_ Hx]%lookup_delete_Some. by eapply (ok_pinned _ _ _ Hok).
    - intros [[_ <-]|[_ Hx]]%lookup_insert_Some; [lia|by eapply (ok_pinned _ _ _ Hok)]. }
  destruct (Z.eqb_spec (n - 1) 0) as [Hz|Hz].
  - pose proof (set_pinned_ok s (delete h (pinned s)) Hok (fun x m => Hpins m x)) as Hok1.
    destruct (release_walk_ok content number_of (concat (bss_of s)) (size (pinned_insertions s)) h (kept_of s))
      as (st & Hrel & Ht & Hup).
    + apply (tree_tracked _ _ _ _ _ (ok_tree _ _ _ Hok)).
    + apply (ok_rank _ _ _ Hok).
    + apply below_rank_size.
    + change (kept_of (set_pinned s (delete h (pinned s)))) with (kept_of s).
      cbn [pinned_insertions set_pinned]. rewrite Hrel.
      eexists. split; [done|]. split; [by apply set_kept_ok; [..|apply Hup]|].
      rewrite decide_True by (f_equal; lia). destruct st. done.
  - eexists. split; [done|]. rewrite decide_False by (intros [= ->]; lia).
    split; [by apply set_pinned_ok; [|intros x m; apply Hpins]|]. done.
Qed.

Lemma unpin_all_ok hs : forall s, ok s ->
  exists s', unpin_all hs s = Some s' /\ ok s' /\ same_blocks s s'.
Proof.
  induction hs as [|h hs IH]; intros s Hok; [by exists s|]. cbn.
  destruct (unpin_ok s h Hok) as (s1 & -> & Hok1 & [Hl1 Hv1 Hc1] & _). cbn.
  destruct (IH s1 Hok1) as (s2 & -> & Hok2 & [Hl2 Hv2 Hc2]). exists s2. split; [done|].
  split; [done|]. split; congruence.
Qed.

Lemma sync_ok s : ok s ->
  exists s', sync s = Some s' /\ ok s' /\ last_canonicalized s' = last_canonicalized s /\
    levels s' = levels s /\ pinned_canonicalized s' = [].
Proof.
  intros Hok. unfold sync.
  destruct (unpin_all_ok (pinned_canonicalized s) (set_pinned_canonicalized s []))
    as (s1 & -> & Hok1 & [Hl1 Hv1 _]); [by apply set_canonicalized_ok|].
  cbn. eexists. split; [done|]. split; [by apply set_canonicalized_ok|]. done.
Qed.

(** ** Reverting a level *)

Lemma forget_block_drop s o : forget_block s o = set_kept s (drop_block o 0 (kept_of s)).
Proof. done. Qed.

(** A state with fewer blocks, in which no block has lost its parent *)
Record fewer s s' : Prop := mkFewer {
  fw_levels : levels s' = level_of <$> bss_of s';
  fw_last : last_canonicalized s' = last_canonicalized s;
  fw_pinned : forall h n, pinned s' !! h = Some n -> 0 < n < 2 ^ 32;
  fw_parents : parents s' ⊆ parents s;
  fw_tracked : tracked content (concat (bss_of s')) (kept_of s');
  fw_length : (length (bss_of s') <= length (bss_of s))%nat;
  fw_indices : Forall indices_ok (bss_of s');
  fw_sub : forall i bs' o, bss_of s' !! i = Some bs' -> o ∈ bs' -> exists bs, bss_of s !! i = Some bs /\ o ∈ bs;
  fw_up : forall o h, o ∈ concat (bss_of s') -> parents s !! hash o = Some h ->
    h ∈ hash <$> concat (bss_of s) -> h ∈ hash <$> concat (bss_of s')
}.

Section fewer.
Context (s s' : NC) (Hok : ok s) (Hfw : fewer s s').

Lemma fewer_parent o : o ∈ concat (bss_of s') -> parents s' !! hash o = parents s !! hash o.
Proof.
  intros Ho. destruct (proj2 (tr_parents _ _ _ (fw_tracked _ _ Hfw) (hash o))) as [p Hp].
  - left. apply list_elem_of_fmap. eauto.
  - cbn in Hp. rewrite Hp. symmetry. eapply lookup_weaken; [done|apply Hfw].
Qed.

Lemma fewer_linked : linked (parents s') (bss_of s').
Proof.
  intros i bs' o Hi Ho. destruct (fw_sub _ _ Hfw _ _ _ Hi Ho) as (bs & Hb & Hob).
  destruct (ok_linked _ _ _ Hok i bs o Hb Hob) as (bs1 & p & Hb1 & Hp & Hp1).
  assert (o ∈ concat (bss_of s')) as Hoc by (apply elem_of_levels; eauto).
  assert (p ∈ hash <$> concat (bss_of s')) as Hp'.
  { apply (fw_up _ _ Hfw o p); [done..|]. apply list_elem_of_fmap in Hp1 as (c & -> & Hc).
    apply list_elem_of_fmap. exists c. split; [done|]. apply elem_of_levels. eauto. }
  destruct (lookup_lt_is_Some_2 (bss_of s') i) as [bs2 Hb2].
  { apply lookup_lt_Some in Hi. lia. }
  exists bs2, p. split; [done|]. rewrite fewer_parent by done. split; [done|].
  apply list_elem_of_fmap in Hp' as (c & -> & Hc). apply list_elem_of_fmap. exists c. split; [done|].
  pose proof Hc as (j & bsj & Hj & Hcj)%elem_of_levels.
  destruct (fw_sub _ _ Hfw _ _ _ Hj Hcj) as (bsj' & Hbj & Hcj').
  destruct (ok_placed _ _ _ Hok _ _ _ Hbj Hcj') as [Hn _].
  destruct (ok_placed _ _ _ Hok _ _ _ Hb Hob) as [Hno _].
  apply (ok_rank _ _ _ Hok) in Hp. assert (j = i) as -> by lia. congruence.
Qed.

Lemma fewer_ok : ok s'.
Proof.
  assert (front_block_number s' = front_block_number s) as Hf
    by (unfold front_block_number; by rewrite (fw_last _ _ Hfw)).
  split; [apply Hfw|..|apply fewer_linked| | | | |].
  - by split; [apply Hfw|apply Hfw|].
  - eapply ranked_mono; [apply Hfw|apply Hok].
  - rewrite Hf. intros i bs' o Hi Ho. destruct (fw_sub _ _ Hfw _ _ _ Hi Ho) as (bs & Hb & Hob).
    by eapply (ok_placed _ _ _ Hok).
  - intros h n bs' o Hl' Hi Ho. destruct (fw_sub _ _ Hfw _ _ _ Hi Ho) as (bs & Hb & Hob).
    rewrite fewer_parent by (apply elem_of_levels; eauto). eapply (ok_front _ _ _ Hok); [|done..].
    by rewrite <-(fw_last _ _ Hfw).
  - rewrite (fw_last _ _ Hfw). apply (ok_last _ _ _ Hok).
  - pose proof (ok_bound _ _ _ Hok) as Hb. pose proof (fw_length _ _ Hfw).
    rewrite <-length_bss in Hb |- *. lia.
  - pose proof (ok_size _ _ _ Hok) as Hs.
    assert (concat (bss_of s') ⊆+ concat (bss_of s)) as Hle%submseteq_length; [|lia].
    apply NoDup_submseteq; [|].
    + eapply NoDup_fmap_1. apply (tr_nodup _ _ _ (fw_tracked _ _ Hfw)).
    + intros o (i & bs' & Hi & Ho)%elem_of_levels. apply elem_of_levels.
      destruct (fw_sub _ _ Hfw _ _ _ Hi Ho) as (bs & Hb & Hob). eauto.
  - apply Hfw.
Qed.
End fewer.

(** Forgetting blocks that are not in the levels any more *)
Lemma forget_blocks_ok bs : forall s R,
  tracked content (bs ++ R) (kept_of s) ->
  let s' := foldl forget_block s bs in
  tracked content R (kept_of s') /\ parents s' ⊆ parents s /\ levels s' = levels s /\
  last_canonicalized s' = last_canonicalized s /\ pinned s' = pinned s /\
  pinned_canonicalized s' = pinned_canonicalized s /\ pinned_insertions s' = pinned_insertions s.
Proof.
  induction bs as [|o bs IH]; intros s R Ht; [done|]. cbn [foldl].
  destruct (IH (forget_block s o) R) as (Ht' & Hps & Hl & Hla & Hpin & Hc & Hi).
  - apply (drop_block_tracked content o (bs ++ R) (kept_of s) 0); [exact Ht|lia].
  - split_all; [done| |done..]. etrans; [exact Hps|]. apply delete_subseteq.
Qed.

Lemma foldl_levels_snoc bss bs : concat (bss ++ [bs]) ≡ₚ bs ++ concat (bss : list (list BlockOverlay)).
Proof. rewrite concat_app. cbn. rewrite app_nil_r. apply Permutation_app_comm. Qed.

(** [revert_one] takes the last level away, and its journal records. *)
Lemma revert_one_ok s : ok s ->
  let '(s', r) := revert_one s in
  ok s' /\ parents s' ⊆ parents s /\
  (bss_of s = [] /\ s' = s /\ r = None \/
   exists bss bs, bss_of s = bss ++ [bs] /\ bss_of s' = bss /\
     r = Some (delete_meta default_commit (journal_key <$> bs)) /\
     last_canonicalized s' = last_canonicalized s /\ pinned_insertions s' = pinned_insertions s).
Proof.
  intros Hok. unfold revert_one. destruct (vec_pop (levels s)) as [[level ls]|] eqn:Hpop.
  2:{ split; [done|]. split; [done|]. left. apply vec_pop_None in Hpop. unfold bss_of. by rewrite Hpop. }
  apply vec_pop_Some in Hpop. assert (bss_of s = (blocks <$> ls) ++ [blocks level]) as Hbss.
  { unfold bss_of. rewrite Hpop, fmap_app. done. }
  pose proof (ok_levels _ _ _ Hok) as Hl. rewrite Hbss, fmap_app, Hpop in Hl.
  apply app_inj_tail in Hl as [Hl _].
  pose proof (tree_tracked _ _ _ _ _ (ok_tree _ _ _ Hok)) as Ht. cbn [app] in Ht.
  rewrite Hbss, foldl_levels_snoc in Ht.
  pose proof (forget_blocks_ok (blocks level) (set_levels s ls) (concat (blocks <$> ls)) Ht)
    as (Ht' & Hps & Hlv & Hla & Hpin & _ & Hi). cbn in Hlv, Hla, Hpin, Hi.
  assert (bss_of (foldl forget_block (set_levels s ls) (blocks level)) = blocks <$> ls) as Hb'
    by (unfold bss_of; by rewrite Hlv).
  split; [|split; [done|right; exists (blocks <$> ls), (blocks level); done]].
  apply (fewer_ok s); [done|]. split; rewrite ?Hb'; try done.
  - by rewrite Hlv.
  - rewrite Hpin. apply (ok_pinned _ _ _ Hok).
  - rewrite Hbss, length_app. lia.
  - pose proof (tree_indices _ _ _ _ _ (ok_tree _ _ _ Hok)) as Hix. rewrite Hbss in Hix.
    by apply Forall_app in Hix as [Hix _].
  - intros i bs' o Hi' Ho. exists bs'. rewrite Hbss, lookup_app_l by (by eapply lookup_lt_Some). done.
  - intros o h Ho Hp Hh. (* the parent is in a level before *)
    pose proof Ho as (i & bs' & Hi' & Ho')%elem_of_levels.
    pose proof Hh as (c & -> & Hc)%list_elem_of_fmap. apply list_elem_of_fmap. exists c. split; [done|].
    rewrite Hbss, foldl_levels_snoc in Hc. apply elem_of_app in Hc as [Hc|Hc]; [|done]. exfalso.
    assert (bss_of s !! length ls = Some (blocks level)) as Hlast.
    { rewrite Hbss. rewrite lookup_app_r by (by rewrite length_fmap). by rewrite length_fmap, Nat.sub_diag. }
    assert (bss_of s !! i = Some bs') as Hi2 by (rewrite Hbss; by apply lookup_app_l_Some).
    destruct (ok_placed _ _ _ Hok _ _ _ Hlast Hc) as [Hn _].
    destruct (ok_placed _ _ _ Hok _ _ _ Hi2 Ho') as [Hn' _].
    apply (ok_rank _ _ _ Hok) in Hp. apply lookup_lt_Some in Hi'. rewrite length_fmap in Hi'. lia.
Qed.

(** ** Removing a block *)

Lemma block_position_spec h bs :
  match block_position h bs with
  | Some j => exists l1 o l2, bs = l1 ++ o :: l2 /\ length l1 = j /\ hash o = h
  | None => h ∉ hash <$> bs
  end.
Proof.
  induction bs as [|o bs IH]; cbn [block_position]; [apply not_elem_of_nil|].
  case_bool_decide as Ho; [by exists [], o, bs|].
  destruct (block_position h bs) as [j|]; cbn.
  - destruct IH as (l1 & o' & l2 & -> & <- & Ho'). by exists (o :: l1), o', l2.
  - rewrite not_elem_of_cons. auto.
Qed.

Lemma find_block_spec h ls :
  match find_block h ls with
  | Some (i, j) => exists l l1 o l2, ls !! i = Some l /\ blocks l = l1 ++ o :: l2 /\ length l1 = j /\ hash o = h
  | None => h ∉ hash <$> concat (blocks <$> ls : list (list BlockOverlay))
  end.
Proof.
  induction ls as [|l ls IH]; cbn [find_block]; [apply not_elem_of_nil|].
  destruct (find_block h ls) as [[i j]|].
  - destruct IH as (l' & l1 & o & l2 & ? & ? & ? & ?). by exists l', l1, o, l2.
  - pose proof (block_position_spec h (blocks l)) as Hpos.
    destruct (block_position h (blocks l)) as [j|]; cbn.
    + destruct Hpos as (l1 & o & l2 & ? & ? & ?). by exists l, l1, o, l2.
    + rewrite fmap_app, not_elem_of_app. auto.
Qed.

(** The back level goes away when it is empty. *)
Definition trim_back bss : list (list BlockOverlay) :=
  match vec_pop bss with Some ([], bss') => bss' | _ => bss end.

Lemma drop_empty_back_ok s : ok s -> ok (drop_empty_back s) /\
  bss_of (drop_empty_back s) = trim_back (bss_of s) /\
  last_canonicalized (drop_empty_back s) = last_canonicalized s /\
  kept_of (drop_empty_back s) = kept_of s /\ pinned (drop_empty_back s) = pinned s.
Proof.
  intros Hok. unfold drop_empty_back, trim_back. destruct (vec_pop (levels s)) as [[l ls]|] eqn:Hpop.
  2:{ apply vec_pop_None in Hpop. unfold bss_of at 2. by rewrite Hpop. }
  apply vec_pop_Some in Hpop. assert (bss_of s = (blocks <$> ls) ++ [blocks l]) as Hbss.
  { unfold bss_of. rewrite Hpop, fmap_app. done. }
  rewrite Hbss, vec_pop_snoc. destruct (blocks l) as [|o bs] eqn:Hl; cbn [length Nat.eqb]; [|by rewrite Hbss].
  split_all; [|done..]. assert (bss_of (set_levels s ls) = blocks <$> ls) as Hb by done.
  assert (concat (bss_of s) = concat (blocks <$> ls)) as Hc by (rewrite Hbss, concat_app; apply app_nil_r).
  apply (fewer_ok s); [done|]. split; rewrite ?Hb; cbn; try done.
  - pose proof (ok_levels _ _ _ Hok) as Hlv. rewrite Hbss, fmap_app, Hpop in Hlv.
    by apply app_inj_tail in Hlv as [Hlv _].
  - apply (ok_pinned _ _ _ Hok).
  - rewrite <-Hc. apply (tree_tracked _ _ _ _ _ (ok_tree _ _ _ Hok)).
  - rewrite Hbss, length_app. lia.
  - pose proof (tree_indices _ _ _ _ _ (ok_tree _ _ _ Hok)) as Hix. rewrite Hbss in Hix.
    by apply Forall_app in Hix as [Hix _].
  - intros i bs' o Hi' Ho. exists bs'. rewrite Hbss, lookup_app_l by (by eapply lookup_lt_Some). done.
  - intros x h _ _. by rewrite Hc.
Qed.

Lemma insert_concat_perm bss i l1 (o : BlockOverlay) l2 :
  bss !! i = Some (l1 ++ o :: l2) -> concat bss ≡ₚ o :: concat (<[i := l1 ++ l2]> bss).
Proof.
  intros Hi. pose proof (lookup_lt_Some _ _ _ Hi) as Hlt. rewrite insert_take_drop by done.
  rewrite <-(take_drop_middle bss i (l1 ++ o :: l2)) at 1 by done.
  rewrite !concat_app. cbn [concat]. solve_Permutation.
Qed.

(** A block without children can be taken out of its level. *)
Lemma remove_block_ok s i l1 o l2 :
  ok s -> bss_of s !! i = Some (l1 ++ o :: l2) ->
  (forall c, c ∈ concat (bss_of s) -> parents s !! hash c <> Some (hash o)) ->
  let s' := forget_block (set_levels s (<[i := level_of (l1 ++ l2)]> (levels s))) o in
  ok s' /\ bss_of s' = <[i := l1 ++ l2]> (bss_of s).
Proof.
  intros Hok Hi Hleaf. cbn zeta.
  set (s' := forget_block _ o).
  assert (bss_of s' = <[i := l1 ++ l2]> (bss_of s)) as Hb by (unfold bss_of; cbn; by rewrite list_fmap_insert).
  split; [|done].
  pose proof (insert_concat_perm _ _ _ _ _ Hi) as Hperm.
  pose proof (tree_tracked _ _ _ _ _ (ok_tree _ _ _ Hok)) as Ht. cbn [app] in Ht. rewrite Hperm in Ht.
  apply (fewer_ok s); [done|]. split; rewrite ?Hb.
  - subst s'. cbn. rewrite list_fmap_insert. f_equal. apply Hok.
  - done.
  - apply (ok_pinned _ _ _ Hok).
  - apply delete_subseteq.
  - apply (drop_block_tracked content o _ (kept_of s) 0); [exact Ht|lia].
  - by rewrite length_insert.
  - pose proof (tree_indices _ _ _ _ _ (ok_tree _ _ _ Hok)) as Hix. apply Forall_insert; [done|].
    rewrite Forall_lookup in Hix. eapply indices_ok_sublist; [|by eapply Hix].
    apply sublist_app; [done|]. by apply sublist_cons.
  - intros j bs' c. rewrite list_lookup_insert_Some. intros [(-> & <- & _)|[_ Hj]] Hc; [|by exists bs'].
    exists (l1 ++ o :: l2). split; [done|]. rewrite elem_of_app, elem_of_cons in *. tauto.
  - intros c h Hc Hp Hh. apply list_elem_of_fmap in Hh as (c' & -> & Hc').
    rewrite Hperm in Hc'. apply list_elem_of_fmap. exists c'. split; [done|].
    apply elem_of_cons in Hc' as [->|Hc']; [|done]. exfalso. apply (Hleaf c); [|done].
    rewrite Hperm. by right.
Qed.

(** [remove] takes a block without children away, and its journal record; it leaves a block
    with children, and only a block that is not there makes it return nothing otherwise. *)
Lemma remove_ok s h : ok s ->
  let '(s', r) := remove h s in
  ok s' /\ parents s' ⊆ parents s /\ last_canonicalized s' = last_canonicalized s /\ pinned_insertions s' = pinned_insertions s /\
  (r = None /\ (bss_of s' = bss_of s /\ (exists c, parents s !! c = Some h) \/
                bss_of s' = trim_back (bss_of s) /\ h ∉ hash <$> concat (bss_of s)) \/
   exists i l1 o l2, bss_of s !! i = Some (l1 ++ o :: l2) /\ hash o = h /\
     bss_of s' = trim_back (<[i := l1 ++ l2]> (bss_of s)) /\
     r = Some (delete_meta default_commit [journal_key o])).
Proof.
  intros Hok. unfold remove. pose proof (find_block_spec h (levels s)) as Hfind.
  destruct (find_block h (levels s)) as [[i j]|].
  2:{ destruct (drop_empty_back_ok s Hok) as (Hok' & Hb & Hl & [= _ Hp Hk] & _). rewrite Hp.
      split_all; [done..|]. left. split; [done|]. right. done. }
  destruct Hfind as (l & l1 & o & l2 & Hl & Hbl & <- & <-).
  assert (bss_of s !! i = Some (l1 ++ o :: l2)) as Hi.
  { unfold bss_of. rewrite list_lookup_fmap, Hl. cbn. by rewrite Hbl. }
  destruct (negb _ && _) eqn:Hchild.
  { apply andb_prop in Hchild as [_ Hex%bool_decide_eq_true]. split_all; [done..|]. left. split; [done|].
    left. split; [done|]. apply Exists_exists in Hex as ([c p] & Hin%elem_of_map_to_list & Hp).
    cbn in Hp. subst p. eauto. }
  rewrite Hl. cbn [mbind option_bind].
  assert (l = level_of (l1 ++ o :: l2)) as ->.
  { pose proof (ok_levels _ _ _ Hok) as Hlv. rewrite Hlv, list_lookup_fmap, Hi in Hl. by injection Hl. }
  rewrite level_remove_of.
  2:{ pose proof (tree_indices _ _ _ _ _ (ok_tree _ _ _ Hok)) as Hall. rewrite Forall_lookup in Hall.
      by eapply Hall. }
  destruct (remove_block_ok s i l1 o l2 Hok Hi) as [Hok1 Hb1].
  { intros c Hc Hp. apply andb_false_iff in Hchild as [Hlast|Hex].
    - apply negb_false_iff, Nat.eqb_eq in Hlast. pose proof Hc as (k & bs & Hk & Hcb)%elem_of_levels.
      assert (o ∈ l1 ++ o :: l2) as Ho by (apply elem_of_app; right; left).
      destruct (ok_placed _ _ _ Hok _ _ _ Hk Hcb) as [Hn _].
      destruct (ok_placed _ _ _ Hok _ _ _ Hi Ho) as [Hn' _].
      apply (ok_rank _ _ _ Hok) in Hp. apply lookup_lt_Some in Hk. rewrite length_bss in Hk. lia.
    - apply bool_decide_eq_false in Hex. apply Hex, Exists_exists. exists (hash c, hash o).
      split; [by apply elem_of_map_to_list|done]. }
  cbn zeta in *. destruct (drop_empty_back_ok _ Hok1) as (Hok2 & Hb2 & Hl2 & [= _ Hp Hk] & _).
  rewrite Hp. split_all; [done|apply delete_subseteq|done|done|]. right. exists i, l1, o, l2. rewrite Hb2, Hb1. done.
Qed.
End ops.
