(* ===== verification/Canonicalize.v ===== *)
(** Canonicalizing a block of the non-canonical overlay
    (client/state-db/src/noncanonical.rs).

    The block's changes go into the commit, its siblings and all that descends from them are
    discarded, and the journal records of every block that leaves the levels are deleted.  What
    is left in the levels is what descends from the canonicalized block. *)

From stdpp Require Import base numbers list option gmap sets fin_maps.
From S2P Require Import Prelude NonCanonical Discard NonCanonicalInv NonCanonicalOps.

Local Open Scope Z_scope.
Local Open Scope rust_scope.

Section canonicalize.
Context {BlockHash Key DBValue : Type} `{Countable BlockHash} `{Countable Key}.
Context (content : Key -> DBValue) (number_of : BlockHash -> Z).
Abbreviation BlockOverlay := (@BlockOverlay BlockHash Key).
Abbreviation Kept := (@Kept BlockHash Key DBValue _ _ _ _).
Abbreviation CommitSet := (@CommitSet BlockHash Key DBValue).
Abbreviation NC := (@NonCanonicalOverlay BlockHash Key DBValue _ _ _ _).
Abbreviation ok := (overlay_ok content number_of).
Implicit Types (ps : gmap BlockHash BlockHash) (hs : list BlockHash) (st : Kept) (s : NC).
Implicit Types (bs : list BlockOverlay) (bss : list (list BlockOverlay)).

(** Between two blocks of the level: [bss] are the other levels, [F] the blocks to come. *)
Record between ps bss (F : list BlockOverlay) s : Prop := mkBetween {
  bt_levels : levels s = level_of <$> bss;
  bt_tree : tree_ok content ps bss F (kept_of s);
  bt_size : Z.of_nat (length (F ++ concat bss)) < 2 ^ 32
}.

(** The same in all but the levels and what is retained *)
Record same_rest s s' : Prop := mkRest {
  rest_last : last_canonicalized s' = last_canonicalized s;
  rest_pinned : pinned s' = pinned s;
  rest_canon : pinned_canonicalized s' = pinned_canonicalized s
}.

(** A sibling goes with its subtree. *)
Lemma canonicalize_sibling index i o F ps bss s commit journals :
  i <> index -> between ps bss (o :: F) s ->
  exists s' js,
    canonicalize_one index i o s commit journals = Some (s', commit, js) /\
    between ps (prune ps bss [hash o]) F s' /\ same_rest s s' /\
    js ≡ₚ journals ++ (journal_key <$> o :: dropped ps bss [hash o]) /\
    outcome content (pinned s) ((o, o :: dropped ps bss [hash o]) :: subtrees ps bss [hash o])
      (F ++ concat (prune ps bss [hash o])) (kept_of s) (kept_of s').
Proof.
  intros Hne [Hl Ht Hsz]. cbn [app length] in Hsz. rewrite length_app in Hsz.
  unfold canonicalize_one. rewrite (proj2 (Nat.eqb_neq _ _) Hne), Hl.
  assert (forall c, c ∈ concat bss -> parents s !! hash c = ps !! hash c) as Hag by apply Ht.
  destruct (discard_journals_ok (parents s) bss (hash o)) as (js & -> & Hjs).
  { intros c Hc. by apply (tree_parent _ _ _ _ _ _ Ht). }
  { by eapply tree_nodup. }
  destruct (overlay_levels_ext (parents s) ps bss [hash o] [hash o]) as (_ & Hdr & _); [done..|].
  rewrite Hdr in Hjs. cbn [mbind option_bind].
  destruct (discard_descendants_ok content (pinned s) ps bss (o :: F) (kept_of s) (hash o))
    as (st & -> & Hout); [done|lia|].
  apply drop_subtree in Hout; [|done|lia].
  pose proof (Permutation_length (prune_dropped ps bss [hash o])) as Hlen. rewrite length_app in Hlen.
  cbn [mbind option_bind]. eexists _, _. split.
  { cbn [pinned set_kept set_levels]. rewrite pinned_next by lia. done. }
  cbn [kept_of set_kept set_levels k_values k_parents k_pinned_insertions levels values parents
       pinned_insertions].
  destruct st as [vs pr pi]. cbn [k_values k_parents k_pinned_insertions] in *.
  set (st' := drop_block _ _ _) in *. destruct st' as [vs' pr' pi'].
  split_all; [|done| |done].
  - split; [done|by eapply tree_ok_outcome|]. rewrite length_app. lia.
  - rewrite fmap_cons, Hjs. solve_Permutation.
Qed.

(** The subtrees of siblings are disjoint. *)
Lemma siblings_disjoint ps bss (l l' R : list BlockOverlay) h :
  NoDup (hash <$> (l ++ l' ++ R) ++ concat bss) ->
  h ∈ hash <$> l ++ dropped ps bss (hash <$> l) ->
  h ∉ hash <$> l' ++ dropped ps (prune ps bss (hash <$> l)) (hash <$> l').
Proof.
  intros Hnd Hh. rewrite <-(prune_dropped ps bss (hash <$> l)) in Hnd.
  rewrite <-(prune_dropped ps (prune ps bss (hash <$> l)) (hash <$> l')) in Hnd.
  set (d1 := dropped ps bss (hash <$> l)) in *. set (d2 := dropped ps (prune _ _ _) _) in *.
  set (c := concat _) in *.
  assert ((l ++ l' ++ R) ++ (c ++ d2) ++ d1 ≡ₚ (l ++ d1) ++ (l' ++ d2) ++ (R ++ c)) as Hp
    by solve_Permutation.
  rewrite Hp, fmap_app in Hnd. apply NoDup_app in Hnd as (_ & Hd & _).
  specialize (Hd h Hh). rewrite fmap_app, not_elem_of_app in Hd. tauto.
Qed.

(** The siblings on one side of the block *)
Lemma canonicalize_siblings index l : forall i R ps bss s commit journals,
  (forall j, (i <= j < i + length l)%nat -> j <> index) -> between ps bss (l ++ R) s ->
  exists s' js,
    canonicalize_level index i l s commit journals = Some (s', commit, js) /\
    between ps (prune ps bss (hash <$> l)) R s' /\ same_rest s s' /\
    js ≡ₚ journals ++ (journal_key <$> l ++ dropped ps bss (hash <$> l)) /\
    outcome content (pinned s) (forest ps bss l) (R ++ concat (prune ps bss (hash <$> l)))
      (kept_of s) (kept_of s').
Proof.
  induction l as [|o l IH]; intros i R ps bss s commit journals Hi Hbt.
  { cbn [fmap list_fmap app]. destruct (levels_nil ps bss) as (Hp & Hd & Hs). exists s, journals.
    unfold forest. cbn [fmap list_fmap app]. rewrite Hp, Hd, Hs. split_all; [done..| |].
    - by rewrite app_nil_r.
    - apply outcome_nil, Hbt. }
  pose proof Hbt as [_ Ht Hsz].
  pose proof (tr_nodup _ _ _ (tree_tracked _ _ _ _ _ Ht)) as Hnd.
  destruct (canonicalize_sibling index i o (l ++ R) ps bss s commit journals)
    as (s1 & js1 & Hone & Hbt1 & [Hr1 Hr2 Hr3] & Hjs1 & Hout1); [apply Hi; cbn; lia|done|].
  destruct (IH (S i) R ps (prune ps bss [hash o]) s1 commit js1)
    as (s2 & js2 & Hrest & Hbt2 & [Hr1' Hr2' Hr3'] & Hjs2 & Hout2); [|done|].
  { intros j Hj. apply Hi. cbn. lia. }
  assert (hash o ∉ hash <$> l ++ R ++ concat bss) as Hnew.
  { rewrite <-!app_comm_cons, fmap_cons in Hnd. apply NoDup_cons in Hnd as [Hnew _].
    by rewrite app_assoc. }
  rewrite !fmap_app, !not_elem_of_app in Hnew. destruct Hnew as (Hnl & _ & Hnb).
  rewrite prune_app in Hbt2, Hout2. cbn [app] in Hbt2, Hout2. exists s2, js2.
  cbn [canonicalize_level]. rewrite Hone. cbn [mbind option_bind]. split_all.
  - done.
  - done.
  - split; congruence.
  - rewrite (fmap_cons hash o l), Hjs2, Hjs1, (dropped_app_perm ps bss [hash o] (hash <$> l) : dropped ps bss (_ :: _) ≡ₚ _).
    rewrite !fmap_app. cbn [app]. rewrite !fmap_cons. solve_Permutation.
  - rewrite Hr2 in Hout2. eapply outcome_trans; [exact Hout1|exact Hout2| |].
    + intros x Hx. rewrite fmap_cons in Hx. cbn [fst] in Hx. rewrite forest_fst.
      apply (siblings_disjoint ps bss [o] l R); [done|].
      by rewrite subtrees_fst in Hx.
    + intros x. apply elem_of_forest_cons; [done|by eapply tree_nodup].
Qed.

(** The block that is canonicalized stays retained for its pin. *)
Lemma canonicalize_self index o F ps bss s commit journals :
  between ps bss (o :: F) s -> is_Some (pinned s !! hash o) ->
  exists s',
    canonicalize_one index index o s commit journals =
      Some (s', put_data commit ((fun k => (k, content k)) <$> inserted o) (deleted o),
            journals ++ [journal_key o]) /\
    between ps bss F s' /\ same_rest s s' /\
    outcome content (pinned s) [(o, [o])] (F ++ concat bss) (kept_of s) (kept_of s').
Proof.
  intros [Hl Ht Hsz] Hpin. unfold canonicalize_one. rewrite Nat.eqb_refl.
  pose proof (tree_tracked _ _ _ _ _ Ht) as Htr.
  assert (mapM (fun k => v ← values s !! k; Some (k, snd v)) (inserted o) =
    Some ((fun k => (k, content k)) <$> inserted o)) as ->.
  { pose proof (tr_counted _ _ _ Htr) as Hc. cbn [app] in Hc. rewrite all_keys_cons in Hc.
    cbn [kept_of k_values] in Hc. clear - Hc. revert Hc. generalize (all_keys (F ++ concat bss) (k_pinned_insertions (kept_of s))).
    induction (inserted o) as [|k ks IH]; intros kr Hc; [done|].
    rewrite mapM_cons. cbn [app] in Hc. rewrite (counted_get _ _ _ k Hc) by left.
    cbn [mbind option_bind]. rewrite (IH (k :: kr)); [done|].
    by rewrite <-Permutation_middle. }
  cbn [mbind option_bind]. rewrite bool_decide_eq_true_2 by done.
  change (wadd 32 0 1) with 1. cbn [app length] in Hsz.
  pose proof (drop_block_tracked content o (F ++ concat bss) (kept_of s) 1 Htr ltac:(lia)) as Htr'.
  pose proof (tr_disjoint _ _ _ Htr (hash o) ltac:(left)) as Hpo.
  eexists. split; [done|]. cbn in Hpo |- *.
  pose proof (tr_nodup _ _ _ Htr) as Hnd. cbn [app] in Hnd. rewrite fmap_cons in Hnd.
  apply NoDup_cons in Hnd as [Hnew _].
  split_all; [|done|].
  - split; [done|split; [exact Htr'|apply Ht|apply Ht]|lia].
  - split; [exact Htr'|..|done]; cbn.
    + intros c t [[= -> ->]|Hin%elem_of_nil]%elem_of_cons; [|done].
      rewrite lookup_insert_eq. unfold pin_entry. rewrite npinned_cons, bool_decide_eq_true_2 by done. done.
    + intros x Hx. rewrite not_elem_of_cons in Hx. rewrite lookup_insert_ne by (destruct Hx; congruence). done.
Qed.

(** ** The whole level *)

Lemma canonicalize_level_app index l1 l2 : forall i s commit journals,
  canonicalize_level index i (l1 ++ l2) s commit journals =
  '(s, commit, journals) ← canonicalize_level index i l1 s commit journals;
  canonicalize_level index (i + length l1) l2 s commit journals.
Proof.
  induction l1 as [|o l1 IH]; intros i s commit journals; cbn [app canonicalize_level length].
  - by rewrite Nat.add_0_r.
  - destruct (canonicalize_one index i o s commit journals) as [[[s1 c1] j1]|]; [|done].
    cbn [mbind option_bind]. rewrite IH. by rewrite Nat.add_succ_r.
Qed.

Lemma level_disjoint ps bss l1 (o : BlockOverlay) l2 :
  NoDup (hash <$> (l1 ++ o :: l2) ++ concat bss) ->
  let d1 := dropped ps bss (hash <$> l1) in
  let d2 := dropped ps (prune ps bss (hash <$> l1)) (hash <$> l2) in
  (hash o ∉ hash <$> l2 ++ d2) /\
  (forall h, h ∈ hash <$> l1 ++ d1 -> h ∉ hash o :: (hash <$> l2 ++ d2)) /\
  (forall h, h ∈ hash <$> l1 -> h ∉ hash <$> l2).
Proof.
  intros Hnd. cbn zeta. rewrite <-(prune_dropped ps bss (hash <$> l1)) in Hnd.
  rewrite <-(prune_dropped ps (prune ps bss (hash <$> l1)) (hash <$> l2)) in Hnd.
  set (d1 := dropped ps bss (hash <$> l1)) in *. set (d2 := dropped ps (prune _ _ _) _) in *.
  set (c := concat _) in *.
  assert ((l1 ++ o :: l2) ++ (c ++ d2) ++ d1 ≡ₚ (l1 ++ d1) ++ o :: (l2 ++ d2) ++ c) as Hp
    by solve_Permutation.
  rewrite Hp, fmap_app in Hnd. apply NoDup_app in Hnd as (_ & Hd & Hnd).
  rewrite fmap_cons in Hd, Hnd. apply NoDup_cons in Hnd as [Hnew _].
  rewrite fmap_app, not_elem_of_app in Hnew. split; [tauto|].
  assert (forall h, h ∈ hash <$> l1 ++ d1 -> h ∉ hash o :: (hash <$> l2 ++ d2)) as Hd'.
  { intros h Hh. specialize (Hd h Hh). rewrite not_elem_of_cons, (fmap_app _ (l2 ++ d2)), not_elem_of_app in Hd.
    rewrite not_elem_of_cons. tauto. }
  split; [done|]. intros h Hh. specialize (Hd' h). rewrite !fmap_app, elem_of_app, not_elem_of_cons in Hd'.
  specialize (Hd' (or_introl Hh)). rewrite not_elem_of_app in Hd'. tauto.
Qed.

Lemma canonicalize_level_ok ps bss l1 o l2 s commit :
  between ps bss (l1 ++ o :: l2) s -> is_Some (pinned s !! hash o) ->
  exists s' js,
    canonicalize_level (length l1) 0 (l1 ++ o :: l2) s commit [] =
      Some (s', put_data commit ((fun k => (k, content k)) <$> inserted o) (deleted o), js) /\
    between ps (prune ps bss (hash <$> l1 ++ l2)) [] s' /\ same_rest s s' /\
    js ≡ₚ journal_key <$> (l1 ++ o :: l2) ++ dropped ps bss (hash <$> l1 ++ l2) /\
    outcome content (pinned s) ((o, [o]) :: forest ps bss (l1 ++ l2))
      (concat (prune ps bss (hash <$> l1 ++ l2))) (kept_of s) (kept_of s').
Proof.
  intros Hbt Hpin. pose proof Hbt as [_ Ht _].
  pose proof (tr_nodup _ _ _ (tree_tracked _ _ _ _ _ Ht)) as Hnd.
  destruct (canonicalize_siblings (length l1) l1 0 (o :: l2) ps bss s commit [])
    as (s1 & js1 & H1 & Hbt1 & [Hl1 Hp1 Hc1] & Hj1 & Ho1); [lia|done|].
  destruct (canonicalize_self (length l1) o l2 ps (prune ps bss (hash <$> l1)) s1 commit js1)
    as (s2 & H2 & Hbt2 & [Hl2 Hp2 Hc2] & Ho2); [done|by rewrite Hp1|].
  rewrite <-(app_nil_r l2) in Hbt2 at 1.
  destruct (canonicalize_siblings (length l1) l2 (S (length l1)) [] ps (prune ps bss (hash <$> l1)) s2
    (put_data commit ((fun k => (k, content k)) <$> inserted o) (deleted o)) (js1 ++ [journal_key o]))
    as (s3 & js3 & H3 & Hbt3 & [Hl3 Hp3 Hc3] & Hj3 & Ho3); [lia|done|].
  rewrite prune_app, <-fmap_app in Hbt3, Ho3. rewrite Hp2, Hp1 in Ho3. rewrite Hp1 in Ho2.
  exists s3, js3. rewrite canonicalize_level_app, H1. cbn [mbind option_bind canonicalize_level Nat.add].
  rewrite H2. cbn [mbind option_bind]. rewrite H3.
  pose proof (level_disjoint ps bss l1 o l2 Hnd) as (Hol & Hd12 & Hd).
  split_all; [done|done|split; congruence| |].
  - rewrite Hj3, Hj1, (fmap_app hash l1), dropped_app_perm. cbn [app].
    rewrite !fmap_app, fmap_cons. cbn [fmap list_fmap]. solve_Permutation.
  - eapply outcome_trans; [exact Ho1| | |].
    + eapply (outcome_trans _ _ _ _ ((o, [o]) :: forest ps (prune ps bss (hash <$> l1)) l2));
        [exact Ho2|exact Ho3| |].
      * intros x Hx. apply list_elem_of_singleton in Hx as ->. by rewrite forest_fst.
      * intros x. by rewrite elem_of_cons, list_elem_of_singleton.
    + intros x. cbn [fmap list_fmap fst]. fold (fst (A := BlockOverlay) (B := list BlockOverlay) <$>
        forest ps (prune ps bss (hash <$> l1)) l2). rewrite !forest_fst. apply Hd12.
    + intros x. rewrite !elem_of_cons, elem_of_forest_app; [tauto|done|].
      by eapply tree_nodup.
Qed.

(** ** What is left descends from the block *)

Lemma descends_between ps x b k :
  ranked number_of ps -> descends ps x b -> descends ps x k -> number_of k <= number_of b -> descends ps b k.
Proof.
  intros Hr Hb. revert k. induction Hb as [x|x p b Hp Hpb IH]; intros k Hk Hle; [done|].
  destruct Hk as [x|x p' k Hp' Hk].
  - apply (descends_rank _ _ _ _ Hr) in Hpb. apply Hr in Hp. destruct Hpb as [->|?]; lia.
  - assert (p' = p) as -> by congruence. by apply IH.
Qed.

Lemma linked_cons ps bs bss : linked ps (bs :: bss) -> linked ps bss.
Proof. intros Hl i. apply (Hl (S i)). Qed.

Lemma linked_root ps bs bss o :
  linked ps (bs :: bss) -> o ∈ concat bss -> exists b, b ∈ bs /\ descends ps (hash o) (hash b).
Proof.
  intros Hl (i & bs' & Hi & Ho)%elem_of_levels. revert o bs' Hi Ho.
  induction i as [|i IH]; intros o bs' Hi Ho.
  - destruct (Hl 0%nat bs' o) as (bs0 & p & [= <-] & Hp & Hin); [done..|].
    apply list_elem_of_fmap in Hin as (b & -> & Hb). exists b. split; [done|]. by apply rtc_once.
  - destruct (Hl (S i) bs' o) as (bs1 & p & Hb1 & Hp & Hin); [done..|].
    apply list_elem_of_fmap in Hin as (c & -> & Hc).
    destruct (IH c bs1 Hb1 Hc) as (b & Hb & Hd). exists b. split; [done|]. by eapply rtc_l.
Qed.

Lemma placed_cons front bs bss :
  placed number_of front (bs :: bss) -> placed number_of (front + 1) bss.
Proof.
  intros Hp i bs' o Hi Ho. destruct (Hp (S i) bs' o Hi Ho) as [H1 H2].
  rewrite Nat2Z.inj_succ in *. unfold Z.succ in *. rewrite <-Z.add_assoc, (Z.add_comm 1). done.
Qed.

(** A level whose blocks have their parents in [hs] or in [ks] *)
Definition split_level ps bs (hs ks : list BlockHash) : Prop :=
  (forall h, h ∈ hs -> h ∉ ks) /\
  (forall c, c ∈ bs -> exists p, ps !! hash c = Some p /\ (p ∈ hs \/ p ∈ ks)).

Lemma split_kept ps bs hs ks c :
  split_level ps bs hs ks -> c ∈ bs -> ~ child_of ps hs c <-> exists k, k ∈ ks /\ ps !! hash c = Some k.
Proof.
  intros [Hdis Htop] Hc. destruct (Htop c Hc) as (p & Hp & Hpp). unfold child_of. rewrite Hp.
  specialize (Hdis p). naive_solver.
Qed.

Lemma split_next ps bs bs' bss hs :
  linked ps (bs :: bs' :: bss) ->
  split_level ps bs' (hash <$> filter (child_of ps hs) bs) (hash <$> filter (fun c => ~ child_of ps hs c) bs).
Proof.
  intros Hln. split.
  - intros h (c & -> & [Hc1 Hc]%list_elem_of_filter)%list_elem_of_fmap
      (c' & Heq & [Hc1' Hc']%list_elem_of_filter)%list_elem_of_fmap.
    apply Hc1'. unfold child_of in *. by rewrite <-Heq.
  - intros c Hc. destruct (Hln 0%nat bs' c) as (bs0 & p & [= <-] & Hp & Hin); [done..|].
    exists p. split; [done|]. apply list_elem_of_fmap in Hin as (b & -> & Hbb).
    destruct (decide (child_of ps hs b)); [left|right]; apply list_elem_of_fmap; exists b;
      (split; [done|]); by apply list_elem_of_filter.
Qed.

(** A block that descends from [k], of the number just below the level, does so through a
    block of the level. *)
Lemma descends_through ps front x b k :
  ranked number_of ps -> number_of b = front -> number_of k = front - 1 ->
  descends ps x b -> descends ps x k -> is_Some (ps !! b) -> ps !! b = Some k.
Proof.
  intros Hr Hnb Hnk Hdb Hd [p Hp].
  pose proof (descends_between ps _ _ _ Hr Hdb Hd ltac:(lia)) as Hbk.
  inversion Hbk as [|? p' ? Hp' Hrest]; subst; [lia|]. assert (p' = p) as -> by congruence.
  apply (descends_rank _ _ _ _ Hr) in Hrest. apply Hr in Hp as Hnp. destruct Hrest as [->|?]; [done|lia].
Qed.

Lemma prune_descends ps bss : forall front hs ks o,
  ranked number_of ps -> placed number_of front bss -> linked ps bss ->
  (forall h, h ∈ ks -> number_of h = front - 1) ->
  (forall bs, bss !! 0%nat = Some bs -> split_level ps bs hs ks) ->
  o ∈ concat (prune ps bss hs) <-> o ∈ concat bss /\ exists k, k ∈ ks /\ descends ps (hash o) k.
Proof.
  induction bss as [|bs bss IH]; intros front hs ks o Hr Hpl Hln Hnum Htop.
  { cbn. rewrite elem_of_nil. naive_solver. }
  specialize (Htop bs eq_refl). pose proof Htop as [_ Htop'].
  assert (forall c, c ∈ bs -> number_of (hash c) = front) as Hbs.
  { intros c Hc. destruct (Hpl 0%nat bs c) as [Hn _]; [done..|]. lia. }
  cbn [prune concat]. rewrite !elem_of_app, list_elem_of_filter.
  rewrite (IH (front + 1) _ (hash <$> filter (fun c => ~ child_of ps hs c) bs));
    [|done|by eapply placed_cons|by eapply linked_cons|..].
  - split.
    + intros [[Hnc Ho]|[Ho (k & Hk & Hd)]].
      * apply (split_kept _ _ _ _ _ Htop Ho) in Hnc as (k & Hk & Hp).
        split; [by left|]. exists k. split; [done|by apply rtc_once].
      * apply list_elem_of_fmap in Hk as (c & -> & [Hnc Hc]%list_elem_of_filter).
        apply (split_kept _ _ _ _ _ Htop Hc) in Hnc as (k & Hk & Hp).
        split; [by right|]. exists k. split; [done|by eapply rtc_r].
    + intros [Ho (k & Hk & Hd)].
      assert (forall b, b ∈ bs -> descends ps (hash o) (hash b) -> ~ child_of ps hs b) as Hkept.
      { intros b Hb Hdb. apply (split_kept _ _ _ _ _ Htop Hb). exists k. split; [done|].
        destruct (Htop' b Hb) as (p & Hp & _).
        apply (descends_through ps front (hash o) (hash b) k); eauto. }
      destruct Ho as [Ho|Ho]; [left; split; [apply Hkept; [done|apply rtc_refl]|done]|]. right.
      split; [done|]. destruct (linked_root _ _ _ _ Hln Ho) as (b & Hb & Hdb). exists (hash b).
      split; [|done]. apply list_elem_of_fmap. exists b. split; [done|]. apply list_elem_of_filter. auto.
  - intros h (c & -> & [_ Hc]%list_elem_of_filter)%list_elem_of_fmap. rewrite (Hbs c Hc). lia.
  - intros bs' Hb. destruct bss as [|bs1 bss]; [done|]. injection Hb as <-. by eapply split_next.
Qed.

(** Everything that descends from [hs] is discarded. *)
Lemma dropped_complete ps bss : forall front hs b h,
  ranked number_of ps -> placed number_of front bss -> linked ps bss ->
  (forall c, c ∈ concat bss -> is_Some (ps !! hash c)) ->
  h ∈ hs -> number_of h = front - 1 -> b ∈ concat bss -> descends ps (hash b) h -> b ∈ dropped ps bss hs.
Proof.
  induction bss as [|bs bss IH]; intros front hs b h Hr Hpl Hln Hps Hh Hnh Hb Hd.
  { by apply elem_of_nil in Hb. }
  assert (forall c, c ∈ bs -> descends ps (hash b) (hash c) -> child_of ps hs c) as Hchild.
  { intros c Hc Hbc. unfold child_of.
    rewrite (descends_through ps front (hash b) (hash c) h); try done.
    - destruct (Hpl 0%nat bs c) as [Hn _]; [done..|]. lia.
    - apply Hps. cbn. apply elem_of_app. by left. }
  cbn [concat dropped] in *. apply elem_of_app. apply elem_of_app in Hb as [Hb|Hb].
  { left. apply list_elem_of_filter. split; [|done]. apply Hchild; [done|apply rtc_refl]. }
  right. destruct (linked_root _ _ _ _ Hln Hb) as (c & Hc & Hbc).
  apply (IH (front + 1) _ b (hash c)); [done|by eapply placed_cons|by eapply linked_cons|..]; try done.
  - intros c' Hc'. apply Hps. apply elem_of_app. by right.
  - apply list_elem_of_fmap. exists c. split; [done|]. apply list_elem_of_filter. auto.
  - destruct (Hpl 0%nat bs c) as [Hn _]; [done..|]. lia.
Qed.

(** What descends from a block of the first level is the block or is discarded with it. *)
Lemma root_complete ps front bs bss a b :
  ranked number_of ps -> placed number_of front (bs :: bss) -> linked ps (bs :: bss) ->
  (forall c, c ∈ concat bss -> is_Some (ps !! hash c)) -> NoDup (hash <$> concat (bs :: bss)) ->
  a ∈ bs -> b ∈ concat (bs :: bss) -> descends ps (hash b) (hash a) -> b ∈ a :: dropped ps bss [hash a].
Proof.
  intros Hr Hpl Hln Hps Hnd Ha Hb Hd. apply elem_of_cons.
  destruct (Hpl 0%nat bs a) as [Hna _]; [done..|]. cbn [concat] in Hb, Hnd.
  apply elem_of_app in Hb as [Hb|Hb].
  - left. destruct (Hpl 0%nat bs b) as [Hnb _]; [done..|].
    destruct (descends_rank _ _ _ _ Hr Hd) as [Heq|?]; [|lia].
    rewrite fmap_app in Hnd. apply NoDup_app in Hnd as (Hnd & _ & _).
    apply list_elem_of_lookup in Ha as [i Hi]. apply list_elem_of_lookup in Hb as [j Hj].
    assert (i = j) as ->; [|congruence].
    eapply (NoDup_lookup _ _ _ _ Hnd); rewrite list_lookup_fmap; [rewrite Hi|rewrite Hj]; cbn; by rewrite ?Heq.
  - right. apply (dropped_complete ps bss (front + 1) _ b (hash a)); try done.
    + by eapply placed_cons.
    + by eapply linked_cons.
    + left.
    + lia.
Qed.

(** The subtree that goes with a discarded block is all that descends from it. *)
Lemma subtrees_complete ps bss : forall front hs a t b,
  ranked number_of ps -> placed number_of front bss -> linked ps bss ->
  (forall c, c ∈ concat bss -> is_Some (ps !! hash c)) -> NoDup (hash <$> concat bss) ->
  (a, t) ∈ subtrees ps bss hs -> b ∈ concat bss -> descends ps (hash b) (hash a) -> b ∈ t.
Proof.
  induction bss as [|bs bss IH]; intros front hs a t b Hr Hpl Hln Hps Hnd Hat Hb Hd.
  { by apply elem_of_nil in Hb. }
  cbn [concat subtrees] in *. apply elem_of_app in Hat as [Hat|Hat].
  - apply list_elem_of_fmap in Hat as (o & [= -> ->] & [_ Ho]%list_elem_of_filter).
    apply (root_complete ps front bs bss); try done.
    intros c Hc. apply Hps, elem_of_app. by right.
  - rewrite fmap_app in Hnd. apply NoDup_app in Hnd as (_ & _ & Hnd).
    apply (IH (front + 1) (hash <$> filter (child_of ps hs) bs) a); try done.
    + by eapply placed_cons.
    + by eapply linked_cons.
    + intros c Hc. apply Hps, elem_of_app. by right.
    + apply elem_of_app in Hb as [Hb|Hb]; [|done]. exfalso.
      destruct (Hpl 0%nat bs b) as [Hnb _]; [done..|].
      assert (a ∈ concat bss) as Ha.
      { eapply elem_of_dropped. rewrite <-subtrees_fst. apply list_elem_of_fmap. by exists (a, t). }
      apply elem_of_levels in Ha as (i & bs' & Hi & Ha).
      destruct (placed_cons _ _ _ Hpl i bs' a Hi Ha) as [Hna _].
      destruct (descends_rank _ _ _ _ Hr Hd) as [Heq|?]; [rewrite Heq in Hna|]; lia.
Qed.

(** ** [canonicalize] *)

Lemma prune_level ps bss : forall hs i bs,
  prune ps bss hs !! i = Some bs -> exists bs', bss !! i = Some bs' /\ forall c, c ∈ bs -> c ∈ bs'.
Proof.
  induction bss as [|bs0 bss IH]; intros hs i bs Hi; [done|]. destruct i as [|i]; cbn in Hi.
  - injection Hi as <-. exists bs0. split; [done|]. by intros c [_ Hc]%list_elem_of_filter.
  - apply IH in Hi. exact Hi.
Qed.

Lemma prune_linked ps bss : forall hs, linked ps bss -> linked ps (prune ps bss hs).
Proof.
  induction bss as [|bs bss IH]; intros hs Hln; [by intros i bs' o Hi|].
  intros i bs' o Hi Ho. destruct i as [|i]; [|exact (IH _ (linked_cons _ _ _ Hln) i bs' o Hi Ho)].
  destruct bss as [|bs1 bss]; [done|]. cbn in Hi. injection Hi as <-.
  apply list_elem_of_filter in Ho as [Hnc Ho].
  destruct (Hln 0%nat bs1 o) as (bs0 & p & [= <-] & Hp & Hin); [done..|].
  eexists _, p. split; [done|]. split; [done|]. apply list_elem_of_fmap in Hin as (b & -> & Hb).
  apply list_elem_of_fmap. exists b. split; [done|]. apply list_elem_of_filter. split; [|done].
  intros Hc. apply Hnc. unfold child_of. rewrite Hp. apply list_elem_of_fmap. exists b.
  split; [done|]. by apply list_elem_of_filter.
Qed.

Lemma block_position_first h l1 (o : BlockOverlay) l2 :
  hash o = h -> h ∉ hash <$> l1 -> block_position h (l1 ++ o :: l2) = Some (length l1).
Proof.
  intros <-. induction l1 as [|c l1 IH]; cbn [app block_position length].
  - intros _. by rewrite bool_decide_eq_true_2.
  - rewrite fmap_cons, not_elem_of_cons. intros [Hne Hl]. rewrite bool_decide_eq_false_2 by congruence.
    by rewrite IH.
Qed.

Section run.
Context (s : NC) (l1 : list BlockOverlay) (o : BlockOverlay) (l2 : list BlockOverlay).
Context (bss : list (list BlockOverlay)) (Hok : ok s) (Hbss : bss_of s = (l1 ++ o :: l2) :: bss).
Abbreviation kept := (prune (parents s) bss (hash <$> l1 ++ l2)).

Lemma front_bound : front_block_number s < 2 ^ 64 - 1.
Proof. pose proof (ok_bound _ _ _ Hok) as Hb. rewrite <-length_bss, Hbss in Hb. cbn in Hb. lia. Qed.

Lemma kept_size : Z.of_nat (length (concat kept)) < 2 ^ 32.
Proof.
  pose proof (ok_size _ _ _ Hok) as Hs. rewrite Hbss in Hs. cbn [concat] in Hs. rewrite length_app in Hs.
  pose proof (Permutation_length (prune_dropped (parents s) bss (hash <$> l1 ++ l2))) as Hl.
  rewrite length_app in Hl. lia.
Qed.

Lemma kept_front bs c : kept !! 0%nat = Some bs -> c ∈ bs -> parents s !! hash c = Some (hash o).
Proof.
  pose proof (ok_linked _ _ _ Hok) as Hln. rewrite Hbss in Hln. destruct bss as [|bs1 bss']; [done|].
  cbn. intros [= <-] [Hnc Hc]%list_elem_of_filter.
  destruct (Hln 0%nat bs1 c) as (bs0 & p & [= <-] & Hp & Hin); [done..|].
  rewrite Hp. f_equal. apply list_elem_of_fmap in Hin as (b & -> & Hb).
  unfold child_of in Hnc. rewrite Hp in Hnc. apply elem_of_app in Hb as [Hb|Hb].
  - exfalso. apply Hnc, list_elem_of_fmap. exists b. split; [done|]. apply elem_of_app. by left.
  - apply elem_of_cons in Hb as [->|Hb]; [done|]. exfalso. apply Hnc, list_elem_of_fmap.
    exists b. split; [done|]. apply elem_of_app. by right.
Qed.

Lemma kept_ok s' :
  last_canonicalized s' = Some (hash o, front_block_number s) -> levels s' = level_of <$> kept ->
  tracked content (concat kept) (kept_of s') -> parents s' ⊆ parents s ->
  (forall h n, pinned s' !! h = Some n -> 0 < n < 2 ^ 32) -> ok s'.
Proof.
  intros Hlast Hl Ht Hps Hpin. pose proof (bss_of_levels _ _ Hl) as Hb.
  pose proof front_bound as Hfb. pose proof (front_nonneg _ _ _ Hok) as Hf0.
  assert (front_block_number s' = front_block_number s + 1) as Hf.
  { unfold front_block_number at 1. rewrite Hlast. apply wadd_small. unfold in_range. lia. }
  assert (forall c, c ∈ concat kept -> parents s' !! hash c = parents s !! hash c) as Hpar.
  { intros c Hc. destruct (proj2 (tr_parents _ _ _ Ht (hash c))) as [p Hp].
    - left. apply list_elem_of_fmap. eauto.
    - cbn in Hp. rewrite Hp. symmetry. by eapply lookup_weaken. }
  pose proof (ok_placed _ _ _ Hok) as Hpl. pose proof (ok_linked _ _ _ Hok) as Hln.
  rewrite Hbss in Hpl, Hln. apply placed_cons in Hpl.
  split; rewrite ?Hb, ?Hf, ?Hlast.
  - done.
  - split; [done| |done]. apply prune_indices. pose proof (tree_indices _ _ _ _ _ (ok_tree _ _ _ Hok)) as Hi.
    rewrite Hbss in Hi. by apply Forall_cons in Hi as [_ Hi].
  - eapply ranked_mono; [done|apply Hok].
  - intros i bs c Hi Hc. destruct (prune_level _ _ _ _ _ Hi) as (bs' & Hi' & Hsub). eauto.
  - intros i bs c Hi Hc. destruct (prune_linked _ _ _ (linked_cons _ _ _ Hln) i bs c Hi Hc)
      as (bs' & p & Hb' & Hp & Hin). exists bs', p. rewrite Hpar; [done|]. apply elem_of_levels. eauto.
  - intros h n bs c [= <- <-] Hi Hc. rewrite Hpar; [by eapply kept_front|]. apply elem_of_levels. eauto.
  - intros h n [= <- <-]. split; [|lia]. pose proof (ok_placed _ _ _ Hok 0%nat (l1 ++ o :: l2) o) as Hn.
    rewrite Hbss in Hn. destruct Hn as [Hn _]; [done|apply elem_of_app; right; left|]. lia.
  - pose proof (ok_bound _ _ _ Hok) as Hbd. rewrite <-length_bss, Hbss in Hbd. cbn in Hbd.
    rewrite <-length_bss, Hb, length_prune. lia.
  - apply kept_size.
  - done.
Qed.

Definition canonical_commit (commit : CommitSet) (js : list MetaKey) : CommitSet :=
  put_meta (delete_meta (put_data commit ((fun k => (k, content k)) <$> inserted o) (deleted o)) js)
    LastCanonicalKey (LastCanonicalOf (hash o) (front_block_number s)).

Lemma canonicalize_run commit :
  default 0 (pinned s !! hash o) + 1 < 2 ^ 32 ->
  exists s' js,
    canonicalize (hash o) commit s = (s', Ok (front_block_number s, canonical_commit commit js)) /\
    ok s' /\ last_canonicalized s' = Some (hash o, front_block_number s) /\ bss_of s' = kept /\
    pinned s' = pinned (pin (hash o) s) /\
    pinned_canonicalized s' = pinned_canonicalized s ++ [hash o] /\
    js ≡ₚ journal_key <$> (l1 ++ o :: l2) ++ dropped (parents s) bss (hash <$> l1 ++ l2) /\
    outcome content (pinned s') ((o, [o]) :: forest (parents s) bss (l1 ++ l2)) (concat kept)
      (kept_of s) (kept_of s').
Proof.
  intros Hpin. pose proof (ok_levels _ _ _ Hok) as Hl. rewrite Hbss in Hl. cbn [fmap list_fmap] in Hl.
  pose proof (pin_ok content number_of s (hash o) Hok Hpin) as Hokp.
  pose proof (ok_tree _ _ _ Hok) as Ht. rewrite Hbss in Ht. apply tree_ok_tail in Ht. cbn [app] in Ht.
  pose proof (tr_nodup _ _ _ (tree_tracked _ _ _ _ _ Ht)) as Hnd.
  set (s0 := set_pinned_canonicalized (pin (hash o) (set_levels s (level_of <$> bss)))
    (pinned_canonicalized s ++ [hash o])).
  destruct (canonicalize_level_ok (parents s) bss l1 o l2 s0 commit)
    as (s1 & js & Hrun & Hbt & [Hr1 Hr2 Hr3] & Hjs & Hout).
  { split; [done|exact Ht|]. pose proof (ok_size _ _ _ Hok) as Hs. by rewrite Hbss in Hs. }
  { cbn. rewrite lookup_insert_eq. eauto. }
  assert (block_position (hash o) (l1 ++ o :: l2) = Some (length l1)) as Hpos.
  { apply block_position_first; [done|]. rewrite fmap_app in Hnd. apply NoDup_app in Hnd as (Hnd & _ & _).
    rewrite fmap_app, fmap_cons in Hnd. apply NoDup_app in Hnd as (_ & Hd & _). intros Hin.
    apply (Hd _ Hin). left. }
  assert (front_block_number s1 = front_block_number s) as Hf.
  { unfold front_block_number. rewrite Hr1. done. }
  destruct Hbt as [Hl1 Ht1 Hsz1].
  exists (set_last s1 (Some (hash o, front_block_number s))), js. split_all.
  - unfold canonicalize. unfold bindM at 1, getM. rewrite Hl. cbn [blocks level_of].
    unfold bindM, putM, liftM, modifyM, getM, retM, ok_or, expect. rewrite Hpos.
    match goal with |- context [canonicalize_level _ 0 _ ?x commit []] => change x with s0 end.
    rewrite Hrun. cbv beta iota. rewrite Hf. done.
  - apply kept_ok; [done|done|apply Ht1|apply Hout|]. cbn. rewrite Hr2. apply (ok_pinned _ _ _ Hokp).
  - done.
  - by apply bss_of_levels.
  - done.
  - done.
  - done.
  - cbn. rewrite Hr2. exact Hout.
Qed.
End run.
End canonicalize.
