(* ===== verification/Journal.v ===== *)
(** The journal of the non-canonical overlay, and restarting from it.

    [apply_state_commit] (client/db/src/lib.rs) writes a commit set to the database, [new]
    (client/state-db/src/noncanonical.rs) reads the overlay back.  As long as every commit is
    applied, the metadata column holds exactly one record per block of the levels
    ([journaled]), and reading it gives an overlay with the same blocks in every level. *)

From stdpp Require Import base numbers list option gmap sets fin_maps.
From S2P Require Import Prelude NonCanonical Discard NonCanonicalInv NonCanonicalOps Canonicalize.

Local Open Scope Z_scope.
Local Open Scope rust_scope.

Section journal.
Context {BlockHash Key DBValue : Type} `{Countable BlockHash} `{Countable Key}.

(** * Definitions *)

(** The columns STATE and STATE_META *)
Record Database := mkDatabase {
  state : gmap Key DBValue;
  state_meta : MetaKey -> option (@MetaValue BlockHash Key DBValue)
}.

Definition set_state (db : Database) (kv : Key * DBValue) : Database :=
  mkDatabase (<[kv.1 := kv.2]> (state db)) (state_meta db).
Definition remove_state (db : Database) (k : Key) : Database :=
  mkDatabase (delete k (state db)) (state_meta db).
Definition set_meta (db : Database) (kv : MetaKey * @MetaValue BlockHash Key DBValue) : Database :=
  mkDatabase (state db) (fun k => if decide (k = kv.1) then Some kv.2 else state_meta db k).
Definition remove_meta (db : Database) (k : MetaKey) : Database :=
  mkDatabase (state db) (fun k' => if decide (k' = k) then None else state_meta db k').

Definition apply_state_commit (db : Database) (c : @CommitSet BlockHash Key DBValue) : Database :=
  let db := foldl set_state db (cs_inserted (data c)) in
  let db := foldl remove_state db (cs_deleted (data c)) in
  let db := foldl set_meta db (cs_inserted (meta c)) in
  foldl remove_meta db (cs_deleted (meta c)).

Definition get_meta {E} (db : Database) (k : MetaKey) : res E (option (@MetaValue BlockHash Key DBValue)) :=
  Ok (state_meta db k).

(** * Commits and the metadata *)

Lemma foldl_set_state_meta l : forall db, state_meta (foldl set_state db l) = state_meta db.
Proof. induction l as [|kv l IH]; intros db; [done|]. cbn. by rewrite IH. Qed.
Lemma foldl_remove_state_meta l : forall db, state_meta (foldl remove_state db l) = state_meta db.
Proof. induction l as [|kv l IH]; intros db; [done|]. cbn. by rewrite IH. Qed.

Lemma foldl_remove_meta l k : forall db,
  state_meta (foldl remove_meta db l) k = if decide (k ∈ l) then None else state_meta db k.
Proof.
  induction l as [|k' l IH]; intros db; [done|]. cbn [foldl]. rewrite IH. cbn.
  repeat case_decide; try done; set_solver.
Qed.

(** The metadata after a commit *)
Lemma apply_meta db c k :
  state_meta (apply_state_commit db c) k =
  if decide (k ∈ cs_deleted (meta c)) then None
  else state_meta (foldl set_meta db (cs_inserted (meta c))) k.
Proof.
  unfold apply_state_commit. cbn zeta. rewrite foldl_remove_meta. case_decide; [done|].
  assert (forall l db1 db2, state_meta db1 = state_meta db2 ->
    state_meta (foldl set_meta db1 l) = state_meta (foldl set_meta db2 l)) as Hext.
  { clear. induction l as [|kv l IH]; intros db1 db2 He; [done|]. cbn. apply IH. cbn. by rewrite He. }
  rewrite (Hext _ _ db); [done|]. by rewrite foldl_remove_state_meta, foldl_set_state_meta.
Qed.

(** * The journal *)

Context (content : Key -> DBValue) (number_of : BlockHash -> Z).
Abbreviation BlockOverlay := (@BlockOverlay BlockHash Key).
Abbreviation Kept := (@Kept BlockHash Key DBValue _ _ _ _).
Abbreviation NC := (@NonCanonicalOverlay BlockHash Key DBValue _ _ _ _).
Abbreviation ok := (overlay_ok content number_of).
Implicit Types (s : NC) (db : Database) (bs : list BlockOverlay) (o : BlockOverlay).

(** The record of a block with that parent *)
Definition journal_of (o : BlockOverlay) (p : BlockHash) : @MetaValue BlockHash Key DBValue :=
  JournalRecordOf (mkJournal (hash o) p ((fun k => (k, content k)) <$> inserted o) (deleted o)).

Record journaled db s : Prop := mkJournaled {
  jd_last : state_meta db LastCanonicalKey =
    (fun l => LastCanonicalOf l.1 l.2) <$> last_canonicalized s;
  jd_blocks : forall o p, o ∈ concat (bss_of s) -> parents s !! hash o = Some p ->
    state_meta db (journal_key o) = Some (journal_of o p);
  jd_only : forall n i v, state_meta db (JournalKey n i) = Some v ->
    exists o, o ∈ concat (bss_of s) /\ journal_key o = JournalKey n i
}.

(** A block's journal key *)
Lemma journal_key_eq s o : ok s -> o ∈ concat (bss_of s) ->
  journal_key o = JournalKey (number_of (hash o)) (journal_index o).
Proof.
  intros Hok (i & bs & Hi & Ho)%elem_of_levels.
  destruct (ok_placed _ _ _ Hok i bs o Hi Ho) as [-> ->]. done.
Qed.

Lemma journal_key_inj s o o' : ok s -> o ∈ concat (bss_of s) -> o' ∈ concat (bss_of s) ->
  journal_key o = journal_key o' -> o = o'.
Proof.
  intros Hok Ho Ho' Heq. rewrite !(journal_key_eq s) in Heq by done. injection Heq as Hn Hi.
  pose proof Ho as (i & bs & Hb & Hob)%elem_of_levels.
  pose proof Ho' as (i' & bs' & Hb' & Hob')%elem_of_levels.
  destruct (ok_placed _ _ _ Hok i bs o Hb Hob) as [H1 _].
  destruct (ok_placed _ _ _ Hok i' bs' o' Hb' Hob') as [H2 _].
  assert (i' = i) as -> by lia. assert (bs' = bs) as -> by congruence.
  pose proof (tree_indices _ _ _ _ _ (ok_tree _ _ _ Hok)) as Hall. rewrite Forall_lookup in Hall.
  destruct (Hall _ _ Hb) as [Hnd _].
  apply list_elem_of_lookup in Hob as [a Ha]. apply list_elem_of_lookup in Hob' as [b Hb2].
  assert (a = b) as ->; [|congruence].
  eapply (NoDup_lookup _ _ _ _ Hnd); rewrite list_lookup_fmap; [rewrite Ha|rewrite Hb2]; cbn; by rewrite ?Hi.
Qed.

(** Fewer blocks, with the records of the others deleted *)
Lemma journaled_fewer db s s' js last :
  ok s -> journaled db s ->
  (forall o, o ∈ concat (bss_of s') -> o ∈ concat (bss_of s)) ->
  (forall o, o ∈ concat (bss_of s') -> parents s' !! hash o = parents s !! hash o) ->
  (forall k, k ∈ js <-> exists o, o ∈ concat (bss_of s) /\ (o ∉ concat (bss_of s')) /\ journal_key o = k) ->
  last_canonicalized s' = last ->
  forall c : @CommitSet BlockHash Key DBValue,
  cs_deleted (meta c) = js ->
  cs_inserted (meta c) = (if decide (last = last_canonicalized s) then [] else
    (fun l => (LastCanonicalKey, LastCanonicalOf l.1 l.2)) <$> option_list last) ->
  (last <> last_canonicalized s -> is_Some last) ->
  journaled (apply_state_commit db c) s'.
Proof.
  intros Hok [Hl Hb Ho] Hsub Hpar Hjs Hlast c Hdel Hins Hsome.
  assert (LastCanonicalKey ∉ js) as Hlk.
  { intros (o & Hin & _ & Hk)%Hjs. by rewrite (journal_key_eq s) in Hk. }
  assert (forall n i, state_meta (foldl set_meta db (cs_inserted (meta c))) (JournalKey n i) =
    state_meta db (JournalKey n i)) as Hj.
  { intros n i. rewrite Hins. case_decide; [done|]. by destruct last. }
  split.
  - rewrite apply_meta, Hdel, decide_False, Hins, Hlast by done. case_decide as Heq; [by rewrite Heq|].
    destruct (Hsome Heq) as [[h n] ->]. done.
  - intros o p Hin Hp. rewrite apply_meta, Hdel, decide_False.
    + rewrite (journal_key_eq s), Hj, <-(journal_key_eq s) by auto. apply Hb; [auto|]. by rewrite <-Hpar.
    + intros (o' & Hin' & Hout & Hk)%Hjs. apply Hout.
      by rewrite (journal_key_inj s o' o Hok Hin' (Hsub _ Hin) Hk).
  - intros n i v. rewrite apply_meta, Hdel.
    destruct (decide (JournalKey n i ∈ js)) as [|Hd]; [done|]. rewrite Hj. intros Hv.
    destruct (Ho _ _ _ Hv) as (o & Hin & Hk). exists o. split; [|done].
    destruct (decide (o ∈ concat (bss_of s'))) as [|Hout]; [done|]. exfalso. apply Hd, Hjs. eauto.
Qed.

Lemma map_content ins :
  Forall (fun kv => kv.2 = content kv.1) ins -> ((fun k => (k, content k)) <$> ins.*1) = ins.
Proof.
  induction 1 as [|[k v] ins Hv _ IH]; [done|]. cbn in *. by rewrite Hv, IH.
Qed.

Lemma journaled_insert db s i h number index parent cs :
  ok s -> insertable content number_of s h number parent cs -> place s i h number index parent ->
  journaled db s ->
  journaled
    (apply_state_commit db
       (put_meta (commit_after s number parent) (JournalKey number index)
          (JournalRecordOf (record_of h parent cs))))
    (state_after s i h number index parent cs).
Proof.
  intros Hok Hins Hpl [Hl Hb Ho]. set (s' := state_after s i h number index parent cs).
  pose proof (state_after_ok _ _ s i h number index parent cs Hok Hins Hpl) as Hok'. fold s' in Hok'.
  assert (concat (bss_of s') ≡ₚ overlay_of h number index cs :: concat (bss_of s)) as Hperm.
  { subst s'. rewrite bss_after. apply put_block_perm, Hpl. }
  assert (forall k, state_meta (apply_state_commit db (put_meta (commit_after s number parent)
      (JournalKey number index) (JournalRecordOf (record_of h parent cs)))) k =
    if decide (k = JournalKey number index) then Some (JournalRecordOf (record_of h parent cs))
    else if decide (k = LastCanonicalKey)
    then (fun l => LastCanonicalOf l.1 l.2) <$> last_canonicalized s' else state_meta db k) as Hm.
  { intros k. rewrite apply_meta. subst s'. unfold commit_after, state_after, last_after. cbn.
    destruct (last_canonicalized s) as [[lh n]|] eqn:Hlast; [|destruct (_ && _)]; cbn;
      rewrite decide_False by (apply not_elem_of_nil); repeat case_decide; subst; done. }
  split.
  - rewrite Hm. done.
  - intros o p Hin Hp. rewrite Hperm in Hin. apply elem_of_cons in Hin as [->|Hin].
    + cbn in Hp. rewrite lookup_insert_eq in Hp. injection Hp as <-. rewrite Hm. cbn.
      rewrite decide_True by done. unfold journal_of. cbn. by rewrite map_content by apply Hins.
    + subst s'. rewrite (old_parent content number_of) in Hp by done.
      rewrite Hm. rewrite decide_False, decide_False; [by apply Hb|..].
      * by rewrite (journal_key_eq s).
      * intros Heq. pose proof (journal_key_inj _ o (overlay_of h number index cs) Hok') as Hinj.
        rewrite Hperm in Hinj.
        assert (o = overlay_of h number index cs) as -> by (apply Hinj; [by right|left|done]).
        apply (block_is_new content number_of s i h number index parent cs Hok Hins Hpl).
        apply list_elem_of_fmap.
        by exists (overlay_of h number index cs).
  - intros n j v. rewrite Hm. setoid_rewrite Hperm. case_decide as Hk; [|case_decide; [done|]].
    + intros _. exists (overlay_of h number index cs). split; [left|]. by rewrite Hk.
    + intros Hv. destruct (Ho _ _ _ Hv) as (o & Hin & Hkey). exists o. split; [by right|done].
Qed.

Lemma journaled_same db s s' :
  journaled db s -> last_canonicalized s' = last_canonicalized s -> levels s' = levels s ->
  ok s -> ok s' -> parents s' ⊆ parents s -> journaled db s'.
Proof.
  intros [Hl Hb Ho] Hlast Hlev Hok Hok' Hps.
  assert (bss_of s' = bss_of s) as Hbss by (unfold bss_of; by rewrite Hlev).
  split; rewrite ?Hbss; [by rewrite Hlast| |done].
  intros o p Hin Hp. apply Hb; [done|]. by eapply lookup_weaken.
Qed.

(** The parents of blocks that stay are not touched. *)
Lemma parents_same s s' o : ok s' -> parents s' ⊆ parents s -> o ∈ concat (bss_of s') ->
  parents s' !! hash o = parents s !! hash o.
Proof.
  intros Hok Hps Ho. destruct (tree_parent _ _ _ _ _ _ (ok_tree _ _ _ Hok) Ho) as [p Hp]. cbn in Hp.
  rewrite Hp. symmetry. by eapply lookup_weaken.
Qed.

Lemma journaled_canonicalize db s l1 o l2 bss s' js :
  ok s -> journaled db s -> bss_of s = (l1 ++ o :: l2) :: bss ->
  ok s' -> last_canonicalized s' = Some (hash o, front_block_number s) ->
  bss_of s' = prune (parents s) bss (hash <$> l1 ++ l2) -> parents s' ⊆ parents s ->
  js ≡ₚ journal_key <$> (l1 ++ o :: l2) ++ dropped (parents s) bss (hash <$> l1 ++ l2) ->
  journaled (apply_state_commit db (canonical_commit content s o default_commit js)) s'.
Proof.
  intros Hok Hj Hbss Hok' Hlast Hb' Hps Hjs.
  set (gone := (l1 ++ o :: l2) ++ dropped (parents s) bss (hash <$> l1 ++ l2)) in *.
  assert (concat (bss_of s) ≡ₚ concat (bss_of s') ++ gone) as Hperm.
  { rewrite Hbss, Hb'. cbn [concat]. subst gone.
    rewrite <-(prune_dropped (parents s) bss (hash <$> l1 ++ l2)) at 1. solve_Permutation. }
  pose proof (tr_nodup _ _ _ (tree_tracked _ _ _ _ _ (ok_tree _ _ _ Hok))) as Hnd. cbn [app] in Hnd.
  apply NoDup_fmap_1 in Hnd. rewrite Hperm in Hnd. apply NoDup_app in Hnd as (_ & Hdis & _).
  apply (journaled_fewer db s s' js (Some (hash o, front_block_number s))); [done|done|..].
  - intros c Hc. rewrite Hperm. apply elem_of_app. by left.
  - intros c Hc. by apply parents_same.
  - intros k. rewrite Hjs, list_elem_of_fmap. split.
    + intros (c & -> & Hc). exists c. split; [rewrite Hperm; apply elem_of_app; by right|].
      split; [|done]. intros Hc'. by apply (Hdis c).
    + intros (c & Hc & Hout & <-). exists c. split; [done|]. rewrite Hperm in Hc.
      by apply elem_of_app in Hc as [Hc|Hc].
  - done.
  - done.
  - cbn. rewrite decide_False; [done|]. intros Heq. symmetry in Heq.
    destruct (ok_last _ _ _ Hok _ _ Heq) as [_ Hr]. rewrite (front_some _ _ s _ _ Hok Heq) in Hr.
    pose proof (front_some _ _ s _ _ Hok Heq). lia.
  - intros _. eauto.
Qed.

(** Blocks taken away without another becoming canonical *)
Lemma journaled_gone db s s' gone :
  ok s -> ok s' -> journaled db s -> last_canonicalized s' = last_canonicalized s ->
  parents s' ⊆ parents s -> concat (bss_of s) ≡ₚ concat (bss_of s') ++ gone ->
  journaled (apply_state_commit db (delete_meta default_commit (journal_key <$> gone))) s'.
Proof.
  intros Hok Hok' Hj Hlast Hps Hperm.
  pose proof (tr_nodup _ _ _ (tree_tracked _ _ _ _ _ (ok_tree _ _ _ Hok))) as Hnd. cbn [app] in Hnd.
  apply NoDup_fmap_1 in Hnd. rewrite Hperm in Hnd. apply NoDup_app in Hnd as (_ & Hdis & _).
  apply (journaled_fewer db s s' (journal_key <$> gone) (last_canonicalized s)); [done|done|..|done|done| |done].
  - intros c Hc. rewrite Hperm. apply elem_of_app. by left.
  - intros c Hc. by apply parents_same.
  - intros k. rewrite list_elem_of_fmap. split.
    + intros (c & -> & Hc). exists c. split; [rewrite Hperm; apply elem_of_app; by right|].
      split; [|done]. intros Hc'. by apply (Hdis c).
    + intros (c & Hc & Hout & <-). exists c. split; [done|]. rewrite Hperm in Hc.
      by apply elem_of_app in Hc as [Hc|Hc].
  - by rewrite decide_True.
Qed.

Definition apply_opt db (c : option (@CommitSet BlockHash Key DBValue)) : Database :=
  match c with Some c => apply_state_commit db c | None => db end.

Lemma trim_back_concat bss : concat (trim_back bss) = concat (bss : list (list BlockOverlay)).
Proof.
  unfold trim_back. destruct (vec_pop bss) as [[[|o bs] bss']|] eqn:Hp; [|done..].
  apply vec_pop_Some in Hp as ->. rewrite concat_app. cbn. by rewrite app_nil_r.
Qed.

Lemma journaled_revert db s : ok s -> journaled db s ->
  journaled (apply_opt db (revert_one s).2) (revert_one s).1.
Proof.
  intros Hok Hj. pose proof (revert_one_ok _ _ s Hok) as Hr. destruct (revert_one s) as [s' r].
  destruct Hr as (Hok' & Hps & [(_ & -> & ->)|(bss & bs & Hb & Hb' & -> & Hl & _)]); [done|].
  apply (journaled_gone db s s'); [done..|]. rewrite Hb, Hb', foldl_levels_snoc. apply Permutation_app_comm.
Qed.

Lemma journaled_remove db s h : ok s -> journaled db s ->
  journaled (apply_opt db (remove h s).2) (remove h s).1.
Proof.
  intros Hok Hj. pose proof (remove_ok _ _ s h Hok) as Hr. destruct (remove h s) as [s' r].
  destruct Hr as (Hok' & Hps & Hl & _ & [[-> Hb]|(i & l1 & o & l2 & Hi & _ & Hb & ->)]).
  - cbn. destruct Hj as [Hjl Hjb Hjo].
    assert (concat (bss_of s') = concat (bss_of s)) as Hc.
    { destruct Hb as [[-> _]|[-> _]]; [done|]. apply trim_back_concat. }
    split; rewrite ?Hc; [by rewrite Hl| |done]. intros o p Ho Hp. apply Hjb; [done|]. by eapply lookup_weaken.
  - apply (journaled_gone db s s' [o]); [done..|].
    rewrite Hb, trim_back_concat, (insert_concat_perm _ _ _ _ _ Hi). apply Permutation_cons_append.
Qed.

(** * Reading the journal *)

(** The block of a level with that index *)
Definition block_at bs (idx : Z) : option BlockOverlay := head (filter (fun o => journal_index o = idx) bs).

(** The blocks with the indices [idx], ..., [idx + n - 1], in this order *)
Definition in_order bs (idx : Z) (n : nat) : list BlockOverlay := omap (block_at bs) (seqZ idx (Z.of_nat n)).

Lemma block_at_Some bs idx o : block_at bs idx = Some o -> o ∈ bs /\ journal_index o = idx.
Proof.
  unfold block_at. destruct (filter _ bs) as [|o' l] eqn:Hf; [done|]. intros [= ->].
  assert (o ∈ filter (fun o => journal_index o = idx) bs) as Hin by (rewrite Hf; left).
  apply list_elem_of_filter in Hin. tauto.
Qed.

Lemma block_at_elem bs o : NoDup (journal_index <$> bs) -> o ∈ bs -> block_at bs (journal_index o) = Some o.
Proof.
  intros Hnd Ho. unfold block_at.
  assert (o ∈ filter (fun c => journal_index c = journal_index o) bs) as Hin by (by apply list_elem_of_filter).
  destruct (filter _ bs) as [|o' l] eqn:Hf; [by apply elem_of_nil in Hin|]. cbn. f_equal.
  assert (o' ∈ filter (fun c => journal_index c = journal_index o) bs) as Hin' by (rewrite Hf; left).
  apply list_elem_of_filter in Hin' as [Heq Hin'].
  apply list_elem_of_lookup in Ho as [a Ha]. apply list_elem_of_lookup in Hin' as [b Hb].
  assert (a = b) as ->; [|congruence].
  eapply (NoDup_lookup _ _ _ _ Hnd); rewrite list_lookup_fmap; [rewrite Ha|rewrite Hb]; cbn; by rewrite ?Heq.
Qed.

Lemma in_order_cons bs idx n : in_order bs idx (S n) = option_list (block_at bs idx) ++ in_order bs (idx + 1) n.
Proof.
  unfold in_order. rewrite seqZ_cons by lia. replace (Z.pred (Z.of_nat (S n))) with (Z.of_nat n) by lia.
  apply omap_cons_app.
Qed.

Lemma NoDup_omap_inj {A B} (f : A -> option B) l :
  (forall x y z, f x = Some z -> f y = Some z -> x = y) -> NoDup l -> NoDup (omap f l).
Proof.
  intros Hinj. induction 1 as [|x l Hx Hl IH]; [constructor|]. rewrite omap_cons_app.
  destruct (f x) as [z|] eqn:Hz; cbn; [|done]. constructor; [|done].
  intros (y & Hy & Hfy)%list_elem_of_omap. by rewrite <-(Hinj x y z) in Hy.
Qed.

Lemma in_order_perm bs : indices_ok bs -> in_order bs 0 (Z.to_nat MAX_BLOCKS_PER_LEVEL) ≡ₚ bs.
Proof.
  intros [Hnd Hr]. unfold in_order. set (m := Z.of_nat _).
  assert (NoDup bs) as Hnd' by (by eapply NoDup_fmap_1).
  apply NoDup_Permutation; [|done|].
  - apply NoDup_omap_inj; [|apply NoDup_seqZ].
    intros i j o [_ <-]%block_at_Some [_ <-]%block_at_Some. done.
  - intros o. rewrite list_elem_of_omap. split.
    + intros (i & _ & [Ho _]%block_at_Some). done.
    + intros Ho. exists (journal_index o). split; [|by apply block_at_elem].
      rewrite Forall_forall in Hr. specialize (Hr o Ho). apply elem_of_seqZ. subst m.
      unfold MAX_BLOCKS_PER_LEVEL in *. lia.
Qed.

(** What has been read: the blocks [D], with parents among [P] *)
Record reading (P : gmap BlockHash BlockHash) (D : list BlockOverlay)
    (acc : gmap BlockHash BlockHash * gmap Key (Z * DBValue)) : Prop := mkReading {
  rd_tracked : tracked content D (mkKept acc.2 acc.1 ∅);
  rd_parents : acc.1 ⊆ P
}.

Lemma reading_perm P D D' acc : D ≡ₚ D' -> reading P D acc -> reading P D' acc.
Proof. intros Hp [Ht Hs]. split; [by rewrite <-Hp|done]. Qed.

Lemma reading_push P D acc o p :
  reading P D acc -> P !! hash o = Some p -> hash o ∉ hash <$> D ->
  Z.of_nat (length (all_keys (o :: D) (∅ : gmap BlockHash (list Key * Z)))) < 2 ^ 32 ->
  reading P (o :: D) (<[hash o := p]> acc.1, insert_values acc.2 ((fun k => (k, content k)) <$> inserted o)).
Proof.
  intros [Ht Hs] Hp Hnew Hlen. rewrite all_keys_cons, length_app in Hlen. split; cbn.
  - apply (tracked_insert content number_of D (mkKept acc.2 acc.1 ∅) o p); cbn; try done.
    + rewrite <-list_fmap_compose. symmetry. apply list_fmap_id.
    + apply Forall_fmap, Forall_forall. done.
    + rewrite length_fmap. lia.
  - by apply insert_subseteq_l.
Qed.

(** One level *)
Record level_stored db (P : gmap BlockHash BlockHash) (block : Z) bs : Prop := mkStored {
  sto_db : forall i, state_meta db (JournalKey block i) =
    (o ← block_at bs i; p ← P !! hash o; Some (journal_of o p));
  sto_parents : forall o, o ∈ bs -> is_Some (P !! hash o);
  sto_keys : forall o, o ∈ bs -> journal_key o = JournalKey block (journal_index o);
  sto_indices : indices_ok bs
}.

Lemma read_meta_ok {E} db k : read_meta (E := E) (get_meta db) k = Ok (state_meta db k).
Proof. done. Qed.

Lemma read_level_ok {E} db P block bs n : level_stored db P block bs ->
  forall idx pre acc D,
  reading P D acc -> NoDup (hash <$> in_order bs idx n ++ D) ->
  Z.of_nat (length (all_keys (in_order bs idx n ++ D) (∅ : gmap BlockHash (list Key * Z)))) < 2 ^ 32 ->
  exists acc', read_level (E := E) (get_meta db) n block idx (level_of pre) acc =
      Ok (level_of (pre ++ in_order bs idx n), acc') /\
    reading P (in_order bs idx n ++ D) acc'.
Proof.
  intros [Hdb Hpar Hkey [Hnd Hr]]. induction n as [|n IH]; intros idx pre acc D Hrd Hnew Hlen.
  { exists acc. cbn. by rewrite app_nil_r. }
  rewrite in_order_cons in *. cbn [read_level]. rewrite read_meta_ok. cbn [res_bind]. rewrite Hdb.
  destruct (block_at bs idx) as [o|] eqn:Ho; unfold option_list in *; cbn [mbind option_bind option_rect app] in *.
  2:{ destruct (IH (idx + 1) pre acc D) as (acc' & Heq & Hrd'); [done..|]. eauto. }
  apply block_at_Some in Ho as [Ho Hidx]. destruct (Hpar o Ho) as [p Hp]. rewrite Hp.
  cbn [mbind option_bind journal_of jr_hash jr_parent_hash jr_inserted jr_deleted].
  assert (mkOverlay (hash o) idx (JournalKey block idx) ((fun k => (k, content k)) <$> inserted o).*1
    (deleted o) = o) as ->.
  { rewrite <-Hidx, <-(Hkey o Ho), <-list_fmap_compose. destruct o. cbn. f_equal. apply list_fmap_id. }
  rewrite level_push_of by (rewrite Forall_forall in Hr; by apply Hr).
  rewrite fmap_cons in Hnew. apply NoDup_cons in Hnew as [Hno Hnew].
  assert (o :: in_order bs (idx + 1) n ++ D ≡ₚ in_order bs (idx + 1) n ++ o :: D) as Hperm
    by apply Permutation_middle.
  destruct (IH (idx + 1) (pre ++ [o])
    (<[hash o := p]> acc.1, insert_values acc.2 ((fun k => (k, content k)) <$> inserted o)) (o :: D))
    as (acc' & Heq & Hrd').
  - apply reading_push; [done..| |].
    + rewrite fmap_app, not_elem_of_app in Hno. tauto.
    + rewrite all_keys_cons, !length_app in *. unfold all_keys in *. rewrite fmap_app, concat_app in Hlen.
      rewrite !length_app in *. lia.
  - rewrite <-Hperm, fmap_cons. by constructor.
  - by rewrite <-Hperm.
  - exists acc'. rewrite Heq, <-app_assoc. split; [done|]. by eapply reading_perm.
Qed.

(** The levels up to the first empty one *)
Fixpoint filled (bss : list (list BlockOverlay)) : list (list BlockOverlay) :=
  match bss with
  | [] => []
  | [] :: _ => []
  | bs :: bss => bs :: filled bss
  end.

Section restart.
Context (db : Database) (s : NC) (Hok : ok s) (Hj : journaled db s).
Abbreviation bss0 := (bss_of s).
Abbreviation front := (front_block_number s).

Lemma level_is_stored i : level_stored db (parents s) (front + Z.of_nat i) (default [] (bss0 !! i)).
Proof.
  assert (forall o, o ∈ default [] (bss0 !! i) -> exists bs, bss0 !! i = Some bs /\ o ∈ bs) as Hin.
  { intros o Ho. destruct (bss0 !! i); [eauto|by apply elem_of_nil in Ho]. }
  assert (indices_ok (default [] (bss0 !! i))) as Hix.
  { pose proof (tree_indices _ _ _ _ _ (ok_tree _ _ _ Hok)) as Hall. rewrite Forall_lookup in Hall.
    destruct (bss0 !! i) eqn:Hi; cbn; [by eapply Hall|split; constructor]. }
  split; [|..|done].
  - intros idx. destruct (block_at (default [] (bss0 !! i)) idx) as [o|] eqn:Ho; cbn.
    + apply block_at_Some in Ho as [Ho <-]. destruct (Hin o Ho) as (bs & Hb & Hob).
      assert (o ∈ concat bss0) as Hc by (apply elem_of_levels; eauto).
      destruct (tree_parent _ _ _ _ _ _ (ok_tree _ _ _ Hok) Hc) as [p Hp]. cbn in Hp. rewrite Hp. cbn.
      rewrite <-(jd_blocks _ _ Hj o p Hc Hp). f_equal.
      destruct (ok_placed _ _ _ Hok i bs o Hb Hob) as [_ ->]. done.
    + destruct (state_meta db (JournalKey (front + Z.of_nat i) idx)) as [v|] eqn:Hv; [|done]. exfalso.
      destruct (jd_only _ _ Hj _ _ _ Hv) as (o & Hc & Hk). pose proof Hc as (j & bs & Hb & Hob)%elem_of_levels.
      destruct (ok_placed _ _ _ Hok j bs o Hb Hob) as [_ Hk']. rewrite Hk' in Hk. injection Hk as Hn Hx.
      assert (j = i) as -> by lia. rewrite Hb in Ho, Hix. cbn in Ho, Hix. rewrite <-Hx in Ho.
      by rewrite block_at_elem in Ho by (done || apply Hix).
  - intros o Ho. destruct (Hin o Ho) as (bs & Hb & Hob).
    apply (tree_parent _ _ _ _ _ _ (ok_tree _ _ _ Hok)), elem_of_levels. eauto.
  - intros o Ho. destruct (Hin o Ho) as (bs & Hb & Hob).
    by destruct (ok_placed _ _ _ Hok i bs o Hb Hob) as [_ ->].
Qed.

(** Behind an empty level there is nothing. *)
Lemma empty_rest i : default [] (bss0 !! i) = [] -> concat (drop i bss0) = [].
Proof.
  intros Hi. destruct (concat (drop i bss0)) as [|o l] eqn:Hc; [done|]. exfalso.
  assert (o ∈ concat (drop i bss0)) as Ho by (rewrite Hc; left).
  apply elem_of_levels in Ho as (j & bs & Hj' & Ho). rewrite lookup_drop in Hj'. clear Hc l.
  revert bs o Hj' Ho. induction j as [|j IH]; intros bs o Hbs Ho.
  - rewrite Nat.add_0_r in Hbs. rewrite Hbs in Hi. cbn in Hi. subst. by apply elem_of_nil in Ho.
  - rewrite Nat.add_succ_r in Hbs. destruct (ok_linked _ _ _ Hok _ _ _ Hbs Ho) as (bs' & p & Hb' & _ & Hp).
    apply list_elem_of_fmap in Hp as (c & -> & Hc). by eapply IH.
Qed.

Lemma filled_drop i : filled (drop i bss0) =
  if decide (default [] (bss0 !! i) = []) then [] else default [] (bss0 !! i) :: filled (drop (S i) bss0).
Proof.
  destruct (bss0 !! i) as [bs|] eqn:Hi; cbn.
  - rewrite (drop_S _ bs) by done. by destruct bs.
  - apply lookup_ge_None in Hi. by rewrite drop_ge.
Qed.

Lemma read_room D i :
  D ≡ₚ concat (take i bss0) ->
  NoDup (hash <$> default [] (bss0 !! i) ++ D) /\
  Z.of_nat (length (all_keys (default [] (bss0 !! i) ++ D) (∅ : gmap BlockHash (list Key * Z)))) < 2 ^ 32.
Proof.
  intros HD. pose proof (tree_tracked _ _ _ _ _ (ok_tree _ _ _ Hok)) as Ht. cbn [app] in Ht.
  assert (concat bss0 ≡ₚ (default [] (bss0 !! i) ++ D) ++ concat (drop (S i) bss0)) as Hp.
  { rewrite HD. destruct (bss0 !! i) as [bs|] eqn:Hi; cbn [default].
    - rewrite <-(take_drop_middle bss0 i bs) at 1 by done. rewrite concat_app. cbn. solve_Permutation.
    - apply lookup_ge_None in Hi. rewrite take_ge, drop_ge by lia. cbn. by rewrite app_nil_r. }
  split.
  - pose proof (tr_nodup _ _ _ Ht) as Hnd. rewrite Hp, fmap_app in Hnd. by apply NoDup_app in Hnd as (? & _).
  - destruct (tr_counted _ _ _ Ht) as [Hlen _]. unfold all_keys in *. rewrite Hp in Hlen.
    rewrite fmap_app, concat_app, !length_app in Hlen. rewrite length_app.
    change (pin_keys ∅) with (@nil Key). cbn [length]. lia.
Qed.

Lemma read_levels_ok {E} fuel : forall i ls acc D,
  (length bss0 <= i + fuel)%nat -> (i <= length bss0)%nat -> D ≡ₚ concat (take i bss0) ->
  reading (parents s) D acc ->
  exists bss' acc',
    read_levels (E := E) (get_meta db) fuel (front + Z.of_nat i) ls acc = Ok (ls ++ (level_of <$> bss'), acc') /\
    reading (parents s) (concat bss0) acc' /\
    Forall2 (≡ₚ) bss' (filled (drop i bss0)) /\ Forall indices_ok bss'.
Proof.
  induction fuel as [|fuel IH]; intros i ls acc D Hfuel Hi HD Hrd;
    pose proof (level_is_stored i) as Hsto; pose proof (in_order_perm _ (sto_indices _ _ _ _ Hsto)) as Hperm;
    destruct (read_room D i HD) as [Hnd Hlen];
    (destruct (read_level_ok (E := E) db (parents s) _ _ (Z.to_nat MAX_BLOCKS_PER_LEVEL) Hsto 0 [] acc D)
       as (acc' & Hread & Hrd'); [done|by rewrite Hperm|by rewrite Hperm|]);
    cbn [read_levels]; change new_level with (level_of (@nil BlockOverlay)); rewrite Hread;
    cbn [res_bind app blocks level_of];
    rewrite (Permutation_length Hperm), filled_drop; apply (reading_perm _ _ _ _ (Permutation_app_tail D Hperm)) in Hrd'.
  all: destruct (default [] (bss0 !! i)) as [|o bs] eqn:Hb; cbn [length Nat.eqb].
  1, 3: exists [], acc'; rewrite app_nil_r, decide_True by done; split; [done|];
    split; [|by split]; eapply reading_perm; [|exact Hrd']; rewrite HD;
    rewrite <-(take_drop i bss0) at 2; by rewrite concat_app, (empty_rest i Hb), app_nil_r.
  - rewrite (lookup_ge_None_2 bss0) in Hb by lia. done.
  - destruct (bss0 !! i) as [bs'|] eqn:Hbi; [|done]. cbn in Hb. subst bs'.
    pose proof (lookup_lt_Some _ _ _ Hbi) as Hlt. pose proof (ok_bound _ _ _ Hok) as Hbd.
    rewrite <-length_bss in Hbd. pose proof (front_nonneg _ _ _ Hok).
    rewrite wadd_small by (unfold in_range; lia).
    replace (front + Z.of_nat i + 1) with (front + Z.of_nat (S i)) by lia.
    set (new := in_order _ _ _) in *.
    destruct (IH (S i) (ls ++ [level_of new]) acc' ((o :: bs) ++ D)) as (bss' & acc2 & Heq & Hrd2 & Hf & Hix);
      [lia|lia| |done|].
    { rewrite (take_S_r _ _ _ Hbi), concat_app, HD. cbn [concat]. rewrite app_nil_r. apply Permutation_app_comm. }
    exists (new :: bss'), acc2. rewrite Heq, <-app_assoc. split; [done|]. split; [done|].
    rewrite decide_False by done. split; [by constructor|]. constructor; [|done].
    eapply indices_ok_perm; [symmetry; exact Hperm|]. apply Hsto.
Qed.

Lemma filled_prefix bss : exists rest, bss = filled bss ++ rest.
Proof.
  induction bss as [|[|o bs] bss [rest IH]]; [by exists []|by eexists|].
  exists rest. cbn. by rewrite <-IH.
Qed.

Lemma filled_end bss : default [] (bss !! length (filled bss)) = [].
Proof. induction bss as [|[|o bs] bss IH]; done. Qed.

Lemma filled_lookup i : default [] (filled bss0 !! i) = default [] (bss0 !! i).
Proof.
  destruct (filled_prefix bss0) as [rest Hr].
  destruct (filled bss0 !! i) as [bs|] eqn:Hi; [by rewrite Hr, (lookup_app_l_Some _ _ _ _ Hi)|].
  apply lookup_ge_None in Hi. cbn. pose proof (empty_rest _ (filled_end bss0)) as Hn.
  set (n := length (filled bss0)) in *.
  destruct (bss0 !! i) as [[|o bs]|] eqn:Hb; [done| |done]. exfalso.
  assert (o ∈ concat (drop n bss0)) as Ho; [|rewrite Hn in Ho; by apply elem_of_nil in Ho].
  apply elem_of_levels. exists (i - n)%nat, (o :: bs). rewrite lookup_drop.
  replace (n + (i - n))%nat with i by lia. split; [done|left].
Qed.

Lemma concat_filled : concat (filled bss0) = concat bss0.
Proof.
  destruct (filled_prefix bss0) as [rest Hr]. pose proof (empty_rest _ (filled_end bss0)) as Hn.
  rewrite Hr in Hn at 2. rewrite drop_app_length in Hn.
  by rewrite Hr at 2; rewrite concat_app, Hn, app_nil_r.
Qed.

Lemma concat_Forall2_perm (l l' : list (list BlockOverlay)) : Forall2 (≡ₚ) l l' -> concat l ≡ₚ concat l'.
Proof. induction 1 as [|x y l l' Hx _ IH]; [done|]. cbn. by rewrite Hx, IH. Qed.

(** A database with the journal of [s] gives the blocks of [s]. *)
Lemma new_ok {E} fuel h n :
  last_canonicalized s = Some (h, n) -> (length bss0 <= fuel)%nat ->
  exists s', new (E := E) (get_meta db) fuel = Ok s' /\ ok s' /\ journaled db s' /\
    last_canonicalized s' = last_canonicalized s /\ pinned s' = ∅ /\ pinned_insertions s' = ∅ /\
    Forall2 (≡ₚ) (bss_of s') (filled bss0).
Proof.
  intros Hlast Hfuel. unfold new. rewrite read_meta_ok, (jd_last _ _ Hj), Hlast. cbn [res_bind fmap option_fmap option_map fst snd].
  destruct (read_levels_ok (E := E) fuel 0 [] (∅, ∅) []) as (bss' & acc & Hread & [Ht Hps] & Hf & Hix).
  - lia.
  - lia.
  - done.
  - split; [|apply map_empty_subseteq]. split; cbn; [constructor|..].
    + intros x. rewrite !lookup_empty, elem_of_nil, !is_Some_alt. tauto.
    + done.
    + apply counted_nil.
    + intros x ins m Hx. by rewrite lookup_empty in Hx.
  - pose proof (front_some _ _ s h n Hok Hlast) as Hfr. rewrite Z.add_0_r in Hread.
    destruct (ok_last _ _ _ Hok _ _ Hlast) as [_ Hr].
    rewrite wadd_small by (unfold in_range; lia). rewrite <-Hfr, Hread. cbn [res_bind fst snd app].
    eexists. split; [done|]. set (s' := mkNonCanonical _ _ _ _ _ _ _).
    assert (bss_of s' = bss') as Hb by (by apply bss_of_levels).
    rewrite drop_0 in Hf. pose proof (concat_Forall2_perm _ _ Hf) as Hc. rewrite concat_filled in Hc.
    assert (ok s') as Hok'.
    { apply (fewer_ok content number_of s); [done|]. split; rewrite ?Hb; try done.
      - by rewrite Hc.
      - pose proof (Forall2_length _ _ _ Hf). destruct (filled_prefix bss0) as [rest Hr'].
        rewrite Hr', length_app. lia.
      - intros i bs o Hi Ho. destruct (Forall2_lookup_l _ _ _ _ _ Hf Hi) as (bs2 & Hi2 & Hp).
        exists bs2. split; [|by rewrite <-Hp]. destruct (filled_prefix bss0) as [rest Hr'].
        rewrite Hr'. by apply lookup_app_l_Some.
      - intros o x _ _. by rewrite Hc. }
    split_all; [done| |done..|by rewrite Hb]. destruct Hj as [Hjl Hjb Hjo].
    split; rewrite ?Hb; [by rewrite Hjl, Hlast| |].
    + intros o p Ho Hp. apply Hjb; [by rewrite <-Hc|]. by eapply lookup_weaken.
    + intros m i v Hv. setoid_rewrite Hc. by eapply Hjo.
Qed.
End restart.
End journal.
