(* ===== verification/OverlaySteps.v ===== *)
(** The non-canonical overlay as a state machine (client/state-db/src/noncanonical.rs).

    A state is an overlay with the database its commits go to.  Every operation is a step, with
    what its caller has to provide; so is a restart, which reads the overlay back from the
    database.  In every reachable state the invariant holds and the journal is complete, and
    the operations do what they are meant to do. *)

From stdpp Require Import base numbers list option gmap sets fin_maps relations.
From S2P Require Import Prelude NonCanonical Discard NonCanonicalInv NonCanonicalOps Canonicalize Journal.

Local Open Scope Z_scope.
Local Open Scope rust_scope.

Section steps.
Context {BlockHash Key DBValue : Type} `{Countable BlockHash} `{Countable Key}.
Context (content : Key -> DBValue) (number_of : BlockHash -> Z).
Abbreviation BlockOverlay := (@BlockOverlay BlockHash Key).
Abbreviation CommitSet := (@CommitSet BlockHash Key DBValue).
Abbreviation NC := (@NonCanonicalOverlay BlockHash Key DBValue _ _ _ _).
Abbreviation Database := (@Database BlockHash Key DBValue _ _).
Abbreviation ok := (overlay_ok content number_of).
Abbreviation insertable := (insertable content number_of).
Implicit Types (s : NC) (db : Database).

Definition empty_overlay : NC := mkNonCanonical None [] ∅ ∅ ∅ ∅ [].
Definition empty_database : Database := mkDatabase ∅ (fun _ => None).

(** The block is in the first level, and its pins do not overflow. *)
Definition canonicalizable s h : Prop :=
  h ∈ hash <$> default [] (bss_of s !! 0%nat) /\ default 0 (pinned s !! h) + 1 < 2 ^ 32.

Inductive step : NC * Database -> NC * Database -> Prop :=
| step_insert s db h number parent cs s' c :
    insertable s h number parent cs -> insert h number parent cs s = (s', Ok c) ->
    step (s, db) (s', apply_state_commit db c)
| step_insert_error s db h number parent cs s' e :
    insertable s h number parent cs -> insert h number parent cs s = (s', Err e) ->
    step (s, db) (s', db)
| step_canonicalize s db h s' n c :
    canonicalizable s h -> canonicalize h default_commit s = (s', Ok (n, c)) ->
    step (s, db) (s', apply_state_commit db c)
| step_revert_one s db s' c :
    revert_one s = (s', c) -> step (s, db) (s', apply_opt db c)
| step_remove s db h s' c :
    remove h s = (s', c) -> step (s, db) (s', apply_opt db c)
| step_pin s db h :
    default 0 (pinned s !! h) + 1 < 2 ^ 32 -> step (s, db) (pin h s, db)
| step_unpin s db h s' :
    unpin h s = Some s' -> step (s, db) (s', db)
| step_sync s db s' :
    sync s = Some s' -> step (s, db) (s', db)
| step_restart s db s' fuel :
    last_canonicalized s <> None -> (length (levels s) <= fuel)%nat ->
    new (E := unit) (get_meta db) fuel = Ok s' -> step (s, db) (s', db).

Definition reachable s db : Prop := rtc step (empty_overlay, empty_database) (s, db).

Lemma empty_ok : ok empty_overlay.
Proof.
  split; cbn; try done.
  - split; [|constructor|].
    + split; cbn; [constructor|..].
      * intros x. rewrite !lookup_empty, elem_of_nil, !is_Some_alt. tauto.
      * intros x Hx. by apply elem_of_nil in Hx.
      * apply counted_nil.
      * intros x ins m Hx. by rewrite lookup_empty in Hx.
    + intros o Ho. by apply elem_of_nil in Ho.
Qed.

Lemma empty_journaled : journaled content empty_database empty_overlay.
Proof. split; [done| |done]. intros o p Ho. by apply elem_of_nil in Ho. Qed.

(** ** The steps keep the invariant *)

Definition good (x : NC * Database) : Prop := ok x.1 /\ journaled content x.2 x.1.

Lemma first_level_split s h : h ∈ hash <$> default [] (bss_of s !! 0%nat) ->
  exists l1 o l2 bss, bss_of s = (l1 ++ o :: l2) :: bss /\ hash o = h.
Proof.
  destruct (bss_of s) as [|bs bss]; cbn; [by intros ?%elem_of_nil|].
  intros (o & -> & (l1 & l2 & ->)%list_elem_of_split)%list_elem_of_fmap. by eexists _, _, _, _.
Qed.

Lemma sync_parents hs : forall s s', ok s -> unpin_all hs s = Some s' -> parents s' ⊆ parents s.
Proof.
  induction hs as [|h hs IH]; intros s s' Hok; cbn; [by intros [= <-]|].
  destruct (unpin_ok content number_of s h Hok) as (s1 & -> & Hok1 & _ & _ & Hk). cbn. intros Hrest.
  etrans; [by apply (IH s1)|]. case_decide; [apply Hk|]. injection Hk as _ Hp _. by rewrite Hp.
Qed.

Lemma step_good x y : step x y -> good x -> good y.
Proof.
  unfold good. destruct 1 as [s db h number parent cs s' c Hins Hrun|s db h number parent cs s' e Hins Hrun
    |s db h s' n c [Hh Hp] Hrun|s db s' c Hrun|s db h s' c Hrun|s db h Hp|s db h s' Hrun|s db s' Hrun
    |s db s' fuel Hl Hf Hrun]; cbn; intros [Hok Hj].
  - destruct (insert_cases _ _ s h number parent cs Hok Hins) as [(e & Heq & _)|(i & index & Hpl & Heq)];
      rewrite Heq in Hrun; simplify_eq.
    split; [by apply state_after_ok|]. by apply (journaled_insert content number_of).
  - destruct (insert_cases _ _ s h number parent cs Hok Hins) as [(e' & Heq & _)|(i & index & Hpl & Heq)];
      rewrite Heq in Hrun; simplify_eq. done.
  - destruct (first_level_split s h Hh) as (l1 & o & l2 & bss & Hb & <-).
    destruct (canonicalize_run content number_of s l1 o l2 bss Hok Hb default_commit Hp)
      as (s1 & js & Heq & Hok1 & Hlast & Hb1 & _ & _ & Hjs & Hout). rewrite Heq in Hrun. simplify_eq.
    split; [done|]. eapply (journaled_canonicalize content number_of); try done. apply Hout.
  - pose proof (revert_one_ok _ _ s Hok) as Hr. pose proof (journaled_revert _ _ db s Hok Hj) as Hj'.
    rewrite Hrun in Hr, Hj'. split; [apply Hr|done].
  - pose proof (remove_ok _ _ s h Hok) as Hr. pose proof (journaled_remove _ _ db s h Hok Hj) as Hj'.
    rewrite Hrun in Hr, Hj'. split; [apply Hr|done].
  - pose proof (pin_ok _ _ s h Hok Hp) as Hok'. split; [done|]. by apply (journaled_same content number_of db s).
  - destruct (unpin_ok _ _ s h Hok) as (s1 & Heq & Hok1 & [Hsl Hsv _] & _ & Hk). rewrite Heq in Hrun.
    simplify_eq. split; [done|]. eapply journaled_same; try done.
    case_decide; [apply Hk|]. injection Hk as _ Hp _. by rewrite Hp.
  - destruct (sync_ok _ _ s Hok) as (s1 & Heq & Hok1 & Hsl & Hsv & _). rewrite Heq in Hrun. simplify_eq.
    split; [done|]. eapply journaled_same; try done. unfold sync in Heq.
    destruct (unpin_all (pinned_canonicalized s) (set_pinned_canonicalized s [])) as [s2|] eqn:Hu; [|done].
    cbn in Heq. simplify_eq.
    apply (sync_parents (pinned_canonicalized s) (set_pinned_canonicalized s []) s2); [|done].
    by apply set_canonicalized_ok.
  - destruct (last_canonicalized s) as [[h n]|] eqn:Hlast; [|done].
    destruct (new_ok content number_of db s Hok Hj (E := unit) fuel h n Hlast) as (s1 & Heq & Hok1 & Hj1 & _);
      [by rewrite length_bss|]. rewrite Heq in Hrun. simplify_eq. done.
Qed.

Lemma reachable_good s db : reachable s db -> ok s /\ journaled content db s.
Proof.
  intros Hr. change (good (s, db)). revert Hr. unfold reachable. generalize (s, db). clear s db.
  intros y Hy. assert (good (empty_overlay, empty_database)) as Hg by (split; [apply empty_ok|apply empty_journaled]).
  induction Hy as [|x y z Hxy _ IH]; [done|]. apply IH. by eapply step_good.
Qed.

(** ** What the operations do *)

(** A block of the second level descends from the canonical block or from a sibling of it. *)
Lemma siblings_split s l1 o l2 bss bs :
  ok s -> bss_of s = (l1 ++ o :: l2) :: bss -> bss !! 0%nat = Some bs ->
  split_level (parents s) bs (hash <$> l1 ++ l2) [hash o].
Proof.
  intros Hok Hb Hbs. pose proof (tr_nodup _ _ _ (tree_tracked _ _ _ _ _ (ok_tree _ _ _ Hok))) as Hnd.
  rewrite Hb in Hnd. cbn [app concat] in Hnd. rewrite fmap_app in Hnd. apply NoDup_app in Hnd as (Hnd & _ & _).
  rewrite <-Permutation_middle, fmap_cons in Hnd. apply NoDup_cons in Hnd as [Hnew _]. split.
  - intros h Hh ->%list_elem_of_singleton. done.
  - intros c Hc. destruct (ok_linked _ _ _ Hok 0%nat bs c) as (bs0 & p & Hb0 & Hp & Hin); [by rewrite Hb|done|].
    rewrite Hb in Hb0. injection Hb0 as <-. exists p. split; [done|].
    rewrite <-Permutation_middle, fmap_cons in Hin. apply elem_of_cons in Hin as [->|Hin]; [right; left|by left].
Qed.

Lemma insert_keys s i h number index parent cs :
  (i <= length (bss_of s))%nat ->
  keys_of (state_after s i h number index parent cs) ≡ₚ (cs_inserted cs).*1 ++ keys_of s.
Proof.
  intros Hi. unfold keys_of. rewrite bss_after, put_block_perm by done. by rewrite all_keys_cons.
Qed.

Lemma get_keys s k : ok s -> k ∈ keys_of s -> get s k = Some (content k).
Proof. intros Hok Hk. rewrite (get_ok content number_of) by done. by rewrite decide_True. Qed.

Lemma get_keys_inv s k v : ok s -> get s k = Some v -> k ∈ keys_of s /\ v = content k.
Proof.
  intros Hok Hg. rewrite (get_ok content number_of) in Hg by done. case_decide; [|done]. by simplify_eq.
Qed.

(** [C12] In a reachable state, for a block offered as the database offers blocks ([offered])
    and whose position [insert] checks (not [unchecked]: not a block offered while block 0 is in
    the overlay and nothing is canonical, and not a child of a discarded block that is kept for
    a pin), [insert] either refuses the block, for a reason that holds, and changes nothing; or
    it puts the block into the level below its parent, under a journal index no other block of
    the level has, and returns the commit with its journal record.  Then the block is known,
    its values can be read, and so can all that could be read before. *)
Theorem insert_block_correct s db h number parent cs :
  reachable s db -> offered content number_of s h number parent cs -> ~ unchecked s number parent ->
  (exists e, insert h number parent cs s = (s, Err e) /\ rejected s h number parent e) \/
  exists i index,
    let s' := state_after s i h number index parent cs in
    insert h number parent cs s =
      (s', Ok (put_meta (commit_after s number parent) (JournalKey number index)
                 (JournalRecordOf (record_of h parent cs)))) /\
    place s i h number index parent /\ have_block s' h = true /\
    (forall k v, (k, v) ∈ cs_inserted cs -> get s' k = Some v) /\
    (forall k v, get s k = Some v -> get s' k = Some v).
Proof.
  intros Hreach Hoff Hchecked. destruct (reachable_good s db Hreach) as [Hok Hj].
  assert (insertable s h number parent cs) as Hins by (by split).
  destruct (insert_cases _ _ s h number parent cs Hok Hins) as [Herr|(i & index & Hpl & Heq)]; [by left|].
  right. exists i, index. cbn zeta.
  pose proof (state_after_ok _ _ s i h number index parent cs Hok Hins Hpl) as Hok'.
  assert (forall k, k ∈ (cs_inserted cs).*1 \/ k ∈ keys_of s ->
    get (state_after s i h number index parent cs) k = Some (content k)) as Hget.
  { intros k Hk. apply get_keys; [done|]. rewrite insert_keys by apply Hpl. by apply elem_of_app. }
  split; [done|]. split; [done|]. split; [|split].
  - unfold have_block. apply bool_decide_eq_true_2. cbn. rewrite lookup_insert_eq. eauto.
  - intros k v Hkv. pose proof (ins_content _ _ _ _ _ _ _ Hoff) as Hc. rewrite Forall_forall in Hc.
    specialize (Hc _ Hkv). cbn in Hc. subst v. apply Hget. left. apply list_elem_of_fmap. by exists (k, content k).
  - intros k v Hg. apply get_keys_inv in Hg as [Hk ->]; [|done]. apply Hget. by right.
Qed.

(** [C5] In a reachable state, canonicalizing a block [o] of the first level returns its number
    and a commit with exactly its changes.  The blocks left are the ones that descend from it;
    the journal records of all others are deleted. *)
Theorem canonicalize_correct s db h :
  reachable s db -> canonicalizable s h ->
  exists o s' js gone,
    hash o = h /\ o ∈ default [] (bss_of s !! 0%nat) /\
    canonicalize h default_commit s =
      (s', Ok (front_block_number s,
               put_meta (delete_meta (put_data default_commit
                                        ((fun k => (k, content k)) <$> inserted o) (deleted o)) js)
                 LastCanonicalKey (LastCanonicalOf h (front_block_number s)))) /\
    last_canonicalized s' = Some (h, front_block_number s) /\
    (forall b, b ∈ concat (bss_of s') <->
       b ∈ concat (drop 1 (bss_of s)) /\ descends (parents s) (hash b) h) /\
    concat (bss_of s) ≡ₚ concat (bss_of s') ++ gone /\ js ≡ₚ journal_key <$> gone.
Proof.
  intros Hreach [Hh Hp]. destruct (reachable_good s db Hreach) as [Hok Hj].
  destruct (first_level_split s h Hh) as (l1 & o & l2 & bss & Hb & <-).
  destruct (canonicalize_run content number_of s l1 o l2 bss Hok Hb default_commit Hp)
    as (s' & js & Heq & Hok' & Hlast & Hb' & _ & _ & Hjs & Hout).
  exists o, s', js, ((l1 ++ o :: l2) ++ dropped (parents s) bss (hash <$> l1 ++ l2)).
  rewrite Hb. split; [done|]. split; [apply elem_of_app; right; left|]. split; [done|].
  split; [done|]. split; [|split; [|done]].
  - intros b. rewrite Hb'. cbn [drop]. rewrite (prune_descends number_of (parents s) bss (front_block_number s + 1) _ [hash o]).
    + split; intros [Hin Hd]; (split; [done|]).
      * destruct Hd as (k & ->%list_elem_of_singleton & Hd). done.
      * exists (hash o). split; [left|done].
    + apply Hok.
    + pose proof (ok_placed _ _ _ Hok) as Hpl. rewrite Hb in Hpl. by eapply placed_cons.
    + pose proof (ok_linked _ _ _ Hok) as Hln. rewrite Hb in Hln. by eapply linked_cons.
    + intros k ->%list_elem_of_singleton. destruct (ok_placed _ _ _ Hok 0%nat (l1 ++ o :: l2) o) as [Hn _].
      * by rewrite Hb.
      * apply elem_of_app. right. left.
      * lia.
    + intros bs Hbs. apply (siblings_split s l1 o l2 bss); done.
  - rewrite Hb'. cbn [concat]. rewrite <-(prune_dropped (parents s) bss (hash <$> l1 ++ l2)) at 1.
    solve_Permutation.
Qed.

(** The discarded blocks, each with what descends from it *)
Lemma forest_complete s l1 o l2 bss a b :
  ok s -> bss_of s = (l1 ++ o :: l2) :: bss ->
  a ∈ l1 ++ l2 ++ dropped (parents s) bss (hash <$> l1 ++ l2) -> b ∈ concat (bss_of s) ->
  descends (parents s) (hash b) (hash a) ->
  exists t, (a, t) ∈ forest (parents s) bss (l1 ++ l2) /\ b ∈ t.
Proof.
  intros Hok Hb Ha Hin Hd. pose proof (ok_placed _ _ _ Hok) as Hpl. pose proof (ok_linked _ _ _ Hok) as Hln.
  pose proof (tr_nodup _ _ _ (tree_tracked _ _ _ _ _ (ok_tree _ _ _ Hok))) as Hnd. cbn [app] in Hnd.
  assert (forall c, c ∈ concat (bss_of s) -> is_Some (parents s !! hash c)) as Hps
    by (intros c; apply (tree_parent _ _ _ _ _ _ (ok_tree _ _ _ Hok))).
  rewrite Hb in *. cbn [concat] in Hps, Hin.
  rewrite app_assoc, <-(forest_fst (parents s) bss (l1 ++ l2)) in Ha.
  apply list_elem_of_fmap in Ha as ([a' t] & Ha & Hat). cbn in Ha. subst a'. exists t. split; [done|].
  unfold forest in Hat. apply elem_of_app in Hat as [Hat|Hat].
  - apply list_elem_of_fmap in Hat as (c & [= -> ->] & Hc).
    apply (root_complete number_of _ (front_block_number s) (l1 ++ o :: l2)); try done.
    + apply Hok.
    + intros c' Hc'. apply Hps, elem_of_app. by right.
    + rewrite elem_of_app, elem_of_cons. apply elem_of_app in Hc. tauto.
  - apply (subtrees_complete number_of (parents s) bss (front_block_number s + 1) (hash <$> l1 ++ l2) a t b); try done.
    + apply Hok.
    + by eapply placed_cons.
    + by eapply linked_cons.
    + intros c Hc. apply Hps, elem_of_app. by right.
    + cbn [concat] in Hnd. rewrite fmap_app in Hnd. by apply NoDup_app in Hnd as (_ & _ & Hnd).
    + apply elem_of_app in Hin as [Hin|Hin]; [|done]. exfalso.
      destruct (Hpl 0%nat (l1 ++ o :: l2) b) as [Hnb _]; [done..|].
      assert (a ∈ concat bss) as Ha.
      { eapply elem_of_dropped. rewrite <-subtrees_fst. apply list_elem_of_fmap. by exists (a, t). }
      apply elem_of_levels in Ha as (i & bs' & Hi & Ha).
      destruct (Hpl (S i) bs' a Hi Ha) as [Hna _].
      destruct (descends_rank _ _ _ _ (ok_rank _ _ _ Hok) Hd) as [Heq|?]; [rewrite Heq in Hna|]; lia.
Qed.

Lemma npinned_pos (pins : gmap BlockHash Z) (b : BlockOverlay) t :
  b ∈ t -> is_Some (pins !! hash b) -> 0 < npinned pins t.
Proof.
  intros Hb Hp. unfold npinned.
  assert (b ∈ filter (fun o => is_Some (pins !! hash o)) t) as Hin by (by apply list_elem_of_filter).
  destruct (filter _ t); [by apply elem_of_nil in Hin|cbn; lia].
Qed.

Lemma elem_of_inserted (bs : list BlockOverlay) k :
  k ∈ concat (inserted <$> bs) <-> exists b, b ∈ bs /\ k ∈ inserted b.
Proof.
  induction bs as [|c l IH]; cbn.
  - rewrite elem_of_nil. split; [done|]. by intros (b & Hb%elem_of_nil & _).
  - rewrite elem_of_app, IH. setoid_rewrite elem_of_cons. split.
    + intros [Hk|(b & Hb & Hk)]; eauto.
    + intros (b & [->|Hb] & Hk); eauto.
Qed.

Lemma retained_keys s h ins n k : pinned_insertions s !! h = Some (ins, n) -> k ∈ ins -> k ∈ keys_of s.
Proof.
  intros Hp Hk. unfold keys_of, all_keys. apply elem_of_app. right.
  rewrite (pin_keys_delete _ _ _ _ Hp). apply elem_of_app. by left.
Qed.

(** [C18] Canonicalizing discards no value that a pinned block needs: when a pinned block [b] is
    discarded, the values of [b] and of every ancestor of [b] that is discarded with it can
    still be read. *)
Theorem canonicalize_keeps_pinned s db h s' r a b k :
  reachable s db -> canonicalizable s h -> canonicalize h default_commit s = (s', Ok r) ->
  a ∈ concat (bss_of s) -> a ∉ concat (bss_of s') -> b ∈ concat (bss_of s) ->
  is_Some (pinned s !! hash b) -> descends (parents s) (hash b) (hash a) -> k ∈ inserted a ->
  get s' k = Some (content k).
Proof.
  intros Hreach [Hh Hp] Hrun Ha Hgone Hb Hpin Hd Hk. destruct (reachable_good s db Hreach) as [Hok Hj].
  destruct (first_level_split s h Hh) as (l1 & o & l2 & bss & Hbss & <-).
  destruct (canonicalize_run content number_of s l1 o l2 bss Hok Hbss default_commit Hp)
    as (s1 & js & Heq & Hok' & Hlast & Hb' & Hpins & _ & _ & Hout). rewrite Heq in Hrun. simplify_eq.
  assert (exists n, pinned_insertions s' !! hash a = Some (inserted a, n)) as [n Hn];
    [|by eapply get_keys, retained_keys].
  assert (a = o \/ a ∈ l1 ++ l2 ++ dropped (parents s) bss (hash <$> l1 ++ l2)) as [->|Hin].
  { rewrite Hbss in Ha. cbn [concat] in Ha. rewrite <-(prune_dropped (parents s) bss (hash <$> l1 ++ l2)) in Ha.
    rewrite Hb' in Hgone. rewrite !elem_of_app, elem_of_cons in *. tauto. }
  - pose proof (out_pins _ _ _ _ _ _ Hout o [o] ltac:(left)) as Ho. cbn in Ho. rewrite Ho. unfold pin_entry.
    rewrite npinned_cons, bool_decide_eq_true_2; [cbn; eauto|]. rewrite Hpins. cbn. rewrite lookup_insert_eq. eauto.
  - destruct (forest_complete s l1 o l2 bss a b Hok Hbss Hin Hb Hd) as (t & Hat & Hbt).
    pose proof (out_pins _ _ _ _ _ _ Hout a t ltac:(by right)) as Ho. cbn in Ho. rewrite Ho. unfold pin_entry.
    assert (0 < npinned (pinned s') t) as Hpos.
    { apply (npinned_pos _ b); [done|]. rewrite Hpins. cbn. destruct (decide (hash b = hash o)) as [->|Hne].
      - rewrite lookup_insert_eq. eauto.
      - by rewrite lookup_insert_ne. }
    rewrite (proj2 (Z.eqb_neq _ _)) by lia. eauto.
Qed.

Lemma elem_of_pin_keys (pins : gmap BlockHash (list Key * Z)) k :
  k ∈ pin_keys pins <-> exists x e, pins !! x = Some e /\ k ∈ e.1.
Proof.
  unfold pin_keys. rewrite list_elem_of_In, in_concat. setoid_rewrite <-list_elem_of_In. setoid_rewrite list_elem_of_fmap. split.
  - intros (l & ([x e] & -> & Hx%elem_of_map_to_list) & Hk). eauto.
  - intros (x & e & Hx & Hk). exists e.1. split; [|done]. exists (x, e). by rewrite elem_of_map_to_list.
Qed.

Lemma occ_app k (ks ks' : list Key) : occ k (ks ++ ks') = occ k ks + occ k ks'.
Proof. unfold occ. rewrite filter_app, length_app. lia. Qed.

Lemma occ_pos k (ks : list Key) : k ∈ ks -> 0 < occ k ks.
Proof.
  intros Hk. unfold occ. assert (k ∈ filter (k =.) ks) as Hin by (by apply list_elem_of_filter).
  destruct (filter (k =.) ks); [by apply elem_of_nil in Hin|cbn; lia].
Qed.

(** [C39] A canonicalized block [p] is pinned until [sync] confirms that its values are on disk,
    which keeps its values ([pinned_insertions] counts that one pin).  Yet unpinning a child [h]
    of it that was discarded and is kept for its own, last, pin counts [p] down as well: the
    values only [p] has inserted cannot be read any more, while [p] is still pinned and waits
    for [sync]. *)
Theorem unpin_child_drops_canonical s db h p ins ins_p n m k v :
  reachable s db -> p ∈ pinned_canonicalized s -> pinned s !! p = Some m ->
  pinned_insertions s !! p = Some (ins_p, 1) ->
  pinned s !! h = Some 1 -> parents s !! h = Some p -> pinned_insertions s !! h = Some (ins, n) ->
  k ∈ ins_p -> values s !! k = Some (1, v) ->
  get s k = Some v /\
  exists s', unpin h s = Some s' /\ p ∈ pinned_canonicalized s' /\ pinned s' !! p = Some m /\ get s' k = None.
Proof.
  intros Hreach Hcan Hpp Hpi Hph Hpar Hhi Hk Hv. destruct (reachable_good s db Hreach) as [Hok _].
  split; [unfold get; by rewrite Hv|]. destruct (unpin_ok content number_of s h Hok) as (s' & Hun & Hok' & [_ Hl Hc] & Hp' & Hrel).
  rewrite decide_True in Hrel by done. exists s'. split; [done|]. split; [by rewrite Hc|]. split.
  { rewrite Hp'. unfold unpinned. rewrite Hph. change (1 - 1 =? 0) with true. cbn iota. rewrite lookup_delete_ne; [done|]. intros ->.
    pose proof (ok_rank _ _ _ Hok _ _ Hpar). lia. }
  assert (pinned_insertions s' !! p = None) as Hnone.
  { change (k_pinned_insertions (kept_of s') !! p = None). rewrite (rel_next _ _ _ Hrel p (ex_intro _ _ Hhi) Hpar).
    cbn [kept_of k_pinned_insertions]. by rewrite Hpi. }
  pose proof (tr_counted _ _ _ (tree_tracked _ _ _ _ _ (ok_tree _ _ _ Hok))) as Hcnt. cbn in Hcnt.
  pose proof (retained_keys s p ins_p 1 k Hpi Hk) as Hks.
  pose proof (counted_get _ _ _ _ Hcnt Hks) as Hocc. rewrite Hv in Hocc. injection Hocc as Hocc _.
  unfold all_keys in Hocc. rewrite (pin_keys_delete _ _ _ _ Hpi), !occ_app in Hocc.
  pose proof (occ_pos k ins_p Hk). pose proof (occ_bounds k (concat (inserted <$> concat (bss_of s)))).
  pose proof (occ_bounds k (pin_keys (delete p (pinned_insertions s)))).
  rewrite (get_ok content number_of) by done. rewrite decide_False; [done|]. unfold keys_of, all_keys, bss_of.
  rewrite Hl. intros [Hin|Hin]%elem_of_app.
  - apply occ_pos in Hin. unfold bss_of in *. lia.
  - apply elem_of_pin_keys in Hin as (x & e & Hx & Hke). assert (x <> p) as Hne by congruence.
    assert (k ∈ pin_keys (delete p (pinned_insertions s))) as Hin%occ_pos; [|lia]. apply elem_of_pin_keys. exists x.
    destruct (rel_pins _ _ _ Hrel x) as [Hs|Hs]; cbn in Hs; rewrite Hx in Hs.
    + exists e. by rewrite lookup_delete_ne.
    + destruct (pinned_insertions s !! x) as [[ins' n']|] eqn:Hxs; [|done]. cbn in Hs. destruct (_ =? _); [done|].
      exists (ins', n'). rewrite lookup_delete_ne by done. split; [done|]. by simplify_eq/=.
Qed.

(** Restarting from the database of a reachable state gives an overlay with the same last
    canonicalized block, the same blocks in every level and the same parents; the values that
    can be read are exactly the ones these blocks have inserted. *)
Theorem restart_correct s db fuel :
  reachable s db -> last_canonicalized s <> None -> (length (levels s) <= fuel)%nat ->
  exists s', new (E := unit) (get_meta db) fuel = Ok s' /\
    last_canonicalized s' = last_canonicalized s /\
    (forall i, default [] (bss_of s' !! i) ≡ₚ default [] (bss_of s !! i)) /\
    (forall b, b ∈ concat (bss_of s) -> parents s' !! hash b = parents s !! hash b) /\
    (forall k v, get s' k = Some v <-> v = content k /\ exists b, b ∈ concat (bss_of s) /\ k ∈ inserted b).
Proof.
  intros Hreach Hl Hf. destruct (reachable_good s db Hreach) as [Hok Hj].
  destruct (last_canonicalized s) as [[h n]|] eqn:Hlast; [|done].
  destruct (new_ok content number_of db s Hok Hj (E := unit) fuel h n Hlast)
    as (s' & Heq & Hok' & Hj' & Hl' & _ & Hpi & Hperm); [by rewrite length_bss|].
  pose proof (concat_Forall2_perm _ _ Hperm) as Hc. rewrite (concat_filled content number_of) in Hc by done.
  exists s'. split; [done|]. split; [congruence|]. split; [|split].
  - intros i. rewrite <-(filled_lookup content number_of s Hok i).
    destruct (bss_of s' !! i) as [bs|] eqn:Hi.
    + destruct (Forall2_lookup_l _ _ _ _ _ Hperm Hi) as (bs' & -> & Hp). done.
    + apply lookup_ge_None in Hi. rewrite (Forall2_length _ _ _ Hperm) in Hi.
      by rewrite (lookup_ge_None_2 (filled _)).
  - intros b Hb. rewrite <-Hc in Hb.
    destruct (tree_parent _ _ _ _ _ _ (ok_tree _ _ _ Hok') Hb) as [p Hp]. cbn in Hp. rewrite Hp.
    pose proof (jd_blocks _ _ _ Hj' b p Hb Hp) as Hr. rewrite Hc in Hb.
    destruct (tree_parent _ _ _ _ _ _ (ok_tree _ _ _ Hok) Hb) as [p' Hp']. cbn in Hp'. rewrite Hp'.
    rewrite (jd_blocks _ _ _ Hj b p' Hb Hp') in Hr. unfold journal_of in Hr. congruence.
  - assert (forall k, k ∈ keys_of s' <-> exists b, b ∈ concat (bss_of s) /\ k ∈ inserted b) as Hkeys.
    { intros k. unfold keys_of, all_keys. rewrite Hpi, Hc. change (pin_keys ∅) with (@nil Key).
      rewrite app_nil_r. apply elem_of_inserted. }
    intros k v. rewrite <-Hkeys. split.
    + intros Hg. apply get_keys_inv in Hg; tauto.
    + intros [-> Hk]. by apply get_keys.
Qed.

(** [C36] In a state that [offered] insertions at checked positions and the other operations lead
    to, [insert] panics exactly when nothing is canonical, the overlay is
    not empty, and the number of the block is beyond its levels; for every other block it
    returns.  [canonicalize] succeeds on a block of the first level, and the walk of [unpin] and
    [sync] over the ancestors ends. *)
Theorem overlay_progress s db :
  reachable s db ->
  (forall h number parent cs, 0 <= number < 2 ^ 64 ->
     (insert h number parent cs s).2 = Panic <->
     last_canonicalized s = None /\ levels s <> [] /\ Z.of_nat (length (levels s)) < number) /\
  (forall h, canonicalizable s h -> is_ok (canonicalize h default_commit s).2 = true) /\
  (forall h, is_Some (unpin h s)) /\ is_Some (sync s).
Proof.
  intros Hreach. destruct (reachable_good s db Hreach) as [Hok Hj]. split_all.
  - intros h number parent cs Hr. by eapply insert_panics.
  - intros h [Hh Hp]. destruct (first_level_split s h Hh) as (l1 & o & l2 & bss & Hbss & <-).
    by destruct (canonicalize_run content number_of s l1 o l2 bss Hok Hbss default_commit Hp) as (s1 & js & -> & _).
  - intros h. destruct (unpin_ok content number_of s h Hok) as (s1 & -> & _). eauto.
  - destruct (sync_ok content number_of s Hok) as (s1 & -> & _). eauto.
Qed.

(** A hash that is not in the first level makes [canonicalize] fail, but the level is gone
    by then: its blocks are in no level any more, while [have_block] still answers yes. *)
Theorem canonicalize_error_loses_level s db h :
  reachable s db -> levels s <> [] -> h ∉ hash <$> default [] (bss_of s !! 0%nat) ->
  let s' := (canonicalize h default_commit s).1 in
  (canonicalize h default_commit s).2 = Err InvalidBlock /\ bss_of s' = drop 1 (bss_of s) /\
  forall b, b ∈ default [] (bss_of s !! 0%nat) ->
    have_block s' (hash b) = true /\ b ∉ concat (bss_of s').
Proof.
  intros Hreach Hne Hh. destruct (reachable_good s db Hreach) as [Hok Hj].
  destruct (bss_of s) as [|bs bss] eqn:Hb; [by unfold bss_of in Hb; apply fmap_nil_inv in Hb|].
  pose proof (ok_levels _ _ _ Hok) as Hl. rewrite Hb in Hl. cbn [fmap list_fmap] in Hl.
  assert (block_position h bs = None) as Hpos.
  { pose proof (block_position_spec h bs) as Hs. destruct (block_position h bs) as [j|]; [|done].
    destruct Hs as (l1 & o & l2 & -> & _ & <-). exfalso. apply Hh. cbn.
    apply list_elem_of_fmap. exists o. split; [done|]. apply elem_of_app. right. left. }
  assert (canonicalize h default_commit s = (set_levels s (level_of <$> bss), Err InvalidBlock)) as ->.
  { unfold canonicalize, bindM, getM, putM, liftM, ok_or. rewrite Hl. cbn [blocks level_of]. by rewrite Hpos. }
  cbn zeta. cbn [fst snd]. rewrite (bss_of_levels (set_levels s (level_of <$> bss)) bss) by done.
  split; [done|]. split; [done|]. intros b Hin. cbn [lookup list_lookup default from_option] in Hin. split.
  - unfold have_block. apply bool_decide_eq_true_2. cbn.
    apply (tree_parent _ _ _ _ _ _ (ok_tree _ _ _ Hok)). rewrite Hb. cbn. apply elem_of_app. by left.
  - pose proof (tr_nodup _ _ _ (tree_tracked _ _ _ _ _ (ok_tree _ _ _ Hok))) as Hnd. cbn [app] in Hnd.
    rewrite Hb in Hnd. cbn [concat] in Hnd. apply NoDup_fmap_1, NoDup_app in Hnd as (_ & Hd & _). by apply Hd.
Qed.
End steps.
