(* ===== verification/OverlayExamples.v ===== *)
(** Concrete runs of the non-canonical overlay: the theorems applied to reachable states, and
    states that show what the pins of the overlay do not protect. *)

From stdpp Require Import base numbers list option gmap sets fin_maps relations.
From S2P Require Import Prelude NonCanonical Discard NonCanonicalInv NonCanonicalOps Canonicalize Journal OverlaySteps.

Local Open Scope Z_scope.
Local Open Scope rust_scope.

(** Hashes and keys are numbers; the block [h] has the number [h / 10], a key is its own value. *)
Definition content (k : Z) : Z := k.
Definition number_of (h : Z) : Z := h / 10.

Abbreviation NC := (@NonCanonicalOverlay Z Z Z _ _ _ _).
Abbreviation World := (NC * @Database Z Z Z _ _)%type.
Abbreviation reachable := (reachable content number_of).

Definition changes (ks : list Z) : ChangeSet Z Z := mkChangeSet ((fun k => (k, k)) <$> ks) [].

Definition do_insert (h parent : Z) (ks : list Z) (x : World) : World :=
  match insert h (number_of h) parent (changes ks) x.1 with
  | (s', Ok c) => (s', apply_state_commit x.2 c)
  | (s', _) => (s', x.2)
  end.

Definition do_canonicalize (h : Z) (x : World) : World :=
  match canonicalize h default_commit x.1 with
  | (s', Ok (n, c)) => (s', apply_state_commit x.2 c)
  | (s', _) => (s', x.2)
  end.

Definition do_pin (h : Z) (x : World) : World := (pin h x.1, x.2).
Definition do_unpin (h : Z) (x : World) : World := (default x.1 (unpin h x.1), x.2).

Lemma reach_insert h parent ks x :
  reachable x.1 x.2 -> insertable content number_of x.1 h (number_of h) parent (changes ks) ->
  is_ok (insert h (number_of h) parent (changes ks) x.1).2 = true ->
  reachable (do_insert h parent ks x).1 (do_insert h parent ks x).2.
Proof.
  intros Hr Hi Ho. destruct x as [s db]. cbn [fst snd] in *. eapply rtc_r; [exact Hr|]. unfold do_insert. cbn [fst snd].
  destruct (insert h (number_of h) parent (changes ks) s) as [s' [c|e|]] eqn:He; try done.
  exact (step_insert content number_of s db h _ parent _ s' c Hi He).
Qed.

Lemma reach_canonicalize h x :
  reachable x.1 x.2 -> canonicalizable x.1 h -> is_ok (canonicalize h default_commit x.1).2 = true ->
  reachable (do_canonicalize h x).1 (do_canonicalize h x).2.
Proof.
  intros Hr Hi Ho. destruct x as [s db]. cbn [fst snd] in *. eapply rtc_r; [exact Hr|]. unfold do_canonicalize. cbn [fst snd].
  destruct (canonicalize h default_commit s) as [s' [[n c]|e|]] eqn:He; try done.
  exact (step_canonicalize content number_of s db h s' n c Hi He).
Qed.

Lemma reach_pin h x :
  reachable x.1 x.2 -> default 0 (pinned x.1 !! h) + 1 < 2 ^ 32 ->
  reachable (do_pin h x).1 (do_pin h x).2.
Proof. intros Hr Hp. destruct x as [s db]. eapply rtc_r; [exact Hr|]. exact (step_pin content number_of s db h Hp). Qed.

Lemma reach_unpin h x : reachable x.1 x.2 -> reachable (do_unpin h x).1 (do_unpin h x).2.
Proof.
  intros Hr. destruct x as [s db]. unfold do_unpin. cbn [fst snd] in *. destruct (unpin h s) as [s'|] eqn:Hu; [|done].
  eapply rtc_r; [exact Hr|]. exact (step_unpin content number_of s db h s' Hu).
Qed.

Definition empty_world : World := (empty_overlay, empty_database).

Lemma reach_empty : reachable empty_world.1 empty_world.2.
Proof. apply rtc_refl. Qed.

(** The conditions on a concrete state are computed. *)
Ltac concrete :=
  match goal with
  | |- NonCanonicalInv.insertable _ _ _ _ _ _ _ =>
      split; [split; [reflexivity|reflexivity|vm_compute; split; [discriminate|reflexivity]|repeat constructor|
              vm_compute; reflexivity|vm_compute; reflexivity|vm_compute; reflexivity]|
              let Hl := fresh in let Hn := fresh in let Hp := fresh in
              intros [(Hl & Hn & Hp)|[Hn Hp]];
              [first [vm_compute in Hl; discriminate Hl|apply Hn; vm_compute; reflexivity]|
               first [apply Hn; vm_compute; reflexivity|apply Hp; vm_compute; reflexivity]]]
  | |- canonicalizable _ _ => split; [apply (list_elem_of_lookup_2 _ 0); vm_compute; reflexivity|vm_compute; reflexivity]
  | |- _ => vm_compute; reflexivity
  end.

(** Block 10 with the children 20 and 21 *)
Definition grown : World :=
  do_insert 21 10 [210] (do_insert 20 10 [200] (do_insert 10 0 [100] empty_world)).

Lemma grown_reachable : reachable grown.1 grown.2.
Proof.
  apply reach_insert; [|concrete..]. apply reach_insert; [|concrete..]. apply reach_insert; [|concrete..].
  apply reach_empty.
Qed.

Lemma grown_insertable : insertable content number_of grown.1 30 3 20 (changes [300]).
Proof. concrete. Qed.

Lemma grown_canonicalizable : canonicalizable grown.1 10.
Proof. concrete. Qed.

Lemma insert_block_correct_witness :
  exists i index, place grown.1 i 30 3 index 20 /\
    get (state_after grown.1 i 30 3 index 20 (changes [300])) 300 = Some 300.
Proof.
  destruct (insert_block_correct content number_of grown.1 grown.2 30 3 20 (changes [300])
    grown_reachable (proj1 grown_insertable) (proj2 grown_insertable)) as [(e & He & _)|(i & index & _ & Hp & _ & Hg & _)].
  - exfalso. vm_compute in He. discriminate.
  - exists i, index. split; [exact Hp|]. apply Hg. left.
Defined.

Lemma canonicalize_correct_witness :
  exists s' : NC, last_canonicalized s' = Some (10, 1) /\
    forall b, b ∈ concat (bss_of s') <-> b ∈ concat (drop 1 (bss_of grown.1)) /\ descends (parents grown.1) (hash b) 10.
Proof.
  destruct (canonicalize_correct content number_of grown.1 grown.2 10 grown_reachable grown_canonicalizable)
    as (o & s' & js & gone & _ & _ & _ & Hl & Hb & _).
  exists s'. split; [exact Hl|exact Hb].
Defined.

(** Block 10 is canonical, then 20; the sibling 21 is pinned. *)
Definition pinned_21 : World := do_pin 21 (do_canonicalize 10 grown).
Definition retained_21 : World := do_canonicalize 20 pinned_21.

Lemma pinned_21_reachable : reachable pinned_21.1 pinned_21.2.
Proof.
  apply reach_pin; [|concrete]. apply reach_canonicalize; [apply grown_reachable|concrete..].
Qed.

Lemma pinned_21_canonicalizable : canonicalizable pinned_21.1 20.
Proof. concrete. Qed.

Lemma retained_21_reachable : reachable retained_21.1 retained_21.2.
Proof. apply reach_canonicalize; [apply pinned_21_reachable|concrete..]. Qed.

(** The block 21 as the overlay has it *)
Definition block_21 : @BlockOverlay Z Z := overlay_of 21 2 1 (changes [210]).

Lemma canonicalize_keeps_pinned_witness : get retained_21.1 210 = Some 210.
Proof.
  destruct (canonicalize 20 default_commit pinned_21.1) as [s' [r|e|]] eqn:He;
    [|exfalso; vm_compute in He; discriminate..].
  assert (retained_21.1 = s') as -> by (unfold retained_21, do_canonicalize; rewrite He; by destruct r).
  eapply (canonicalize_keeps_pinned content number_of pinned_21.1 pinned_21.2 20 s' r block_21 block_21 210
    pinned_21_reachable pinned_21_canonicalizable He).
  - apply (list_elem_of_lookup_2 _ 1). vm_compute. reflexivity.
  - assert (s' = (canonicalize 20 default_commit pinned_21.1).1) as -> by (by rewrite He).
    assert (concat (bss_of (canonicalize 20 default_commit pinned_21.1).1) = []) as -> by (vm_compute; reflexivity).
    apply not_elem_of_nil.
  - apply (list_elem_of_lookup_2 _ 1). vm_compute. reflexivity.
  - eexists. vm_compute. reflexivity.
  - apply rtc_refl.
  - left.
Defined.

Lemma restart_correct_witness :
  exists s' : NC, new (E := unit) (get_meta grown.2) 2 = Ok s' /\ last_canonicalized s' = Some (0, 0) /\
    forall i, default [] (bss_of s' !! i) ≡ₚ default [] (bss_of grown.1 !! i).
Proof.
  destruct (restart_correct content number_of grown.1 grown.2 2 grown_reachable)
    as (s' & Hn & Hl & Hb & _); [vm_compute; discriminate|vm_compute; lia|].
  exists s'. split; [exact Hn|]. split; [rewrite Hl; vm_compute; reflexivity|exact Hb].
Defined.

Lemma overlay_progress_witness : is_ok (canonicalize 10 default_commit grown.1).2 = true /\ is_Some (sync grown.1).
Proof.
  destruct (overlay_progress content number_of grown.1 grown.2 grown_reachable) as (_ & Hc & _ & Hs).
  split; [apply Hc, grown_canonicalizable|exact Hs].
Defined.

Lemma canonicalize_error_loses_level_witness :
  (canonicalize 20 default_commit grown.1).2 = Err InvalidBlock /\
  have_block (canonicalize 20 default_commit grown.1).1 10 = true.
Proof.
  destruct (canonicalize_error_loses_level content number_of grown.1 grown.2 20 grown_reachable) as (He & _ & Hb).
  - vm_compute. discriminate.
  - assert (hash <$> default [] (bss_of grown.1 !! 0%nat) = [10]) as -> by (vm_compute; reflexivity).
    by intros ?%list_elem_of_singleton.
  - split; [exact He|]. destruct (Hb (overlay_of 10 1 0 (changes [100]))) as [H _]; [|exact H].
    apply (list_elem_of_lookup_2 _ 0). vm_compute. reflexivity.
Defined.

(** ** What the pins do not protect *)

(** Block 10 is canonical and waits for [sync]; its child 21 was discarded, and is unpinned. *)
Lemma unpin_child_drops_canonical_witness :
  get retained_21.1 100 = Some 100 /\
  exists s', unpin 21 retained_21.1 = Some s' /\ 10 ∈ pinned_canonicalized s' /\ get s' 100 = None.
Proof.
  destruct (unpin_child_drops_canonical content number_of retained_21.1 retained_21.2 21 10 [210] [100] 1 1 100 100
    retained_21_reachable) as (Hg & s' & Hu & Hc & _ & Hn); try (vm_compute; reflexivity).
  - apply (list_elem_of_lookup_2 _ 0). vm_compute. reflexivity.
  - left.
  - split; [exact Hg|]. exists s'. split; [exact Hu|]. split; [exact Hc|exact Hn].
Defined.

(** 31 is a child of 21, pinned, and discarded with 21 when 20 becomes canonical. *)
Definition retained_31 : World :=
  do_canonicalize 20 (do_canonicalize 10 (do_pin 31 (do_insert 31 21 [310] grown))).

Lemma retained_31_reachable : reachable retained_31.1 retained_31.2.
Proof.
  apply reach_canonicalize; [|concrete..]. apply reach_canonicalize; [|concrete..].
  apply reach_pin; [|concrete]. apply reach_insert; [|concrete..]. apply grown_reachable.
Qed.

(** A block whose parent was discarded is accepted as long as the parent is retained for a
    pin, although no level has the parent. *)
Theorem insert_below_discarded :
  exists s db, reachable s db /\ (31 ∉ hash <$> concat (bss_of s)) /\ 4 <> front_block_number s /\
    is_ok (insert 41 4 31 (changes [410]) s).2 = true.
Proof.
  exists retained_31.1, retained_31.2. split; [apply retained_31_reachable|]. split.
  - assert (concat (bss_of retained_31.1) = []) as -> by (vm_compute; reflexivity). apply not_elem_of_nil.
  - split; [vm_compute; discriminate|vm_compute; reflexivity].
Qed.

(** While block 0 is in the overlay and nothing is canonical, the number and the parent of a
    block are not checked, and a number above the levels is a panic. *)
Theorem insert_after_genesis_panics :
  exists s db, reachable s db /\ last_canonicalized s = None /\
    (insert 50 5 40 (changes [500]) s).2 = Panic /\ is_ok (insert 10 1 9 (changes [100]) s).2 = true.
Proof.
  exists (do_insert 0 (-10) [1] empty_world).1, (do_insert 0 (-10) [1] empty_world).2.
  split; [apply reach_insert; [apply reach_empty|concrete..]|]. split_all; vm_compute; reflexivity.
Qed.

(** Block 21 below 11 is pinned, and discarded together with 11 when 10 becomes canonical. *)
Definition retained_11 : World :=
  do_canonicalize 10 (do_pin 21 (do_insert 21 11 [210] (do_insert 11 0 [110] (do_insert 10 0 [100] empty_world)))).

(** Pinning and unpinning a block that is kept for a pinned descendant drops its values: block 11
    is kept for 21, and after [pin] and [unpin] of 11 its value is gone while 21 is pinned. *)
Theorem unpin_drops_ancestor :
  reachable retained_11.1 retained_11.2 /\ get retained_11.1 110 = Some 110 /\
  have_block retained_11.1 11 = true /\
  let x := do_unpin 11 (do_pin 11 retained_11) in
  reachable x.1 x.2 /\ pinned x.1 !! 21 = Some 1 /\ get x.1 110 = None.
Proof.
  assert (reachable retained_11.1 retained_11.2) as Hr.
  { apply reach_canonicalize; [|concrete..]. apply reach_pin; [|concrete]. apply reach_insert; [|concrete..].
    apply reach_insert; [|concrete..]. apply reach_insert; [|concrete..]. apply reach_empty. }
  split; [exact Hr|]. split; [concrete|]. split; [concrete|]. cbn zeta. split; [|split; concrete].
  apply reach_unpin, reach_pin; [exact Hr|concrete].
Qed.
