(* ===== verification/Pruning.v ===== *)
(** The pruning window (client/state-db/src/pruning.rs).

    [RefWindow] holds, for every canonical block in the window, the keys to delete once the block
    is pruned.  The queue in memory takes a key off its death row when the key is inserted again;
    the queue on the database reads the rows from the journal, a batch at a time.

    The keys of the state after each block are [states_from]; [mem_ok] says that the death row of
    a block has the keys that were in the state before it and are in no later one.  Adding and
    popping a block keep it, it determines the rows, and reading the journal establishes it. *)

From stdpp Require Import base numbers list option gmap sets fin_maps.
From S2P Require Import Prelude NonCanonical.

Local Open Scope Z_scope.
Local Open Scope rust_scope.

Definition DEFAULT_MAX_BLOCK_CONSTRAINT : Z := 256.

Inductive HaveBlock := No | Maybe | Yes.

Definition have_of_bool (b : bool) : HaveBlock := if b then Yes else No.

Section pruning.
Context {BlockHash Key DBValue : Type} `{EqDecision BlockHash} `{Countable Key}.
Abbreviation MetaValue := (@MetaValue BlockHash Key DBValue).
Abbreviation CommitSet := (@CommitSet BlockHash Key DBValue).

(** * Definitions *)

Record DeathRow := mkRow { row_hash : BlockHash; row_deleted : gset Key }.

(** The pruning journal's records *)
Record PruningRecord := mkRecord { pr_hash : BlockHash; pr_inserted : list Key; pr_deleted : list Key }.

Inductive DeathRowQueue :=
| Mem (death_rows : list DeathRow) (death_index : gmap Key Z)
| DbBacked (cache : list DeathRow) (cache_capacity : Z) (last : option Z).

Record RefWindow := mkWindow { queue : DeathRowQueue; window_base : Z }.

Definition row_of (r : PruningRecord) : DeathRow := mkRow (pr_hash r) (list_to_set (pr_deleted r)).

(** A key that is inserted again leaves its death row. *)
Definition reinsert (base : Z) (q : list DeathRow * gmap Key Z) (k : Key)
    : option (list DeathRow * gmap Key Z) :=
  match q.2 !! k with
  | None => Some q
  | Some block =>
      let i := Z.to_nat (wsub 64 block base) in
      row ← q.1 !! i;
      Some (<[i := mkRow (row_hash row) (row_deleted row ∖ {[k]})]> q.1, delete k q.2)
  end.

Fixpoint reinsert_all (base : Z) (ks : list Key) (q : list DeathRow * gmap Key Z)
    : option (list DeathRow * gmap Key Z) :=
  match ks with
  | [] => Some q
  | k :: ks => q ← reinsert base q k; reinsert_all base ks q
  end.

(** Adding a block at the back *)
Definition import (base num : Z) (r : PruningRecord) (q : DeathRowQueue) : option DeathRowQueue :=
  match q with
  | DbBacked cache cap last =>
      let cache :=
        if (num =? wadd 64 base (Z.of_nat (length cache))) && (Z.of_nat (length cache) <? cap)
        then cache ++ [row_of r] else cache in
      Some (DbBacked cache cap (Some num))
  | Mem rows index =>
      '(rows, index) ← reinsert_all base (pr_inserted r) (rows, index);
      let imported := wadd 64 base (Z.of_nat (length rows)) in
      Some (Mem (rows ++ [row_of r]) (foldl (fun m k => <[k := imported]> m) index (pr_deleted r)))
  end.

Section db.
Context {E : Type} (get_meta : MetaKey -> res E (option MetaValue)).

Definition load_death_row_from_db (block : Z) : res (Error E) (option DeathRow) :=
  let? r := read_meta get_meta (PruningJournalKey block) in
  match r with
  | Some (PruningRecordOf h ins del) => Ok (Some (row_of (mkRecord h ins del)))
  | Some _ => Err (StateDb Decoding)
  | None => Ok None
  end.

(** Rows are pushed to the cache one by one. *)
Fixpoint load_rows (n : nat) (block : Z) : M (list DeathRow) (Error E) unit :=
  match n with
  | O => retM tt
  | S n =>
      let* r := liftM (load_death_row_from_db block) in
      match r with
      | Some row => modifyM (fun cache => cache ++ [row]);;; load_rows n (wadd 64 block 1)
      | None => retM tt
      end
  end.

Definition load_batch_from_db (base cap : Z) : M (list DeathRow) (Error E) unit :=
  let* cache := getM in
  load_rows (Z.to_nat cap) (wadd 64 base (Z.of_nat (length cache))).

(** Only an empty cache is filled. *)
Definition fill_cache (base cap : Z) : M (list DeathRow) (Error E) unit :=
  let* cache := getM in
  if (length cache =? 0)%nat then load_batch_from_db base cap else retM tt.

(** The loop of [new_mem] over the journal *)
Fixpoint read_journal (fuel : nat) (base block : Z) (q : DeathRowQueue) : res (Error E) DeathRowQueue :=
  let? r := read_meta get_meta (PruningJournalKey block) in
  match r with
  | None => Ok q
  | Some (PruningRecordOf h ins del) =>
      match import base block (mkRecord h ins del) q, fuel with
      | Some q, S fuel => read_journal fuel base (wadd 64 block 1) q
      | _, _ => Panic
      end
  | Some _ => Err (StateDb Decoding)
  end.

Definition new_mem (fuel : nat) (base : Z) : res (Error E) DeathRowQueue :=
  read_journal fuel base base (Mem [] ∅).

Definition new_db_backed (base : Z) (last : option Z) (window_size : Z) : res (Error E) DeathRowQueue :=
  let cap := Z.max 1 (Z.min window_size DEFAULT_MAX_BLOCK_CONSTRAINT) in
  match load_batch_from_db base cap [] with
  | (cache, Ok _) => Ok (DbBacked cache cap last)
  | (_, Err e) => Err e
  | (_, Panic) => Panic
  end.

Definition pop_front (base : Z) : M DeathRowQueue (Error E) (option DeathRow) := fun q =>
  match q with
  | DbBacked cache cap last =>
      match fill_cache base cap cache with
      | (row :: cache, Ok _) => (DbBacked cache cap last, Ok (Some row))
      | ([], Ok _) => (DbBacked [] cap last, Ok None)
      | (cache, Err e) => (DbBacked cache cap last, Err e)
      | (cache, Panic) => (DbBacked cache cap last, Panic)
      end
  | Mem (row :: rows) index => (Mem rows (foldr delete index (elements (row_deleted row))), Ok (Some row))
  | Mem [] index => (Mem [] index, Ok None)
  end.

(** The block at an index of the queue; in memory an index out of range is a panic *)
Definition queue_have_block (h : BlockHash) (i : nat) (q : DeathRowQueue) : res (Error E) HaveBlock :=
  match q with
  | DbBacked cache _ _ =>
      match cache !! i with
      | Some row => Ok (have_of_bool (bool_decide (row_hash row = h)))
      | None => Ok Maybe
      end
  | Mem rows _ =>
      let? row := expect (rows !! i) in Ok (have_of_bool (bool_decide (row_hash row = h)))
  end.

Definition queue_len (base : Z) (q : DeathRowQueue) : Z :=
  match q with
  | DbBacked _ _ last => match last with Some l => wsub 64 (wadd 64 l 1) base | None => 0 end
  | Mem rows _ => Z.of_nat (length rows)
  end.

Definition new_window (fuel : nat) (window_size : Z) (count_insertions : bool) : res (Error E) RefWindow :=
  let? r := read_meta get_meta LastPrunedKey in
  let? base := match r with
               | Some (LastPrunedOf n) => Ok (wadd 64 n 1)
               | Some _ => Err (StateDb Decoding)
               | None => Ok 0
               end in
  let? r := read_meta get_meta LastCanonicalKey in
  let? last := match r with
               | Some (LastCanonicalOf _ n) => Ok (Some n)
               | Some _ => Err (StateDb Decoding)
               | None => Ok None
               end in
  let? q := (if count_insertions then new_mem fuel base else new_db_backed base last window_size) in
  Ok (mkWindow q base).

Definition window_size (w : RefWindow) : Z := queue_len (window_base w) (queue w).

Definition next_hash : M RefWindow (Error E) (option BlockHash) := fun w =>
  match queue w with
  | DbBacked cache cap last =>
      match fill_cache (window_base w) cap cache with
      | (cache, Ok _) => (mkWindow (DbBacked cache cap last) (window_base w), Ok (row_hash <$> head cache))
      | (cache, Err e) => (mkWindow (DbBacked cache cap last) (window_base w), Err e)
      | (cache, Panic) => (mkWindow (DbBacked cache cap last) (window_base w), Panic)
      end
  | Mem rows _ => (w, Ok (row_hash <$> head rows))
  end.

Definition window_is_empty (w : RefWindow) : bool := window_size w =? 0.

Definition window_have_block (w : RefWindow) (h : BlockHash) (number : Z) : res (Error E) HaveBlock :=
  if window_is_empty w || (number <? window_base w) || (wadd 64 (window_base w) (window_size w) <=? number)
  then Ok No
  else queue_have_block h (Z.to_nat (wsub 64 number (window_base w))) (queue w).

(** [prune_one] and [note_canonical] return the commit they extend. *)
Definition prune_one (c : CommitSet) : M RefWindow (Error E) CommitSet := fun w =>
  let '(q, r) := pop_front (window_base w) (queue w) in
  match r with
  | Ok (Some row) =>
      let c := put_data c [] (elements (row_deleted row)) in
      let c := put_meta c LastPrunedKey (LastPrunedOf (window_base w)) in
      let c := delete_meta c [PruningJournalKey (window_base w)] in
      (mkWindow q (wadd 64 (window_base w) 1), Ok c)
  | Ok None => (mkWindow q (window_base w), Err (StateDb BlockUnavailable))
  | Err e => (mkWindow q (window_base w), Err e)
  | Panic => (mkWindow q (window_base w), Panic)
  end.

(** The window of a node that starts with a later block *)
Definition starts_late (w : RefWindow) (number : Z) : bool :=
  (window_base w =? 0) && window_is_empty w && (0 <? number).

Definition note_canonical (h : BlockHash) (number : Z) (c : CommitSet) : M RefWindow (Error E) CommitSet :=
  let* w := getM in
  (if starts_late w number then putM (mkWindow (queue w) number)
   else if negb (wadd 64 (window_base w) (window_size w) =? number) then errM (StateDb InvalidBlockNumber)
   else retM tt);;;
  let* w := getM in
  let inserted := match queue w with Mem _ _ => (cs_inserted (data c)).*1 | DbBacked _ _ _ => [] end in
  let deleted := cs_deleted (data c) in
  let c := mkCommit (mkChangeSet (cs_inserted (data c)) []) (meta c) in
  let c := put_meta c (PruningJournalKey number) (PruningRecordOf h inserted deleted) in
  let* q := liftM (expect (import (window_base w) number (mkRecord h inserted deleted) (queue w))) in
  putM (mkWindow q (window_base w));;;
  retM c.

End db.

(** * The states of the blocks in the window *)

(** The keys of the state after a block *)
Definition next_state (S : gset Key) (r : PruningRecord) : gset Key :=
  (S ∖ list_to_set (pr_deleted r)) ∪ list_to_set (pr_inserted r).

Definition final (S : gset Key) (recs : list PruningRecord) : gset Key := foldl next_state S recs.

(** The state before the first block, and the one after each *)
Fixpoint states_from (S : gset Key) (recs : list PruningRecord) : list (gset Key) :=
  S :: match recs with [] => [] | r :: recs => states_from (next_state S r) recs end.

(** A block deletes keys that are there, and none that it inserts. *)
Definition valid_record (S : gset Key) (r : PruningRecord) : Prop :=
  list_to_set (pr_deleted r) ⊆ S /\ list_to_set (pr_inserted r) ## (list_to_set (pr_deleted r) : gset Key).

Fixpoint valid_from (S : gset Key) (recs : list PruningRecord) : Prop :=
  match recs with [] => True | r :: recs => valid_record S r /\ valid_from (next_state S r) recs end.

Lemma length_states recs : forall S, length (states_from S recs) = Datatypes.S (length recs).
Proof. induction recs as [|r recs IH]; intros S; [done|]. cbn. by rewrite IH. Qed.

Lemma states_snoc recs r : forall S,
  states_from S (recs ++ [r]) = states_from S recs ++ [next_state (final S recs) r].
Proof. induction recs as [|r' recs IH]; intros S; [done|]. cbn. by rewrite IH. Qed.

Lemma valid_snoc recs r : forall S,
  valid_from S (recs ++ [r]) <-> valid_from S recs /\ valid_record (final S recs) r.
Proof.
  induction recs as [|r' recs IH]; intros S; cbn; [tauto|]. rewrite IH. unfold final. cbn. tauto.
Qed.

Lemma valid_prefix recs recs' : forall S, valid_from S (recs ++ recs') -> valid_from S recs.
Proof. induction recs as [|r recs IH]; intros S Hv; cbn in *; [done|]. destruct Hv as [? Hv]. split; eauto. Qed.

Lemma states_last recs : forall S, last (states_from S recs) = Some (final S recs).
Proof.
  intros S. induction recs as [|r recs _] using rev_ind; [done|].
  rewrite states_snoc, last_snoc. unfold final. by rewrite foldl_app.
Qed.

(** ** Death rows *)

Implicit Types (rows : list DeathRow) (index : gmap Key Z) (recs : list PruningRecord).

Definition index_ok (base : Z) (rows : list DeathRow) (index : gmap Key Z) : Prop :=
  forall k b, index !! k = Some b <->
    exists i row, rows !! i = Some row /\ k ∈ row_deleted row /\ b = base + Z.of_nat i.

Definition strike (ks : gset Key) (row : DeathRow) : DeathRow := mkRow (row_hash row) (row_deleted row ∖ ks).

Lemma strike_none ks row : row_deleted row ## ks -> strike ks row = row.
Proof. intros Hd. destruct row as [h d]. unfold strike. cbn in *. f_equal. set_solver. Qed.

Lemma index_row base rows index k i row :
  index_ok base rows index -> rows !! i = Some row -> k ∈ row_deleted row -> index !! k = Some (base + Z.of_nat i).
Proof. intros Hok Hi Hk. apply Hok. eauto. Qed.

Lemma strike_all_none ks rows :
  (forall i row, rows !! i = Some row -> row_deleted row ## ks) -> (strike ks <$> rows) = rows.
Proof.
  intros Hn. apply list_eq. intros i. rewrite list_lookup_fmap.
  destruct (rows !! i) as [row|] eqn:Hi; [|done]. cbn. by rewrite strike_none by eauto.
Qed.

Lemma reinsert_ok base rows index k :
  index_ok base rows index -> 0 <= base -> base + Z.of_nat (length rows) < 2 ^ 64 ->
  exists index', reinsert base (rows, index) k = Some (strike {[k]} <$> rows, index') /\
    index_ok base (strike {[k]} <$> rows) index'.
Proof.
  intros Hok Hb Hl. unfold reinsert. cbn [fst snd]. destruct (index !! k) as [b|] eqn:Hk.
  - apply Hok in Hk as (i & row & Hi & Hrow & ->). pose proof (lookup_lt_Some _ _ _ Hi) as Hlt.
    rewrite wsub_small by (unfold in_range; lia).
    replace (Z.to_nat (base + Z.of_nat i - base)) with i by lia. rewrite Hi. cbn [mbind option_bind].
    assert (<[i := mkRow (row_hash row) (row_deleted row ∖ {[k]})]> rows = strike {[k]} <$> rows) as ->.
    { apply list_eq. intros j. rewrite list_lookup_fmap. destruct (decide (i = j)) as [<-|Hne].
      - rewrite list_lookup_insert_eq, Hi by done. done.
      - rewrite list_lookup_insert_ne by done. destruct (rows !! j) as [row'|] eqn:Hj; [|done]. cbn.
        rewrite strike_none; [done|]. intros x Hx ->%elem_of_singleton.
        pose proof (index_row _ _ _ _ _ _ Hok Hi Hrow). pose proof (index_row _ _ _ _ _ _ Hok Hj Hx).
        simplify_eq. lia. }
    eexists. split; [done|]. intros k' b. rewrite lookup_delete_Some. split.
    + intros [Hne (j & row' & Hj & Hk' & ->)%Hok]. exists j, (strike {[k]} row').
      rewrite list_lookup_fmap, Hj. split; [done|]. split; [cbn; set_solver|done].
    + intros (j & row' & Hj & Hk' & ->). rewrite list_lookup_fmap in Hj.
      destruct (rows !! j) as [row2|] eqn:Hj2; [|done]. cbn in Hj. simplify_eq. cbn in Hk'.
      split; [set_solver|]. eapply index_row; [done|done|set_solver].
  - exists index. rewrite strike_all_none; [done|].
    intros i row Hi x Hx ->%elem_of_singleton. by rewrite (index_row _ _ _ _ _ _ Hok Hi Hx) in Hk.
Qed.

Lemma strike_strike ks ks' rows : (strike ks' <$> (strike ks <$> rows)) = (strike (ks ∪ ks') <$> rows).
Proof.
  rewrite <-list_fmap_compose. apply list_fmap_ext. intros i row _. unfold strike. cbn. f_equal. set_solver.
Qed.

Lemma reinsert_all_ok base ks : forall rows index,
  index_ok base rows index -> 0 <= base -> base + Z.of_nat (length rows) < 2 ^ 64 ->
  exists index', reinsert_all base ks (rows, index) = Some (strike (list_to_set ks) <$> rows, index') /\
    index_ok base (strike (list_to_set ks) <$> rows) index'.
Proof.
  induction ks as [|k ks IH]; intros rows index Hok Hb Hl; cbn [reinsert_all list_to_set].
  - exists index. rewrite strike_all_none; [done|]. intros i row _. set_solver.
  - destruct (reinsert_ok base rows index k Hok Hb Hl) as (index1 & -> & Hok1). cbn [mbind option_bind].
    destruct (IH (strike {[k]} <$> rows) index1) as (index2 & -> & Hok2); [done..|by rewrite length_fmap|].
    exists index2. by rewrite strike_strike in *.
Qed.

(** The keys on the death row of a block were in the state before it, and are in no state since. *)
Definition rows_ok rows (sts : list (gset Key)) : Prop :=
  length sts = S (length rows) /\
  forall i row, rows !! i = Some row -> exists st, sts !! i = Some st /\
    row_deleted row = st ∖ ⋃ drop (S i) sts.

Lemma union_list_snoc (l : list (gset Key)) X : ⋃ (l ++ [X]) = ⋃ l ∪ X.
Proof. rewrite union_list_app_L. cbn. set_solver. Qed.

Lemma elem_of_union_last (sts : list (gset Key)) i st k :
  last sts = Some st -> (i < length sts)%nat -> k ∈ st -> k ∈ ⋃ drop i sts.
Proof.
  intros Hl Hi Hk. apply elem_of_union_list. exists st. split; [|done].
  apply last_Some in Hl as [l' ->]. rewrite length_app in Hi. cbn in Hi.
  rewrite drop_app_le by lia. apply elem_of_app. right. left.
Qed.

Lemma rows_ok_snoc rows sts st r :
  rows_ok rows sts -> last sts = Some st -> valid_record st r ->
  rows_ok ((strike (list_to_set (pr_inserted r)) <$> rows) ++ [row_of r]) (sts ++ [next_state st r]).
Proof.
  intros [Hlen Hrows] Hlast [Hdel Hdis]. split; [rewrite !length_app, length_fmap; cbn; lia|].
  intros i row. rewrite lookup_snoc_Some, length_fmap. intros [[_ Hi]|[-> <-]].
  - rewrite list_lookup_fmap in Hi. destruct (rows !! i) as [row0|] eqn:Hi0; [|done].
    cbn in Hi. simplify_eq. destruct (Hrows i row0 Hi0) as (st0 & Hst0 & Hr).
    pose proof (lookup_lt_Some _ _ _ Hi0) as Hlt. exists st0. split; [by apply lookup_app_l_Some|].
    rewrite drop_app_le by lia. rewrite union_list_snoc. cbn [row_deleted strike]. rewrite Hr.
    assert (forall k, k ∈ st -> k ∈ ⋃ drop (S i) sts) as Hsub
      by (intros k; apply elem_of_union_last; [done|lia]).
    unfold next_state. set_solver.
  - exists st. split.
    + rewrite last_lookup, Hlen in Hlast. cbn in Hlast. by apply lookup_app_l_Some.
    + rewrite drop_app_ge by lia. rewrite Hlen, Nat.sub_diag. rewrite drop_0.
      change (⋃ [next_state st r]) with (next_state st r ∪ ∅). unfold next_state, row_of. cbn [row_deleted].
      apply set_eq. intros k. rewrite elem_of_difference, !elem_of_union, elem_of_difference, elem_of_empty.
      specialize (Hdel k). specialize (Hdis k). destruct (decide (k ∈@{gset Key} list_to_set (pr_deleted r))); tauto.
Qed.

Lemma foldl_insert_lookup (index : gmap Key Z) (b : Z) ks k :
  foldl (fun m k => <[k := b]> m) index ks !! k = if decide (k ∈ ks) then Some b else index !! k.
Proof.
  revert index. induction ks as [|k' ks IH]; intros index; [done|]. cbn [foldl]. rewrite IH.
  destruct (decide (k ∈ ks)) as [Hin|Hout]; [by rewrite decide_True by (by right)|].
  destruct (decide (k = k')) as [->|Hne].
  - rewrite lookup_insert_eq, decide_True by left. done.
  - rewrite lookup_insert_ne, decide_False by (done || set_solver). done.
Qed.

(** The window holds the blocks of [recs], above the state [S]. *)
Record mem_ok (base : Z) (S : gset Key) recs rows index : Prop := mkMem {
  mem_rows : rows_ok rows (states_from S recs);
  mem_hashes : row_hash <$> rows = pr_hash <$> recs;
  mem_index : index_ok base rows index;
  mem_valid : valid_from S recs;
  mem_range : 0 <= base /\ base + Z.of_nat (length recs) < 2 ^ 64
}.

Lemma mem_length base S recs rows index : mem_ok base S recs rows index -> length rows = length recs.
Proof. intros Hok. rewrite <-(length_fmap row_hash), (mem_hashes _ _ _ _ _ Hok). apply length_fmap. Qed.

Lemma mem_empty base S : 0 <= base < 2 ^ 64 -> mem_ok base S [] [] ∅.
Proof.
  intros Hb. split; [by split| |..|done|cbn; lia]; [done|].
  intros k b. rewrite lookup_empty. split; [done|]. by intros (i & row & Hi & _).
Qed.

Lemma mem_rebase base base' S index :
  mem_ok base S [] [] index -> 0 <= base' < 2 ^ 64 -> mem_ok base' S [] [] index.
Proof.
  intros [Hr Hh Hi Hv _] Hb. split; try done; [|cbn; lia].
  intros k b. rewrite (Hi k b). split; by intros (i & row & Hrow & _).
Qed.

Lemma row_not_final recs rows S ks i row k :
  rows_ok rows (states_from S recs) -> rows !! i = Some row -> k ∈ final S recs ->
  k ∉ row_deleted (strike ks row).
Proof.
  intros [Hlen Hrows] Hi Hk. destruct (Hrows i row Hi) as (st & _ & Hd). apply lookup_lt_Some in Hi.
  pose proof (elem_of_union_last _ (Datatypes.S i) _ k (states_last recs S) ltac:(lia) Hk).
  cbn. rewrite Hd. set_solver.
Qed.

Lemma import_ok base S recs rows index num r :
  mem_ok base S recs rows index -> valid_record (final S recs) r ->
  base + Z.of_nat (length recs) + 1 < 2 ^ 64 ->
  exists rows' index', import base num r (Mem rows index) = Some (Mem rows' index') /\
    mem_ok base S (recs ++ [r]) rows' index'.
Proof.
  intros Hok Hr Hlen. pose proof (mem_length _ _ _ _ _ Hok) as Hl.
  destruct Hok as [Hrows Hh Hi Hv [Hb Hb']].
  destruct (reinsert_all_ok base (pr_inserted r) rows index Hi Hb) as (index1 & Hre & Hi1); [lia|].
  cbn [import]. rewrite Hre. cbn [mbind option_bind]. rewrite length_fmap, Hl.
  rewrite wadd_small by (unfold in_range; lia). eexists _, _. split; [done|].
  pose proof (rows_ok_snoc rows _ _ r Hrows (states_last recs S) Hr) as Hrows'.
  split.
  - by rewrite states_snoc.
  - rewrite !fmap_app, <-Hh, <-list_fmap_compose. done.
  - intros k b. rewrite foldl_insert_lookup. setoid_rewrite lookup_snoc_Some. rewrite length_fmap, Hl.
    assert (k ∈ pr_deleted r -> forall i row, (strike (list_to_set (pr_inserted r)) <$> rows) !! i = Some row ->
      k ∉ row_deleted row) as Hnew.
    { intros Hk i row Hrow. rewrite list_lookup_fmap in Hrow. destruct (rows !! i) as [row0|] eqn:Hi0; [|done].
      cbn in Hrow. simplify_eq. apply (row_not_final recs rows S _ i row0); [done..|].
      destruct Hr as [Hr _]. apply Hr. by apply elem_of_list_to_set. }
    case_decide as Hk.
    + split.
      * intros [= <-]. exists (length recs), (row_of r). split; [by right|]. cbn.
        rewrite elem_of_list_to_set. done.
      * intros (i & row & [[_ Hrow]|[-> <-]] & Hin & ->); [|done]. by apply Hnew in Hrow.
    + rewrite (Hi1 k b). split.
      * intros (i & row & Hrow & Hin & ->). exists i, row. split; [left|done]. split; [|done].
        apply lookup_lt_Some in Hrow. by rewrite length_fmap, Hl in Hrow.
      * intros (i & row & [[_ Hrow]|[-> <-]] & Hin & ->); [eauto|]. cbn in Hin.
        by apply elem_of_list_to_set in Hin.
  - apply valid_snoc. done.
  - rewrite length_app. cbn. lia.
Qed.

Lemma foldr_delete_lookup (index : gmap Key Z) (ks : gset Key) k :
  foldr delete index (elements ks) !! k = if decide (k ∈ ks) then None else index !! k.
Proof.
  case_decide as Hk.
  - apply lookup_foldr_delete. by apply elem_of_elements.
  - apply lookup_foldr_delete_not_elem_of. by rewrite elem_of_elements.
Qed.

(** The first death row is what only the oldest state has. *)
Lemma first_row base S r recs row rows index :
  mem_ok base S (r :: recs) (row :: rows) index ->
  row_hash row = pr_hash r /\ row_deleted row = S ∖ ⋃ states_from (next_state S r) recs.
Proof.
  intros [[_ Hr] Hh _ _ _]. cbn [states_from] in Hr.
  destruct (Hr 0%nat row eq_refl) as (st & [= <-] & Hd). injection Hh as Hh _. done.
Qed.

Lemma pop_ok base S r recs row rows index :
  mem_ok base S (r :: recs) (row :: rows) index ->
  mem_ok (base + 1) (next_state S r) recs rows (foldr delete index (elements (row_deleted row))).
Proof.
  intros [[Hlen Hr] Hh Hi [_ Hv] [Hb Hb']]. cbn [states_from length] in *. split; [|..|done|lia].
  - split; [lia|]. intros i row' Hi'. apply (Hr (Datatypes.S i) row' Hi').
  - by injection Hh.
  - intros k b. rewrite foldr_delete_lookup. case_decide as Hk.
    + split; [done|]. intros (i & row' & Hi' & Hk' & ->).
      pose proof (index_row _ _ _ k 0 row Hi eq_refl Hk) as H0.
      pose proof (index_row _ _ _ k (Datatypes.S i) row' Hi Hi' Hk') as H1. rewrite H0 in H1. simplify_eq. lia.
    + rewrite (Hi k b). split.
      * intros ([|i] & row' & Hi' & Hk' & ->); [by injection Hi' as ->|]. exists i, row'.
        split; [done|]. split; [done|]. lia.
      * intros (i & row' & Hi' & Hk' & ->). exists (Datatypes.S i), row'. split; [done|]. split; [done|]. lia.
Qed.

Lemma mem_unique base S recs rows index rows' index' :
  mem_ok base S recs rows index -> mem_ok base S recs rows' index' -> rows = rows' /\ index = index'.
Proof.
  intros Hok Hok'. pose proof (mem_length _ _ _ _ _ Hok) as Hl. pose proof (mem_length _ _ _ _ _ Hok') as Hl'.
  destruct Hok as [[_ Hr] Hh Hi _ _], Hok' as [[_ Hr'] Hh' Hi' _ _].
  assert (rows = rows') as <-.
  { apply list_eq. intros i. destruct (rows !! i) as [[h d]|] eqn:Hrow.
    - destruct (lookup_lt_is_Some_2 rows' i) as [[h' d'] Hrow'].
      { apply lookup_lt_Some in Hrow. lia. }
      destruct (Hr _ _ Hrow) as (st & Hst & Hd). destruct (Hr' _ _ Hrow') as (st' & Hst' & Hd'). cbn in *.
      assert ((row_hash <$> rows) !! i = (row_hash <$> rows') !! i) as Hhh by congruence.
      rewrite !list_lookup_fmap, Hrow, Hrow' in Hhh. cbn in Hhh. rewrite Hrow'. simplify_eq. done.
    - symmetry. apply lookup_ge_None in Hrow. apply lookup_ge_None. lia. }
  split; [done|]. apply map_eq. intros k. apply option_eq. intros b. by rewrite (Hi k b), (Hi' k b).
Qed.

(** ** The journal *)

Definition record_value (r : PruningRecord) : MetaValue := PruningRecordOf (pr_hash r) (pr_inserted r) (pr_deleted r).

(** The pruning journal has the records [recs] from [base] on, and no other behind. *)
Definition journal_has {E} (get_meta : MetaKey -> res E (option MetaValue)) (base : Z) recs : Prop :=
  (forall i r, recs !! i = Some r -> get_meta (PruningJournalKey (base + Z.of_nat i)) = Ok (Some (record_value r))) /\
  get_meta (PruningJournalKey (base + Z.of_nat (length recs))) = Ok None.

Lemma read_journal_ok {E} (get_meta : MetaKey -> res E (option MetaValue)) base S recs fuel :
  journal_has get_meta base recs -> valid_from S recs -> 0 <= base ->
  base + Z.of_nat (length recs) < 2 ^ 64 ->
  forall before todo rows index, recs = before ++ todo -> (length todo <= fuel)%nat ->
  mem_ok base S before rows index ->
  exists rows' index', read_journal get_meta fuel base (base + Z.of_nat (length before)) (Mem rows index) =
      Ok (Mem rows' index') /\ mem_ok base S recs rows' index'.
Proof.
  intros [Hj Hend] Hv Hb Hlen. induction fuel as [|fuel IH]; intros before todo rows index Hrecs Hf Hok;
    (destruct todo as [|r todo]; [|cbn in Hf]).
  1, 3: rewrite app_nil_r in Hrecs; subst before; exists rows, index; split; [|done];
    cbn [read_journal]; unfold read_meta; by rewrite Hend.
  { lia. }
  assert (recs !! length before = Some r) as Hr by (rewrite Hrecs; by apply list_lookup_middle).
  assert (recs = (before ++ [r]) ++ todo) as Hrecs' by (by rewrite <-app_assoc).
  assert (length recs = (length before + Datatypes.S (length todo))%nat) as Hl by (rewrite Hrecs, length_app; done).
  cbn [read_journal]. unfold read_meta at 1. rewrite (Hj _ _ Hr). cbn [res_bind record_value].
  destruct (import_ok base S before rows index (base + Z.of_nat (length before)) r Hok) as (rows1 & index1 & Himp & Hok1).
  - rewrite Hrecs' in Hv. apply valid_prefix in Hv. by apply valid_snoc in Hv as [_ Hv].
  - lia.
  - assert (mkRecord (pr_hash r) (pr_inserted r) (pr_deleted r) = r) as -> by (by destruct r).
    rewrite Himp. rewrite wadd_small by (unfold in_range; lia).
    destruct (IH (before ++ [r]) todo rows1 index1 Hrecs' ltac:(lia) Hok1) as (rows' & index' & Hread & Hok').
    exists rows', index'. split; [|done]. rewrite <-Hread. f_equal. rewrite length_app. cbn. lia.
Qed.
End pruning.
