(* ===== verification/StateDb.v ===== *)
(** The state database (client/state-db/src/lib.rs): the non-canonical overlay, the pruning
    window and the pins, put together.

    [StateDbSync] is what the lock of [StateDb] protects; the methods of [StateDb] take the lock
    and call it.  The database is a parameter: [get_meta] reads the metadata column, [node_get]
    the column of the trie nodes. *)

From stdpp Require Import base numbers list option gmap sets fin_maps strings.
From S2P Require Import Prelude NonCanonical Pruning.

Local Open Scope Z_scope.
Local Open Scope rust_scope.

(** * Pruning modes *)

Definition blocks_pruning (n : Z) : PruningMode := Constrained (mkConstraints (Some n)).

Definition is_archive (m : PruningMode) : bool :=
  match m with ArchiveAll | ArchiveCanonical => true | Constrained _ => false end.

Definition PRUNING_MODE_ARCHIVE : string := "archive".
Definition PRUNING_MODE_ARCHIVE_CANON : string := "archive_canonical".
Definition PRUNING_MODE_CONSTRAINED : string := "constrained".

Definition default_constraints : Constraints := mkConstraints (Some DEFAULT_MAX_BLOCK_CONSTRAINT).
Definition default_mode : PruningMode := Constrained default_constraints.

Definition mode_id (m : PruningMode) : string :=
  match m with
  | ArchiveAll => PRUNING_MODE_ARCHIVE
  | ArchiveCanonical => PRUNING_MODE_ARCHIVE_CANON
  | Constrained _ => PRUNING_MODE_CONSTRAINED
  end.

Definition from_id (id : string) : option PruningMode :=
  if decide (id = PRUNING_MODE_ARCHIVE) then Some ArchiveAll
  else if decide (id = PRUNING_MODE_ARCHIVE_CANON) then Some ArchiveCanonical
  else if decide (id = PRUNING_MODE_CONSTRAINED) then Some (Constrained default_constraints)
  else None.

Definition choose_pruning_mode (stored requested : PruningMode) : res StateDbError PruningMode :=
  match stored, requested with
  | ArchiveAll, ArchiveAll => Ok ArchiveAll
  | ArchiveCanonical, ArchiveCanonical => Ok ArchiveCanonical
  | Constrained _, Constrained requested => Ok (Constrained requested)
  | stored, requested => Err (IncompatiblePruningModes stored requested)
  end.

Inductive LastCanonicalized := NoneCanonicalized | Block (n : Z) | NotCanonicalizing.

Inductive IsPruned := Pruned | NotPruned | MaybePruned.

Inductive PinError := PinInvalidBlock.

Section statedb.
Context {BlockHash Key DBValue : Type} `{Countable BlockHash} `{Countable Key}.
Abbreviation MetaValue := (@MetaValue BlockHash Key DBValue).
Abbreviation CommitSet := (@CommitSet BlockHash Key DBValue).
Abbreviation NC := (@NonCanonicalOverlay BlockHash Key DBValue _ _ _ _).
Abbreviation RefWindow := (@RefWindow BlockHash Key _ _).

Record StateDbSync := mkStateDb {
  mode : PruningMode;
  non_canonical : NC;
  sd_pruning : option RefWindow;
  sd_pinned : gmap BlockHash Z;
  ref_counting : bool
}.

Definition with_non_canonical (s : StateDbSync) (nc : NC) : StateDbSync :=
  mkStateDb (mode s) nc (sd_pruning s) (sd_pinned s) (ref_counting s).
Definition with_pruning (s : StateDbSync) (w : option RefWindow) : StateDbSync :=
  mkStateDb (mode s) (non_canonical s) w (sd_pinned s) (ref_counting s).
Definition with_pinned (s : StateDbSync) (p : gmap BlockHash Z) : StateDbSync :=
  mkStateDb (mode s) (non_canonical s) (sd_pruning s) p (ref_counting s).

Section db.
Context {E : Type} (get_meta : MetaKey -> res E (option MetaValue)).
Abbreviation Sd := (M StateDbSync (Error E)).

Definition new_sync (fuel : nat) (m : PruningMode) (ref_counting : bool) : res (Error E) StateDbSync :=
  let? nc := new get_meta fuel in
  let? w := match m with
            | Constrained c =>
                let? w := new_window get_meta fuel (default 0 (max_blocks c)) ref_counting in Ok (Some w)
            | ArchiveAll | ArchiveCanonical => Ok None
            end in
  Ok (mkStateDb m nc w ∅ ref_counting).

(** A call of the overlay, its errors wrapped *)
Definition on_overlay {A} (f : M NC StateDbError A) : Sd A := fun s =>
  let '(nc, r) := f (non_canonical s) in
  (with_non_canonical s nc, match r with Ok a => Ok a | Err e => Err (StateDb e) | Panic => Panic end).

(** A call of the window *)
Definition on_window {A} (w : RefWindow) (f : M RefWindow (Error E) A) : Sd A := fun s =>
  let '(w, r) := f w in (with_pruning s (Some w), r).

Definition insert_block (h : BlockHash) (number : Z) (parent_hash : BlockHash)
    (changeset : ChangeSet Key DBValue) : Sd CommitSet :=
  let* s := getM in
  match mode s with
  | ArchiveAll => retM (mkCommit (mkChangeSet (cs_inserted changeset) []) (mkChangeSet [] []))
  | Constrained _ | ArchiveCanonical => on_overlay (insert h number parent_hash changeset)
  end.

(** The loop of [prune]; every round shortens the window. *)
Fixpoint prune_loop (fuel : nat) (max : Z) (pins : gmap BlockHash Z) (c : CommitSet)
    : M RefWindow (Error E) CommitSet := fun w =>
  if window_size w <=? max then (w, Ok c)
  else
    match next_hash get_meta w with
    | (w, Err (StateDb BlockUnavailable)) => (w, Ok c)
    | (w, Err e) => (w, Err e)
    | (w, Panic) => (w, Panic)
    | (w, Ok oh) =>
        if match oh with Some h => bool_decide (is_Some (pins !! h)) | None => false end then (w, Ok c)
        else
          match prune_one get_meta c w with
          | (w, Err (StateDb BlockUnavailable)) => (w, Ok c)
          | (w, Err e) => (w, Err e)
          | (w, Panic) => (w, Panic)
          | (w, Ok c) => match fuel with O => (w, Panic) | S fuel => prune_loop fuel max pins c w end
          end
    end.

Definition prune_blocks (c : CommitSet) : Sd CommitSet :=
  let* s := getM in
  match sd_pruning s, mode s with
  | Some w, Constrained constraints =>
      on_window w (prune_loop (Z.to_nat (window_size w)) (default 0 (max_blocks constraints)) (sd_pinned s) c)
  | _, _ => retM c
  end.

Definition canonicalize_block (h : BlockHash) : Sd CommitSet :=
  let* s := getM in
  if decide (mode s = ArchiveAll) then retM default_commit
  else
    let* r := on_overlay (canonicalize h default_commit) in
    let '(number, c) := r in
    let c := if decide (mode s = ArchiveCanonical)
             then mkCommit (mkChangeSet (cs_inserted (data c)) []) (meta c) else c in
    let* c := match sd_pruning s with
              | Some w => on_window w (note_canonical h number c)
              | None => retM c
              end in
    prune_blocks c.

Definition last_canonicalized_status (s : StateDbSync) : LastCanonicalized :=
  if decide (mode s = ArchiveAll) then NotCanonicalizing
  else match last_canonicalized_block_number (non_canonical s) with
       | Some n => Block n
       | None => NoneCanonicalized
       end.

Definition is_pruned (s : StateDbSync) (h : BlockHash) (number : Z) : res (Error E) IsPruned :=
  match mode s with
  | ArchiveAll => Ok NotPruned
  | ArchiveCanonical | Constrained _ =>
      if match last_canonicalized_block_number (non_canonical s) with Some c => c <? number | None => true end
      then Ok (if have_block (non_canonical s) h then NotPruned else Pruned)
      else
        match sd_pruning s with
        | None => Ok MaybePruned
        | Some w =>
            let? b := window_have_block w h number in
            Ok (match b with No => Pruned | Yes => NotPruned | Maybe => MaybePruned end)
        end
  end.

Definition sd_revert_one (s : StateDbSync) : StateDbSync * option CommitSet :=
  match mode s with
  | ArchiveAll => (s, Some default_commit)
  | ArchiveCanonical | Constrained _ =>
      let '(nc, c) := revert_one (non_canonical s) in (with_non_canonical s nc, c)
  end.

Definition sd_remove (h : BlockHash) (s : StateDbSync) : StateDbSync * option CommitSet :=
  match mode s with
  | ArchiveAll => (s, Some default_commit)
  | ArchiveCanonical | Constrained _ =>
      let '(nc, c) := remove h (non_canonical s) in (with_non_canonical s nc, c)
  end.

(** [hint] says whether the block's state is known to be there. *)
Definition sd_have_block (s : StateDbSync) (h : BlockHash) (number : Z) (hint : bool) : res (Error E) bool :=
  if have_block (non_canonical s) h then Ok true
  else
    match sd_pruning s with
    | None => Ok hint
    | Some w =>
        let? b := window_have_block w h number in
        Ok (match b with No => false | Yes => true | Maybe => hint end)
    end.

Definition sd_pin (h : BlockHash) (number : Z) (hint : bool) (s : StateDbSync)
    : StateDbSync * res (Error E) (option PinError) :=
  match mode s with
  | ArchiveAll => (s, Ok None)
  | ArchiveCanonical | Constrained _ =>
      match sd_have_block s h number hint with
      | Ok true =>
          let refs := default 0 (sd_pinned s !! h) in
          let s := if refs =? 0 then with_non_canonical s (pin h (non_canonical s)) else s in
          (with_pinned s (<[h := wadd 32 refs 1]> (sd_pinned s)), Ok None)
      | Ok false => (s, Ok (Some PinInvalidBlock))
      | Err e => (s, Err e)
      | Panic => (s, Panic)
      end
  end.

Definition sd_unpin (h : BlockHash) (s : StateDbSync) : option StateDbSync :=
  match sd_pinned s !! h with
  | None => Some s
  | Some n =>
      let n := wsub 32 n 1 in
      if n =? 0 then
        nc ← unpin h (non_canonical s);
        Some (with_pinned (with_non_canonical s nc) (delete h (sd_pinned s)))
      else Some (with_pinned s (<[h := n]> (sd_pinned s)))
  end.

Definition sd_sync (s : StateDbSync) : option StateDbSync :=
  nc ← sync (non_canonical s); Some (with_non_canonical s nc).

Definition sd_get (node_get : Key -> res E (option DBValue)) (s : StateDbSync) (k : Key)
    : res (Error E) (option DBValue) :=
  match get (non_canonical s) k with
  | Some v => Ok (Some v)
  | None => match node_get k with Ok v => Ok v | Err e => Err (Db e) | Panic => Panic end
  end.

Definition fetch_stored_pruning_mode : res (Error E) (option PruningMode) :=
  let? r := read_meta get_meta PruningModeKey in
  match r with
  | None => Ok None
  | Some (PruningModeOf id) =>
      match from_id id with
      | Some m => Ok (Some m)
      | None => Err (StateDb Metadata)
      end
  | Some _ => Err (StateDb Metadata)
  end.

(** [open]: a new database must have no mode stored, an existing one must have one. *)
Definition open_statedb (fuel : nat) (requested : option PruningMode) (ref_counting should_init : bool)
    : res (Error E) (CommitSet * StateDbSync) :=
  let? stored := fetch_stored_pruning_mode in
  let? selected :=
    match should_init, stored, requested with
    | true, Some _, _ => Panic
    | true, None, requested => Ok (default default_mode requested)
    | false, None, _ => Err (StateDb Metadata)
    | false, Some stored, None => Ok stored
    | false, Some stored, Some requested =>
        match choose_pruning_mode stored requested with
        | Ok m => Ok m
        | Err e => Err (StateDb e)
        | Panic => Panic
        end
    end in
  let c := if should_init then put_meta default_commit PruningModeKey (PruningModeOf (mode_id selected))
           else default_commit in
  let? s := new_sync fuel selected ref_counting in
  Ok (c, s).

Definition reset (fuel : nat) (s : StateDbSync) : res (Error E) StateDbSync :=
  new_sync fuel (mode s) (ref_counting s).

End db.
End statedb.
