(* ===== verification/Window.v ===== *)
(** The pruning window in memory, and the database behind it.

    client/state-db/src/pruning.rs with a queue in memory: [window_ok] says which death rows the
    blocks in the window have; noting a canonical block and pruning the oldest one, against the
    list of the blocks' records; the loop of [prune] (client/state-db/src/lib.rs); what the
    commits do to the columns of the database, and the window read back from its journal. *)

From stdpp Require Import base numbers list option gmap sets fin_maps.
From S2P Require Import Prelude NonCanonical Journal Pruning StateDb.

Local Open Scope Z_scope.
Local Open Scope rust_scope.

Section window.
Context {BlockHash Key DBValue : Type} `{Countable BlockHash} `{Countable Key}.
Abbreviation CommitSet := (@CommitSet BlockHash Key DBValue).
Abbreviation RefWindow := (@RefWindow BlockHash Key _ _).
Abbreviation PruningRecord := (@PruningRecord BlockHash Key).
Abbreviation Database := (@Database BlockHash Key DBValue _ _).
Abbreviation MetaValue := (@MetaValue BlockHash Key DBValue).
Implicit Types (w : RefWindow) (recs gone : list PruningRecord) (c : CommitSet) (db : Database).

(** The blocks in the window are [recs], above the state [S]. *)
Definition window_ok w (S : gset Key) recs : Prop :=
  exists rows index, queue w = Mem rows index /\ mem_ok (window_base w) S recs rows index.

(** What a commit that is made canonical leaves in the journal *)
Definition noted (h : BlockHash) c : PruningRecord :=
  mkRecord h (cs_inserted (data c)).*1 (cs_deleted (data c)).

Definition noted_commit (h : BlockHash) (number : Z) c : CommitSet :=
  put_meta (mkCommit (mkChangeSet (cs_inserted (data c)) []) (meta c)) (PruningJournalKey number)
    (record_value (noted h c)).

(** The next block's number; an empty window at 0 takes any. *)
Definition continues w recs (number : Z) : Prop :=
  number = window_base w + Z.of_nat (length recs) \/ (window_base w = 0 /\ recs = [] /\ 0 < number).

Lemma window_range w S recs :
  window_ok w S recs -> 0 <= window_base w /\ window_base w + Z.of_nat (length recs) < 2 ^ 64.
Proof. intros (rows & index & _ & Hok). apply Hok. Qed.

Lemma window_valid w S recs : window_ok w S recs -> valid_from S recs.
Proof. intros (rows & index & _ & Hok). apply Hok. Qed.

Lemma window_size_ok w S recs : window_ok w S recs -> window_size w = Z.of_nat (length recs).
Proof.
  intros (rows & index & Hq & Hok). unfold window_size. rewrite Hq. cbn. by rewrite (mem_length _ _ _ _ _ Hok).
Qed.

Section ops.
Context {E : Type} (get_meta : MetaKey -> res E (option MetaValue)).

Lemma next_hash_ok w S recs :
  window_ok w S recs -> next_hash get_meta w = (w, Ok (pr_hash <$> head recs)).
Proof.
  intros (rows & index & Hq & Hok). unfold next_hash. rewrite Hq. do 2 f_equal.
  pose proof (mem_hashes _ _ _ _ _ Hok) as Hh. destruct rows, recs; cbn in *; congruence.
Qed.

(** The window starts at the block, or continues with it. *)
Lemma note_start w recs number :
  window_size w = Z.of_nat (length recs) -> 0 <= window_base w -> continues w recs number -> number < 2 ^ 64 ->
  exists w1, (if starts_late w number then putM (mkWindow (queue w) number)
     else if negb (wadd 64 (window_base w) (window_size w) =? number) then errM (StateDb InvalidBlockNumber)
     else retM tt) w = (w1, Ok tt : res (Error E) unit) /\ queue w1 = queue w /\
    window_base w1 = number - Z.of_nat (length recs) /\
    (window_base w1 = window_base w \/ recs = [] /\ window_base w = 0 /\ 0 < number).
Proof.
  intros Hsz Hb Hn Hr. unfold starts_late, window_is_empty, putM, errM, retM. rewrite Hsz.
  destruct Hn as [->|(Hz & -> & Hpos)].
  - rewrite wadd_small by (unfold in_range; lia). rewrite Z.eqb_refl.
    assert ((window_base w =? 0) && (Z.of_nat (length recs) =? 0) &&
      (0 <? window_base w + Z.of_nat (length recs)) = false) as -> by lia.
    exists w. split_and!; [done|done|lia|by left].
  - rewrite Hz. cbn [length]. change (Z.of_nat 0) with 0. rewrite (proj2 (Z.ltb_lt 0 number)) by done. cbn.
    eexists. split_and!; [done|done|cbn; lia|by right].
Qed.

Lemma note_canonical_ok w S recs h number c :
  window_ok w S recs -> valid_record (final S recs) (noted h c) -> continues w recs number ->
  number + 1 < 2 ^ 64 ->
  exists w', note_canonical (E := E) h number c w = (w', Ok (noted_commit h number c)) /\
    window_base w' = number - Z.of_nat (length recs) /\ window_ok w' S (recs ++ [noted h c]).
Proof.
  intros Hw Hv Hn Hr. pose proof (window_range _ _ _ Hw) as Hb.
  destruct (note_start w recs number (window_size_ok _ _ _ Hw) (proj1 Hb) Hn ltac:(lia))
    as (w1 & Hstart & Hq1 & Hb1 & Hcase).
  destruct Hw as (rows & index & Hq & Hok).
  assert (mem_ok (window_base w1) S recs rows index) as Hok1.
  { destruct Hcase as [->|(-> & _ & Hpos)]; [done|]. apply mem_length in Hok as Hl. destruct rows; [|done].
    apply (mem_rebase (window_base w)); [done|]. rewrite Hb1. cbn. lia. }
  destruct (import_ok (window_base w1) S recs rows index number (noted h c)) as (rows' & index' & Himp & Hok');
    [done..|lia|].
  unfold note_canonical, bindM, getM at 1. rewrite Hstart. unfold getM, liftM, putM, retM. rewrite Hq1, Hq.
  unfold noted in Himp. rewrite Himp. cbn [expect]. eexists. split; [done|]. split; [done|]. by exists rows', index'.
Qed.

(** Any other number is refused. *)
Lemma note_canonical_refused w S recs h number c :
  window_ok w S recs -> ~ continues w recs number ->
  note_canonical (E := E) h number c w = (w, Err (StateDb InvalidBlockNumber)).
Proof.
  intros Hw Hn. pose proof (window_size_ok _ _ _ Hw) as Hsz. pose proof (window_range _ _ _ Hw) as Hb.
  unfold note_canonical, starts_late, window_is_empty, bindM, getM, putM, errM, retM, liftM. rewrite Hsz.
  unfold continues in Hn. rewrite wadd_small by (unfold in_range; lia).
  assert ((window_base w =? 0) && (Z.of_nat (length recs) =? 0) && (0 <? number) = false) as ->.
  { destruct recs; cbn [length] in *; [|by rewrite andb_false_r]. apply not_true_iff_false. intros Ht.
    apply Hn. right. split; [lia|]. split; [done|lia]. }
  rewrite (proj2 (Z.eqb_neq _ _)) by (intros <-; apply Hn; by left). done.
Qed.

(** Whether a block is in the window *)
Lemma window_have_block_ok w S recs h number :
  window_ok w S recs -> 0 <= number ->
  window_have_block (E := E) w h number =
  Ok (have_of_bool (bool_decide (window_base w <= number /\
    pr_hash <$> recs !! Z.to_nat (number - window_base w) = Some h))).
Proof.
  intros Hw Hn. pose proof (window_size_ok _ _ _ Hw) as Hsz. pose proof (window_range _ _ _ Hw) as Hb.
  destruct Hw as (rows & index & Hq & Hok). unfold window_have_block, window_is_empty. rewrite Hsz.
  rewrite wadd_small by (unfold in_range; lia).
  destruct ((Z.of_nat (length recs) =? 0) || (number <? window_base w) ||
    (window_base w + Z.of_nat (length recs) <=? number)) eqn:Hout.
  - rewrite bool_decide_eq_false_2; [done|]. intros [Hle Hr].
    destruct (recs !! Z.to_nat (number - window_base w)) as [r|] eqn:Hi; [|done]. apply lookup_lt_Some in Hi. lia.
  - rewrite wsub_small by (unfold in_range; lia). rewrite Hq. cbn [queue_have_block].
    rewrite <-list_lookup_fmap, <-(mem_hashes _ _ _ _ _ Hok), list_lookup_fmap.
    destruct (lookup_lt_is_Some_2 rows (Z.to_nat (number - window_base w))) as [row Hrow].
    { rewrite (mem_length _ _ _ _ _ Hok). lia. }
    rewrite Hrow. cbn. do 2 f_equal. apply bool_decide_ext. split; [|by intros [_ [= ->]]]. intros ->. split; [lia|done].
Qed.

Lemma prune_one_ok w S r recs c :
  window_ok w S (r :: recs) ->
  exists w' dels,
    prune_one get_meta c w =
      (w', Ok (delete_meta (put_meta (put_data c [] dels) LastPrunedKey (LastPrunedOf (window_base w)))
                 [PruningJournalKey (window_base w)])) /\
    list_to_set dels = S ∖ ⋃ states_from (next_state S r) recs /\
    window_base w' = window_base w + 1 /\ window_ok w' (next_state S r) recs.
Proof.
  intros Hw. pose proof (window_range _ _ _ Hw) as Hb. cbn [length] in Hb.
  destruct Hw as (rows & index & Hq & Hok). pose proof (mem_length _ _ _ _ _ Hok) as Hl.
  destruct rows as [|row rows]; [done|]. destruct (first_row _ _ _ _ _ _ _ Hok) as [_ Hrow].
  unfold prune_one. rewrite Hq. cbn [pop_front]. rewrite wadd_small by (unfold in_range; lia).
  eexists _, (elements (row_deleted row)). split; [done|]. split.
  - by rewrite list_to_set_elements_L.
  - split; [done|]. eexists _, _. split; [done|]. by apply pop_ok.
Qed.

Lemma prune_one_empty w S c :
  window_ok w S [] -> prune_one get_meta c w = (w, Err (StateDb BlockUnavailable)).
Proof.
  intros (rows & index & Hq & Hok). apply mem_length in Hok as Hl. destruct rows; [|done].
  unfold prune_one. rewrite Hq. cbn. rewrite <-Hq. by destruct w.
Qed.

(** ** The loop *)

(** A commit with the blocks from [base] on pruned *)
Definition pruned_commit (base : Z) (n : nat) (dels : list Key) c : CommitSet :=
  mkCommit (mkChangeSet (cs_inserted (data c)) (cs_deleted (data c) ++ dels))
    (mkChangeSet (cs_inserted (meta c) ++ ((fun b => (LastPrunedKey, LastPrunedOf b)) <$> seqZ base (Z.of_nat n)))
       (cs_deleted (meta c) ++ (PruningJournalKey <$> seqZ base (Z.of_nat n)))).

Lemma pruned_commit_nil base c : pruned_commit base 0 [] c = c.
Proof. unfold pruned_commit. cbn. rewrite !app_nil_r. by destruct c as [[] []]. Qed.

Lemma pruned_commit_step base n d dels c :
  pruned_commit (base + 1) n dels
    (delete_meta (put_meta (put_data c [] d) LastPrunedKey (LastPrunedOf base)) [PruningJournalKey base]) =
  pruned_commit base (Datatypes.S n) (d ++ dels) c.
Proof.
  unfold pruned_commit, delete_meta, put_meta, put_data. cbn [data meta cs_inserted cs_deleted].
  rewrite app_nil_r, <-!app_assoc, (seqZ_cons base (Z.of_nat (Datatypes.S n))) by lia.
  rewrite !fmap_cons. unfold Z.succ. replace (Z.pred (Z.of_nat (Datatypes.S n))) with (Z.of_nat n) by lia.
  done.
Qed.

(** The state before a block is dropped, and the deleted keys are what no later state has. *)
Lemma states_drop gone recs : forall S,
  ⋃ states_from (final S gone) recs ⊆ ⋃ states_from S (gone ++ recs).
Proof. induction gone as [|r gone IH]; intros S; [done|]. cbn. specialize (IH (next_state S r)). set_solver. Qed.

Definition stops (max : Z) (pins : gmap BlockHash Z) recs : Prop :=
  Z.of_nat (length recs) <= max \/ exists r, head recs = Some r /\ is_Some (pins !! pr_hash r).

Lemma prune_loop_ok max pins : forall recs fuel w S c,
  window_ok w S recs -> (length recs <= fuel)%nat -> 0 <= max ->
  exists gone rest w' dels,
    recs = gone ++ rest /\
    prune_loop get_meta fuel max pins c w = (w', Ok (pruned_commit (window_base w) (length gone) dels c)) /\
    window_ok w' (final S gone) rest /\ window_base w' = window_base w + Z.of_nat (length gone) /\
    list_to_set dels = ⋃ states_from S recs ∖ ⋃ states_from (final S gone) rest /\
    stops max pins rest /\ (forall r, r ∈ gone -> pins !! pr_hash r = None) /\
    (gone = [] \/ max <= Z.of_nat (length rest)).
Proof.
  intros recs. induction recs as [|r recs IH]; intros fuel w S c Hw Hf Hm.
  - exists [], [], w, []. rewrite pruned_commit_nil. split; [done|].
    assert (prune_loop get_meta fuel max pins c w = (w, Ok c)) as ->.
    { destruct fuel; cbn [prune_loop]; rewrite (window_size_ok _ _ _ Hw), (proj2 (Z.leb_le _ _)) by (cbn; lia); done. }
    split; [done|]. split; [done|]. split; [cbn; lia|]. split; [cbn; set_solver|]. split; [left; cbn; lia|].
    split; [by intros r ?%elem_of_nil|by left].
  - destruct fuel as [|fuel]; [cbn in Hf; lia|]. cbn [prune_loop]. rewrite (window_size_ok _ _ _ Hw).
    rewrite (next_hash_ok w S (r :: recs)) by done. cbn [head fmap option_fmap option_map].
    destruct (Z.leb_spec (Z.of_nat (length (r :: recs))) max) as [Hle|Hgt];
      [|destruct (decide (is_Some (pins !! pr_hash r))) as [Hpin|Hpin]].
    1, 2: exists [], (r :: recs), w, []; rewrite pruned_commit_nil; rewrite ?bool_decide_eq_true_2 by done;
      (split; [done|]); (split; [done|]); (split; [done|]); (split; [cbn; lia|]);
      (split; [cbn [final foldl]; set_solver|]); split_and!; [|by intros ? ?%elem_of_nil|by left].
    + by left.
    + right. by exists r.
    + rewrite bool_decide_eq_false_2 by done.
      destruct (prune_one_ok w S r recs c Hw) as (w1 & d & -> & Hd & Hb1 & Hw1).
      destruct (IH fuel w1 (next_state S r)
        (delete_meta (put_meta (put_data c [] d) LastPrunedKey (LastPrunedOf (window_base w)))
           [PruningJournalKey (window_base w)]) Hw1 ltac:(cbn in Hf; lia) Hm)
        as (gone & rest & w' & dels & -> & Hrun & Hw' & Hb' & Hdels & Hstop & Hpins & Hmax).
      exists (r :: gone), rest, w', (d ++ dels). rewrite Hrun, Hb1, pruned_commit_step.
      split; [done|]. split; [done|]. split; [done|]. split; [cbn [length]; lia|]. split; [|split; [done|split]].
      * rewrite list_to_set_app_L, Hd, Hdels. cbn [states_from union_list foldr final foldl].
        pose proof (states_drop gone rest (next_state S r)) as Hsub. unfold final in Hsub.
        set (A := ⋃ states_from _ (gone ++ rest)) in *. set (B := ⋃ states_from _ rest) in *.
        change (S ∖ A ∪ A ∖ B = (S ∪ A) ∖ B). apply set_eq. intros k.
        rewrite !elem_of_union, !elem_of_difference, elem_of_union. specialize (Hsub k).
        destruct (decide (k ∈ A)); tauto.
      * intros r' [->|Hr']%elem_of_cons; [|auto]. by apply eq_None_not_Some.
      * right. cbn [length] in Hgt. destruct Hmax as [->|?]; [cbn [app] in Hgt; lia|done].
Qed.

End ops.

(** ** The database *)

Lemma foldl_set_state l : forall db,
  dom (state (foldl set_state db l)) = dom (state db) ∪ list_to_set l.*1.
Proof. induction l as [|kv l IH]; intros db; cbn; [set_solver|]. rewrite IH. cbn. rewrite dom_insert_L. set_solver. Qed.

Lemma foldl_remove_state l : forall db,
  dom (state (foldl remove_state db l)) = dom (state db) ∖ list_to_set l.
Proof. induction l as [|k l IH]; intros db; cbn; [set_solver|]. rewrite IH. cbn. rewrite dom_delete_L. set_solver. Qed.

Lemma foldl_meta_state {A} (f : Database -> A -> Database) l :
  (forall db a, state (f db a) = state db) -> forall db, state (foldl f db l) = state db.
Proof. intros Hf. induction l as [|a l IH]; intros db; cbn; [done|]. by rewrite IH. Qed.

Lemma apply_state db c :
  state (apply_state_commit db c) =
  state (foldl remove_state (foldl set_state db (cs_inserted (data c))) (cs_deleted (data c))).
Proof. unfold apply_state_commit. cbn zeta. by rewrite (foldl_meta_state remove_meta), (foldl_meta_state set_meta). Qed.

(** The keys after a commit: deletions come after the insertions. *)
Lemma apply_dom db c :
  dom (state (apply_state_commit db c)) =
  (dom (state db) ∪ list_to_set (cs_inserted (data c)).*1) ∖ list_to_set (cs_deleted (data c)).
Proof. by rewrite apply_state, foldl_remove_state, foldl_set_state. Qed.

Section contents.
Context (content : Key -> DBValue).

Definition contents_ok db : Prop := map_Forall (fun k v => v = content k) (state db).

Lemma apply_contents db c :
  contents_ok db -> Forall (fun kv => kv.2 = content kv.1) (cs_inserted (data c)) ->
  contents_ok (apply_state_commit db c).
Proof.
  unfold contents_ok. intros Hdb Hins. rewrite apply_state. revert db Hdb.
  induction Hins as [|[k v] l Hv _ IH]; intros db Hdb; cbn [foldl].
  - revert db Hdb. induction (cs_deleted (data c)) as [|k l IH]; intros db Hdb; cbn; [done|].
    apply IH. by apply map_Forall_delete.
  - apply IH. by apply map_Forall_insert_2.
Qed.

Lemma contents_get db k : contents_ok db -> k ∈ dom (state db) -> state db !! k = Some (content k).
Proof. intros Hc [v Hv]%elem_of_dom. rewrite Hv. f_equal. by apply (Hc k v). Qed.

End contents.

(** Keys of the overlay's metadata *)
Definition overlay_key (k : MetaKey) : Prop :=
  match k with LastCanonicalKey | JournalKey _ _ => True | _ => False end.

Definition overlay_commit c : Prop :=
  Forall overlay_key (cs_inserted (meta c)).*1 /\ Forall overlay_key (cs_deleted (meta c)).

Lemma foldl_set_meta_ne l k : forall db, k ∉ l.*1 -> state_meta (foldl set_meta db l) k = state_meta db k.
Proof.
  induction l as [|kv l IH]; intros db Hk; [done|]. cbn in *. apply not_elem_of_cons in Hk as [Hne Hk].
  rewrite IH by done. cbn. by rewrite decide_False.
Qed.

Lemma foldl_set_meta_app l k v db : state_meta (foldl set_meta db (l ++ [(k, v)])) k = Some v.
Proof. rewrite foldl_app. cbn. by rewrite decide_True. Qed.

Lemma overlay_commit_meta db c k :
  overlay_commit c -> ~ overlay_key k -> state_meta (apply_state_commit db c) k = state_meta db k.
Proof.
  intros [Hi Hd] Hk. rewrite Forall_forall in Hi, Hd. rewrite apply_meta.
  rewrite decide_False by (intros Hin; by apply Hk, Hd). apply foldl_set_meta_ne. intros Hin. by apply Hk, Hi.
Qed.

(** What noting and pruning add to a commit of the overlay *)
Section full.
Context (db : Database) (h : BlockHash) (number base : Z) (n : nat) (dels : list Key) (c : CommitSet).
Hypothesis Hov : overlay_commit c.
Abbreviation full := (pruned_commit base n dels (noted_commit h number c)).

Lemma in_pruned_journal m : PruningJournalKey m ∈ PruningJournalKey <$> seqZ base (Z.of_nat n) <-> base <= m < base + Z.of_nat n.
Proof.
  rewrite list_elem_of_fmap. setoid_rewrite elem_of_seqZ. split; [by intros (? & [= ->] & ?)|eauto].
Qed.

Lemma full_overlay k : overlay_key k -> state_meta (apply_state_commit db full) k = state_meta (apply_state_commit db c) k.
Proof.
  intros Hk. rewrite !apply_meta. cbn [pruned_commit meta cs_deleted cs_inserted noted_commit put_meta].
  assert (k ∉ PruningJournalKey <$> seqZ base (Z.of_nat n)) as Hd
    by (intros (x & -> & _)%list_elem_of_fmap; done).
  rewrite (decide_ext _ (k ∈ cs_deleted (meta c))) by (rewrite elem_of_app; tauto).
  case_decide; [done|]. rewrite <-app_assoc, foldl_app, foldl_set_meta_ne; [done|].
  rewrite fmap_app, elem_of_app. intros [->%list_elem_of_singleton|Hin]; [done|].
  rewrite <-list_fmap_compose in Hin. apply list_elem_of_fmap in Hin as (x & -> & _). done.
Qed.

Lemma full_journal m :
  state_meta (apply_state_commit db full) (PruningJournalKey m) =
  if decide (base <= m < base + Z.of_nat n) then None
  else if decide (m = number) then Some (record_value (noted h c)) else state_meta db (PruningJournalKey m).
Proof.
  destruct Hov as [Hi Hd]. rewrite Forall_forall in Hi, Hd.
  rewrite !apply_meta. cbn [pruned_commit meta cs_deleted cs_inserted noted_commit put_meta].
  rewrite (decide_ext _ (base <= m < base + Z.of_nat n)).
  2: { rewrite elem_of_app, in_pruned_journal. split; [|tauto]. intros [Hin|?]; [by apply Hd in Hin|done]. }
  case_decide; [done|]. rewrite foldl_app, foldl_set_meta_ne.
  2: { rewrite <-list_fmap_compose. by intros (x & [=] & _)%list_elem_of_fmap. }
  case_decide as Hm; [subst m; apply foldl_set_meta_app|]. apply foldl_set_meta_ne.
  rewrite fmap_app, elem_of_app. intros [Hin|Hin%list_elem_of_singleton]; [by apply Hi in Hin|].
  cbn in Hin. congruence.
Qed.

Lemma full_pruned :
  state_meta (apply_state_commit db full) LastPrunedKey =
  if decide (n = 0%nat) then state_meta db LastPrunedKey else Some (LastPrunedOf (base + Z.of_nat n - 1)).
Proof.
  destruct Hov as [Hi Hd]. rewrite Forall_forall in Hi, Hd.
  rewrite !apply_meta. cbn [pruned_commit meta cs_deleted cs_inserted noted_commit put_meta].
  rewrite decide_False.
  2: { rewrite elem_of_app. intros [Hin|(x & [=] & _)%list_elem_of_fmap]. by apply Hd in Hin. }
  case_decide as Hn.
  - subst n. cbn [Z.of_nat seqZ fmap list_fmap]. rewrite app_nil_r. apply foldl_set_meta_ne.
    rewrite fmap_app, elem_of_app. intros [Hin|[=]%list_elem_of_singleton]. by apply Hi in Hin.
  - destruct n as [|n']; [done|]. replace (Z.of_nat (S n')) with (Z.of_nat n' + 1) by lia.
    rewrite seqZ_app, fmap_app by lia. change (seqZ (base + Z.of_nat n') 1) with [base + Z.of_nat n'].
    rewrite (app_assoc (_ ++ [_])). rewrite fmap_cons, fmap_nil, foldl_set_meta_app. do 2 f_equal. lia.
Qed.
End full.

(** ** The pruning journal *)

(** The journal has the records of the blocks in the window, and no others; the number of the
    last pruned block is there, unless none has been pruned. *)
Record prune_journaled db (base : Z) recs : Prop := mkPj {
  pj_rows : forall i r, recs !! i = Some r ->
    state_meta db (PruningJournalKey (base + Z.of_nat i)) = Some (record_value r);
  pj_only : forall m v, state_meta db (PruningJournalKey m) = Some v ->
    base <= m < base + Z.of_nat (length recs);
  pj_pruned : state_meta db LastPrunedKey = None \/
    (0 < base /\ state_meta db LastPrunedKey = Some (LastPrunedOf (base - 1)))
}.

Lemma pj_full db w recs h number c gone rest dels :
  overlay_commit c -> prune_journaled db (window_base w) recs -> continues w recs number ->
  recs ++ [noted h c] = gone ++ rest ->
  let base := number - Z.of_nat (length recs) in
  0 <= base ->
  prune_journaled (apply_state_commit db (pruned_commit base (length gone) dels (noted_commit h number c)))
    (base + Z.of_nat (length gone)) rest.
Proof.
  intros Hov [Hr Ho Hp] Hc Heq base Hb.
  assert (length recs + 1 = length gone + length rest)%nat as Hlen.
  { apply (f_equal length) in Heq. by rewrite !length_app in Heq. }
  assert (base = window_base w \/ recs = []) as Hbase by (subst base; destruct Hc as [->|(_ & -> & _)]; [left; lia|by right]).
  split.
  - intros i r Hi. rewrite full_journal by done. rewrite decide_False by lia.
    assert ((recs ++ [noted h c]) !! (length gone + i)%nat = Some r) as Hri.
    { rewrite Heq, lookup_app_r by lia. by replace (length gone + i - length gone)%nat with i by lia. }
    apply lookup_snoc_Some in Hri as [[Hlt Hri]|[Hl <-]].
    + rewrite decide_False by lia. destruct Hbase as [Hbase| ->]; [|done].
      rewrite <-(Hr _ _ Hri). do 2 f_equal. lia.
    + by rewrite decide_True by lia.
  - intros m v. rewrite full_journal by done. case_decide as Hm; [done|].
    case_decide as Hn; [intros _; lia|]. intros Hv%Ho. destruct Hbase as [Hbase| ->]; [lia|].
    cbn [length] in Hv. lia.
  - rewrite full_pruned by done. case_decide as Hn.
    + destruct Hp as [Hp|[Hpos Hp]]; [by left|]. right. rewrite Hp.
      destruct Hc as [->|(? & _ & _)]; [|lia]. split; [lia|]. do 2 f_equal. lia.
    + right. split; [lia|done].
Qed.

(** Reading the window back *)
Lemma new_window_ok {E} db w S recs fuel size last :
  window_ok w S recs -> prune_journaled db (window_base w) recs ->
  window_base w = 0 \/ state_meta db LastPrunedKey <> None ->
  state_meta db LastCanonicalKey = (fun l => LastCanonicalOf l.1 l.2) <$> last ->
  (length recs <= fuel)%nat ->
  new_window (E := E) (get_meta db) fuel size true = Ok w.
Proof.
  intros Hw [Hr Ho Hp] Hst Hlast Hf. pose proof (window_range _ _ _ Hw) as Hb.
  destruct Hw as (rows & index & Hq & Hok). unfold new_window, read_meta, get_meta at 1 2.
  assert (match state_meta db LastPrunedKey with
          | Some (LastPrunedOf n) => Ok (wadd 64 n 1)
          | Some _ => Err (StateDb Decoding)
          | None => Ok 0
          end = @Ok (Error E) Z (window_base w)) as Hbase.
  { destruct Hp as [Hp|[Hpos Hp]]; rewrite Hp in *; [destruct Hst as [Hst|?]; [by rewrite Hst|done]|].
    rewrite wadd_small by (unfold in_range; lia). f_equal. lia. }
  cbn [res_bind]. rewrite Hbase, Hlast. cbn [res_bind].
  assert (journal_has (@get_meta BlockHash Key DBValue _ _ E db) (window_base w) recs) as Hj.
  { split; [intros i r Hi; unfold get_meta; by rewrite (Hr _ _ Hi)|]. unfold get_meta. f_equal.
    apply eq_None_not_Some. intros [v Hv%Ho]. lia. }
  destruct (read_journal_ok (@get_meta BlockHash Key DBValue _ _ E db) (window_base w) S recs fuel Hj)
    with (before := @nil PruningRecord) (todo := recs) (rows := @nil (@DeathRow BlockHash Key _ _)) (index := (∅ : gmap Key Z))
    as (rows' & index' & Hread & Hok'); [apply Hok|lia|lia|done|done|by apply mem_empty; lia|].
  destruct (mem_unique _ _ _ _ _ _ _ Hok Hok') as [<- <-].
  cbn [length] in Hread. rewrite Z.add_0_r in Hread.
  destruct last as [[lh ln]|]; cbn [fmap option_fmap option_map fst snd res_bind];
    unfold new_mem; rewrite Hread; cbn; destruct w; cbn in *; by rewrite Hq.
Qed.

End window.
