(* ===== verification/Backed.v ===== *)
(** The pruning window on a database with reference counts (client/state-db/src/pruning.rs,
    [DeathRowQueue::DbBacked]).

    The queue keeps a few death rows in memory and reads the others from the journal.  Against
    the list of the blocks' records: the cache is a prefix of it, the journal has another, and
    the window hands out the records in order.  A block whose record was not written yet, and is
    not in the cache, makes pruning wait. *)

From stdpp Require Import base numbers list option gmap sets fin_maps.
From S2P Require Import Prelude NonCanonical Journal Pruning StateDb Window.

Local Open Scope Z_scope.
Local Open Scope rust_scope.

Section backed.
Context {BlockHash Key DBValue E : Type} `{Countable BlockHash} `{Countable Key}.
Abbreviation CommitSet := (@CommitSet BlockHash Key DBValue).
Abbreviation RefWindow := (@RefWindow BlockHash Key _ _).
Abbreviation PruningRecord := (@PruningRecord BlockHash Key).
Abbreviation DeathRow := (@DeathRow BlockHash Key _ _).
Abbreviation MetaValue := (@MetaValue BlockHash Key DBValue).
Context (get_meta : MetaKey -> res E (option MetaValue)).
Implicit Types (w : RefWindow) (recs gone : list PruningRecord) (c : CommitSet) (cache : list DeathRow).

(** The first [m] records are in the journal. *)
Definition committed (base : Z) recs (m : nat) : Prop :=
  (m <= length recs)%nat /\
  (forall i r, (i < m)%nat -> recs !! i = Some r ->
     get_meta (PruningJournalKey (base + Z.of_nat i)) = Ok (Some (record_value r))) /\
  forall i, (m <= i)%nat -> get_meta (PruningJournalKey (base + Z.of_nat i)) = Ok None.

(** The last block of the window *)
Definition ends (base : Z) recs (last : option Z) : Prop :=
  match last with Some l => l = base + Z.of_nat (length recs) - 1 | None => recs = [] end.

Record backed_ok w recs cache (cap : Z) (m : nat) : Prop := mkBacked {
  bk_queue : exists last, queue w = DbBacked cache cap last /\ ends (window_base w) recs last;
  bk_cache : cache = take (length cache) (row_of <$> recs);
  bk_cap : 1 <= cap;
  bk_journal : committed (window_base w) recs m;
  bk_range : 0 <= window_base w /\ window_base w + Z.of_nat (length recs) + cap < 2 ^ 64
}.

Lemma backed_size w recs cache cap m :
  backed_ok w recs cache cap m -> window_size w = Z.of_nat (length recs).
Proof.
  intros [(last & Hq & He) _ Hc _ Hr]. unfold window_size. rewrite Hq. cbn. destruct last as [l|]; cbn in He.
  - subst l. destruct recs as [|r recs]; cbn [length] in *.
    + destruct (decide (window_base w = 0)) as [->|Hne]; [done|].
      rewrite wadd_small by (unfold in_range; lia). rewrite wsub_small by (unfold in_range; lia). lia.
    + rewrite wadd_small by (unfold in_range; lia). rewrite wsub_small by (unfold in_range; lia). lia.
  - by subst recs.
Qed.

Lemma load_rows_ok base recs m : 0 <= base -> committed base recs m ->
  forall n i cache, (i <= m)%nat -> base + Z.of_nat (i + n) < 2 ^ 64 ->
  load_rows get_meta n (base + Z.of_nat i) cache =
    (cache ++ take (min n (m - i)) (drop i (row_of <$> recs)), Ok tt).
Proof.
  intros Hb (Hm & Hj & Hnone). induction n as [|n IH]; intros i cache Hi Hr.
  { cbn. by rewrite app_nil_r. }
  cbn [load_rows]. unfold bindM, liftM, load_death_row_from_db, read_meta.
  destruct (decide (i < m)%nat) as [Hlt|Hge].
  - destruct (lookup_lt_is_Some_2 recs i) as [r Hri]; [lia|]. rewrite (Hj i r Hlt Hri). cbn [res_bind record_value].
    unfold modifyM, retM, bindM. rewrite wadd_small by (unfold in_range; lia).
    replace (base + Z.of_nat i + 1) with (base + Z.of_nat (S i)) by lia. rewrite IH by lia.
    assert (drop i (row_of <$> recs) = row_of r :: drop (S i) (row_of <$> recs)) as ->.
    { apply drop_S. by rewrite list_lookup_fmap, Hri. }
    replace (m - i)%nat with (S (m - S i)) by lia. cbn [Nat.min take]. rewrite <-app_assoc. by destruct r.
  - rewrite (Hnone i) by lia. cbn [res_bind]. replace (m - i)%nat with 0%nat by lia. rewrite Nat.min_0_r, take_0, app_nil_r. done.
Qed.

(** What the cache holds once it is filled *)
Definition filled_cache recs cache (cap : Z) (m : nat) : list DeathRow :=
  if (length cache =? 0)%nat then take (min (Z.to_nat cap) m) (row_of <$> recs) else cache.

Lemma fill_cache_ok w recs cache cap m :
  backed_ok w recs cache cap m ->
  fill_cache get_meta (window_base w) cap cache = (filled_cache recs cache cap m, Ok tt).
Proof.
  intros [_ _ Hc Hj Hr]. unfold fill_cache, filled_cache, load_batch_from_db, bindM, getM.
  destruct (Nat.eqb_spec (length cache) 0) as [Hl|Hl]; [|done]. rewrite Hl.
  rewrite wadd_small by (unfold in_range; lia). apply nil_length_inv in Hl. subst cache.
  rewrite (load_rows_ok (window_base w) recs m (proj1 Hr) Hj) by lia. by rewrite Nat.sub_0_r, drop_0.
Qed.

Lemma backed_filled w recs cache cap m :
  backed_ok w recs cache cap m ->
  forall last, queue w = DbBacked cache cap last ->
  backed_ok (mkWindow (DbBacked (filled_cache recs cache cap m) cap last) (window_base w)) recs
    (filled_cache recs cache cap m) cap m.
Proof.
  intros [(last' & Hq & He) Ht Hc Hj Hr] last Hl. rewrite Hq in Hl. injection Hl as <-. split; try done.
  - by exists last'.
  - unfold filled_cache. destruct (length cache =? 0)%nat; [|done].
    rewrite length_take, length_fmap. destruct Hj as [Hm _]. f_equal. lia.
Qed.

(** The record can be had: it is in the cache or in the journal. *)
Definition available cache (m : nat) : Prop := cache <> [] \/ (0 < m)%nat.

Lemma filled_head w r recs cache cap m :
  backed_ok w (r :: recs) cache cap m -> available cache m ->
  exists rows, filled_cache (r :: recs) cache cap m = row_of r :: rows.
Proof.
  intros [_ Ht Hc _ _] Ha. unfold filled_cache. destruct cache as [|row cache]; cbn [length Nat.eqb].
  - destruct Ha as [?|Hm]; [done|]. destruct (min (Z.to_nat cap) m) as [|n] eqn:Hmin; [lia|]. cbn. eauto.
  - cbn in Ht. injection Ht as -> _. eauto.
Qed.

Lemma filled_none w recs cache cap m :
  backed_ok w recs cache cap m -> ~ available cache m -> filled_cache recs cache cap m = [].
Proof.
  intros _ Ha. unfold filled_cache, available in *. destruct cache; [|exfalso; apply Ha; by left].
  assert (m = 0%nat) as -> by (destruct m; [done|exfalso; apply Ha; right; lia]). by rewrite Nat.min_0_r.
Qed.

Lemma committed_tail base r recs m :
  committed base (r :: recs) m -> committed (base + 1) recs (m - 1).
Proof.
  intros (Hm & Hj & Hn). cbn in Hm. split; [lia|]. split.
  - intros i r' Hi Hr. rewrite <-(Hj (S i) r') by (done || lia). do 2 f_equal. lia.
  - intros i Hi. rewrite <-(Hn (S i)) by lia. do 2 f_equal. lia.
Qed.

(** Pruning hands out the oldest record, or waits for it. *)
Lemma backed_prune_one w r recs cache cap m c :
  backed_ok w (r :: recs) cache cap m -> available cache m ->
  exists w' cache',
    prune_one get_meta c w =
      (w', Ok (delete_meta (put_meta (put_data c [] (elements (list_to_set (pr_deleted r) : gset Key)))
                              LastPrunedKey (LastPrunedOf (window_base w)))
                 [PruningJournalKey (window_base w)])) /\
    window_base w' = window_base w + 1 /\ backed_ok w' recs cache' cap (m - 1).
Proof.
  intros Hok Ha. destruct (filled_head _ _ _ _ _ _ Hok Ha) as [rows Hf].
  pose proof (fill_cache_ok _ _ _ _ _ Hok) as Hfill. destruct (bk_queue _ _ _ _ _ Hok) as (last & Hq & He).
  pose proof (backed_filled _ _ _ _ _ Hok last Hq) as [_ Ht Hc Hj Hr]. rewrite Hf in Ht, Hfill.
  cbn [window_base length] in *. unfold prune_one. rewrite Hq. cbn [pop_front]. rewrite Hfill.
  rewrite wadd_small by (unfold in_range; lia). eexists _, rows. split; [done|]. split; [done|]. split; cbn [queue window_base].
  - exists last. split; [done|]. destruct last as [l|]; cbn in *; [|done]. subst l. lia.
  - cbn in Ht. by injection Ht.
  - done.
  - by apply (committed_tail _ r).
  - lia.
Qed.

Lemma backed_wait w r recs cache cap m c :
  backed_ok w (r :: recs) cache cap m -> ~ available cache m ->
  next_hash get_meta w = (w, Ok None) /\ prune_one get_meta c w = (w, Err (StateDb BlockUnavailable)).
Proof.
  intros Hok Ha. pose proof (fill_cache_ok _ _ _ _ _ Hok) as Hfill. rewrite (filled_none _ _ _ _ _ Hok Ha) in Hfill.
  destruct (bk_queue _ _ _ _ _ Hok) as (last & Hq & _). unfold next_hash, prune_one. rewrite Hq. cbn [pop_front].
  rewrite Hfill. destruct cache; [|exfalso; apply Ha; by left]. rewrite <-Hq. by destruct w.
Qed.

Lemma backed_next_hash w r recs cache cap m :
  backed_ok w (r :: recs) cache cap m -> available cache m ->
  exists w' cache', next_hash get_meta w = (w', Ok (Some (pr_hash r))) /\ window_base w' = window_base w /\
    backed_ok w' (r :: recs) cache' cap m /\ available cache' m.
Proof.
  intros Hok Ha. destruct (filled_head _ _ _ _ _ _ Hok Ha) as [rows Hf].
  pose proof (fill_cache_ok _ _ _ _ _ Hok) as Hfill. destruct (bk_queue _ _ _ _ _ Hok) as (last & Hq & _).
  pose proof (backed_filled _ _ _ _ _ Hok last Hq) as Hok'. unfold next_hash. rewrite Hq, Hfill.
  rewrite Hf in Hok' |- *. eexists _, _. split_and!; [done..|by left].
Qed.

(** ** Noting a block *)

(** The record of a block: the insertions are not kept. *)
Definition backed_record (h : BlockHash) c : PruningRecord := mkRecord h [] (cs_deleted (data c)).

Lemma take_snoc_prefix {A} (l l' : list A) x :
  l = take (length l) l' -> l = take (length l) (l' ++ [x]).
Proof.
  intros Hl. rewrite Hl at 1. rewrite take_app_le; [done|].
  apply (f_equal length) in Hl. rewrite length_take in Hl. lia.
Qed.

Lemma import_backed base recs cache cap last r :
  cache = take (length cache) (row_of <$> recs) -> 0 <= base -> base + Z.of_nat (length recs) < 2 ^ 64 ->
  exists cache', import base (base + Z.of_nat (length recs)) r (DbBacked cache cap last) =
      Some (DbBacked cache' cap (Some (base + Z.of_nat (length recs)))) /\
    cache' = take (length cache') (row_of <$> recs ++ [r]).
Proof.
  intros Ht Hb Hr. assert (length cache <= length recs)%nat as Hle.
  { apply (f_equal length) in Ht. rewrite length_take, length_fmap in Ht. lia. }
  cbn [import]. rewrite wadd_small by (unfold in_range; lia).
  destruct ((_ =? _) && (_ <? _)) eqn:Hfit; (eexists; split; [done|]); rewrite fmap_app.
  - assert (length cache = length recs) as Hl by lia. rewrite Ht, Hl, take_ge by (by rewrite length_fmap).
    by rewrite take_ge by (rewrite !length_app, length_fmap; done).
  - by apply take_snoc_prefix.
Qed.

(** The block joins the window; its record goes to the journal, without the insertions. *)
Lemma backed_note w recs cache cap m h number c :
  backed_ok w recs cache cap m -> continues w recs number -> number + 1 + cap < 2 ^ 64 ->
  exists w' cache',
    note_canonical (E := E) h number c w =
      (w', Ok (put_meta (mkCommit (mkChangeSet (cs_inserted (data c)) []) (meta c)) (PruningJournalKey number)
                 (record_value (backed_record h c)))) /\
    window_base w' = number - Z.of_nat (length recs) /\
    backed_ok w' (recs ++ [backed_record h c]) cache' cap m.
Proof.
  intros Hok Hn Hr. pose proof (backed_size _ _ _ _ _ Hok) as Hsz.
  destruct Hok as [(last & Hq & He) Ht Hc (Hm & Hj & Hnone) Hb].
  destruct (note_start (E := E) w recs number Hsz (proj1 Hb) Hn ltac:(lia)) as (w1 & Hstart & Hq1 & Hb1 & Hcase).
  assert (0 <= window_base w1) as Hpos by (destruct Hcase as [->|(-> & _ & ?)]; [lia|rewrite Hb1; cbn; lia]).
  assert (committed (window_base w1) (recs ++ [backed_record h c]) m) as Hcom.
  { split; [rewrite length_app; lia|]. destruct Hcase as [->|(-> & Hz & Hp)].
    - split; [|done]. intros i r Hi Hri. apply Hj; [done|]. rewrite lookup_app_l in Hri by lia. done.
    - cbn in Hm. assert (m = 0%nat) as -> by lia. split; [lia|]. intros i _.
      rewrite <-(Hnone (Z.to_nat (number + Z.of_nat i))) by lia. do 2 f_equal. rewrite Hb1, Hz. cbn [length]. lia. }
  destruct (import_backed (window_base w1) recs cache cap last (backed_record h c) Ht) as (cache' & Himp & Ht');
    [done|lia|].
  unfold note_canonical, bindM, getM at 1. rewrite Hstart. unfold getM, liftM, putM, retM. rewrite Hq1, Hq.
  replace (window_base w1 + Z.of_nat (length recs)) with number in Himp by lia.
  unfold backed_record in Himp. rewrite Himp. cbn [expect]. eexists _, cache'. split; [done|].
  split; [cbn; lia|]. split; cbn [queue window_base]; try done.
  - eexists. split; [done|]. cbn. rewrite length_app. cbn. lia.
  - rewrite length_app. cbn. lia.
Qed.
(** ** The loop *)

Definition row_keys (r : PruningRecord) : list Key := elements (list_to_set (pr_deleted r) : gset Key).

(** Why the loop stops: the window is short enough, its oldest block is pinned, or the record of
    that block was not written yet *)
Definition backed_stops (max : Z) (pins : gmap BlockHash Z) recs cache (m : nat) : Prop :=
  Z.of_nat (length recs) <= max \/ (exists r, head recs = Some r /\ is_Some (pins !! pr_hash r)) \/ ~ available cache m.

Definition backed_pruned (max : Z) (pins : gmap BlockHash Z) w recs (cap : Z) c
    (res : RefWindow * res (Error E) CommitSet) : Prop :=
  exists gone rest w' cache' m',
    recs = gone ++ rest /\
    res = (w', Ok (pruned_commit (window_base w) (length gone) (concat (row_keys <$> gone)) c)) /\
    window_base w' = window_base w + Z.of_nat (length gone) /\ backed_ok w' rest cache' cap m' /\
    backed_stops max pins rest cache' m' /\ (forall r, r ∈ gone -> pins !! pr_hash r = None) /\
    (gone = [] \/ max <= Z.of_nat (length rest)).

Lemma backed_pruned_none max pins w w' recs cache cap m c :
  backed_ok w' recs cache cap m -> window_base w' = window_base w -> backed_stops max pins recs cache m ->
  backed_pruned max pins w recs cap c (w', Ok c).
Proof.
  intros Hok Hb Hs. exists [], recs, w', cache, m. cbn [length fmap list_fmap concat]. rewrite pruned_commit_nil. split_and!; try done; [cbn; lia| |by left].
  by intros r ?%elem_of_nil.
Qed.

Lemma backed_loop max pins : forall recs fuel w cache cap m c,
  backed_ok w recs cache cap m -> (length recs <= fuel)%nat -> 0 <= max ->
  backed_pruned max pins w recs cap c (prune_loop get_meta fuel max pins c w).
Proof.
  intros recs. induction recs as [|r recs IH]; intros fuel w cache cap m c Hok Hf Hm.
  { assert (prune_loop get_meta fuel max pins c w = (w, Ok c)) as ->.
    { destruct fuel; cbn [prune_loop]; rewrite (backed_size _ _ _ _ _ Hok), (proj2 (Z.leb_le _ _)) by (cbn; lia); done. }
    eapply backed_pruned_none; [done..|]. by left. }
  destruct fuel as [|fuel]; [cbn in Hf; lia|]. cbn [prune_loop]. rewrite (backed_size _ _ _ _ _ Hok).
  destruct (Z.leb_spec (Z.of_nat (length (r :: recs))) max) as [Hle|Hgt].
  { eapply backed_pruned_none; [done..|]. by left. }
  assert (available cache m \/ ~ available cache m) as [Ha|Ha].
  { unfold available. destruct cache; [|left; by left]. destruct m; [right|left; right; lia]. intros [?|?]; [done|lia]. }
  2: { destruct (backed_wait _ _ _ _ _ _ c Hok Ha) as [-> ->]. eapply backed_pruned_none; [done..|]. right. by right. }
  destruct (backed_next_hash _ _ _ _ _ _ Hok Ha) as (w1 & cache1 & -> & Hb1 & Hok1 & Ha1).
  destruct (decide (is_Some (pins !! pr_hash r))) as [Hpin|Hpin].
  { rewrite bool_decide_eq_true_2 by done. eapply backed_pruned_none; [done..|]. right. left. by exists r. }
  rewrite bool_decide_eq_false_2 by done.
  destruct (backed_prune_one _ _ _ _ _ _ c Hok1 Ha1) as (w2 & cache2 & -> & Hb2 & Hok2).
  destruct (IH fuel w2 cache2 cap (m - 1)%nat
    (delete_meta (put_meta (put_data c [] (row_keys r)) LastPrunedKey (LastPrunedOf (window_base w1)))
       [PruningJournalKey (window_base w1)]) Hok2 ltac:(cbn in Hf; lia) Hm)
    as (gone & rest & w' & cache' & m' & -> & Hrun & Hb' & Hok' & Hs & Hpins & Hen).
  unfold row_keys in Hrun at 1. rewrite Hrun, Hb2, pruned_commit_step, Hb1.
  exists (r :: gone), rest, w', cache', m'. split_and!; try done.
  - cbn [length]. lia.
  - intros r' [->|Hr']%elem_of_cons; [|auto]. by apply eq_None_not_Some.
  - right. cbn [length] in Hgt. destruct Hen as [->|?]; [cbn [app] in Hgt; lia|done].
Qed.

(** [C20] A window on the database, with the records [recs] of which the first [m] are in the
    journal: after the next canonical block, pruning hands out the records from the front, in
    order and with their numbers, and the commit deletes their keys, whatever the cache holds.
    It stops when the window is short enough, at a pinned block, or at a block whose record is
    neither cached nor written. *)
Theorem backed_window_correct w recs cache cap m h number c max pins :
  backed_ok w recs cache cap m -> continues w recs number -> number + 1 + cap < 2 ^ 64 -> 0 <= max ->
  exists w1 c1,
    note_canonical (E := E) h number c w = (w1, Ok c1) /\ cs_deleted (data c1) = [] /\
    window_base w1 = number - Z.of_nat (length recs) /\
    backed_pruned max pins w1 (recs ++ [backed_record h c]) cap c1
      (prune_loop get_meta (Z.to_nat (window_size w1)) max pins c1 w1).
Proof.
  intros Hok Hn Hr Hm. destruct (backed_note w recs cache cap m h number c Hok Hn Hr) as (w1 & cache1 & Hnote & Hb1 & Hok1).
  eexists w1, _. split; [done|]. split; [done|]. split; [done|]. eapply backed_loop; [done| |done].
  rewrite (backed_size _ _ _ _ _ Hok1). lia.
Qed.

(** ** Restarting *)

Definition clamp_capacity (size : Z) : Z := Z.max 1 (Z.min size DEFAULT_MAX_BLOCK_CONSTRAINT).

(** A window read from a journal that is complete *)
Lemma backed_restart fuel size base recs last :
  0 <= base -> base + Z.of_nat (length recs) + DEFAULT_MAX_BLOCK_CONSTRAINT < 2 ^ 64 ->
  get_meta LastPrunedKey = Ok (if base =? 0 then None else Some (LastPrunedOf (base - 1))) ->
  get_meta LastCanonicalKey = Ok ((fun l => LastCanonicalOf l.1 l.2) <$> last) ->
  ends base recs (snd <$> last) -> committed base recs (length recs) ->
  exists w cache, new_window get_meta fuel size false = Ok w /\ window_base w = base /\
    backed_ok w recs cache (clamp_capacity size) (length recs).
Proof.
  unfold clamp_capacity, DEFAULT_MAX_BLOCK_CONSTRAINT. intros Hb Hr Hp Hl He Hc.
  assert (match (if base =? 0 then None else Some (LastPrunedOf (base - 1))) : option MetaValue with
          | Some (LastPrunedOf n) => Ok (wadd 64 n 1)
          | Some _ => Err (StateDb Decoding)
          | None => Ok 0
          end = @Ok (Error E) Z base) as Hbase.
  { destruct (Z.eqb_spec base 0) as [->|Hne]; [done|]. rewrite wadd_small by (unfold in_range; lia). f_equal. lia. }
  unfold new_window, read_meta. rewrite Hp, Hl. cbn [res_bind]. rewrite Hbase. cbn [res_bind].
  unfold new_db_backed, load_batch_from_db, bindM, getM. cbn [length]. rewrite wadd_small by (unfold in_range; cbn; lia).
  set (cap := Z.max 1 _).
  rewrite (load_rows_ok base recs (length recs) Hb Hc _ 0%nat) by (subst cap; unfold DEFAULT_MAX_BLOCK_CONSTRAINT; lia).
  destruct last as [[h n]|]; cbn [fmap option_fmap option_map fst snd res_bind] in *;
    (eexists (mkWindow _ _), _; split; [done|]; split; [done|]; split; cbn [queue window_base];
      [by eexists| |subst cap; lia|done|subst cap; unfold DEFAULT_MAX_BLOCK_CONSTRAINT; lia]);
    rewrite Nat.sub_0_r, drop_0; cbn [app]; rewrite length_take, length_fmap; f_equal; lia.
Qed.

End backed.
