(* ===== verification/StateDbSteps.v ===== *)
(** The state database as a state machine (client/state-db/src/lib.rs), in the mode
    [Constrained], with the reference counts kept in memory.

    A configuration is the state database, the columns its commits are written to, and the
    history of the blocks that became canonical.  In every configuration that can be reached the
    database holds exactly the nodes of the states in the pruning window, every node of every
    state above can be read, and a restart reads back the same window and the same blocks. *)

From stdpp Require Import base numbers list option gmap sets fin_maps relations.
From S2P Require Import Prelude NonCanonical Discard NonCanonicalInv NonCanonicalOps Canonicalize Journal OverlaySteps Pruning StateDb Window.

Local Open Scope Z_scope.
Local Open Scope rust_scope.

Section steps.
Context {BlockHash Key DBValue : Type} `{Countable BlockHash} `{Countable Key}.
Context (content : Key -> DBValue) (number_of : BlockHash -> Z).
Abbreviation BlockOverlay := (@BlockOverlay BlockHash Key).
Abbreviation CommitSet := (@CommitSet BlockHash Key DBValue).
Abbreviation NC := (@NonCanonicalOverlay BlockHash Key DBValue _ _ _ _).
Abbreviation Database := (@Database BlockHash Key DBValue _ _).
Abbreviation PruningRecord := (@PruningRecord BlockHash Key).
Abbreviation RefWindow := (@RefWindow BlockHash Key _ _).
Abbreviation StateDbSync := (@StateDbSync BlockHash Key DBValue _ _ _ _).
Abbreviation ok := (overlay_ok content number_of).
Implicit Types (s : StateDbSync) (nc : NC) (db : Database) (hist : list PruningRecord).

(** The mode, and the database the node starts with *)
Context (constraints : Constraints) (db0 : Database).
Abbreviation limit := (default 0 (max_blocks constraints)).
Abbreviation S0 := (dom (state db0)).

Definition fresh_database : Prop :=
  0 <= limit /\ contents_ok content db0 /\ forall k, state_meta db0 k = None.

Definition empty_statedb : StateDbSync :=
  mkStateDb (Constrained constraints) empty_overlay (Some (mkWindow (Mem [] ∅) 0)) ∅ true.

(** What a block changes, as the pruning journal has it *)
Definition changes_of (o : BlockOverlay) : PruningRecord := mkRecord (hash o) (inserted o) (deleted o).

(** The block is in the first level, and its changes fit the last canonical state. *)
Definition finalizable s hist (o : BlockOverlay) : Prop :=
  canonicalizable (non_canonical s) (hash o) /\ o ∈ default [] (bss_of (non_canonical s) !! 0%nat) /\
  valid_record (final S0 hist) (changes_of o).

(** The pruning journal can be found again: the window starts at 0, or a block was pruned. *)
Definition restartable s db : Prop :=
  last_canonicalized (non_canonical s) <> None /\
  forall w, sd_pruning s = Some w -> window_base w = 0 \/ state_meta db LastPrunedKey <> None.

Abbreviation Config := (StateDbSync * Database * list PruningRecord)%type.

Inductive sd_step : Config -> Config -> Prop :=
| sd_step_insert s db hist h number parent cs s' c :
    insertable content number_of (non_canonical s) h number parent cs ->
    insert_block (E := unit) h number parent cs s = (s', Ok c) ->
    sd_step (s, db, hist) (s', apply_state_commit db c, hist)
| sd_step_insert_error s db hist h number parent cs s' e :
    insertable content number_of (non_canonical s) h number parent cs ->
    insert_block (E := unit) h number parent cs s = (s', Err e) ->
    sd_step (s, db, hist) (s', db, hist)
| sd_step_canonicalize s db hist o s' c :
    finalizable s hist o -> canonicalize_block (E := unit) (get_meta db) (hash o) s = (s', Ok c) ->
    sd_step (s, db, hist) (s', apply_state_commit db c, hist ++ [changes_of o])
| sd_step_revert_one s db hist s' c :
    sd_revert_one s = (s', c) -> sd_step (s, db, hist) (s', apply_opt db c, hist)
| sd_step_remove s db hist h s' c :
    sd_remove h s = (s', c) -> sd_step (s, db, hist) (s', apply_opt db c, hist)
| sd_step_pin s db hist h number hint s' r :
    default 0 (pinned (non_canonical s) !! h) + 1 < 2 ^ 32 ->
    sd_pin (E := unit) h number hint s = (s', r) -> sd_step (s, db, hist) (s', db, hist)
| sd_step_unpin s db hist h s' :
    sd_unpin h s = Some s' -> sd_step (s, db, hist) (s', db, hist)
| sd_step_sync s db hist s' :
    sd_sync s = Some s' -> sd_step (s, db, hist) (s', db, hist)
| sd_step_restart s db hist s' fuel :
    restartable s db -> (length (levels (non_canonical s)) <= fuel)%nat -> (length hist <= fuel)%nat ->
    reset (E := unit) (get_meta db) fuel s = Ok s' -> sd_step (s, db, hist) (s', db, hist).

Definition sd_reachable s db hist : Prop := rtc sd_step (empty_statedb, db0, []) (s, db, hist).

(** ** The invariant *)

(** The window ends with the last canonicalized block, unless nothing was canonicalized yet. *)
Definition coupled nc (w : RefWindow) (recs : list PruningRecord) : Prop :=
  (window_base w = 0 /\ recs = []) \/ front_block_number nc = window_base w + Z.of_nat (length recs).

Record windowed nc db hist (w : RefWindow) (gone recs : list PruningRecord) : Prop := mkWindowed {
  wd_hist : hist = gone ++ recs;
  wd_window : window_ok w (final S0 gone) recs;
  wd_journal : prune_journaled db (window_base w) recs;
  wd_coupled : coupled nc w recs;
  wd_state : dom (state db) = ⋃ states_from (final S0 gone) recs
}.

Record sd_good s db hist : Prop := mkSdGood {
  sg_mode : mode s = Constrained constraints;
  sg_counting : ref_counting s = true;
  sg_overlay : ok (non_canonical s);
  sg_journaled : journaled content db (non_canonical s);
  sg_contents : contents_ok content db;
  sg_window : exists w gone recs, sd_pruning s = Some w /\ windowed (non_canonical s) db hist w gone recs
}.

Lemma empty_good : fresh_database -> sd_good empty_statedb db0 [].
Proof.
  intros (Hl & Hc & Hm). split; try done; [apply empty_ok| |].
  - split; [cbn; by rewrite Hm|intros o p Ho; by apply elem_of_nil in Ho|]. intros n i v. by rewrite Hm.
  - eexists _, [], []. split; [done|]. split; [done| | |by left|cbn; set_solver].
    + eexists _, _. split; [done|]. by apply mem_empty.
    + split; [done|intros m v; by rewrite Hm|left; apply Hm].
Qed.

(** ** Steps of the overlay *)

(** Neither the nodes nor the pruning journal change. *)
Definition quiet db db' : Prop :=
  state db' = state db /\ forall k, ~ overlay_key k -> state_meta db' k = state_meta db k.

Lemma quiet_refl db : quiet db db.
Proof. done. Qed.

Lemma quiet_commit db (c : CommitSet) :
  overlay_commit c -> data c = mkChangeSet [] [] -> quiet db (apply_state_commit db c).
Proof.
  intros Hc Hd. split; [by rewrite apply_state, Hd|]. intros k Hk. by apply overlay_commit_meta.
Qed.

Lemma windowed_quiet nc nc' db db' hist w gone recs :
  windowed nc db hist w gone recs -> quiet db db' ->
  last_canonicalized nc' = last_canonicalized nc \/ last_canonicalized nc = None ->
  windowed nc' db' hist w gone recs.
Proof.
  intros [Hh Hw [Hr Ho Hp] Hc Hs] [Hst Hq] Hl. split; try done; [| |by rewrite Hst].
  - split; [intros i r Hi; rewrite Hq by (by intros []); auto| |by rewrite Hq by (by intros [])].
    intros m v. rewrite Hq by (by intros []). apply Ho.
  - unfold coupled, front_block_number in *. destruct Hl as [->|Hn]; [done|]. rewrite Hn in Hc. left.
    destruct Hc as [?|Hc]; [done|]. pose proof (window_range _ _ _ Hw) as Hb.
    destruct recs; cbn [length] in *; [split; [lia|done]|lia].
Qed.

Lemma good_overlay s nc' pins db db' hist :
  sd_good s db hist -> good content number_of (nc', db') -> quiet db db' ->
  last_canonicalized nc' = last_canonicalized (non_canonical s) \/ last_canonicalized (non_canonical s) = None ->
  sd_good (with_pinned (with_non_canonical s nc') pins) db' hist.
Proof.
  intros [Hm Hr Hok Hj Hc (w & gone & recs & Hw & Hwd)] [Hok' Hj'] Hq Hl. split; try done.
  - unfold contents_ok. by destruct Hq as [-> _].
  - exists w, gone, recs. split; [done|]. by eapply windowed_quiet.
Qed.

Lemma with_pinned_same s nc : with_pinned (with_non_canonical s nc) (sd_pinned s) = with_non_canonical s nc.
Proof. by destruct s. Qed.

Lemma with_non_canonical_same s : with_non_canonical s (non_canonical s) = s.
Proof. by destruct s. Qed.

Lemma good_same_pins s nc' db db' hist :
  sd_good s db hist -> good content number_of (nc', db') -> quiet db db' ->
  last_canonicalized nc' = last_canonicalized (non_canonical s) \/ last_canonicalized (non_canonical s) = None ->
  sd_good (with_non_canonical s nc') db' hist.
Proof. rewrite <-with_pinned_same. apply good_overlay. Qed.

Lemma sg_good s db hist : sd_good s db hist -> good content number_of (non_canonical s, db).
Proof. intros Hg. split; apply Hg. Qed.

Lemma journal_keys_overlay nc (bs : list BlockOverlay) :
  ok nc -> (forall o, o ∈ bs -> o ∈ concat (bss_of nc)) -> Forall overlay_key (journal_key <$> bs).
Proof.
  intros Hok Hin. apply Forall_forall. intros k (o & -> & Ho)%list_elem_of_fmap.
  by rewrite (journal_key_eq content number_of nc) by auto.
Qed.

Lemma good_insert s db hist h number parent cs s' r :
  sd_good s db hist -> insertable content number_of (non_canonical s) h number parent cs ->
  insert_block (E := unit) h number parent cs s = (s', r) ->
  match r with
  | Ok c => sd_good s' (apply_state_commit db c) hist
  | Err _ => s' = s
  | Panic => False
  end.
Proof.
  intros Hg Hins Hrun. unfold insert_block, on_overlay, bindM, getM in Hrun. rewrite (sg_mode _ _ _ Hg) in Hrun.
  destruct (insert_cases _ _ (non_canonical s) h number parent cs (sg_overlay _ _ _ Hg) Hins)
    as [(e & Heq & _)|(i & index & Hpl & Heq)]; rewrite Heq in Hrun; simplify_eq.
  - apply with_non_canonical_same.
  - apply (good_same_pins s _ db); [done| | |].
    + eapply step_good; [by eapply (step_insert content number_of)|by apply (sg_good s db hist)].
    + apply quiet_commit.
      * unfold commit_after. split; destruct (last_canonicalized _); cbn; try case_match; repeat constructor.
      * unfold commit_after. destruct (last_canonicalized _); cbn; try case_match; done.
    + cbn. unfold last_after. destruct (last_canonicalized (non_canonical s)); [by left|by right].
Qed.

Lemma good_revert s db hist : sd_good s db hist ->
  sd_good (sd_revert_one s).1 (apply_opt db (sd_revert_one s).2) hist.
Proof.
  intros Hg. unfold sd_revert_one. rewrite (sg_mode _ _ _ Hg). pose proof (sg_overlay _ _ _ Hg) as Hok.
  pose proof (revert_one_ok _ _ _ Hok) as Hr. destruct (revert_one (non_canonical s)) as [nc r] eqn:Hrun. cbn.
  apply (good_same_pins s _ db); [done|eapply step_good; [by apply (step_revert_one content number_of)|by apply (sg_good s db hist)]| |].
  - destruct Hr as (_ & _ & [(_ & _ & ->)|(bss & bs & Hb & _ & -> & _)]); [apply quiet_refl|].
    apply quiet_commit; [|done]. split; [constructor|]. cbn. apply (journal_keys_overlay (non_canonical s)); [done|].
    intros o Ho. rewrite Hb, concat_app, elem_of_app. right. cbn. by rewrite app_nil_r.
  - left. destruct Hr as (_ & _ & [(_ & -> & _)|(bss & bs & _ & _ & _ & Hl & _)]); done.
Qed.

Lemma good_remove s db hist h : sd_good s db hist ->
  sd_good (sd_remove h s).1 (apply_opt db (sd_remove h s).2) hist.
Proof.
  intros Hg. unfold sd_remove. rewrite (sg_mode _ _ _ Hg). pose proof (sg_overlay _ _ _ Hg) as Hok.
  pose proof (remove_ok _ _ _ h Hok) as Hr. destruct (remove h (non_canonical s)) as [nc r] eqn:Hrun. cbn.
  apply (good_same_pins s _ db); [done|eapply step_good; [by eapply (step_remove content number_of)|by apply (sg_good s db hist)]| |].
  - destruct Hr as (_ & _ & _ & _ & [[-> _]|(i & l1 & o & l2 & Hi & _ & _ & ->)]); [apply quiet_refl|].
    apply quiet_commit; [|done]. split; [constructor|]. cbn.
    apply (journal_keys_overlay (non_canonical s) [o]); [done|].
    intros o' ->%list_elem_of_singleton. apply elem_of_levels. exists i, (l1 ++ o :: l2).
    split; [done|]. apply elem_of_app. right. left.
  - left. apply Hr.
Qed.

Lemma good_pin s db hist h number hint : sd_good s db hist ->
  default 0 (pinned (non_canonical s) !! h) + 1 < 2 ^ 32 -> sd_good (sd_pin (E := unit) h number hint s).1 db hist.
Proof.
  intros Hg Hp. unfold sd_pin. rewrite (sg_mode _ _ _ Hg).
  destruct (sd_have_block s h number hint) as [[]|e|]; cbn; [|done..].
  case_match; [|rewrite <-(with_non_canonical_same s) at 1];
    (apply (good_overlay s _ _ db); [done| |apply quiet_refl|by left]).
  - eapply step_good; [by apply (step_pin content number_of)|by apply (sg_good s db hist)].
  - by apply (sg_good s db hist).
Qed.

Lemma good_unpin s db hist h : sd_good s db hist ->
  exists s', sd_unpin h s = Some s' /\ sd_good s' db hist /\ sd_pruning s' = sd_pruning s.
Proof.
  intros Hg. unfold sd_unpin. destruct (sd_pinned s !! h) as [n|]; [|by exists s]. case_match.
  - destruct (unpin_ok content number_of (non_canonical s) h (sg_overlay _ _ _ Hg)) as (nc & Hu & _ & [Hl _ _] & _).
    rewrite Hu. cbn. eexists. split; [done|]. split; [|done].
    apply (good_overlay s _ _ db); [done| |apply quiet_refl|by left].
    eapply step_good; [by eapply (step_unpin content number_of)|by apply (sg_good s db hist)].
  - eexists. split; [done|]. split; [|done]. rewrite <-(with_non_canonical_same s) at 1.
    apply (good_overlay s _ _ db); [done|by apply (sg_good s db hist)|apply quiet_refl|by left].
Qed.

Lemma good_sync s db hist : sd_good s db hist ->
  exists s', sd_sync s = Some s' /\ sd_good s' db hist /\ sd_pruning s' = sd_pruning s.
Proof.
  intros Hg. unfold sd_sync. destruct (sync_ok content number_of _ (sg_overlay _ _ _ Hg)) as (nc & Hs & _ & Hl & _).
  rewrite Hs. cbn. eexists. split; [done|]. split; [|done].
  apply (good_same_pins s _ db); [done| |apply quiet_refl|by left].
  eapply step_good; [by apply (step_sync content number_of)|by apply (sg_good s db hist)].
Qed.

(** ** Canonicalizing *)

Lemma journaled_ext db db' nc :
  journaled content db nc -> (forall k, overlay_key k -> state_meta db' k = state_meta db k) ->
  ok nc -> journaled content db' nc.
Proof.
  intros [Hl Hb Ho] He Hok. split; [by rewrite He| |intros n i v; rewrite He by done; apply Ho].
  intros o p Hin Hp. rewrite He by (by rewrite (journal_key_eq content number_of nc)). by apply Hb.
Qed.

Lemma final_in_states S (recs : list PruningRecord) : final S recs ⊆ ⋃ states_from S recs.
Proof.
  intros k Hk. apply (elem_of_union_last (states_from S recs) 0 (final S recs)); [apply states_last| |done].
  rewrite length_states. lia.
Qed.

(** The nodes of one more state *)
Lemma states_add S (recs : list PruningRecord) r :
  ⋃ states_from S (recs ++ [r]) = ⋃ states_from S recs ∪ list_to_set (pr_inserted r).
Proof.
  rewrite states_snoc, union_list_snoc. pose proof (final_in_states S recs) as Hf. unfold next_state.
  apply set_eq. intros k. rewrite !elem_of_union, elem_of_difference. specialize (Hf k). tauto.
Qed.

Lemma canonical_noted nc (o : BlockOverlay) js :
  noted (hash o) (canonical_commit content nc o default_commit js) = changes_of o.
Proof.
  unfold noted, changes_of. cbn. f_equal. rewrite <-list_fmap_compose. apply list_fmap_id.
Qed.

Lemma canonical_overlay_commit nc l1 (o : BlockOverlay) l2 bss js :
  ok nc -> bss_of nc = (l1 ++ o :: l2) :: bss ->
  js ≡ₚ journal_key <$> (l1 ++ o :: l2) ++ dropped (parents nc) bss (hash <$> l1 ++ l2) ->
  overlay_commit (canonical_commit content nc o default_commit js).
Proof.
  intros Hok Hb Hjs. split; [repeat constructor|]. cbn. rewrite Hjs. apply (journal_keys_overlay nc); [done|].
  intros b. rewrite Hb. cbn [concat]. rewrite !elem_of_app. intros [?|Hd]; [by left|right].
  by eapply elem_of_dropped.
Qed.

Lemma coupled_continues nc (w : RefWindow) recs :
  ok nc -> coupled nc w recs -> continues w recs (front_block_number nc).
Proof.
  intros Hok [[Hb ->]|Hf]; [|by left]. pose proof (front_nonneg _ _ _ Hok) as Hn. unfold continues.
  destruct (decide (front_block_number nc = 0)) as [->|Hne]; [left; rewrite Hb; done|right; split_and!; [done..|lia]].
Qed.

(** What is left of the window's blocks once the oldest are pruned *)
Record canonicalized s db hist (o : BlockOverlay) (w : RefWindow) (gone recs : list PruningRecord)
    s' (c : CommitSet) (w' : RefWindow) (more rest : list PruningRecord) : Prop := mkCanonicalized {
  cz_blocks : recs ++ [changes_of o] = more ++ rest;
  cz_pruning : sd_pruning s' = Some w';
  cz_pinned : sd_pinned s' = sd_pinned s;
  cz_last : last_canonicalized (non_canonical s') = Some (hash o, front_block_number (non_canonical s));
  cz_good : sd_good s' (apply_state_commit db c) (hist ++ [changes_of o]);
  cz_windowed : windowed (non_canonical s') (apply_state_commit db c) (hist ++ [changes_of o]) w' (gone ++ more) rest;
  cz_stops : stops limit (sd_pinned s) rest;
  cz_unpinned : forall r, r ∈ more -> sd_pinned s !! pr_hash r = None;
  cz_enough : more = [] \/ limit <= Z.of_nat (length rest)
}.

Lemma canonicalize_state db S (recs more rest : list PruningRecord) o (c : CommitSet) dels :
  dom (state db) = ⋃ states_from S recs -> recs ++ [changes_of o] = more ++ rest ->
  (cs_inserted (data c)).*1 = inserted o -> cs_deleted (data c) = dels ->
  list_to_set dels = ⋃ states_from S (more ++ rest) ∖ ⋃ states_from (final S more) rest ->
  dom (state (apply_state_commit db c)) = ⋃ states_from (final S more) rest.
Proof.
  intros Hdom Heq Hins Hdel Hdels. rewrite apply_dom, Hdom, Hins, Hdel, Hdels.
  pose proof (states_drop more rest S) as Hsub. revert Hsub. rewrite <-Heq, states_add. cbn [pr_inserted changes_of].
  generalize (⋃ states_from (final S more) rest) (⋃ states_from S recs ∪ list_to_set (inserted o)).
  intros B A Hsub. apply set_eq. intros k. rewrite !elem_of_difference. specialize (Hsub k).
  destruct (decide (k ∈ B)); tauto.
Qed.

Lemma final_app S (l l' : list PruningRecord) : final S (l ++ l') = final (final S l) l'.
Proof. unfold final. by rewrite foldl_app. Qed.

(** The window and the database after a block was noted and the oldest were pruned *)
Lemma windowed_after nc nc' db hist o js w gone recs w1 w' more rest dels :
  let c0 := canonical_commit content nc o default_commit js in
  let number := front_block_number nc in
  windowed nc db hist w gone recs -> ok nc -> ok nc' -> overlay_commit c0 ->
  last_canonicalized nc' = Some (hash o, number) ->
  window_ok w1 (final S0 gone) (recs ++ [changes_of o]) -> window_base w1 = number - Z.of_nat (length recs) ->
  recs ++ [changes_of o] = more ++ rest ->
  window_ok w' (final (final S0 gone) more) rest -> window_base w' = window_base w1 + Z.of_nat (length more) ->
  list_to_set dels = ⋃ states_from (final S0 gone) (recs ++ [changes_of o]) ∖
    ⋃ states_from (final (final S0 gone) more) rest ->
  windowed nc' (apply_state_commit db (pruned_commit (window_base w1) (length more) dels (noted_commit (hash o) number c0)))
    (hist ++ [changes_of o]) w' (gone ++ more) rest.
Proof.
  intros c0 number [Hh Hwin Hpj Hcp Hst] Hok Hok' Hov Hlast Hw1 Hb1 Heq Hw' Hbw' Hdels.
  pose proof (canonical_noted nc o js) as Hnoted. fold c0 in Hnoted. split.
  - by rewrite Hh, <-!app_assoc, Heq.
  - by rewrite final_app.
  - rewrite Hbw', Hb1. apply (pj_full db w recs); try done; [by apply coupled_continues|by rewrite Hnoted|].
    rewrite <-Hb1. apply (window_range _ _ _ Hw1).
  - right. rewrite Hbw', Hb1. rewrite (front_some _ _ _ _ _ Hok' Hlast).
    apply (f_equal length) in Heq. rewrite !length_app in Heq. cbn in Heq. lia.
  - rewrite final_app. eapply canonicalize_state; try done.
    + exact (f_equal pr_inserted Hnoted).
    + by rewrite <-Heq.
Qed.

Lemma canonicalize_block_run s db hist o w gone recs :
  0 <= limit -> sd_good s db hist -> finalizable s hist o -> sd_pruning s = Some w ->
  windowed (non_canonical s) db hist w gone recs ->
  exists s' c w' more rest,
    canonicalize_block (E := unit) (get_meta db) (hash o) s = (s', Ok c) /\
    canonicalized s db hist o w gone recs s' c w' more rest.
Proof.
  intros Hlim [Hm Hrc Hok Hj Hc _] ([_ Hp] & Hin & Hv) Hw Hwd.
  destruct (bss_of (non_canonical s)) as [|bs bss] eqn:Hb; [by apply elem_of_nil in Hin|]. cbn in Hin.
  apply list_elem_of_split in Hin as (l1 & l2 & ->).
  destruct (canonicalize_run content number_of _ l1 o l2 bss Hok Hb default_commit Hp)
    as (nc' & js & Hrun & Hok' & Hlast & Hb' & _ & _ & Hjs & Hout).
  set (c0 := canonical_commit content (non_canonical s) o default_commit js) in *.
  set (number := front_block_number (non_canonical s)) in *.
  pose proof (canonical_overlay_commit _ _ _ _ _ _ Hok Hb Hjs) as Hov. fold c0 in Hov.
  pose proof (canonical_noted (non_canonical s) o js) as Hnoted. fold c0 in Hnoted.
  pose proof (ok_last _ _ _ Hok' _ _ Hlast) as Hn.
  destruct (note_canonical_ok (E := unit) w (final S0 gone) recs (hash o) number c0
    (wd_window _ _ _ _ _ _ Hwd)) as (w1 & Hnote & Hb1 & Hw1).
  { rewrite Hnoted, <-final_app, <-(wd_hist _ _ _ _ _ _ Hwd). exact Hv. }
  { by apply coupled_continues, Hwd. }
  { lia. }
  rewrite Hnoted in Hw1.
  destruct (prune_loop_ok (E := unit) (get_meta db) limit (sd_pinned s) _ (Z.to_nat (window_size w1)) w1 _
    (noted_commit (hash o) number c0) Hw1) as (more & rest & w' & dels & Heq & Hloop & Hw' & Hbw' & Hdels & Hstop & Hpins & Hen).
  { rewrite (window_size_ok _ _ _ Hw1). lia. }
  { done. }
  eexists _, _, w', more, rest. split.
  { unfold canonicalize_block, prune_blocks, on_overlay, on_window, bindM, getM. rewrite Hm, Hw.
    rewrite decide_False by done. rewrite Hrun. fold c0.
    rewrite decide_False by done. rewrite Hnote. cbn [with_pruning sd_pruning mode with_non_canonical sd_pinned].
    rewrite Hm, Hloop. reflexivity. }
  pose proof (windowed_after _ nc' db hist o js w gone recs w1 w' more rest dels Hwd Hok Hok' Hov Hlast Hw1 Hb1
    Heq Hw' Hbw' Hdels) as Hwd'.
  split; try done. split; try done.
  - eapply journaled_ext; [|intros k; by apply full_overlay|done].
    eapply (journaled_canonicalize content number_of); try done. apply Hout.
  - apply apply_contents; [done|]. cbn. apply Forall_forall. intros kv (k & -> & _)%list_elem_of_fmap. done.
  - by eexists _, _, _.
Qed.

(** ** Restarting *)

Lemma good_restart s db hist fuel w :
  sd_good s db hist -> restartable s db -> (length (levels (non_canonical s)) <= fuel)%nat ->
  (length hist <= fuel)%nat -> sd_pruning s = Some w ->
  exists s', reset (E := unit) (get_meta db) fuel s = Ok s' /\ sd_good s' db hist /\ sd_pruning s' = Some w /\
    sd_pinned s' = ∅ /\ last_canonicalized (non_canonical s') = last_canonicalized (non_canonical s) /\
    Forall2 (≡ₚ) (bss_of (non_canonical s')) (filled (bss_of (non_canonical s))).
Proof.
  intros [Hm Hrc Hok Hj Hc (w0 & gone & recs & Hw0 & Hwd)] [Hl Hst] Hf Hfh Hw.
  rewrite Hw in Hw0. injection Hw0 as <-. specialize (Hst w Hw).
  destruct (last_canonicalized (non_canonical s)) as [[h n]|] eqn:Hlast; [|done].
  destruct (new_ok content number_of db _ Hok Hj (E := unit) fuel h n Hlast)
    as (nc & Hnew & Hok' & Hj' & Hl' & Hp & Hpi & Hperm); [by rewrite length_bss|].
  destruct (windowed_quiet _ nc _ db _ _ _ _ Hwd (quiet_refl db) (or_introl Hl')) as [Hh Hwin Hpj Hcp Hdom].
  assert (new_window (E := unit) (get_meta db) fuel limit true = Ok w) as Hneww.
  { eapply (new_window_ok db w); try done; [apply (jd_last _ _ _ Hj)|]. rewrite Hh, length_app in Hfh. lia. }
  unfold reset, new_sync. rewrite Hm, Hrc, Hnew. cbn [res_bind]. rewrite Hneww. cbn [res_bind].
  eexists. split; [done|]. split; [|split; [done|split; [done|split; [cbn; congruence|done]]]].
  split; try done. by exists w, gone, recs.
Qed.

Lemma sd_step_good x y : 0 <= limit -> sd_step x y -> sd_good x.1.1 x.1.2 x.2 -> sd_good y.1.1 y.1.2 y.2.
Proof.
  intros Hlim. destruct 1 as [s db hist h number parent cs s' c Hi Hrun|s db hist h number parent cs s' e Hi Hrun
    |s db hist o s' c Hf Hrun|s db hist s' c Hrun|s db hist h s' c Hrun|s db hist h number hint s' r Hp Hrun
    |s db hist h s' Hrun|s db hist s' Hrun|s db hist s' fuel Hr Hf Hf' Hrun]; cbn [fst snd]; intros Hg.
  - apply (good_insert s db hist h number parent cs s' (Ok c)); done.
  - by rewrite (good_insert s db hist h number parent cs s' (Err e)).
  - destruct (sg_window _ _ _ Hg) as (w & gone & recs & Hw & Hwd).
    destruct (canonicalize_block_run s db hist o w gone recs Hlim Hg Hf Hw Hwd) as (s1 & c1 & w1 & more & rest & Heq & Hcz).
    rewrite Heq in Hrun. simplify_eq. apply Hcz.
  - pose proof (good_revert s db hist Hg) as Hg'. by rewrite Hrun in Hg'.
  - pose proof (good_remove s db hist h Hg) as Hg'. by rewrite Hrun in Hg'.
  - pose proof (good_pin s db hist h number hint Hg Hp) as Hg'. by rewrite Hrun in Hg'.
  - destruct (good_unpin s db hist h Hg) as (s1 & Heq & Hg' & _). congruence.
  - destruct (good_sync s db hist Hg) as (s1 & Heq & Hg' & _). congruence.
  - destruct (sg_window _ _ _ Hg) as (w & gone & recs & Hw & Hwd).
    destruct (good_restart s db hist fuel w Hg Hr Hf Hf' Hw) as (s1 & Heq & Hg' & _). congruence.
Qed.

Lemma sd_reachable_good s db hist : fresh_database -> sd_reachable s db hist -> sd_good s db hist.
Proof.
  intros Hfresh Hr. change (sd_good (s, db, hist).1.1 (s, db, hist).1.2 (s, db, hist).2).
  revert Hr. unfold sd_reachable. generalize (s, db, hist). intros y Hy.
  assert (sd_good (empty_statedb, db0, @nil PruningRecord).1.1 (empty_statedb, db0, @nil PruningRecord).1.2
    (empty_statedb, db0, @nil PruningRecord).2) as Hg by (by apply empty_good).
  induction Hy as [|x y z Hxy _ IH]; [done|]. apply IH. apply (sd_step_good x y); [apply Hfresh|done..].
Qed.

(** ** What the state database promises *)

Lemma states_suffix (gone recs : list PruningRecord) : forall S,
  drop (length gone) (states_from S (gone ++ recs)) = states_from (final S gone) recs.
Proof. induction gone as [|r gone IH]; intros S; [done|]. cbn. apply IH. Qed.

(** The states in the window: the one below it, and one for every block in it *)
Definition window_states hist (w : RefWindow) : list (gset Key) :=
  drop (length hist - Z.to_nat (window_size w)) (states_from S0 hist).

(** The blocks in the window *)
Definition window_blocks hist (w : RefWindow) : list PruningRecord :=
  drop (length hist - Z.to_nat (window_size w)) hist.

Lemma windowed_blocks nc db hist w gone recs :
  windowed nc db hist w gone recs -> window_blocks hist w = recs.
Proof.
  intros [Hh Hw _ _ _]. unfold window_blocks. rewrite (window_size_ok _ _ _ Hw), Hh, length_app.
  replace (length gone + length recs - Z.to_nat (Z.of_nat (length recs)))%nat with (length gone) by lia.
  apply drop_app_length.
Qed.

Lemma windowed_states nc db hist w gone recs :
  windowed nc db hist w gone recs -> window_states hist w = states_from (final S0 gone) recs.
Proof.
  intros [Hh Hw _ _ _]. unfold window_states. rewrite (window_size_ok _ _ _ Hw), Hh, length_app.
  replace (length gone + length recs - Z.to_nat (Z.of_nat (length recs)))%nat with (length gone) by lia.
  apply states_suffix.
Qed.

(** [C2] In every configuration that can be reached, the column of the trie nodes holds exactly
    the nodes of the states in the pruning window, each with its value: no node of these states
    was deleted, and none is left of the states before. *)
Theorem database_exact s db hist :
  fresh_database -> sd_reachable s db hist ->
  exists w, sd_pruning s = Some w /\ dom (state db) = ⋃ window_states hist w /\
    (forall k v, state db !! k = Some v -> v = content k) /\
    (length (window_states hist w) = S (Z.to_nat (window_size w)))%nat.
Proof.
  intros Hf Hr. destruct (sd_reachable_good s db hist Hf Hr) as [_ _ _ _ Hc (w & gone & recs & Hw & Hwd)].
  exists w. rewrite (windowed_states _ _ _ _ _ _ Hwd). split; [done|]. split; [apply Hwd|]. split; [apply Hc|].
  by rewrite length_states, (window_size_ok _ _ _ (wd_window _ _ _ _ _ _ Hwd)), Nat2Z.id.
Qed.

(** [C10] Canonicalizing a block of the first level succeeds.  The block joins the window, then
    the oldest blocks leave it: none of them is pinned, and no more than needed are pruned; the
    window ends up with at most [max_blocks] blocks, or its oldest block is pinned. *)
Theorem canonicalize_block_correct s db hist o :
  fresh_database -> sd_reachable s db hist -> finalizable s hist o ->
  exists w s' c w' pruned,
    sd_pruning s = Some w /\
    canonicalize_block (E := unit) (get_meta db) (hash o) s = (s', Ok c) /\ sd_pruning s' = Some w' /\
    last_canonicalized (non_canonical s') = Some (hash o, front_block_number (non_canonical s)) /\
    window_blocks hist w ++ [changes_of o] = pruned ++ window_blocks (hist ++ [changes_of o]) w' /\
    (forall r, r ∈ pruned -> sd_pinned s !! pr_hash r = None) /\
    (pruned = [] \/ limit <= window_size w') /\
    (window_size w' <= limit \/
     exists r, head (window_blocks (hist ++ [changes_of o]) w') = Some r /\ is_Some (sd_pinned s !! pr_hash r)).
Proof.
  intros Hf Hr Ho. pose proof (sd_reachable_good s db hist Hf Hr) as Hg.
  destruct (sg_window _ _ _ Hg) as (w & gone & recs & Hw & Hwd).
  destruct (canonicalize_block_run s db hist o w gone recs (proj1 Hf) Hg Ho Hw Hwd)
    as (s' & c & w' & more & rest & Hrun & [Hb Hp' Hpin Hl _ Hwd' Hstop Hun Hen]).
  exists w, s', c, w', more. rewrite (windowed_blocks _ _ _ _ _ _ Hwd), (windowed_blocks _ _ _ _ _ _ Hwd').
  rewrite (window_size_ok _ _ _ (wd_window _ _ _ _ _ _ Hwd')). by split_and!.
Qed.

(** A state in the window before, whose block is not pruned *)
Lemma state_stays T (recs more rest : list PruningRecord) r i St :
  recs ++ [r] = more ++ rest -> (length more <= i)%nat -> states_from T recs !! S i = Some St ->
  St ⊆ ⋃ states_from (final T more) rest.
Proof.
  intros Heq Hle Hst k Hk. rewrite <-states_suffix, <-Heq, states_snoc.
  apply elem_of_union_list. exists St. split; [|done].
  apply list_elem_of_lookup. exists (S i - length more)%nat. rewrite lookup_drop.
  replace (length more + (S i - length more))%nat with (S i) by lia. by apply lookup_app_l_Some.
Qed.

(** [C11] Canonicalizing does not take away the state of a pinned block: a block in the window
    that is pinned stays in the window, and all nodes of its state stay in the database. *)
Theorem pinned_state_kept s db hist w o s' c i r St :
  fresh_database -> sd_reachable s db hist -> finalizable s hist o -> sd_pruning s = Some w ->
  canonicalize_block (E := unit) (get_meta db) (hash o) s = (s', Ok c) ->
  window_blocks hist w !! i = Some r -> window_states hist w !! S i = Some St ->
  is_Some (sd_pinned s !! pr_hash r) ->
  (exists w', sd_pruning s' = Some w' /\ r ∈ window_blocks (hist ++ [changes_of o]) w') /\
  forall k, k ∈ St -> state (apply_state_commit db c) !! k = Some (content k).
Proof.
  intros Hf Hr Ho Hw Hrun Hi Hst Hpin. pose proof (sd_reachable_good s db hist Hf Hr) as Hg.
  destruct (sg_window _ _ _ Hg) as (w0 & gone & recs & Hw0 & Hwd). rewrite Hw in Hw0. injection Hw0 as <-.
  destruct (canonicalize_block_run s db hist o w gone recs (proj1 Hf) Hg Ho Hw Hwd)
    as (s1 & c1 & w' & more & rest & Hrun1 & [Hb Hp' _ _ Hg' Hwd' _ Hun _]). rewrite Hrun in Hrun1. simplify_eq.
  rewrite (windowed_blocks _ _ _ _ _ _ Hwd) in Hi. rewrite (windowed_states _ _ _ _ _ _ Hwd) in Hst.
  assert ((more ++ rest) !! i = Some r) as Hi' by (rewrite <-Hb; by apply lookup_app_l_Some).
  apply lookup_app_Some in Hi' as [Hi'|[Hle Hi']].
  { apply list_elem_of_lookup_2, Hun in Hi'. rewrite Hi' in Hpin. by destruct Hpin. }
  split.
  - exists w'. split; [done|]. rewrite (windowed_blocks _ _ _ _ _ _ Hwd'). by eapply list_elem_of_lookup_2.
  - intros k Hk. apply contents_get; [apply Hg'|]. rewrite (wd_state _ _ _ _ _ _ Hwd'), final_app.
    by eapply (state_stays _ recs).
Qed.

(** The state of a block that is not canonical yet: its changes on top of its parent's state *)
Inductive state_at s hist : BlockHash -> gset Key -> Prop :=
| at_first o : o ∈ default [] (bss_of (non_canonical s) !! 0%nat) ->
    state_at s hist (hash o) (next_state (final S0 hist) (changes_of o))
| at_child o p St : o ∈ concat (drop 1 (bss_of (non_canonical s))) ->
    parents (non_canonical s) !! hash o = Some p -> state_at s hist p St ->
    state_at s hist (hash o) (next_state St (changes_of o)).

Lemma state_at_total s hist i bs o :
  ok (non_canonical s) -> bss_of (non_canonical s) !! i = Some bs -> o ∈ bs -> exists St, state_at s hist (hash o) St.
Proof.
  intros Hok. revert bs o. induction i as [|i IH]; intros bs o Hi Ho.
  - eexists. apply at_first. by rewrite Hi.
  - destruct (ok_linked _ _ _ Hok i bs o Hi Ho) as (bs' & p & Hi' & Hp & (o' & -> & Ho')%list_elem_of_fmap).
    destruct (IH bs' o' Hi' Ho') as [St HSt]. eexists. eapply at_child; [|done..].
    apply elem_of_levels. exists i, bs. by rewrite lookup_drop.
Qed.

(** The column of the trie nodes *)
Definition node_get db (k : Key) : res unit (option DBValue) := Ok (state db !! k).

Lemma sd_get_ok s db hist k :
  sd_good s db hist -> k ∈ keys_of (non_canonical s) \/ k ∈ dom (state db) ->
  sd_get (node_get db) s k = Ok (Some (content k)).
Proof.
  intros Hg Hk. unfold sd_get. rewrite (get_ok content number_of) by apply Hg. case_decide; [done|].
  destruct Hk as [?|Hk]; [done|]. unfold node_get. by rewrite (contents_get content) by (done || apply Hg).
Qed.

Lemma inserted_key nc (o : BlockOverlay) k : o ∈ concat (bss_of nc) -> k ∈ inserted o -> k ∈ keys_of nc.
Proof.
  intros Ho Hk. unfold keys_of, all_keys. apply elem_of_app. left. apply elem_of_inserted. eauto.
Qed.

Lemma state_at_keys s db hist h St k :
  sd_good s db hist -> state_at s hist h St -> k ∈ St -> k ∈ keys_of (non_canonical s) \/ k ∈ dom (state db).
Proof.
  intros Hg Hat. destruct (sg_window _ _ _ Hg) as (w & gone & recs & _ & Hwd).
  induction Hat as [o Ho|o p St Ho Hp _ IH]; unfold next_state; rewrite elem_of_union, elem_of_difference, !elem_of_list_to_set.
  - intros [[Hk _]|Hk].
    + right. rewrite (wd_state _ _ _ _ _ _ Hwd). apply final_in_states. rewrite <-final_app. by rewrite <-(wd_hist _ _ _ _ _ _ Hwd).
    + left. apply (inserted_key _ o); [|done]. destruct (bss_of (non_canonical s)); cbn in *; [by apply elem_of_nil in Ho|].
      apply elem_of_app. by left.
  - intros [[Hk _]|Hk]; [by apply IH|]. left. apply (inserted_key _ o); [|done].
    destruct (bss_of (non_canonical s)); cbn in *; [by apply elem_of_nil in Ho|]. apply elem_of_app. by right.
Qed.

(** [C6] All nodes of the states above can be read: every block that is not canonical yet has a
    state, and [get] returns the value of each of its nodes; so it does for every state in the
    pruning window. *)
Theorem states_readable s db hist :
  fresh_database -> sd_reachable s db hist ->
  (forall o, o ∈ concat (bss_of (non_canonical s)) -> exists St, state_at s hist (hash o) St) /\
  (forall h St k, state_at s hist h St -> k ∈ St -> sd_get (node_get db) s k = Ok (Some (content k))) /\
  (forall w St k, sd_pruning s = Some w -> St ∈ window_states hist w -> k ∈ St ->
     sd_get (node_get db) s k = Ok (Some (content k))).
Proof.
  intros Hf Hr. pose proof (sd_reachable_good s db hist Hf Hr) as Hg. split_and!.
  - intros o (i & bs & Hi & Ho)%elem_of_levels. eapply state_at_total; [apply Hg|done..].
  - intros h St k Hat Hk. apply (sd_get_ok s db hist); [done|]. by eapply state_at_keys.
  - intros w St k Hw HSt Hk. apply (sd_get_ok s db hist); [done|]. right.
    destruct (sg_window _ _ _ Hg) as (w' & gone & recs & Hw' & Hwd). rewrite Hw in Hw'. injection Hw' as <-.
    rewrite (wd_state _ _ _ _ _ _ Hwd). rewrite (windowed_states _ _ _ _ _ _ Hwd) in HSt.
    apply elem_of_union_list. eauto.
Qed.

End steps.
