(* ===== verification/StateDbOps.v ===== *)
(** The state database: restarting, pinning, asking whether a block was pruned, the archive
    modes and opening (client/state-db/src/lib.rs). *)

From stdpp Require Import base numbers list option gmap sets fin_maps relations strings.
From S2P Require Import Prelude NonCanonical Discard NonCanonicalInv NonCanonicalOps Canonicalize Journal OverlaySteps Pruning StateDb Window StateDbSteps.

Local Open Scope Z_scope.
Local Open Scope rust_scope.

Section reachable.
Context {BlockHash Key DBValue : Type} `{Countable BlockHash} `{Countable Key}.
Context (content : Key -> DBValue) (number_of : BlockHash -> Z).
Context (constraints : Constraints) (db0 : @Database BlockHash Key DBValue _ _).
Abbreviation Database := (@Database BlockHash Key DBValue _ _).
Abbreviation PruningRecord := (@PruningRecord BlockHash Key).
Abbreviation RefWindow := (@RefWindow BlockHash Key _ _).
Abbreviation StateDbSync := (@StateDbSync BlockHash Key DBValue _ _ _ _).
Abbreviation fresh := (fresh_database content constraints db0).
Abbreviation sd_reachable := (sd_reachable content number_of constraints db0).
Abbreviation window_states := (window_states db0).
Implicit Types (s : StateDbSync) (db : Database) (hist : list PruningRecord) (w : RefWindow).

(** [C19] Restarting from the database, where the pruning journal can be found again: the window
    is the same, with the same death rows; the last canonicalized block and the blocks in every
    level are the same, and no block is pinned. *)
Theorem reset_correct s db hist fuel :
  fresh -> sd_reachable s db hist -> restartable s db ->
  (length (levels (non_canonical s)) <= fuel)%nat -> (length hist <= fuel)%nat ->
  exists s', reset (E := unit) (get_meta db) fuel s = Ok s' /\
    sd_pruning s' = sd_pruning s /\ sd_pinned s' = ∅ /\ mode s' = mode s /\
    last_canonicalized (non_canonical s') = last_canonicalized (non_canonical s) /\
    forall i, default [] (bss_of (non_canonical s') !! i) ≡ₚ default [] (bss_of (non_canonical s) !! i).
Proof.
  intros Hf Hr Hs Hl Hh. pose proof (sd_reachable_good _ _ _ _ s db hist Hf Hr) as Hg.
  destruct (sg_window _ _ _ _ _ _ _ Hg) as (w & gone & recs & Hw & Hwd).
  destruct (good_restart _ _ _ _ s db hist fuel w Hg Hs Hl Hh Hw) as (s' & Hrun & Hg' & Hw' & Hp & Hlast & Hperm).
  exists s'. rewrite Hw, (sg_mode _ _ _ _ _ _ _ Hg), (sg_mode _ _ _ _ _ _ _ Hg'). split_and!; try done.
  intros i. rewrite <-(filled_lookup content number_of _ (sg_overlay _ _ _ _ _ _ _ Hg) i).
  destruct (bss_of (non_canonical s') !! i) as [bs|] eqn:Hi.
  - destruct (Forall2_lookup_l _ _ _ _ _ Hperm Hi) as (bs' & -> & Hpm). done.
  - apply lookup_ge_None in Hi. rewrite (Forall2_length _ _ _ Hperm) in Hi. by rewrite (lookup_ge_None_2 (filled _)).
Qed.

(** The block [h] of that number is in the window. *)
Definition in_window hist w (h : BlockHash) (number : Z) : Prop :=
  window_base w <= number /\
  pr_hash <$> window_blocks hist w !! Z.to_nat (number - window_base w) = Some h.

#[global] Instance in_window_dec hist w h number : Decision (in_window hist w h number).
Proof. unfold in_window. apply _. Defined.

Lemma have_block_in_window s db hist w h number :
  sd_good content number_of constraints db0 s db hist -> sd_pruning s = Some w -> 0 <= number ->
  window_have_block (E := unit) w h number = Ok (have_of_bool (bool_decide (in_window hist w h number))).
Proof.
  intros Hg Hw Hn. destruct (sg_window _ _ _ _ _ _ _ Hg) as (w' & gone & recs & Hw' & Hwd).
  rewrite Hw in Hw'. injection Hw' as <-.
  rewrite (window_have_block_ok w _ recs h number (wd_window _ _ _ _ _ _ _ Hwd) Hn).
  do 2 f_equal. apply bool_decide_ext. unfold in_window. by rewrite (windowed_blocks _ _ _ _ _ _ _ Hwd).
Qed.

(** For a number up to the last canonicalized block, [is_pruned] answers for sure: not
    pruned means that the block is in the window, and then the database has all nodes of its
    state; pruned means that it is not in the window. *)
Theorem is_pruned_correct s db hist w h number lh n :
  fresh -> sd_reachable s db hist -> sd_pruning s = Some w ->
  last_canonicalized (non_canonical s) = Some (lh, n) -> 0 <= number <= n ->
  (is_pruned (E := unit) s h number = Ok NotPruned /\
   exists i r St, window_blocks hist w !! i = Some r /\ pr_hash r = h /\ number = window_base w + Z.of_nat i /\
     window_states hist w !! S i = Some St /\ forall k, k ∈ St -> state db !! k = Some (content k)) \/
  (is_pruned (E := unit) s h number = Ok Pruned /\ ~ in_window hist w h number).
Proof.
  intros Hf Hr Hw Hl Hn. pose proof (sd_reachable_good _ _ _ _ s db hist Hf Hr) as Hg.
  unfold is_pruned. rewrite (sg_mode _ _ _ _ _ _ _ Hg). unfold last_canonicalized_block_number. rewrite Hl.
  cbn [fmap option_fmap option_map snd]. rewrite (proj2 (Z.ltb_ge _ _)) by lia. rewrite Hw.
  rewrite (have_block_in_window s db hist w h number Hg Hw) by lia. case_bool_decide as Hin; [left|right; done].
  split; [done|]. destruct Hin as [Hb Hlk]. set (i := Z.to_nat (number - window_base w)) in *.
  destruct (window_blocks hist w !! i) as [r|] eqn:Hi; [|done]. injection Hlk as Hh.
  destruct (sg_window _ _ _ _ _ _ _ Hg) as (w' & gone & recs & Hw' & Hwd). rewrite Hw in Hw'. injection Hw' as <-.
  rewrite (windowed_blocks _ _ _ _ _ _ _ Hwd) in Hi. rewrite (windowed_states _ _ _ _ _ _ _ Hwd).
  destruct (lookup_lt_is_Some_2 (states_from (final (dom (state db0)) gone) recs) (S i)) as [St HSt].
  { rewrite length_states. apply lookup_lt_Some in Hi. lia. }
  exists i, r, St. rewrite (windowed_blocks _ _ _ _ _ _ _ Hwd). split_and!; [done|done|lia|done|].
  intros k Hk. apply contents_get; [apply Hg|]. rewrite (wd_state _ _ _ _ _ _ _ Hwd).
  apply elem_of_union_list. exists St. split; [by eapply list_elem_of_lookup_2|done].
Qed.

(** The blocks of a window that does not start at 0 are canonicalized. *)
Lemma in_window_number s db hist w lh n h number :
  sd_good content number_of constraints db0 s db hist -> sd_pruning s = Some w ->
  last_canonicalized (non_canonical s) = Some (lh, n) -> window_base w <> 0 -> in_window hist w h number ->
  0 <= number <= n.
Proof.
  intros Hg Hw Hl Hb [Hge Hlk]. destruct (sg_window _ _ _ _ _ _ _ Hg) as (w' & gone & recs & Hw' & Hwd).
  rewrite Hw in Hw'. injection Hw' as <-. rewrite (windowed_blocks _ _ _ _ _ _ _ Hwd) in Hlk.
  destruct (recs !! _) as [r|] eqn:Hi in Hlk; [|done]. apply lookup_lt_Some in Hi.
  pose proof (window_range _ _ _ (wd_window _ _ _ _ _ _ _ Hwd)) as Hrange.
  destruct (wd_coupled _ _ _ _ _ _ _ Hwd) as [[? _]|Hc]; [done|].
  unfold front_block_number in Hc. rewrite Hl in Hc.
  destruct (ok_last _ _ _ (sg_overlay _ _ _ _ _ _ _ Hg) _ _ Hl) as [_ Hn].
  rewrite wadd_small in Hc by (unfold in_range; lia). lia.
Qed.

(** The pruning journal is looked for from block 0 on, where it has no record. *)
Lemma new_window_lost s db hist w fuel :
  sd_good content number_of constraints db0 s db hist -> sd_pruning s = Some w ->
  window_base w <> 0 -> state_meta db LastPrunedKey = None ->
  new_window (E := unit) (get_meta db) fuel (default 0 (max_blocks constraints)) true = Ok (mkWindow (Mem [] ∅) 0).
Proof.
  intros Hg Hw Hb Hp. destruct (sg_window _ _ _ _ _ _ _ Hg) as (w' & gone & recs & Hw' & Hwd).
  rewrite Hw in Hw'. injection Hw' as <-.
  assert (state_meta db (PruningJournalKey 0) = None) as Hzero.
  { apply eq_None_not_Some. intros [v Hv%(pj_only _ _ _ (wd_journal _ _ _ _ _ _ _ Hwd))].
    pose proof (window_range _ _ _ (wd_window _ _ _ _ _ _ _ Hwd)). lia. }
  unfold new_window, new_mem, read_meta, get_meta. rewrite Hp. cbn [res_bind].
  rewrite (jd_last _ _ _ (sg_journaled _ _ _ _ _ _ _ Hg)).
  destruct (last_canonicalized (non_canonical s)) as [[lh ln]|]; cbn [fmap option_fmap option_map fst snd res_bind];
    destruct fuel; cbn; by rewrite Hzero.
Qed.

(** [C38] Restarting while the window starts with a later block and no block was pruned yet: the
    window is then empty and starts at 0.  A block of the window, which was not pruned before,
    counts as pruned, although its journal record and all nodes of its state are in the
    database. *)
Theorem restart_forgets_window s db hist w lh n h number fuel :
  fresh -> sd_reachable s db hist -> sd_pruning s = Some w ->
  last_canonicalized (non_canonical s) = Some (lh, n) ->
  window_base w <> 0 -> state_meta db LastPrunedKey = None ->
  (length (levels (non_canonical s)) <= fuel)%nat -> in_window hist w h number ->
  is_pruned (E := unit) s h number = Ok NotPruned /\
  exists s', reset (E := unit) (get_meta db) fuel s = Ok s' /\
    sd_pruning s' = Some (mkWindow (Mem [] ∅) 0) /\ is_pruned (E := unit) s' h number = Ok Pruned /\
    exists i r St, window_blocks hist w !! i = Some r /\ pr_hash r = h /\ number = window_base w + Z.of_nat i /\
      state_meta db (PruningJournalKey number) = Some (record_value r) /\
      window_states hist w !! S i = Some St /\ forall k, k ∈ St -> state db !! k = Some (content k).
Proof.
  intros Hf Hr Hw Hl Hb Hp Hfuel Hin. pose proof (sd_reachable_good _ _ _ _ s db hist Hf Hr) as Hg.
  pose proof (in_window_number s db hist w lh n h number Hg Hw Hl Hb Hin) as Hn.
  destruct (is_pruned_correct s db hist w h number lh n Hf Hr Hw Hl Hn) as [[Hnot (i & r & St & Hi & Hh & Hnum & HSt & Hk)]|[_ ?]];
    [|done]. split; [done|].
  destruct (new_ok content number_of db _ (sg_overlay _ _ _ _ _ _ _ Hg) (sg_journaled _ _ _ _ _ _ _ Hg) (E := unit) fuel lh n Hl)
    as (nc & Hnew & _ & _ & Hl' & _); [by rewrite length_bss|].
  exists (mkStateDb (mode s) nc (Some (mkWindow (Mem [] ∅) 0)) ∅ (ref_counting s)). split_and!.
  - unfold reset, new_sync. rewrite (sg_mode _ _ _ _ _ _ _ Hg), (sg_counting _ _ _ _ _ _ _ Hg), Hnew. cbn [res_bind].
    by rewrite (new_window_lost s db hist w fuel Hg Hw Hb Hp).
  - done.
  - unfold is_pruned. cbn. rewrite (sg_mode _ _ _ _ _ _ _ Hg). unfold last_canonicalized_block_number. rewrite Hl', Hl. cbn.
    by rewrite (proj2 (Z.ltb_ge _ _)) by lia.
  - exists i, r, St. split_and!; try done. destruct (sg_window _ _ _ _ _ _ _ Hg) as (w' & gone & recs & Hw' & Hwd).
    rewrite Hw in Hw'. injection Hw' as <-. rewrite Hnum. apply (pj_rows _ _ _ (wd_journal _ _ _ _ _ _ _ Hwd)).
    by rewrite <-(windowed_blocks _ _ _ _ _ _ _ Hwd).
Qed.

(** [pin] counts a reference to a block of the overlay or of the window, whatever the hint
    says, and refuses any other block without a change. *)
Theorem pin_correct s db hist w h number hint :
  fresh -> sd_reachable s db hist -> sd_pruning s = Some w -> 0 <= number ->
  let refs := default 0 (sd_pinned s !! h) in
  0 <= refs < 2 ^ 32 - 1 ->
  if decide (is_Some (parents (non_canonical s) !! h) \/ in_window hist w h number)
  then exists s', sd_pin (E := unit) h number hint s = (s', Ok None) /\
    sd_pinned s' = <[h := refs + 1]> (sd_pinned s) /\ sd_pruning s' = sd_pruning s /\
    non_canonical s' = (if refs =? 0 then pin h (non_canonical s) else non_canonical s)
  else sd_pin (E := unit) h number hint s = (s, Ok (Some PinInvalidBlock)).
Proof.
  intros Hf Hr Hw Hn refs Hrefs. pose proof (sd_reachable_good _ _ _ _ s db hist Hf Hr) as Hg.
  assert (sd_have_block (E := unit) s h number hint =
    Ok (bool_decide (is_Some (parents (non_canonical s) !! h) \/ in_window hist w h number))) as Hhave.
  { unfold sd_have_block, have_block. rewrite Hw, (have_block_in_window s db hist w h number Hg Hw Hn).
    repeat case_bool_decide; cbn; try done; tauto. }
  unfold sd_pin. rewrite (sg_mode _ _ _ _ _ _ _ Hg), Hhave. case_decide as Hd.
  - rewrite bool_decide_eq_true_2 by done. fold refs. rewrite wadd_small by (unfold in_range; lia).
    eexists. split; [done|]. by destruct (refs =? 0).
  - by rewrite bool_decide_eq_false_2.
Qed.
End reachable.

(** ** The archive modes *)

Section archive.
Context {BlockHash Key DBValue E : Type} `{Countable BlockHash} `{Countable Key}.
Context (get_meta : MetaKey -> res E (option (@MetaValue BlockHash Key DBValue))).
Abbreviation StateDbSync := (@StateDbSync BlockHash Key DBValue _ _ _ _).
Abbreviation NC := (@NonCanonicalOverlay BlockHash Key DBValue _ _ _ _).
Abbreviation CommitSet := (@CommitSet BlockHash Key DBValue).
Implicit Types (s : StateDbSync) (c : CommitSet) (nc : NC).

Definition no_data c : Prop := data c = mkChangeSet [] [].

Lemma bind_Ok {T F A B} (m : M T F A) (k : A -> M T F B) (x y : T) b :
  bindM m k x = (y, Ok b) -> exists z a, m x = (z, Ok a) /\ k a z = (y, Ok b).
Proof. unfold bindM. destruct (m x) as [z [a|e|]]; [eauto|done..]. Qed.

Lemma insert_no_data nc nc' h number parent cs c : insert h number parent cs nc = (nc', Ok c) -> no_data c.
Proof.
  unfold insert. intros (s0 & a & [= <- <-] & Hrun)%bind_Ok.
  apply bind_Ok in Hrun as (s1 & c0 & Hpos & Hrun). apply bind_Ok in Hrun as (s2 & i & _ & Hrun).
  assert (no_data c0) as Hc0.
  { unfold check_position, bindM, getM, putM, retM, errM in Hpos. unfold no_data.
    repeat case_match; simplify_eq; done. }
  unfold insert_at, bindM, getM, liftM, putM, retM, errM in Hrun. unfold no_data in *.
  repeat case_match; simplify_eq; done.
Qed.

(** In the archive modes no commit deletes a trie node, whatever the operation. *)
Theorem archive_never_deletes s :
  is_archive (mode s) = true -> sd_pruning s = None ->
  (forall h number parent cs s' c, insert_block (E := E) h number parent cs s = (s', Ok c) ->
     cs_deleted (data c) = []) /\
  (forall h s' c, canonicalize_block get_meta h s = (s', Ok c) -> cs_deleted (data c) = []) /\
  (forall c, (sd_revert_one s).2 = Some c -> cs_deleted (data c) = []) /\
  (forall h c, (sd_remove h s).2 = Some c -> cs_deleted (data c) = []).
Proof.
  intros Ha Hp. split_and!.
  - intros h number parent cs s' c. unfold insert_block, bindM, getM, on_overlay, retM.
    destruct (mode s); [done|by intros [= <- <-]|].
    destruct (insert h number parent cs (non_canonical s)) as [nc' [c'|e|]] eqn:Hi; [|done..].
    intros [= <- <-]. by rewrite (insert_no_data _ _ _ _ _ _ _ Hi).
  - intros h s' c. unfold canonicalize_block, bindM, getM, on_overlay, retM. rewrite Hp.
    destruct (mode s) eqn:Hm; [done|by rewrite decide_True; [intros [= <- <-]|]|].
    rewrite decide_False by done. destruct (canonicalize h default_commit (non_canonical s)) as [nc' [[n c']|e|]]; [|done..].
    unfold prune_blocks, bindM, getM, retM. cbn. rewrite Hp. by intros [= <- <-].
  - intros c. unfold sd_revert_one, revert_one. destruct (mode s); repeat case_match; cbn; intros; by simplify_eq.
  - intros h c. unfold sd_remove, remove. destruct (mode s); repeat case_match; cbn; intros; by simplify_eq.
Qed.
End archive.

(** ** Opening *)

Section opening.
Context {BlockHash Key DBValue E : Type} `{Countable BlockHash} `{Countable Key}.
Abbreviation Database := (@Database BlockHash Key DBValue _ _).
Abbreviation StateDbSync := (@StateDbSync BlockHash Key DBValue _ _ _ _).
Abbreviation open := (fun (db : Database) => open_statedb (E := E) (get_meta db)).

(** What the database keeps of a mode: its kind, not the limit *)
Definition stored_form (m : PruningMode) : PruningMode :=
  match m with Constrained _ => default_mode | m => m end.

Definition same_kind (m m' : PruningMode) : bool :=
  match m, m' with
  | ArchiveAll, ArchiveAll | ArchiveCanonical, ArchiveCanonical | Constrained _, Constrained _ => true
  | _, _ => false
  end.

Lemma from_id_mode m : from_id (mode_id m) = Some (stored_form m).
Proof. by destruct m. Qed.

(** The state database of a node that has no blocks yet *)
Definition initial (m : PruningMode) (counting : bool) : StateDbSync :=
  mkStateDb m empty_overlay
    (match m with
     | Constrained c =>
         Some (mkWindow (if counting then Mem [] ∅
           else DbBacked [] (Z.max 1 (Z.min (default 0 (max_blocks c)) DEFAULT_MAX_BLOCK_CONSTRAINT)) None) 0)
     | _ => None
     end) ∅ counting.

Lemma new_sync_initial (db : Database) fuel m counting :
  (forall k, k <> PruningModeKey -> state_meta db k = None) ->
  new_sync (E := E) (get_meta db) fuel m counting = Ok (initial m counting).
Proof.
  intros Hdb. unfold new_sync, initial, new, read_meta, get_meta at 1. rewrite Hdb by done. cbn [res_bind].
  destruct m as [c| |]; [|done..]. unfold new_window, read_meta, get_meta at 1 2. rewrite !Hdb by done. cbn [res_bind].
  destruct counting.
  - unfold new_mem. destruct fuel; cbn [read_journal]; unfold read_meta, get_meta; by rewrite Hdb.
  - unfold new_db_backed, load_batch_from_db, bindM, getM. set (cap := Z.max 1 _).
    destruct (Z.to_nat cap) as [|n] eqn:Hn; [lia|]. cbn [load_rows].
    unfold bindM, liftM, load_death_row_from_db, read_meta, get_meta. by rewrite Hdb.
Qed.

(** Opening a new database and opening it again.  The first time the requested mode is
    taken, or the default, and the commit stores its kind.  Later the stored kind is taken when
    nothing is requested, with the default limit; a requested mode of the same kind is taken with
    its own limit, one of another kind is refused.  A database without a stored mode cannot be
    opened as an existing one, nor one with a stored mode as a new one. *)
Theorem open_correct (db : Database) fuel requested counting :
  (forall k, state_meta db k = None) ->
  let m := default default_mode requested in
  exists c, open db fuel requested counting true = Ok (c, initial m counting) /\
    open db fuel requested counting false = Err (StateDb Metadata) /\
    let db' := apply_state_commit db c in
    open db' fuel None counting false = Ok (default_commit, initial (stored_form m) counting) /\
    (forall m', open db' fuel (Some m') counting false =
       if same_kind m m' then Ok (default_commit, initial m' counting)
       else Err (StateDb (IncompatiblePruningModes (stored_form m) m'))) /\
    forall r, open db' fuel r counting true = Panic.
Proof.
  intros Hdb m. exists (put_meta default_commit PruningModeKey (PruningModeOf (mode_id m))). cbn zeta.
  set (db' := apply_state_commit db _).
  assert (forall m counting, new_sync (E := E) (get_meta db) fuel m counting = Ok (initial m counting)) as Hnew
    by (intros; by apply new_sync_initial).
  assert (forall m counting, new_sync (E := E) (get_meta db') fuel m counting = Ok (initial m counting)) as Hnew'.
  { intros m1 ?. apply new_sync_initial. intros k Hk. unfold db'. rewrite apply_meta. cbn [meta put_meta cs_deleted].
    rewrite decide_False by (by apply not_elem_of_nil). cbn. rewrite decide_False by done. apply Hdb. }
  assert (fetch_stored_pruning_mode (E := E) (get_meta db) = Ok None) as Hf.
  { unfold fetch_stored_pruning_mode, read_meta, get_meta. by rewrite Hdb. }
  assert (fetch_stored_pruning_mode (E := E) (get_meta db') = Ok (Some (stored_form m))) as Hf'.
  { unfold fetch_stored_pruning_mode, read_meta, get_meta, db'. rewrite apply_meta. cbn [meta put_meta cs_deleted].
    rewrite decide_False by (by apply not_elem_of_nil).
    cbn [default_commit meta data put_meta cs_inserted app foldl set_meta state_meta fst snd res_bind].
    rewrite decide_True by done. cbn [res_bind]. by rewrite from_id_mode. }
  unfold open_statedb. rewrite Hf, Hf'. cbn [res_bind]. rewrite Hnew. split_and!; try done.
  - by rewrite Hnew'.
  - intros m'. destruct m as [c| |], m' as [c'| |]; cbn; by rewrite ?Hnew'.
Qed.
End opening.
