(* ===== verification/StateDbExamples.v ===== *)
(** Concrete runs of the state database: the theorems applied to configurations that can be
    reached, and a restart that loses the pruning window. *)

From stdpp Require Import base numbers list option gmap sets fin_maps relations.
From S2P Require Import Prelude NonCanonical Discard NonCanonicalInv NonCanonicalOps Canonicalize Journal OverlaySteps OverlayExamples Pruning StateDb Window Backed StateDbSteps StateDbOps.

Local Open Scope Z_scope.
Local Open Scope rust_scope.

Abbreviation SD := (@StateDbSync Z Z Z _ _ _ _).
Abbreviation Config := (SD * @Database Z Z Z _ _ * list (@PruningRecord Z Z))%type.

(** A database with nothing in it *)
Abbreviation blank := (@empty_database Z Z Z _ _).

(** One block in the window *)
Definition keep_one : Constraints := mkConstraints (Some 1).
Abbreviation sd_reach := (sd_reachable content number_of keep_one blank).

Definition edits (ins del : list Z) : ChangeSet Z Z := mkChangeSet ((fun k => (k, k)) <$> ins) del.

Definition sd_do_insert (h parent : Z) (ins del : list Z) (x : Config) : Config :=
  match insert_block (E := unit) h (number_of h) parent (edits ins del) x.1.1 with
  | (s', Ok c) => (s', apply_state_commit x.1.2 c, x.2)
  | (s', _) => (s', x.1.2, x.2)
  end.

Definition first_block (x : Config) : option BlockOverlay := head (default [] (bss_of (non_canonical x.1.1) !! 0%nat)).

Definition sd_do_canonicalize (x : Config) : Config :=
  match first_block x with
  | Some o =>
      match canonicalize_block (E := unit) (get_meta x.1.2) (hash o) x.1.1 with
      | (s', Ok c) => (s', apply_state_commit x.1.2 c, x.2 ++ [changes_of o])
      | (s', _) => (s', x.1.2, x.2)
      end
  | None => x
  end.

Definition sd_do_pin (h : Z) (x : Config) : Config :=
  ((sd_pin (E := unit) h (number_of h) false x.1.1).1, x.1.2, x.2).

Lemma sd_reach_insert h parent ins del x :
  sd_reach x.1.1 x.1.2 x.2 ->
  insertable content number_of (non_canonical x.1.1) h (number_of h) parent (edits ins del) ->
  is_ok (insert_block (E := unit) h (number_of h) parent (edits ins del) x.1.1).2 = true ->
  sd_reach (sd_do_insert h parent ins del x).1.1 (sd_do_insert h parent ins del x).1.2 (sd_do_insert h parent ins del x).2.
Proof.
  intros Hr Hi Ho. destruct x as [[s db] hist]. cbn [fst snd] in *. eapply rtc_r; [exact Hr|].
  unfold sd_do_insert. cbn [fst snd].
  destruct (insert_block h (number_of h) parent (edits ins del) s) as [s' [c|e|]] eqn:He; try done.
  exact (sd_step_insert content number_of blank s db hist h _ parent _ s' c Hi He).
Qed.

Lemma sd_reach_canonicalize x o :
  sd_reach x.1.1 x.1.2 x.2 -> first_block x = Some o -> finalizable blank x.1.1 x.2 o ->
  is_ok (canonicalize_block (E := unit) (get_meta x.1.2) (hash o) x.1.1).2 = true ->
  sd_reach (sd_do_canonicalize x).1.1 (sd_do_canonicalize x).1.2 (sd_do_canonicalize x).2.
Proof.
  intros Hr Hfb Hf Ho. unfold sd_do_canonicalize. rewrite Hfb. destruct x as [[s db] hist]. cbn [fst snd] in *.
  destruct (canonicalize_block (get_meta db) (hash o) s) as [s' [c|e|]] eqn:He; try done.
  eapply rtc_r; [exact Hr|]. exact (sd_step_canonicalize content number_of blank s db hist o s' c Hf He).
Qed.

Lemma sd_reach_pin h x :
  sd_reach x.1.1 x.1.2 x.2 -> default 0 (pinned (non_canonical x.1.1) !! h) + 1 < 2 ^ 32 ->
  sd_reach (sd_do_pin h x).1.1 (sd_do_pin h x).1.2 (sd_do_pin h x).2.
Proof.
  intros Hr Hp. destruct x as [[s db] hist]. cbn [fst snd] in *. eapply rtc_r; [exact Hr|]. unfold sd_do_pin. cbn [fst snd].
  destruct (sd_pin h (number_of h) false s) as [s' r] eqn:He.
  exact (sd_step_pin content number_of blank s db hist h _ false s' r Hp He).
Qed.

Definition start : Config := (empty_statedb keep_one, blank, []).

Lemma reach_start : sd_reach start.1.1 start.1.2 start.2.
Proof. apply rtc_refl. Qed.

Lemma fresh_start : fresh_database content keep_one blank.
Proof. split; [done|]. split; [|done]. apply map_Forall_empty. Qed.

(** Block 1 inserts the keys 1 and 2 and is canonical; block 10 replaces 1 by 3. *)
Definition one : Config := sd_do_canonicalize (sd_do_insert 1 (-10) [1; 2] [] start).
Definition two : Config := sd_do_insert 10 1 [3] [1] one.

Ltac fin := split; [concrete|]; split; [apply (list_elem_of_lookup_2 _ 0); vm_compute; reflexivity|];
  split; apply (bool_decide_unpack _); vm_compute; exact I.

Lemma one_reachable : sd_reach one.1.1 one.1.2 one.2.
Proof.
  eapply sd_reach_canonicalize; [|vm_compute; reflexivity|fin|concrete].
  apply sd_reach_insert; [|concrete..]. apply reach_start.
Qed.

Lemma two_reachable : sd_reach two.1.1 two.1.2 two.2.
Proof. apply sd_reach_insert; [|concrete..]. apply one_reachable. Qed.

(** The block 10 *)
Definition block_10 : BlockOverlay := mkOverlay 10 0 (JournalKey 1 0) [3] [1].

Lemma two_finalizable : finalizable blank two.1.1 two.2 block_10.
Proof. fin. Qed.

Definition three : Config := sd_do_canonicalize two.

Lemma three_reachable : sd_reach three.1.1 three.1.2 three.2.
Proof. eapply sd_reach_canonicalize; [apply two_reachable|vm_compute; reflexivity|apply two_finalizable|concrete]. Qed.

(** Block 1 is pinned before block 10 becomes canonical. *)
Definition pinned_1 : Config := sd_do_pin 1 two.

Lemma pinned_1_reachable : sd_reach pinned_1.1.1 pinned_1.1.2 pinned_1.2.
Proof. apply sd_reach_pin; [apply two_reachable|concrete]. Qed.

Lemma pinned_1_finalizable : finalizable blank pinned_1.1.1 pinned_1.2 block_10.
Proof. fin. Qed.

Definition window_of (x : Config) : @RefWindow Z Z _ _ := default (mkWindow (Mem [] ∅) 0) (sd_pruning x.1.1).

Lemma database_exact_witness :
  dom (state three.1.2) = ⋃ window_states blank three.2 (window_of three) /\
  window_size (window_of three) = 1.
Proof.
  destruct (database_exact content number_of keep_one blank three.1.1 three.1.2 three.2
    fresh_start three_reachable) as (w & Hw & Hd & _).
  assert (window_of three = w) as -> by (unfold window_of; rewrite Hw; reflexivity).
  split; [exact Hd|]. assert (sd_pruning three.1.1 = Some (window_of three)) as He by (vm_compute; reflexivity).
  rewrite Hw in He. injection He as ->. vm_compute. reflexivity.
Defined.

Lemma canonicalize_block_correct_witness :
  exists s' c, canonicalize_block (E := unit) (get_meta two.1.2) 10 two.1.1 = (s', Ok c) /\
    last_canonicalized (non_canonical s') = Some (10, 1).
Proof.
  destruct (canonicalize_block_correct content number_of keep_one blank two.1.1 two.1.2 two.2 block_10
    fresh_start two_reachable two_finalizable) as (w & s' & c & w' & pruned & _ & Hrun & _ & Hl & _).
  exists s', c. split; [exact Hrun|exact Hl].
Defined.

Lemma pinned_state_kept_witness :
  state (sd_do_canonicalize pinned_1).1.2 !! 1 = Some 1.
Proof.
  apply (pinned_state_kept content number_of keep_one blank pinned_1.1.1 pinned_1.1.2 pinned_1.2
    (window_of pinned_1) block_10 (sd_do_canonicalize pinned_1).1.1
    (match canonicalize_block (E := unit) (get_meta pinned_1.1.2) 10 pinned_1.1.1 with
     | (_, Ok c) => c | _ => default_commit end) 0 (mkRecord 1 [1; 2] []) {[1; 2]}
    fresh_start pinned_1_reachable pinned_1_finalizable).
  - vm_compute. reflexivity.
  - vm_compute. reflexivity.
  - vm_compute. reflexivity.
  - vm_compute. reflexivity.
  - exists 1. vm_compute. reflexivity.
  - set_solver.
Defined.

Lemma states_readable_witness : sd_get (node_get two.1.2) two.1.1 3 = Ok (Some 3).
Proof.
  destruct (states_readable content number_of keep_one blank two.1.1 two.1.2 two.2 fresh_start two_reachable)
    as (_ & Hat & _).
  apply (Hat 10 (next_state (final (dom (state blank)) two.2) (changes_of block_10)) 3).
  - apply (at_first blank two.1.1 two.2 block_10). apply (list_elem_of_lookup_2 _ 0). vm_compute. reflexivity.
  - apply (bool_decide_unpack _). vm_compute. exact I.
Defined.

Lemma reset_correct_witness :
  exists s', reset (E := unit) (get_meta three.1.2) 5 three.1.1 = Ok s' /\ sd_pruning s' = sd_pruning three.1.1.
Proof.
  destruct (reset_correct content number_of keep_one blank three.1.1 three.1.2 three.2 5
    fresh_start three_reachable) as (s' & Hrun & Hw & _).
  - split; [vm_compute; discriminate|]. intros w _. right. vm_compute. discriminate.
  - apply Nat.leb_le. vm_compute. reflexivity.
  - apply Nat.leb_le. vm_compute. reflexivity.
  - exists s'. split; [exact Hrun|exact Hw].
Defined.

Lemma is_pruned_correct_witness :
  is_pruned (E := unit) three.1.1 10 1 = Ok NotPruned /\ is_pruned (E := unit) three.1.1 1 0 = Ok Pruned.
Proof.
  assert (sd_pruning three.1.1 = Some (window_of three)) as Hw by (vm_compute; reflexivity).
  assert (last_canonicalized (non_canonical three.1.1) = Some (10, 1)) as Hl by (vm_compute; reflexivity).
  pose proof (is_pruned_correct content number_of keep_one blank three.1.1 three.1.2 three.2 (window_of three)) as Hp.
  split.
  - destruct (Hp 10 1 10 1 fresh_start three_reachable Hw Hl ltac:(lia)) as [[He _]|[He _]]; [exact He|].
    exfalso. vm_compute in He. discriminate.
  - destruct (Hp 1 0 10 1 fresh_start three_reachable Hw Hl ltac:(lia)) as [[He _]|[He _]]; [|exact He].
    exfalso. vm_compute in He. discriminate.
Defined.

Lemma pin_correct_witness :
  sd_pin (E := unit) 77 7 true two.1.1 = (two.1.1, Ok (Some PinInvalidBlock)).
Proof.
  assert (sd_pruning two.1.1 = Some (window_of two)) as Hw by (vm_compute; reflexivity).
  pose proof (pin_correct content number_of keep_one blank two.1.1 two.1.2 two.2 (window_of two) 77 7 true
    fresh_start two_reachable Hw ltac:(lia)) as Hp.
  cbn zeta in Hp. specialize (Hp ltac:(vm_compute; split; [discriminate|reflexivity])).
  destruct (decide _) as [Hd|_] in Hp; [|exact Hp]. exfalso.
  destruct Hd as [[p Hd]|[_ Hd]]; vm_compute in Hd; discriminate.
Defined.

(** A window on the database, its only record in the journal *)
Definition journal_5 : @Database Z Z Z _ _ :=
  mkDatabase ∅ (fun k => if decide (k = PruningJournalKey 5) then Some (PruningRecordOf 50 [] [7]) else None).
Definition backed_5 : @RefWindow Z Z _ _ := mkWindow (DbBacked [] 1 (Some 5)) 5.

Lemma backed_5_ok : backed_ok (E := unit) (get_meta journal_5) backed_5 [mkRecord 50 [] [7]] [] 1 1.
Proof.
  split; [by exists (Some 5)|done|done| |cbn; lia]. split; [done|]. split.
  - intros [|i] r Hi Hr; [|lia]. injection Hr as <-. reflexivity.
  - intros i Hi. unfold get_meta. cbn. rewrite decide_False; [done|]. intros [= Heq]. lia.
Qed.

Lemma backed_window_correct_witness :
  exists w1 (c1 : @CommitSet Z Z Z), note_canonical (E := unit) 60 6 default_commit backed_5 = (w1, Ok c1) /\ window_base w1 = 5.
Proof.
  destruct (backed_window_correct (E := unit) (get_meta journal_5) backed_5 [mkRecord 50 [] [7]] [] 1 1 60 6
    (default_commit : @CommitSet Z Z Z) 1 ∅ backed_5_ok) as (w1 & c1 & Hrun & _ & Hb & _).
  - left. reflexivity.
  - lia.
  - lia.
  - exists w1, c1. split; [exact Hrun|exact Hb].
Defined.

(** ** A node that starts with a later block *)

(** Block 50 has the number 5. *)
Definition late : Config := sd_do_canonicalize (sd_do_insert 50 40 [1; 2] [] start).

Lemma late_reachable : sd_reach late.1.1 late.1.2 late.2.
Proof.
  eapply sd_reach_canonicalize; [|vm_compute; reflexivity|fin|concrete].
  apply sd_reach_insert; [|concrete..]. apply reach_start.
Qed.


Lemma restart_forgets_window_witness :
  is_pruned (E := unit) late.1.1 50 5 = Ok NotPruned /\
  exists s', reset (E := unit) (get_meta late.1.2) 9 late.1.1 = Ok s' /\
    window_size <$> sd_pruning s' = Some 0 /\ is_pruned (E := unit) s' 50 5 = Ok Pruned /\
    state_meta late.1.2 (PruningJournalKey 5) = Some (PruningRecordOf 50 [1; 2] []).
Proof.
  destruct (restart_forgets_window content number_of keep_one blank late.1.1 late.1.2 late.2 (window_of late) 50 5 50 5 9)
    as (Hnot & s' & Hrun & Hs & Hp & _).
  - apply fresh_start.
  - apply late_reachable.
  - vm_compute. reflexivity.
  - vm_compute. reflexivity.
  - vm_compute. discriminate.
  - vm_compute. reflexivity.
  - apply Nat.leb_le. vm_compute. reflexivity.
  - split; [vm_compute; discriminate|vm_compute; reflexivity].
  - split; [exact Hnot|]. exists s'. split; [exact Hrun|]. split; [by rewrite Hs|]. split; [exact Hp|vm_compute; reflexivity].
Defined.

(** ** The archive modes and opening *)

(** A block that replaces the key 2 by 1 *)
Definition archive : SD := (insert_block (E := unit) 10 1 0 (edits [1] [2]) (initial ArchiveCanonical true)).1.
Definition archived : SD * res (Error unit) CommitSet := canonicalize_block (get_meta blank) 10 archive.

Lemma archive_never_deletes_witness :
  exists c, archived.2 = Ok c /\ cs_inserted (data c) = [(1, 1)] /\ cs_deleted (data c) = [].
Proof.
  destruct archived as [s' [c|e|]] eqn:Ha; [|vm_compute in Ha; discriminate..].
  exists c. split; [reflexivity|]. split; [vm_compute in Ha; injection Ha as _ <-; reflexivity|].
  apply (proj1 (proj2 (archive_never_deletes (E := unit) (get_meta blank) archive eq_refl eq_refl)) 10 s' c).
  exact Ha.
Defined.

Lemma open_correct_witness :
  exists c, open_statedb (E := unit) (get_meta blank) 3 (Some (blocks_pruning 7)) true true =
    Ok (c, initial (blocks_pruning 7) true).
Proof.
  destruct (open_correct (E := unit) blank 3 (Some (blocks_pruning 7)) true) as (c & Hrun & _).
  - intros k. reflexivity.
  - exists c. exact Hrun.
Defined.
