(* ===== verification/BagsList.v ===== *)
(** The bags list pallet (frame/bags-list/src/list/mod.rs and lib.rs).

    Ids are kept in bags by their score; a bag is a doubly linked list whose nodes are in one
    storage map, with the ends of each bag in another.  The thresholds that separate the bags,
    the greatest score and the provider of the current scores are the pallet's configuration,
    here parameters.  [id_le] is the order of account ids, in which a [BTreeSet] is iterated.

    Storage is a record of maps; a missing entry is [None].  The codec skips the field
    [bag_upper] of a bag, so that only its ends are stored. *)

From stdpp Require Import base numbers list option gmap sets fin_maps sorting.
From S2P Require Import Prelude.

Local Open Scope Z_scope.
Local Open Scope rust_scope.

Inductive ListError := Duplicate | NotHeavier | NotInSameBag | NodeNotFound.

(** [partition_point] of a slice: the length of the prefix that passes *)
Fixpoint partition_point {A} (p : A -> bool) (l : list A) : nat :=
  match l with [] => 0%nat | x :: l => if p x then S (partition_point p l) else 0%nat end.

(** The bag of a score under the given thresholds *)
Definition bag_for (max_value : Z) (thresholds : list Z) (score : Z) : Z :=
  default max_value (thresholds !! partition_point (fun t => t <? score) thresholds).

Section bags_list.
Context {AccountId : Type} `{Countable AccountId} (id_le : relation AccountId) `{!RelDecision id_le}.

Record Node := mkNode {
  id : AccountId; prev : option AccountId; next : option AccountId; bag_upper : Z; score : Z
}.

Record Bag := mkBag { head : option AccountId; tail : option AccountId; upper : Z }.

Inductive Event :=
| Rebagged (who : AccountId) (from to : Z)
| ScoreUpdated (who : AccountId) (new_score : Z).

(** The pallet's storage, and the events deposited so far *)
Record Storage := mkStorage {
  ListNodes : gmap AccountId Node;
  CounterForListNodes : Z;
  ListBags : gmap Z (option AccountId * option AccountId);
  Events : list Event
}.

Definition set_next (n : Node) (x : option AccountId) : Node := mkNode (id n) (prev n) x (bag_upper n) (score n).
Definition set_prev (n : Node) (x : option AccountId) : Node := mkNode (id n) x (next n) (bag_upper n) (score n).
Definition set_score (n : Node) (x : Z) : Node := mkNode (id n) (prev n) (next n) (bag_upper n) x.

(** ** Storage access: a [CountedStorageMap] and a [StorageMap] *)

Definition nodes_insert (x : AccountId) (n : Node) (s : Storage) : Storage :=
  mkStorage (<[x := n]> (ListNodes s))
    (if bool_decide (is_Some (ListNodes s !! x)) then CounterForListNodes s
     else saturating_add 32 (CounterForListNodes s) 1)
    (ListBags s) (Events s).

Definition nodes_remove (x : AccountId) (s : Storage) : Storage :=
  mkStorage (delete x (ListNodes s))
    (if bool_decide (is_Some (ListNodes s !! x)) then saturating_sub (CounterForListNodes s) 1
     else CounterForListNodes s)
    (ListBags s) (Events s).

Definition set_bags (s : Storage) (b : gmap Z (option AccountId * option AccountId)) : Storage :=
  mkStorage (ListNodes s) (CounterForListNodes s) b (Events s).

Definition deposit_event (e : Event) (s : Storage) : Storage :=
  mkStorage (ListNodes s) (CounterForListNodes s) (ListBags s) (Events s ++ [e]).

(** ** Nodes *)

Definition node_get (s : Storage) (x : AccountId) : option Node := ListNodes s !! x.
Definition node_put (n : Node) (s : Storage) : Storage := nodes_insert (id n) n s.
Definition node_prev (s : Storage) (n : Node) : option Node := prev n ≫= node_get s.
Definition node_next (s : Storage) (n : Node) : option Node := next n ≫= node_get s.

Definition excise (n : Node) (s : Storage) : Storage :=
  let s := match node_prev s n with Some p => node_put (set_next p (next n)) s | None => s end in
  match node_next s n with Some q => node_put (set_prev q (prev n)) s | None => s end.

Definition remove_from_storage_unchecked (n : Node) (s : Storage) : Storage := nodes_remove (id n) s.

Definition is_terminal (n : Node) : bool := negb (bool_decide (is_Some (prev n)) && bool_decide (is_Some (next n))).

(** ** Bags *)

Definition bag_get (s : Storage) (u : Z) : option Bag := (fun b => mkBag b.1 b.2 u) <$> ListBags s !! u.
Definition bag_get_or_make (s : Storage) (u : Z) : Bag := default (mkBag None None u) (bag_get s u).

Definition bag_is_empty (b : Bag) : bool :=
  bool_decide (head b = None) && bool_decide (tail b = None).

Definition bag_put (b : Bag) (s : Storage) : Storage :=
  if bag_is_empty b then set_bags s (delete (upper b) (ListBags s))
  else set_bags s (<[upper b := (head b, tail b)]> (ListBags s)).

Definition bag_head (s : Storage) (b : Bag) : option Node := head b ≫= node_get s.
Definition bag_tail (s : Storage) (b : Bag) : option Node := tail b ≫= node_get s.

(** [iter::successors] along the links, at most [fuel] nodes, and whether it came to the end *)
Fixpoint successors (s : Storage) (fuel : nat) (n : option Node) : list Node * bool :=
  match n, fuel with
  | None, _ => ([], true)
  | Some _, O => ([], false)
  | Some n, S fuel => let r := successors s fuel (node_next s n) in (n :: r.1, r.2)
  end.

(** A walk that is longer than the number of nodes goes round in circles. *)
Definition walk (s : Storage) (n : option Node) : option (list Node) :=
  let r := successors s (S (size (ListNodes s))) n in if r.2 then Some r.1 else None.

Definition bag_iter (s : Storage) (b : Bag) : option (list Node) := walk s (bag_head s b).

Definition insert_node_unchecked (n : Node) (b : Bag) (s : Storage) : Bag * Storage :=
  if bool_decide (tail b = Some (id n)) then (b, s)
  else
    let n := mkNode (id n) (tail b) None (upper b) (score n) in
    let s := node_put n s in
    let s := match bag_tail s b with Some t => node_put (set_next t (Some (id n))) s | None => s end in
    (mkBag (match head b with None => Some (id n) | h => h end) (Some (id n)) (upper b), s).

Definition insert_unchecked (x : AccountId) (score : Z) (b : Bag) (s : Storage) : Bag * Storage :=
  insert_node_unchecked (mkNode x None None 0 score) b s.

Definition remove_node_unchecked (n : Node) (b : Bag) (s : Storage) : Bag * Storage :=
  let s := excise n s in
  let t := if bool_decide (tail b = Some (id n)) then prev n else tail b in
  let h := if bool_decide (head b = Some (id n)) then next n else head b in
  (mkBag h t (upper b), s).

(** ** The list *)

Section config.
Context (thresholds : list Z) (max_value : Z) (score_of : AccountId -> Z).
Abbreviation L := (M Storage ListError).

Definition notional_bag_for (score : Z) : Z := bag_for max_value thresholds score.
Definition is_misplaced (n : Node) (current_score : Z) : bool :=
  negb (notional_bag_for current_score =? bag_upper n).

Definition unsafe_clear (s : Storage) : Storage := mkStorage ∅ 0 ∅ (Events s).

Definition contains (s : Storage) (x : AccountId) : bool := bool_decide (is_Some (ListNodes s !! x)).
Definition get_score (s : Storage) (x : AccountId) : res ListError Z := ok_or (score <$> node_get s x) NodeNotFound.

(** All thresholds, the implied last one included, from the greatest on *)
Definition bags_down : list Z :=
  if bool_decide (last thresholds = Some max_value) then reverse thresholds
  else reverse (thresholds ++ [max_value]).

(** [filter_map] and [flat_map] over bags *)
Definition iter_bags (s : Storage) (us : list Z) : option (list Node) :=
  (fun ls => concat ls) <$> mapM (fun u => match bag_get s u with Some b => bag_iter s b | None => Some [] end) us.

Definition iter (s : Storage) : option (list Node) := iter_bags s bags_down.

Definition iter_from (s : Storage) (start : AccountId) : res ListError (option (list Node)) :=
  let? n := ok_or (node_get s start) NodeNotFound in
  let idx := partition_point (fun t => t <? bag_upper n) thresholds in
  Ok (l1 ← walk s (node_next s n);
      l2 ← iter_bags s (reverse (take idx thresholds));
      Some (l1 ++ l2)).

Definition insert (x : AccountId) (score : Z) : L unit :=
  let* s := getM in
  if contains s x then errM Duplicate
  else
    let '(b, s) := insert_unchecked x score (bag_get_or_make s (notional_bag_for score)) s in
    putM (bag_put b s).

Fixpoint insert_many (xs : list AccountId) (score_of : AccountId -> Z) (s : Storage) : Storage * Z :=
  match xs with
  | [] => (s, 0)
  | x :: xs =>
      let '(s, r) := insert x (score_of x) s in
      let '(s, count) := insert_many xs score_of s in
      (s, if is_ok r then wadd 32 count 1 else count)
  end.

(** The loop of [remove_many]: bags whose ends change are collected, and written at the end. *)
Fixpoint remove_loop (xs : list AccountId) (bags : gmap Z Bag) (s : Storage) : gmap Z Bag * Storage * Z :=
  match xs with
  | [] => (bags, s, 0)
  | x :: xs =>
      match node_get s x with
      | None => remove_loop xs bags s
      | Some n =>
          let '(bags, s) :=
            if is_terminal n then
              let b := default (bag_get_or_make s (bag_upper n)) (bags !! bag_upper n) in
              let '(b, s) := remove_node_unchecked n b s in
              (<[bag_upper n := b]> bags, s)
            else (bags, excise n s) in
          let '(bags, s, count) := remove_loop xs bags (remove_from_storage_unchecked n s) in
          (bags, s, wadd 32 count 1)
      end
  end.

(** Iteration over a [BTreeSet] and a [BTreeMap] *)
Definition btree_scores (X : gset Z) : list Z := merge_sort (≤) (elements X).
Definition btree_values (bags : gmap Z Bag) : list Bag := omap (fun u => bags !! u) (btree_scores (dom bags)).

Definition remove_many (xs : list AccountId) (s : Storage) : Storage * Z :=
  let '(bags, s, count) := remove_loop xs ∅ s in
  (foldl (fun s b => bag_put b s) s (btree_values bags), count).

Definition remove (x : AccountId) : L unit :=
  let* s := getM in
  if contains s x then putM (remove_many [x] s).1 else errM NodeNotFound.

Definition update_position_for (n : Node) (new_score : Z) (s : Storage) : Storage * option (Z * Z) :=
  let n := set_score n new_score in
  if is_misplaced n new_score then
    let s :=
      if is_terminal n then
        match bag_get s (bag_upper n) with
        | Some b => let '(b, s) := remove_node_unchecked n b s in bag_put b s
        | None => s
        end
      else excise n s in
    let u := notional_bag_for new_score in
    let '(b, s) := insert_node_unchecked n (bag_get_or_make s u) s in
    (bag_put b s, Some (bag_upper n, u))
  else (node_put n s, None).

(** Panics when the bag is not there *)
Definition insert_at_unchecked (at_ n : Node) : L unit :=
  let* s := getM in
  let n := set_prev n (prev at_) in
  let s := match node_prev s at_ with Some p => node_put (set_next p (Some (id n))) s | None => s end in
  let n := set_next n (Some (id at_)) in
  let at_ := set_prev at_ (Some (id n)) in
  let* s :=
    if is_terminal n then
      let* b := liftM (expect (bag_get s (bag_upper at_))) in
      let b := match prev n with None => mkBag (Some (id n)) (tail b) (upper b) | Some _ => b end in
      retM (bag_put b s)
    else retM s in
  putM (node_put n (node_put at_ s)).

Definition put_in_front_of (lighter heavier : AccountId) : L unit :=
  let* s := getM in
  let* lighter_node := liftM (ok_or (node_get s lighter) NodeNotFound) in
  let* heavier_node := liftM (ok_or (node_get s heavier) NodeNotFound) in
  if negb (bag_upper lighter_node =? bag_upper heavier_node) then errM NotInSameBag
  else if negb (score_of lighter <? score_of heavier) then errM NotHeavier
  else
    modifyM (fun s => (remove heavier s).1);;;
    let* s := getM in
    let* lighter_node := liftM (ok_or (node_get s lighter) NodeNotFound) in
    insert_at_unchecked lighter_node heavier_node.

(** Regenerating, and migrating from other thresholds *)

Definition unsafe_regenerate (all : list AccountId) (score_of : AccountId -> Z) (s : Storage) : Storage * Z :=
  insert_many all score_of (unsafe_clear s).

(** The ids of the bags in the list that are not in [seen] yet *)
Fixpoint affected_ids (s : Storage) (us : list Z) (seen : gset Z) : option (gset AccountId * gset Z) :=
  match us with
  | [] => Some (∅, seen)
  | u :: us =>
      if decide (u ∈ seen) then affected_ids s us seen
      else
        ns ← match bag_get s u with Some b => bag_iter s b | None => Some [] end;
        r ← affected_ids s us ({[u]} ∪ seen);
        Some (list_to_set (id <$> ns) ∪ r.1, r.2)
  end.

Definition btree_ids (X : gset AccountId) : list AccountId := merge_sort id_le (elements X).

(** [None] when walking over a bag does not end *)
Definition migrate (old_thresholds : list Z) (s : Storage) : option (Storage * Z) :=
  if decide (thresholds = old_thresholds) then Some (s, 0)
  else
    let old_set : gset Z := list_to_set old_thresholds in
    let new_set : gset Z := list_to_set thresholds in
    let inserted_bags := btree_scores (new_set ∖ old_set) in
    let removed_bags := btree_scores (old_set ∖ new_set) in
    r ← affected_ids s (bag_for max_value old_thresholds <$> inserted_bags) ∅;
    r' ← affected_ids s removed_bags r.2;
    let affected_accounts := r.1 ∪ r'.1 in
    let '(s, _) := remove_many (btree_ids affected_accounts) s in
    let '(s, _) := insert_many (btree_ids affected_accounts) score_of s in
    Some (foldl (fun s u => set_bags s (delete u (ListBags s))) s removed_bags,
          wrap 32 (Z.of_nat (size affected_accounts))).

(** ** The pallet *)

Definition do_rebag (account : AccountId) (new_score : Z) : L (option (Z * Z)) :=
  let* s := getM in
  let* n := liftM (ok_or (node_get s account) NodeNotFound) in
  let '(s, movement) := update_position_for n new_score s in
  putM s;;;
  (match movement with
   | Some (from, to) => modifyM (deposit_event (Rebagged account from to))
   | None => retM tt
   end);;;
  modifyM (deposit_event (ScoreUpdated account new_score));;;
  retM movement.

(** Errors of a call: the origin, the address, or the list *)
Inductive CallError := BadOrigin | LookupFailed | List (e : ListError).

Definition on_list {A} (c : L A) : M Storage CallError A := fun s =>
  let '(s, r) := c s in
  (s, match r with Ok a => Ok a | Err e => Err (List e) | Panic => Panic end).

(** The origin is [Some who] when signed; [lookup] resolves an address. *)
Section calls.
Context {Source : Type} (lookup : Source -> option AccountId).

Definition rebag (origin : option AccountId) (dislocated : Source) : M Storage CallError unit :=
  let* _ := liftM (ok_or origin BadOrigin) in
  let* dislocated := liftM (ok_or (lookup dislocated) LookupFailed) in
  let* _ := on_list (do_rebag dislocated (score_of dislocated)) in
  retM tt.

Definition call_put_in_front_of (origin : option AccountId) (lighter : Source) : M Storage CallError unit :=
  let* heavier := liftM (ok_or origin BadOrigin) in
  let* lighter := liftM (ok_or (lookup lighter) LookupFailed) in
  on_list (put_in_front_of lighter heavier).

Definition put_in_front_of_other (origin : option AccountId) (heavier lighter : Source) : M Storage CallError unit :=
  let* _ := liftM (ok_or origin BadOrigin) in
  let* lighter := liftM (ok_or (lookup lighter) LookupFailed) in
  let* heavier := liftM (ok_or (lookup heavier) LookupFailed) in
  on_list (put_in_front_of lighter heavier).
End calls.

Definition integrity_test : bool :=
  bool_decide (Forall (fun p : Z * Z => p.1 < p.2) (zip thresholds (drop 1 thresholds))).

(** [ScoreProvider::score] of the pallet itself *)
Definition pallet_score (s : Storage) (x : AccountId) : Z := default 0 (score <$> node_get s x).

Definition on_update (x : AccountId) (new_score : Z) : L unit := do_rebag x new_score;;; retM tt.

(** ** Checking the state *)

(** The nodes of a bag, as far as a walk without a repetition can go *)
Definition walked (s : Storage) (b : Bag) : list Node := (successors s (S (size (ListNodes s))) (bag_head s b)).1.

(** [all] over the ids of a walk that may go round: it stops at the first id seen twice. *)
Definition all_new (ns : list Node) : bool := bool_decide (NoDup (id <$> ns)).

Definition bag_try_state (s : Storage) (b : Bag) : bool :=
  match bag_head s b with
  | Some h => bool_decide (node_prev s h = None)
  | None => bool_decide (tail b = None)
  end &&
  match bag_tail s b with
  | Some t => bool_decide (node_next s t = None)
  | None => bool_decide (head b = None)
  end &&
  all_new (walked s b).

Definition bag_contains (s : Storage) (b : Bag) (x : AccountId) : bool :=
  bool_decide (x ∈ id <$> walked s b).

Definition node_try_state (s : Storage) (n : Node) : bool :=
  match bag_get s (bag_upper n) with
  | None => false
  | Some b =>
      let terminal := bool_decide (head b = Some (id n)) || bool_decide (tail b = Some (id n)) in
      bag_contains s b (id n) && (negb (is_terminal n) && negb terminal || terminal)
  end.

(** The bags in use, by the thresholds from the least on *)
Definition active_bags (s : Storage) : list Bag := omap (bag_get s) (reverse bags_down).

Definition do_try_state (s : Storage) : bool :=
  let all := concat (walked s <$> omap (bag_get s) bags_down) in
  let nodes_count := wrap 32 (Z.of_nat (size (ListNodes s))) in
  all_new all &&
  (wrap 32 (Z.of_nat (length all)) =? CounterForListNodes s) &&
  (CounterForListNodes s =? nodes_count) &&
  forallb (bag_try_state s) (active_bags s) &&
  (nodes_count =? foldl (fun acc b => wadd 32 acc (wrap 32 (Z.of_nat (length (walked s b))))) 0 (active_bags s)) &&
  forallb (fun p => node_try_state s p.2) (map_to_list (ListNodes s)).
End config.
End bags_list.
