(* ===== verification/BagsSeg.v ===== *)
(** Doubly linked segments of the bags list: the operations on the links of one bag, against the
    list of its ids. *)

From stdpp Require Import base numbers functions list option gmap sets fin_maps sorting.
From S2P Require Import Prelude BagsList.

Local Open Scope Z_scope.

Section seg.
Context {AccountId : Type} `{Countable AccountId}.
Abbreviation Node := (@Node AccountId).
Abbreviation Bag := (@Bag AccountId).
Abbreviation Storage := (@Storage AccountId _ _).
Implicit Types (x y : AccountId) (ids l : list AccountId) (N : gmap AccountId Node) (u : Z)
  (sc : AccountId -> Z) (s : Storage).

(** The first of a list, or what comes after it; the last, or what comes before *)
Definition first_or l (d : option AccountId) : option AccountId := match l with [] => d | y :: _ => Some y end.
Definition last_or (d : option AccountId) l : option AccountId := match last l with Some y => Some y | None => d end.

(** The nodes of [ids] are linked in that order, between [p] and [q]. *)
Fixpoint dseg N u sc (p q : option AccountId) ids : Prop :=
  match ids with
  | [] => True
  | x :: l => N !! x = Some (mkNode x p (first_or l q) u (sc x)) /\ dseg N u sc (Some x) q l
  end.

Lemma first_or_app l l' d : first_or (l ++ l') d = first_or l (first_or l' d).
Proof. by destruct l. Qed.

Lemma last_or_cons d x l : last_or d (x :: l) = last_or (Some x) l.
Proof. unfold last_or. rewrite last_cons. by destruct (last l). Qed.

Lemma last_or_snoc d l x : last_or d (l ++ [x]) = Some x.
Proof. unfold last_or. by rewrite last_snoc. Qed.

Lemma last_or_None l : last_or None l = last l.
Proof. unfold last_or. by destruct (last l). Qed.

Lemma dseg_app N u sc l l' : forall p q,
  dseg N u sc p q (l ++ l') <-> dseg N u sc p (first_or l' q) l /\ dseg N u sc (last_or p l) q l'.
Proof.
  induction l as [|x l IH]; intros p q; cbn; [tauto|].
  rewrite IH, first_or_app, last_or_cons. tauto.
Qed.

Lemma dseg_frame N N' u sc sc' ids : forall p q,
  dseg N u sc p q ids -> (forall x, x ∈ ids -> N' !! x = N !! x /\ sc' x = sc x) -> dseg N' u sc' p q ids.
Proof.
  induction ids as [|x l IH]; intros p q; cbn; [done|]. intros [Hx Hl] Hf. split.
  - destruct (Hf x) as [-> ->]; [left|done].
  - apply IH; [done|]. intros y Hy. apply Hf. by right.
Qed.

Lemma dseg_lookup N u sc l x l' p q :
  dseg N u sc p q (l ++ x :: l') -> N !! x = Some (mkNode x (last_or p l) (first_or l' q) u (sc x)).
Proof. intros [_ [Hx _]]%dseg_app. done. Qed.

Lemma dseg_elem N u sc ids x : dseg N u sc None None ids -> x ∈ ids ->
  exists p q, N !! x = Some (mkNode x p q u (sc x)).
Proof. intros Hd (l & l' & ->)%list_elem_of_split. eauto using dseg_lookup. Qed.

(** Storage with other nodes *)
Definition set_nodes s N : Storage := mkStorage N (CounterForListNodes s) (ListBags s) (Events s).

Lemma node_put_known s (n : Node) :
  is_Some (ListNodes s !! id n) -> node_put n s = set_nodes s (<[id n := n]> (ListNodes s)).
Proof. intros Hn. unfold node_put, nodes_insert. by rewrite bool_decide_eq_true_2. Qed.

(** Changing the link at the end of a segment *)
Lemma dseg_set_last N u sc l p q q' x :
  NoDup (l ++ [x]) -> dseg N u sc p q (l ++ [x]) ->
  dseg (<[x := mkNode x (last_or p l) q' u (sc x)]> N) u sc p q' (l ++ [x]).
Proof.
  intros Hnd [Hl _]%dseg_app. apply NoDup_app in Hnd as (_ & Hd & _). apply dseg_app. cbn. split.
  - eapply dseg_frame; [done|]. intros y Hy. rewrite lookup_insert_ne; [done|].
    intros ->. apply (Hd _ Hy). left.
  - by rewrite lookup_insert_eq.
Qed.

(** ... and at its start *)
Lemma dseg_set_first N u sc l p p' q x :
  x ∉ l -> dseg N u sc p q (x :: l) ->
  dseg (<[x := mkNode x p' (first_or l q) u (sc x)]> N) u sc p' q (x :: l).
Proof.
  intros Hx [_ Hl]. split; [by rewrite lookup_insert_eq|]. eapply dseg_frame; [done|].
  intros y Hy. rewrite lookup_insert_ne; [done|]. by intros ->.
Qed.

(** ** Cutting a node out *)

Record cut N N' u sc (l : list AccountId) x (l' : list AccountId) : Prop := mkCut {
  cut_dom : dom N' = dom N;
  cut_seg : dseg N' u sc None None (l ++ l');
  cut_self : N' !! x = N !! x;
  cut_frame : forall y, y ∉ l ++ l' -> N' !! y = N !! y
}.

(** Linking the last node of a segment to another one *)
Lemma relink_last s u sc l q q' :
  dseg (ListNodes s) u sc None q l -> NoDup l ->
  exists N, match last l ≫= node_get s with Some p => node_put (set_next p q') s | None => s end = set_nodes s N /\
    dom N = dom (ListNodes s) /\ dseg N u sc None q' l /\ (forall y, y ∉ l -> N !! y = ListNodes s !! y).
Proof.
  intros Hd Hnd. destruct (snoc_cases l) as [->|(l0 & p & ->)].
  - exists (ListNodes s). by destruct s.
  - rewrite last_snoc. cbn [mbind option_bind]. unfold node_get.
    pose proof (dseg_lookup _ _ _ _ _ _ _ _ Hd) as Hlk. rewrite Hlk. rewrite node_put_known by (cbn; eauto).
    eexists. split; [done|]. cbn [set_next id prev bag_upper score]. split.
    { rewrite dom_insert_L. apply elem_of_dom_2 in Hlk. set_solver. }
    split; [by eapply dseg_set_last|]. intros y Hy. apply lookup_insert_ne. intros ->. apply Hy, elem_of_app. right. left.
Qed.

Lemma excise_ok s u sc l x l' (n : Node) :
  dseg (ListNodes s) u sc None None (l ++ x :: l') -> NoDup (l ++ x :: l') -> prev n = last l -> next n = first_or l' None ->
  exists N, excise n s = set_nodes s N /\ cut (ListNodes s) N u sc l x l'.
Proof.
  intros [Hdl [_ Hd]]%dseg_app Hnd Hp Hn. apply NoDup_app in Hnd as (Hndl & Hdis & Hnd). apply NoDup_cons in Hnd as [Hx Hnd].
  destruct (relink_last s u sc l _ (next n) Hdl Hndl) as (N1 & Heq & Hdom & Hl & Hf). rewrite Hn in Hl.
  assert (dseg N1 u sc (Some x) None l') as Hl'.
  { eapply dseg_frame; [done|]. intros y Hy. rewrite Hf; [done|]. intros Hyl. apply (Hdis y Hyl). by right. }
  assert (N1 !! x = ListNodes s !! x) as Hxs.
  { apply Hf. intros Hxl. apply (Hdis x Hxl). left. }
  unfold excise, node_prev. rewrite Hp, Heq. unfold node_next. rewrite Hn. destruct l' as [|q l'']; cbn [first_or mbind option_bind].
  - exists N1. split; [done|]. split; rewrite ?app_nil_r; done.
  - unfold node_get. cbn [ListNodes set_nodes]. destruct Hl' as [Hq Hl'']. rewrite Hq.
    rewrite node_put_known by (cbn; eauto). eexists. split; [done|]. cbn [ListNodes set_nodes set_prev id next bag_upper score].
    apply NoDup_cons in Hnd as [Hql _]. split.
    + rewrite dom_insert_L, <-Hdom. apply elem_of_dom_2 in Hq. set_solver.
    + apply dseg_app. rewrite last_or_None. split.
      * eapply dseg_frame; [done|]. intros y Hy. rewrite lookup_insert_ne; [done|]. intros ->.
        apply (Hdis _ Hy). right. left.
      * apply (dseg_set_first N1 u sc l'' (Some x)); [done|]. done.
    + rewrite lookup_insert_ne; [done|]. intros ->. apply Hx. left.
    + intros y Hy. rewrite elem_of_app, elem_of_cons in Hy. rewrite lookup_insert_ne by (intros ->; tauto). apply Hf. tauto.
Qed.

(** ** Appending a node *)

(** The ends of a bag with these ids *)
Definition bag_of u ids : Bag := mkBag (first_or ids None) (last ids) u.

(** [x] has entered a bag, which is now [ids]. *)
Record entered N N' u sc ids x : Prop := mkEntered {
  ent_dom : dom N' = {[x]} ∪ dom N;
  ent_seg : dseg N' u sc None None ids;
  ent_frame : forall y, y ∉ ids -> N' !! y = N !! y
}.

Lemma insert_node_ok s u sc sc' ids (n : Node) :
  dseg (ListNodes s) u sc None None ids -> NoDup ids -> id n ∉ ids ->
  sc' (id n) = score n -> (forall y, y ∈ ids -> sc' y = sc y) ->
  exists N, insert_node_unchecked n (bag_of u ids) s =
      (bag_of u (ids ++ [id n]),
       mkStorage N (if bool_decide (is_Some (ListNodes s !! id n)) then CounterForListNodes s
                    else saturating_add 32 (CounterForListNodes s) 1) (ListBags s) (Events s)) /\
    entered (ListNodes s) N u sc' (ids ++ [id n]) (id n).
Proof.
  intros Hd Hnd Hx Hsx Hsc. unfold insert_node_unchecked. cbn [head tail upper bag_of]. rewrite bool_decide_eq_false_2.
  2: { intros (l0 & ->)%last_Some. apply Hx, elem_of_app. right. left. }
  cbn [id]. set (n' := mkNode (id n) (last ids) None u (score n)).
  fold n'. set (s1 := node_put n' s).
  assert (dseg (ListNodes s1) u sc' None None ids) as Hd1.
  { eapply dseg_frame; [done|]. intros y Hy. split; [|auto]. cbn. apply lookup_insert_ne. by intros <-. }
  assert (dom (ListNodes s1) = {[id n]} ∪ dom (ListNodes s)) as Hdom1 by apply dom_insert_L.
  unfold bag_tail. cbn [tail bag_of]. destruct (snoc_cases ids) as [->|(l0 & t & ->)].
  - cbn [last mbind option_bind]. exists (ListNodes s1). split; [done|]. split; [done| |].
    + cbn [app dseg]. split; [|done]. unfold s1, n'. cbn. by rewrite lookup_insert_eq, Hsx.
    + intros y Hy. cbn. apply lookup_insert_ne. intros <-. apply Hy. left.
  - rewrite last_snoc. cbn [mbind option_bind]. unfold node_get.
    pose proof (dseg_lookup _ _ _ _ _ _ _ _ Hd1) as Hlk. rewrite Hlk. rewrite node_put_known by (cbn; eauto).
    assert (t <> id n) as Hne by (intros ->; apply Hx, elem_of_app; right; left).
    eexists. split; [cbn [set_nodes ListNodes]; unfold bag_of; rewrite last_snoc, <-app_assoc; by destruct l0|].
    cbn [set_next id prev bag_upper score]. split.
    + rewrite dom_insert_L, Hdom1. apply elem_of_dom_2 in Hlk. rewrite Hdom1 in Hlk. set_solver.
    + apply dseg_app. split; [by eapply dseg_set_last|]. cbn [dseg]. rewrite last_or_snoc. split; [|done].
      rewrite lookup_insert_ne by done. unfold s1, n'. cbn. by rewrite lookup_insert_eq, Hsx, last_snoc.
    + intros y Hy. rewrite !elem_of_app, !list_elem_of_singleton in Hy. rewrite lookup_insert_ne by (intros ->; tauto).
      cbn. apply lookup_insert_ne. intros <-. tauto.
Qed.

(** Putting a node in front of another one *)
Lemma dseg_enter_front N N1 u sc l x y l'  :
  NoDup (l ++ y :: l') -> x ∉ l ++ y :: l' -> dseg N u sc None None (l ++ y :: l') ->
  dom N1 = dom N -> dseg N1 u sc None (Some x) l -> (forall z, z ∉ l -> N1 !! z = N !! z) ->
  entered N (<[x := mkNode x (last l) (Some y) u (sc x)]> (<[y := mkNode y (Some x) (first_or l' None) u (sc y)]> N1))
    u sc (l ++ x :: y :: l') x.
Proof.
  intros Hnd Hx Hd Hdom Hl Hf. apply NoDup_app in Hnd as (_ & Hdis & Hnd). apply NoDup_cons in Hnd as [Hy _].
  apply not_elem_of_app in Hx as [Hxl Hxr]. apply not_elem_of_cons in Hxr as [Hxy Hxl'].
  assert (y ∉ l) as Hyl by (intros Hin; apply (Hdis y Hin); left).
  apply dseg_app in Hd as [_ [Hdy Hd]]. split.
  - rewrite !dom_insert_L, Hdom. apply elem_of_dom_2 in Hdy. set_solver.
  - apply dseg_app. split; [|split; [|split]].
    + eapply dseg_frame; [done|]. intros z Hz. rewrite !lookup_insert_ne by (intros ->; done). done.
    + by rewrite lookup_insert_eq, last_or_None.
    + by rewrite lookup_insert_ne, lookup_insert_eq by done.
    + eapply dseg_frame; [done|]. intros z Hz. rewrite !lookup_insert_ne by (intros ->; done). split; [|done].
      apply Hf. intros Hin. apply (Hdis z Hin). by right.
  - intros z Hz. rewrite not_elem_of_app, !not_elem_of_cons in Hz. rewrite !lookup_insert_ne by (intros ->; tauto). apply Hf. tauto.
Qed.

(** A change of the stored score *)
Lemma dseg_set_score N u sc x (n : Node) v ids : forall p q,
  N !! x = Some n -> dseg N u sc p q ids -> dseg (<[x := set_score n v]> N) u (<[x := v]> sc) p q ids.
Proof.
  induction ids as [|y l IH]; intros p q Hx; [done|]. intros [Hy Hl]. split; [|by apply IH].
  destruct (decide (y = x)) as [->|Hne].
  - rewrite lookup_insert_eq, fn_lookup_insert. rewrite Hx in Hy. injection Hy as ->. done.
  - by rewrite lookup_insert_ne, fn_lookup_insert_ne by done.
Qed.

(** ** Removing a node from its bag *)

Lemma remove_node_ok s u sc l x l' (n : Node) :
  dseg (ListNodes s) u sc None None (l ++ x :: l') -> NoDup (l ++ x :: l') ->
  id n = x -> prev n = last l -> next n = first_or l' None ->
  exists N, remove_node_unchecked n (bag_of u (l ++ x :: l')) s = (bag_of u (l ++ l'), set_nodes s N) /\
    cut (ListNodes s) N u sc l x l'.
Proof.
  intros Hd Hnd Hid Hp Hn. destruct (excise_ok s u sc l x l' n Hd Hnd Hp Hn) as (N & Heq & Hcut).
  exists N. split; [|done]. unfold remove_node_unchecked. rewrite Heq. cbn [head tail upper bag_of]. rewrite Hid, Hp, Hn.
  apply NoDup_app in Hnd as (_ & Hdis & Hnd). apply NoDup_cons in Hnd as [Hx Hnd]. unfold bag_of. do 2 f_equal.
  - rewrite !first_or_app. destruct l as [|y l0]; cbn [first_or]; [by rewrite bool_decide_eq_true_2|].
    rewrite bool_decide_eq_false_2; [done|]. intros [= ->]. apply (Hdis x); left.
  - rewrite last_app_cons, last_app, last_cons. destruct (last l') as [t|] eqn:Ht; [|by rewrite bool_decide_eq_true_2].
    rewrite bool_decide_eq_false_2; [done|]. intros [= ->]. apply Hx. apply last_Some in Ht as [l0 ->].
    apply elem_of_app. right. left.
Qed.

(** ** Walking along a bag *)

Lemma successors_ok s u sc ids : forall fuel p,
  dseg (ListNodes s) u sc p None ids -> (length ids <= fuel)%nat ->
  exists ns, successors s fuel (first_or ids None ≫= node_get s) = (ns, true) /\ id <$> ns = ids /\
    Forall (fun n => ListNodes s !! id n = Some n) ns.
Proof.
  induction ids as [|x l IH]; intros fuel p Hd Hf; cbn [first_or mbind option_bind].
  - exists []. by destruct fuel.
  - destruct Hd as [Hx Hl]. unfold node_get. rewrite Hx. destruct fuel as [|fuel]; [cbn in Hf; lia|].
    destruct (IH fuel (Some x) Hl ltac:(cbn in Hf; lia)) as (ns & Hs & Hids & Hall).
    cbn [successors]. unfold node_next. cbn [next]. rewrite Hs. eexists. split; [done|]. cbn. rewrite Hids. split; [done|].
    constructor; [|done]. done.
Qed.
End seg.
