(* ===== verification/BagsRepr.v ===== *)
(** The storage of the bags list against an abstract layout: for every bag the list of its ids,
    and for every id its stored score. *)

From stdpp Require Import base numbers functions list option gmap sets fin_maps sorting.
From S2P Require Import Prelude BagsList BagsSeg.

Local Open Scope Z_scope.

Section repr.
Context {AccountId : Type} `{Countable AccountId}.
Abbreviation Node := (@Node AccountId).
Abbreviation Bag := (@Bag AccountId).
Abbreviation Storage := (@Storage AccountId _ _).
Abbreviation Layout := (Z -> list AccountId).
Abbreviation Scores := (AccountId -> Z).
Implicit Types (x y : AccountId) (ids l : list AccountId) (N : gmap AccountId Node) (u v : Z)
  (L : Layout) (sc : Scores) (s : Storage) (X : gset AccountId) (C : gmap Z Bag)
  (B : gmap Z (option AccountId * option AccountId)).

(** What is stored of a bag *)
Definition ends ids : option (option AccountId * option AccountId) :=
  match ids with [] => None | _ => Some (first_or ids None, last ids) end.

(** The nodes of every bag are linked in the order of the layout; those of [X] are in no bag. *)
Record nodes_ok X L sc N : Prop := mkNodesOk {
  n_seg : forall u, dseg N u sc None None (L u);
  n_nodup : forall u, NoDup (L u);
  n_only : forall x n, N !! x = Some n -> x ∈ X \/ x ∈ L (bag_upper n);
  n_out : forall x u, x ∈ X -> x ∉ L u
}.

(** Every bag is stored with its ends, or is one of [C]. *)
Definition bags_ok C L B : Prop :=
  forall u, match C !! u with Some b => b = bag_of u (L u) | None => B !! u = ends (L u) end.

Record repr_with X C L sc s : Prop := mkRepr {
  r_nodes : nodes_ok X L sc (ListNodes s);
  r_bags : bags_ok C L (ListBags s);
  r_count : CounterForListNodes s = Z.of_nat (size (ListNodes s));
  r_bound : CounterForListNodes s < 2 ^ 32
}.

Definition repr := repr_with ∅ ∅.

(** ** Layouts *)

Definition in_layout x L : Prop := exists u, x ∈ L u.

Lemma nodes_ok_bag X L sc N x u : nodes_ok X L sc N -> x ∈ L u ->
  exists p q, N !! x = Some (mkNode x p q u (sc x)).
Proof. intros Hn Hx. eapply dseg_elem; [apply Hn|done]. Qed.

Lemma nodes_ok_unique X L sc N x u v : nodes_ok X L sc N -> x ∈ L u -> x ∈ L v -> u = v.
Proof.
  intros Hn (p & q & Hu)%(nodes_ok_bag _ _ _ _ _ _ Hn) (p' & q' & Hv)%(nodes_ok_bag _ _ _ _ _ _ Hn). congruence.
Qed.

Lemma nodes_ok_dom L sc N x : nodes_ok ∅ L sc N -> x ∈ dom N <-> in_layout x L.
Proof.
  intros Hn. split.
  - intros [n [?|Hx]%(n_only _ _ _ _ Hn)]%elem_of_dom; [set_solver|]. by exists (bag_upper n).
  - intros [u (p & q & Hx)%(nodes_ok_bag _ _ _ _ _ _ Hn)]. by apply elem_of_dom_2 in Hx.
Qed.

(** A node that is stored, with its place *)
Lemma nodes_ok_split L sc N x n : nodes_ok ∅ L sc N -> N !! x = Some n ->
  exists l l', L (bag_upper n) = l ++ x :: l' /\ n = mkNode x (last l) (first_or l' None) (bag_upper n) (sc x).
Proof.
  intros Hn Hx. destruct (n_only _ _ _ _ Hn _ _ Hx) as [?|Hin]; [set_solver|].
  apply list_elem_of_split in Hin as (l & l' & Heq). exists l, l'. split; [done|].
  pose proof (n_seg _ _ _ _ Hn (bag_upper n)) as Hd. rewrite Heq in Hd. apply dseg_lookup in Hd.
  rewrite last_or_None in Hd. congruence.
Qed.

Lemma nodes_ok_ext X L L' sc sc' N :
  (forall u, L u = L' u) -> (forall x, in_layout x L -> sc x = sc' x) -> nodes_ok X L sc N -> nodes_ok X L' sc' N.
Proof.
  intros HL Hsc Hn. split.
  - intros u. rewrite <-HL. eapply dseg_frame; [apply Hn|]. intros x Hx. split; [done|]. symmetry. apply Hsc. by exists u.
  - intros u. rewrite <-HL. apply Hn.
  - intros x n Hx. rewrite <-HL. by apply Hn.
  - intros x u Hx. rewrite <-HL. by apply Hn.
Qed.

Lemma repr_ext X C L L' sc sc' s :
  (forall u, L u = L' u) -> (forall x, in_layout x L -> sc x = sc' x) -> repr_with X C L sc s -> repr_with X C L' sc' s.
Proof.
  intros HL Hsc [Hn Hb Hc Hd]. split; [by eapply nodes_ok_ext| |done|done].
  intros u. specialize (Hb u). by rewrite <-HL.
Qed.

(** ** Nodes that leave and enter a bag *)

Lemma nodes_ok_cut L sc N N' u l x l' :
  nodes_ok ∅ L sc N -> L u = l ++ x :: l' -> cut N N' u sc l x l' -> nodes_ok {[x]} (<[u := l ++ l']> L) sc N'.
Proof.
  intros Hn Hu Hcut. pose proof (n_nodup _ _ _ _ Hn u) as Hnd. rewrite Hu in Hnd.
  rewrite <-Permutation_middle in Hnd. apply NoDup_cons in Hnd as [Hx Hnd]. split.
  - intros v. destruct (decide (v = u)) as [->|Hne]; [rewrite fn_lookup_insert; apply Hcut|].
    rewrite fn_lookup_insert_ne by done. eapply dseg_frame; [apply Hn|]. intros y Hy. split; [|done].
    apply Hcut. intros Hin. apply Hne. eapply nodes_ok_unique; [done|done|]. rewrite Hu. set_solver.
  - intros v. destruct (decide (v = u)) as [->|Hne]; [by rewrite fn_lookup_insert|].
    rewrite fn_lookup_insert_ne by done. apply Hn.
  - intros y n Hy. destruct (decide (y = x)) as [->|Hyx]; [left; set_solver|]. right.
    destruct (decide (y ∈ l ++ l')) as [Hin|Hout].
    + destruct (dseg_elem _ _ _ _ _ (cut_seg _ _ _ _ _ _ _ Hcut) Hin) as (p & q & Hy'). simplify_eq. cbn.
      by rewrite fn_lookup_insert.
    + rewrite (cut_frame _ _ _ _ _ _ _ Hcut) in Hy by done. destruct (n_only _ _ _ _ Hn _ _ Hy) as [?|Hin]; [set_solver|].
      rewrite fn_lookup_insert_ne; [done|]. intros Heq. rewrite <-Heq, Hu in Hin. set_solver.
  - intros y v ->%elem_of_singleton. destruct (decide (v = u)) as [->|Hne]; [rewrite fn_lookup_insert; set_solver|].
    rewrite fn_lookup_insert_ne by done. intros Hin. apply Hne. eapply nodes_ok_unique; [done|done|]. rewrite Hu. set_solver.
Qed.

Lemma nodes_ok_delete L sc N x : nodes_ok {[x]} L sc N -> nodes_ok ∅ L sc (delete x N).
Proof.
  intros Hn. split.
  - intros u. eapply dseg_frame; [apply Hn|]. intros y Hy. split; [|done]. apply lookup_delete_ne. intros ->.
    revert Hy. apply Hn. set_solver.
  - apply Hn.
  - intros y n [Hne Hy]%lookup_delete_Some. destruct (n_only _ _ _ _ Hn _ _ Hy); [set_solver|by right].
  - set_solver.
Qed.

Lemma nodes_ok_enter X L sc N N' u x v ids :
  nodes_ok X L sc N -> (forall w, x ∉ L w) -> X ⊆ {[x]} -> ids ≡ₚ x :: L u -> entered N N' u (<[x := v]> sc) ids x ->
  nodes_ok ∅ (<[u := ids]> L) (<[x := v]> sc) N'.
Proof.
  intros Hn Hx HX Hp Ha. split.
  - intros w. destruct (decide (w = u)) as [->|Hne]; [rewrite fn_lookup_insert; apply Ha|].
    rewrite fn_lookup_insert_ne by done. eapply dseg_frame; [apply Hn|]. intros y Hy.
    assert (y <> x) by (intros ->; by apply (Hx w)). split; [|by rewrite fn_lookup_insert_ne].
    apply Ha. rewrite Hp. intros [->|Hin]%elem_of_cons; [done|]. apply Hne. by eapply nodes_ok_unique.
  - intros w. destruct (decide (w = u)) as [->|Hne]; [|rewrite fn_lookup_insert_ne by done; apply Hn].
    rewrite fn_lookup_insert, Hp. apply NoDup_cons. split; [apply Hx|apply Hn].
  - intros y n Hy. right. destruct (decide (y ∈ ids)) as [Hin|Hout].
    + destruct (dseg_elem _ _ _ _ _ (ent_seg _ _ _ _ _ _ Ha) Hin) as (p & q & Hy'). simplify_eq. cbn.
      by rewrite fn_lookup_insert.
    + rewrite (ent_frame _ _ _ _ _ _ Ha) in Hy by done. rewrite Hp in Hout.
      destruct (n_only _ _ _ _ Hn _ _ Hy) as [?|Hin]; [set_solver|].
      rewrite fn_lookup_insert_ne; [done|]. intros Heq. rewrite <-Heq in Hin. set_solver.
  - set_solver.
Qed.

Lemma nodes_ok_set_score L sc N x n v :
  nodes_ok ∅ L sc N -> N !! x = Some n -> nodes_ok ∅ L (<[x := v]> sc) (<[x := set_score n v]> N).
Proof.
  intros Hn Hx. split; [|apply Hn| |set_solver].
  - intros u. apply dseg_set_score; [done|]. apply Hn.
  - intros y m. destruct (decide (y = x)) as [->|Hne].
    + rewrite lookup_insert_eq. intros [= <-]. exact (n_only _ _ _ _ Hn _ _ Hx).
    + rewrite lookup_insert_ne by done. apply Hn.
Qed.

(** ** Bags *)

Lemma bags_ok_lookup L s u : bags_ok ∅ L (ListBags s) ->
  bag_get s u = (match L u with [] => None | ids => Some (bag_of u ids) end).
Proof.
  intros Hb. specialize (Hb u). rewrite lookup_empty in Hb. unfold bag_get. rewrite Hb. by destruct (L u).
Qed.

Lemma bags_ok_make C L s u : bags_ok C L (ListBags s) ->
  default (bag_get_or_make s u) (C !! u) = bag_of u (L u).
Proof.
  intros Hb. specialize (Hb u). destruct (C !! u) as [b|]; [done|]. cbn. unfold bag_get_or_make, bag_get. rewrite Hb.
  by destruct (L u).
Qed.

Lemma bags_ok_set C L B u ids : bags_ok C L B -> bags_ok (<[u := bag_of u ids]> C) (<[u := ids]> L) B.
Proof.
  intros Hb v. specialize (Hb v). destruct (decide (v = u)) as [->|Hne]; [by rewrite lookup_insert_eq, fn_lookup_insert|].
  by rewrite lookup_insert_ne, fn_lookup_insert_ne by done.
Qed.

Lemma bag_of_ends u ids : bag_of u ids = match ends ids with Some e => mkBag e.1 e.2 u | None => mkBag None None u end.
Proof. by destruct ids. Qed.

(** A change that keeps the ends *)
Lemma bags_ok_ends C L B u ids : bags_ok C L B -> ends ids = ends (L u) -> bags_ok C (<[u := ids]> L) B.
Proof.
  intros Hb Hids v. specialize (Hb v). destruct (decide (v = u)) as [->|Hne]; [|by rewrite fn_lookup_insert_ne].
  rewrite fn_lookup_insert. destruct (C !! u) as [b|]; [|congruence]. by rewrite Hb, !(bag_of_ends u), Hids.
Qed.

(** An inner node may leave or enter without a change to the ends. *)
Lemma ends_inner l x l' : l <> [] -> l' <> [] -> ends (l ++ l') = ends (l ++ x :: l').
Proof.
  intros Hl Hl'. destruct l as [|y l]; [done|]. cbn [ends app first_or]. rewrite !app_comm_cons, last_app_cons, last_app, last_cons.
  destruct (snoc_cases l') as [->|(l0 & t & ->)]; [done|]. rewrite last_snoc, app_comm_cons, last_snoc. done.
Qed.

Lemma bags_ok_inner C L B u l x l' :
  bags_ok C L B -> L u = l ++ x :: l' -> l <> [] -> l' <> [] -> bags_ok C (<[u := l ++ l']> L) B.
Proof. intros Hb Hu Hl Hl'. apply bags_ok_ends; [done|]. rewrite Hu. by apply ends_inner. Qed.

(** The bag that is put, in the map *)
Lemma bag_put_bags s u ids :
  bag_put (bag_of u ids) s =
  set_bags s (match ends ids with Some e => <[u := e]> (ListBags s) | None => delete u (ListBags s) end).
Proof. destruct ids as [|x l]; [done|]. unfold bag_put, bag_is_empty. cbn. done. Qed.

Lemma bags_ok_put C L s u ids :
  bags_ok C L (ListBags s) -> bags_ok (delete u C) (<[u := ids]> L) (ListBags (bag_put (bag_of u ids) s)).
Proof.
  intros Hb v. specialize (Hb v). rewrite bag_put_bags. cbn [ListBags set_bags].
  destruct (decide (v = u)) as [->|Hne].
  - rewrite lookup_delete_eq, fn_lookup_insert. destruct ids; cbn [ends]; [by rewrite lookup_delete_eq|by rewrite lookup_insert_eq].
  - rewrite lookup_delete_ne, fn_lookup_insert_ne by done. destruct (ends ids);
    [by rewrite lookup_insert_ne|by rewrite lookup_delete_ne].
Qed.

(** Writing the collected bags *)
Lemma bags_ok_flush L : forall us C C' s,
  (forall u b, C !! u = Some b -> b = bag_of u (L u)) -> (forall u, u ∈ dom C' -> u ∈ us /\ C' !! u = C !! u) -> bags_ok C' L (ListBags s) ->
  exists B, foldl (fun s b => bag_put b s) s (omap (fun u => C !! u) us) = set_bags s B /\ bags_ok ∅ L B.
Proof.
  induction us as [|u us IH]; intros C C' s HC Hsub Hb.
  - exists (ListBags s). split; [by destruct s|]. intros u. specialize (Hb u). destruct (C' !! u) eqn:Hu; [|done].
    apply elem_of_dom_2, Hsub in Hu as [Hu _]. by apply elem_of_nil in Hu.
  - cbn [omap list_omap]. destruct (C !! u) as [b|] eqn:Hu.
    + cbn [foldl]. rewrite (HC _ _ Hu). set (s1 := bag_put (bag_of u (L u)) s).
      destruct (IH C (delete u C') s1 HC) as (B & Heq & HB).
      * intros v. rewrite dom_delete. intros [[Hv Hv']%Hsub Hne]%elem_of_difference. rewrite not_elem_of_singleton in Hne.
        rewrite lookup_delete_ne by done. apply elem_of_cons in Hv as [->|Hv]; done.
      * pose proof (bags_ok_put C' L s u (L u) Hb) as Hp. intros v. specialize (Hp v). 
        destruct (decide (v = u)) as [->|Hne]; [by rewrite fn_lookup_insert in Hp|by rewrite fn_lookup_insert_ne in Hp].
      * exists B. split; [|done]. rewrite Heq. unfold s1. rewrite bag_put_bags. done.
    + apply (IH C C'); [done| |done]. intros v Hv. destruct (Hsub v Hv) as [[->|Hin]%elem_of_cons Heq]; [|done].
      rewrite Hu in Heq. by apply not_elem_of_dom in Heq.
Qed.
End repr.
