(* ===== verification/BagsOps.v ===== *)
(** What the operations of the bags list do to the layout. *)

From stdpp Require Import base numbers functions list option gmap sets fin_maps sorting.
From S2P Require Import Prelude BagsList BagsSeg BagsRepr.

Local Open Scope Z_scope.

Section ops.
Context {AccountId : Type} `{Countable AccountId}.
Abbreviation Node := (@Node AccountId).
Abbreviation Bag := (@Bag AccountId).
Abbreviation Storage := (@Storage AccountId _ _).
Abbreviation Layout := (Z -> list AccountId).
Implicit Types (x y : AccountId) (ids l xs : list AccountId) (N : gmap AccountId Node) (u v : Z)
  (L : Layout) (sc : AccountId -> Z) (s : Storage) (X : gset AccountId) (C : gmap Z Bag) (n : Node).

(** ** Entering a bag *)

Lemma append_ok X L sc s n u :
  nodes_ok X L sc (ListNodes s) -> X ⊆ {[id n]} -> (forall w, id n ∉ L w) -> bags_ok ∅ L (ListBags s) ->
  CounterForListNodes s = Z.of_nat (size (ListNodes s)) -> CounterForListNodes s < 2 ^ 32 ->
  (ListNodes s !! id n = None -> CounterForListNodes s + 1 < 2 ^ 32) ->
  exists b s1, insert_node_unchecked n (bag_get_or_make s u) s = (b, s1) /\
    repr (<[u := L u ++ [id n]]> L) (<[id n := score n]> sc) (bag_put b s1) /\
    Events (bag_put b s1) = Events s /\
    CounterForListNodes (bag_put b s1) =
      CounterForListNodes s + (if bool_decide (is_Some (ListNodes s !! id n)) then 0 else 1).
Proof.
  intros Hn HX Hx Hb Hc Hbd Hroom. pose proof (bags_ok_make ∅ L s u Hb) as Hmk. rewrite lookup_empty in Hmk. cbn in Hmk.
  rewrite Hmk.
  destruct (insert_node_ok s u sc (<[id n := score n]> sc) (L u) n) as (N & Heq & Ha);
    [apply Hn|apply Hn|apply Hx|by rewrite fn_lookup_insert| |].
  { intros y Hy. apply fn_lookup_insert_ne. intros <-. by apply (Hx u). }
  rewrite Heq. do 2 eexists. split; [done|].
  set (c := if bool_decide _ then _ else saturating_add _ _ _).
  assert (c = CounterForListNodes s + (if bool_decide (is_Some (ListNodes s !! id n)) then 0 else 1) /\
    c = Z.of_nat (size N) /\ c < 2 ^ 32) as (Hc1 & Hc2 & Hc3).
  { assert (size N = size ({[id n]} ∪ dom (ListNodes s))) as Hsz by (rewrite <-size_dom; f_equal; apply Ha). unfold c.
    case_bool_decide as Hk.
    - apply elem_of_dom in Hk. rewrite subseteq_union_1_L, size_dom in Hsz by set_solver. lia.
    - rewrite <-not_elem_of_dom in Hroom. rewrite <-elem_of_dom in Hk.
      rewrite size_union, size_singleton, size_dom in Hsz by set_solver. unfold saturating_add, umax.
      specialize (Hroom Hk). lia. }
  rewrite bag_put_bags. cbn [ListNodes ListBags CounterForListNodes Events set_bags].
  split; [|done]. split; cbn [ListNodes ListBags CounterForListNodes set_bags]; [| |done|done].
  { eapply nodes_ok_enter; [done..| |done]. by rewrite Permutation_app_comm. }
  pose proof (bags_ok_put ∅ L s u (L u ++ [id n]) Hb) as Hp. rewrite bag_put_bags, delete_empty in Hp. exact Hp.
Qed.

(** ** Leaving a bag *)

(** Only the links of the node matter, not its score. *)
Lemma leave_ok L sc s x u l l' n :
  nodes_ok ∅ L sc (ListNodes s) -> L u = l ++ x :: l' -> id n = x -> prev n = last l -> next n = first_or l' None ->
  exists N, excise n s = set_nodes s N /\
    remove_node_unchecked n (bag_of u (L u)) s = (bag_of u (l ++ l'), set_nodes s N) /\
    nodes_ok {[x]} (<[u := l ++ l']> L) sc N /\ dom N = dom (ListNodes s).
Proof.
  intros Hn Hu Hid Hp Hq. pose proof (n_seg _ _ _ _ Hn u) as Hd. pose proof (n_nodup _ _ _ _ Hn u) as Hnd. rewrite Hu in *.
  destruct (remove_node_ok s u sc l x l' n) as (N & Heq & Hcut); [done..|]. exists N. split; [|split; [done|split]].
  - unfold remove_node_unchecked in Heq. congruence.
  - by eapply nodes_ok_cut.
  - apply Hcut.
Qed.

Lemma is_terminal_place l l' x u v :
  is_terminal (mkNode x (last l) (first_or l' None) u v) = false <-> l <> [] /\ l' <> [].
Proof.
  unfold is_terminal. cbn. rewrite negb_false_iff, andb_true_iff, !bool_decide_eq_true.
  destruct (snoc_cases l) as [->|(l0 & y & ->)], l'; cbn; rewrite ?last_snoc;
    (split; [intros [[? ?] [? ?]]|intros [? ?]]); try done; split; [by destruct l0|done].
Qed.

(** Bags without some ids *)
Definition drop_ids xs L : Layout := fun u => filter (fun y => y ∉ xs) (L u).

Lemma drop_ids_nil L u : drop_ids [] L u = L u.
Proof. apply filter_all. intros y _. apply not_elem_of_nil. Qed.

Lemma drop_ids_cons x xs L u : drop_ids (x :: xs) L u = drop_ids xs (drop_ids [x] L) u.
Proof.
  unfold drop_ids. rewrite list_filter_filter. apply list_filter_iff. intros y. rewrite not_elem_of_cons, list_elem_of_singleton. tauto.
Qed.

Lemma drop_ids_absent x L u : x ∉ L u -> drop_ids [x] L u = L u.
Proof. intros Hx. apply filter_all. intros y Hy ->%list_elem_of_singleton. done. Qed.

Lemma drop_ids_ext xs L L' u : L u = L' u -> drop_ids xs L u = drop_ids xs L' u.
Proof. unfold drop_ids. by intros ->. Qed.

Lemma drop_ids_split X L sc N x u l l' v : nodes_ok X L sc N -> L u = l ++ x :: l' ->
  (<[u := l ++ l']> L : Layout) v = drop_ids [x] L v.
Proof.
  intros Hn Hu. destruct (decide (v = u)) as [->|Hne].
  - rewrite fn_lookup_insert. unfold drop_ids. pose proof (n_nodup _ _ _ _ Hn u) as Hnd. rewrite Hu in *.
    rewrite <-Permutation_middle in Hnd. apply NoDup_cons in Hnd as [Hx _].
    rewrite filter_app, filter_cons_False by (rewrite list_elem_of_singleton; tauto). rewrite <-filter_app.
    symmetry. apply filter_all. intros y Hy ->%list_elem_of_singleton. done.
  - rewrite fn_lookup_insert_ne by done. symmetry. apply drop_ids_absent. intros Hx. apply Hne.
    eapply nodes_ok_unique; [done|done|]. rewrite Hu. apply elem_of_app. right. left.
Qed.

Lemma in_drop_ids y xs L : in_layout y (drop_ids xs L) <-> in_layout y L /\ y ∉ xs.
Proof.
  unfold in_layout, drop_ids. split.
  - intros (u & [Hy Hin]%list_elem_of_filter). eauto.
  - intros ((u & Hu) & Hy). exists u. by apply list_elem_of_filter.
Qed.

(** ** [remove_many] *)

Lemma remove_from_storage_ok C L sc s N x n :
  nodes_ok {[x]} L sc N -> x ∈ dom N -> dom N = dom (ListNodes s) -> id n = x -> bags_ok C L (ListBags s) ->
  CounterForListNodes s = Z.of_nat (size (ListNodes s)) -> CounterForListNodes s < 2 ^ 32 ->
  let s' := remove_from_storage_unchecked n (set_nodes s N) in
  repr_with ∅ C L sc s' /\ Events s' = Events s /\ ListBags s' = ListBags s /\
  CounterForListNodes s' = CounterForListNodes s - 1.
Proof.
  intros Hn Hx Hdom <- Hb Hc Hbd s'.
  assert (CounterForListNodes s' = CounterForListNodes s - 1 /\ size (delete (id n) N) = (size (ListNodes s) - 1)%nat /\
    0 < CounterForListNodes s) as (Hc1 & Hc2 & Hc3).
  { assert (size (ListNodes s) <> 0%nat) as Hne.
    { rewrite <-size_dom, <-Hdom. intros Hz%size_empty_inv. set_solver. }
    assert (size N = size (ListNodes s)) as Hsz by (by rewrite <-!size_dom, Hdom).
    apply elem_of_dom in Hx as Hk. unfold s', remove_from_storage_unchecked, nodes_remove. cbn [CounterForListNodes ListNodes set_nodes].
    rewrite bool_decide_eq_true_2 by done. unfold saturating_sub. split_and!; [lia| |lia].
    destruct Hk as [n' Hk]. rewrite map_size_delete, Hk. cbn. lia. }
  split_and!; [|done|done|done]. split; [by apply nodes_ok_delete|done|cbn [ListNodes]|].
  - unfold s' at 2, remove_from_storage_unchecked, nodes_remove. cbn [ListNodes set_nodes]. lia.
  - lia.
Qed.

Lemma remove_loop_ok xs : forall C L sc s,
  repr_with ∅ C L sc s -> exists C' s', remove_loop xs C s = (C', s', CounterForListNodes s - CounterForListNodes s') /\
    repr_with ∅ C' (drop_ids xs L) sc s' /\ Events s' = Events s /\ CounterForListNodes s' <= CounterForListNodes s.
Proof.
  induction xs as [|x xs IH]; intros C L sc s Hr; cbn [remove_loop].
  { exists C, s. split; [f_equal; lia|]. split; [|split; [done|lia]]. eapply repr_ext; [..|done]; [|done]. intros u. by rewrite drop_ids_nil. }
  destruct Hr as [Hn Hb Hc Hbd]. unfold node_get. destruct (ListNodes s !! x) as [n|] eqn:Hx.
  2: { destruct (IH C L sc s) as (C' & s' & Heq & Hr & He); [done|]. exists C', s'. rewrite Heq. split; [done|]. split; [|done].
    eapply repr_ext; [..|done]; [|done]. intros u. rewrite drop_ids_cons. apply drop_ids_ext. symmetry. apply drop_ids_absent.
    intros Hin. apply not_elem_of_dom in Hx. apply Hx, (nodes_ok_dom _ _ _ _ Hn). by exists u. }
  destruct (nodes_ok_split _ _ _ _ _ Hn Hx) as (l & l' & Hu & Hne). set (u := bag_upper n) in *.
  destruct (leave_ok L sc s x u l l' n) as (N & Hex & Hrm & HnN & Hdom); [done|done|by rewrite Hne..|].
  set (D := if is_terminal n then _ else _).
  assert (exists C1, D = (C1, set_nodes s N) /\ bags_ok C1 (<[u := l ++ l']> L) (ListBags s)) as (C1 & HD & Hb1).
  { unfold D. destruct (is_terminal n) eqn:Ht.
    - rewrite (bags_ok_make C L s u Hb), Hrm. eexists. split; [done|]. by apply bags_ok_set.
    - rewrite Hex. eexists. split; [done|]. rewrite Hne in Ht. apply is_terminal_place in Ht as [Hl Hl'].
      by eapply bags_ok_inner. }
  rewrite HD.
  destruct (remove_from_storage_ok C1 (<[u := l ++ l']> L) sc s N x n) as (Hr1 & He1 & _ & Hc1);
    [done|rewrite Hdom; by apply elem_of_dom_2 in Hx|done|by rewrite Hne|done..|].
  set (s1 := remove_from_storage_unchecked n (set_nodes s N)) in *.
  destruct (IH C1 _ sc s1 Hr1) as (C' & s' & Heq & Hr & He & Hle). rewrite Heq. exists C', s'. split; [|split; [|split; [congruence|lia]]].
  - f_equal. rewrite wadd_small; [lia|]. unfold in_range. destruct Hr as [_ _ Hc' _]. lia.
  - eapply repr_ext; [..|done]; [|done]. intros v. rewrite (drop_ids_cons x). apply drop_ids_ext. by eapply drop_ids_split.
Qed.

Lemma btree_values_flush C L s : bags_ok C L (ListBags s) ->
  exists B, foldl (fun s b => bag_put b s) s (btree_values C) = set_bags s B /\ bags_ok ∅ L B.
Proof.
  intros Hb. eapply (bags_ok_flush L _ C C); [| |done].
  - intros u b Hu. specialize (Hb u). by rewrite Hu in Hb.
  - intros u Hu. split; [|done]. unfold btree_scores. rewrite merge_sort_Permutation. by apply elem_of_elements.
Qed.

Lemma remove_many_ok xs L sc s : repr L sc s ->
  exists s', remove_many xs s = (s', CounterForListNodes s - CounterForListNodes s') /\
    repr (drop_ids xs L) sc s' /\ Events s' = Events s.
Proof.
  intros Hr. unfold remove_many. destruct (remove_loop_ok xs ∅ L sc s Hr) as (C & s1 & Heq & [Hn Hb Hc Hbd] & He & _). rewrite Heq.
  destruct (btree_values_flush C _ s1 Hb) as (B & Hfl & HB). rewrite Hfl. exists (set_bags s1 B). split; [done|]. split; [|done].
  by split.
Qed.
End ops.
