(* ===== verification/BagsMoves.v ===== *)
(** Inserting, removing and moving ids of the bags list. *)

From stdpp Require Import base numbers functions list option gmap sets fin_maps sorting.
From S2P Require Import Prelude BagsList BagsSeg BagsRepr BagsOps.

Local Open Scope Z_scope.

Section moves.
Context {AccountId : Type} `{Countable AccountId} (thresholds : list Z) (max_value : Z).
Abbreviation Node := (@Node AccountId).
Abbreviation Bag := (@Bag AccountId).
Abbreviation Storage := (@Storage AccountId _ _).
Abbreviation Layout := (Z -> list AccountId).
Abbreviation notional := (notional_bag_for thresholds max_value).
Implicit Types (x y : AccountId) (ids l xs : list AccountId) (N : gmap AccountId Node) (u v : Z)
  (L : Layout) (sc : AccountId -> Z) (s : Storage) (n : Node).

(** ** The operations on layouts *)

Definition push u x L : Layout := <[u := L u ++ [x]]> L.

Fixpoint put_before (lighter heavier : AccountId) ids : list AccountId :=
  match ids with
  | [] => []
  | y :: l => if decide (y = lighter) then heavier :: y :: l else y :: put_before lighter heavier l
  end.

Definition put_front u lighter heavier L : Layout :=
  <[u := put_before lighter heavier (drop_ids [heavier] L u)]> (drop_ids [heavier] L).

Lemma put_before_split l y l' h : y ∉ l -> put_before y h (l ++ y :: l') = l ++ h :: y :: l'.
Proof.
  induction l as [|z l IH]; cbn; intros Hy; [by rewrite decide_True|]. apply not_elem_of_cons in Hy as [Hz Hy].
  rewrite decide_False by done. by rewrite IH.
Qed.

(** ** [insert] *)

Lemma insert_ok L sc s x v :
  repr L sc s -> ListNodes s !! x = None -> CounterForListNodes s + 1 < 2 ^ 32 ->
  exists s', insert thresholds max_value x v s = (s', Ok tt) /\
    repr (push (notional v) x L) (<[x := v]> sc) s' /\ Events s' = Events s /\
    CounterForListNodes s' = CounterForListNodes s + 1.
Proof.
  intros [Hn Hb Hc Hbd] Hx Hroom. unfold insert. cbn [bindM getM]. unfold bindM, getM. unfold contains.
  rewrite bool_decide_eq_false_2 by (rewrite Hx; by intros [? ?]). unfold insert_unchecked.
  destruct (append_ok ∅ L sc s (mkNode x None None 0 v) (notional v)) as (b & s1 & Heq & Hr & He & Hc');
    [done|set_solver| |done..|].
  { intros w Hw. apply not_elem_of_dom in Hx. apply Hx, (nodes_ok_dom _ _ _ _ Hn). by exists w. }
  rewrite Heq. exists (bag_put b s1). split; [done|]. split; [done|]. split; [done|]. rewrite Hc'. cbn [id].
  by rewrite Hx.
Qed.

Lemma insert_duplicate s x v : is_Some (ListNodes s !! x) -> insert thresholds max_value x v s = (s, Err Duplicate).
Proof. intros Hx. unfold insert, bindM, getM, contains. by rewrite bool_decide_eq_true_2. Qed.

(** ** [remove] *)

Lemma list_remove_ok L sc s x :
  repr L sc s -> is_Some (ListNodes s !! x) ->
  exists s', remove x s = (s', Ok tt) /\ repr (drop_ids [x] L) sc s' /\ Events s' = Events s.
Proof.
  intros Hr Hx. unfold remove, bindM, getM, contains. rewrite bool_decide_eq_true_2 by done.
  destruct (remove_many_ok [x] L sc s Hr) as (s' & Heq & Hr' & He). rewrite Heq. by exists s'.
Qed.

Lemma remove_missing s x : ListNodes s !! x = None -> remove x s = (s, Err NodeNotFound).
Proof.
  intros Hx. unfold remove, bindM, getM, contains. rewrite Hx. rewrite bool_decide_eq_false_2; [done|]. by intros [? ?].
Qed.

(** What is removed leaves room. *)
Lemma remove_room L sc s s' x :
  repr L sc s -> is_Some (ListNodes s !! x) -> repr (drop_ids [x] L) sc s' ->
  ListNodes s' !! x = None /\ CounterForListNodes s' + 1 < 2 ^ 32.
Proof.
  intros [Hn _ Hc Hbd] Hx [Hn' _ Hc' _]. assert (ListNodes s' !! x = None) as Hx'.
  { apply not_elem_of_dom. rewrite (nodes_ok_dom _ _ _ _ Hn'), in_drop_ids. set_solver. }
  split; [done|]. assert (size (dom (ListNodes s')) < size (dom (ListNodes s)))%nat as Hlt.
  { apply subset_size. apply elem_of_dom in Hx. apply not_elem_of_dom in Hx'. split; [|set_solver].
    intros y. rewrite (nodes_ok_dom _ _ _ _ Hn'), (nodes_ok_dom _ _ _ _ Hn), in_drop_ids. tauto. }
  rewrite !size_dom in Hlt. lia.
Qed.

(** ** [update_position_for] *)

Lemma update_in_place_ok L sc s x n v :
  repr L sc s -> ListNodes s !! x = Some n -> notional v = bag_upper n ->
  exists s', update_position_for thresholds max_value n v s = (s', None) /\
    repr L (<[x := v]> sc) s' /\ Events s' = Events s.
Proof.
  intros [Hn Hb Hc Hbd] Hx Hv. destruct (nodes_ok_split _ _ _ _ _ Hn Hx) as (l & l' & Hu & Hne).
  assert (id (set_score n v) = x) as Hid by (by rewrite Hne). unfold update_position_for, is_misplaced.
  change (bag_upper (set_score n v)) with (bag_upper n). rewrite Hv, Z.eqb_refl. cbn [negb].
  rewrite node_put_known by (rewrite Hid, Hx; by eexists). rewrite Hid. eexists. split; [done|]. split; [|done].
  split; cbn [ListNodes ListBags CounterForListNodes set_nodes]; [by apply nodes_ok_set_score|done| |done].
  rewrite map_size_insert, Hx. done.
Qed.

Lemma update_moves_ok L sc s x n v :
  repr L sc s -> ListNodes s !! x = Some n -> notional v <> bag_upper n ->
  exists s', update_position_for thresholds max_value n v s = (s', Some (bag_upper n, notional v)) /\
    repr (push (notional v) x (drop_ids [x] L)) (<[x := v]> sc) s' /\ Events s' = Events s.
Proof.
  intros [Hn Hb Hc Hbd] Hx Hv. destruct (nodes_ok_split _ _ _ _ _ Hn Hx) as (l & l' & Hu & Hne). set (u := bag_upper n) in *.
  unfold update_position_for, is_misplaced. change (bag_upper (set_score n v)) with u. apply Z.eqb_neq in Hv as ->. cbn [negb].
  set (n' := set_score n v).
  destruct (leave_ok L sc s x u l l' n') as (N & Hex & Hrm & HnN & Hdom); [done|done|unfold n'; by rewrite Hne..|].
  set (s1 := if is_terminal n' then _ else _).
  assert (exists B, s1 = set_bags (set_nodes s N) B /\ bags_ok ∅ (<[u := l ++ l']> L) B) as (B & Hs1 & HB).
  { unfold s1. destruct (is_terminal n') eqn:Ht.
    - rewrite (bags_ok_lookup L s u Hb). destruct (L u) as [|y0 l0] eqn:HLu; [by destruct l|]. rewrite Hrm, bag_put_bags.
      eexists. split; [done|]. pose proof (bags_ok_put ∅ L s u (l ++ l') Hb) as Hp. by rewrite bag_put_bags, delete_empty in Hp.
    - exists (ListBags s). split; [by rewrite Hex|]. unfold n' in Ht. rewrite Hne in Ht. apply is_terminal_place in Ht as [Hl Hl'].
      by eapply bags_ok_inner. }
  rewrite Hs1. assert (id n' = x) as Hid by (unfold n'; by rewrite Hne). assert (is_Some (N !! id n')) as Hk.
  { rewrite Hid. apply elem_of_dom. rewrite Hdom. by apply elem_of_dom_2 in Hx. }
  destruct (append_ok {[x]} (<[u := l ++ l']> L) sc (set_bags (set_nodes s N) B) n' (notional v)) as (b & s2 & Heq & Hr & He & _);
    [done|by rewrite Hid|intros w; rewrite Hid; apply HnN; set_solver|done| |done| |].
  - cbn. rewrite Hc. by rewrite <-!size_dom, Hdom.
  - cbn [ListNodes set_bags set_nodes]. destruct Hk as [? Hk]. by rewrite Hk.
  - rewrite Heq. eexists. split; [done|]. split; [|done]. rewrite Hid in Hr. eapply repr_ext; [| |done]; [|done].
    intros w. unfold push. pose proof (drop_ids_split _ _ _ _ x u l l' w Hn Hu) as Hw.
    pose proof (drop_ids_split _ _ _ _ x u l l' (notional v) Hn Hu) as Hw'.
    destruct (decide (w = notional v)) as [->|Hne']; [by rewrite !fn_lookup_insert, Hw'|by rewrite !(fn_lookup_insert_ne _ (notional v)) by done].
Qed.

(** ** [put_in_front_of] *)

(** The last steps: the bag and both nodes are written. *)
Lemma insert_at_writes s N1 x y u v l l' w :
  dom N1 = dom (ListNodes s) -> y ∈ dom (ListNodes s) -> x ∉ dom (ListNodes s) -> CounterForListNodes s + 1 < 2 ^ 32 ->
  bag_get s u = Some (bag_of u (l ++ y :: l')) ->
  match last l ≫= node_get s with Some p => node_put (set_next p (Some x)) s | None => s end = set_nodes s N1 ->
  forall pn qn, exists B,
    insert_at_unchecked (mkNode y (last l) (first_or l' None) u w) (mkNode x pn qn u v) s =
      (mkStorage (<[x := mkNode x (last l) (Some y) u v]> (<[y := mkNode y (Some x) (first_or l' None) u w]> N1))
         (CounterForListNodes s + 1) B (Events s), Ok tt) /\
    B = if bool_decide (l = []) then ListBags (bag_put (bag_of u (x :: y :: l')) s) else ListBags s.
Proof.
  intros Hdom Hy Hx Hroom Hb Heq pn qn.
  set (B := if bool_decide (l = []) then _ else _). exists B. split; [|done].
  assert (nodes_insert x (mkNode x (last l) (Some y) u v)
      (nodes_insert y (mkNode y (Some x) (first_or l' None) u w) (mkStorage N1 (CounterForListNodes s) B (Events s))) =
    mkStorage (<[x := mkNode x (last l) (Some y) u v]> (<[y := mkNode y (Some x) (first_or l' None) u w]> N1))
         (CounterForListNodes s + 1) B (Events s)) as <-.
  { unfold nodes_insert. cbn [ListNodes CounterForListNodes ListBags Events]. rewrite <-Hdom in Hx, Hy.
    rewrite !bool_decide_decide, decide_False, decide_True by (rewrite <-elem_of_dom, ?dom_insert; set_solver).
    f_equal. unfold saturating_add, umax. lia. }
  unfold insert_at_unchecked, bindM, getM, node_prev. cbn [prev id].
  change (id (set_prev (mkNode x pn qn u v) (last l))) with x. rewrite Heq. unfold B.
  destruct (snoc_cases l) as [->|(l0 & p & ->)]; cbn [last].
  - change (bag_get (set_nodes s N1)) with (bag_get s). cbn. rewrite Hb. cbn. done.
  - rewrite last_snoc. rewrite bool_decide_eq_false_2 by (by destruct l0). done.
Qed.

Lemma list_insert_at_ok L sc s x y n m :
  repr L sc s -> ListNodes s !! y = Some m -> ListNodes s !! x = None -> id n = x -> score n = sc x ->
  bag_upper n = bag_upper m -> CounterForListNodes s + 1 < 2 ^ 32 ->
  exists s', insert_at_unchecked m n s = (s', Ok tt) /\
    repr (<[bag_upper m := put_before y x (L (bag_upper m))]> L) sc s' /\ Events s' = Events s.
Proof.
  intros [Hn Hb Hc Hbd] Hy Hx Hid Hsc Hup Hroom.
  destruct (nodes_ok_split _ _ _ _ _ Hn Hy) as (l & l' & Hu & Hne). set (u := bag_upper m) in *.
  assert (forall w, x ∉ L w) as Hout.
  { intros w Hw. apply not_elem_of_dom in Hx. apply Hx, (nodes_ok_dom _ _ _ _ Hn). by exists w. }
  pose proof (n_seg _ _ _ _ Hn u) as Hd. pose proof (n_nodup _ _ _ _ Hn u) as Hnd. specialize (Hout u) as Hxu. rewrite Hu in Hd, Hnd, Hxu.
  destruct (relink_last s u sc l (Some y) (Some x)) as (N1 & Heq & Hdom & Hl & Hf).
  { apply dseg_app in Hd as [Hd _]. exact Hd. }
  { by apply NoDup_app in Hnd as [? _]. }
  pose proof (dseg_enter_front _ N1 u sc l x y l' Hnd Hxu Hd Hdom Hl Hf) as Hent.
  set (N2 := <[x := _]> _) in Hent.
  assert (put_before y x (L u) = l ++ x :: y :: l') as ->.
  { rewrite Hu. apply put_before_split. apply NoDup_app in Hnd as (_ & Hdis & _). intros Hin. apply (Hdis y Hin). left. }
  set (ids := l ++ x :: y :: l') in *.
  assert (nodes_ok ∅ (<[u := ids]> L) sc N2) as HN2.
  { eapply (nodes_ok_ext _ _ _ (<[x := sc x]> sc)); [done| |eapply (nodes_ok_enter ∅); [done..|set_solver| |]].
    - intros z _. by destruct (decide (z = x)) as [->|?]; [rewrite fn_lookup_insert|rewrite fn_lookup_insert_ne].
    - unfold ids. rewrite Hu. by rewrite <-Permutation_middle.
    - destruct Hent as [? Hs ?]. split; [done| |done]. eapply dseg_frame; [done|]. intros z _. split; [done|].
      by destruct (decide (z = x)) as [->|?]; [rewrite fn_lookup_insert|rewrite fn_lookup_insert_ne]. }
  assert (bag_get s u = Some (bag_of u (l ++ y :: l'))) as Hbg.
  { rewrite (bags_ok_lookup L s u Hb), Hu. by destruct l. }
  destruct (insert_at_writes s N1 x y u (sc x) l l' (sc y) Hdom ltac:(by apply elem_of_dom_2 in Hy) ltac:(by apply not_elem_of_dom)
    Hroom Hbg Heq (prev n) (next n)) as (B & Hins & HB).
  rewrite Hne. replace n with (mkNode x (prev n) (next n) u (sc x)) by (destruct n; cbn in *; congruence).
  rewrite Hins. eexists. split; [done|]. split; [|done]. split; cbn [ListNodes ListBags CounterForListNodes]; [done| | |done].
  - rewrite HB. case_bool_decide as Hl0.
    + pose proof (bags_ok_put ∅ L s u ids Hb) as Hp. rewrite delete_empty in Hp. unfold ids in Hp |- *. by rewrite Hl0 in *.
    + apply bags_ok_ends; [done|]. rewrite Hu. symmetry. by apply ends_inner.
  - fold N2. rewrite <-size_dom, (ent_dom _ _ _ _ _ _ Hent), size_union, size_singleton, size_dom by (apply not_elem_of_dom in Hx; set_solver). lia.
Qed.

Lemma stored_bag L sc N x n u : nodes_ok ∅ L sc N -> N !! x = Some n -> x ∈ L u -> bag_upper n = u.
Proof. intros Hn Hx (p & q & Hx')%(nodes_ok_bag _ _ _ _ _ _ Hn). rewrite Hx in Hx'. by injection Hx' as ->. Qed.

(** The checks, in their order *)
Definition front_check (score_of : AccountId -> Z) s (a h : AccountId) : option ListError :=
  match ListNodes s !! a, ListNodes s !! h with
  | Some na, Some nh =>
      if decide (bag_upper na = bag_upper nh) then
        if decide (score_of a < score_of h) then None else Some NotHeavier
      else Some NotInSameBag
  | _, _ => Some NodeNotFound
  end.

Lemma put_in_front_of_refused score_of s a h e :
  front_check score_of s a h = Some e -> put_in_front_of score_of a h s = (s, Err e).
Proof.
  unfold front_check, put_in_front_of, bindM, getM, liftM, node_get.
  destruct (ListNodes s !! a) as [na|]; cbn [ok_or]; [|by intros [= <-]].
  destruct (ListNodes s !! h) as [nh|]; cbn [ok_or]; [|by intros [= <-]].
  destruct (decide (bag_upper na = bag_upper nh)) as [->|Hb]; [|apply Z.eqb_neq in Hb as ->; by intros [= <-]].
  rewrite Z.eqb_refl. cbn [negb]. destruct (decide (score_of a < score_of h)) as [Hs|Hs]; [done|].
  apply Z.ltb_nlt in Hs as ->. by intros [= <-].
Qed.

Lemma put_in_front_of_ok score_of L sc s a b na nb :
  repr L sc s -> ListNodes s !! a = Some na -> ListNodes s !! b = Some nb -> bag_upper na = bag_upper nb ->
  score_of a < score_of b ->
  exists s', put_in_front_of score_of a b s = (s', Ok tt) /\
    repr (put_front (bag_upper na) a b L) sc s' /\ Events s' = Events s.
Proof.
  intros Hr Ha Hb Hbag Hsc. assert (a <> b) as Hab by (intros ->; lia). pose proof (r_nodes _ _ _ _ _ Hr) as Hn.
  destruct (nodes_ok_split _ _ _ _ _ Hn Ha) as (la & la' & Hla & _).
  destruct (nodes_ok_split _ _ _ _ _ Hn Hb) as (lb & lb' & _ & Hnb).
  destruct (list_remove_ok L sc s b Hr ltac:(by eexists)) as (s1 & Hrm & Hr1 & He1). pose proof (r_nodes _ _ _ _ _ Hr1) as Hn1.
  assert (a ∈ drop_ids [b] L (bag_upper na)) as Hina.
  { apply list_elem_of_filter. rewrite Hla. set_solver. }
  assert (is_Some (ListNodes s1 !! a)) as [ma Ha1].
  { apply elem_of_dom, (nodes_ok_dom _ _ _ _ Hn1). by exists (bag_upper na). }
  destruct (remove_room L sc s s1 b Hr ltac:(by eexists) Hr1) as [Hb1 Hroom].
  assert (bag_upper ma = bag_upper na) as Hma by (by eapply stored_bag).
  destruct (list_insert_at_ok (drop_ids [b] L) sc s1 b a nb ma) as (s' & Hins & Hr' & He');
    [done..|by rewrite Hnb|by rewrite Hnb|congruence|done|].
  exists s'. split; [|rewrite Hma in Hr'; split; [done|congruence]].
  unfold put_in_front_of, bindM, getM, liftM, modifyM, node_get. rewrite Ha, Hb. cbn [ok_or]. rewrite Hbag, Z.eqb_refl. cbn [negb].
  rewrite (proj2 (Z.ltb_lt _ _) Hsc). cbn [negb]. rewrite Hrm. cbn [fst]. rewrite Ha1. cbn [ok_or]. exact Hins.
Qed.
End moves.
