(* ===== verification/BagsSpec.v ===== *)
(** The bags list as it is meant: plain lists of ids, one for each bag, and the map of the scores.
    Every operation of the pallet refines its counterpart on these. *)

From stdpp Require Import base numbers functions list option gmap sets fin_maps sorting.
From S2P Require Import Prelude BagsList BagsSeg BagsRepr BagsOps BagsMoves.

Local Open Scope Z_scope.

Section spec.
Context {AccountId : Type} `{Countable AccountId} (thresholds : list Z) (max_value : Z).
Abbreviation Node := (@Node AccountId).
Abbreviation Storage := (@Storage AccountId _ _).
Abbreviation notional := (notional_bag_for thresholds max_value).
Implicit Types (x y : AccountId) (xs : list AccountId) (u v : Z) (s : Storage).

Record Lists := mkLists {
  bags : Z -> list AccountId;
  scores : gmap AccountId Z;
  log : list (@Event AccountId)
}.
Implicit Type A : Lists.

Definition score_in A x : Z := default 0 (scores A !! x).
Definition no_lists : Lists := mkLists (fun _ => []) ∅ [].
Definition no_storage : Storage := mkStorage ∅ 0 ∅ [].

(** Every id is in the bag of its score. *)
Definition placed A : Prop := forall u x, x ∈ bags A u -> notional (score_in A x) = u.

(** ** The operations *)

Definition spec_insert x v A : Lists * res ListError unit :=
  match scores A !! x with
  | Some _ => (A, Err Duplicate)
  | None => (mkLists (push (notional v) x (bags A)) (<[x := v]> (scores A)) (log A), Ok tt)
  end.

Definition spec_drop xs A : Lists :=
  mkLists (drop_ids xs (bags A)) (filter (fun p => p.1 ∉ xs) (scores A)) (log A).

Definition spec_remove x A : Lists * res ListError unit :=
  match scores A !! x with None => (A, Err NodeNotFound) | Some _ => (spec_drop [x] A, Ok tt) end.

Definition spec_rebag x v A : Lists * res ListError (option (Z * Z)) :=
  match scores A !! x with
  | None => (A, Err NodeNotFound)
  | Some old =>
      if decide (notional v = notional old) then
        (mkLists (bags A) (<[x := v]> (scores A)) (log A ++ [ScoreUpdated x v]), Ok None)
      else
        (mkLists (push (notional v) x (drop_ids [x] (bags A))) (<[x := v]> (scores A))
           (log A ++ [Rebagged x (notional old) (notional v); ScoreUpdated x v]),
         Ok (Some (notional old, notional v)))
  end.

Definition spec_front (score_of : AccountId -> Z) (lighter heavier : AccountId) A : Lists * res ListError unit :=
  match scores A !! lighter, scores A !! heavier with
  | Some vl, Some vh =>
      if decide (notional vl = notional vh) then
        if decide (score_of lighter < score_of heavier)
        then (mkLists (put_front (notional vl) lighter heavier (bags A)) (scores A) (log A), Ok tt)
        else (A, Err NotHeavier)
      else (A, Err NotInSameBag)
  | _, _ => (A, Err NodeNotFound)
  end.

Definition spec_insert_many xs (score_of : AccountId -> Z) A : Lists :=
  foldl (fun A x => (spec_insert x (score_of x) A).1) A xs.

(** ** Refinement *)

Record refines A s : Prop := mkRefines {
  ref_repr : repr (bags A) (score_in A) s;
  ref_dom : dom (scores A) = dom (ListNodes s);
  ref_log : log A = Events s
}.

Lemma refines_empty : refines no_lists no_storage.
Proof.
  split; [|done|done]. split; [|by intros u; rewrite lookup_empty|done|done].
  split; [done|intros u; apply NoDup_nil_2|by intros x n Hx|set_solver].
Qed.

Lemma refines_known A s x : refines A s -> is_Some (scores A !! x) <-> is_Some (ListNodes s !! x).
Proof. intros [_ Hd _]. by rewrite <-!elem_of_dom, Hd. Qed.

Lemma refines_missing A s x : refines A s -> scores A !! x = None <-> ListNodes s !! x = None.
Proof. intros [_ Hd _]. by rewrite <-!not_elem_of_dom, Hd. Qed.

Lemma refines_in A s x : refines A s -> is_Some (scores A !! x) <-> in_layout x (bags A).
Proof. intros [Hr Hd _]. rewrite <-elem_of_dom, Hd. apply (nodes_ok_dom _ _ _ _ (r_nodes _ _ _ _ _ Hr)). Qed.

Lemma refines_size A s : refines A s -> CounterForListNodes s = Z.of_nat (size (scores A)).
Proof. intros [Hr Hd _]. rewrite (r_count _ _ _ _ _ Hr), <-!size_dom. by rewrite Hd. Qed.

(** The bag of a stored node is that of its score. *)
Lemma refines_bag A s x n v :
  refines A s -> placed A -> ListNodes s !! x = Some n -> scores A !! x = Some v -> bag_upper n = notional v.
Proof.
  intros [Hr _ _] Hp Hx Hv. destruct (nodes_ok_split _ _ _ _ _ (r_nodes _ _ _ _ _ Hr) Hx) as (l & l' & Hu & _).
  symmetry. rewrite <-(Hp (bag_upper n) x) by (rewrite Hu; set_solver). unfold score_in. by rewrite Hv.
Qed.

Lemma score_in_insert A x v B l y : score_in (mkLists B (<[x := v]> (scores A)) l) y = (<[x := v]> (score_in A)) y.
Proof.
  unfold score_in. cbn. destruct (decide (y = x)) as [->|Hne]; [by rewrite lookup_insert_eq, fn_lookup_insert|].
  by rewrite lookup_insert_ne, fn_lookup_insert_ne by done.
Qed.

(** The domain after a step, from the layout *)
Lemma refines_intro A s :
  repr (bags A) (score_in A) s -> (forall x, is_Some (scores A !! x) <-> in_layout x (bags A)) -> log A = Events s -> refines A s.
Proof.
  intros Hr Hd Hl. split; [done| |done]. apply set_eq. intros x.
  rewrite (nodes_ok_dom _ _ _ _ (r_nodes _ _ _ _ _ Hr)), <-Hd. apply elem_of_dom.
Qed.

Lemma in_push u x L y : in_layout y (push u x L) <-> y = x \/ in_layout y L.
Proof.
  unfold in_layout, push. split.
  - intros (w & Hw). destruct (decide (w = u)) as [->|Hne]; [rewrite fn_lookup_insert in Hw|rewrite fn_lookup_insert_ne in Hw by done].
    + apply elem_of_app in Hw as [Hw|Hw]; [eauto|]. set_solver.
    + eauto.
  - intros [->|[w Hw]]; [exists u; rewrite fn_lookup_insert; set_solver|]. exists w.
    destruct (decide (w = u)) as [->|Hne]; [rewrite fn_lookup_insert; set_solver|by rewrite fn_lookup_insert_ne].
Qed.

Lemma insert_refines A s x v :
  refines A s -> Z.of_nat (size (scores A)) + 1 < 2 ^ 32 ->
  exists s', insert thresholds max_value x v s = (s', (spec_insert x v A).2) /\ refines (spec_insert x v A).1 s'.
Proof.
  intros Href Hroom. unfold spec_insert. destruct (scores A !! x) as [old|] eqn:Hx.
  - exists s. split; [|done]. apply insert_duplicate, (refines_known A s); [done|]. by rewrite Hx.
  - pose proof Href as [Hr Hd Hl].
    destruct (insert_ok thresholds max_value _ _ s x v Hr) as (s' & Heq & Hr' & He & _);
      [by apply (refines_missing A s)|by rewrite (refines_size A s)|].
    exists s'. split; [done|]. apply refines_intro; cbn [fst bags scores log].
    + eapply repr_ext; [done| |done]. intros y _. symmetry. apply score_in_insert.
    + intros y. rewrite in_push, <-(refines_in A s) by done. rewrite lookup_insert_is_Some'. naive_solver.
    + congruence.
Qed.

Lemma drop_refines A s xs : refines A s ->
  exists s', remove_many xs s = (s', CounterForListNodes s - CounterForListNodes s') /\ refines (spec_drop xs A) s'.
Proof.
  intros Href. pose proof Href as [Hr Hd Hl]. destruct (remove_many_ok xs _ _ s Hr) as (s' & Heq & Hr' & He).
  exists s'. split; [done|].
  assert (forall x, x ∉ xs -> scores (spec_drop xs A) !! x = scores A !! x) as Hlk.
  { intros x Hx. cbn. destruct (scores A !! x) as [v|] eqn:Hv; [by apply map_lookup_filter_Some|].
    apply map_lookup_filter_None. by left. }
  apply refines_intro; change (bags (spec_drop xs A)) with (drop_ids xs (bags A)); [| |by rewrite He].
  - eapply repr_ext; [done| |done]. intros x [_ Hx]%in_drop_ids. unfold score_in. by rewrite Hlk.
  - intros x. rewrite in_drop_ids, <-(refines_in A s) by done. split.
    + intros [v Hv]. pose proof Hv as Hv'. cbn in Hv'. apply map_lookup_filter_Some in Hv' as [Hv' Hx]. eauto.
    + intros [Hv Hx]. by rewrite Hlk.
Qed.

Lemma remove_refines A s x : refines A s ->
  exists s', remove x s = (s', (spec_remove x A).2) /\ refines (spec_remove x A).1 s'.
Proof.
  intros Href. unfold spec_remove. destruct (scores A !! x) as [v|] eqn:Hx.
  - destruct (drop_refines A s [x] Href) as (s' & Heq & Href'). exists s'. split; [|done].
    unfold remove, bindM, getM, contains. rewrite bool_decide_eq_true_2, Heq; [done|].
    apply (refines_known A s); [done|]. by rewrite Hx.
  - exists s. split; [|done]. apply remove_missing. by apply (refines_missing A s).
Qed.

Lemma rebag_refines A s x v : refines A s -> placed A ->
  exists s', do_rebag thresholds max_value x v s = (s', (spec_rebag x v A).2) /\ refines (spec_rebag x v A).1 s'.
Proof.
  intros Href Hp. unfold spec_rebag, do_rebag, bindM, getM, liftM, node_get, putM, modifyM.
  destruct (scores A !! x) as [old|] eqn:Hx.
  2: { exists s. apply (refines_missing A s) in Hx as ->; done. }
  pose proof Href as [Hr _ Hl]. assert (is_Some (ListNodes s !! x)) as [n Hn] by (apply (refines_known A s); rewrite ?Hx; done).
  assert (in_layout x (bags A)) as Hin by (apply (refines_in A s); rewrite ?Hx; done).
  rewrite Hn. cbn [ok_or]. pose proof (refines_bag A s x n old Href Hp Hn Hx) as Hbag.
  destruct (decide (notional v = notional old)) as [Heq|Hne].
  - destruct (update_in_place_ok thresholds max_value _ _ s x n v Hr Hn) as (s' & Hup & [Hr1 Hr2 Hr3 Hr4] & He); [congruence|].
    rewrite Hup. eexists. split; [done|]. apply refines_intro; cbn [fst bags scores log].
    + eapply repr_ext; [done| |]; [|by split]. intros y _. symmetry. apply score_in_insert.
    + intros y. rewrite lookup_insert_is_Some', <-(refines_in A s) by done. split; [intros [<-|?]; [by rewrite Hx|done]|by right].
    + cbn. by rewrite He, Hl.
  - destruct (update_moves_ok thresholds max_value _ _ s x n v Hr Hn) as (s' & Hup & [Hr1 Hr2 Hr3 Hr4] & He); [congruence|].
    rewrite Hup, Hbag. eexists. split; [done|]. apply refines_intro; cbn [fst bags scores log].
    + eapply repr_ext; [done| |]; [|by split]. intros y _. symmetry. apply score_in_insert.
    + intros y. rewrite lookup_insert_is_Some', in_push, in_drop_ids, <-(refines_in A s) by done.
      rewrite list_elem_of_singleton. destruct (decide (y = x)); naive_solver.
    + cbn. rewrite He, Hl, <-app_assoc. done.
Qed.

Lemma put_before_perm (a h : AccountId) l : a ∈ l -> put_before a h l ≡ₚ h :: l.
Proof.
  induction l as [|y l IH]; [by intros ?%elem_of_nil|]. cbn. destruct (decide (y = a)) as [->|Hne]; [done|].
  intros [->|Hin]%elem_of_cons; [done|]. rewrite (IH Hin). apply Permutation_swap.
Qed.

Lemma in_put_front u (a h : AccountId) (L : Z -> list AccountId) y :
  a <> h -> a ∈ L u -> h ∈ L u -> in_layout y (put_front u a h L) <-> in_layout y L.
Proof.
  intros Hne Ha Hh. unfold put_front.
  assert (put_before a h (drop_ids [h] L u) ≡ₚ h :: drop_ids [h] L u) as Hp.
  { apply put_before_perm, list_elem_of_filter. set_solver. }
  split.
  - intros (w & Hw). destruct (decide (w = u)) as [->|Hwu].
    + rewrite fn_lookup_insert, Hp in Hw. apply elem_of_cons in Hw as [->|Hw]; [by exists u|].
      apply list_elem_of_filter in Hw as [_ Hw]. by exists u.
    + rewrite fn_lookup_insert_ne in Hw by done. apply list_elem_of_filter in Hw as [_ Hw]. by exists w.
  - intros [w Hw]. destruct (decide (y = h)) as [->|Hyh]; [exists u; rewrite fn_lookup_insert, Hp; left|].
    assert (y ∈ drop_ids [h] L w) as Hd by (apply list_elem_of_filter; set_solver). exists w.
    destruct (decide (w = u)) as [->|Hwu]; [rewrite fn_lookup_insert, Hp; by right|by rewrite fn_lookup_insert_ne].
Qed.

Lemma front_refines score_of A s a h : refines A s -> placed A ->
  exists s', put_in_front_of score_of a h s = (s', (spec_front score_of a h A).2) /\
    refines (spec_front score_of a h A).1 s'.
Proof.
  intros Href Hp. unfold spec_front. pose proof Href as [Hr _ Hl]. pose proof (put_in_front_of_refused score_of s a h) as Hno.
  unfold front_check in Hno. destruct (scores A !! a) as [va|] eqn:Ha.
  2: { exists s. split; [|done]. apply Hno. apply (refines_missing A s) in Ha as ->; done. }
  assert (is_Some (ListNodes s !! a)) as [na Hna] by (apply (refines_known A s); rewrite ?Ha; done). rewrite Hna in Hno.
  destruct (scores A !! h) as [vh|] eqn:Hh.
  2: { exists s. split; [|done]. apply Hno. apply (refines_missing A s) in Hh as ->; done. }
  assert (is_Some (ListNodes s !! h)) as [nh Hnh] by (apply (refines_known A s); rewrite ?Hh; done).
  pose proof (refines_bag A s a na va Href Hp Hna Ha) as Hba. pose proof (refines_bag A s h nh vh Href Hp Hnh Hh) as Hbh.
  rewrite Hnh, Hba, Hbh in Hno. destruct (decide (notional va = notional vh)) as [Hbag|Hbag]; [|exists s; split; [by apply Hno|done]].
  destruct (decide (score_of a < score_of h)) as [Hsc|Hsc]; [|exists s; split; [by apply Hno|done]].
  destruct (put_in_front_of_ok score_of _ _ s a h na nh Hr Hna Hnh) as (s' & Heq & Hr' & He); [congruence|done|].
  exists s'. split; [done|]. rewrite Hba in Hr'. apply refines_intro; cbn [fst bags scores log]; [done| |congruence].
  intros y. rewrite (refines_in A s) by done. symmetry. pose proof (r_nodes _ _ _ _ _ Hr) as Hn.
  apply in_put_front; [intros ->; lia| |].
  - destruct (nodes_ok_split _ _ _ _ _ Hn Hna) as (l & l' & Hu & _). rewrite <-Hba, Hu. set_solver.
  - destruct (nodes_ok_split _ _ _ _ _ Hn Hnh) as (l & l' & Hu & _). rewrite Hbag, <-Hbh, Hu. set_solver.
Qed.

Lemma spec_insert_size x v A : size (scores (spec_insert x v A).1) =
  (size (scores A) + if is_ok (spec_insert x v A).2 then 1 else 0)%nat.
Proof.
  unfold spec_insert. destruct (scores A !! x) eqn:Hx; cbn; [lia|]. rewrite map_size_insert, Hx. lia.
Qed.

Lemma insert_many_refines score_of xs : forall A s,
  refines A s -> Z.of_nat (size (scores A)) + Z.of_nat (length xs) < 2 ^ 32 ->
  exists s', insert_many thresholds max_value xs score_of s =
      (s', Z.of_nat (size (scores (spec_insert_many xs score_of A))) - Z.of_nat (size (scores A))) /\
    refines (spec_insert_many xs score_of A) s' /\
    (size (scores A) <= size (scores (spec_insert_many xs score_of A)) <= size (scores A) + length xs)%nat.
Proof.
  induction xs as [|x xs IH]; intros A s Href Hroom; cbn [insert_many spec_insert_many foldl length].
  { exists s. split; [f_equal; lia|]. split; [done|lia]. }
  cbn [length] in Hroom. destruct (insert_refines A s x (score_of x) Href) as (s1 & Heq & Href1); [lia|].
  pose proof (spec_insert_size x (score_of x) A) as Hsz. set (A1 := (spec_insert x (score_of x) A).1) in *.
  destruct (IH A1 s1 Href1) as (s' & Hmany & Href' & Hle); [destruct (is_ok _); lia|].
  exists s'. rewrite Heq, Hmany. fold (spec_insert_many xs score_of A1). split; [|split; [done|destruct (is_ok _); lia]].
  f_equal. destruct (is_ok _); [|lia]. rewrite wadd_small; [lia|]. unfold in_range. lia.
Qed.
End spec.
