(* ===== verification/BagsThresholds.v ===== *)
(** The thresholds of the bags list: which bag a score belongs to, the order of the bags, and that
    the greatest score may be listed or left out. *)

From stdpp Require Import base numbers list option gmap sets sorting.
From S2P Require Import Prelude BagsList.

Local Open Scope Z_scope.

Implicit Types (ts : list Z) (m u v t : Z).

(** ** [partition_point] *)

Lemma partition_point_split {A} (p : A -> bool) (l : list A) :
  exists l', l = take (partition_point p l) l ++ l' /\ Forall (fun x => p x = true) (take (partition_point p l) l) /\
    l !! partition_point p l = l' !! 0%nat /\ match l' with [] => True | x :: _ => p x = false end.
Proof.
  induction l as [|x l IH]; cbn; [by exists []|]. destruct (p x) eqn:Hx; cbn; [|by exists (x :: l)].
  destruct IH as (l' & Heq & Hall & Hlk & Hend). exists l'. split; [by f_equal|]. split; [by constructor|done].
Qed.

Lemma partition_point_app {A} (p : A -> bool) (l l' : list A) :
  Forall (fun x => p x = true) l -> partition_point p (l ++ l') = (length l + partition_point p l')%nat.
Proof. induction 1 as [|x l Hx _ IH]; cbn; [done|]. by rewrite Hx, IH. Qed.

(** ** The bag of a score *)

(** Thresholds as the pallet wants them *)
Record thresholds_ok m ts : Prop := mkThresholdsOk {
  t_sorted : StronglySorted Z.lt ts;
  t_max : Forall (fun t => t <= m) ts
}.

Lemma integrity_sorted ts : integrity_test ts = true -> StronglySorted Z.lt ts.
Proof.
  unfold integrity_test. rewrite bool_decide_eq_true. intros Hf. apply Sorted_StronglySorted; [apply _|].
  induction ts as [|t ts IH]; [constructor|]. cbn [drop] in Hf. destruct ts as [|t' ts]; [by repeat constructor|].
  cbn in Hf. apply Forall_cons in Hf as [Ht Hf]. constructor; [by apply IH|]. by constructor.
Qed.

(** The least threshold that is not below the score, or the greatest score *)
Lemma bag_for_least m ts v : thresholds_ok m ts ->
  (bag_for m ts v ∈ ts \/ bag_for m ts v = m) /\ (v <= m -> v <= bag_for m ts v) /\ bag_for m ts v <= m /\
  (forall t, t ∈ ts -> v <= t -> bag_for m ts v <= t).
Proof.
  intros [Hs Hm]. unfold bag_for. destruct (partition_point_split (fun t => t <? v) ts) as (l & Heq & Hall & -> & Hend).
  set (k := partition_point _ ts) in *. rewrite Forall_forall in Hm. destruct l as [|t0 l]; cbn.
  - split; [by right|]. split; [lia|]. split; [lia|]. intros t Ht Hv. rewrite app_nil_r in Heq. rewrite Heq in Ht.
    rewrite Forall_forall in Hall. specialize (Hall t Ht). lia.
  - assert (t0 ∈ ts) as Hin by (rewrite Heq; set_solver). split; [by left|]. split; [lia|]. split; [auto|].
    intros t Ht Hv. rewrite Heq in Ht, Hs. apply elem_of_app in Ht as [Ht|Ht].
    + rewrite Forall_forall in Hall. specialize (Hall t Ht). lia.
    + apply StronglySorted_app_1_r in Hs. apply elem_of_cons in Ht as [->|Ht]; [lia|].
      apply StronglySorted_inv in Hs as [_ Hs]. rewrite Forall_forall in Hs. specialize (Hs t Ht). lia.
Qed.

Lemma bag_for_unique m ts v u : thresholds_ok m ts -> v <= m ->
  u ∈ ts \/ u = m -> v <= u -> (forall t, t ∈ ts -> v <= t -> u <= t) -> bag_for m ts v = u.
Proof.
  intros Hok Hvm Hu Hv Hleast. destruct (bag_for_least m ts v Hok) as (Hin & Hge & Hle & Hl). specialize (Hge Hvm).
  assert (u <= m) as Hum by (destruct Hok as [_ Hf]; rewrite Forall_forall in Hf; destruct Hu as [Hu|Hu]; [by apply Hf|lia]).
  destruct Hin as [Hin|Hin], Hu as [Hu|Hu]; try specialize (Hleast _ Hin Hge); try specialize (Hl _ Hu Hv); lia.
Qed.

Lemma bag_for_mono m ts v v' : thresholds_ok m ts -> v <= v' -> v' <= m -> bag_for m ts v <= bag_for m ts v'.
Proof.
  intros Hok Hv Hm. destruct (bag_for_least m ts v Hok) as (_ & _ & Hle & Hl).
  destruct (bag_for_least m ts v' Hok) as ([Hin| ->] & Hge & _ & _); [|done]. apply Hl; [done|]. lia.
Qed.

(** A score is above every threshold below its bag. *)
Lemma bag_for_above m ts v u : thresholds_ok m ts -> u ∈ ts -> u < bag_for m ts v -> u < v.
Proof.
  intros Hok Hu Hlt. destruct (bag_for_least m ts v Hok) as (_ & _ & _ & Hl). destruct (decide (v <= u)) as [Hle|]; [|lia].
  specialize (Hl u Hu Hle). lia.
Qed.

(** ** All bags, from the greatest on *)

Definition bags_up m ts : list Z := if bool_decide (last ts = Some m) then ts else ts ++ [m].

Lemma bags_down_up m ts : bags_down ts m = reverse (bags_up m ts).
Proof. unfold bags_down, bags_up. by case_bool_decide. Qed.

(** The greatest score is in the list only as the last threshold. *)
Lemma max_last m ts : thresholds_ok m ts -> m ∈ ts -> last ts = Some m.
Proof.
  intros [Hs Hm] Hin. apply list_elem_of_split in Hin as (l & l' & ->). destruct l' as [|t l']; [apply last_snoc|].
  exfalso. apply StronglySorted_app_1_r, StronglySorted_inv in Hs as [_ Hs]. rewrite Forall_forall in Hs, Hm.
  specialize (Hs t ltac:(set_solver)). specialize (Hm t ltac:(set_solver)). lia.
Qed.

Lemma elem_of_bags_up m ts u : u ∈ bags_up m ts <-> u ∈ ts \/ u = m.
Proof.
  unfold bags_up. case_bool_decide as Hl; [|set_solver]. apply last_Some in Hl as [l ->]. set_solver.
Qed.

Lemma bags_up_sorted m ts : thresholds_ok m ts -> StronglySorted Z.lt (bags_up m ts).
Proof.
  intros Hok. pose proof Hok as [Hs Hm]. unfold bags_up. case_bool_decide as Hl; [done|].
  apply StronglySorted_app_2; [|done|repeat constructor]. intros t u Ht ->%list_elem_of_singleton.
  rewrite Forall_forall in Hm. specialize (Hm t Ht). destruct (decide (t = m)) as [->|]; [|lia].
  by destruct (Hl (max_last m ts Hok Ht)).
Qed.

Lemma sorted_NoDup (l : list Z) : StronglySorted Z.lt l -> NoDup l.
Proof.
  induction 1 as [|t l _ IH Hf]; constructor; [|done]. intros Hin. rewrite Forall_forall in Hf. specialize (Hf t Hin). lia.
Qed.

Lemma bags_down_NoDup m ts : thresholds_ok m ts -> NoDup (bags_down ts m).
Proof. intros Hok. rewrite bags_down_up, reverse_Permutation. apply sorted_NoDup, bags_up_sorted, Hok. Qed.

Lemma elem_of_bags_down m ts u : u ∈ bags_down ts m <-> u ∈ ts \/ u = m.
Proof. rewrite bags_down_up, elem_of_reverse. apply elem_of_bags_up. Qed.

Lemma bag_for_bags_down m ts v : thresholds_ok m ts -> bag_for m ts v ∈ bags_down ts m.
Proof. intros Hok. apply elem_of_bags_down. by destruct (bag_for_least m ts v Hok). Qed.

(** The bags below a bag *)
Lemma bags_below m ts u : thresholds_ok m ts -> u ∈ bags_down ts m ->
  exists us, bags_down ts m = us ++ u :: reverse (take (partition_point (fun t => t <? u) ts) ts).
Proof.
  intros Hok Hu. rewrite bags_down_up in *. rewrite elem_of_reverse in Hu. pose proof (bags_up_sorted m ts Hok) as Hs.
  apply list_elem_of_split in Hu as (l & l' & Hup). exists (reverse l'). rewrite Hup, reverse_app, reverse_cons, <-app_assoc.
  do 3 f_equal. assert (Forall (fun t => (t <? u) = true) l) as Hl.
  { apply Forall_forall. intros t Ht. rewrite Hup in Hs. apply Z.ltb_lt.
    eapply (StronglySorted_app_1_elem_of Z.lt); [exact Hs|done|left]. }
  assert (exists l0, ts = l ++ l0 /\ match l0 with [] => True | t :: _ => t = u end) as (l0 & Hts & Hl0).
  { unfold bags_up in Hup. case_bool_decide; [by exists (u :: l')|]. destruct (snoc_cases l') as [->|(l1 & t & ->)].
    - apply app_inj_2 in Hup as [-> [= ->]]; [|done]. exists []. by rewrite app_nil_r.
    - rewrite app_comm_cons, app_assoc in Hup. apply app_inj_2 in Hup as [-> _]; [|done]. by exists (u :: l1). }
  rewrite Hts, partition_point_app by done. destruct l0 as [|t l0]; cbn.
  - by rewrite Nat.add_0_r, app_nil_r, take_ge.
  - subst t. rewrite Z.ltb_irrefl, Nat.add_0_r. by rewrite take_app_length.
Qed.

(** ** The greatest score may be left out *)

Lemma bag_for_with_max m ts v : bag_for m (ts ++ [m]) v = bag_for m ts v.
Proof.
  unfold bag_for. induction ts as [|t ts IH]; cbn; [by destruct (m <? v)|]. by destruct (t <? v).
Qed.

Lemma bags_down_with_max m ts : last ts <> Some m -> bags_down (ts ++ [m]) m = bags_down ts m.
Proof. intros Hl. unfold bags_down. by rewrite last_snoc, bool_decide_eq_true_2, bool_decide_eq_false_2. Qed.

Lemma take_below_with_max m ts u : u <= m ->
  take (partition_point (fun t => t <? u) (ts ++ [m])) (ts ++ [m]) = take (partition_point (fun t => t <? u) ts) ts.
Proof.
  intros Hu. induction ts as [|t ts IH]; cbn; [by rewrite (proj2 (Z.ltb_ge _ _) Hu)|]. destruct (t <? u); [|done]. cbn. by rewrite IH.
Qed.
