(* ===== verification/BagsRun.v ===== *)
(** The entry points of the bags list pallet: each one, and every sequence of them, refines the
    plain lists. *)

From stdpp Require Import base numbers functions list option gmap sets fin_maps sorting.
From S2P Require Import Prelude BagsList BagsSeg BagsRepr BagsOps BagsMoves BagsSpec.

Local Open Scope Z_scope.

Section run.
Context {AccountId : Type} `{Countable AccountId} (thresholds : list Z) (max_value : Z).
Abbreviation Storage := (@Storage AccountId _ _).
Abbreviation Lists := (@Lists AccountId _ _).
Abbreviation notional := (notional_bag_for thresholds max_value).
Abbreviation placed := (placed thresholds max_value).
Implicit Types (x y : AccountId) (xs : list AccountId) (u v : Z) (s : Storage) (A : Lists).

(** ** Ids stay in the bags of their scores *)

Lemma placed_push A x v e : placed A -> (forall u, x ∉ bags A u) ->
  placed (mkLists (push (notional v) x (bags A)) (<[x := v]> (scores A)) e).
Proof.
  intros Hp Hx u y. cbn [bags]. rewrite score_in_insert. unfold push. intros Hy.
  destruct (decide (y = x)) as [->|Hne].
  - rewrite fn_lookup_insert. destruct (decide (u = notional v)) as [->|Hu]; [done|].
    rewrite fn_lookup_insert_ne in Hy by done. by apply Hx in Hy.
  - rewrite fn_lookup_insert_ne by done. apply Hp. destruct (decide (u = notional v)) as [->|Hu];
    [rewrite fn_lookup_insert in Hy; set_solver|by rewrite fn_lookup_insert_ne in Hy].
Qed.

Lemma placed_insert A s x v : refines A s -> placed A -> placed (spec_insert thresholds max_value x v A).1.
Proof.
  intros Href Hp. unfold spec_insert. destruct (scores A !! x) eqn:Hx; [done|]. cbn [fst]. apply placed_push; [done|].
  intros u Hu. assert (is_Some (scores A !! x)) as [? ?] by (apply (refines_in A s); [done|by exists u]). congruence.
Qed.

Lemma placed_drop A xs : placed A -> placed (spec_drop xs A).
Proof.
  intros Hp u x [Hx Hu]%list_elem_of_filter. rewrite <-(Hp u x Hu). f_equal. unfold score_in. cbn.
  destruct (scores A !! x) as [v|] eqn:Hv.
  - rewrite (proj2 (map_lookup_filter_Some _ _ _ v)); done.
  - by rewrite (proj2 (map_lookup_filter_None _ _ _)) by (left; done).
Qed.

Lemma placed_rebag A x v : placed A -> placed (spec_rebag thresholds max_value x v A).1.
Proof.
  intros Hp. unfold spec_rebag. destruct (scores A !! x) as [old|] eqn:Hx; [|done].
  destruct (decide _) as [Heq|Hne]; cbn [fst].
  - intros u y Hy. cbn in Hy. rewrite score_in_insert. destruct (decide (y = x)) as [->|Hyx].
    + rewrite fn_lookup_insert, Heq. rewrite <-(Hp u x Hy). unfold score_in. by rewrite Hx.
    + rewrite fn_lookup_insert_ne by done. by apply Hp.
  - apply (placed_push (mkLists (drop_ids [x] (bags A)) (scores A) [])).
    + intros u y [_ Hu]%list_elem_of_filter. by apply Hp.
    + intros u [Hu _]%list_elem_of_filter. set_solver.
Qed.

Lemma put_front_sub u (a h : AccountId) (L : Z -> list AccountId) w y :
  a <> h -> a ∈ L u -> h ∈ L u -> y ∈ put_front u a h L w -> y ∈ L w.
Proof.
  intros Hne Ha Hh. unfold put_front. destruct (decide (w = u)) as [->|Hw].
  - rewrite fn_lookup_insert, put_before_perm by (apply list_elem_of_filter; set_solver).
    intros [->|[_ Hy]%list_elem_of_filter]%elem_of_cons; done.
  - rewrite fn_lookup_insert_ne by done. by intros [_ Hy]%list_elem_of_filter.
Qed.

Lemma placed_front score_of A s a h :
  refines A s -> placed A -> placed (spec_front thresholds max_value score_of a h A).1.
Proof.
  intros Href Hp. unfold spec_front. destruct (scores A !! a) as [va|] eqn:Ha; [|done].
  destruct (scores A !! h) as [vh|] eqn:Hh; [|done]. destruct (decide _) as [Heq|]; [|done].
  destruct (decide _) as [Hlt|]; [|done]. cbn [fst]. intros u y Hy. cbn [bags] in Hy. apply (Hp u y). revert Hy.
  assert (forall x v, scores A !! x = Some v -> x ∈ bags A (notional v)) as Hin.
  { intros x v Hx. assert (in_layout x (bags A)) as [w Hw] by (apply (refines_in A s); rewrite ?Hx; done).
    rewrite <-(Hp w x Hw) in Hw. unfold score_in in Hw. by rewrite Hx in Hw. }
  apply put_front_sub; [intros ->; lia|by apply Hin|]. rewrite Heq. by apply Hin.
Qed.

Lemma placed_insert_many score_of xs : forall A s,
  refines A s -> placed A -> Z.of_nat (size (scores A)) + Z.of_nat (length xs) < 2 ^ 32 ->
  placed (spec_insert_many thresholds max_value xs score_of A).
Proof.
  induction xs as [|x xs IH]; intros A s Href Hp Hroom; [done|]. cbn [length] in Hroom. cbn [spec_insert_many foldl].
  destruct (insert_refines thresholds max_value A s x (score_of x) Href) as (s1 & _ & Href1); [lia|].
  eapply IH; [done|by eapply placed_insert|]. rewrite spec_insert_size. destruct (is_ok _); lia.
Qed.

(** ** Clearing *)

Definition spec_clear A : Lists := mkLists (fun _ => []) ∅ (log A).

Lemma clear_refines A s : refines A s -> refines (spec_clear A) (unsafe_clear s).
Proof.
  intros [_ _ Hl]. apply refines_intro; [|intros x; cbn; split; [by intros [? ?]|by intros [u ?%elem_of_nil]]|done].
  destruct (ref_repr _ _ (refines_empty (AccountId := AccountId))) as [Hn Hb Hc Hbd]. by split.
Qed.

Lemma clear_size A : size (scores (spec_clear A)) = 0%nat.
Proof. apply map_size_empty. Qed.

Lemma placed_clear A : placed (spec_clear A).
Proof. by intros u x ?%elem_of_nil. Qed.

(** ** The entry points *)

Section entry.
Context {Source : Type} (lookup : Source -> option AccountId).

Inductive Op :=
| OnInsert (x : AccountId) (v : Z)
| OnUpdate (x : AccountId) (v : Z)
| OnRemove (x : AccountId)
| UnsafeClear
| UnsafeRegenerate (all : list AccountId) (score_of : AccountId -> Z)
| CallRebag (score_of : AccountId -> Z) (origin : option AccountId) (dislocated : Source)
| CallPutInFrontOf (score_of : AccountId -> Z) (origin : option AccountId) (lighter : Source)
| CallPutInFrontOfOther (score_of : AccountId -> Z) (origin : option AccountId) (heavier lighter : Source).

Inductive Outcome := Listed (r : res ListError unit) | Called (r : res CallError unit) | Counted (n : Z) | Done.

Definition run_op (op : Op) s : Storage * Outcome :=
  match op with
  | OnInsert x v => let '(s, r) := insert thresholds max_value x v s in (s, Listed r)
  | OnUpdate x v => let '(s, r) := on_update thresholds max_value x v s in (s, Listed r)
  | OnRemove x => let '(s, r) := remove x s in (s, Listed r)
  | UnsafeClear => (unsafe_clear s, Done)
  | UnsafeRegenerate all score_of => let '(s, n) := unsafe_regenerate thresholds max_value all score_of s in (s, Counted n)
  | CallRebag score_of origin d => let '(s, r) := rebag thresholds max_value score_of lookup origin d s in (s, Called r)
  | CallPutInFrontOf score_of origin l => let '(s, r) := call_put_in_front_of score_of lookup origin l s in (s, Called r)
  | CallPutInFrontOfOther score_of origin h l =>
      let '(s, r) := put_in_front_of_other score_of lookup origin h l s in (s, Called r)
  end.

(** The result of a call that changes nothing when it fails *)
Definition listed {B} (c : Lists * res ListError B) : Lists * Outcome :=
  (c.1, Listed (match c.2 with Ok _ => Ok tt | Err e => Err e | Panic => Panic end)).

Definition called {B} (c : Lists * res ListError B) : Lists * Outcome :=
  (c.1, Called (match c.2 with Ok _ => Ok tt | Err e => Err (List e) | Panic => Panic end)).

Definition spec_op (op : Op) A : Lists * Outcome :=
  match op with
  | OnInsert x v => listed (spec_insert thresholds max_value x v A)
  | OnUpdate x v => listed (spec_rebag thresholds max_value x v A)
  | OnRemove x => listed (spec_remove x A)
  | UnsafeClear => (spec_clear A, Done)
  | UnsafeRegenerate all score_of =>
      let A := spec_insert_many thresholds max_value all score_of (spec_clear A) in
      (A, Counted (Z.of_nat (size (scores A))))
  | CallRebag score_of origin d =>
      match origin, lookup d with
      | None, _ => (A, Called (Err BadOrigin))
      | _, None => (A, Called (Err LookupFailed))
      | _, Some d => called (spec_rebag thresholds max_value d (score_of d) A)
      end
  | CallPutInFrontOf score_of origin l =>
      match origin, lookup l with
      | None, _ => (A, Called (Err BadOrigin))
      | _, None => (A, Called (Err LookupFailed))
      | Some h, Some l => called (spec_front thresholds max_value score_of l h A)
      end
  | CallPutInFrontOfOther score_of origin h l =>
      match origin, lookup l, lookup h with
      | None, _, _ => (A, Called (Err BadOrigin))
      | _, Some l, Some h => called (spec_front thresholds max_value score_of l h A)
      | _, _, _ => (A, Called (Err LookupFailed))
      end
  end.

(** How many ids an operation may add *)
Definition adds (op : Op) : nat :=
  match op with OnInsert _ _ => 1 | UnsafeRegenerate all _ => length all | _ => 0 end.

Record holds A s : Prop := mkHolds { h_refines : refines A s; h_placed : placed A }.

Lemma rebag_size x v A : size (scores (spec_rebag thresholds max_value x v A).1) = size (scores A).
Proof.
  unfold spec_rebag. destruct (scores A !! x) eqn:Hx; [|done].
  destruct (decide _); cbn; rewrite map_size_insert, Hx; done.
Qed.

Lemma front_size f a h A : scores (spec_front thresholds max_value f a h A).1 = scores A.
Proof. unfold spec_front. repeat case_match; done. Qed.

Lemma remove_size x A : (size (scores (spec_remove x A).1) <= size (scores A))%nat.
Proof.
  unfold spec_remove. destruct (scores A !! x); [|done]. cbn. apply map_subseteq_size, map_filter_subseteq.
Qed.

Lemma rebag_holds A s x v : holds A s ->
  exists s', do_rebag thresholds max_value x v s = (s', (spec_rebag thresholds max_value x v A).2) /\
    holds (spec_rebag thresholds max_value x v A).1 s'.
Proof.
  intros [Href Hp]. destruct (rebag_refines thresholds max_value A s x v Href Hp) as (s' & Heq & Href').
  exists s'. split; [done|]. split; [done|]. by apply placed_rebag.
Qed.

Lemma front_holds f A s a h : holds A s ->
  exists s', put_in_front_of f a h s = (s', (spec_front thresholds max_value f a h A).2) /\
    holds (spec_front thresholds max_value f a h A).1 s'.
Proof.
  intros [Href Hp]. destruct (front_refines thresholds max_value f A s a h Href Hp) as (s' & Heq & Href').
  exists s'. split; [done|]. split; [done|]. by eapply placed_front.
Qed.

Lemma calls_hold op A s : holds A s ->
  match op with CallRebag _ _ _ | CallPutInFrontOf _ _ _ | CallPutInFrontOfOther _ _ _ _ => True | _ => False end ->
  exists s', run_op op s = (s', (spec_op op A).2) /\ holds (spec_op op A).1 s' /\
    (size (scores (spec_op op A).1) <= size (scores A) + adds op)%nat.
Proof.
  intros Hh Hop. destruct op as [| | | | |f o d|f o l|f o h l]; try done; cbn [run_op spec_op];
    unfold rebag, call_put_in_front_of, put_in_front_of_other, bindM, liftM, on_list; destruct o as [o|]; cbn [ok_or];
    try (exists s; split; [done|]; split; [done|cbn; lia]).
  - destruct (lookup d) as [x|]; cbn [ok_or]; [|exists s; split; [done|]; split; [done|cbn; lia]].
    destruct (rebag_holds A s x (f x) Hh) as (s' & Heq & Hh'). rewrite Heq. exists s'. cbn [called fst snd].
    split; [by destruct (_.2)|]. split; [done|]. rewrite rebag_size. cbn; lia.
  - destruct (lookup l) as [x|]; cbn [ok_or]; [|exists s; split; [done|]; split; [done|cbn; lia]].
    destruct (front_holds f A s x o Hh) as (s' & Heq & Hh'). rewrite Heq. exists s'. cbn [called fst snd].
    split; [by destruct (_.2) as [[]| |]|]. split; [done|]. rewrite front_size. cbn; lia.
  - destruct (lookup l) as [x|]; cbn [ok_or]; [|exists s; split; [done|]; split; [done|cbn; lia]].
    destruct (lookup h) as [y|]; cbn [ok_or]; [|exists s; split; [done|]; split; [done|cbn; lia]].
    destruct (front_holds f A s x y Hh) as (s' & Heq & Hh'). rewrite Heq. exists s'. cbn [called fst snd].
    split; [by destruct (_.2) as [[]| |]|]. split; [done|]. rewrite front_size. cbn; lia.
Qed.

Lemma op_holds op A s : holds A s -> Z.of_nat (size (scores A)) + Z.of_nat (adds op) < 2 ^ 32 ->
  exists s', run_op op s = (s', (spec_op op A).2) /\ holds (spec_op op A).1 s' /\
    (size (scores (spec_op op A).1) <= size (scores A) + adds op)%nat.
Proof.
  intros Hh Hroom. pose proof Hh as [Href Hp].
  destruct op as [x v|x v|x| |all f|f o d|f o l|f o h l]; try by apply calls_hold.
  all: cbn [adds] in *; cbn [run_op spec_op listed fst snd].
  - destruct (insert_refines thresholds max_value A s x v Href) as (s' & Heq & Href'); [lia|]. rewrite Heq. exists s'.
    split; [by destruct (_.2) as [[]| |]|]. split; [split; [done|by eapply placed_insert]|]. rewrite spec_insert_size. destruct (is_ok _); lia.
  - unfold on_update, bindM. destruct (rebag_holds A s x v Hh) as (s' & Heq & Hh'). rewrite Heq. exists s'.
    split; [by destruct (_.2)|]. split; [done|]. rewrite rebag_size. lia.
  - destruct (remove_refines A s x Href) as (s' & Heq & Href'). rewrite Heq. exists s'.
    split; [by destruct (_.2) as [[]| |]|]. split; [split; [done|]|pose proof (remove_size x A); lia].
    unfold spec_remove. destruct (scores A !! x); [by apply placed_drop|done].
  - exists (unsafe_clear s). split; [done|]. split; [split; [by apply clear_refines|apply placed_clear]|rewrite clear_size; lia].
  - unfold unsafe_regenerate.
    destruct (insert_many_refines thresholds max_value f all (spec_clear A) (unsafe_clear s)) as (s' & Heq & Href' & Hle);
      [by apply clear_refines|rewrite clear_size; lia|]. rewrite Heq. exists s'. rewrite clear_size in *.
    split; [do 2 f_equal; lia|]. split; [|lia]. split; [done|].
    eapply placed_insert_many; [by apply clear_refines|apply placed_clear|rewrite clear_size; lia].
Qed.

(** ** Sequences *)

Fixpoint run_ops (ops : list Op) s : Storage * list Outcome :=
  match ops with
  | [] => (s, [])
  | op :: ops => let '(s, o) := run_op op s in let '(s, os) := run_ops ops s in (s, o :: os)
  end.

Fixpoint spec_ops (ops : list Op) A : Lists * list Outcome :=
  match ops with
  | [] => (A, [])
  | op :: ops => let '(A, o) := spec_op op A in let '(A, os) := spec_ops ops A in (A, o :: os)
  end.

Definition adds_all (ops : list Op) : nat := sum_list (adds <$> ops).

Lemma ops_hold ops : forall A s, holds A s -> Z.of_nat (size (scores A)) + Z.of_nat (adds_all ops) < 2 ^ 32 ->
  exists s', run_ops ops s = (s', (spec_ops ops A).2) /\ holds (spec_ops ops A).1 s'.
Proof.
  induction ops as [|op ops IH]; intros A s Hh Hroom; [by exists s|].
  unfold adds_all in Hroom. cbn in Hroom. fold (adds_all ops) in Hroom.
  destruct (op_holds op A s Hh) as (s1 & Heq & Hh1 & Hle); [lia|]. cbn [run_ops spec_ops]. rewrite Heq.
  destruct (spec_op op A) as [A1 o]. cbn [fst snd] in *. destruct (IH A1 s1 Hh1) as (s' & Heq' & Hh'); [lia|].
  rewrite Heq'. exists s'. destruct (spec_ops ops A1) as [A' os]. done.
Qed.

Lemma holds_empty : holds no_lists no_storage.
Proof. split; [apply refines_empty|by intros u x ?%elem_of_nil]. Qed.
End entry.
End run.
