(* ===== verification/BagsIter.v ===== *)
(** Iterating over the bags list: what is visited, in which order, and that walks end. *)

From stdpp Require Import base numbers functions list option gmap sets fin_maps sorting.
From S2P Require Import Prelude BagsList BagsSeg BagsRepr BagsOps BagsMoves BagsSpec BagsThresholds BagsRun.

Local Open Scope Z_scope.

Section iter.
Context {AccountId : Type} `{Countable AccountId}.
Abbreviation Node := (@Node AccountId).
Abbreviation Storage := (@Storage AccountId _ _).
Abbreviation Lists := (@Lists AccountId _ _).
Implicit Types (x y : AccountId) (ids l : list AccountId) (u v : Z) (us : list Z)
  (L : Z -> list AccountId) (sc : AccountId -> Z) (s : Storage) (n : Node) (ns : list Node) (A : Lists).

(** A list of nodes with these ids, as they are stored *)
Definition nodes_of s ns ids : Prop := id <$> ns = ids /\ Forall (fun n => ListNodes s !! id n = Some n) ns.

Lemma nodes_of_app s ns ns' ids ids' : nodes_of s ns ids -> nodes_of s ns' ids' -> nodes_of s (ns ++ ns') (ids ++ ids').
Proof. intros [<- Hf] [<- Hf']. split; [apply fmap_app|]. by apply Forall_app. Qed.

(** ** Walks *)

Lemma bag_length L sc s u : repr L sc s -> (length (L u) <= size (ListNodes s))%nat.
Proof.
  intros [Hn _ _ _]. rewrite <-size_dom, <-(size_list_to_set (C := gset AccountId) (L u)) by apply Hn.
  apply subseteq_size. intros x Hx%elem_of_list_to_set. apply (nodes_ok_dom _ _ _ _ Hn). by exists u.
Qed.

Lemma walk_ok L sc s u l l' : repr L sc s -> L u = l ++ l' ->
  exists ns, walk s (first_or l' None ≫= node_get s) = Some ns /\ nodes_of s ns l'.
Proof.
  intros Hr Hu. pose proof (bag_length L sc s u Hr) as Hlen. rewrite Hu, length_app in Hlen.
  pose proof (n_seg _ _ _ _ (r_nodes _ _ _ _ _ Hr) u) as Hd. rewrite Hu in Hd. apply dseg_app in Hd as [_ Hd].
  destruct (successors_ok s u sc l' (S (size (ListNodes s))) _ Hd) as (ns & Hs & Hids & Hf); [lia|].
  exists ns. unfold walk. by rewrite Hs.
Qed.

Lemma bag_iter_ok L sc s u : repr L sc s -> exists ns, bag_iter s (bag_of u (L u)) = Some ns /\ nodes_of s ns (L u).
Proof. intros Hr. by apply (walk_ok L sc s u []). Qed.

Lemma walked_ok L sc s u : repr L sc s -> nodes_of s (walked s (bag_of u (L u))) (L u).
Proof.
  intros Hr. destruct (bag_iter_ok L sc s u Hr) as (ns & Hns & Hof). unfold bag_iter, walk, walked in *.
  destruct (successors _ _ _) as [r b]. cbn in *. destruct b; [|done]. by injection Hns as ->.
Qed.

Lemma iter_bags_ok L sc s us : repr L sc s ->
  exists ns, iter_bags s us = Some ns /\ nodes_of s ns (concat (L <$> us)).
Proof.
  intros Hr. unfold iter_bags. induction us as [|u us (ns' & Hns' & Hof')]; [by exists []|].
  cbn [mapM fmap list_fmap concat]. rewrite (bags_ok_lookup L s u (r_bags _ _ _ _ _ Hr)).
  destruct (bag_iter_ok L sc s u Hr) as (ns & Hns & Hof). exists (ns ++ ns').
  split; [|by apply nodes_of_app]. apply fmap_Some in Hns' as (lls & Hm & ->).
  destruct (L u) as [|x0 l0] eqn:HLu; [destruct Hof as [Hids _]; apply fmap_nil_inv in Hids as ->|].
  - cbn. by rewrite Hm.
  - cbn. cbn in Hns. rewrite Hns. cbn. by rewrite Hm.
Qed.

(** ** The order *)

Section order.
Context (thresholds : list Z) (max_value : Z).
Hypothesis ok : thresholds_ok max_value thresholds.
Abbreviation notional := (notional_bag_for thresholds max_value).
Abbreviation holds := (holds thresholds max_value).

Lemma placed_bag A u x : placed thresholds max_value A -> x ∈ bags A u -> u ∈ bags_down thresholds max_value.
Proof. intros Hp Hx. rewrite <-(Hp u x Hx). by apply bag_for_bags_down. Qed.

Definition all_ids A : list AccountId := concat (bags A <$> bags_down thresholds max_value).

Lemma elem_of_concat_bags A us x : x ∈ concat (bags A <$> us) <-> exists u, u ∈ us /\ x ∈ bags A u.
Proof.
  rewrite list_elem_of_In, in_concat. split.
  - intros (l & Hl%list_elem_of_In & Hx%list_elem_of_In). apply list_elem_of_fmap in Hl as (u & -> & Hu). eauto.
  - intros (u & Hu & Hx). exists (bags A u). rewrite <-!list_elem_of_In. split; [apply list_elem_of_fmap; eauto|done].
Qed.

Lemma elem_of_all_ids A s x : holds A s -> x ∈ all_ids A <-> is_Some (scores A !! x).
Proof.
  intros [Href Hp]. unfold all_ids. rewrite elem_of_concat_bags, (refines_in A s x Href). split.
  - intros (u & _ & Hx). by exists u.
  - intros (u & Hx). exists u. split; [by eapply placed_bag|done].
Qed.

Lemma concat_bags_NoDup A s us : refines A s -> NoDup us -> NoDup (concat (bags A <$> us)).
Proof.
  intros [Hr _ _] Hnd. pose proof (r_nodes _ _ _ _ _ Hr) as Hn. induction Hnd as [|u us Hu _ IH]; [apply NoDup_nil_2|].
  cbn. apply NoDup_app. split; [apply Hn|]. split; [|done]. intros x Hx (w & Hw & Hx')%elem_of_concat_bags.
  assert (u = w) as -> by (by eapply nodes_ok_unique). done.
Qed.

Lemma all_ids_NoDup A s : holds A s -> NoDup (all_ids A).
Proof. intros [Href _]. apply (concat_bags_NoDup A s); [done|]. by apply bags_down_NoDup. Qed.

Lemma all_ids_length A s : holds A s -> length (all_ids A) = size (scores A).
Proof.
  intros Hh. rewrite <-size_dom, <-(size_list_to_set (C := gset AccountId)) by (by eapply all_ids_NoDup).
  f_equal. apply set_eq. intros x. rewrite elem_of_list_to_set, elem_of_dom. by eapply elem_of_all_ids.
Qed.

(** Later bags are lower. *)
Lemma bags_down_sorted : StronglySorted Z.gt (bags_down thresholds max_value).
Proof.
  rewrite bags_down_up. pose proof (bags_up_sorted max_value thresholds ok) as Hs. induction Hs as [|u us _ IH Hf]; [constructor|].
  rewrite reverse_cons. apply StronglySorted_app_2; [|done|repeat constructor].
  intros t w Ht ->%list_elem_of_singleton. rewrite elem_of_reverse in Ht. rewrite Forall_forall in Hf. specialize (Hf t Ht). lia.
Qed.

Lemma concat_sorted A us : placed thresholds max_value A -> StronglySorted Z.gt us ->
  StronglySorted (fun x y => notional (score_in A y) <= notional (score_in A x)) (concat (bags A <$> us)).
Proof.
  intros Hp. induction 1 as [|u us _ IH Hf]; [constructor|]. cbn. apply StronglySorted_app_2; [|clear IH|done].
  - intros x y Hx (w & Hw & Hy)%elem_of_concat_bags. rewrite (Hp u x Hx), (Hp w y Hy).
    rewrite Forall_forall in Hf. specialize (Hf w Hw). lia.
  - assert (forall x, x ∈ bags A u -> notional (score_in A x) = u) as Hu by (intros x; apply Hp). revert Hu.
    induction (bags A u) as [|x l IH]; intros Hu; constructor; [apply IH; set_solver|]. apply Forall_forall.
    intros y Hy. rewrite !Hu by set_solver. done.
Qed.

Lemma iter_ok A s : holds A s -> exists ns, iter thresholds max_value s = Some ns /\ nodes_of s ns (all_ids A).
Proof. intros [[Hr _ _] _]. by apply (iter_bags_ok (bags A) (score_in A)). Qed.

(** ** [iter_from] *)

Lemma iter_from_ok A s x : holds A s -> is_Some (scores A !! x) ->
  exists ns l l', iter_from thresholds s x = Ok (Some ns) /\ nodes_of s ns l' /\ all_ids A = l ++ x :: l'.
Proof.
  intros [Href Hp] Hx. pose proof Href as [Hr _ _]. apply (refines_known A s x Href) in Hx as [n Hn].
  destruct (nodes_ok_split _ _ _ _ _ (r_nodes _ _ _ _ _ Hr) Hn) as (l & l' & Hu & Hne). set (u := bag_upper n) in *.
  destruct (bags_below max_value thresholds u ok) as (us & Hdown).
  { eapply (placed_bag A _ x); [done|]. rewrite Hu. set_solver. }
  set (below := reverse _) in *.
  destruct (walk_ok (bags A) (score_in A) s u (l ++ [x]) l' Hr) as (ns1 & Hw & Hof1); [by rewrite <-app_assoc|].
  destruct (iter_bags_ok (bags A) (score_in A) s below Hr) as (ns2 & Hi & Hof2).
  exists (ns1 ++ ns2), (concat (bags A <$> us) ++ l), (l' ++ concat (bags A <$> below)). split; [|split].
  - unfold iter_from, node_get at 1. rewrite Hn. cbn [ok_or res_bind]. fold u. fold below.
    replace (node_next s n) with (first_or l' None ≫= node_get s) by (by rewrite Hne).
    rewrite Hw. cbn. by rewrite Hi.
  - by apply nodes_of_app.
  - unfold all_ids. rewrite Hdown, fmap_app, fmap_cons, concat_app. cbn [concat]. rewrite Hu. by rewrite <-!app_assoc.
Qed.
End order.
End iter.
