(* ===== verification/BagsCheck.v ===== *)
(** The state check of the bags list passes on every storage that refines the plain lists. *)

From stdpp Require Import base numbers functions list option gmap sets fin_maps sorting.
From S2P Require Import Prelude BagsList BagsSeg BagsRepr BagsOps BagsMoves BagsSpec BagsThresholds BagsRun BagsIter.

Local Open Scope Z_scope.

Section check.
Context {AccountId : Type} `{Countable AccountId}.
Abbreviation Node := (@Node AccountId).
Abbreviation Bag := (@Bag AccountId).
Abbreviation Storage := (@Storage AccountId _ _).
Abbreviation Lists := (@Lists AccountId _ _).
Implicit Types (x y : AccountId) (ids l : list AccountId) (u v : Z) (us : list Z)
  (L : Z -> list AccountId) (sc : AccountId -> Z) (s : Storage) (n : Node) (A : Lists).

(** The bags in use *)
Lemma used_bags L sc s us : repr L sc s ->
  id <$> concat (walked s <$> omap (bag_get s) us) = concat (L <$> us) /\
  Forall (fun b => exists u, L u <> [] /\ b = bag_of u (L u)) (omap (bag_get s) us).
Proof.
  intros Hr. induction us as [|u us [IH IH']]; [done|]. cbn [omap list_omap]. rewrite (bags_ok_lookup L s u (r_bags _ _ _ _ _ Hr)).
  destruct (walked_ok L sc s u Hr) as [Hids _]. cbn [fmap list_fmap concat].
  destruct (L u) as [|x l] eqn:Hu; [done|]. cbn [fmap list_fmap concat]. split.
  - by rewrite fmap_app, Hids, IH.
  - constructor; [|done]. exists u. by rewrite Hu.
Qed.

Lemma bag_check_ok L sc s u : repr L sc s -> L u <> [] -> bag_try_state s (bag_of u (L u)) = true.
Proof.
  intros Hr Hne. pose proof (r_nodes _ _ _ _ _ Hr) as Hn. pose proof (n_seg _ _ _ _ Hn u) as Hd.
  destruct (walked_ok L sc s u Hr) as [Hids _]. unfold bag_try_state, all_new. rewrite Hids.
  rewrite (bool_decide_eq_true_2 (NoDup _)) by apply Hn. rewrite andb_true_r. apply andb_true_iff. split.
  - destruct (L u) as [|x l]; [done|]. destruct Hd as [Hx _]. unfold bag_head, node_get, node_prev. cbn. rewrite Hx. done.
  - destruct (snoc_cases (L u)) as [?|(l & x & Heq)]; [done|]. rewrite Heq in *. apply dseg_lookup in Hd.
    unfold bag_tail, node_get, node_next. cbn. rewrite last_snoc. cbn. rewrite Hd. done.
Qed.

Lemma node_check_ok L sc s x n : repr L sc s -> ListNodes s !! x = Some n -> node_try_state s n = true.
Proof.
  intros Hr Hx. destruct (nodes_ok_split _ _ _ _ _ (r_nodes _ _ _ _ _ Hr) Hx) as (l & l' & Hu & Hne).
  assert (bag_get s (bag_upper n) = Some (bag_of (bag_upper n) (L (bag_upper n)))) as Hb.
  { rewrite (bags_ok_lookup L s _ (r_bags _ _ _ _ _ Hr)), Hu. by destruct l. }
  unfold node_try_state. rewrite Hb.
  pose proof (walked_ok L sc s (bag_upper n) Hr) as [Hids _]. set (ids := L (bag_upper n)) in *.
  assert (id n = x) as Hid by (by rewrite Hne). rewrite Hid.
  cbv beta iota zeta. change (head (bag_of (bag_upper n) ids)) with (first_or ids None). change (tail (bag_of (bag_upper n) ids)) with (last ids).
  unfold bag_contains. rewrite Hids, bool_decide_eq_true_2 by (rewrite Hu; set_solver). cbn [andb].
  destruct (is_terminal n) eqn:Ht; cbn [negb andb orb].
  - assert (first_or ids None = Some x \/ last ids = Some x) as Hend.
    { rewrite Hu. destruct (decide (l = [])) as [->|Hl]; [by left|]. destruct (decide (l' = [])) as [->|Hl']; [right; apply last_snoc|].
      rewrite Hne in Ht. pose proof (proj2 (is_terminal_place l l' x (bag_upper n) (sc x)) (conj Hl Hl')). congruence. }
    apply orb_true_iff. rewrite !bool_decide_eq_true. done.
  - apply orb_negb_l.
Qed.

(** Counting at 32 bits *)
Lemma count_walked s (bs : list Bag) : forall acc,
  0 <= acc -> acc + Z.of_nat (length (concat (walked s <$> bs))) < 2 ^ 32 ->
  foldl (fun acc b => wadd 32 acc (wrap 32 (Z.of_nat (length (walked s b))))) acc bs =
  acc + Z.of_nat (length (concat (walked s <$> bs))).
Proof.
  induction bs as [|b bs IH]; intros acc Hacc Hlt; cbn [foldl fmap list_fmap concat] in *; [cbn; lia|].
  rewrite length_app in *. rewrite wrap_small by (unfold in_range; lia). rewrite wadd_small by (unfold in_range; lia).
  rewrite IH by lia. lia.
Qed.

Lemma try_state_ok thresholds max_value A s :
  thresholds_ok max_value thresholds -> holds thresholds max_value A s -> do_try_state thresholds max_value s = true.
Proof.
  intros Hok Hh. pose proof Hh as [Href Hp]. pose proof Href as [Hr Hdom _].
  pose proof (refines_size A s Href) as Hc. pose proof (r_count _ _ _ _ _ Hr) as Hc'. pose proof (r_bound _ _ _ _ _ Hr) as Hbd.
  pose proof (all_ids_length thresholds max_value Hok A s Hh) as Hlen.
  destruct (used_bags _ _ s (bags_down thresholds max_value) Hr) as [Hall _].
  destruct (used_bags _ _ s (reverse (bags_down thresholds max_value)) Hr) as [Hall' Hact].
  assert (length (concat (walked s <$> active_bags thresholds max_value s)) = size (scores A)) as Hactive.
  { unfold active_bags. rewrite <-(length_fmap id), Hall', <-Hlen. apply Permutation_length, NoDup_Permutation.
    - apply (concat_bags_NoDup A s); [done|]. rewrite reverse_Permutation. by apply bags_down_NoDup.
    - by eapply all_ids_NoDup.
    - intros x. unfold all_ids. rewrite !elem_of_concat_bags. by setoid_rewrite elem_of_reverse. }
  unfold do_try_state. set (all := concat _). assert (length all = size (scores A)) as Hl.
  { unfold all. by rewrite <-(length_fmap id), Hall. }
  rewrite !wrap_small by (unfold in_range; lia). rewrite count_walked by lia. rewrite Hactive.
  rewrite !andb_true_iff, !Z.eqb_eq, !forallb_forall. split_and!; [|lia|lia| |lia|].
  - unfold all_new. rewrite bool_decide_eq_true. unfold all. rewrite Hall. by apply (all_ids_NoDup thresholds max_value Hok A s).
  - intros b Hb%list_elem_of_In. rewrite Forall_forall in Hact. destruct (Hact b Hb) as (u & Hu & ->).
    by eapply bag_check_ok.
  - intros [x n] Hx%list_elem_of_In%elem_of_map_to_list. by eapply node_check_ok.
Qed.
End check.
