(* ===== verification/BagsDropped.v ===== *)
(** A bags list whose last bag was deleted, its nodes still stored: what iteration visits then,
    and when the state check notices. *)

From stdpp Require Import base numbers functions list option gmap sets fin_maps sorting.
From S2P Require Import Prelude BagsList BagsSeg BagsRepr BagsOps BagsMoves BagsSpec BagsThresholds BagsRun BagsIter BagsCheck.

Local Open Scope Z_scope.

Section dropped.
Context {AccountId : Type} `{Countable AccountId} (thresholds : list Z) (m : Z).
Abbreviation Storage := (@Storage AccountId _ _).
Abbreviation Lists := (@Lists AccountId _ _).
Implicit Types (x y : AccountId) (u : Z) (us : list Z) (s : Storage) (A : Lists).
Hypothesis ok : thresholds_ok m thresholds.
Hypothesis no_max : m ∉ thresholds.

(** The deletion *)
Definition without_bag s u : Storage := set_bags s (delete u (ListBags s)).

Lemma bags_down_no_max : bags_down thresholds m = m :: reverse thresholds.
Proof.
  rewrite bags_down_up. unfold bags_up. rewrite bool_decide_eq_false_2, reverse_snoc; [done|].
  intros (l & ->)%last_Some. set_solver.
Qed.

Lemma without_bag_get s u w : bag_get (without_bag s u) w = if decide (w = u) then None else bag_get s w.
Proof.
  unfold bag_get, without_bag. cbn. case_decide as Hw; [subst; by rewrite lookup_delete_eq|by rewrite lookup_delete_ne].
Qed.

(** Walks only look at nodes. *)
Lemma successors_without s u k : forall n, successors (without_bag s u) k n = successors s k n.
Proof. induction k as [|k IH]; intros [n|]; cbn; [done..| |done]. by rewrite IH. Qed.

Lemma bag_iter_without s u b : bag_iter (without_bag s u) b = bag_iter s b.
Proof. unfold bag_iter, walk. by rewrite successors_without. Qed.

Lemma walked_without s u b : walked (without_bag s u) b = walked s b.
Proof. unfold walked. by rewrite successors_without. Qed.

Lemma iter_bags_without s us : m ∉ us -> iter_bags (without_bag s m) (m :: us) = iter_bags s us.
Proof.
  intros Hm. unfold iter_bags. cbn [mapM]. rewrite without_bag_get, decide_True by done. cbn [mbind option_bind].
  rewrite (Forall_mapM_ext _ (fun u => match bag_get s u with Some b => bag_iter s b | None => Some [] end)).
  - by destruct (mapM _ us).
  - apply Forall_forall. intros u Hu. rewrite without_bag_get, decide_False by (by intros ->).
    destruct (bag_get s u); [apply bag_iter_without|done].
Qed.

Lemma used_without s us : m ∉ us ->
  walked (without_bag s m) <$> omap (bag_get (without_bag s m)) (m :: us) = walked s <$> omap (bag_get s) us.
Proof.
  intros Hm. cbn [omap list_omap]. rewrite without_bag_get, decide_True by done.
  induction us as [|u us IH]; [done|]. cbn [omap list_omap]. rewrite without_bag_get, decide_False by set_solver.
  destruct (bag_get s u); cbn [fmap list_fmap]; rewrite IH by set_solver; [|done]. by rewrite walked_without.
Qed.

(** Iteration visits the ids of the other bags. *)
Lemma iter_without A s : holds thresholds m A s -> exists ns, iter thresholds m (without_bag s m) = Some ns /\
  forall x, x ∈ id <$> ns <-> exists u, x ∈ bags A u /\ u <> m.
Proof.
  intros [[Hr _ _] Hp]. destruct (iter_bags_ok _ _ s (reverse thresholds) Hr) as (ns & Hns & [Hids _]).
  exists ns. unfold iter. rewrite bags_down_no_max, iter_bags_without by (by rewrite elem_of_reverse). split; [done|].
  intros x. rewrite Hids, elem_of_concat_bags. setoid_rewrite elem_of_reverse. split.
  - intros (u & Hu & Hx). exists u. split; [done|]. by intros ->.
  - intros (u & Hx & Hu). exists u. split; [|done]. pose proof (placed_bag thresholds m ok A u x Hp Hx) as Hd.
    apply elem_of_bags_down in Hd as [?|?]; done.
Qed.

(** The check counts the ids it can reach. *)
Lemma try_state_without A s : holds thresholds m A s ->
  do_try_state thresholds m (without_bag s m) = bool_decide (bags A m = []).
Proof.
  intros Hh. pose proof Hh as [Href Hp]. pose proof Href as [Hr _ _]. case_bool_decide as Hm.
  - replace (without_bag s m) with s; [by apply (try_state_ok _ _ A)|].
    pose proof (r_bags _ _ _ _ _ Hr m) as Hb. rewrite lookup_empty, Hm in Hb. unfold without_bag. rewrite delete_id by done.
    by destruct s.
  - pose proof (refines_size A s Href) as Hc. pose proof (r_bound _ _ _ _ _ Hr) as Hbd.
    pose proof (r_count _ _ _ _ _ Hr) as Hc'.
    pose proof (all_ids_length thresholds m ok A s Hh) as Hlen. unfold all_ids in Hlen. rewrite bags_down_no_max in Hlen.
    destruct (used_bags _ _ s (reverse thresholds) Hr) as [Hall _]. apply (f_equal length) in Hall. rewrite length_fmap in Hall.
    cbn [fmap list_fmap concat] in Hlen. rewrite length_app in Hlen.
    unfold do_try_state. rewrite bags_down_no_max, used_without by (by rewrite elem_of_reverse).
    rewrite (proj2 (Z.eqb_neq (wrap 32 (Z.of_nat (length _))) _)); [by rewrite andb_false_r|].
    rewrite wrap_small by (unfold in_range; lia). destruct (bags A m); [done|]. cbn [CounterForListNodes without_bag set_bags length] in *. lia.
Qed.
End dropped.
