(* ===== verification/BagsMigrate.v ===== *)
(** Migrating the bags list to other thresholds. *)

From stdpp Require Import base numbers functions list option gmap sets fin_maps sorting.
From S2P Require Import Prelude BagsList BagsSeg BagsRepr BagsOps BagsMoves BagsSpec BagsThresholds BagsRun BagsIter.

Local Open Scope Z_scope.

Section migrate.
Context {AccountId : Type} `{Countable AccountId} (id_le : relation AccountId) `{!RelDecision id_le}.
Abbreviation Storage := (@Storage AccountId _ _).
Abbreviation Lists := (@Lists AccountId _ _).
Implicit Types (x y : AccountId) (xs : list AccountId) (u v t m : Z) (us ts : list Z) (s : Storage) (A : Lists)
  (X : gset AccountId).

(** ** The affected ids *)

Lemma affected_ids_ok A s us : refines A s -> forall seen, exists X,
  affected_ids s us seen = Some (X, list_to_set us ∪ seen) /\
  forall x, x ∈ X <-> (exists u, u ∈ us /\ (u ∉ seen) /\ x ∈ bags A u).
Proof.
  intros [Hr _ _]. induction us as [|u us IH]; intros seen; cbn [affected_ids].
  { exists ∅. split; [do 2 f_equal; set_solver|set_solver]. }
  destruct (decide (u ∈ seen)) as [Hu|Hu].
  - destruct (IH seen) as (X & Heq & HX). exists X. rewrite Heq. split; [do 2 f_equal; set_solver|].
    intros x. rewrite HX. set_solver.
  - destruct (IH ({[u]} ∪ seen)) as (X & Heq & HX). rewrite (bags_ok_lookup _ s u (r_bags _ _ _ _ _ Hr)).
    assert (exists ns, match (match bags A u with [] => None | ids => Some (bag_of u ids) end) with
      Some b => bag_iter s b | None => Some [] end = Some ns /\ id <$> ns = bags A u) as (ns & Hns & Hids).
    { destruct (bag_iter_ok _ _ s u Hr) as (ns & Hns & [Hids _]). destruct (bags A u) eqn:Hbu; [by exists []|by exists ns]. }
    rewrite Hns. cbn [mbind option_bind]. rewrite Heq. cbn [mbind option_bind fst snd]. eexists. split; [do 2 f_equal; set_solver|].
    intros x. rewrite Hids, elem_of_union, elem_of_list_to_set, HX. split.
    + intros [Hx|(w & ? & ? & ?)]; [exists u|exists w]; set_solver.
    + intros (w & [->|Hw]%elem_of_cons & Hns' & Hx); [by left|].
      destruct (decide (w = u)) as [->|]; [by left|right; exists w; set_solver].
Qed.

(** Bags whose ids move: those that are dropped, and those that a new threshold splits *)
Definition bag_affected m old ts u : Prop :=
  (u ∈ old /\ u ∉ ts) \/ (exists t, t ∈ ts /\ (t ∉ old) /\ bag_for m old t = u).

(** The other bags keep their scores. *)
Lemma unaffected_bag m old ts v : thresholds_ok m old -> thresholds_ok m ts -> v <= m ->
  ~ bag_affected m old ts (bag_for m old v) -> bag_for m ts v = bag_for m old v.
Proof.
  intros Hold Hnew Hv Hno. destruct (bag_for_least m old v Hold) as (Hin & Hge & Hle & Hl). specialize (Hge Hv).
  apply bag_for_unique; [done|done| |done|].
  - destruct Hin as [Hin|Hin]; [|by right]. left. destruct (decide (bag_for m old v ∈ ts)); [done|]. destruct Hno. by left.
  - intros t Ht Hvt. destruct (decide (t ∈ old)) as [Ho|Ho]; [by apply Hl|].
    destruct (decide (bag_for m old v <= t)) as [|Hlt]; [done|]. destruct Hno. right. exists t. split; [done|]. split; [done|].
    assert (t <= m) as Htm by (destruct Hnew as [_ Hf]; rewrite Forall_forall in Hf; by apply Hf).
    pose proof (bag_for_mono m old v t Hold Hvt Htm) as Hmono. destruct (bag_for_least m old t Hold) as (_ & _ & Htle & Htl).
    destruct Hin as [Hin|Hin]; [specialize (Htl _ Hin); lia|lia].
Qed.

(** ** Inserting ids that are not there *)

Lemma insert_many_lookup ts m f xs : forall A x, (forall y, y ∈ xs -> scores A !! y = None) ->
  scores (spec_insert_many ts m xs f A) !! x = if decide (x ∈ xs) then Some (f x) else scores A !! x.
Proof.
  induction xs as [|y xs IH] using rev_ind; intros A x Hno; [done|]. unfold spec_insert_many. rewrite foldl_app. cbn [foldl].
  fold (spec_insert_many ts m xs f A). unfold spec_insert. rewrite IH by set_solver.
  destruct (decide (y ∈ xs)) as [Hy|Hy].
  - cbn [fst]. rewrite IH by set_solver. apply decide_ext. set_solver.
  - rewrite Hno by set_solver. cbn [fst scores]. destruct (decide (x = y)) as [->|Hne].
    + rewrite lookup_insert_eq, decide_True by set_solver. done.
    + rewrite lookup_insert_ne, IH by (done || set_solver). apply decide_ext. set_solver.
Qed.

Lemma insert_many_others ts m f (P : AccountId -> Prop) `{!forall x, Decision (P x)} xs u : forall A, (forall y, y ∈ xs -> ~ P y) ->
  filter P (bags (spec_insert_many ts m xs f A) u) = filter P (bags A u).
Proof.
  induction xs as [|y xs IH]; intros A Hno; [done|]. unfold spec_insert_many in *. cbn [foldl].
  rewrite IH by set_solver. unfold spec_insert. destruct (scores A !! y); [done|]. cbn [fst bags]. unfold push.
  destruct (decide (u = notional_bag_for ts m (f y))) as [->|Hne]; [|by rewrite fn_lookup_insert_ne].
  rewrite fn_lookup_insert, filter_app, filter_cons_False, filter_nil by (apply Hno; set_solver). apply app_nil_r.
Qed.

(** Dropping leaves room for as many. *)
Lemma drop_size xs A : NoDup xs -> (forall x, x ∈ xs -> is_Some (scores A !! x)) ->
  (size (scores (spec_drop xs A)) + length xs <= size (scores A))%nat.
Proof.
  intros Hnd Hin. rewrite <-!size_dom, <-(size_list_to_set (C := gset AccountId) xs) by done.
  rewrite <-size_union.
  - apply subseteq_size. intros x [Hx|Hx]%elem_of_union; [|apply elem_of_list_to_set in Hx; by apply elem_of_dom, Hin].
    apply elem_of_dom in Hx as [v [Hv _]%map_lookup_filter_Some]. by apply elem_of_dom_2 in Hv.
  - intros x Hx Hx'%elem_of_list_to_set. by apply elem_of_dom in Hx as [v [_ ?]%map_lookup_filter_Some].
Qed.

Lemma delete_bags_absent us s : (forall u, u ∈ us -> ListBags s !! u = None) ->
  foldl (fun s u => set_bags s (delete u (ListBags s))) s us = s.
Proof.
  induction us as [|u us IH]; intros Hno; [done|]. cbn [foldl]. rewrite delete_id by (apply Hno; left).
  replace (set_bags s (ListBags s)) with s by (by destruct s). apply IH. intros w Hw. apply Hno. by right.
Qed.

(** One bag of the list is there. *)
Lemma delete_bags_only m us : forall s, m ∈ us -> (forall u, u ∈ us -> u <> m -> ListBags s !! u = None) ->
  foldl (fun s u => set_bags s (delete u (ListBags s))) s us = set_bags s (delete m (ListBags s)).
Proof.
  induction us as [|u us IH]; intros s Hm Hno; [by apply elem_of_nil in Hm|]. cbn [foldl]. destruct (decide (u = m)) as [->|Hne].
  - apply delete_bags_absent. intros w Hw. cbn. destruct (decide (w = m)) as [->|Hwm]; [apply lookup_delete_eq|].
    rewrite lookup_delete_ne by done. apply Hno; [by right|done].
  - rewrite delete_id by (apply Hno; [left|done]). replace (set_bags s (ListBags s)) with s by (by destruct s).
    apply IH; [set_solver|]. intros w Hw. apply Hno. by right.
Qed.

Lemma elem_of_btree_scores (Y : gset Z) u : u ∈ btree_scores Y <-> u ∈ Y.
Proof. unfold btree_scores. rewrite merge_sort_Permutation. apply elem_of_elements. Qed.

Lemma elem_of_btree_ids X x : x ∈ btree_ids id_le X <-> x ∈ X.
Proof. unfold btree_ids. rewrite merge_sort_Permutation. apply elem_of_elements. Qed.

(** ** [migrate] *)

Section steps.
Context (old ts : list Z) (m : Z) (score_of : AccountId -> Z).
Hypothesis old_ok : thresholds_ok m old.
Hypothesis new_ok : thresholds_ok m ts.

Definition is_affected A x : Prop := exists u, x ∈ bags A u /\ bag_affected m old ts u.

(** The layout after the migration *)
Definition migrated X A : Lists := spec_insert_many ts m (btree_ids id_le X) score_of (spec_drop (btree_ids id_le X) A).

Lemma migrated_placed A s X : holds old m A s -> (forall x v, scores A !! x = Some v -> v <= m) ->
  (forall x, x ∈ X <-> is_affected A x) -> placed ts m (spec_drop (btree_ids id_le X) A).
Proof.
  intros [Href Hp] Hmax HX u x [Hx Hu]%list_elem_of_filter. rewrite elem_of_btree_ids in Hx.
  assert (is_Some (scores A !! x)) as [v Hv] by (apply (refines_in A s); [done|by exists u]).
  assert (score_in (spec_drop (btree_ids id_le X) A) x = v) as ->.
  { unfold score_in. cbn. rewrite (proj2 (map_lookup_filter_Some _ _ _ v)); [done|].
    split; [done|]. cbn. by rewrite elem_of_btree_ids. }
  pose proof (Hp u x Hu) as Hbag. unfold score_in in Hbag. rewrite Hv in Hbag. cbn in Hbag. unfold notional_bag_for in *.
  rewrite <-Hbag. apply unaffected_bag; [done|done|by eapply Hmax|]. rewrite Hbag. intros Haff. apply Hx, HX. by exists u.
Qed.

Lemma migrated_scores A X x : (forall x, x ∈ X -> is_Some (scores A !! x)) ->
  scores (migrated X A) !! x = if decide (x ∈ X) then Some (score_of x) else scores A !! x.
Proof.
  intros HX. unfold migrated. rewrite insert_many_lookup.
  - destruct (decide (x ∈ X)) as [Hx|Hx]; [by rewrite decide_True by (by apply elem_of_btree_ids)|].
    rewrite decide_False by (by rewrite elem_of_btree_ids). cbn. destruct (scores A !! x) as [v|] eqn:Hv.
    + apply map_lookup_filter_Some. split; [done|]. cbn. by rewrite elem_of_btree_ids.
    + apply map_lookup_filter_None. by left.
  - intros y Hy. cbn. apply map_lookup_filter_None. right. intros v _ Hno. cbn in Hno. done.
Qed.

(** Both walks over affected bags *)
Lemma affected_ok A s : refines A s ->
  let aff := bag_for m old <$> btree_scores (list_to_set ts ∖ list_to_set old) in
  let rm := btree_scores (list_to_set old ∖ list_to_set ts) in
  exists X1 X2, affected_ids s aff ∅ = Some (X1, list_to_set aff ∪ ∅) /\
    affected_ids s rm (list_to_set aff ∪ ∅) = Some (X2, list_to_set rm ∪ (list_to_set aff ∪ ∅)) /\
    forall x, x ∈ X1 ∪ X2 <-> is_affected A x.
Proof.
  intros Href aff rm. destruct (affected_ids_ok A s aff Href ∅) as (X1 & Heq1 & HX1).
  destruct (affected_ids_ok A s rm Href (list_to_set aff ∪ ∅)) as (X2 & Heq2 & HX2). exists X1, X2. split; [done|]. split; [done|].
  assert (forall u, u ∈ aff <-> exists t, t ∈ ts /\ (t ∉ old) /\ bag_for m old t = u) as Haff.
  { intros u. unfold aff. rewrite list_elem_of_fmap. setoid_rewrite elem_of_btree_scores. set_solver. }
  assert (forall u, u ∈ rm <-> u ∈ old /\ u ∉ ts) as Hrm.
  { intros u. unfold rm. rewrite elem_of_btree_scores. set_solver. }
  intros x. rewrite elem_of_union, HX1, HX2. unfold is_affected, bag_affected. setoid_rewrite <-Haff. setoid_rewrite <-Hrm. split.
  - intros [(u & Hu & _ & Hx)|(u & Hu & _ & Hx)]; eauto.
  - intros (u & Hx & Hu). destruct (decide (u ∈ aff)) as [Hua|Hua]; [left; exists u; set_solver|].
    right. exists u. destruct Hu as [Hu|Hu]; [|done]. set_solver.
Qed.

(** Everything but the deletion of the dropped bags at the end *)
Lemma migrate_core A s : holds old m A s -> (forall x v, scores A !! x = Some v -> v <= m) -> ts <> old ->
  exists X s', migrate id_le ts m score_of old s =
      Some (foldl (fun s u => set_bags s (delete u (ListBags s))) s' (btree_scores (list_to_set old ∖ list_to_set ts)), Z.of_nat (size X)) /\
    (forall x, x ∈ X <-> is_affected A x) /\ holds ts m (migrated X A) s'.
Proof.
  intros Hh Hmax Hne. pose proof Hh as [Href Hp]. unfold migrate. rewrite decide_False by done.
  destruct (affected_ok A s Href) as (X1 & X2 & Heq1 & Heq2 & HX). rewrite Heq1. cbn [mbind option_bind fst snd].
  rewrite Heq2. cbn [mbind option_bind fst]. set (X := X1 ∪ X2) in *.
  assert (forall x, x ∈ btree_ids id_le X -> is_Some (scores A !! x)) as Hin.
  { intros x Hx%elem_of_btree_ids. apply HX in Hx as (u & Hx & _). apply (refines_in A s); [done|]. by exists u. }
  assert (length (btree_ids id_le X) = size X) as Hlen by (unfold btree_ids; by rewrite merge_sort_Permutation).
  pose proof (drop_size (btree_ids id_le X) A) as Hsz. rewrite Hlen in Hsz.
  specialize (Hsz ltac:(unfold btree_ids; rewrite merge_sort_Permutation; apply NoDup_elements) Hin).
  pose proof (refines_size A s Href) as Hc. pose proof (r_bound _ _ _ _ _ (ref_repr _ _ Href)) as Hbd.
  destruct (drop_refines A s (btree_ids id_le X) Href) as (s1 & Hrm & Href1). rewrite Hrm.
  destruct (insert_many_refines ts m score_of (btree_ids id_le X) _ s1 Href1) as (s2 & Hins & Href2 & _); [rewrite Hlen; lia|].
  rewrite Hins. exists X, s2. split; [|split; [done|split; [done|]]].
  - rewrite wrap_small; [done|]. unfold in_range. lia.
  - eapply placed_insert_many; [exact Href1|by eapply migrated_placed|rewrite Hlen; lia].
Qed.

(** A dropped bag other than the last one is empty by then. *)
Lemma dropped_absent A' s' u : holds ts m A' s' -> u ∉ ts -> u <> m -> ListBags s' !! u = None.
Proof.
  intros [Href Hp] Hu Hum. pose proof (r_bags _ _ _ _ _ (ref_repr _ _ Href) u) as Hb. rewrite lookup_empty in Hb. rewrite Hb.
  destruct (bags A' u) as [|x l] eqn:Hbu; [done|].
  assert (u ∈ ts \/ u = m) as [?|?] by (apply elem_of_bags_down, (placed_bag ts m new_ok A' u x Hp); rewrite Hbu; left); done.
Qed.

Lemma migrate_ok A s : holds old m A s -> (forall x v, scores A !! x = Some v -> v <= m) -> (m ∈ old -> m ∈ ts) ->
  exists X s', migrate id_le ts m score_of old s = Some (s', Z.of_nat (size X)) /\
    (forall x, x ∈ X <-> is_affected A x) /\ holds ts m (if decide (ts = old) then A else migrated X A) s'.
Proof.
  intros Hh Hmax Hm. destruct (decide (ts = old)) as [Heq|Hne].
  { exists ∅, s. unfold migrate. rewrite decide_True by done. split; [done|]. split; [|by rewrite Heq]. intros x. split; [set_solver|].
    intros (u & _ & [[? ?]|(t & ? & ? & _)]); subst; done. }
  destruct (migrate_core A s Hh Hmax Hne) as (X & s2 & Heq & HX & Hh2). exists X, s2. split; [|done].
  rewrite Heq, delete_bags_absent; [done|]. intros u Hu%elem_of_btree_scores. eapply dropped_absent; [done|set_solver|].
  intros ->. set_solver.
Qed.

(** Without the greatest score among the new thresholds, the last bag is deleted. *)
Lemma migrate_drops_last A s : holds old m A s -> (forall x v, scores A !! x = Some v -> v <= m) -> m ∈ old -> m ∉ ts ->
  exists X s', migrate id_le ts m score_of old s = Some (set_bags s' (delete m (ListBags s')), Z.of_nat (size X)) /\
    (forall x, x ∈ X <-> is_affected A x) /\ holds ts m (migrated X A) s'.
Proof.
  intros Hh Hmax Hm Hm'. destruct (migrate_core A s Hh Hmax) as (X & s2 & Heq & HX & Hh2); [by intros ->|].
  exists X, s2. split; [|done]. rewrite Heq, (delete_bags_only m); [done| |].
  - apply elem_of_btree_scores. set_solver.
  - intros u Hu%elem_of_btree_scores Hum. eapply dropped_absent; [done|set_solver|done].
Qed.

(** Scores and the order of the others after the migration *)
Lemma migrated_effect A X : (forall x, x ∈ X <-> is_affected A x) -> (forall x, x ∈ X -> is_Some (scores A !! x)) ->
  let A' := if decide (ts = old) then A else migrated X A in
  (forall x, scores A' !! x = if decide (x ∈ X) then Some (score_of x) else scores A !! x) /\
  (forall u, filter (fun x => x ∉ X) (bags A' u) = filter (fun x => x ∉ X) (bags A u)).
Proof.
  intros HX Hin A'. unfold A'. destruct (decide (ts = old)) as [Heq|Hne].
  - split; [|done]. intros x. rewrite decide_False; [done|]. intros (u & _ & [[Hu Hu']|(t & Ht & Ht' & _)])%HX.
    + by rewrite Heq in Hu'.
    + by rewrite Heq in Ht.
  - split; [intros x; by apply migrated_scores|]. intros u. unfold migrated. rewrite insert_many_others.
    + cbn [bags spec_drop]. unfold drop_ids. rewrite list_filter_filter. apply list_filter_iff. intros x.
      rewrite elem_of_btree_ids. tauto.
    + intros y Hy%elem_of_btree_ids Hno. done.
Qed.
End steps.
End migrate.
