(* ===== verification/BagsEquiv.v ===== *)
(** A layout has one storage; so operations that lead to the same layout are equal. *)

From stdpp Require Import base numbers functions list option gmap sets fin_maps sorting.
From S2P Require Import Prelude BagsList BagsSeg BagsRepr BagsOps BagsMoves BagsSpec BagsThresholds BagsRun.

Local Open Scope Z_scope.

Section equiv.
Context {AccountId : Type} `{Countable AccountId} (thresholds : list Z) (max_value : Z).
Abbreviation Node := (@Node AccountId).
Abbreviation Storage := (@Storage AccountId _ _).
Implicit Types (x y : AccountId) (xs : list AccountId) (u v : Z) (L : Z -> list AccountId) (sc : AccountId -> Z)
  (s : Storage) (n : Node).

Lemma nodes_ok_sub L sc N N' x n : nodes_ok ∅ L sc N -> nodes_ok ∅ L sc N' -> N !! x = Some n -> N' !! x = Some n.
Proof.
  intros Hn Hn' Hx. destruct (nodes_ok_split _ _ _ _ _ Hn Hx) as (l & l' & Hu & Heq).
  pose proof (n_seg _ _ _ _ Hn' (bag_upper n)) as Hd. rewrite Hu in Hd. apply dseg_lookup in Hd.
  rewrite last_or_None in Hd. congruence.
Qed.

Lemma repr_unique L sc s s' : repr L sc s -> repr L sc s' -> Events s = Events s' -> s = s'.
Proof.
  intros [Hn Hb Hc _] [Hn' Hb' Hc' _] He.
  assert (ListNodes s = ListNodes s') as HN.
  { apply map_eq. intros x. apply option_eq. intros n. split; by eapply nodes_ok_sub. }
  assert (ListBags s = ListBags s') as HB.
  { apply map_eq. intros u. specialize (Hb u). specialize (Hb' u). rewrite lookup_empty in *. congruence. }
  destruct s, s'; cbn in *. congruence.
Qed.

(** One after the other *)
Definition remove_each xs s : Storage := foldl (fun s x => (remove x s).1) s xs.

Lemma drop_ids_missing x xs L u : ~ in_layout x L -> drop_ids xs L u = drop_ids (x :: xs) L u.
Proof.
  intros Hx. rewrite drop_ids_cons. apply drop_ids_ext. symmetry. apply drop_ids_absent. intros Hu. apply Hx. by exists u.
Qed.

Lemma remove_each_ok xs : forall L sc s, repr L sc s ->
  repr (drop_ids xs L) sc (remove_each xs s) /\ Events (remove_each xs s) = Events s.
Proof.
  induction xs as [|x xs IH]; intros L sc s Hr; cbn [remove_each foldl].
  { split; [|done]. eapply repr_ext; [..|done]; [|done]. intros u. by rewrite drop_ids_nil. }
  change (foldl _ ?s xs) with (remove_each xs s).
  destruct (ListNodes s !! x) as [n|] eqn:Hx.
  - destruct (list_remove_ok L sc s x Hr) as (s1 & Heq & Hr1 & He1); [by rewrite Hx|]. rewrite Heq. cbn [fst].
    destruct (IH _ _ _ Hr1) as [Hr2 He2]. split; [|congruence]. eapply repr_ext; [..|done]; [|done].
    intros u. by rewrite drop_ids_cons.
  - rewrite remove_missing by done. cbn [fst]. destruct (IH _ _ _ Hr) as [Hr2 He2]. split; [|done].
    eapply repr_ext; [..|done]; [|done]. intros u. apply drop_ids_missing. intros Hin.
    apply (nodes_ok_dom _ _ _ _ (r_nodes _ _ _ _ _ Hr)) in Hin. by apply not_elem_of_dom in Hx.
Qed.

Lemma remove_many_each xs L sc s : repr L sc s -> (remove_many xs s).1 = remove_each xs s.
Proof.
  intros Hr. destruct (remove_many_ok xs L sc s Hr) as (s1 & Heq & Hr1 & He1). rewrite Heq. cbn [fst].
  destruct (remove_each_ok xs L sc s Hr) as [Hr2 He2]. eapply repr_unique; [done..|congruence].
Qed.

Lemma update_remove_insert L sc s x n v :
  repr L sc s -> ListNodes s !! x = Some n -> notional_bag_for thresholds max_value v <> bag_upper n ->
  (update_position_for thresholds max_value n v s).1 = (insert thresholds max_value x v (remove x s).1).1.
Proof.
  intros Hr Hx Hv. destruct (update_moves_ok thresholds max_value L sc s x n v Hr Hx Hv) as (s1 & Heq & Hr1 & He1).
  destruct (list_remove_ok L sc s x Hr) as (s2 & Heq2 & Hr2 & He2); [by rewrite Hx|].
  destruct (remove_room L sc s s2 x Hr ltac:(by rewrite Hx) Hr2) as [Hx2 Hroom].
  destruct (insert_ok thresholds max_value _ sc s2 x v Hr2 Hx2 Hroom) as (s3 & Heq3 & Hr3 & He3 & _).
  rewrite Heq, Heq2. cbn [fst]. rewrite Heq3. cbn [fst]. eapply repr_unique; [done..|congruence].
Qed.

(** ** Thresholds with and without the greatest score *)

Abbreviation with_max := (thresholds ++ [max_value]).

Lemma notional_with_max v : notional_bag_for with_max max_value v = notional_bag_for thresholds max_value v.
Proof. apply bag_for_with_max. Qed.

Lemma insert_with_max x v s : insert with_max max_value x v s = insert thresholds max_value x v s.
Proof. unfold insert. by rewrite notional_with_max. Qed.

Lemma insert_many_with_max xs f : forall s, insert_many with_max max_value xs f s = insert_many thresholds max_value xs f s.
Proof.
  induction xs as [|x xs IH]; intros s; [done|]. cbn [insert_many]. rewrite insert_with_max.
  destruct (insert thresholds max_value x (f x) s). by rewrite IH.
Qed.

Lemma do_rebag_with_max x v s : do_rebag with_max max_value x v s = do_rebag thresholds max_value x v s.
Proof. unfold do_rebag, update_position_for, is_misplaced. by rewrite notional_with_max. Qed.

Lemma run_op_with_max {Source} (lookup : Source -> option AccountId) op s :
  run_op with_max max_value lookup op s = run_op thresholds max_value lookup op s.
Proof.
  destruct op; cbn [run_op]; [by rewrite insert_with_max| |done|done| | |done|done].
  - unfold on_update, bindM. by rewrite do_rebag_with_max.
  - unfold unsafe_regenerate. by rewrite insert_many_with_max.
  - unfold rebag, bindM, on_list, liftM. destruct (ok_or origin BadOrigin); [|done..].
    destruct (ok_or (lookup dislocated) LookupFailed); [|done..]. by rewrite do_rebag_with_max.
Qed.

Lemma run_ops_with_max {Source} (lookup : Source -> option AccountId) ops : forall s,
  run_ops with_max max_value lookup ops s = run_ops thresholds max_value lookup ops s.
Proof.
  induction ops as [|op ops IH]; intros s; [done|]. cbn [run_ops]. rewrite run_op_with_max.
  destruct (run_op _ _ _ op s). by rewrite IH.
Qed.

Hypothesis omits : last thresholds <> Some max_value.

Lemma iter_with_max s : iter with_max max_value s = iter thresholds max_value s.
Proof. unfold iter. by rewrite bags_down_with_max. Qed.

Lemma iter_from_with_max s x : (forall n, ListNodes s !! x = Some n -> bag_upper n <= max_value) ->
  iter_from with_max s x = iter_from thresholds s x.
Proof.
  intros Hx. unfold iter_from, node_get. destruct (ListNodes s !! x) as [n|]; [|done]. cbn [ok_or res_bind].
  by rewrite take_below_with_max by (by apply Hx).
Qed.

Lemma try_state_with_max s : do_try_state with_max max_value s = do_try_state thresholds max_value s.
Proof. unfold do_try_state, active_bags. by rewrite bags_down_with_max. Qed.
End equiv.
