(* ===== verification/BagsProps.v ===== *)
(** What the bags list promises, from an empty storage on: after any sequence of its entry points
    it is the plain lists, its own check passes, and iteration visits everyone by bags. *)

From stdpp Require Import base numbers functions list option gmap sets fin_maps sorting.
From S2P Require Import Prelude BagsList BagsSeg BagsRepr BagsOps BagsMoves BagsSpec BagsThresholds BagsRun BagsIter BagsCheck BagsMigrate BagsEquiv.

Local Open Scope Z_scope.

(** ** Lemmas *)

Section lemmas.
Context {AccountId : Type} `{Countable AccountId} (thresholds : list Z) (max_value : Z).
Abbreviation Node := (@Node AccountId).
Abbreviation Storage := (@Storage AccountId _ _).
Abbreviation Lists := (@Lists AccountId _ _).
Abbreviation holds := (holds thresholds max_value).
Implicit Types (x y : AccountId) (s : Storage) (A : Lists) (n : Node) (ns : list Node).

Definition no_panic (o : Outcome) : Prop := o <> Listed Panic /\ o <> Called Panic.

Lemma spec_op_no_panic {Source} (lookup : Source -> option AccountId) op A :
  no_panic (spec_op thresholds max_value lookup op A).2.
Proof.
  destruct op; cbn [spec_op]; unfold spec_insert, spec_rebag, spec_remove, spec_front; by repeat case_match.
Qed.

Lemma spec_ops_no_panic {Source} (lookup : Source -> option AccountId) ops : forall A,
  Forall no_panic (spec_ops thresholds max_value lookup ops A).2.
Proof.
  induction ops as [|op ops IH]; intros A; [constructor|]. cbn [spec_ops].
  pose proof (spec_op_no_panic lookup op A) as Hop. destruct (spec_op _ _ _ op A) as [A1 o].
  specialize (IH A1). destruct (spec_ops _ _ _ ops A1) as [A2 os]. by constructor.
Qed.

Lemma reached {Source} (lookup : Source -> option AccountId) ops : Z.of_nat (adds_all ops) < 2 ^ 32 ->
  exists A, holds A (run_ops thresholds max_value lookup ops no_storage).1.
Proof.
  intros Hroom. destruct (ops_hold thresholds max_value lookup ops no_lists no_storage) as (s & Heq & Hh);
    [apply holds_empty|cbn [scores no_lists]; by rewrite map_size_empty|]. rewrite Heq. eauto.
Qed.

Lemma nodes_of_inj s ns ns' ids : nodes_of s ns ids -> nodes_of s ns' ids -> ns = ns'.
Proof.
  intros [<- Hf] [Heq Hf']. revert ns' Heq Hf'. induction Hf as [|n ns Hn _ IH]; intros [|n' ns'] Heq Hf'; try done.
  apply Forall_cons in Hf' as [Hn' Hf']. cbn in Heq. injection Heq as Hid Heq. rewrite Hid in Hn'. f_equal; [congruence|by apply IH].
Qed.

(** A stored node is the one of its score's bag. *)
Lemma stored_place A s n x : holds A s -> ListNodes s !! x = Some n ->
  id n = x /\ score n = score_in A x /\ bag_upper n = notional_bag_for thresholds max_value (score n).
Proof.
  intros [Href Hp] Hx. pose proof (ref_repr _ _ Href) as Hr.
  destruct (nodes_ok_split _ _ _ _ _ (r_nodes _ _ _ _ _ Hr) Hx) as (l & l' & Hu & Hne).
  assert (score n = score_in A x) as Hs by (by rewrite Hne). split; [by rewrite Hne|]. split; [done|].
  rewrite Hs. symmetry. apply Hp. rewrite Hu. set_solver.
Qed.

Lemma bag_for_lt m ts v v' : thresholds_ok m ts -> bag_for m ts v < bag_for m ts v' -> v <= bag_for m ts v < v'.
Proof.
  intros Hok Hlt. destruct (bag_for_least m ts v Hok) as (Hin & Hge & _ & _). destruct (bag_for_least m ts v' Hok) as (_ & _ & Hle & Hl).
  assert (bag_for m ts v ∈ ts) as Hts by (destruct Hin; [done|lia]).
  assert (v <= bag_for m ts v) as Hv.
  { unfold bag_for in *. destruct (partition_point_split (fun t => t <? v) ts) as (l & _ & _ & Heq & Hend).
    rewrite Heq in *. destruct l as [|t l]; cbn in *; lia. }
  split; [done|]. destruct (decide (v' <= bag_for m ts v)) as [Hv'|]; [|lia]. specialize (Hl _ Hts Hv'). lia.
Qed.

(** The order of iteration, on nodes *)
Definition not_above (n n' : Node) : Prop :=
  bag_upper n' <= bag_upper n /\ (bag_upper n' < bag_upper n -> score n' < score n).

Lemma iter_sorted A s ns : thresholds_ok max_value thresholds -> holds A s -> nodes_of s ns (all_ids thresholds max_value A) ->
  StronglySorted not_above ns.
Proof.
  intros Hok Hh [Hids Hf]. pose proof Hh as [_ Hp].
  pose proof (concat_sorted thresholds max_value Hok A _ Hp (bags_down_sorted thresholds max_value Hok)) as Hs.
  fold (all_ids thresholds max_value A) in Hs. rewrite <-Hids in Hs. clear Hids.
  induction Hf as [|n ns Hn Hf IH]; [constructor|]. cbn in Hs. apply StronglySorted_inv in Hs as [Hs Hall].
  constructor; [by apply IH|]. apply Forall_forall. intros n' Hn'. rewrite Forall_forall in Hall.
  rewrite Forall_forall in Hf. pose proof (Hf n' Hn') as Hlk.
  destruct (stored_place A s n (id n) Hh Hn) as (_ & Hsc & Hup). destruct (stored_place A s n' (id n') Hh Hlk) as (_ & Hsc' & Hup').
  specialize (Hall (id n') ltac:(apply list_elem_of_fmap; eauto)). rewrite <-Hsc, <-Hsc' in Hall. unfold not_above.
  rewrite Hup, Hup'. split; [done|]. unfold notional_bag_for. intros Hlt. destruct (bag_for_lt _ _ _ _ Hok Hlt). lia.
Qed.

(** Iteration without one id *)
Lemma filter_concat (P : AccountId -> Prop) `{!forall x, Decision (P x)} (ls : list (list AccountId)) :
  filter P (concat ls) = concat (filter P <$> ls).
Proof. induction ls as [|l ls IH]; [done|]. cbn. by rewrite filter_app, IH. Qed.

Lemma front_all_ids A s u a h : thresholds_ok max_value thresholds -> holds A s -> a <> h -> a ∈ bags A u -> h ∈ bags A u ->
  exists l l', filter (fun x => x ∉ [h]) (all_ids thresholds max_value A) = l ++ a :: l' /\
    concat (put_front u a h (bags A) <$> bags_down thresholds max_value) = l ++ h :: a :: l'.
Proof.
  intros Hok [Href Hp] Hne Ha Hh. pose proof (placed_bag thresholds max_value Hok A u a Hp Ha) as Hu.
  pose proof (bags_down_NoDup max_value thresholds Hok) as Hnd.
  apply list_elem_of_split in Hu as (us & us' & Hdown). unfold all_ids. rewrite Hdown in *. rewrite filter_concat, <-list_fmap_compose.
  assert (a ∈ drop_ids [h] (bags A) u) as Hin by (apply list_elem_of_filter; set_solver).
  apply list_elem_of_split_l in Hin as (l & l' & Hl & Hal).
  assert (forall ws : list Z, u ∉ ws -> put_front u a h (bags A) <$> ws = drop_ids [h] (bags A) <$> ws) as Hother.
  { intros ws Hw. apply list_fmap_ext. intros i w Hi%list_elem_of_lookup_2. unfold put_front. apply fn_lookup_insert_ne. intros ->. done. }
  rewrite <-Permutation_middle in Hnd. apply NoDup_cons in Hnd as [Hnu _]. apply not_elem_of_app in Hnu as [Hus Hus'].
  change (filter (fun x => x ∉ [h]) ∘ bags A) with (drop_ids [h] (bags A)).
  exists (concat (drop_ids [h] (bags A) <$> us) ++ l), (l' ++ concat (drop_ids [h] (bags A) <$> us')).
  rewrite !fmap_app, !fmap_cons, !concat_app, !Hother by done. cbn [concat]. unfold put_front at 1. rewrite fn_lookup_insert, Hl.
  rewrite put_before_split by done. rewrite <-!app_assoc. done.
Qed.
(** When the checks pass *)
Lemma front_check_spec f A s a h : holds A s -> front_check f s a h = None ->
  exists u, a <> h /\ a ∈ bags A u /\ h ∈ bags A u /\
    spec_front thresholds max_value f a h A = (mkLists (put_front u a h (bags A)) (scores A) (log A), Ok tt).
Proof.
  intros Hh. unfold front_check. destruct (ListNodes s !! a) as [na|] eqn:Ha; [|done].
  destruct (ListNodes s !! h) as [nh|] eqn:Hb; [|done]. destruct (decide _) as [Hbag|]; [|done].
  destruct (decide _) as [Hlt|]; [|done]. intros _. pose proof Hh as [Href Hp]. pose proof (ref_repr _ _ Href) as Hr.
  assert (is_Some (scores A !! a)) as [va Hva] by (apply (refines_known A s); rewrite ?Ha; done).
  assert (is_Some (scores A !! h)) as [vh Hvh] by (apply (refines_known A s); rewrite ?Hb; done).
  pose proof (refines_bag thresholds max_value A s a na va Href Hp Ha Hva) as Hua.
  pose proof (refines_bag thresholds max_value A s h nh vh Href Hp Hb Hvh) as Hub.
  destruct (nodes_ok_split _ _ _ _ _ (r_nodes _ _ _ _ _ Hr) Ha) as (l & l' & Hl & _).
  destruct (nodes_ok_split _ _ _ _ _ (r_nodes _ _ _ _ _ Hr) Hb) as (k & k' & Hk & _).
  exists (bag_upper na). split; [intros ->; lia|]. rewrite Hl. split; [set_solver|].
  split; [rewrite <-Hl, Hbag, Hk; set_solver|]. unfold spec_front. rewrite Hva, Hvh, !decide_True, Hua by congruence. done.
Qed.
End lemmas.
