(* ===== verification/BagsClaims.v ===== *)
(** The properties of the bags list, and runs of it. *)

From stdpp Require Import base numbers functions list option gmap sets fin_maps sorting.
From S2P Require Import Prelude BagsList BagsSeg BagsRepr BagsOps BagsMoves BagsSpec BagsThresholds BagsRun BagsIter BagsCheck BagsDropped BagsMigrate BagsEquiv BagsProps.

Local Open Scope Z_scope.

(** ** From an empty list on *)

Section claims.
Context {AccountId Source : Type} `{Countable AccountId} (thresholds : list Z) (max_value : Z)
  (lookup : Source -> option AccountId).
Abbreviation Node := (@Node AccountId).
Abbreviation Storage := (@Storage AccountId _ _).
Abbreviation after ops := (run_ops thresholds max_value lookup ops no_storage).1.
Implicit Types (x y : AccountId) (s : Storage) (ops : list (@Op AccountId Source)).

(** [C4] However the entry points of the pallet are called, the outcomes are those of plain lists
    (one for each bag) and a map of scores; nothing panics; and the linked storage is that of the
    lists at the end, with every id in the bag of its score. *)
Theorem bags_list_refines ops :
  Z.of_nat (adds_all ops) < 2 ^ 32 ->
  let spec := spec_ops thresholds max_value lookup ops no_lists in
  let run := run_ops thresholds max_value lookup ops no_storage in
  run.2 = spec.2 /\ Forall no_panic run.2 /\ refines spec.1 run.1 /\ placed thresholds max_value spec.1.
Proof.
  intros Hroom spec run. destruct (ops_hold thresholds max_value lookup ops no_lists no_storage) as (s & Heq & Href & Hp).
  - apply holds_empty.
  - cbn [scores no_lists]. by rewrite map_size_empty.
  - unfold run. rewrite Heq. split; [done|]. split; [|done]. apply spec_ops_no_panic.
Qed.

(** [C7] The pallet's own check of its state passes after any sequence of calls: no duplicates,
    the counter and all counts agree, the ends of every bag are right, and every node is in its bag. *)
Theorem bags_list_try_state ops :
  integrity_test thresholds = true -> Forall (fun t => t <= max_value) thresholds -> Z.of_nat (adds_all ops) < 2 ^ 32 ->
  do_try_state thresholds max_value (after ops) = true.
Proof.
  intros Ht Hm Hroom. destruct (reached thresholds max_value lookup ops Hroom) as [A Hh].
  apply (try_state_ok _ _ A); [|done]. split; [by apply integrity_sorted|done].
Qed.

(** [C13] Iteration ends and visits every id once.  Bags come from the greatest on: what follows a
    node is in the same bag or in a lower one, and has a smaller score in a lower one. *)
Theorem bags_list_iter ops :
  integrity_test thresholds = true -> Forall (fun t => t <= max_value) thresholds -> Z.of_nat (adds_all ops) < 2 ^ 32 ->
  exists ns, iter thresholds max_value (after ops) = Some ns /\ NoDup (id <$> ns) /\
    (forall x, x ∈ id <$> ns <-> contains (after ops) x = true) /\
    Forall (fun n => node_get (after ops) (id n) = Some n) ns /\
    Z.of_nat (length ns) = CounterForListNodes (after ops) /\ StronglySorted not_above ns.
Proof.
  intros Ht%integrity_sorted Hm Hroom. assert (thresholds_ok max_value thresholds) as Hok by done.
  destruct (reached thresholds max_value lookup ops Hroom) as [A Hh]. pose proof Hh as [Href _].
  destruct (iter_ok thresholds max_value A _ Hh) as (ns & Heq & Hof). pose proof Hof as [Hids Hf].
  exists ns. split; [done|]. rewrite <-(length_fmap id ns), Hids. split; [by eapply all_ids_NoDup|]. split.
  { intros x. unfold contains. rewrite bool_decide_eq_true, <-(refines_known A) by done. by eapply elem_of_all_ids. }
  split; [done|]. split; [|by eapply iter_sorted]. erewrite all_ids_length by done. symmetry. by apply refines_size.
Qed.

(** [iter_from] gives exactly what [iter] gives after the starting id, and the error for an id
    that is not in the list. *)
Theorem bags_list_iter_from ops x :
  integrity_test thresholds = true -> Forall (fun t => t <= max_value) thresholds -> Z.of_nat (adds_all ops) < 2 ^ 32 ->
  match node_get (after ops) x with
  | Some n => exists ns ns', iter thresholds max_value (after ops) = Some (ns ++ n :: ns') /\
                iter_from thresholds (after ops) x = Ok (Some ns')
  | None => iter_from thresholds (after ops) x = Err NodeNotFound
  end.
Proof.
  intros Ht%integrity_sorted Hm Hroom. assert (thresholds_ok max_value thresholds) as Hok by done.
  destruct (reached thresholds max_value lookup ops Hroom) as [A Hh]. pose proof Hh as [Href _]. set (s := after ops) in *.
  destruct (node_get s x) as [n|] eqn:Hx; [|unfold iter_from; by rewrite Hx].
  destruct (iter_from_ok thresholds max_value Hok A s x Hh) as (ns' & l & l' & Hfrom & Hof' & Hall).
  { apply (refines_known A s); [done|]. unfold node_get in Hx. by rewrite Hx. }
  destruct (iter_ok thresholds max_value A s Hh) as (ns & Heq & [Hids Hf]). rewrite Hall in Hids.
  apply fmap_app_inv in Hids as (ns1 & ns2 & _ & Hids2 & ->). symmetry in Hids2.
  apply fmap_cons_inv in Hids2 as (n' & ns3 & Hxn & Hl' & ->). apply Forall_app in Hf as [_ [Hn' Hf3]%Forall_cons].
  exists ns1, ns'. split; [|done]. assert (ns3 = ns') as -> by (by eapply nodes_of_inj).
  unfold node_get in Hx. rewrite Hxn in Hx. congruence.
Qed.

(** [C15] [put_in_front_of] checks in its order that both ids are there, in one bag, and that the
    heavier one has the greater score, and otherwise changes nothing.  Then the heavier one comes
    directly before the lighter one in iteration, and nothing else moves. *)
Theorem put_in_front_of_moves ops score_of lighter heavier :
  integrity_test thresholds = true -> Forall (fun t => t <= max_value) thresholds -> Z.of_nat (adds_all ops) < 2 ^ 32 ->
  let s := after ops in
  let r := put_in_front_of score_of lighter heavier s in
  match front_check score_of s lighter heavier with
  | Some e => r = (s, Err e)
  | None => r.2 = Ok tt /\ Events r.1 = Events s /\ CounterForListNodes r.1 = CounterForListNodes s /\
      exists ns ns' l l', iter thresholds max_value s = Some ns /\ iter thresholds max_value r.1 = Some ns' /\
        filter (fun x => x ∉ [heavier]) (id <$> ns) = l ++ lighter :: l' /\ id <$> ns' = l ++ heavier :: lighter :: l'
  end.
Proof.
  intros Ht%integrity_sorted Hm Hroom s r. assert (thresholds_ok max_value thresholds) as Hok by done.
  destruct (reached thresholds max_value lookup ops Hroom) as [A Hh]. fold s in Hh. pose proof Hh as [Href Hp].
  destruct (front_check score_of s lighter heavier) as [e|] eqn:Hc; [by apply put_in_front_of_refused|].
  destruct (front_check_spec thresholds max_value score_of A s lighter heavier Hh Hc) as (u & Hne & Ha & Hl & Hspec).
  destruct (front_holds thresholds max_value score_of A s lighter heavier Hh) as (s' & Heq & Hh').
  unfold r. rewrite Heq. rewrite Hspec in *. cbn [fst snd] in *. set (A' := mkLists _ _ _) in Hh'.
  split; [done|]. pose proof Hh' as [Href' _]. split; [by rewrite <-(ref_log _ _ Href), <-(ref_log _ _ Href')|].
  split; [by rewrite (refines_size A' s'), (refines_size A s)|].
  destruct (iter_ok thresholds max_value A s Hh) as (ns & Hi & [Hids _]).
  destruct (iter_ok thresholds max_value A' s' Hh') as (ns' & Hi' & [Hids' _]).
  destruct (front_all_ids thresholds max_value A s u lighter heavier Hok Hh Hne Ha Hl) as (l & l' & Hold & Hnew).
  exists ns, ns', l, l'. rewrite Hids, Hids'. done.
Qed.

(** [C16] [remove_many], which collects the bags and writes each once, leaves the storage that
    removing the ids one after the other leaves; it counts those that were there. *)
Theorem remove_many_is_repeated ops xs :
  Z.of_nat (adds_all ops) < 2 ^ 32 ->
  let s := after ops in
  remove_many xs s = (remove_each xs s, CounterForListNodes s - CounterForListNodes (remove_each xs s)).
Proof.
  intros Hroom s. destruct (reached thresholds max_value lookup ops Hroom) as [A [[Hr _ _] _]]. fold s in Hr.
  rewrite <-(remove_many_each xs _ _ s Hr). destruct (remove_many_ok xs _ _ s Hr) as (s' & Heq & _). by rewrite Heq.
Qed.

(** [update_position_for], which moves a misplaced node without deleting it, leaves the storage
    that [remove] followed by [insert] leaves. *)
Theorem update_is_remove_insert ops x n v :
  Z.of_nat (adds_all ops) < 2 ^ 32 ->
  let s := after ops in
  node_get s x = Some n -> is_misplaced thresholds max_value n v = true ->
  (update_position_for thresholds max_value n v s).1 = (insert thresholds max_value x v (remove x s).1).1.
Proof.
  intros Hroom s Hx Hmis. destruct (reached thresholds max_value lookup ops Hroom) as [A [[Hr _ _] _]]. fold s in Hr.
  eapply update_remove_insert; [done|done|]. unfold is_misplaced in Hmis. by apply negb_true_iff, Z.eqb_neq in Hmis.
Qed.

(** [C17] Threshold lists that differ only in whether they end with the greatest score behave
    identically: all calls, iteration from the start and from an id, and the state check. *)
Theorem thresholds_with_max_same ops x :
  last thresholds <> Some max_value -> Forall (fun t => t <= max_value) thresholds -> integrity_test thresholds = true ->
  Z.of_nat (adds_all ops) < 2 ^ 32 ->
  let with_max := thresholds ++ [max_value] in
  run_ops with_max max_value lookup ops no_storage = run_ops thresholds max_value lookup ops no_storage /\
  iter with_max max_value (after ops) = iter thresholds max_value (after ops) /\
  iter_from with_max (after ops) x = iter_from thresholds (after ops) x /\
  do_try_state with_max max_value (after ops) = do_try_state thresholds max_value (after ops).
Proof.
  intros Hl Hm Ht%integrity_sorted Hroom with_max. destruct (reached thresholds max_value lookup ops Hroom) as [A Hh].
  split; [apply run_ops_with_max|]. split; [by apply iter_with_max|]. split; [|by apply try_state_with_max].
  apply iter_from_with_max. intros n Hn. destruct (stored_place thresholds max_value A _ n x Hh Hn) as (_ & _ & ->).
  by destruct (bag_for_least max_value thresholds (score n)) as (_ & _ & Hle & _).
Qed.
End claims.

(** ** Migration *)

Section migration.
Context {AccountId Source : Type} `{Countable AccountId} (id_le : relation AccountId) `{!RelDecision id_le}
  (old new : list Z) (max_value : Z) (lookup : Source -> option AccountId).
Abbreviation Storage := (@Storage AccountId _ _).
Implicit Types (x y : AccountId) (s : Storage) (ops : list (@Op AccountId Source)).

(** The ids of a bag as it is stored *)
Definition ids_in_bag s u : list AccountId := id <$> walked s (bag_get_or_make s u).

Lemma ids_in_bag_ok L sc s u : repr L sc s -> ids_in_bag s u = L u.
Proof.
  intros Hr. pose proof (bags_ok_make ∅ L s u (r_bags _ _ _ _ _ Hr)) as Hb. rewrite lookup_empty in Hb. cbn in Hb.
  unfold ids_in_bag. rewrite Hb. by destruct (walked_ok L sc s u Hr).
Qed.

Lemma affected_stored A s x : holds old max_value A s ->
  is_affected old new max_value A x <-> exists n, node_get s x = Some n /\ bag_affected max_value old new (bag_upper n).
Proof.
  intros [[Hr _ _] _]. pose proof (r_nodes _ _ _ _ _ Hr) as Hn. split.
  - intros (u & Hx & Haff). destruct (nodes_ok_bag _ _ _ _ _ _ Hn Hx) as (p & q & Hx'). eexists. by split.
  - intros (n & Hx & Haff). exists (bag_upper n). split; [|done].
    destruct (nodes_ok_split _ _ _ _ _ Hn Hx) as (l & l' & -> & _). set_solver.
Qed.

(** The layouts before and after, as they are stored *)
Lemma migrated_stored A s A' s' x : holds old max_value A s -> holds new max_value A' s' ->
  (is_Some (scores A !! x) <-> is_Some (scores A' !! x)) ->
  match node_get s x, node_get s' x with
  | Some n, Some n' => score n = score_in A x /\ score n' = score_in A' x /\
      bag_upper n' = notional_bag_for new max_value (score n')
  | None, None => True
  | _, _ => False
  end.
Proof.
  intros Hh Hh' Hx. rewrite (refines_known A s), (refines_known A' s') in Hx by (apply Hh || apply Hh'). unfold node_get.
  destruct (ListNodes s !! x) as [n|] eqn:Hn, (ListNodes s' !! x) as [n'|] eqn:Hn'.
  - destruct (stored_place _ _ A s n x Hh Hn) as (_ & ? & _). by destruct (stored_place _ _ A' s' n' x Hh' Hn') as (_ & ? & ?).
  - destruct Hx as [Hx _]. destruct Hx as [? ?]; [by eexists|done].
  - destruct Hx as [_ Hx]. destruct Hx as [? ?]; [by eexists|done].
  - done.
Qed.

(** Affected ids get new scores, the others keep theirs. *)
Lemma rescored_stored score_of A s A' s' (X : gset AccountId) x : holds old max_value A s -> holds new max_value A' s' ->
  scores A' !! x = (if decide (x ∈ X) then Some (score_of x) else scores A !! x) -> (x ∈ X -> is_Some (scores A !! x)) ->
  match node_get s x, node_get s' x with
  | Some n, Some n' => score n' = (if decide (x ∈ X) then score_of x else score n) /\
      bag_upper n' = notional_bag_for new max_value (score n')
  | None, None => True
  | _, _ => False
  end.
Proof.
  intros Hh Hh' Hscore Hin. pose proof (migrated_stored A s A' s' x Hh Hh') as Hst. rewrite Hscore in Hst.
  assert (is_Some (scores A !! x) <-> is_Some (if decide (x ∈ X) then Some (score_of x) else scores A !! x)) as Hdom.
  { destruct (decide (x ∈ X)) as [Hx|]; [|done]. specialize (Hin Hx). naive_solver. }
  specialize (Hst Hdom). destruct (node_get s x), (node_get s' x); try done. destruct Hst as (-> & -> & ->).
  split; [|done]. unfold score_in. rewrite Hscore. by destruct (decide (x ∈ X)).
Qed.

(** The ids of a bag are those whose scores belong there. *)
Lemma bag_members A s x u : holds new max_value A s ->
  x ∈ bags A u <-> exists n, node_get s x = Some n /\ notional_bag_for new max_value (score n) = u.
Proof.
  intros Hh. pose proof Hh as [[Hr _ _] _]. pose proof (r_nodes _ _ _ _ _ Hr) as Hn. split.
  - intros Hx. destruct (nodes_ok_bag _ _ _ _ _ _ Hn Hx) as (p & q & Hx'). eexists. split; [done|].
    by destruct (stored_place _ _ A s _ x Hh Hx') as (_ & _ & <-).
  - intros (n & Hx & <-). destruct (stored_place _ _ A s n x Hh Hx) as (_ & _ & <-).
    destruct (nodes_ok_split _ _ _ _ _ Hn Hx) as (l & l' & -> & _). set_solver.
Qed.

Lemma scores_bound ops A : let s := (run_ops old max_value lookup ops no_storage).1 in
  holds old max_value A s -> (forall x n, node_get s x = Some n -> score n <= max_value) ->
  forall x v, scores A !! x = Some v -> v <= max_value.
Proof.
  intros s Hh Hsc x v Hv. assert (is_Some (ListNodes s !! x)) as [n Hx] by (apply (refines_known A s); rewrite ?Hv; by try apply Hh).
  destruct (stored_place _ _ A s n x Hh Hx) as (_ & Hs & _). unfold score_in in Hs. rewrite Hv in Hs. cbn in Hs.
  rewrite <-Hs. by eapply Hsc.
Qed.

(** [C14] Migrating to other thresholds, where the greatest score is among the new thresholds if it
    is among the old ones, and no score is above it: the ids of dropped and of split bags get
    the current scores, the other ids keep their scores, bags and order; every id is then in the
    bag of its score under the new thresholds, and the state check passes. *)
Theorem migrate_correct ops score_of :
  integrity_test old = true -> integrity_test new = true ->
  Forall (fun t => t <= max_value) old -> Forall (fun t => t <= max_value) new -> (max_value ∈ old -> max_value ∈ new) ->
  Z.of_nat (adds_all ops) < 2 ^ 32 ->
  let s := (run_ops old max_value lookup ops no_storage).1 in
  (forall x n, node_get s x = Some n -> score n <= max_value) ->
  exists (X : gset AccountId) s', migrate id_le new max_value score_of old s = Some (s', Z.of_nat (size X)) /\
    (forall x, x ∈ X <-> exists n, node_get s x = Some n /\ bag_affected max_value old new (bag_upper n)) /\
    (forall x, match node_get s x, node_get s' x with
       | Some n, Some n' => score n' = (if decide (x ∈ X) then score_of x else score n) /\
           bag_upper n' = notional_bag_for new max_value (score n')
       | None, None => True
       | _, _ => False
       end) /\
    (forall u, filter (fun x => x ∉ X) (ids_in_bag s' u) = filter (fun x => x ∉ X) (ids_in_bag s u)) /\
    do_try_state new max_value s' = true.
Proof.
  intros Ho%integrity_sorted Hn%integrity_sorted Hom Hnm Hmax Hroom s Hsc.
  assert (thresholds_ok max_value old) as Hold by done. assert (thresholds_ok max_value new) as Hnew by done.
  destruct (reached old max_value lookup ops Hroom) as [A Hh]. fold s in Hh. pose proof Hh as [Href _].
  destruct (migrate_ok id_le old new max_value score_of Hold Hnew A s Hh) as (X & s' & Heq & HX & Hh').
  { by apply (scores_bound ops). }
  { done. }
  set (A' := if decide (new = old) then A else _) in Hh'. exists X, s'. split; [done|].
  assert (forall x, x ∈ X -> is_Some (scores A !! x)) as Hin.
  { intros x (u & Hx & _)%HX. apply (refines_in A s); [done|]. by exists u. }
  destruct (migrated_effect id_le old new max_value score_of A X HX Hin) as [Hscores Hbags]. fold A' in Hscores, Hbags.
  split; [intros x; rewrite HX; by apply affected_stored|]. split; [|split; [|by eapply try_state_ok]].
  - intros x. apply (rescored_stored score_of A s A' s' X x Hh Hh' (Hscores x) (Hin x)).
  - intros u. rewrite (ids_in_bag_ok _ _ s u (ref_repr _ _ Href)), (ids_in_bag_ok _ _ s' u (ref_repr _ _ (h_refines _ _ _ _ Hh'))).
    apply Hbags.
Qed.

(** [C40] Migrating away from thresholds that list the greatest score, to thresholds that do not: the
    last bag, which both have, is deleted after the ids were put back.  All ids are still stored
    with their scores, but iteration does not visit those of the last bag; the state check fails
    exactly when there are such ids. *)
Theorem migrate_loses_last_bag ops score_of :
  integrity_test old = true -> integrity_test new = true ->
  Forall (fun t => t <= max_value) old -> Forall (fun t => t <= max_value) new -> max_value ∈ old -> max_value ∉ new ->
  Z.of_nat (adds_all ops) < 2 ^ 32 ->
  let s := (run_ops old max_value lookup ops no_storage).1 in
  (forall x n, node_get s x = Some n -> score n <= max_value) ->
  exists (X : gset AccountId) s' ns, migrate id_le new max_value score_of old s = Some (s', Z.of_nat (size X)) /\
    (forall x, x ∈ X <-> exists n, node_get s x = Some n /\ bag_affected max_value old new (bag_upper n)) /\
    iter new max_value s' = Some ns /\
    (forall x, match node_get s x, node_get s' x with
       | Some n, Some n' => score n' = (if decide (x ∈ X) then score_of x else score n) /\
           (x ∈ id <$> ns <-> notional_bag_for new max_value (score n') <> max_value)
       | None, None => x ∉ id <$> ns
       | _, _ => False
       end) /\
    (do_try_state new max_value s' = false <->
       exists x n', node_get s' x = Some n' /\ notional_bag_for new max_value (score n') = max_value).
Proof.
  intros Ho%integrity_sorted Hn%integrity_sorted Hom Hnm Hmax Hmax' Hroom s Hsc.
  assert (thresholds_ok max_value old) as Hold by done. assert (thresholds_ok max_value new) as Hnew by done.
  destruct (reached old max_value lookup ops Hroom) as [A Hh]. fold s in Hh. pose proof Hh as [Href _].
  destruct (migrate_drops_last id_le old new max_value score_of Hold Hnew A s Hh (scores_bound ops A Hh Hsc) Hmax Hmax')
    as (X & s' & Heq & HX & Hh'). set (A' := migrated _ _ _ _ _ _) in Hh'.
  destruct (iter_without new max_value Hnew Hmax' A' s' Hh') as (ns & Hns & Hvisit).
  exists X, (without_bag s' max_value), ns. split; [done|]. split; [intros x; rewrite HX; by apply affected_stored|]. split; [done|].
  assert (forall x, x ∈ X -> is_Some (scores A !! x)) as Hin.
  { intros x (u & Hx & _)%HX. apply (refines_in A s); [done|]. by exists u. }
  split.
  - intros x. pose proof (rescored_stored score_of A s A' s' X x Hh Hh' (migrated_scores id_le new max_value score_of A X x Hin) (Hin x)) as Hst.
    change (node_get (without_bag s' max_value) x) with (node_get s' x).
    pose proof (Hvisit x) as Hx. setoid_rewrite (bag_members A' s' x _ Hh') in Hx. destruct (node_get s x) as [n|], (node_get s' x) as [n'|]; try done.
    + destruct Hst as [Hscore _]. split; [done|]. rewrite Hx. split; [by intros (u & (? & [= <-] & <-) & Hu)|]. intros Hu. by eexists; split; [exists n'|].
    + rewrite Hx. by intros (u & (? & ? & _) & _).
  - rewrite (try_state_without new max_value Hnew Hmax' A' s' Hh'), bool_decide_eq_false.
    split.
    + intros Hne. destruct (bags A' max_value) as [|x l] eqn:Hl; [done|]. exists x. apply (bag_members A' s' x _ Hh'). rewrite Hl. left.
    + intros (x & Hx). apply (bag_members A' s' x _ Hh') in Hx. by intros Hl; rewrite Hl in Hx; apply elem_of_nil in Hx.
Qed.
End migration.
