(* ===== verification/BagsExamples.v ===== *)
(** Runs of the bags list: the properties applied to a list with four bags, and a migration that
    loses ids. *)

From stdpp Require Import base numbers functions list option gmap sets fin_maps sorting.
From S2P Require Import Prelude BagsList BagsSeg BagsRepr BagsOps BagsMoves BagsSpec BagsThresholds BagsRun BagsIter BagsCheck BagsMigrate BagsEquiv BagsProps BagsClaims.

Local Open Scope Z_scope.

Definition u64_max : Z := 2 ^ 64 - 1.
Definition tens : list Z := [10; 20; 30].

(** Addresses below a hundred are ids. *)
Definition find_id (a : Z) : option Z := if a <? 100 then Some a else None.
Definition same_score (x : Z) : Z := x.
Definition later_score (x : Z) : Z := if x =? 3 then 8 else 40.

Definition current_score (x : Z) : Z := nth (Z.to_nat x) [0; 15; 12; 8; 9; 18] 0.

Definition calls : list (@Op Z Z) :=
  [OnInsert 1 15; OnInsert 2 12; OnInsert 3 25; OnInsert 4 7; OnInsert 5 18; OnInsert 1 5;
   CallPutInFrontOf same_score (Some 5) 1; CallRebag later_score (Some 1) 3; CallRebag later_score None 4;
   CallPutInFrontOfOther same_score (Some 9) 3 2; CallRebag later_score (Some 1) 200; OnUpdate 4 9; OnRemove 6].

Definition reached_list := (run_ops tens u64_max find_id calls no_storage).1.
Definition ids_of (o : option (list (@Node Z))) : option (list Z) :=
  match o with Some ns => Some (id <$> ns) | None => None end.

Lemma bags_list_refines_witness :
  (run_ops tens u64_max find_id calls no_storage).2 =
    [Listed (Ok tt); Listed (Ok tt); Listed (Ok tt); Listed (Ok tt); Listed (Ok tt); Listed (Err Duplicate);
     Called (Ok tt); Called (Ok tt); Called (Err BadOrigin); Called (Err (List NotInSameBag)); Called (Err LookupFailed);
     Listed (Ok tt); Listed (Err NodeNotFound)] /\
  refines (spec_ops tens u64_max find_id calls no_lists).1 reached_list /\
  bags (spec_ops tens u64_max find_id calls no_lists).1 20 = [5; 1; 2] /\
  bags (spec_ops tens u64_max find_id calls no_lists).1 10 = [4; 3].
Proof.
  destruct (bags_list_refines tens u64_max find_id calls) as (Hout & _ & Href & _); [vm_compute; reflexivity|].
  split; [rewrite Hout; vm_compute; reflexivity|]. split; [exact Href|]. split; vm_compute; reflexivity.
Defined.

Lemma bags_list_try_state_witness : do_try_state tens u64_max reached_list = true.
Proof.
  apply (bags_list_try_state tens u64_max find_id calls); [vm_compute; reflexivity| |vm_compute; reflexivity].
  repeat constructor; vm_compute; discriminate.
Defined.

Lemma bags_list_iter_witness : exists ns, iter tens u64_max reached_list = Some ns /\ id <$> ns = [5; 1; 2; 4; 3] /\ StronglySorted not_above ns.
Proof.
  destruct (bags_list_iter tens u64_max find_id calls) as (ns & Hi & _ & _ & _ & _ & Hs);
    [vm_compute; reflexivity|repeat constructor; vm_compute; discriminate|vm_compute; reflexivity|].
  exists ns. split; [exact Hi|]. split; [|exact Hs].
  assert (ids_of (iter tens u64_max reached_list) = Some [5; 1; 2; 4; 3]) as He by (vm_compute; reflexivity).
  unfold reached_list in He. rewrite Hi in He. cbn in He. congruence.
Defined.

Lemma bags_list_iter_from_witness : exists n ns ns', node_get reached_list 2 = Some n /\
  iter tens u64_max reached_list = Some (ns ++ n :: ns') /\ iter_from tens reached_list 2 = Ok (Some ns').
Proof.
  pose proof (bags_list_iter_from tens u64_max find_id calls 2) as Hf. cbv zeta in Hf. fold reached_list in Hf.
  assert (exists n, node_get reached_list 2 = Some n) as [n Hn] by (eexists; vm_compute; reflexivity). rewrite Hn in Hf.
  destruct Hf as (ns & ns' & Hi & Hfrom);
    [vm_compute; reflexivity|repeat constructor; vm_compute; discriminate|vm_compute; reflexivity|].
  exists n, ns, ns'. split; [exact Hn|]. split; [exact Hi|exact Hfrom].
Defined.

Lemma put_in_front_of_moves_witness :
  (put_in_front_of same_score 1 2 reached_list).2 = Ok tt /\
  ids_of (iter tens u64_max (put_in_front_of same_score 1 2 reached_list).1) = Some [5; 2; 1; 4; 3].
Proof.
  pose proof (put_in_front_of_moves tens u64_max find_id calls same_score 1 2) as Hp. cbv zeta in Hp. fold reached_list in Hp.
  replace (front_check same_score reached_list 1 2) with (@None ListError) in Hp by (vm_compute; reflexivity).
  destruct Hp as (Hr & _); [vm_compute; reflexivity|repeat constructor; vm_compute; discriminate|vm_compute; reflexivity|].
  split; [exact Hr|vm_compute; reflexivity].
Defined.

Lemma remove_many_is_repeated_witness :
  remove_many [2; 9; 5] reached_list = (remove_each [2; 9; 5] reached_list, 2).
Proof.
  pose proof (remove_many_is_repeated tens u64_max find_id calls [2; 9; 5]) as Hr. cbv zeta in Hr. fold reached_list in Hr.
  rewrite Hr by (vm_compute; reflexivity). f_equal. 
Defined.

Lemma update_is_remove_insert_witness : exists n, node_get reached_list 1 = Some n /\
  (update_position_for tens u64_max n 33 reached_list).1 = (insert tens u64_max 1 33 (remove 1 reached_list).1).1.
Proof.
  pose proof (update_is_remove_insert tens u64_max find_id calls 1) as Hu. cbv zeta in Hu. fold reached_list in Hu.
  assert (exists n, node_get reached_list 1 = Some n) as [n Hn] by (eexists; vm_compute; reflexivity).
  exists n. split; [exact Hn|]. apply Hu; [vm_compute; reflexivity|exact Hn|].
  vm_compute in Hn. injection Hn as <-. vm_compute; reflexivity.
Defined.

Lemma thresholds_with_max_same_witness :
  run_ops (tens ++ [u64_max]) u64_max find_id calls no_storage = run_ops tens u64_max find_id calls no_storage /\
  iter_from (tens ++ [u64_max]) reached_list 2 = iter_from tens reached_list 2.
Proof.
  destruct (thresholds_with_max_same tens u64_max find_id calls 2) as (Hr & _ & Hf & _);
    [vm_compute; discriminate|repeat constructor; vm_compute; discriminate|vm_compute; reflexivity|vm_compute; reflexivity|].
  split; [exact Hr|exact Hf].
Defined.

(** ** Migration *)

(** A bag is split and another one dropped. *)
Definition others : list Z := [10; 16; 30].

Definition migrated_list := migrate Z.le others u64_max current_score tens reached_list.

(** Every score of the list fits. *)
Definition scores_fit (m : Z) (s : @Storage Z _ _) : bool :=
  bool_decide (map_Forall (fun _ n => score n <= m) (ListNodes s)).

Lemma migrate_correct_witness : exists (X : gset Z) s', migrated_list = Some (s', Z.of_nat (size X)) /\
  do_try_state others u64_max s' = true /\ ids_of (iter others u64_max s') = Some [5; 1; 2; 4; 3].
Proof.
  destruct (migrate_correct Z.le tens others u64_max find_id calls current_score) as (X & s' & Hm & _ & _ & _ & Ht).
  - vm_compute; reflexivity.
  - vm_compute; reflexivity.
  - repeat constructor; vm_compute; discriminate.
  - repeat constructor; vm_compute; discriminate.
  - intros Hin. vm_compute in Hin. exfalso. repeat (apply elem_of_cons in Hin as [Hin|Hin]; [discriminate|]). by apply elem_of_nil in Hin.
  - vm_compute; reflexivity.
  - intros x n Hx. assert (scores_fit u64_max reached_list = true) as Hfit by (vm_compute; reflexivity).
    unfold scores_fit in Hfit. apply bool_decide_eq_true in Hfit. exact (Hfit x n Hx).
  - exists X, s'. split; [exact Hm|]. split; [exact Ht|].
    assert ((fun r => ids_of (iter others u64_max r.1)) <$> migrated_list = Some (Some [5; 1; 2; 4; 3])) as He by (vm_compute; reflexivity).
    unfold migrated_list, reached_list in He. rewrite Hm in He. cbn in He. congruence.
Defined.

(** The list [[10; MAX]] behaves as [[10]]; but a migration from the first to the second puts the
    id of the last bag back into it and then drops the bag. *)
Definition listed_max : list Z := [10; u64_max].
Definition omitted_max : list Z := [10].

Definition two_calls : list (@Op Z Z) := [OnInsert 1 15; OnInsert 4 9].
Definition two_ids := (run_ops listed_max u64_max find_id two_calls no_storage).1.

Lemma migrate_loses_last_bag_witness : exists s' moved, migrate Z.le omitted_max u64_max current_score listed_max two_ids = Some (s', moved) /\
  do_try_state omitted_max u64_max s' = false /\ contains s' 1 = true /\ ids_of (iter omitted_max u64_max s') = Some [4].
Proof.
  destruct (migrate_loses_last_bag Z.le listed_max omitted_max u64_max find_id two_calls current_score)
    as (X & s' & ns & Hm & _ & Hi & _ & Ht).
  - vm_compute; reflexivity.
  - vm_compute; reflexivity.
  - repeat constructor; vm_compute; discriminate.
  - repeat constructor; vm_compute; discriminate.
  - right. left.
  - intros Hin. apply list_elem_of_singleton in Hin. discriminate.
  - vm_compute; reflexivity.
  - intros x n Hx. assert (scores_fit u64_max two_ids = true) as Hfit by (vm_compute; reflexivity).
    unfold scores_fit in Hfit. apply bool_decide_eq_true in Hfit. exact (Hfit x n Hx).
  - exists s', (Z.of_nat (size X)). split; [exact Hm|].
    assert ((fun r => (contains r.1 1, ids_of (iter omitted_max u64_max r.1), (fun n => notional_bag_for omitted_max u64_max (score n)) <$> node_get r.1 1)) <$>
      migrate Z.le omitted_max u64_max current_score listed_max two_ids = Some (true, Some [4], Some u64_max)) as He by (vm_compute; reflexivity).
    unfold two_ids in He. rewrite Hm in He. cbn [fmap option_fmap option_map fst] in He. injection He as Hc Hl Hn.
    split; [|split; [exact Hc|exact Hl]]. apply Ht. exists 1. destruct (node_get s' 1) as [n'|]; [|discriminate].
    injection Hn as Hn. exists n'. split; [reflexivity|exact Hn].
Defined.
